(* ===== verification/_CoqProject ===== *)
-Q . S2P
Prelude.v
CInt.v
Os.v
Prog.v
Utility.v
Stream.v
Transfer.v
CDouble.v
Arguments.v
Benchmarks.v
Times.v
Echo.v
EchoClient.v
EchoServer.v
Signals.v
Sockets.v
Samples.v
Process.v
RateGuard.v
Joint.v
Session.v
Coexec.v
Sound.v
Exchange.v
Guard.v
Shm.v
Mmap.v
PingPong.v
Relay.v
SignalBench.v
Mq.v
Eventfd.v
Schedules.v
Threads.v
PthreadTest.v
PthreadSum.v
ShmSync.v
ZeroMq.v
PipeBench.v
Pairs.v
Domain.v
Tcp.v
Fifo.v
Hello.v
CppExample.v
Composition.v
Anomalies.v
