(* ===== verification/Prelude.v ===== *)
(** * ipc-bench: a verification library

    ** The program

    ipc-bench measures inter-process communication on Linux. Each benchmark is a parent program
    that starts two others, a server and a client, which exchange messages over one transport
    and report times. The sources are under src/source/. common/ holds what all share: the
    command line, the clock and the statistics, starting processes, signals, socket options.
    The benchmarks over pipes, UNIX sockets and TCP (fifo/, domain/, tcp/) are echo programs
    with a window: the client keeps up to [size * rate] bytes under way and measures the
    latency of every request, the server sends back what it receives. The other benchmarks
    (shm/, mmap/, shm-sync/, mq/, pipe/, eventfd/, signal/, zeromq/) pass one message at a time.

    ** How it is modelled

    A C function is a value of [Prog.prog] (Prog.v): a tree of system and library calls
    ([Os.call], Os.v) with loops. The operating system is an environment
    [env = hist -> call -> resp]: it answers a call from the history of calls and answers of
    the process, and every theorem quantifies over it. What a theorem needs of the system is a
    type class with the documented behaviour: [KernelIO] (read, write, recv, send), [ClockOk],
    [MallocOk], [FcntlOk], [SignalsOk], [SocketsOk]; or an object that two processes share
    (Joint.v). Memory blocks are lists of bytes, and a read or write outside a block, a division
    by zero, a signed overflow, a conversion that does not fit and the use of an unassigned local
    stop the program with [Undefined].
    [eval] is the semantics, [run] its executable version (fuel bounds the number of loop
    iterations; [eval_run] says that the two agree, so fuel never weakens a statement).
    [total e I h p Q] is total correctness of [p] from history [h], together with an invariant
    [I] of all histories on the way; [safe] is the same without termination, for loops whose
    end depends on the peer; [wp] is [total] without an invariant.
    Integers keep their width (CInt.v: [u64], [i64], [i32]); doubles are IEEE (CDouble.v).

    ** Files

    - Prelude.v, CInt.v, CDouble.v: lists indexed by integers, machine integers, doubles.
    - Os.v, Prog.v: calls, programs, semantics, proof rules.
    - Utility.v, Arguments.v, Benchmarks.v, Signals.v, Sockets.v, Process.v, RateGuard.v: the
      files of the same names in common/ (Process.v also common/parent.c).
    - Stream.v: the bytes a process has received from and sent to a descriptor, as functions of
      its history; Transfer.v: the loops of [read_from_pipe], [write_to_pipe],
      [read_from_socket], [write_to_socket] over the system call (classes [InputCall],
      [OutputCall]).
    - Times.v: [updateWriteTimes], [updateReadWriteTimes].
    - Echo.v: polling, the quit flag, and the interface [TransportOk] between a transport and
      the two loops; EchoClient.v and EchoServer.v: the loops of [communicate] of the three
      clients and of the three servers, their state as a record, one definition per block of
      the loop, and their invariants.
    - Domain.v, Tcp.v, Fifo.v: the programs (modules [Client], [Server]) and the parents.
    - Composition.v: a client and a server together; Samples.v: concrete environments;
      Anomalies.v: runs in which the programs do what they do not mean to.
    - Joint.v: two processes that share an object. An [object] is a state that events change and
      that decides which answers are possible; a protocol is an automaton on the events of a process
      ([phase_of]); [coherent] is an interleaving of two histories over one object. [joint_trace]
      is the proof rule: an invariant of the object and the two phases that single events keep
      holds in every interleaving. PingPong.v: the instance in which one token goes back and forth
      (class [PingPong]: what the object has to promise).
    - Guard.v: the guard byte of shm and mmap, their loops, and the memory as an object; Shm.v
      (also common/shmSetup.c) and Mmap.v: the programs of shm/ and mmap/.
    - SignalBench.v (signal/), Mq.v (mq/), ZeroMq.v (zeromq/): programs, and pending signals and a message
      queue as objects of PingPong.v. The sockets of the ZeroMQ library are a parameter: the theorems hold
      for every object with the documented behaviour of a connected REQ/REP pair (class [ReqRep]).
    - Eventfd.v (eventfd/), PipeBench.v (pipe/), ShmSync.v (shm-sync/): programs, with automata of
      their own over the counter, over the pipe with its stream and signals, and over the mutex.
    - Session.v: what is left of a program ([head], one statement at a time), and the judgement [typed]: a
      program keeps to a session (an automaton with a guard on the calls of each phase)
      whatever the answers are, and loops only while it waits. Coexec.v: two programs and a scheduler
      ([moves], [execution], [fair]); if both programs are typed and the object is [Lively], no configuration
      that can be reached is stuck, and in every fair execution both return or one stops ([coexec_ends]). [play] runs a
      pair by a schedule. Sound.v: the judgement [sound], that a program does not stop (no error exit, no
      failed assertion, no undefined behaviour) on the answers of a set; with it both programs return
      under every fair scheduler ([coexec_returns]). Exchange.v: the abstract machine the benchmarks implement (a request and a
      reply per round). Relay.v: [Mailbox], what mq's queue and zeromq's sockets have in common.
      Pairs.v: all of them side by side. Schedules.v: two runs of eventfd/.
    - Threads.v: the threads of one process, a mutex, a condition variable and global variables, and an
      exhaustive search of all runs ([explore]); PthreadTest.v (other/pthread-test.c): the program, and its
      interleaved half by that search; PthreadSum.v: the other two by an account of what each thread will still add.
    - Hello.v (tcp/other/*.c) and CppExample.v (tcp/other/*.cpp): small programs over TCP.

    ** What is shown

    - Composition.v: for fifo, domain and tcp, in any environment, the client
      never has more than [size * rate] bytes under way, and a server that is connected to it
      never holds more than its buffer takes; neither runs into undefined behaviour, except in
      the report of a server, in the two ways the theorems name. The server's assumption about
      its peer ([PeerWindow]) is derived from the client's theorem.
    - Shm.v, Mmap.v, Mq.v, ZeroMq.v, PipeBench.v, SignalBench.v, Eventfd.v: in every interleaving of
      the two programs, finished or not, the two exclude each other, take turns, can go on, and
      receive what the other side sent; nothing is lost by merging, except the time stamps of
      eventfd-uni, for which the theorem says exactly what the server reads instead.
    - The same pairs under a scheduler: shm, mq and zeromq refine the exchange of Exchange.v (mmap does not: its
      guard overwrites the messages), and both programs of shm, mmap, mq, zeromq and pipe return under
      every fair scheduler, without an error exit or undefined behaviour ([shm_terminates] and so on;
      the conditions are below). eventfd-bi need not end, and eventfd-uni can hang (Schedules.v).
    - other/pthread-test.c: [recursive_add] and [parallel_add] print the same sum after the same number of
      calls in every interleaving; [interleaved_add] prints the same sum or loses its wake-up, and both happen.
    - tcp/other: server.c and its model choose their sockets alike while [bind] succeeds; the clients stay inside
      of their buffers; the handler of SIGCHLD reaps all dead children and ends.
    - Transfers (Fifo.v, Tcp.v, Domain.v over Transfer.v): they terminate, move exactly the bytes
      they report, and stop early only when a call fails. Latencies (Times.v): the arrays hold the
      right differences.
    - common/: command line, statistics and reports, descriptor flags, signals, clocks, starting the
      programs, guards and stamps.
    - What goes wrong: lost requests, a counter that wraps, reordered echoes (Anomalies.v), division
      by zero, uninitialised data, a block that is one byte too small, error codes that are not
      recognised, a wrong standard deviation, a comparison that truncates; a loop that never ends
      (SignalBench.v), a mutex that is never unlocked and lies outside of its segment (ShmSync.v), a
      message byte that the guard overwrites (Mmap.v), a guard that is not initialised (Shm.v), a
      signal that is sent before the peer has blocked it (PipeBench.v), a default that the README
      states otherwise (Arguments.v).

    ** Limits

    Theorems about the loops of fifo, domain and tcp assume positive arguments below [2^31]
    ([args_ok]); the products [size * count] and [size * rate] then fit 62 bits. [safe] says nothing about
    progress of a single process: that it ends depends on the scheduler and on its peer; the
    theorems about pairs say that one of the two can always go on, and for shm, mmap, mq, zeromq and
    pipe that both return under every fair scheduler. The conditions of the latter are hypotheses of the
    theorems: at least one message (the report of a server asserts a positive count), a size that is
    not negative (for mq: that the mains allow; for pipe: that fits into the pipe), and a system that
    grants what a process asks for itself ([all_granted]: memory, the clock, signal handlers). That
    an echo client ends with a peer that answers is not stated.
    The theorems about shm and mmap need a segment or a file whose first byte, the guard, is not 's' at
    the start. A new one is zeroed; one that is left over may not be, and then they are false
    ([shm_stale_guard]). The objects are those of a system without interrupted calls. For
    signal the interleavings are those in which both processes have set up their masks before a signal
    is sent; for pipe a signal to a process that has not kills it, the theorems that need it assume
    that nobody is killed, and [pipe_early_signal] shows that the programs do not ensure it. The stream
    of pipe keeps what is written until it is flushed, and a flush blocks until the pipe has room for
    all of it. The mutex of shm-sync does not record an owner that is about to wait, and so
    allows more interleavings than there are. Shared memory is sequentially
    consistent, which the C11 atomics of the guard guarantee for programs that exclude each
    other. [qsort] is one correct sort: the C library's may differ for a comparison that is
    not an order. [printf] only records its arguments. [pthread_create] succeeds in Threads.v. Functional
    extensionality is used for the laws of [bind]. Not modelled: other/semaphore-client.c and
    mq/flexible-array-test/main.c, which use undeclared names and do not compile; the functions
    [print_address] of tcp/, which nothing calls. *)

From Stdlib Require Export ZArith Lia.
From stdpp Require Export base list strings.

#[export] Set Default Proof Using "Type*".

Global Open Scope Z_scope.

(** ** Automation shared by the development *)

Create HintDb cbench discriminated.
Create Rewrite HintDb cbench.

(** Boolean comparisons of the source become propositions. *)
Ltac bool_to_prop :=
  repeat match goal with
  | H : andb _ _ = true |- _ => apply andb_prop in H as [? ?]
  | H : orb _ _ = false |- _ => apply orb_false_iff in H as [? ?]
  | H : negb _ = true |- _ => apply negb_true_iff in H
  | H : negb _ = false |- _ => apply negb_false_iff in H
  | H : Z.ltb _ _ = true |- _ => apply Z.ltb_lt in H
  | H : Z.ltb _ _ = false |- _ => apply Z.ltb_ge in H
  | H : Z.leb _ _ = true |- _ => apply Z.leb_le in H
  | H : Z.leb _ _ = false |- _ => apply Z.leb_gt in H
  | H : Z.gtb _ _ = _ |- _ => rewrite Z.gtb_ltb in H
  | H : Z.geb _ _ = _ |- _ => rewrite Z.geb_leb in H
  | H : Z.eqb _ _ = true |- _ => apply Z.eqb_eq in H
  | H : Z.eqb _ _ = false |- _ => apply Z.eqb_neq in H
  end.

(** Case analysis on the test the goal is stuck on, with its meaning. *)
Ltac case_test :=
  match goal with
  | |- context [if ?b then _ else _] =>
      lazymatch type of b with bool => destruct b eqn:?; bool_to_prop end
  end.

(** ** Lists indexed by [Z] *)

Definition zlen {A} (l : list A) : Z := Z.of_nat (length l).

Definition ztake {A} (n : Z) (l : list A) : list A := take (Z.to_nat n) l.

Definition zdrop {A} (n : Z) (l : list A) : list A := drop (Z.to_nat n) l.

Definition zslice {A} (off n : Z) (l : list A) : list A := ztake n (zdrop off l).

Section zlists.
Context {A : Type}.
Implicit Types l k : list A.

Lemma zlen_nonneg l : 0 <= zlen l.
Proof. unfold zlen. lia. Qed.

Lemma zlen_nil : zlen (@nil A) = 0.
Proof. reflexivity. Qed.

Lemma zlen_cons x l : zlen (x :: l) = 1 + zlen l.
Proof. unfold zlen. simpl. lia. Qed.

Lemma zlen_app l k : zlen (l ++ k) = zlen l + zlen k.
Proof. unfold zlen. rewrite length_app. lia. Qed.

Lemma zlen_ztake n l : zlen (ztake n l) = Z.max 0 (Z.min n (zlen l)).
Proof. unfold zlen, ztake. rewrite length_take. lia. Qed.

Lemma zlen_zdrop n l : zlen (zdrop n l) = Z.max 0 (zlen l - Z.max 0 n).
Proof. unfold zlen, zdrop. rewrite length_drop. lia. Qed.

Lemma zlen_zslice off n l :
  0 <= off -> 0 <= n -> off + n <= zlen l -> zlen (zslice off n l) = n.
Proof. intros. unfold zslice. rewrite zlen_ztake, zlen_zdrop. lia. Qed.

Lemma ztake_app_exact l k : ztake (zlen l) (l ++ k) = l.
Proof. unfold ztake, zlen. rewrite Nat2Z.id. apply take_app_length. Qed.

Lemma zdrop_app_exact l k : zdrop (zlen l) (l ++ k) = k.
Proof. unfold zdrop, zlen. rewrite Nat2Z.id. apply drop_app_length. Qed.

Lemma zdrop_zdrop n m l : 0 <= n -> 0 <= m -> zdrop n (zdrop m l) = zdrop (m + n) l.
Proof.
  intros. unfold zdrop. rewrite drop_drop. f_equal. lia.
Qed.

Lemma ztake_zdrop n l : ztake n l ++ zdrop n l = l.
Proof. apply take_drop. Qed.

Lemma zdrop_0 l : zdrop 0 l = l.
Proof. reflexivity. Qed.

Lemma ztake_0 l : ztake 0 l = [].
Proof. reflexivity. Qed.

Lemma ztake_all n l : zlen l <= n -> ztake n l = l.
Proof. intros. unfold ztake, zlen in *. apply take_ge. lia. Qed.

Lemma zlen_0_nil l : zlen l = 0 -> l = [].
Proof. destruct l; [done|]. rewrite zlen_cons. pose proof (zlen_nonneg l). lia. Qed.

Lemma ztake_add n m l :
  0 <= n -> 0 <= m -> ztake (n + m) l = ztake n l ++ zslice n m l.
Proof.
  intros. unfold zslice, ztake, zdrop.
  rewrite Z2Nat.inj_add by lia. rewrite take_take_drop. done.
Qed.

Lemma ztake_ztake n m l : 0 <= n <= m -> ztake n (ztake m l) = ztake n l.
Proof. intros. unfold ztake. rewrite take_take. f_equal. lia. Qed.
End zlists.

#[export] Hint Rewrite @zlen_nil @zlen_cons @zlen_app @zlen_ztake @zlen_zdrop : cbench.

(** Arithmetic on list lengths: the [zlen] equations, then [lia]. *)
Ltac zlen_pos :=
  repeat match goal with
  | |- context [zlen ?l] =>
      lazymatch goal with
      | _ : 0 <= zlen l |- _ => fail
      | _ => pose proof (zlen_nonneg l)
      end
  | _ : context [zlen ?l] |- _ =>
      lazymatch goal with
      | _ : 0 <= zlen l |- _ => fail
      | _ => pose proof (zlen_nonneg l)
      end
  end.

Ltac zlia := autorewrite with cbench in *; zlen_pos; lia.
