(* ===== verification/CInt.v ===== *)
(** * Machine integers of the C source

    [int] is 32 bits, [long], [size_t], [ssize_t] and [bench_t] are 64 bits (the
    LP64 targets of the build). Unsigned arithmetic wraps; a conversion to a signed type
    wraps (the documented choice of the compilers the build names). *)

From S2P Require Import Prelude.

Definition u8_mod : Z := 2 ^ 8.

Definition u64_mod : Z := 2 ^ 64.

(** Conversion of a value to [uint64_t], [size_t], [bench_t] or [unsigned long long]. *)
Definition u64 (z : Z) : Z := z mod u64_mod.

(** Conversion to [ssize_t] or [long]. *)
Definition i64 (z : Z) : Z := (z + 2 ^ 63) mod 2 ^ 64 - 2 ^ 63.

(** Conversion to [int]. *)
Definition i32 (z : Z) : Z := (z + 2 ^ 31) mod 2 ^ 32 - 2 ^ 31.

(** Conversion to [unsigned char]. *)
Definition u8 (z : Z) : Z := z mod u8_mod.

Definition in_u64 (z : Z) : Prop := 0 <= z < u64_mod.

Definition in_i64 (z : Z) : Prop := - 2 ^ 63 <= z < 2 ^ 63.

Definition in_i32 (z : Z) : Prop := - 2 ^ 31 <= z < 2 ^ 31.

Definition in_i64b (z : Z) : bool := (- 2 ^ 63 <=? z) && (z <? 2 ^ 63).

Definition in_i32b (z : Z) : bool := (- 2 ^ 31 <=? z) && (z <? 2 ^ 31).

Definition INT32_MAX : Z := 2147483647.

(** A C condition: any non-zero value is true. *)
Definition truth (z : Z) : bool := negb (z =? 0).

Lemma u64_range z : in_u64 (u64 z).
Proof. unfold in_u64, u64, u64_mod. apply Z.mod_pos_bound. lia. Qed.

Lemma u64_small z : in_u64 z -> u64 z = z.
Proof. unfold in_u64, u64. intros. by apply Z.mod_small. Qed.

Lemma i64_small z : in_i64 z -> i64 z = z.
Proof. unfold in_i64, i64. intros. rewrite Z.mod_small; lia. Qed.

Lemma i32_small z : in_i32 z -> i32 z = z.
Proof. unfold in_i32, i32. intros. rewrite Z.mod_small; lia. Qed.

Lemma i32_range z : in_i32 (i32 z).
Proof. unfold in_i32, i32. pose proof (Z.mod_pos_bound (z + 2 ^ 31) (2 ^ 32)). lia. Qed.

Lemma i64_range z : in_i64 (i64 z).
Proof. unfold in_i64, i64. pose proof (Z.mod_pos_bound (z + 2 ^ 63) (2 ^ 64)). lia. Qed.

Lemma u64_idem z : u64 (u64 z) = u64 z.
Proof. apply u64_small, u64_range. Qed.

Lemma u64_add_l a b : u64 (u64 a + b) = u64 (a + b).
Proof. unfold u64. apply Zplus_mod_idemp_l. Qed.

Lemma u64_add_r a b : u64 (a + u64 b) = u64 (a + b).
Proof. unfold u64. apply Zplus_mod_idemp_r. Qed.

Lemma u64_sub_l a b : u64 (u64 a - b) = u64 (a - b).
Proof. unfold u64. apply Zminus_mod_idemp_l. Qed.

Lemma u64_sub_r a b : u64 (a - u64 b) = u64 (a - b).
Proof. unfold u64. apply Zminus_mod_idemp_r. Qed.

Lemma i64_as_u64 z : exists k, i64 z = u64 z + k * u64_mod.
Proof.
  unfold i64, u64, u64_mod. change (2 ^ 64) with (2 * 2 ^ 63).
  pose proof (Z.div_mod (z + 2 ^ 63) (2 * 2 ^ 63)).
  pose proof (Z.div_mod z (2 * 2 ^ 63)).
  exists (z / (2 * 2 ^ 63) - (z + 2 ^ 63) / (2 * 2 ^ 63)). lia.
Qed.

Lemma u64_i64 z : u64 (i64 z) = u64 z.
Proof.
  destruct (i64_as_u64 z) as [k ->]. unfold u64.
  rewrite Z.mod_add by done. apply Z.mod_mod. done.
Qed.

Lemma i64_u64 z : i64 (u64 z) = i64 z.
Proof.
  unfold i64, u64, u64_mod. by rewrite Zplus_mod_idemp_l.
Qed.

Lemma i64_i64_add a b : i64 (i64 a + b) = i64 (a + b).
Proof. rewrite <- i64_u64, <- u64_add_l, u64_i64, u64_add_l, i64_u64. done. Qed.

Lemma i64_u64_add_l a b : i64 (u64 (i64 a) + b) = i64 (a + b).
Proof. rewrite u64_i64, <- i64_u64, u64_add_l, i64_u64. done. Qed.

Lemma in_i64b_spec z : in_i64b z = true <-> in_i64 z.
Proof. unfold in_i64b, in_i64. rewrite andb_true_iff, Z.leb_le, Z.ltb_lt. done. Qed.

Lemma in_i32b_spec z : in_i32b z = true <-> in_i32 z.
Proof. unfold in_i32b, in_i32. rewrite andb_true_iff, Z.leb_le, Z.ltb_lt. done. Qed.

#[export] Hint Resolve u64_range i32_range i64_range : cbench.
#[export] Hint Rewrite u64_idem u64_i64 i64_u64 : cbench.

(** ** The bytes of an unsigned 64-bit integer in memory (little endian) *)

Fixpoint le_word (bytes : list Z) : Z :=
  match bytes with
  | [] => 0
  | b :: bytes => b + 2 ^ 8 * le_word bytes
  end.

Fixpoint le_bytes (n : nat) (w : Z) : list Z :=
  match n with
  | O => []
  | S n => w mod 2 ^ 8 :: le_bytes n (w / 2 ^ 8)
  end.

(** A block of bytes as an array of 64-bit integers. *)
Fixpoint cells (block : list Z) : list Z :=
  match block with
  | b0 :: b1 :: b2 :: b3 :: b4 :: b5 :: b6 :: b7 :: rest =>
      le_word [b0; b1; b2; b3; b4; b5; b6; b7] :: cells rest
  | _ => []
  end.

Lemma length_le_bytes n w : length (le_bytes n w) = n.
Proof. revert w. induction n as [|n IH]; intros; cbn; [done|by rewrite IH]. Qed.

Lemma le_word_bytes n w : 0 <= w < 2 ^ (8 * Z.of_nat n) -> le_word (le_bytes n w) = w.
Proof.
  revert w. induction n as [|n IH]; intros w Hw; [cbn in *; lia|].
  cbn [le_bytes le_word]. rewrite IH.
  - pose proof (Z.div_mod w (2 ^ 8)). lia.
  - replace (8 * Z.of_nat (S n)) with (8 * Z.of_nat n + 8) in Hw by lia.
    rewrite Z.pow_add_r in Hw by lia.
    split; [apply Z.div_pos; lia|apply Z.div_lt_upper_bound; lia].
Qed.

Lemma zlen_cells n block : 0 <= n -> zlen block = 8 * n -> zlen (cells block) = n.
Proof.
  revert n. induction block as [block IH] using (induction_ltof1 _ length).
  intros n Hn Hl. unfold ltof in IH.
  do 8 (destruct block as [|? block]; [unfold zlen in *; cbn [length cells] in *; lia|]).
  cbn [cells]. rewrite zlen_cons.
  rewrite (IH block ltac:(cbn; lia) (n - 1)); [lia| |]; rewrite !zlen_cons in Hl;
    pose proof (zlen_nonneg block); lia.
Qed.
