(* ===== verification/Os.v ===== *)
(** * The interface to the operating system and the C library

    One constructor of [call] per library or system call the sources make (and per access to
    memory that another process or a signal handler also touches). The environment that
    answers the calls is a parameter of every theorem: a function from the history of the
    process and the call to the answer. *)

From Stdlib Require Export SpecFloat.
From S2P Require Import Prelude CInt.

(** Arguments of [printf]. *)
Inductive arg :=
| AInt (z : Z)
| ADbl (d : spec_float)
| AStr (s : string).

(** One node of the list [getaddrinfo] returns. *)
Record addrinfo := Addrinfo {
  ai_family : Z;
  ai_socktype : Z;
  ai_protocol : Z;
  ai_addr : list Z;
  ai_addrlen : Z
}.

(** What [getopt_long] is given: the argument vector, the short options and the long ones
    (name, whether an argument is required, the value to return). *)
Record getopt_spec := GetoptSpec {
  go_argv : list string;
  go_short : string;
  go_long : list (string * bool * Z)
}.

Inductive call :=
(* files and pipes *)
| Open (path : string) (flags : Z)
| OpenMode (path : string) (flags mode : Z)
| Close (fd : Z)
| Read (fd count : Z)
| Write (fd : Z) (buf : list Z)
| Lseek (fd off whence : Z)
| Poll (fds : list (Z * Z)) (timeout : Z)
| Fcntl (fd cmd arg : Z)
| Remove (path : string)
| Mkfifo (path : string) (mode : Z)
| Pipe
| Fdopen (fd : Z) (mode : string)
| Fread (fd size nmemb : Z)
| Fwrite (fd : Z) (buf : list Z) (size nmemb : Z)
(* sockets *)
| Socket (family socktype protocol : Z)
| Bind (fd : Z) (addr : list Z) (len : Z)
| BindPath (fd : Z) (path : string)
| Listen (fd backlog : Z)
| Accept (fd : Z)
| Connect (fd : Z) (addr : list Z) (len : Z)
| ConnectPath (fd : Z) (path : string)
| Recv (fd count flags : Z)
| Send (fd : Z) (buf : list Z) (flags : Z)
| Getsockopt (fd level opt size : Z)
| Setsockopt (fd level opt : Z) (val : list Z)
| Getaddrinfo (host port : string) (family socktype : Z)
| GetaddrinfoHints (host port : option string) (family socktype flags : Z)
| Freeaddrinfo
| InetNtop (family : Z) (addr : list Z) (size : Z)
| Gethostbyname (name : string)
(* System V IPC and mappings *)
| Ftok (path : string) (id : Z)
| Shmget (key size flags : Z)
| Shmat (id : Z)
| Shmdt
| Shmctl (id cmd : Z)
| Mmap (len fd : Z)
| Munmap (len : Z)
| Msgget (key flags : Z)
| Msgsnd (q type : Z) (buf : list Z) (flags : Z)
| Msgrcv (q size type flags : Z)
| Msgctl (q cmd : Z)
| Eventfd (init flags : Z)
(* memory shared with another process or a handler *)
| AtomicLoad (addr : Z)
| AtomicStore (addr val : Z)
| MemRead (addr len : Z)
| MemWrite (addr : Z) (val : list Z)
| LoadQuit
| StoreQuit (z : Z)
(* threads *)
| MutexLock
| MutexUnlock
| CondWait
| CondSignal
| CondBroadcast
| PthreadCreate (routine : Z) (task : list Z)
| PthreadJoin (thread : Z)
| LoadGlobal (name : string)
| StoreGlobal (name : string) (z : Z)
| PthreadInit (what : string)
| PthreadDestroy (what : string)
(* signals and processes *)
| Sigaction (signum : Z) (handler : Z) (mask : list Z) (flags : Z)
| Signal (signum : Z) (handler : Z)
| Sigprocmask (how : Z) (set : list Z)
| Sigwait (set : list Z)
| Kill (pid signum : Z)
| Getpid
| Fork
| Setpgid (pid pgid : Z)
| Execv (argv : list (option string))
| Waitpid (pid options : Z)
| SchedSetaffinity (cpus : list Z)
(* memory, time, input and output *)
| Malloc (size : Z)
| Free
| TimespecGet
| Gettimeofday
| Nanosleep (sec nsec : Z)
| Setvbuf
| Fflush
| Printf (fmt : string) (args : list arg)
| Perror (msg : string)
| Fputs (msg : string)
| CoutWrite (text : list Z)
| CinWord
| Getopt (spec : getopt_spec)
| SetOptind (z : Z)
| LoadErrno
| StoreErrno (z : Z)
| AfterArray
| Uninit
(* ZeroMQ *)
| ZmqCtxNew
| ZmqSocket (type : Z)
| ZmqBind (addr : string)
| ZmqConnect (addr : string)
| ZmqSend (buf : list Z) (size flags : Z)
| ZmqRecv (size flags : Z)
| ZmqClose
| ZmqCtxDestroy.

(** [AfterArray] stands for the bytes that happen to follow an array without a terminator, up
    to the next zero byte, when a library function reads the array as a string; [Uninit] for
    the contents of the members of a local structure that were never assigned. *)

(** The answer: the returned integer, [errno], the bytes or words stored through pointers,
    the string stored through a pointer, and the address list of [getaddrinfo]. *)
Record resp := Resp {
  ret : Z;
  errno : Z;
  data : list Z;
  optarg : string;
  addrs : list addrinfo
}.

(** An answer that only returns an integer. *)
Definition rret (z : Z) : resp := Resp z 0 [] EmptyString [].

(** An answer that returns an integer and stores data. *)
Definition rdata (z : Z) (d : list Z) : resp := Resp z 0 d EmptyString [].

(** The calls of a process and their answers, newest first. *)
Definition event : Type := call * resp.

Definition hist : Type := list event.

Definition env : Type := hist -> call -> resp.

(** ** Constants of the system headers the sources use *)

Definition EXIT_SUCCESS : Z := 0.
Definition EXIT_FAILURE : Z := 1.
Definition POLLIN : Z := 1.
Definition POLLOUT : Z := 4.
Definition MSG_DONTWAIT : Z := 64.
Definition MSG_WAITALL : Z := 256.
Definition O_RDONLY : Z := 0.
Definition O_WRONLY : Z := 1.
Definition O_RDWR : Z := 2.
Definition O_CREAT : Z := 64.
Definition O_NONBLOCK : Z := 2048.
Definition F_GETFL : Z := 3.
Definition F_SETFL : Z := 4.
Definition F_SETPIPE_SZ : Z := 1031.
Definition EAGAIN : Z := 11.
Definition SOL_SOCKET : Z := 1.
Definition SO_REUSEADDR : Z := 2.
Definition SO_SNDBUF : Z := 7.
Definition SO_RCVBUF : Z := 8.
Definition SO_RCVTIMEO : Z := 20.
Definition SO_SNDTIMEO : Z := 21.
Definition AF_UNSPEC : Z := 0.
Definition AF_UNIX : Z := 1.
Definition AF_INET : Z := 2.
Definition AF_INET6 : Z := 10.
Definition AI_PASSIVE : Z := 1.
Definition INET6_ADDRSTRLEN : Z := 46.
Definition SOCK_STREAM : Z := 1.
Definition SIGINT : Z := 2.
Definition SIGUSR1 : Z := 10.
Definition SIGUSR2 : Z := 12.
Definition SIGPIPE : Z := 13.
Definition SIGCHLD : Z := 17.
Definition SIGTTIN : Z := 21.
Definition SIG_DFL : Z := 0.
Definition SIG_IGN : Z := 1.
Definition SIG_BLOCK : Z := 0.
Definition SA_RESTART : Z := 268435456.
Definition IPC_CREAT : Z := 512.
Definition IPC_NOWAIT : Z := 2048.
Definition IPC_RMID : Z := 0.
Definition WNOHANG : Z := 1.
Definition WUNTRACED : Z := 2.
