(* ===== verification/Prog.v ===== *)
(** * Programs: a shallow embedding of the C functions

    A C function is a [prog]: it returns, stops the process, makes a call whose answer the
    environment chooses, or iterates a loop body. [eval] is the big-step semantics against an
    environment, [run] its executable version, [total] and [safe] are total and
    partial correctness, each together with an invariant of the history that holds at every
    point of the execution, also of one that never ends. *)

From S2P Require Import Prelude CInt.
From S2P Require Export Os.

(** Undefined behaviour the sources can run into. *)
Inductive ub :=
| OutOfBounds
| DivByZero
| SignedOverflow
| Indeterminate
| ConversionOverflow.

(** Why a process stops before its function returns; [Replaced]: a successful [execv];
    [ThreadExited]: [pthread_exit], which ends one thread; [Uncaught]: a C++ exception that is not caught. *)
Inductive halt :=
| Exited (code : Z)
| AssertFailed
| Replaced
| ThreadExited
| Uncaught (what : string)
| Undefined (u : ub).

Inductive prog (A : Type) : Type :=
| Ret (a : A)
| Stop (x : halt)
| Call (c : call) (k : resp -> prog A)
| Iter (S B : Type) (body : S -> prog (S + B)) (s : S) (k : B -> prog A).
Arguments Ret {A} a.
Arguments Stop {A} x.
Arguments Call {A} c k.
Arguments Iter {A S B} body s k.

Fixpoint bind {A B} (p : prog A) (f : A -> prog B) : prog B :=
  match p with
  | Ret a => f a
  | Stop x => Stop x
  | Call c k => Call c (fun r => bind (k r) f)
  | Iter body s k => Iter body s (fun b => bind (k b) f)
  end.

Declare Scope prog_scope.
Delimit Scope prog_scope with prog.
Notation "x <- p ;; q" := (bind p (fun x => q))
  (at level 20, p at level 99, q at level 200, only parsing) : prog_scope.
Notation "' pat <- p ;; q" := (bind p (fun x => match x with pat => q end))
  (at level 20, pat pattern, p at level 99, q at level 200, only parsing) : prog_scope.
Notation "p ;;; q" := (bind p (fun _ => q))
  (at level 100, q at level 200, right associativity, only parsing) : prog_scope.
Open Scope prog_scope.

(** ** Statements *)

Definition sys (c : call) : prog resp := Call c Ret.

(** A call of which only the returned integer is used. *)
Definition sysret (c : call) : prog Z := Call c (fun r => Ret (ret r)).

(** A call whose result the source ignores. *)
Definition sys_ (c : call) : prog unit := Call c (fun _ => Ret tt).

Definition exit {A} (code : Z) : prog A := Stop (Exited code).

Definition undefined {A} (u : ub) : prog A := Stop (Undefined u).

(** [assert]: the builds do not define [NDEBUG]. *)
Definition assert_ (b : bool) : prog unit := if b then Ret tt else Stop AssertFailed.

Definition when (b : bool) (p : prog unit) : prog unit := if b then p else Ret tt.

(** A loop with an explicit exit value. *)
Definition loop {S B} (body : S -> prog (S + B)) (s : S) : prog B := Iter body s Ret.

(** [while (cond) body]. *)
Definition while {S} (cond : S -> prog bool) (body : S -> prog S) (s : S) : prog S :=
  loop (fun s => b <- cond s ;; if (b : bool) then s' <- body s ;; Ret (inl s') else Ret (inr s)) s.

(** A [while] loop whose body can [break] (the flag of the body's result is [false]). *)
Definition while_break {S} (cond : S -> prog bool) (body : S -> prog (S * bool)) (s : S) : prog S :=
  loop (fun s =>
    b <- cond s ;;
    if (b : bool) then
      '(s', go) <- body s ;;
      if (go : bool) then Ret (inl s') else Ret (inr s')
    else Ret (inr s)) s.

(** Signed 64-bit addition, undefined when it overflows. *)
Definition add_i64 (a b : Z) : prog Z :=
  if in_i64b (a + b) then Ret (a + b) else undefined SignedOverflow.

(** [int] addition and multiplication, undefined when they overflow. *)
Definition add_i32 (a b : Z) : prog Z :=
  if in_i32b (a + b) then Ret (a + b) else undefined SignedOverflow.

Definition mul_i32 (a b : Z) : prog Z :=
  if in_i32b (a * b) then Ret (a * b) else undefined SignedOverflow.

Definition mul_i64 (a b : Z) : prog Z :=
  if in_i64b (a * b) then Ret (a * b) else undefined SignedOverflow.

(** Unsigned 64-bit division and remainder. *)
Definition div_u64 (a b : Z) : prog Z :=
  if b =? 0 then undefined DivByZero else Ret (a / b).

Definition mod_u64 (a b : Z) : prog Z :=
  if b =? 0 then undefined DivByZero else Ret (a mod b).

(** The bytes at [buffer + off], for a callee that reads [n] of them. *)
Definition load_bytes (buffer : list Z) (off n : Z) : prog (list Z) :=
  if (0 <=? off) && (0 <=? n) && (off + n <=? zlen buffer)
  then Ret (zslice off n buffer) else undefined OutOfBounds.

(** Stores [bytes] at [buffer + off]; a null block has no bytes. *)
Definition store_bytes (buffer : list Z) (off : Z) (bytes : list Z) : prog (list Z) :=
  if (0 <=? off) && (off + zlen bytes <=? zlen buffer)
  then Ret (ztake off buffer ++ bytes ++ zdrop (off + zlen bytes) buffer)
  else undefined OutOfBounds.

(** [malloc]: the block, empty for a null pointer. *)
Definition malloc (size : Z) : prog (list Z) := Call (Malloc size) (fun r => Ret (data r)).

Definition free : prog unit := sys_ Free.

(** ** Semantics *)

Inductive outcome (A : Type) :=
| Val (a : A)
| Halted (x : halt).
Arguments Val {A} a.
Arguments Halted {A} x.

Section semantics.
Context (e : env).

Inductive eval : forall {A}, hist -> prog A -> outcome A -> hist -> Prop :=
| eval_ret A (a : A) h : eval h (Ret a) (Val a) h
| eval_stop A x h : eval (A := A) h (Stop x) (Halted x) h
| eval_call A c (k : resp -> prog A) o h h' :
    eval ((c, e h c) :: h) (k (e h c)) o h' -> eval h (Call c k) o h'
| eval_iter_go A S B (body : S -> prog (S + B)) s s' (k : B -> prog A) o h h1 h' :
    eval h (body s) (Val (inl s')) h1 -> eval h1 (Iter body s' k) o h' ->
    eval h (Iter body s k) o h'
| eval_iter_done A S B (body : S -> prog (S + B)) s b (k : B -> prog A) o h h1 h' :
    eval h (body s) (Val (inr b)) h1 -> eval h1 (k b) o h' ->
    eval h (Iter body s k) o h'
| eval_iter_halt A S B (body : S -> prog (S + B)) s x (k : B -> prog A) h h1 :
    eval h (body s) (Halted x) h1 -> eval h (Iter body s k) (Halted x) h1.

(** The histories of an execution, finished or not. *)
Inductive visits : forall {A}, hist -> prog A -> hist -> Prop :=
| vis_here A (p : prog A) h : visits h p h
| vis_call A c (k : resp -> prog A) h h' :
    visits ((c, e h c) :: h) (k (e h c)) h' -> visits h (Call c k) h'
| vis_iter_body A S B (body : S -> prog (S + B)) s (k : B -> prog A) h h' :
    visits h (body s) h' -> visits h (Iter body s k) h'
| vis_iter_go A S B (body : S -> prog (S + B)) s s' (k : B -> prog A) h h1 h' :
    eval h (body s) (Val (inl s')) h1 -> visits h1 (Iter body s' k) h' ->
    visits h (Iter body s k) h'
| vis_iter_done A S B (body : S -> prog (S + B)) s b (k : B -> prog A) h h1 h' :
    eval h (body s) (Val (inr b)) h1 -> visits h1 (k b) h' ->
    visits h (Iter body s k) h'.

(** Execution with a bound on the nesting and number of loop iterations. *)
Fixpoint run (n : nat) {A} (h : hist) (p : prog A) {struct n} : option (outcome A * hist) :=
  let fix go (h : hist) (p : prog A) {struct p} : option (outcome A * hist) :=
    match p with
    | Ret a => Some (Val a, h)
    | Stop x => Some (Halted x, h)
    | Call c k => let r := e h c in go ((c, r) :: h) (k r)
    | Iter body s k =>
        match n with
        | O => None
        | S n' =>
            match run n' h (body s) with
            | Some (Val (inl s'), h1) => run n' h1 (Iter body s' k)
            | Some (Val (inr b), h1) => run n' h1 (k b)
            | Some (Halted x, h1) => Some (Halted x, h1)
            | None => None
            end
        end
    end
  in go h p.

(** Total correctness and an invariant of the histories. *)
Definition total {A} (I : hist -> Prop) (h : hist) (p : prog A)
    (Q : outcome A -> hist -> Prop) : Prop :=
  (forall h', visits h p h' -> I h') /\ exists o h', eval h p o h' /\ Q o h'.

(** Partial correctness and an invariant of the histories. *)
Definition safe {A} (I : hist -> Prop) (h : hist) (p : prog A)
    (Q : outcome A -> hist -> Prop) : Prop :=
  (forall h', visits h p h' -> I h') /\ (forall o h', eval h p o h' -> Q o h').
End semantics.

(** Postconditions that lift a predicate on values; a stop is excluded. *)
Definition returns {A} (Q : A -> hist -> Prop) (o : outcome A) (h : hist) : Prop :=
  match o with Val a => Q a h | Halted _ => False end.

(** The same, with a predicate for the processes that stop. *)
Definition post {A} (Q : A -> hist -> Prop) (X : halt -> hist -> Prop)
    (o : outcome A) (h : hist) : Prop :=
  match o with Val a => Q a h | Halted x => X x h end.

(** ** Metatheory *)

Section inversion.
Context (e : env).

Lemma eval_inv {A} h (p : prog A) o h' :
  eval e h p o h' ->
  match p with
  | Ret a => o = Val a /\ h' = h
  | Stop x => o = Halted x /\ h' = h
  | Call c k => eval e ((c, e h c) :: h) (k (e h c)) o h'
  | Iter body s k =>
      (exists s' h1, eval e h (body s) (Val (inl s')) h1 /\ eval e h1 (Iter body s' k) o h') \/
      (exists b h1, eval e h (body s) (Val (inr b)) h1 /\ eval e h1 (k b) o h') \/
      (exists x, eval e h (body s) (Halted x) h' /\ o = Halted x)
  end.
Proof. destruct 1; eauto 10. Qed.

Lemma visits_inv {A} h (p : prog A) h' :
  visits e h p h' ->
  h' = h \/
  match p with
  | Ret _ | Stop _ => False
  | Call c k => visits e ((c, e h c) :: h) (k (e h c)) h'
  | Iter body s k =>
      visits e h (body s) h' \/
      (exists s' h1, eval e h (body s) (Val (inl s')) h1 /\ visits e h1 (Iter body s' k) h') \/
      (exists b h1, eval e h (body s) (Val (inr b)) h1 /\ visits e h1 (k b) h')
  end.
Proof. destruct 1; eauto 10. Qed.

Lemma eval_visits {A} h (p : prog A) o h' : eval e h p o h' -> visits e h p h'.
Proof. induction 1; by econstructor. Qed.

(** The iterations of a loop body, without the continuation of the loop. *)
Inductive iters {S B} (body : S -> prog (S + B)) : hist -> S -> outcome B -> hist -> Prop :=
| iters_go h s s' o h1 h' :
    eval e h (body s) (Val (inl s')) h1 -> iters body h1 s' o h' -> iters body h s o h'
| iters_done h s b h' :
    eval e h (body s) (Val (inr b)) h' -> iters body h s (Val b) h'
| iters_halt h s x h' :
    eval e h (body s) (Halted x) h' -> iters body h s (Halted x) h'.

Inductive iter_visits {S B} (body : S -> prog (S + B)) : hist -> S -> hist -> Prop :=
| iv_body h s h' : visits e h (body s) h' -> iter_visits body h s h'
| iv_go h s s' h1 h' :
    eval e h (body s) (Val (inl s')) h1 -> iter_visits body h1 s' h' -> iter_visits body h s h'.

(** What follows a first part that ended with [o1]. *)
Definition continues {A B} (k : B -> prog A) (o1 : outcome B) (h1 : hist) (o : outcome A) h' : Prop :=
  match o1 with Val b => eval e h1 (k b) o h' | Halted x => o = Halted x /\ h' = h1 end.

Lemma eval_iters {A S B} (body : S -> prog (S + B)) s (k : B -> prog A) h o h' :
  eval e h (Iter body s k) o h' ->
  exists o1 h1, iters body h s o1 h1 /\ continues k o1 h1 o h'.
Proof.
  set (M := fun A h (p : prog A) (o : outcome A) h' =>
    match p with
    | Iter body s k => exists o1 h1, iters body h s o1 h1 /\ continues k o1 h1 o h'
    | _ => True
    end).
  enough (forall A h (p : prog A) o h', eval e h p o h' -> M A h p o h') as HM by apply HM.
  clear. intros A h p o h' H. induction H; subst M; cbn in *; try done.
  - destruct IHeval2 as (o1 & h2 & Hl & Hk). exists o1, h2. split; [|done].
    by eapply iters_go.
  - exists (Val b), h1. split; [by apply iters_done | done].
  - exists (Halted x), h1. split; [by apply iters_halt | done].
Qed.

Lemma iters_eval {A S B} (body : S -> prog (S + B)) s (k : B -> prog A) h o1 h1 o h' :
  iters body h s o1 h1 -> continues k o1 h1 o h' -> eval e h (Iter body s k) o h'.
Proof.
  induction 1; intros Hk; cbn in Hk.
  - eapply eval_iter_go; eauto.
  - by eapply eval_iter_done.
  - destruct Hk as [-> ->]. by apply eval_iter_halt.
Qed.

Lemma visits_iters {A S B} (body : S -> prog (S + B)) s (k : B -> prog A) h h' :
  visits e h (Iter body s k) h' ->
  iter_visits body h s h' \/
  (exists b h1, iters body h s (Val b) h1 /\ visits e h1 (k b) h').
Proof.
  set (M := fun A h (p : prog A) h' =>
    match p with
    | Iter body s k =>
        iter_visits body h s h' \/
        (exists b h1, iters body h s (Val b) h1 /\ visits e h1 (k b) h')
    | _ => True
    end).
  enough (forall A h (p : prog A) h', visits e h p h' -> M A h p h') as HM by apply HM.
  clear. intros A h p h' H. induction H; subst M; cbn in *; try done.
  - destruct p; try done. left. apply iv_body. constructor.
  - left. by apply iv_body.
  - destruct IHvisits as [Hl|(b & h2 & Hb & Hk)].
    + left. by eapply iv_go.
    + right. exists b, h2. split; [by eapply iters_go | done].
  - right. exists b, h1. split; [by apply iters_done | done].
Qed.

Lemma iter_visits_visits {A S B} (body : S -> prog (S + B)) s (k : B -> prog A) h h' :
  iter_visits body h s h' -> visits e h (Iter body s k) h'.
Proof. induction 1; [by apply vis_iter_body | by eapply vis_iter_go]. Qed.

(** ** Sequencing *)

Lemma eval_bind {A B} (p : prog A) (f : A -> prog B) h o1 h1 o h' :
  eval e h p o1 h1 -> continues f o1 h1 o h' -> eval e h (bind p f) o h'.
Proof.
  revert h. induction p as [A a|A x|A c k IH|A S C body IHb s k IH]; intros h Hp Hf; cbn.
  - apply eval_inv in Hp as [-> ->]. done.
  - apply eval_inv in Hp as [-> ->]. destruct Hf as [-> ->]. constructor.
  - apply eval_inv in Hp. apply eval_call. by eapply IH.
  - apply eval_iters in Hp as (o2 & h2 & Hl & Hk). eapply iters_eval; [done|].
    destruct o2; cbn in *; [by eapply IH|]. destruct Hk as [-> ->]. by destruct Hf.
Qed.

Lemma eval_bind_inv {A B} (p : prog A) (f : A -> prog B) h o h' :
  eval e h (bind p f) o h' ->
  exists o1 h1, eval e h p o1 h1 /\ continues f o1 h1 o h'.
Proof.
  revert h. induction p as [A a'|A y|A c k IH|A S C body IHb s k IH]; intros h Hp; cbn in Hp.
  - exists (Val a'), h. split; [constructor|done].
  - apply eval_inv in Hp as [-> ->]. exists (Halted y), h. split; [constructor|done].
  - apply eval_inv, IH in Hp as (o1 & h1 & H1 & H2). exists o1, h1. split; [by apply eval_call|done].
  - apply eval_iters in Hp as (o1 & h1 & Hl & Hk). destruct o1 as [b|x]; cbn in Hk.
    + apply IH in Hk as (o2 & h2 & H2 & H3). exists o2, h2. split; [|done].
      by eapply iters_eval.
    + exists (Halted x), h1. split; [|done]. by eapply iters_eval.
Qed.

Lemma visits_bind_inv {A B} (p : prog A) (f : A -> prog B) h h' :
  visits e h (bind p f) h' ->
  visits e h p h' \/ (exists a h1, eval e h p (Val a) h1 /\ visits e h1 (f a) h').
Proof.
  revert h. induction p as [A a'|A y|A c k IH|A S C body IHb s k IH]; intros h Hp; cbn in Hp.
  - right. exists a', h. split; [constructor|done].
  - apply visits_inv in Hp as [->|[]]. left. constructor.
  - apply visits_inv in Hp as [->|Hp]; [left; constructor|].
    apply IH in Hp as [Hp|(a & h1 & Hp & Hf)]; [left|right].
    + by apply vis_call.
    + exists a, h1. split; [by apply eval_call|done].
  - apply visits_iters in Hp as [Hp|(b & h1 & Hb & Hp)].
    + left. by apply iter_visits_visits.
    + apply IH in Hp as [Hp|(a & h2 & Hp & Hf)]; [left|right].
      * clear IH IHb. remember (Val b) as ob eqn:Eb.
        induction Hb; simplify_eq; [by eapply vis_iter_go, IHHb | by eapply vis_iter_done].
      * exists a, h2. split; [|done]. by eapply iters_eval.
Qed.

Lemma iters_visits {A S B} (body : S -> prog (S + B)) s (k : B -> prog A) h b h1 h' :
  iters body h s (Val b) h1 -> visits e h1 (k b) h' -> visits e h (Iter body s k) h'.
Proof.
  remember (Val b) as o eqn:E. induction 1; simplify_eq; intros Hk.
  - by eapply vis_iter_go, IHiters.
  - by eapply vis_iter_done.
Qed.

Lemma visits_bind_l {A B} (p : prog A) (f : A -> prog B) h h' :
  visits e h p h' -> visits e h (bind p f) h'.
Proof.
  revert h. induction p as [A a|A x|A c k IH|A S C body IHb s k IH]; intros h Hp; cbn.
  - apply visits_inv in Hp as [->|[]]. constructor.
  - apply visits_inv in Hp as [->|[]]. constructor.
  - apply visits_inv in Hp as [->|Hp]; [constructor|]. by apply vis_call, IH.
  - apply visits_iters in Hp as [Hp|(b & h1 & Hb & Hp)].
    + by apply iter_visits_visits.
    + eapply iters_visits; [done|]. by apply IH.
Qed.

Lemma visits_bind_r {A B} (p : prog A) (f : A -> prog B) h a h1 h' :
  eval e h p (Val a) h1 -> visits e h1 (f a) h' -> visits e h (bind p f) h'.
Proof.
  revert h. induction p as [A b|A x|A c k IH|A S C body IHb s k IH]; intros h Hp Hf; cbn.
  - by apply eval_inv in Hp as [[= <-] ->].
  - by apply eval_inv in Hp as [[=] _].
  - apply eval_inv in Hp. apply vis_call. by eapply IH.
  - apply eval_iters in Hp as (o1 & h2 & Hl & Hk). clear IHb.
    induction Hl as [h s s' o h3 h4 He Hl IHl|h s b h3 He|h s x h3 He].
    + eapply vis_iter_go; [done|]. by apply IHl.
    + eapply vis_iter_done; [done|]. by eapply IH.
    + by destruct Hk.
Qed.
End inversion.

(** ** Determinism and the executable semantics *)

Section executable.
Context (e : env).

Lemma run_eq n {A} h (p : prog A) :
  run e n h p =
  match p with
  | Ret a => Some (Val a, h)
  | Stop x => Some (Halted x, h)
  | Call c k => run e n ((c, e h c) :: h) (k (e h c))
  | Iter body s k =>
      match n with
      | O => None
      | S n' =>
          match run e n' h (body s) with
          | Some (Val (inl s'), h1) => run e n' h1 (Iter body s' k)
          | Some (Val (inr b), h1) => run e n' h1 (k b)
          | Some (Halted x, h1) => Some (Halted x, h1)
          | None => None
          end
      end
  end.
Proof. by destruct n, p. Qed.

Lemma run_mono n m {A} h (p : prog A) x :
  (n <= m)%nat -> run e n h p = Some x -> run e m h p = Some x.
Proof.
  revert m A h p x. induction n as [|n IHn]; intros m A h p x Hm; revert h x.
  - induction p as [A a|A y|A c k IH|A S B body IHb s k IH]; intros h x;
      rewrite (run_eq 0), (run_eq m); eauto. done.
  - destruct m as [|m]; [lia|].
    induction p as [A a|A y|A c k IH|A S B body IHb s k IH]; intros h x;
      rewrite (run_eq (Datatypes.S n)), (run_eq (Datatypes.S m)); eauto.
    destruct (run e n h (body s)) as [[o h1]|] eqn:E; [|done].
    rewrite (IHn m _ _ _ _ ltac:(lia) E).
    destruct o as [[s'|b]|y]; [..|done]; intros ?; (apply IHn; [lia|done]).
Qed.

Lemma eval_run {A} h (p : prog A) o h' :
  eval e h p o h' <-> exists n, run e n h p = Some (o, h').
Proof.
  split.
  - induction 1.
    + by exists 0%nat.
    + by exists 0%nat.
    + destruct IHeval as [n Hn]. exists n. by rewrite run_eq.
    + destruct IHeval1 as [n Hn], IHeval2 as [m Hm]. exists (Datatypes.S (n + m)).
      rewrite run_eq. rewrite (run_mono n (n + m) _ _ _ ltac:(lia) Hn).
      apply (run_mono m); [lia|done].
    + destruct IHeval1 as [n Hn], IHeval2 as [m Hm]. exists (Datatypes.S (n + m)).
      rewrite run_eq. rewrite (run_mono n (n + m) _ _ _ ltac:(lia) Hn).
      apply (run_mono m); [lia|done].
    + destruct IHeval as [n Hn]. exists (Datatypes.S n). rewrite run_eq, Hn. done.
  - intros [n Hn]. revert A h p o h' Hn. induction n as [|n IHn]; intros A h p; revert h.
    + induction p as [A a|A y|A c k IH|A S B body IHb s k IH]; intros h o h' H;
        rewrite run_eq in H; simplify_eq; try constructor. by apply IH.
    + induction p as [A a|A y|A c k IH|A S B body IHb s k IH]; intros h o h' H;
        rewrite run_eq in H; simplify_eq; try constructor; [by apply IH|].
      destruct (run e n h (body s)) as [[o1 h1]|] eqn:E; [|done].
      apply IHn in E. destruct o1 as [[s'|b]|y].
      * eapply eval_iter_go; [done|]. by apply IHn.
      * eapply eval_iter_done; [done|]. by apply IHn.
      * simplify_eq. by apply eval_iter_halt.
Qed.

Lemma eval_det {A} h (p : prog A) o1 h1 o2 h2 :
  eval e h p o1 h1 -> eval e h p o2 h2 -> o1 = o2 /\ h1 = h2.
Proof.
  rewrite !eval_run. intros [n Hn] [m Hm].
  pose proof (run_mono n (n + m) _ _ _ ltac:(lia) Hn).
  pose proof (run_mono m (n + m) _ _ _ ltac:(lia) Hm). by simplify_eq.
Qed.
End executable.

(** ** Rules of total correctness *)

Section total_rules.
Context (e : env) (I : hist -> Prop).

Lemma total_conseq {A} h (p : prog A) (Q R : outcome A -> hist -> Prop) :
  total e I h p Q -> (forall o h', I h' -> Q o h' -> R o h') -> total e I h p R.
Proof.
  intros (HI & o & h' & H & HQ) HR. split; [done|]. exists o, h'. split; [done|].
  apply HR; [|done]. by eapply HI, eval_visits.
Qed.

Lemma total_safe {A} h (p : prog A) (Q : outcome A -> hist -> Prop) :
  total e I h p Q -> safe e I h p Q.
Proof.
  intros (HI & o1 & h1 & H1 & HQ). split; [done|]. intros o h' H.
  by destruct (eval_det _ _ _ _ _ _ _ H1 H) as [<- <-].
Qed.

Lemma total_ret {A} h (a : A) (Q : outcome A -> hist -> Prop) :
  I h -> Q (Val a) h -> total e I h (Ret a) Q.
Proof.
  intros HI HQ. split; [by intros h' [->|[]]%visits_inv|].
  exists (Val a), h. split; [constructor|done].
Qed.

Lemma total_stop {A} h x (Q : outcome A -> hist -> Prop) :
  I h -> Q (Halted x) h -> total e I h (Stop x) Q.
Proof.
  intros HI HQ. split; [by intros h' [->|[]]%visits_inv|].
  exists (Halted x), h. split; [constructor|done].
Qed.

Lemma total_call {A} h c (k : resp -> prog A) (Q : outcome A -> hist -> Prop) :
  I h -> total e I ((c, e h c) :: h) (k (e h c)) Q -> total e I h (Call c k) Q.
Proof.
  intros HI (HI' & o & h' & H & HQ). split.
  - intros h1 [->|?]%visits_inv; [done|by apply HI'].
  - exists o, h'. split; [by apply eval_call|done].
Qed.

Lemma total_bind {A B} h (p : prog A) (f : A -> prog B) (Q : outcome B -> hist -> Prop) :
  total e I h p (post (fun a h' => total e I h' (f a) Q) (fun x h' => Q (Halted x) h')) ->
  total e I h (bind p f) Q.
Proof.
  intros (HI & o1 & h1 & H & HQ). split.
  - intros h' [?|(a & h2 & Hp & Hf)]%visits_bind_inv; [by apply HI|].
    destruct (eval_det _ _ _ _ _ _ _ H Hp) as [-> ->]. by apply HQ.
  - destruct o1 as [a|x]; cbn in HQ.
    + destruct HQ as (_ & o & h' & Hf & HQ). exists o, h'. split; [|done]. by eapply eval_bind.
    + exists (Halted x), h1. split; [|done]. by eapply eval_bind.
Qed.

Lemma loop_visits {S B} (J : S -> hist -> Prop) (body : S -> prog (S + B)) h s :
  (forall s h, J s h ->
    safe e I h (body s) (post (fun r h' =>
      match r with inl s' => J s' h' | inr _ => True end) (fun _ _ => True))) ->
  J s h -> forall h', visits e h (loop body s) h' -> I h'.
Proof.
  intros Hb HJ h' [Hv|(b & h1 & Hl & Hv)]%visits_iters.
  - induction Hv as [h s h' Hv|h s s' h1 h' He Hv IH].
    + by apply (Hb s h HJ).
    + apply IH. by apply (Hb s h HJ) in He.
  - apply visits_inv in Hv as [->|[]]. remember (Val b) as ob eqn:Eb.
    induction Hl as [h s s' o h1 h' He Hl IH|h s b' h' He|]; simplify_eq.
    + apply IH; [|done]. by apply (Hb s h HJ) in He.
    + by eapply (Hb s h HJ), eval_visits.
Qed.

(** A loop with an invariant and a measure. *)
Lemma total_loop {S B} (J : S -> hist -> Prop) (mu : S -> nat) (body : S -> prog (S + B)) h s
    (Q : outcome B -> hist -> Prop) :
  (forall s h, J s h ->
    total e I h (body s) (post (fun r h' =>
      match r with
      | inl s' => J s' h' /\ (mu s' < mu s)%nat
      | inr b => Q (Val b) h'
      end) (fun x h' => Q (Halted x) h'))) ->
  J s h -> total e I h (loop body s) Q.
Proof.
  intros Hb HJ. split.
  { apply (loop_visits J); [|done]. intros s1 h1 H1. apply total_safe.
    eapply total_conseq; [by apply Hb|]. intros [[?|?]|?] ? _; cbn; [by intros []|done|done]. }
  remember (mu s) as n eqn:En. revert s h En HJ.
  induction (lt_wf n) as [n _ IH]. intros s h -> HJ.
  destruct (Hb s h HJ) as (_ & [[s'|b]|x] & h1 & H & HQ); cbn in HQ.
  - destruct HQ as [HJ' Hmu]. destruct (IH _ Hmu s' h1 eq_refl HJ') as (o & h' & Hl & HQ).
    exists o, h'. split; [by eapply eval_iter_go|done].
  - exists (Val b), h1. split; [|done]. eapply eval_iter_done; [done|constructor].
  - exists (Halted x), h1. split; [by apply eval_iter_halt|done].
Qed.

(** The measure of most loops of the sources: a bound that an integer approaches. *)
Lemma total_loop_up {S B} (J : S -> hist -> Prop) (m : Z) (f : S -> Z) (body : S -> prog (S + B))
    h s (Q : outcome B -> hist -> Prop) :
  (forall s h, J s h ->
    total e I h (body s) (post (fun r h' =>
      match r with
      | inl s' => J s' h' /\ f s < f s' <= m
      | inr b => Q (Val b) h'
      end) (fun x h' => Q (Halted x) h'))) ->
  J s h -> total e I h (loop body s) Q.
Proof.
  intros Hb. apply (total_loop J (fun s => Z.to_nat (m - f s))). intros s' h' HJ.
  eapply total_conseq; [by apply Hb|]. intros [[s''|b]|x] h'' _; cbn; try done.
  intros [??]. split; [done|lia].
Qed.
End total_rules.

(** ** Rules of partial correctness with an invariant *)

Section safe_rules.
Context (e : env) (I : hist -> Prop).

Lemma safe_conseq {A} h (p : prog A) (Q R : outcome A -> hist -> Prop) :
  safe e I h p Q -> (forall o h', I h' -> Q o h' -> R o h') -> safe e I h p R.
Proof.
  intros [HI HQ] HR. split; [done|]. intros o h' H. apply HR; [|by apply HQ].
  by eapply HI, eval_visits.
Qed.

Lemma safe_weaken (J : hist -> Prop) {A} h (p : prog A) (Q : outcome A -> hist -> Prop) :
  (forall h', J h' -> I h') -> safe e J h p Q -> safe e I h p Q.
Proof. intros HJ [H1 H2]. split; [|done]. intros h' Hv. by apply HJ, H1. Qed.

Lemma safe_ret {A} h (a : A) (Q : outcome A -> hist -> Prop) :
  I h -> Q (Val a) h -> safe e I h (Ret a) Q.
Proof.
  intros HI HQ. split; [by intros h' [->|[]]%visits_inv|].
  by intros o h' [-> ->]%eval_inv.
Qed.

Lemma safe_stop {A} h x (Q : outcome A -> hist -> Prop) :
  I h -> Q (Halted x) h -> safe e I h (Stop x) Q.
Proof.
  intros HI HQ. split; [by intros h' [->|[]]%visits_inv|].
  by intros o h' [-> ->]%eval_inv.
Qed.

Lemma safe_call {A} h c (k : resp -> prog A) (Q : outcome A -> hist -> Prop) :
  I h -> safe e I ((c, e h c) :: h) (k (e h c)) Q -> safe e I h (Call c k) Q.
Proof.
  intros HI [HI' HQ]. split.
  - intros h' [->|?]%visits_inv; [done|by apply HI'].
  - intros o h' ?%eval_inv. by apply HQ.
Qed.

Lemma safe_bind {A B} h (p : prog A) (f : A -> prog B) (Q : outcome B -> hist -> Prop) :
  safe e I h p (post (fun a h' => safe e I h' (f a) Q) (fun x h' => Q (Halted x) h')) ->
  safe e I h (bind p f) Q.
Proof.
  intros [HI HQ]. split.
  - intros h' [?|(a & h1 & Hp & Hf)]%visits_bind_inv; [by apply HI|].
    by apply HQ in Hp as [? _]; auto.
  - intros o h' ([a|x] & h1 & Hp%HQ & Hf)%eval_bind_inv; cbn in *; [by apply Hp|].
    by destruct Hf as [-> ->].
Qed.

Lemma safe_loop {S B} (J : S -> hist -> Prop) (body : S -> prog (S + B)) h s
    (Q : outcome B -> hist -> Prop) :
  (forall s h, J s h ->
    safe e I h (body s) (post (fun r h' =>
      match r with inl s' => J s' h' | inr b => Q (Val b) h' end)
      (fun x h' => Q (Halted x) h'))) ->
  J s h -> safe e I h (loop body s) Q.
Proof.
  intros Hb HJ. split.
  - apply (loop_visits e I J); [|done]. intros s1 h1 H1.
    eapply safe_conseq; [by apply Hb|]. by intros [[?|?]|?] ? _.
  - intros o h' (o1 & h1 & Hl & Hc)%eval_iters. revert o h' Hc.
    induction Hl as [h s s' o h1 h' He Hl IH|h s b' h' He|h s x h' He]; intros o2 h2 Hc; cbn in Hc.
    + apply (IH ltac:(by apply (Hb s h HJ) in He) _ _ Hc).
    + apply eval_inv in Hc as [-> ->]. by apply (Hb s h HJ) in He.
    + destruct Hc as [-> ->]. by apply (Hb s h HJ) in He.
Qed.
End safe_rules.

(** ** The calls a program can make, whatever the answers *)

Fixpoint calls_in (P : call -> Prop) {A} (p : prog A) : Prop :=
  match p with
  | Ret _ | Stop _ => True
  | Call c k => P c /\ forall r, calls_in P (k r)
  | Iter body s k => (forall s, calls_in P (body s)) /\ forall b, calls_in P (k b)
  end.

Lemma calls_bind P {A B} (p : prog A) (f : A -> prog B) :
  calls_in P p -> (forall a, calls_in P (f a)) -> calls_in P (bind p f).
Proof. intros Hp Hf. induction p; cbn in *; intuition. Qed.

Lemma calls_if P {A} (b : bool) (p q : prog A) :
  calls_in P p -> calls_in P q -> calls_in P (if b then p else q).
Proof. by destruct b. Qed.

#[export] Hint Resolve calls_bind calls_if : cbench.

(** A program without loops whose calls are in [P]. *)
Fixpoint quick (P : call -> Prop) {A} (p : prog A) : Prop :=
  match p with
  | Ret _ | Stop _ => True
  | Call c k => P c /\ forall r, quick P (k r)
  | Iter _ _ _ => False
  end.

Lemma quick_bind P {A B} (p : prog A) (f : A -> prog B) :
  quick P p -> (forall a, quick P (f a)) -> quick P (bind p f).
Proof. intros Hp Hf. induction p; cbn in *; intuition. Qed.

Lemma quick_if P {A} (b : bool) (p q : prog A) : quick P p -> quick P q -> quick P (if b then p else q).
Proof. by destruct b. Qed.

Lemma quick_mono (P P' : call -> Prop) {A} (p : prog A) :
  (forall c, P c -> P' c) -> quick P p -> quick P' p.
Proof. intros HP. induction p; cbn; intuition. Qed.

Lemma quick_calls P {A} (p : prog A) : quick P p -> calls_in P p.
Proof. induction p; cbn; intuition. Qed.

#[export] Hint Resolve quick_bind quick_if quick_calls : cbench.

(** An invariant that the calls of a program keep. *)
Lemma safe_calls e (I : hist -> Prop) P {A} (p : prog A) h :
  (forall c h, P c -> I h -> I ((c, e h c) :: h)) -> calls_in P p -> I h ->
  safe e I h p (fun _ h' => I h').
Proof.
  intros HI. revert h. induction p as [A a|A x|A c k IH|A S B body IHb s k IH]; intros h Hp Hh.
  - by apply safe_ret.
  - by apply safe_stop.
  - destruct Hp as [Hc Hk]. apply safe_call; [done|]. apply IH; [apply Hk|by apply HI].
  - destruct Hp as [Hb Hk].
    apply (safe_bind e I h (loop body s) k), (safe_loop e I (fun _ => I)); [|done].
    intros s1 h1 H1. eapply safe_conseq; [by apply IHb|].
    intros [[s2|b]|x] h2 _ H2; cbn; [done|by apply IH|done].
Qed.

(** ** Histories only grow, and every event is the environment's answer *)

Inductive extends (e : env) (h : hist) : hist -> Prop :=
| extends_here : extends e h h
| extends_event h' c : extends e h h' -> extends e h ((c, e h' c) :: h').

Lemma extends_trans e h1 h2 h3 : extends e h1 h2 -> extends e h2 h3 -> extends e h1 h3.
Proof. intros H. induction 1; [done|by constructor]. Qed.

Lemma eval_extends e {A} h (p : prog A) o h' : eval e h p o h' -> extends e h h'.
Proof.
  induction 1; try constructor; try done; try by eapply extends_trans.
  eapply extends_trans; [|done]. repeat constructor.
Qed.

Lemma visits_extends e {A} h (p : prog A) h' : visits e h p h' -> extends e h h'.
Proof.
  induction 1; try done.
  - constructor.
  - eapply extends_trans; [|done]. repeat constructor.
  - eapply extends_trans; [by eapply eval_extends|done].
  - eapply extends_trans; [by eapply eval_extends|done].
Qed.

Lemma total_extends e I {A} h (p : prog A) (Q : outcome A -> hist -> Prop) :
  total e I h p Q -> total e I h p (fun o h' => Q o h' /\ extends e h h').
Proof.
  intros (HI & o & h' & H & HQ). split; [done|]. exists o, h'.
  split; [done|]. split; [done|by eapply eval_extends].
Qed.

Lemma safe_extends e I {A} h (p : prog A) (Q : outcome A -> hist -> Prop) :
  safe e I h p Q ->
  safe e (fun h' => I h' /\ extends e h h') h p (fun o h' => Q o h' /\ extends e h h').
Proof.
  intros [HI HQ]. split.
  - intros h' Hv. split; [by apply HI|by eapply visits_extends].
  - intros o h' He. split; [by apply HQ|by eapply eval_extends].
Qed.

(** ** Rules of the two [while] loops *)

Section while_rules.
Context (e : env) (I : hist -> Prop).

Lemma total_while_break {S} (J : S -> hist -> Prop) (m : Z) (f : S -> Z) cond body h (s : S)
    (Q : outcome S -> hist -> Prop) :
  (forall s h, J s h ->
    total e I h (cond s) (post (fun b h1 =>
      if (b : bool) then
        total e I h1 (body s) (post (fun r h2 =>
          if (snd r : bool) then J (fst r) h2 /\ f s < f (fst r) <= m else Q (Val (fst r)) h2)
          (fun x h2 => Q (Halted x) h2))
      else Q (Val s) h1) (fun x h1 => Q (Halted x) h1))) ->
  J s h -> total e I h (while_break cond body s) Q.
Proof.
  intros Hb. unfold while_break. apply (total_loop_up e I J m f). intros s1 h1 HJ.
  apply total_bind. eapply total_conseq; [by apply Hb|].
  intros [[|]|x] h2 HI; cbn; [|by intros; apply total_ret|done].
  intros Hbody. apply total_bind. eapply total_conseq; [exact Hbody|].
  intros [[s' [|]]|x] h3 HI3; cbn; [by intros; apply total_ret|by intros; apply total_ret|done].
Qed.

Lemma safe_while_break {S} (J : S -> hist -> Prop) cond body h (s : S)
    (Q : outcome S -> hist -> Prop) :
  (forall s h, J s h ->
    safe e I h (cond s) (post (fun b h1 =>
      if (b : bool) then
        safe e I h1 (body s) (post (fun r h2 =>
          if (snd r : bool) then J (fst r) h2 else Q (Val (fst r)) h2)
          (fun x h2 => Q (Halted x) h2))
      else Q (Val s) h1) (fun x h1 => Q (Halted x) h1))) ->
  J s h -> safe e I h (while_break cond body s) Q.
Proof.
  intros Hb. unfold while_break. apply safe_loop. intros s1 h1 HJ.
  apply safe_bind. eapply safe_conseq; [by apply Hb|].
  intros [[|]|x] h2 HI; cbn; [|by intros; apply safe_ret|done].
  intros Hbody. apply safe_bind. eapply safe_conseq; [exact Hbody|].
  intros [[s' [|]]|x] h3 HI3; cbn; [by intros; apply safe_ret|by intros; apply safe_ret|done].
Qed.

Lemma safe_while {S} (J : S -> hist -> Prop) cond body h (s : S)
    (Q : outcome S -> hist -> Prop) :
  (forall s h, J s h ->
    safe e I h (cond s) (post (fun b h1 =>
      if (b : bool) then safe e I h1 (body s) (post J (fun x h2 => Q (Halted x) h2))
      else Q (Val s) h1) (fun x h1 => Q (Halted x) h1))) ->
  J s h -> safe e I h (while cond body s) Q.
Proof.
  intros Hb. unfold while. apply safe_loop. intros s1 h1 HJ.
  apply safe_bind. eapply safe_conseq; [by apply Hb|].
  intros [[|]|x] h2 HI; cbn; [|by intros; apply safe_ret|done].
  intros Hbody. apply safe_bind. eapply safe_conseq; [exact Hbody|].
  intros [s'|x] h3 HI3; cbn; [by intros; apply safe_ret|done].
Qed.

Lemma total_while {S} (J : S -> hist -> Prop) (m : Z) (f : S -> Z) cond body h (s : S)
    (Q : outcome S -> hist -> Prop) :
  (forall s h, J s h ->
    total e I h (cond s) (post (fun b h1 =>
      if (b : bool) then
        total e I h1 (body s) (post (fun s' h2 => J s' h2 /\ f s < f s' <= m)
          (fun x h2 => Q (Halted x) h2))
      else Q (Val s) h1) (fun x h1 => Q (Halted x) h1))) ->
  J s h -> total e I h (while cond body s) Q.
Proof.
  intros Hb. unfold while. apply (total_loop_up e I J m f). intros s1 h1 HJ.
  apply total_bind. eapply total_conseq; [by apply Hb|].
  intros [[|]|x] h2 HI; cbn; [|by intros; apply total_ret|done].
  intros Hbody. apply total_bind. eapply total_conseq; [exact Hbody|].
  intros [s'|x] h3 HI3; cbn; [by intros; apply total_ret|done].
Qed.
End while_rules.

(** ** Stepping through a program *)

(** Total correctness with no invariant. *)
Definition wp (e : env) {A} (h : hist) (p : prog A) (Q : outcome A -> hist -> Prop) : Prop :=
  total e (fun _ => True) h p Q.

Lemma total_wp e I {A} h (p : prog A) Q : total e I h p Q -> wp e h p Q.
Proof. intros [_ H]. by split. Qed.

(** One statement of the goal's program. *)
Ltac prog_step :=
  lazymatch goal with
  | |- total _ _ _ (bind _ _) _ => apply total_bind
  | |- safe _ _ _ (bind _ _) _ => apply safe_bind
  | |- total _ _ _ (Call _ _) _ => apply total_call
  | |- safe _ _ _ (Call _ _) _ => apply safe_call
  | |- total _ _ _ (Ret _) _ => apply total_ret
  | |- safe _ _ _ (Ret _) _ => apply safe_ret
  | |- total _ _ _ (Stop _) _ => apply total_stop
  | |- safe _ _ _ (Stop _) _ => apply safe_stop
  | |- wp _ _ _ _ => unfold wp
  end; cbn [post returns bind].

(** ** Memory blocks *)

Lemma zlen_store {b : list Z} off bytes :
  0 <= off -> off + zlen bytes <= zlen b ->
  zlen (ztake off b ++ bytes ++ zdrop (off + zlen bytes) b) = zlen b.
Proof. intros. zlia. Qed.

Lemma total_store e I h buffer off bytes (Q : outcome (list Z) -> hist -> Prop) :
  0 <= off -> off + zlen bytes <= zlen buffer -> I h ->
  Q (Val (ztake off buffer ++ bytes ++ zdrop (off + zlen bytes) buffer)) h ->
  total e I h (store_bytes buffer off bytes) Q.
Proof.
  intros H1 H2 HI HQ. unfold store_bytes.
  rewrite (proj2 (Z.leb_le _ _) H1), (proj2 (Z.leb_le _ _) H2). by apply total_ret.
Qed.

Lemma total_load e I h buffer off n (Q : outcome (list Z) -> hist -> Prop) :
  0 <= off -> 0 <= n -> off + n <= zlen buffer -> I h ->
  Q (Val (zslice off n buffer)) h -> total e I h (load_bytes buffer off n) Q.
Proof.
  intros H1 H2 H3 HI HQ. unfold load_bytes.
  rewrite (proj2 (Z.leb_le _ _) H1), (proj2 (Z.leb_le _ _) H2), (proj2 (Z.leb_le _ _) H3).
  by apply total_ret.
Qed.

Lemma total_add_i64 e I h a b (Q : outcome Z -> hist -> Prop) :
  in_i64 (a + b) -> I h -> Q (Val (a + b)) h -> total e I h (add_i64 a b) Q.
Proof.
  intros H HI HQ. unfold add_i64. rewrite (proj2 (in_i64b_spec _) H). by apply total_ret.
Qed.

Lemma total_div e I h a b (Q : outcome Z -> hist -> Prop) :
  b <> 0 -> I h -> Q (Val (a / b)) h -> total e I h (div_u64 a b) Q.
Proof.
  intros H HI HQ. unfold div_u64. rewrite (proj2 (Z.eqb_neq _ _) H). by apply total_ret.
Qed.

Lemma total_mod e I h a b (Q : outcome Z -> hist -> Prop) :
  b <> 0 -> I h -> Q (Val (a mod b)) h -> total e I h (mod_u64 a b) Q.
Proof.
  intros H HI HQ. unfold mod_u64. rewrite (proj2 (Z.eqb_neq _ _) H). by apply total_ret.
Qed.

(** ** Allocation *)

(** [malloc] of a request succeeds, and the block has the size asked for. *)
Class MallocOk (e : env) : Prop := {
  malloc_ok h n : 0 <= n -> zlen (data (e h (Malloc n))) = n
}.

Lemma total_malloc e `{!MallocOk e} I h n (Q : outcome (list Z) -> hist -> Prop) :
  0 <= n -> I h -> I ((Malloc n, e h (Malloc n)) :: h) ->
  (forall b, zlen b = n -> Q (Val b) ((Malloc n, e h (Malloc n)) :: h)) ->
  total e I h (malloc n) Q.
Proof.
  intros Hn HI HI' HQ. unfold malloc. apply total_call; [done|].
  apply total_ret; [done|]. apply HQ. by apply malloc_ok.
Qed.
