(* ===== verification/Utility.v ===== *)
(** * common/utility.c: error exits, keys, sleeping and the millisecond clock *)

From S2P Require Import Prelude CInt Prog.

(** [perror(message); exit(EXIT_FAILURE)]. *)
Definition throw {A} (message : string) : prog A :=
  sys_ (Perror message) ;;; exit EXIT_FAILURE.

Definition terminate {A} (message : string) : prog A :=
  sys_ (Fputs message) ;;; exit EXIT_FAILURE.

(** ["%s\n"] on [stderr]. *)
Definition print_error (message : string) : prog unit :=
  sys_ (Fputs (message +:+ String (Ascii.ascii_of_nat 10) EmptyString)).

Definition warn (message : string) : prog unit :=
  let esc := String (Ascii.ascii_of_nat 27) EmptyString in
  let nl := String (Ascii.ascii_of_nat 10) EmptyString in
  sys_ (Fputs (esc +:+ "[33mWarning" +:+ esc +:+ "[0m: " +:+ message +:+ nl)).

(** [ftok(path, 'X')]. *)
Definition generate_key (path : string) : prog Z := sysret (Ftok path 88).

Definition nsleep (nanoseconds : Z) : prog unit :=
  r <- sysret (Nanosleep 0 nanoseconds) ;;
  if r =? -1 then throw "Sleep was interrupted" else Ret tt.

Record timeval := Timeval { tv_sec : Z; tv_usec : Z }.

(** The pointer is never null at the only call. [int += long] converts the sum back. *)
Definition timeval_to_milliseconds (time : timeval) : prog Z :=
  ms <- mul_i64 (tv_sec time) 1000 ;;
  let milliseconds := i32 ms in
  Ret (i32 (milliseconds + Z.quot (tv_usec time) 1000)).

(** [gettimeofday] stores the seconds and the microseconds. *)
Definition current_milliseconds : prog Z :=
  r <- sys Gettimeofday ;;
  if ret r =? -1 then throw "Error getting time"
  else timeval_to_milliseconds (Timeval (nth 0 (data r) 0) (nth 1 (data r) 0)).

(** All of the body is commented out. *)
Definition pin_thread (where_ : Z) : prog unit := Ret tt.

(** ** Facts *)

Lemma eval_throw e {A} h m o h' :
  eval e h (throw (A := A) m) o h' ->
  o = Halted (Exited EXIT_FAILURE) /\ h' = (Perror m, e h (Perror m)) :: h.
Proof.
  unfold throw, sys_, exit. cbn. intros H%eval_inv%eval_inv. done.
Qed.

Lemma total_throw e I {A} h m (Q : outcome A -> hist -> Prop) :
  I h -> I ((Perror m, e h (Perror m)) :: h) ->
  Q (Halted (Exited EXIT_FAILURE)) ((Perror m, e h (Perror m)) :: h) ->
  total e I h (throw m) Q.
Proof. intros. unfold throw, sys_, exit. cbn. by repeat prog_step. Qed.

Lemma i32_add_l a b : i32 (i32 a + b) = i32 (a + b).
Proof.
  unfold i32. f_equal.
  replace ((a + 2 ^ 31) mod 2 ^ 32 - 2 ^ 31 + b + 2 ^ 31)
    with ((a + 2 ^ 31) mod 2 ^ 32 + b) by lia.
  rewrite Zplus_mod_idemp_l. f_equal. lia.
Qed.

(** The clock of [current_milliseconds] is the Unix time in milliseconds modulo [2^32]. *)
Lemma timeval_to_milliseconds_eval e h t :
  in_i64 (tv_sec t * 1000) -> 0 <= tv_usec t ->
  eval e h (timeval_to_milliseconds t)
    (Val (i32 (tv_sec t * 1000 + tv_usec t / 1000))) h.
Proof.
  intros Hs Hu. unfold timeval_to_milliseconds, mul_i64.
  rewrite (proj2 (in_i64b_spec _) Hs). cbn [bind].
  rewrite i32_add_l, Z.quot_div_nonneg by lia. constructor.
Qed.

(** ** Functions that return or exit with a failure, whatever the system answers *)

Definition may_exit (e : env) {A} (p : prog A) : Prop :=
  forall h, wp e h p (post (fun _ _ => True) (fun x _ => x = Exited EXIT_FAILURE)).

Section may_exit.
Context (e : env).

Lemma may_exit_ret {A} (a : A) : may_exit e (Ret a).
Proof. intros h. by apply total_ret. Qed.

Lemma may_exit_throw {A} m : may_exit e (throw (A := A) m).
Proof. intros h. by apply total_throw. Qed.

Lemma may_exit_call {A} c (k : resp -> prog A) :
  (forall r, may_exit e (k r)) -> may_exit e (Call c k).
Proof. intros Hk h. apply total_call; [done|]. apply Hk. Qed.

Lemma may_exit_bind {A B} (p : prog A) (f : A -> prog B) :
  may_exit e p -> (forall a, may_exit e (f a)) -> may_exit e (bind p f).
Proof.
  intros Hp Hf h. apply total_bind. eapply total_conseq; [apply Hp|].
  intros [a|x] h' _; cbn; [intros _; apply Hf|done].
Qed.

Lemma may_exit_if {A} (b : bool) (p q : prog A) :
  may_exit e p -> may_exit e q -> may_exit e (if b then p else q).
Proof. by destruct b. Qed.
End may_exit.

#[export] Hint Resolve may_exit_ret may_exit_throw may_exit_call may_exit_bind may_exit_if : cbench.

(** [current_milliseconds] is the Unix time in milliseconds, reduced to an [int]: it wraps
    every 49.7 days, and is negative half of the time. *)
Theorem current_milliseconds_wraps e h sec usec :
  (forall h', e h' Gettimeofday = rdata 0 [sec; usec]) ->
  in_i64 (sec * 1000) -> 0 <= usec ->
  exists h', eval e h current_milliseconds (Val (i32 (sec * 1000 + usec / 1000))) h'.
Proof.
  intros He Hs Hu. eexists. unfold current_milliseconds, sys. cbn [bind]. apply eval_call.
  rewrite He. cbn. apply (timeval_to_milliseconds_eval e _ (Timeval sec usec)); done.
Qed.

Lemma current_milliseconds_wraps_witness :
  exists h', eval (fun _ _ => rdata 0 [1700000000; 123456]) [] current_milliseconds
    (Val (i32 (1700000000 * 1000 + 123456 / 1000))) h'.
Proof. apply current_milliseconds_wraps; [done|by vm_compute|lia]. Defined.
