(* ===== verification/Stream.v ===== *)
(** * Byte streams in the history of a process

    [received] and [sent] are the bytes a process has so far taken from, and put on, a file
    descriptor. They are the specification of the loops of the three helper.c files and of
    the clients and servers, whose counters are compared with them. [KernelIO] is what
    read(2), write(2), recv(2) and send(2) document. *)

From S2P Require Import Prelude CInt Prog.

(** The bytes an input call stored in the caller's buffer. *)
Definition delivered (r : resp) : list Z := if 0 <? ret r then data r else [].

(** The bytes of [buf] an output call took. *)
Definition accepted (buf : list Z) (r : resp) : list Z :=
  if 0 <? ret r then ztake (ret r) buf else [].

Definition got (fd : Z) (ev : event) : list Z :=
  match ev.1 with
  | Read fd' _ | Recv fd' _ _ => if fd' =? fd then delivered ev.2 else []
  | _ => []
  end.

Definition put (fd : Z) (ev : event) : list Z :=
  match ev.1 with
  | Write fd' buf | Send fd' buf _ => if fd' =? fd then accepted buf ev.2 else []
  | _ => []
  end.

(** All bytes received from, and sent to, [fd] in the history, oldest first. *)
Fixpoint received (fd : Z) (h : hist) : list Z :=
  match h with
  | [] => []
  | ev :: h => received fd h ++ got fd ev
  end.

Fixpoint sent (fd : Z) (h : hist) : list Z :=
  match h with
  | [] => []
  | ev :: h => sent fd h ++ put fd ev
  end.

(** How many requests of an input or output call the kernel answers with what. *)
Definition input_ok (n : Z) (r : resp) : Prop :=
  ret r <= n /\ zlen (delivered r) = Z.max 0 (ret r).

Definition output_ok (buf : list Z) (r : resp) : Prop := ret r <= zlen buf.

Class KernelIO (e : env) : Prop := {
  kernel_read h fd n : 0 <= n -> input_ok n (e h (Read fd n));
  kernel_recv h fd n fl : 0 <= n -> input_ok n (e h (Recv fd n fl));
  kernel_write h fd buf : output_ok buf (e h (Write fd buf));
  kernel_send h fd buf fl : output_ok buf (e h (Send fd buf fl))
}.

(** A call that moves no bytes. *)
Definition quiet (c : call) : Prop :=
  match c with
  | Read _ _ | Recv _ _ _ | Write _ _ | Send _ _ _ => False
  | _ => True
  end.

Lemma received_quiet fd c r h : quiet c -> received fd ((c, r) :: h) = received fd h.
Proof. destruct c; try done; intros _; cbn; apply app_nil_r. Qed.

Lemma sent_quiet fd c r h : quiet c -> sent fd ((c, r) :: h) = sent fd h.
Proof. destruct c; try done; intros _; cbn; apply app_nil_r. Qed.

Lemma zlen_accepted buf r : output_ok buf r -> zlen (accepted buf r) = Z.max 0 (ret r).
Proof.
  unfold output_ok, accepted. intros. destruct (Z.ltb_spec 0 (ret r)); zlia.
Qed.

#[export] Hint Rewrite received_quiet sent_quiet using exact Logic.I : cbench.

(** An invariant of the histories that is about the bytes of the streams only. *)
Definition stream_inv (I : hist -> Prop) : Prop :=
  forall c r h, quiet c -> I h -> I ((c, r) :: h).

(** The same, for the answers of one environment. *)
Definition kept_by (e : env) (I : hist -> Prop) : Prop :=
  forall c h, quiet c -> I h -> I ((c, e h c) :: h).

Lemma stream_inv_kept e I : stream_inv I -> kept_by e I.
Proof. intros H c h Hq HI. by apply H. Qed.

Lemma kept_extends e I h0 : kept_by e I -> kept_by e (fun h => I h /\ extends e h0 h).
Proof. intros H c h Hq [HI He]. split; [by apply H|by constructor]. Qed.

#[export] Hint Resolve stream_inv_kept : core.
