(* ===== verification/Transfer.v ===== *)
(** * The chunked transfer loops of the three helper.c files

    [read_from_pipe], [write_to_pipe], [read_from_socket] and [write_to_socket] have one
    loop each, the same but for the system call. [transfer_in] and [transfer_out] are these
    loops with the call as a parameter; the three functions of each direction instantiate
    them (Fifo.v, Domain.v, Tcp.v). [InputCall] and [OutputCall] say what a call must promise. *)

From S2P Require Import Prelude CInt Prog Stream.

(** The number of bytes one iteration asks for: [chunk], or what is missing. *)
Definition can_transfer (chunk numBytes total : Z) : Z :=
  if u64 (numBytes - total) <? chunk then u64 (numBytes - total) else chunk.

(** [while (total_bytes_read < numBytesToRead) { ... }]; the state is the buffer and
    [total_bytes_read]. *)
Definition transfer_in (input : Z -> call) (buffer : list Z) (chunk numBytes : Z) :
    prog (list Z * Z) :=
  while_break (fun st => Ret (u64 st.2 <? numBytes))
    (fun st =>
      let '(buffer, total) := st in
      r <- sys (input (can_transfer chunk numBytes total)) ;;
      if ret r <=? 0 then Ret ((buffer, total), false)
      else
        buffer' <- store_bytes buffer total (data r) ;;
        total' <- add_i64 total (ret r) ;;
        Ret ((buffer', total'), true))
    (buffer, 0).

(** [while (total_bytes_written < numBytesToWrite) { ... }]. *)
Definition transfer_out (output : list Z -> call) (buffer : list Z) (chunk numBytes : Z) : prog Z :=
  while_break (fun total => Ret (u64 total <? numBytes))
    (fun total =>
      bytes <- load_bytes buffer total (can_transfer chunk numBytes total) ;;
      r <- sysret (output bytes) ;;
      if r <=? 0 then Ret (total, false)
      else
        total' <- add_i64 total r ;;
        Ret (total', true))
    0.

(** What a transfer returns: whole requests, spare bytes, all bytes. *)
Record counts := Counts { n_whole : Z; n_spare : Z; n_total : Z }.

(** [toReturn.wholeReqs = total / chunk; toReturn.spareBytes = total % chunk; ...]. *)
Definition count_requests (total chunk : Z) : prog counts :=
  w <- div_u64 (u64 total) chunk ;;
  s <- mod_u64 (u64 total) chunk ;;
  Ret (Counts w s (u64 total)).

(** The whole function: two early returns, the loop, the counts. *)
Definition receive_requests (input : Z -> call) (buffer : list Z) (chunk numBytes : Z) :
    prog (list Z * counts) :=
  if numBytes =? 0 then Ret (buffer, Counts 0 0 0)
  else if numBytes <? 0 then Ret (buffer, Counts 0 0 0)
  else
    '(buffer', total) <- transfer_in input buffer chunk numBytes ;;
    c <- count_requests total chunk ;;
    Ret (buffer', c).

Definition send_requests (output : list Z -> call) (buffer : list Z) (chunk numBytes : Z) :
    prog counts :=
  if numBytes =? 0 then Ret (Counts 0 0 0)
  else if numBytes <? 0 then Ret (Counts 0 0 0)
  else
    total <- transfer_out output buffer chunk numBytes ;;
    count_requests total chunk.

(** ** What the loops need of the calls *)

Class InputCall (input : Z -> call) (fd : Z) : Prop := {
  input_contract e (K : KernelIO e) h n : 0 <= n -> input_ok n (e h (input n));
  input_got n r : got fd (input n, r) = delivered r;
  input_put fd' n r : put fd' (input n, r) = []
}.

Class OutputCall (output : list Z -> call) (fd : Z) : Prop := {
  output_contract e (K : KernelIO e) h buf : output_ok buf (e h (output buf));
  output_put buf r : put fd (output buf, r) = accepted buf r;
  output_got fd' buf r : got fd' (output buf, r) = []
}.

#[export] Instance read_input fd : InputCall (Read fd) fd.
Proof.
  split; [intros e K h n; apply kernel_read| |done].
  intros. unfold got. cbn. by rewrite Z.eqb_refl.
Qed.

#[export] Instance recv_input fd flags : InputCall (fun n => Recv fd n flags) fd.
Proof.
  split; [intros e K h n; apply kernel_recv| |done].
  intros. unfold got. cbn. by rewrite Z.eqb_refl.
Qed.

#[export] Instance write_output fd : OutputCall (Write fd) fd.
Proof.
  split; [intros e K h buf; apply kernel_write| |done].
  intros. unfold put. cbn. by rewrite Z.eqb_refl.
Qed.

#[export] Instance send_output fd flags : OutputCall (fun buf => Send fd buf flags) fd.
Proof.
  split; [intros e K h buf; apply kernel_send| |done].
  intros. unfold put. cbn. by rewrite Z.eqb_refl.
Qed.

(** ** Specification *)

(** The last call of the history failed, reached the end of the stream or would block. *)
Definition last_failed (h : hist) : Prop :=
  match h with (_, r) :: _ => ret r <= 0 | [] => False end.

(** The history after at most [n] bytes more came in on [fd], and nothing else. *)
Definition more_in (fd n : Z) (h h' : hist) : Prop :=
  (exists d, received fd h' = received fd h ++ d /\ zlen d <= n) /\
  (forall fd', sent fd' h' = sent fd' h).

Definition more_out (fd n : Z) (buffer : list Z) (h h' : hist) : Prop :=
  (exists m, 0 <= m <= n /\ sent fd h' = sent fd h ++ ztake m buffer) /\
  (forall fd', received fd' h' = received fd' h).

(** The counts are the division of the total by the chunk. *)
Definition counts_of (chunk total : Z) (c : counts) : Prop :=
  c = Counts (total / chunk) (total mod chunk) total.

Lemma counts_of_sum chunk total c :
  0 < chunk -> 0 <= total -> counts_of chunk total c ->
  n_total c = n_whole c * chunk + n_spare c /\ 0 <= n_spare c < chunk /\ 0 <= n_whole c.
Proof.
  intros Hc Ht ->. cbn. pose proof (Z.div_mod total chunk). pose proof (Z.mod_pos_bound total chunk).
  pose proof (Z.div_pos total chunk). lia.
Qed.

Lemma can_transfer_bounds chunk n total :
  0 < chunk -> 0 <= total < n -> n < 2 ^ 63 ->
  0 < can_transfer chunk n total <= chunk /\ can_transfer chunk n total <= n - total.
Proof.
  intros. unfold can_transfer. rewrite u64_small by (unfold in_u64, u64_mod; lia).
  case_test; lia.
Qed.

Section transfer.
Context (e : env) {K : KernelIO e} (I : hist -> Prop).

(** What holds after [transfer_in]: the bytes are at the front of the buffer. *)
Definition received_total (fd n : Z) (h : hist) (buffer b' : list Z) (total : Z) (h' : hist) : Prop :=
  exists d, received fd h' = received fd h ++ d /\ (forall fd', sent fd' h' = sent fd' h) /\
    zlen d = total /\ total <= n /\ b' = d ++ zdrop total buffer.

Lemma received_total_more fd n h buffer b' total h' :
  received_total fd n h buffer b' total h' -> more_in fd n h h'.
Proof. intros (d & Hr & Hs & Hl & Hn & _). split; [exists d; split; [done|lia] | done]. Qed.

Lemma received_total_store fd n h buffer b total h' d ev :
  received_total fd n h buffer b total h' -> n <= zlen buffer ->
  got fd ev = d -> (forall fd', put fd' ev = []) -> total + zlen d <= n ->
  received_total fd n h buffer (ztake total b ++ d ++ zdrop (total + zlen d) b)
    (total + zlen d) (ev :: h').
Proof.
  intros (d0 & Hr & Hs & Hl & Hn & ->) Hb Hg Hp Ht. exists (d0 ++ d). split_and!.
  - cbn. by rewrite Hr, Hg, app_assoc.
  - intros fd'. cbn. by rewrite Hp, app_nil_r, Hs.
  - zlia.
  - done.
  - rewrite <- Hl at 1. rewrite ztake_app_exact. rewrite <- app_assoc. f_equal. f_equal.
    rewrite <- Hl. rewrite <- (zdrop_zdrop (zlen d) (zlen d0)) by zlia.
    by rewrite zdrop_app_exact, zdrop_zdrop by zlia.
Qed.

Lemma transfer_in_total input fd `{!InputCall input fd} h buffer chunk n :
  0 < chunk -> 0 < n < 2 ^ 63 -> n <= zlen buffer ->
  (forall h', more_in fd n h h' -> I h') ->
  total e I h (transfer_in input buffer chunk n) (returns (fun r h' =>
    received_total fd n h buffer r.1 r.2 h' /\ (r.2 = n \/ last_failed h'))).
Proof.
  intros Hc Hn Hb HI. unfold transfer_in.
  eapply (total_while_break _ _ (fun st => received_total fd n h buffer st.1 st.2) n snd).
  2: { exists []. rewrite app_nil_r. cbn. split_and!; [done|done|done|lia|done]. }
  intros [b tot] h1 HJ. cbn [fst snd] in *.
  pose proof HJ as (d & Hr & Hs & Hl & Ht & Hbuf). pose proof (zlen_nonneg d).
  pose proof (HI _ (received_total_more _ _ _ _ _ _ _ HJ)) as HI1.
  apply total_ret; [done|]. cbn [post]. rewrite u64_small by (unfold in_u64, u64_mod; lia).
  destruct (Z.ltb_spec tot n); cbn; [|split; [done|left; lia]].
  pose proof (can_transfer_bounds chunk n tot Hc ltac:(lia) ltac:(lia)) as [Hq1 Hq2].
  set (c := input (can_transfer chunk n tot)). set (r := e h1 c).
  pose proof (input_contract e K h1 (can_transfer chunk n tot) ltac:(lia)) as [Hin Hlen].
  fold c in Hin, Hlen. fold r in Hin, Hlen.
  assert (received_total fd n h buffer
    (ztake tot b ++ delivered r ++ zdrop (tot + zlen (delivered r)) b) (tot + zlen (delivered r))
    ((c, r) :: h1)) as HJ'.
  { apply received_total_store; [done|done|by apply input_got|intros; apply input_put|lia]. }
  pose proof (HI _ (received_total_more _ _ _ _ _ _ _ HJ')) as HI2.
  apply total_call; [done|]. fold r.
  destruct (Z.leb_spec (ret r) 0).
  - apply total_ret; [done|]. cbn. split; [|by right].
    unfold delivered in HJ'. destruct (Z.ltb_spec 0 (ret r)); [lia|].
    rewrite zlen_nil, Z.add_0_r in HJ'. cbn in HJ'. by rewrite ztake_zdrop in HJ'.
  - unfold delivered in *. destruct (Z.ltb_spec 0 (ret r)); [|lia].
    assert (zlen (data r) = ret r) as Hd by lia.
    assert (zlen b = zlen buffer) as Hlb by (subst b; zlia).
    apply total_bind, total_store; [lia|lia|done|]. cbn [post].
    apply total_bind, total_add_i64; [unfold in_i64; lia|done|]. cbn [post].
    apply total_ret; [done|]. cbn. rewrite Hd in HJ' |- *. split; [done|lia].
Qed.

(** What holds after [transfer_out]: a prefix of the buffer went out. *)
Definition sent_total (fd n : Z) (h : hist) (buffer : list Z) (total : Z) (h' : hist) : Prop :=
  sent fd h' = sent fd h ++ ztake total buffer /\ (forall fd', received fd' h' = received fd' h) /\
  0 <= total <= n.

Lemma sent_total_more fd n h buffer total h' :
  sent_total fd n h buffer total h' -> more_out fd n buffer h h'.
Proof. intros (Hs & Hr & Ht). split; [by exists total | done]. Qed.

Lemma sent_total_send fd n h buffer total h' bytes ev m :
  sent_total fd n h buffer total h' ->
  put fd ev = ztake m bytes -> (forall fd', got fd' ev = []) -> 0 <= m <= zlen bytes ->
  total + zlen bytes <= n -> bytes = zslice total (zlen bytes) buffer ->
  sent_total fd n h buffer (total + m) (ev :: h').
Proof.
  intros (Hs & Hr & Ht) Hp Hg Hm Hn Hb. split_and!.
  - cbn. rewrite Hs, Hp, <- app_assoc. f_equal. rewrite ztake_add by lia. f_equal.
    rewrite Hb. unfold zslice. rewrite ztake_ztake by lia. done.
  - intros. cbn. by rewrite Hg, app_nil_r, Hr.
  - lia.
  - lia.
Qed.

Lemma transfer_out_total output fd `{!OutputCall output fd} h buffer chunk n :
  0 < chunk -> 0 < n < 2 ^ 63 -> n <= zlen buffer ->
  (forall h', more_out fd n buffer h h' -> I h') ->
  total e I h (transfer_out output buffer chunk n) (returns (fun tot h' =>
    sent_total fd n h buffer tot h' /\ (tot = n \/ last_failed h'))).
Proof.
  intros Hc Hn Hb HI. unfold transfer_out.
  eapply (total_while_break _ _ (fun tot => sent_total fd n h buffer tot) n (fun tot => tot)).
  2: { split_and!; try done; [|lia]. by rewrite ztake_0, app_nil_r. }
  intros tot h1 HJ. pose proof HJ as (Hs & Hr & Ht).
  pose proof (HI _ (sent_total_more _ _ _ _ _ _ HJ)) as HI1.
  apply total_ret; [done|]. cbn [post]. rewrite u64_small by (unfold in_u64, u64_mod; lia).
  destruct (Z.ltb_spec tot n); cbn; [|split; [done|left; lia]].
  pose proof (can_transfer_bounds chunk n tot Hc ltac:(lia) ltac:(lia)) as [Hq1 Hq2].
  apply total_bind, total_load; [lia|lia|lia|done|]. cbn [post].
  set (bytes := zslice tot (can_transfer chunk n tot) buffer).
  assert (zlen bytes = can_transfer chunk n tot) as Hlb by (apply zlen_zslice; lia).
  set (r := e h1 (output bytes)).
  pose proof (output_contract e K h1 bytes) as Hok. fold r in Hok.
  assert (sent_total fd n h buffer (tot + Z.max 0 (ret r)) ((output bytes, r) :: h1)) as HJ'.
  { apply (sent_total_send _ _ _ _ _ _ bytes).
    - done.
    - rewrite output_put. unfold accepted. unfold output_ok in Hok.
      destruct (Z.ltb_spec 0 (ret r)); [by rewrite Z.max_r by lia|].
      by rewrite Z.max_l by lia.
    - intros. apply output_got.
    - unfold output_ok in Hok. pose proof (zlen_nonneg bytes). lia.
    - lia.
    - unfold bytes at 1. by rewrite Hlb. }
  pose proof (HI _ (sent_total_more _ _ _ _ _ _ HJ')) as HI2.
  unfold sysret. cbn [bind]. apply total_call; [done|]. fold r.
  destruct (Z.leb_spec (ret r) 0).
  - apply total_ret; [done|]. cbn. split; [|by right].
    rewrite Z.max_l, Z.add_0_r in HJ' by lia. done.
  - rewrite Z.max_r in HJ' by lia. unfold output_ok in Hok.
    apply total_bind, total_add_i64; [unfold in_i64; lia|done|]. cbn [post].
    apply total_ret; [done|]. cbn. split; [done|lia].
Qed.
End transfer.

(** ** The whole functions *)

Section requests.
Context (e : env) {K : KernelIO e} (I : hist -> Prop).

(** The function finished its request, or the last call of its loop failed. *)
Definition finished (n total : Z) (h' : hist) : Prop := total = n \/ last_failed h'.

Lemma count_requests_total h tot chunk (Q : outcome counts -> hist -> Prop) :
  0 < chunk -> 0 <= tot < 2 ^ 63 -> I h ->
  (forall c, counts_of chunk tot c -> Q (Val c) h) ->
  total e I h (count_requests tot chunk) Q.
Proof.
  intros Hc Ht HI HQ. unfold count_requests.
  rewrite u64_small by (unfold in_u64, u64_mod; lia).
  apply total_bind, total_div; [lia|done|]. cbn [post].
  apply total_bind, total_mod; [lia|done|]. cbn [post].
  apply total_ret; [done|]. by apply HQ.
Qed.

Lemma receive_requests_total input fd `{!InputCall input fd} h buffer chunk n :
  0 < chunk -> 0 <= n < 2 ^ 63 -> n <= zlen buffer ->
  (forall h', more_in fd n h h' -> I h') ->
  total e I h (receive_requests input buffer chunk n) (returns (fun r h' =>
    received_total fd n h buffer r.1 (n_total r.2) h' /\
    counts_of chunk (n_total r.2) r.2 /\ 0 <= n_total r.2 /\ finished n (n_total r.2) h')).
Proof.
  intros Hc Hn Hb HI. unfold receive_requests.
  assert (I h) as HIh.
  { apply HI. split; [|done]. exists []. rewrite app_nil_r, zlen_nil. split; [done|lia]. }
  destruct (Z.eqb_spec n 0) as [->|Hn0].
  { apply total_ret; [done|]. cbn. split_and!; [|done|done|by left].
    exists []. rewrite app_nil_r. cbn. by split_and!. }
  destruct (Z.ltb_spec n 0); [lia|].
  apply total_bind. eapply total_conseq; [apply (transfer_in_total _ _ _ fd); [done|lia|done|done]|].
  intros [[b tot]|x] h1 HI1; [|done]. cbn. intros [HJ Hend].
  pose proof HJ as (d & _ & _ & Hl & Ht & _). pose proof (zlen_nonneg d).
  apply total_bind, count_requests_total; [done|lia|done|]. intros c Hcs. cbn.
  apply total_ret; [done|]. rewrite Hcs. cbn. split_and!; [done|done|lia|done].
Qed.

Lemma send_requests_total output fd `{!OutputCall output fd} h buffer chunk n :
  0 < chunk -> 0 <= n < 2 ^ 63 -> n <= zlen buffer ->
  (forall h', more_out fd n buffer h h' -> I h') ->
  total e I h (send_requests output buffer chunk n) (returns (fun c h' =>
    sent_total fd n h buffer (n_total c) h' /\
    counts_of chunk (n_total c) c /\ finished n (n_total c) h')).
Proof.
  intros Hc Hn Hb HI. unfold send_requests.
  assert (I h) as HIh.
  { apply HI. split; [|done]. exists 0. rewrite ztake_0, app_nil_r. split; [lia|done]. }
  destruct (Z.eqb_spec n 0) as [->|Hn0].
  { apply total_ret; [done|]. cbn. split_and!; [|done|by left].
    split_and!; [by rewrite app_nil_r|done|lia|lia]. }
  destruct (Z.ltb_spec n 0); [lia|].
  apply total_bind. eapply total_conseq; [apply (transfer_out_total _ _ _ fd); [done|lia|done|done]|].
  intros [tot|x] h1 HI1; [|done]. cbn. intros [HJ Hend].
  pose proof HJ as (_ & _ & Ht).
  apply count_requests_total; [done|lia|done|]. intros c Hcs. cbn. rewrite Hcs. done.
Qed.
End requests.

(** ** What a caller of the six functions sees *)

(** After a read of at most [n] bytes from [fd]. *)
Definition read_result (fd chunk n : Z) (buffer : list Z) (h : hist)
    (r : list Z * counts) (h' : hist) : Prop :=
  exists d, received fd h' = received fd h ++ d /\ (forall fd', sent fd' h' = sent fd' h) /\
    r.1 = d ++ zdrop (zlen d) buffer /\
    r.2 = Counts (zlen d / chunk) (zlen d mod chunk) (zlen d) /\
    zlen d <= n /\ (zlen d = n \/ last_failed h').

(** After a write of at most [n] bytes to [fd]. *)
Definition write_result (fd chunk n : Z) (buffer : list Z) (h : hist)
    (c : counts) (h' : hist) : Prop :=
  exists m, 0 <= m <= n /\ sent fd h' = sent fd h ++ ztake m buffer /\
    (forall fd', received fd' h' = received fd' h) /\
    c = Counts (m / chunk) (m mod chunk) m /\ (m = n \/ last_failed h').

Lemma receive_requests_result e `{!KernelIO e} input fd `{!InputCall input fd} h buffer chunk n :
  0 < chunk -> 0 <= n < 2 ^ 63 -> n <= zlen buffer ->
  wp e h (receive_requests input buffer chunk n) (returns (read_result fd chunk n buffer h)).
Proof.
  intros Hc Hn Hb. unfold wp. eapply total_conseq; [by apply (receive_requests_total e _ input fd)|].
  intros [[b c]|x] h' _; [|done]. cbn.
  intros ((d & Hr & Hs & Hl & Ht & ->) & Hco & H0 & Hf). exists d. rewrite Hl. cbn.
  by split_and!.
Qed.

Lemma send_requests_result e `{!KernelIO e} output fd `{!OutputCall output fd} h buffer chunk n :
  0 < chunk -> 0 <= n < 2 ^ 63 -> n <= zlen buffer ->
  wp e h (send_requests output buffer chunk n) (returns (write_result fd chunk n buffer h)).
Proof.
  intros Hc Hn Hb. unfold wp. eapply total_conseq; [by apply (send_requests_total e _ output fd)|].
  intros [c|x] h' _; [|done]. cbn.
  intros ((Hs & Hr & Ht) & Hco & Hf). exists (n_total c). split_and!; try done; lia.
Qed.
