(* ===== verification/CDouble.v ===== *)
(** * The type [double]: IEEE 754 binary64, as the Standard Library specifies it

    Conversions and the arithmetic the sources use. The exponent and precision are those of
    binary64; every operation rounds to nearest, ties to even. *)

From S2P Require Import Prelude CInt Prog.

Definition double : Type := spec_float.

(** Conversion from an integer type. *)
Definition d_of_Z (z : Z) : double := binary_normalize 53 1024 z 0 false.

Definition d_add : double -> double -> double := SFadd 53 1024.
Definition d_sub : double -> double -> double := SFsub 53 1024.
Definition d_mul : double -> double -> double := SFmul 53 1024.
Definition d_div : double -> double -> double := SFdiv 53 1024.
Definition d_sqrt : double -> double := SFsqrt 53 1024.

(** [pow(x, 2)], which the compilers of the build expand to a product. *)
Definition d_sqr (x : double) : double := d_mul x x.

(** The integer part; infinities and NaN have none. *)
Definition d_trunc (x : double) : option Z :=
  match x with
  | S754_zero _ => Some 0
  | S754_finite s m e =>
      let a := if 0 <=? e then Z.pos m * 2 ^ e else Z.pos m / 2 ^ (- e) in
      Some (if s then - a else a)
  | _ => None
  end.

(** Conversion to an unsigned 64-bit integer: undefined when it does not fit. *)
Definition d_to_u64 (x : double) : prog Z :=
  match d_trunc x with
  | Some z => if (0 <=? z) && (z <? u64_mod) then Ret z else undefined ConversionOverflow
  | None => undefined ConversionOverflow
  end.

Definition d_to_i32 (x : double) : prog Z :=
  match d_trunc x with
  | Some z => if in_i32b z then Ret z else undefined ConversionOverflow
  | None => undefined ConversionOverflow
  end.

(** [1e9] and [1e6] and the other constants of the sources. *)
Definition d_1e9 : double := d_of_Z 1000000000.
Definition d_1e6 : double := d_of_Z 1000000.
Definition d_1000 : double := d_of_Z 1000.
Definition d_2 : double := d_of_Z 2.

(** A conversion either succeeds or is undefined. *)
Lemma d_to_i32_cases x :
  (exists z, d_to_i32 x = Ret z /\ in_i32 z) \/ d_to_i32 x = undefined ConversionOverflow.
Proof.
  unfold d_to_i32. destruct (d_trunc x) as [z|]; [|by right].
  destruct (in_i32b z) eqn:E; [left|by right]. exists z. by rewrite <- in_i32b_spec.
Qed.
