(* ===== verification/Arguments.v ===== *)
(** * common/arguments.c: the command line

    [getopt_long] belongs to the C library; the model calls it and the theorems quantify over
    its answers. *)

From S2P Require Import Prelude CInt Prog.

Definition DEFAULT_MESSAGE_SIZE : Z := 4096.

Record Arguments := Args { size : Z; count : Z; rate : Z }.

(** [getopt_long]'s characters. *)
Definition OPT_S : Z := 115.
Definition OPT_C : Z := 99.
Definition OPT_R : Z := 114.

(** ** atoi *)

Definition is_space (c : Z) : bool := (c =? 32) || ((9 <=? c) && (c <=? 13)).

Definition is_digit (c : Z) : bool := (48 <=? c) && (c <=? 57).

Fixpoint skip_spaces (s : list Z) : list Z :=
  match s with
  | c :: s' => if is_space c then skip_spaces s' else s
  | [] => []
  end.

Fixpoint digits (acc : Z) (s : list Z) : Z :=
  match s with
  | c :: s' => if is_digit c then digits (acc * 10 + (c - 48)) s' else acc
  | [] => acc
  end.

Definition strtol (s : list Z) : Z :=
  let clamp z := Z.max (- 2 ^ 63) (Z.min z (2 ^ 63 - 1)) in
  match skip_spaces s with
  | 45 :: s' => clamp (- digits 0 s')
  | 43 :: s' => clamp (digits 0 s')
  | s' => clamp (digits 0 s')
  end.

Definition chars (s : string) : list Z :=
  map (fun c => Z.of_nat (Ascii.nat_of_ascii c)) (String.list_ascii_of_string s).

(** [(int) strtol(s, NULL, 10)]. *)
Definition atoi (s : string) : Z := i32 (strtol (chars s)).

(** ** print_usage, parse_arguments, check_flag *)

Definition print_usage {A} : prog A :=
  sys_ (Printf "Usage: fifos -s/--size <bytes> -c/--count <number>-r/--rate <number>\n" []) ;;;
  exit EXIT_FAILURE.

Definition long_options : list (string * bool * Z) :=
  [("size", true, OPT_S); ("count", true, OPT_C); ("rate", true, OPT_R)].

Definition default_arguments : Arguments := Args DEFAULT_MESSAGE_SIZE 1000 100.

(** The [switch] for an option other than -1. *)
Definition apply_option (a : Arguments) (option : Z) (optarg : string) : Arguments :=
  if option =? OPT_S then Args (atoi optarg) (count a) (rate a)
  else if option =? OPT_C then Args (size a) (atoi optarg) (rate a)
  else if option =? OPT_R then Args (size a) (count a) (atoi optarg)
  else a.

Definition parse_spec (argv : list string) : getopt_spec :=
  GetoptSpec argv "+:s:c:r:" long_options.

Definition parse_arguments (argv : list string) : prog Arguments :=
  sys_ (SetOptind 0) ;;;
  loop (fun a =>
    r <- sys (Getopt (parse_spec argv)) ;;
    if ret r =? -1 then Ret (inr a)
    else Ret (inl (apply_option a (ret r) (optarg r)))) default_arguments.

(** [flag[0]]; the flags of the sources are not empty. *)
Definition first_char (flag : string) : Z := nth 0 (chars flag) 0.

(** [short_flag] is an array of three characters without a terminator. *)
Definition flag_spec (flag : string) (argv : list string) (tail : string) : getopt_spec :=
  GetoptSpec argv ("+:" +:+ String.substring 0 1 flag +:+ tail)
    [(flag, false, first_char flag)].

Definition check_flag (flag : string) (argv : list string) : prog bool :=
  sys_ (SetOptind 0) ;;;
  loop (fun _ : unit =>
    tail <- sys AfterArray ;;
    r <- sys (Getopt (flag_spec flag argv (optarg tail))) ;;
    if ret r =? first_char flag then Ret (inr true)
    else if ret r =? -1 then Ret (inr false)
    else Ret (inl tt)) tt.

(** ** Facts *)

(** The answers of [getopt_long] from [h] on, up to its -1. *)
Inductive getopt_run (e : env) (spec : getopt_spec) : hist -> list (Z * string) -> hist -> Prop :=
| getopt_end h :
    ret (e h (Getopt spec)) = -1 -> getopt_run e spec h [] ((Getopt spec, e h (Getopt spec)) :: h)
| getopt_option h opts h' :
    ret (e h (Getopt spec)) <> -1 ->
    getopt_run e spec ((Getopt spec, e h (Getopt spec)) :: h) opts h' ->
    getopt_run e spec h ((ret (e h (Getopt spec)), optarg (e h (Getopt spec))) :: opts) h'.

Definition apply_options (opts : list (Z * string)) (a : Arguments) : Arguments :=
  fold_left (fun a o => apply_option a o.1 o.2) opts a.

Lemma parse_loop_eval e argv h opts h' a :
  getopt_run e (parse_spec argv) h opts h' ->
  eval e h (loop (fun a =>
    r <- sys (Getopt (parse_spec argv)) ;;
    if ret r =? -1 then Ret (inr a)
    else Ret (inl (apply_option a (ret r) (optarg r)))) a)
    (Val (apply_options opts a)) h'.
Proof.
  intros H. revert a. induction H as [h Hr|h opts h' Hr H IH]; intros a.
  - eapply eval_iter_done; [|constructor]. cbn. apply eval_call.
    rewrite (proj2 (Z.eqb_eq _ _) Hr). constructor.
  - eapply eval_iter_go; [|apply IH]. cbn. apply eval_call.
    rewrite (proj2 (Z.eqb_neq _ _) Hr). constructor.
Qed.

(** The argument of the last option with the given character. *)
Fixpoint last_option (c : Z) (opts : list (Z * string)) : option string :=
  match opts with
  | [] => None
  | (o, s) :: opts =>
      match last_option c opts with
      | Some s' => Some s'
      | None => if o =? c then Some s else None
      end
  end.

Definition value_or (d : Z) (s : option string) : Z :=
  match s with Some s => atoi s | None => d end.

(** The options are applied in order, so the last one of each kind decides. *)
Lemma apply_options_last opts a :
  apply_options opts a =
    Args (value_or (size a) (last_option OPT_S opts))
         (value_or (count a) (last_option OPT_C opts))
         (value_or (rate a) (last_option OPT_R opts)).
Proof.
  revert a. induction opts as [|[o s] opts IH]; intros a; [by destruct a|].
  change (apply_options ((o, s) :: opts) a) with (apply_options opts (apply_option a o s)).
  rewrite IH. cbn [last_option]. unfold apply_option.
  destruct (Z.eqb_spec o OPT_S) as [->|]; [|destruct (Z.eqb_spec o OPT_C) as [->|];
    [|destruct (Z.eqb_spec o OPT_R) as [->|]]]; cbn;
    repeat match goal with |- context [last_option ?c opts] => destruct (last_option c opts) end;
    done.
Qed.

(** C29. [parse_arguments] returns once [getopt_long] has reported its options: each of the three
    values is that of the last option of its kind, as [atoi] reads it, or the default, and
    options it does not know, and missing arguments, are ignored. The default size is the 4096 of
    arguments.h; README.md, line 71, says that [-s] defaults to 1000, which the code does not do. *)
Theorem parse_arguments_last e argv h opts h' :
  getopt_run e (parse_spec argv) ((SetOptind 0, e h (SetOptind 0)) :: h) opts h' ->
  eval e h (parse_arguments argv)
    (Val (Args (value_or DEFAULT_MESSAGE_SIZE (last_option OPT_S opts))
               (value_or 1000 (last_option OPT_C opts))
               (value_or 100 (last_option OPT_R opts)))) h'.
Proof.
  intros H. unfold parse_arguments, sys_. cbn [bind]. apply eval_call.
  pose proof (parse_loop_eval e argv _ _ _ default_arguments H) as Hl.
  rewrite apply_options_last in Hl. exact Hl.
Qed.

(** The options [-s 64 -c 10 -s 128]. *)
Definition three_options : env := fun h c =>
  match c with
  | Getopt _ =>
      nth (length h - 1) [Resp OPT_S 0 [] "64" []; Resp OPT_C 0 [] "10" []; Resp OPT_S 0 [] "128" []]
        (rret (-1))
  | _ => rret 0
  end.

Lemma parse_arguments_last_witness :
  exists h', eval three_options [] (parse_arguments ["bench"]) (Val (Args 128 10 100)) h'.
Proof.
  eexists. apply (parse_arguments_last three_options ["bench"] []
    [(OPT_S, "64"); (OPT_C, "10"); (OPT_S, "128")]).
  apply getopt_option; [done|]. apply getopt_option; [done|]. apply getopt_option; [done|].
  by apply getopt_end.
Defined.

(** The answers of [getopt_long] to [check_flag], each preceded by a reading past the array. *)
Inductive flag_run (e : env) (flag : string) (argv : list string) : hist -> list Z -> hist -> Prop :=
| flag_run_end h : flag_run e flag argv h [] h
| flag_run_more h opts h' :
    let h1 := (AfterArray, e h AfterArray) :: h in
    let c := Getopt (flag_spec flag argv (optarg (e h AfterArray))) in
    flag_run e flag argv ((c, e h1 c) :: h1) opts h' ->
    flag_run e flag argv h (ret (e h1 c) :: opts) h'.

(** [check_flag] looks at the options in order until the first that is the flag, which
    makes it true, or the end of the options, which makes it false. *)
Theorem check_flag_first e flag argv h opts o h' :
  first_char flag <> -1 ->
  flag_run e flag argv ((SetOptind 0, e h (SetOptind 0)) :: h) (opts ++ [o]) h' ->
  Forall (fun c => c <> -1 /\ c <> first_char flag) opts -> o = -1 \/ o = first_char flag ->
  eval e h (check_flag flag argv) (Val (o =? first_char flag)) h'.
Proof.
  intros Hf Hrun Hopts Ho. unfold check_flag, sys_. cbn [bind]. apply eval_call.
  remember (opts ++ [o]) as os eqn:E. revert opts Hopts E.
  induction Hrun as [h1|h1 os h' ha c Hrun IH]; intros opts Hopts E; [by destruct opts|].
  destruct opts as [|o1 opts]; cbn in E; simplify_eq.
  - inversion Hrun; subst. eapply eval_iter_done; [|constructor]. cbn.
    do 2 apply eval_call. fold ha c.
    destruct Ho as [Ho|Ho]; rewrite Ho.
    + rewrite (proj2 (Z.eqb_neq (-1) _)) by done. constructor.
    + rewrite Z.eqb_refl. constructor.
  - inversion Hopts as [|? ? [Hn1 Hn2] Hopts']; subst. eapply eval_iter_go; [|by eapply IH].
    cbn. do 2 apply eval_call. fold ha c.
    rewrite (proj2 (Z.eqb_neq _ _) Hn2), (proj2 (Z.eqb_neq _ _) Hn1). constructor.
Qed.

(** An unknown option and then [-h]. *)
Definition help_second : env := fun h c =>
  match c with
  | Getopt _ => rret (if (length h <? 3)%nat then 63 else 104)
  | _ => rret 0
  end.

Lemma check_flag_first_witness :
  exists h', eval help_second [] (check_flag "help" ["bench"; "-x"; "-h"]) (Val true) h'.
Proof.
  eexists. apply (check_flag_first help_second "help" ["bench"; "-x"; "-h"] [] [63] 104).
  - done.
  - apply flag_run_more, flag_run_more, flag_run_end.
  - by repeat constructor.
  - by right.
Defined.
