(* ===== verification/Benchmarks.v ===== *)
(** * common/benchmarks.c: the clock, the statistics and the reports *)

From Stdlib Require Import Sorted.
From S2P Require Import Prelude CInt Prog CDouble Arguments.

(** ** The clock *)

(** [ts.tv_sec * 1e9 + ts.tv_nsec], computed in [double] and converted to [bench_t]. *)
Definition now_of (sec nsec : Z) : prog Z :=
  d_to_u64 (d_add (d_mul (d_of_Z sec) d_1e9) (d_of_Z nsec)).

Definition now : prog Z :=
  r <- sys TimespecGet ;;
  now_of (nth 0 (data r) 0) (nth 1 (data r) 0).

(** ** struct Benchmarks; [single_start] is indeterminate until it is assigned *)

Record Benchmarks := Bench {
  total_start : Z;
  single_start : option Z;
  minimum : Z;
  maximum : Z;
  sum : Z;
  squared_sum : Z
}.

Definition setup_benchmarks (start : option Z) : prog Benchmarks :=
  t <- now ;;
  Ret (Bench t start INT32_MAX 0 0 0).

(** [bench->single_start = now()]. *)
Definition start_single (b : Benchmarks) : prog Benchmarks :=
  t <- now ;;
  Ret (Bench (total_start b) (Some t) (minimum b) (maximum b) (sum b) (squared_sum b)).

(** The updates of [benchmark] for a measured [time]. *)
Definition record_time (time : Z) (b : Benchmarks) : Benchmarks :=
  Bench (total_start b) (single_start b)
    (if time <? minimum b then time else minimum b)
    (if maximum b <? time then time else maximum b)
    (u64 (sum b + time))
    (u64 (squared_sum b + u64 (time * time))).

Definition benchmark (b : Benchmarks) : prog Benchmarks :=
  t <- now ;;
  match single_start b with
  | None => undefined Indeterminate
  | Some s => Ret (record_time (u64 (t - s)) b)
  end.

(** ** Analysis of an array of latencies *)

(** [return ( *(unsigned long long* )a - *(unsigned long long* )b );] as an [int]. *)
Definition compareULLongs (a b : Z) : Z := i32 (u64 (a - b)).

(** [compar] has the same body. *)
Definition compar (a b : Z) : Z := i32 (u64 (a - b)).

(** [qsort], which the C standard defines for comparison functions that are consistent with
    a total order: insertion sort is one implementation. *)
Fixpoint qsort_insert (cmp : Z -> Z -> Z) (x : Z) (l : list Z) : list Z :=
  match l with
  | [] => [x]
  | y :: l' => if cmp x y <=? 0 then x :: l else y :: qsort_insert cmp x l'
  end.

Fixpoint qsort (cmp : Z -> Z -> Z) (l : list Z) : list Z :=
  match l with
  | [] => []
  | x :: l => qsort_insert cmp x (qsort cmp l)
  end.

(** The minimum and maximum loop: the second test is an [else if]. *)
Definition min_max_step (mm : Z * Z) (x : Z) : Z * Z :=
  if x <? mm.1 then (x, mm.2) else if mm.2 <? x then (mm.1, x) else mm.

Definition min_max (x0 : Z) (rest : list Z) : Z * Z := fold_left min_max_step rest (x0, x0).

(** [sum += ((double)arr[i] / (double)size) / 1000.0]. *)
Definition mean_of (arr : list Z) (size : Z) : double :=
  fold_left (fun sum x => d_add sum (d_div (d_div (d_of_Z x) (d_of_Z size)) d_1000)) arr
    (d_of_Z 0).

(** The median of the sorted array; the sum of the middle elements wraps. *)
Definition median_of (arr : list Z) (size : Z) : double :=
  let at_ i := nth (Z.to_nat i) arr 0 in
  if size mod 2 =? 0
  then d_div (d_of_Z (u64 (at_ (size / 2 - 1) + at_ (size / 2)))) d_2
  else d_of_Z (at_ (size / 2)).

Definition std_of (arr : list Z) (size : Z) (mean : double) : double :=
  d_sqrt (d_div
    (fold_left (fun acc x => d_add acc (d_sqr (d_sub (d_of_Z x) mean))) arr (d_of_Z 0))
    (d_of_Z size)).

(** [analyze_array]; the array has [size] elements, at least one. *)
Definition analyze_array (arr : list Z) (size rate : Z) : prog (list Z) :=
  if negb ((0 <? size) && (size <=? zlen arr)) then undefined OutOfBounds
  else
    let cells := ztake size arr in
    let mean := mean_of cells size in
    let mm := min_max (nth 0 cells 0) (drop 1 cells) in
    let sorted := qsort compareULLongs cells in
    let median := median_of sorted size in
    let std := std_of sorted size mean in
    sys_ (Printf "Latency = %.2f\n" [ADbl mean]) ;;;
    sys_ (Printf "Median = %.2f\n" [ADbl median]) ;;;
    sys_ (Printf "Standard Deviation = %.2f\n" [ADbl std]) ;;;
    sys_ (Printf "Minimum = %llu\n" [AInt mm.1]) ;;;
    sys_ (Printf "Maximum = %llu\n" [AInt mm.2]) ;;;
    sys_ (Printf "expected total time: %f\n"
      [ADbl (d_mul (d_div mean (d_of_Z rate)) (d_of_Z size))]) ;;;
    Ret (sorted ++ zdrop size arr).

(** ** Reports *)

Definition evaluate (b : Benchmarks) (args : Arguments) : prog unit :=
  assert_ (0 <? count args) ;;;
  t <- now ;;
  let total_time := u64 (t - total_start b) in
  let average := d_div (d_of_Z total_time) (d_of_Z (count args)) in
  sys_ (Printf "Total duration:     %.3f\tms\n" [ADbl (d_div (d_of_Z total_time) d_1e6)]) ;;;
  sys_ (Printf "Latency:   %.3f\tus\n" [ADbl (d_div average d_1000)]).

Definition evaluateClient (diffs : list Z) (args : Arguments) : prog (list Z) :=
  assert_ (0 <? count args) ;;;
  sys_ (Printf "numReqs Client: %d\n" [AInt (count args)]) ;;;
  analyze_array diffs (u64 (count args)) (u64 (rate args)).

Definition evaluateServer (b : Benchmarks) (numReqs endTime : Z) : prog unit :=
  let total_time := u64 (endTime - total_start b) in
  messageRate <- d_to_i32 (d_div (d_of_Z numReqs) (d_div (d_of_Z total_time) d_1e9)) ;;
  sys_ (Printf "numReqs Server: %ld\n" [AInt numReqs]) ;;;
  sys_ (Printf "Total duration:     %.3f\tms\n" [ADbl (d_div (d_of_Z total_time) d_1e6)]) ;;;
  sys_ (Printf "Message rate:       %d\tmsg/s\n" [AInt messageRate]).

(** The code after the first [return] is never reached. *)
Definition calculate_average_and_percentile (data : list Z) (size : Z) : prog unit :=
  if negb (size <=? zlen data) then undefined OutOfBounds
  else
    let sum := fold_left (fun sum x => d_add sum (d_of_Z x)) (ztake size data) (d_of_Z 0) in
    let average := d_div sum (d_of_Z size) in
    sys_ (Printf "Latency:   %.3f\tus\n" [ADbl (d_div average d_1000)]).

(** ** Facts: the clock *)

(** The clock reports a time that [bench_t] can hold. *)
Class ClockOk (e : env) : Prop := {
  clock_ok h : let d := data (e h TimespecGet) in
    exists t, now_of (nth 0 d 0) (nth 1 d 0) = Ret t /\ in_u64 t
}.

Lemma total_now e `{!ClockOk e} I h (Q : outcome Z -> hist -> Prop) :
  I h -> I ((TimespecGet, e h TimespecGet) :: h) ->
  (forall t, in_u64 t -> Q (Val t) ((TimespecGet, e h TimespecGet) :: h)) ->
  total e I h now Q.
Proof.
  intros HI HI' HQ. unfold now, sys. cbn [bind]. apply total_call; [done|].
  destruct (clock_ok (e := e) h) as (t & Ht & Hr). cbn in Ht. rewrite Ht.
  apply total_ret; [done|]. by apply HQ.
Qed.

(** ** Facts: the running statistics *)

(** The accumulated structure after the times [ts]. *)
Definition record_times (ts : list Z) (b : Benchmarks) : Benchmarks :=
  fold_left (fun b t => record_time t b) ts b.

Definition sum_list (ts : list Z) : Z := fold_right Z.add 0 ts.

Lemma record_times_fields ts b :
  total_start (record_times ts b) = total_start b /\
  minimum (record_times ts b) = fold_left Z.min ts (minimum b) /\
  maximum (record_times ts b) = fold_left Z.max ts (maximum b) /\
  u64 (sum (record_times ts b)) = u64 (sum b + sum_list ts) /\
  u64 (squared_sum (record_times ts b)) =
    u64 (squared_sum b + sum_list (map (fun t => t * t) ts)).
Proof.
  revert b. induction ts as [|t ts IH]; intros b; [cbn; by rewrite !Z.add_0_r|].
  change (record_times (t :: ts) b) with (record_times ts (record_time t b)).
  destruct (IH (record_time t b)) as (-> & -> & -> & -> & ->). cbn. unfold sum_list. split_and!.
  - done.
  - f_equal. destruct (Z.ltb_spec t (minimum b)); lia.
  - f_equal. destruct (Z.ltb_spec (maximum b) t); lia.
  - rewrite u64_add_l. f_equal. lia.
  - rewrite u64_add_l, (Z.add_comm (squared_sum b)), <- Z.add_assoc, u64_add_l. f_equal. lia.
Qed.

Lemma fold_min_spec l a :
  fold_left Z.min l a <= a /\ (forall x, x ∈ l -> fold_left Z.min l a <= x) /\
  (fold_left Z.min l a = a \/ fold_left Z.min l a ∈ l).
Proof.
  revert a. induction l as [|y l IH]; intros a; cbn.
  { split_and!; [lia|by intros x ?%elem_of_nil|by left]. }
  destruct (IH (Z.min a y)) as (H1 & H2 & H3). split_and!; [lia| |].
  - intros x [->|Hx]%elem_of_cons; [lia|by apply H2].
  - destruct H3 as [H3|H3]; [|right; by apply elem_of_cons; right].
    destruct (Z.min_spec a y) as [[? Hm]|[? Hm]]; rewrite Hm in *; [by left|].
    right. apply elem_of_cons. left. done.
Qed.

Lemma fold_max_spec l a :
  a <= fold_left Z.max l a /\ (forall x, x ∈ l -> x <= fold_left Z.max l a) /\
  (fold_left Z.max l a = a \/ fold_left Z.max l a ∈ l).
Proof.
  revert a. induction l as [|y l IH]; intros a; cbn.
  { split_and!; [lia|by intros x ?%elem_of_nil|by left]. }
  destruct (IH (Z.max a y)) as (H1 & H2 & H3). split_and!; [lia| |].
  - intros x [->|Hx]%elem_of_cons; [lia|by apply H2].
  - destruct H3 as [H3|H3]; [|right; by apply elem_of_cons; right].
    destruct (Z.max_spec a y) as [[? Hm]|[? Hm]]; rewrite Hm in *; [|by left].
    right. apply elem_of_cons. left. done.
Qed.

(** C28. After [setup_benchmarks] and any number of measurements, [minimum] is the smallest time
    measured but at most [INT32_MAX] (slower runs are reported as 2.147 seconds), [maximum]
    is the largest, and [sum] and [squared_sum] are the sums modulo [2^64]. *)
Theorem statistics_correct t0 s ts :
  Forall (fun t => 0 <= t) ts ->
  let b := record_times ts (Bench t0 s INT32_MAX 0 0 0) in
  (forall t, t ∈ ts -> minimum b <= t <= maximum b) /\
  (minimum b = INT32_MAX \/ minimum b ∈ ts) /\ (maximum b = 0 \/ maximum b ∈ ts) /\
  u64 (sum b) = u64 (sum_list ts) /\ u64 (squared_sum b) = u64 (sum_list (map (fun t => t * t) ts)).
Proof.
  intros Hp b. destruct (record_times_fields ts (Bench t0 s INT32_MAX 0 0 0))
    as (_ & Hmin & Hmax & Hs & Hq). fold b in Hmin, Hmax, Hs, Hq. cbn in Hmin, Hmax, Hs, Hq.
  rewrite Hmin, Hmax. destruct (fold_min_spec ts INT32_MAX) as (_ & H1 & H2).
  destruct (fold_max_spec ts 0) as (_ & H3 & H4). by split_and!; auto.
Qed.

Lemma statistics_correct_witness :
  let b := record_times [5; 3; 9] (Bench 0 None INT32_MAX 0 0 0) in
  (forall t, t ∈ [5; 3; 9] -> minimum b <= t <= maximum b) /\
  (minimum b = INT32_MAX \/ minimum b ∈ [5; 3; 9]) /\ (maximum b = 0 \/ maximum b ∈ [5; 3; 9]) /\
  u64 (sum b) = u64 (sum_list [5; 3; 9]) /\
  u64 (squared_sum b) = u64 (sum_list (map (fun t => t * t) [5; 3; 9])).
Proof. apply statistics_correct. repeat constructor; lia. Defined.

(** ** Facts: the clock's resolution *)

Definition returns_value (p : prog Z) (z : Z) : bool :=
  match p with Ret y => y =? z | _ => false end.

(** The sum of the seconds and the nanoseconds goes through a [double]: in November 2023 all
    instants up to 128 nanoseconds after a full second give the same [now()], and the next
    value is 256 nanoseconds later. *)
Theorem now_resolution :
  forallb (fun n => returns_value (now_of 1700000000 n) 1700000000000000000) (seqZ 0 129) = true /\
  forallb (fun n => returns_value (now_of 1700000000 n) 1700000000000000256) (seqZ 129 255) = true.
Proof. by vm_compute. Qed.

(** ** Facts: sorting with a comparison that goes through [int] *)

(** Times less than [2^31] nanoseconds (2.1 seconds) apart. *)
Definition close (l : list Z) : Prop :=
  forall x y, x ∈ l -> y ∈ l -> Z.abs (x - y) < 2 ^ 31.

Lemma compareULLongs_close a b :
  Z.abs (a - b) < 2 ^ 31 -> compareULLongs a b = a - b.
Proof.
  intros H. unfold compareULLongs.
  transitivity (i32 (a - b)); [|apply i32_small; unfold in_i32; lia].
  unfold i32, u64, u64_mod. f_equal.
  rewrite <- (Zplus_mod_idemp_l ((a - b) mod 2 ^ 64) (2 ^ 31) (2 ^ 32)).
  rewrite Z.mod_mod_divide by (by exists (2 ^ 32)).
  by rewrite Zplus_mod_idemp_l.
Qed.

Lemma qsort_insert_perm cmp x l : qsort_insert cmp x l ≡ₚ x :: l.
Proof.
  induction l as [|y l IH]; cbn; [done|]. case_test; [done|].
  rewrite IH. apply Permutation_swap.
Qed.

Lemma qsort_perm cmp l : qsort cmp l ≡ₚ l.
Proof. induction l as [|x l IH]; cbn; [done|]. by rewrite qsort_insert_perm, IH. Qed.

Lemma close_sub l k : close l -> (forall x, x ∈ k -> x ∈ l) -> close k.
Proof. intros Hc Hs x y Hx Hy. apply Hc; by apply Hs. Qed.

Lemma qsort_insert_sorted x l :
  close (x :: l) -> StronglySorted Z.le l -> StronglySorted Z.le (qsort_insert compareULLongs x l).
Proof.
  intros Hc Hl. induction Hl as [|y l Hl IH Hy]; cbn; [by repeat constructor|].
  rewrite compareULLongs_close by (apply Hc; rewrite !elem_of_cons; tauto). destruct (Z.leb_spec (x - y) 0).
  - constructor; [by constructor|]. constructor; [lia|].
    eapply Forall_impl; [exact Hy|]. cbn. lia.
  - constructor.
    + apply IH. eapply close_sub; [exact Hc|]. intros z. rewrite ?elem_of_cons. tauto.
    + rewrite qsort_insert_perm. constructor; [lia|done].
Qed.

Lemma qsort_sorted l : close l -> StronglySorted Z.le (qsort compareULLongs l).
Proof.
  induction l as [|x l IH]; intros Hc; cbn; [constructor|]. apply qsort_insert_sorted.
  - eapply close_sub; [exact Hc|]. intros z. by rewrite !elem_of_cons, qsort_perm.
  - apply IH. eapply close_sub; [exact Hc|]. intros z. rewrite ?elem_of_cons. tauto.
Qed.

Lemma min_max_folds x0 rest :
  min_max x0 rest = (fold_left Z.min rest x0, fold_left Z.max rest x0).
Proof.
  unfold min_max. assert (forall lo hi, lo <= hi ->
    fold_left min_max_step rest (lo, hi) = (fold_left Z.min rest lo, fold_left Z.max rest hi)) as H.
  { induction rest as [|y l IH]; intros lo hi Hle; cbn; [done|]. unfold min_max_step at 2. cbn.
    destruct (Z.ltb_spec y lo); [rewrite IH by lia; do 2 f_equal; lia|].
    destruct (Z.ltb_spec hi y); rewrite IH by lia; do 2 f_equal; lia. }
  apply H. lia.
Qed.

(** C27. The report of a client on latencies less than 2.1 seconds apart: the array it leaves is
    sorted and has the same latencies, and the printed minimum and maximum are the least
    and the greatest of them. *)
Theorem analyze_array_correct e h arr rate :
  arr <> [] -> zlen arr < u64_mod -> close arr ->
  wp e h (analyze_array arr (zlen arr) rate) (returns (fun r h' =>
    StronglySorted Z.le r /\ r ≡ₚ arr /\
    exists mn mx l1 l2 r1 r2,
      h' = l1 ++ (Printf "Maximum = %llu\n" [AInt mx], r1)
             :: (Printf "Minimum = %llu\n" [AInt mn], r2) :: l2 /\
      mn ∈ arr /\ mx ∈ arr /\ forall x, x ∈ arr -> mn <= x <= mx)).
Proof.
  intros Hne Hlen Hc. destruct arr as [|x0 rest]; [done|]. set (arr := x0 :: rest) in *.
  unfold analyze_array. pose proof (zlen_nonneg rest).
  assert (0 < zlen arr) as H0 by (unfold arr; rewrite zlen_cons; lia).
  rewrite (proj2 (Z.ltb_lt _ _) H0), (proj2 (Z.leb_le _ _) (Z.le_refl _)). cbn [andb negb].
  rewrite ztake_all by lia. unfold wp, sys_. cbn [bind]. do 6 (apply total_call; [done|]).
  apply total_ret; [done|]. cbn [returns].
  assert (zdrop (zlen arr) arr = []) as -> by (apply zlen_0_nil; rewrite zlen_zdrop; lia).
  rewrite app_nil_r. split_and!; [by apply qsort_sorted|apply qsort_perm|].
  change (min_max (nth 0 arr 0) (drop 1 arr)) with (min_max x0 rest). rewrite min_max_folds.
  cbn [fst snd]. set (mn := fold_left Z.min rest x0). set (mx := fold_left Z.max rest x0).
  exists mn, mx. match goal with |- context [?ev :: (Printf "Maximum = %llu\n" _, _) :: _] =>
    exists [ev] end. do 3 eexists. split; [reflexivity|].
  destruct (fold_min_spec rest x0) as (H1 & H2 & H3), (fold_max_spec rest x0) as (H4 & H5 & H6).
  fold mn mx in H1, H2, H3, H4, H5, H6. unfold arr. rewrite !elem_of_cons. split_and!; [done|done|].
  intros x [->|Hx]%elem_of_cons; [lia|]. split; [by apply H2|by apply H5].
Qed.

Lemma analyze_array_correct_witness :
  wp (fun _ _ => rret 0) [] (analyze_array [900; 200; 500] (zlen [900; 200; 500]) 1)
    (returns (fun r h' =>
      StronglySorted Z.le r /\ r ≡ₚ [900; 200; 500] /\
      exists mn mx l1 l2 r1 r2,
        h' = l1 ++ (Printf "Maximum = %llu\n" [AInt mx], r1)
               :: (Printf "Minimum = %llu\n" [AInt mn], r2) :: l2 /\
        mn ∈ [900; 200; 500] /\ mx ∈ [900; 200; 500] /\
        forall x, x ∈ [900; 200; 500] -> mn <= x <= mx)).
Proof.
  apply analyze_array_correct; [done|done|].
  intros x y Hx Hy. rewrite !elem_of_cons, elem_of_nil in *. lia.
Defined.

(** The comparison truncates the difference to an [int]: a latency of 3 seconds counts as
    smaller than one of 1 nanosecond, and sorting the two leaves them in the wrong order. *)
Theorem compareULLongs_truncates :
  compareULLongs 3000000000 1 < 0 /\ compareULLongs 1 3000000000 > 0 /\
  qsort compareULLongs [3000000000; 1] = [3000000000; 1].
Proof. by vm_compute. Qed.

(** The mean is taken in microseconds and the latencies are in nanoseconds, so the reported
    standard deviation is not one: for two equal latencies of one millisecond, whose standard
    deviation is 0, it is 999000. *)
Theorem std_mixes_units :
  std_of [1000000; 1000000] 2 (mean_of [1000000; 1000000] 2) = d_of_Z 999000.
Proof. by vm_compute. Qed.
