(* ===== verification/Times.v ===== *)
(** * The latency arrays of the clients

    [updateWriteTimes] stamps the requests about to be written with the current time;
    [updateReadWriteTimes] replaces the stamps of the requests just read by latencies. The
    three clients define the same two functions. *)

From S2P Require Import Prelude CInt Prog.

(** [a[i]] and [a[i] = v], undefined outside the array. *)
Definition get_at (a : list Z) (i : Z) : prog Z :=
  if (0 <=? i) && (i <? zlen a) then Ret (nth (Z.to_nat i) a 0) else undefined OutOfBounds.

Definition set_at (a : list Z) (i v : Z) : prog (list Z) :=
  if (0 <=? i) && (i <? zlen a) then Ret (<[Z.to_nat i := v]> a) else undefined OutOfBounds.

(** [end], after the clipping. *)
Definition update_end (totalTimes startIndex numToUpdate : Z) : Z :=
  if totalTimes <? u64 (startIndex + numToUpdate) then totalTimes
  else u64 (startIndex + numToUpdate).

(** The two functions differ in the assignment of their loop. *)
Definition update_loop (f : Z -> Z) (times : list Z) (startIndex end_ : Z) : prog (list Z) :=
  r <- while (fun st => Ret (st.1 <? end_))
    (fun st =>
      let '(i, times) := st in
      x <- get_at times i ;;
      times' <- set_at times i (f x) ;;
      Ret (u64 (i + 1), times'))
    (startIndex, times) ;;
  Ret r.2.

Definition updateWriteTimes (time : Z) (times : list Z) (totalTimes startIndex numToUpdate : Z) :
    prog (list Z) :=
  if totalTimes <? startIndex then Ret times
  else update_loop (fun _ => time) times startIndex (update_end totalTimes startIndex numToUpdate).

Definition updateReadWriteTimes (time : Z) (times : list Z)
    (totalTimes startIndex numToUpdate : Z) : prog (list Z) :=
  if totalTimes <? startIndex then Ret times
  else update_loop (fun x => u64 (time - x)) times startIndex
         (update_end totalTimes startIndex numToUpdate).

(** ** Specification *)

(** The array with [f] applied to the cells from [lo] up to, and without, [hi]. *)
Definition map_range (f : Z -> Z) (lo hi : Z) (a : list Z) : list Z :=
  imap (fun i x => if (lo <=? Z.of_nat i) && (Z.of_nat i <? hi) then f x else x) a.

Lemma zlen_map_range f lo hi a : zlen (map_range f lo hi a) = zlen a.
Proof. unfold zlen, map_range. by rewrite length_imap. Qed.

Lemma map_range_empty f lo hi a : hi <= lo -> map_range f lo hi a = a.
Proof.
  intros. unfold map_range. apply list_eq. intros i. rewrite list_lookup_imap.
  destruct (a !! i) as [x|]; [|done]. cbn. f_equal.
  destruct (Z.leb_spec lo (Z.of_nat i)), (Z.ltb_spec (Z.of_nat i) hi); try done. lia.
Qed.

Lemma lookup_map_range f lo hi a i x :
  a !! i = Some x ->
  map_range f lo hi a !! i =
    Some (if (lo <=? Z.of_nat i) && (Z.of_nat i <? hi) then f x else x).
Proof. intros H. unfold map_range. by rewrite list_lookup_imap, H. Qed.

Lemma map_range_step f lo hi a x :
  0 <= lo <= hi -> a !! Z.to_nat hi = Some x ->
  <[Z.to_nat hi := f x]> (map_range f lo hi a) = map_range f lo (hi + 1) a.
Proof.
  intros Hlo Hx. apply list_eq. intros i.
  destruct (decide (i = Z.to_nat hi)) as [->|Hi].
  - rewrite list_lookup_insert_eq.
    + rewrite (lookup_map_range _ _ _ _ _ _ Hx).
      rewrite Z2Nat.id by lia. destruct (Z.leb_spec lo hi), (Z.ltb_spec hi (hi + 1)); [done|lia..].
    + unfold map_range. rewrite length_imap. by eapply lookup_lt_Some.
  - rewrite list_lookup_insert_ne by done. unfold map_range. rewrite !list_lookup_imap.
    destruct (a !! i) as [y|]; [|done]. cbn. f_equal.
    destruct (Z.leb_spec lo (Z.of_nat i)), (Z.ltb_spec (Z.of_nat i) hi),
      (Z.ltb_spec (Z.of_nat i) (hi + 1)); try done; lia.
Qed.

Lemma update_end_bounds totalTimes startIndex numToUpdate :
  0 <= startIndex <= totalTimes -> totalTimes < u64_mod -> 0 <= numToUpdate < u64_mod ->
  0 <= update_end totalTimes startIndex numToUpdate <= totalTimes /\
  (startIndex + numToUpdate < u64_mod ->
    update_end totalTimes startIndex numToUpdate = Z.min (startIndex + numToUpdate) totalTimes).
Proof.
  intros. unfold update_end. pose proof (u64_range (startIndex + numToUpdate)).
  unfold in_u64 in *. split; [case_test; lia|].
  intros. rewrite u64_small by (unfold in_u64; lia). case_test; lia.
Qed.

Section specification.
Context (e : env) (I : hist -> Prop).

Lemma total_get_at h a i x (Q : outcome Z -> hist -> Prop) :
  0 <= i -> a !! Z.to_nat i = Some x -> I h -> Q (Val x) h -> total e I h (get_at a i) Q.
Proof.
  intros Hi Hx HI HQ. unfold get_at. pose proof (lookup_lt_Some _ _ _ Hx).
  assert (i < zlen a) as Hl by (unfold zlen; lia).
  rewrite (proj2 (Z.leb_le _ _) Hi), (proj2 (Z.ltb_lt _ _) Hl).
  apply total_ret; [done|]. by rewrite (nth_lookup_Some _ _ _ _ Hx).
Qed.

Lemma total_set_at h a i v (Q : outcome (list Z) -> hist -> Prop) :
  0 <= i < zlen a -> I h -> Q (Val (<[Z.to_nat i := v]> a)) h -> total e I h (set_at a i v) Q.
Proof.
  intros [Hi Hl] HI HQ. unfold set_at.
  rewrite (proj2 (Z.leb_le _ _) Hi), (proj2 (Z.ltb_lt _ _) Hl). by apply total_ret.
Qed.

Lemma update_loop_total f times startIndex end_ h :
  0 <= startIndex -> end_ <= zlen times -> end_ < u64_mod -> I h ->
  total e I h (update_loop f times startIndex end_) (returns (fun r h' =>
    r = map_range f startIndex end_ times /\ h' = h)).
Proof.
  intros Hs He Hm HI. unfold update_loop. apply total_bind.
  eapply (total_while _ _ (fun st h' => h' = h /\ startIndex <= st.1 /\
    (st.1 <= end_ \/ st.1 = startIndex) /\ st.2 = map_range f startIndex st.1 times) end_ fst).
  2: { cbn. split_and!; [done|lia|by right|by rewrite map_range_empty]. }
  intros [i a] h1 (-> & Hi & Hie & Ha). cbn [fst snd] in *.
  apply total_ret; [done|]. cbn [post].
  destruct (Z.ltb_spec i end_) as [Hlt|Hge]; cbn.
  - assert (is_Some (times !! Z.to_nat i)) as [x Hx]
      by (apply lookup_lt_is_Some; unfold zlen in He; lia).
    apply total_bind, (total_get_at _ _ _ x); [lia| |done|].
    { rewrite Ha. rewrite (lookup_map_range _ _ _ _ _ _ Hx).
      rewrite Z2Nat.id by lia. destruct (Z.ltb_spec i i); [lia|]. by rewrite andb_false_r. }
    cbn [post]. apply total_bind, total_set_at; [rewrite Ha, zlen_map_range; lia|done|].
    cbn [post]. rewrite u64_small by (unfold in_u64; lia).
    apply total_ret; [done|]. cbn. split_and!; [done|lia|left; lia| |lia|lia].
    rewrite Ha. apply map_range_step; [lia|done].
  - apply total_ret; [done|]. cbn. split; [|done]. rewrite Ha. destruct Hie as [?| ->].
    + by replace i with end_ by lia.
    + by rewrite !map_range_empty by lia.
Qed.
End specification.

(** The window of cells a call updates. *)
Definition update_range (f : Z -> Z) (totalTimes startIndex numToUpdate : Z) (times : list Z) :
    list Z :=
  map_range f startIndex (Z.min (startIndex + numToUpdate) totalTimes) times.

(** Both functions, for any arguments: never outside the array, and the window is the one
    asked for, clipped to the array, unless the end index wraps (then it is empty). *)
Lemma update_times_total e I f times totalTimes startIndex numToUpdate h :
  totalTimes = zlen times -> totalTimes < u64_mod -> 0 <= startIndex -> 0 <= numToUpdate < u64_mod ->
  I h ->
  total e I h
    (if totalTimes <? startIndex then Ret times
     else update_loop f times startIndex (update_end totalTimes startIndex numToUpdate))
    (returns (fun r h' => h' = h /\ zlen r = zlen times /\
      (startIndex + numToUpdate < u64_mod ->
        r = update_range f totalTimes startIndex numToUpdate times))).
Proof.
  intros -> Hm Hs Hn HI. unfold update_range. destruct (Z.ltb_spec (zlen times) startIndex).
  - apply total_ret; [done|]. cbn. split_and!; [done..|]. intros. by rewrite map_range_empty by lia.
  - pose proof (update_end_bounds (zlen times) startIndex numToUpdate ltac:(lia) Hm Hn) as [Hb He].
    eapply total_conseq; [apply update_loop_total; [lia|lia|lia|done]|].
    intros [r|x] h1 _; [|done]. cbn. intros [-> ->]. split_and!; [done|by rewrite zlen_map_range|].
    intros. by rewrite He.
Qed.

(** ** The two functions *)

(** The cell [i] of the array after a call. *)
Definition cell_after (f : Z -> Z) (lo n : Z) (i : nat) (x : Z) : Z :=
  if (lo <=? Z.of_nat i) && (Z.of_nat i <? lo + n) then f x else x.

Lemma update_range_lookup f lo n a i :
  update_range f (zlen a) lo n a !! i = cell_after f lo n i <$> a !! i.
Proof.
  unfold update_range, map_range. rewrite list_lookup_imap. destruct (a !! i) as [x|] eqn:E; [|done].
  cbn. unfold cell_after. pose proof (lookup_lt_Some _ _ _ E) as Hi.
  assert (Z.of_nat i < zlen a) by (unfold zlen; lia). do 2 f_equal.
  destruct (Z.leb_spec lo (Z.of_nat i)), (Z.ltb_spec (Z.of_nat i) (Z.min (lo + n) (zlen a))),
    (Z.ltb_spec (Z.of_nat i) (lo + n)); try done; lia.
Qed.

Lemma update_cells e f times startIndex numToUpdate h :
  0 <= startIndex -> 0 <= numToUpdate -> startIndex + numToUpdate < u64_mod ->
  zlen times < u64_mod ->
  wp e h
    (if zlen times <? startIndex then Ret times
     else update_loop f times startIndex (update_end (zlen times) startIndex numToUpdate))
    (returns (fun r h' => h' = h /\ zlen r = zlen times /\
      forall i, r !! i = cell_after f startIndex numToUpdate i <$> times !! i)).
Proof.
  intros Hs Hn Ho Hm. unfold wp. eapply total_conseq; [apply update_times_total; try done; lia|].
  intros [r|x] h' _; [|done]. cbn. intros (-> & Hl & Hr). split_and!; [done|done|].
  intros i. rewrite Hr by done. apply update_range_lookup.
Qed.

(** C25. [updateWriteTimes] stamps exactly the requests [startIndex] up to, and without,
    [startIndex + numToUpdate] that exist in the array, leaves the others, and never leaves
    the array, also when the range starts or ends beyond it. *)
Theorem updateWriteTimes_correct e time times startIndex numToUpdate h :
  0 <= startIndex -> 0 <= numToUpdate -> startIndex + numToUpdate < u64_mod ->
  zlen times < u64_mod ->
  wp e h (updateWriteTimes time times (zlen times) startIndex numToUpdate)
    (returns (fun r h' => h' = h /\ zlen r = zlen times /\
      forall i, r !! i = cell_after (fun _ => time) startIndex numToUpdate i <$> times !! i)).
Proof. intros. by apply update_cells. Qed.

Lemma updateWriteTimes_correct_witness :
  wp (fun _ _ => rret 0) [] (updateWriteTimes 7 [0; 0; 0] (zlen [0; 0; 0]) 1 100)
    (returns (fun r h' => h' = [] /\ zlen r = zlen [0; 0; 0] /\
      forall i, r !! i = cell_after (fun _ => 7) 1 100 i <$> [0; 0; 0] !! i)).
Proof. apply updateWriteTimes_correct; [lia|lia|done|done]. Defined.

(** C26. A request that is stamped at [t0] when it is written and whose reply is read at [t1] is
    recorded with the latency [t1 - t0]; a request outside both ranges keeps its cell. *)
Theorem latency_recorded e t0 t1 times s n s' n' h :
  0 <= s -> 0 <= n -> s + n < u64_mod -> 0 <= s' -> 0 <= n' -> s' + n' < u64_mod ->
  zlen times < u64_mod -> 0 <= t0 <= t1 -> t1 < u64_mod ->
  wp e h (w <- updateWriteTimes t0 times (zlen times) s n ;;
          updateReadWriteTimes t1 w (zlen times) s' n')
    (returns (fun r _ => zlen r = zlen times /\ forall i x, times !! i = Some x ->
      (s <= Z.of_nat i < s + n -> s' <= Z.of_nat i < s' + n' -> r !! i = Some (t1 - t0)) /\
      (~ s <= Z.of_nat i < s + n -> ~ s' <= Z.of_nat i < s' + n' -> r !! i = Some x))).
Proof.
  intros Hs Hn Ho Hs' Hn' Ho' Hm Ht Hu. apply total_bind.
  eapply total_conseq; [by apply (update_cells e (fun _ => t0))|].
  intros [w|x] h1 _; [|done]. cbn [returns post]. intros (-> & Hlw & Hw). rewrite <- Hlw.
  eapply total_conseq; [apply (update_cells e (fun x => u64 (t1 - x))); try done; lia|].
  intros [r|x] h2 _; [|done]. cbn [returns]. intros (-> & Hlr & Hr).
  split; [congruence|]. intros i x Hx. rewrite Hr, Hw, Hx. cbn. unfold cell_after.
  split; intros H1 H2.
  - rewrite !(proj2 (Z.leb_le _ _)), !(proj2 (Z.ltb_lt _ _)) by lia. cbn.
    by rewrite u64_small by (unfold in_u64; lia).
  - destruct (Z.leb_spec s (Z.of_nat i)), (Z.ltb_spec (Z.of_nat i) (s + n));
      destruct (Z.leb_spec s' (Z.of_nat i)), (Z.ltb_spec (Z.of_nat i) (s' + n'));
      try done; lia.
Qed.

Lemma latency_recorded_witness :
  wp (fun _ _ => rret 0) []
    (w <- updateWriteTimes 10 [0; 0; 0] (zlen [0; 0; 0]) 0 2 ;;
     updateReadWriteTimes 25 w (zlen [0; 0; 0]) 1 1)
    (returns (fun r _ => zlen r = zlen [0; 0; 0] /\ forall i x, [0; 0; 0] !! i = Some x ->
      (0 <= Z.of_nat i < 0 + 2 -> 1 <= Z.of_nat i < 1 + 1 -> r !! i = Some (25 - 10)) /\
      (~ 0 <= Z.of_nat i < 0 + 2 -> ~ 1 <= Z.of_nat i < 1 + 1 -> r !! i = Some x))).
Proof. apply latency_recorded; try lia; done. Defined.
