(* ===== verification/Echo.v ===== *)
(** * What the echo clients and servers of fifo, domain and tcp share

    The poll structure, the [quit] flag that a signal handler sets, and the interface a
    transport offers to [communicate]: a function that reads requests and one that writes
    requests. [TransportOk] is what the clients and servers rely on; Transfer.v discharges it
    for the three transports. *)

From S2P Require Import Prelude CInt Prog Stream Transfer.

(** ** struct pollfd *)

Record pollfd := Pollfd { pfd : Z; events : Z; revents : Z }.

(** poll(2) stores [revents] in the first entries. *)
Fixpoint store_revents (pfds : list pollfd) (rs : list Z) : list pollfd :=
  match pfds, rs with
  | p :: pfds', r :: rs' => Pollfd (pfd p) (events p) r :: store_revents pfds' rs'
  | _, _ => pfds
  end.

Definition checkPoll (pfds : list pollfd) (numPolled : nat) (timeToWait : Z) :
    prog (list pollfd * bool) :=
  r <- sys (Poll (map (fun p => (pfd p, events p)) (take numPolled pfds)) timeToWait) ;;
  if ret r =? -1 then Ret (pfds, false)
  else Ret (store_revents pfds (take numPolled (data r)), true).

(** The [revents] field of entry [i] of a block that holds an array of [pollfd]: a [short] at
    offset 6 of 8 bytes. Before the first poll it is what [malloc] left there. *)
Definition raw_revents (block : list Z) (i : Z) : Z :=
  nth (Z.to_nat (8 * i + 6)) block 0 + 256 * nth (Z.to_nat (8 * i + 7)) block 0.

(** [pfds[i].revents & flag]. *)
Definition ready (pfds : list pollfd) (i : nat) (flag : Z) : bool :=
  match pfds !! i with
  | Some p => truth (Z.land (revents p) flag)
  | None => false
  end.

(** ** The volatile flag [quit] *)

Definition load_quit : prog Z := sysret LoadQuit.

(** [quit == 0]. *)
Definition running : prog bool := q <- load_quit ;; Ret (q =? 0).

(** The handler: [quit = 1]. *)
Definition quit_signal_handler : prog unit := sys_ (StoreQuit 1).

(** The address of the handler. *)
Definition QUIT_HANDLER : Z := 4104.

(** What the six mains do before [communicate]: only [sa_handler] of the structure is
    assigned, its flags and mask are whatever the stack holds. [false]: return a failure. *)
Definition install_quit_handlers : prog bool :=
  u <- sys Uninit ;;
  r <- sysret (Sigaction SIGINT QUIT_HANDLER (drop 1 (data u)) (nth 0 (data u) 0)) ;;
  if negb (r =? 0) then Ret false
  else
    sys_ (Signal SIGPIPE QUIT_HANDLER) ;;;
    sys_ (Signal SIGCHLD SIG_IGN) ;;;
    sys_ (Signal SIGTTIN SIG_IGN) ;;;
    Ret true.

(** [while (fd == -1) fd = attempt;] starting from -1. *)
Definition retry (attempt : prog Z) : prog Z :=
  while (fun fd => Ret (fd =? -1)) (fun _ => attempt) (-1).

Definition cleanup (fd : Z) : prog unit :=
  r <- sysret (Close fd) ;;
  if r =? -1 then Ret tt else Ret tt.

(** ** Transports *)

Record transport := Transport {
  t_read : list Z -> Z -> Z -> prog (list Z * counts);
  t_write : list Z -> Z -> Z -> prog counts
}.

Class TransportOk (T : transport) (rfd wfd : Z) : Prop := {
  t_read_total e (K : KernelIO e) (I : hist -> Prop) h buffer chunk n :
    0 < chunk -> 0 <= n < 2 ^ 63 -> n <= zlen buffer ->
    (forall h', more_in rfd n h h' -> I h') ->
    total e I h (t_read T buffer chunk n) (returns (fun r h' =>
      received_total rfd n h buffer r.1 (n_total r.2) h' /\
      counts_of chunk (n_total r.2) r.2 /\ 0 <= n_total r.2 /\ finished n (n_total r.2) h'));
  t_write_total e (K : KernelIO e) (I : hist -> Prop) h buffer chunk n :
    0 < chunk -> 0 <= n < 2 ^ 63 -> n <= zlen buffer ->
    (forall h', more_out wfd n buffer h h' -> I h') ->
    total e I h (t_write T buffer chunk n) (returns (fun c h' =>
      sent_total wfd n h buffer (n_total c) h' /\
      counts_of chunk (n_total c) c /\ finished n (n_total c) h'))
}.

(** A transport made of an input and an output call. *)
Definition call_transport (input : Z -> call) (output : list Z -> call) : transport :=
  Transport (receive_requests input) (send_requests output).

#[export] Instance call_transport_ok input output rfd wfd
    `{!InputCall input rfd} `{!OutputCall output wfd} :
  TransportOk (call_transport input output) rfd wfd.
Proof.
  split; intros; cbn.
  - by apply receive_requests_total.
  - by apply send_requests_total.
Qed.

(** ** Rules *)

Section rules.
Context (e : env) (I : hist -> Prop).

Lemma total_checkPoll h pfds n t (Q : outcome (list pollfd * bool) -> hist -> Prop) :
  I h ->
  (forall r c, quiet c -> I ((c, r) :: h) /\ forall p ok, Q (Val (p, ok)) ((c, r) :: h)) ->
  total e I h (checkPoll pfds n t) Q.
Proof.
  intros HI HQ. unfold checkPoll, sys. cbn [bind]. apply total_call; [done|].
  destruct (HQ (e h (Poll (map (fun p => (pfd p, events p)) (take n pfds)) t))
    (Poll (map (fun p => (pfd p, events p)) (take n pfds)) t) Logic.I) as [HI' HQ'].
  case_test; by apply total_ret.
Qed.

Lemma total_sysret h c (Q : outcome Z -> hist -> Prop) :
  I h -> I ((c, e h c) :: h) -> Q (Val (ret (e h c))) ((c, e h c) :: h) ->
  total e I h (sysret c) Q.
Proof. intros. unfold sysret. apply total_call; [done|]. by apply total_ret. Qed.

Lemma total_sys_ h c (Q : outcome unit -> hist -> Prop) :
  I h -> I ((c, e h c) :: h) -> Q (Val tt) ((c, e h c) :: h) ->
  total e I h (sys_ c) Q.
Proof. intros. unfold sys_. apply total_call; [done|]. by apply total_ret. Qed.

Lemma total_running h (Q : outcome bool -> hist -> Prop) :
  I h -> I ((LoadQuit, e h LoadQuit) :: h) ->
  Q (Val (ret (e h LoadQuit) =? 0)) ((LoadQuit, e h LoadQuit) :: h) ->
  total e I h running Q.
Proof.
  intros. unfold running, load_quit. apply total_bind, total_sysret; [done|done|].
  cbn [post]. by apply total_ret.
Qed.
End rules.
