(* ===== verification/EchoClient.v ===== *)
(** * The [communicate] loop of the fifo, domain and tcp clients

    The three clients run the same loop over different transports. The state of the loop is
    [client]; [client_body] is one iteration. The specification is [client_inv]: the counters
    are the byte streams of the history, and the window is never exceeded. *)

From S2P Require Import Prelude CInt Prog Stream Transfer Arguments Benchmarks Times Echo.

Record client := Client {
  c_readBuffer : list Z;
  c_times : list Z;
  c_pfds : list pollfd;
  c_wait : Z;
  c_outstandingBytes : Z;
  c_totalBytesRead : Z;
  c_totalBytesWritten : Z;
  c_numReqsRead : Z;
  c_numReqsSent : Z;
  c_outstandingReqs : Z
}.

Definition with_pfds (st : client) (p : list pollfd) : client :=
  Client (c_readBuffer st) (c_times st) p (c_wait st) (c_outstandingBytes st)
    (c_totalBytesRead st) (c_totalBytesWritten st) (c_numReqsRead st) (c_numReqsSent st)
    (c_outstandingReqs st).

Section client.
(** The transport, the arguments, the buffer written, the number of polled descriptors and
    the entry polled for output. *)
Context (T : transport) (args : Arguments) (writeBuffer : list Z) (nfds out_slot : nat).

Definition reqSize : Z := u64 (size args).
Definition maxBytes : Z := u64 (reqSize * u64 (count args)).
Definition maxOutstandingBytes : Z := u64 (reqSize * u64 (rate args)).
Definition maxOutstandingReqs : Z := u64 (rate args).

(** [(totalBytesRead < maxBytes) && (quit == 0)]. *)
Definition client_cond (st : client) : prog bool :=
  if u64 (c_totalBytesRead st) <? maxBytes then running else Ret false.

(** [if (canRead && (quit == 0)) { ... }]. *)
Definition client_read (canRead : bool) (st : client) : prog client :=
  go <- (if canRead then running else Ret false) ;;
  if negb go then Ret st
  else
    '(buffer, readInfo) <- t_read T (c_readBuffer st) reqSize (c_outstandingBytes st) ;;
    let outstandingBytes := u64 (c_outstandingBytes st - n_total readInfo) in
    let totalBytesRead := i64 (u64 (c_totalBytesRead st) + n_total readInfo) in
    let some := 0 <? n_whole readInfo in
    let outstandingReqs :=
      if some then u64 (c_outstandingReqs st - n_whole readInfo) else c_outstandingReqs st in
    let toUpdateRead := if some then n_whole readInfo else 0 in
    t <- now ;;
    times <- updateReadWriteTimes t (c_times st) (u64 (count args)) (c_numReqsRead st)
               toUpdateRead ;;
    Ret (Client buffer times (c_pfds st) (c_wait st) outstandingBytes totalBytesRead
      (c_totalBytesWritten st) (u64 (c_numReqsRead st + toUpdateRead)) (c_numReqsSent st)
      outstandingReqs).

(** [if (outstandingReqs < maxOutstandingReqs) { ... }]. *)
Definition client_stamp (st : client) : prog client :=
  if c_outstandingReqs st <? maxOutstandingReqs then
    let n := u64 (maxOutstandingReqs - c_outstandingReqs st) in
    t <- now ;;
    times <- updateWriteTimes t (c_times st) (u64 (count args)) (c_numReqsSent st) n ;;
    Ret (Client (c_readBuffer st) times (c_pfds st) (c_wait st) (c_outstandingBytes st)
      (c_totalBytesRead st) (c_totalBytesWritten st) (c_numReqsRead st)
      (u64 (c_numReqsSent st + n)) (c_outstandingReqs st))
  else Ret st.

(** [if (canWrite && (outstandingBytes < maxOutstandingBytes) && (quit == 0)) { ... }]. *)
Definition client_write (canWrite : bool) (st : client) : prog client :=
  go <- (if canWrite && (c_outstandingBytes st <? maxOutstandingBytes) then running
         else Ret false) ;;
  if negb go then Ret st
  else
    writeInfo <- t_write T writeBuffer reqSize
                   (u64 (maxOutstandingBytes - c_outstandingBytes st)) ;;
    Ret (Client (c_readBuffer st) (c_times st) (c_pfds st) 1000
      (u64 (c_outstandingBytes st + n_total writeInfo)) (c_totalBytesRead st)
      (i64 (u64 (c_totalBytesWritten st) + n_total writeInfo)) (c_numReqsRead st)
      (c_numReqsSent st)
      (if 0 <? n_whole writeInfo then u64 (c_outstandingReqs st + n_whole writeInfo)
       else c_outstandingReqs st)).

(** The body of the loop; [false] for [break]. *)
Definition client_body (st : client) : prog (client * bool) :=
  '(pfds, ok) <- checkPoll (c_pfds st) nfds (c_wait st) ;;
  let st := with_pfds st pfds in
  if negb ok then Ret (st, false)
  else
    go <- running ;;
    if negb go then Ret (st, false)
    else
      let canRead := ready (c_pfds st) 0 POLLIN in
      let canWrite := ready (c_pfds st) out_slot POLLOUT in
      st <- client_read canRead st ;;
      st <- client_stamp st ;;
      st <- client_write canWrite st ;;
      Ret (st, true).

Definition client_loop (st : client) : prog client := while_break client_cond client_body st.

(** The locals before the loop. *)
Definition client_start (readBuffer times : list Z) (pfds : list pollfd) : client :=
  Client readBuffer times pfds 0 0 0 0 0 0 0.

(** [args->count = numReqsRead > args->count ? args->count : numReqsRead]. *)
Definition clip_count (st : client) : Arguments :=
  Args (size args)
    (if u64 (count args) <? c_numReqsRead st then count args else i32 (c_numReqsRead st))
    (rate args).
End client.

(** ** Specification *)

(** The arguments a run is meant for: positive [int]s. *)
Record args_ok (a : Arguments) : Prop := {
  ok_size : 0 < size a < 2 ^ 31;
  ok_count : 0 < count a < 2 ^ 31;
  ok_rate : 0 < rate a < 2 ^ 31
}.

Lemma args_products a :
  args_ok a ->
  reqSize a = size a /\ u64 (count a) = count a /\ maxOutstandingReqs a = rate a /\
  maxBytes a = size a * count a /\ maxOutstandingBytes a = size a * rate a /\
  0 < size a * count a < 2 ^ 62 /\ 0 < size a * rate a < 2 ^ 62.
Proof.
  intros [Hs Hc Hr]. unfold maxBytes, maxOutstandingBytes, maxOutstandingReqs, reqSize.
  assert (0 < size a * count a < 2 ^ 62) by nia.
  assert (0 < size a * rate a < 2 ^ 62) by nia.
  rewrite !(u64_small (size a)), !(u64_small (count a)), !(u64_small (rate a))
    by (unfold in_u64, u64_mod; lia).
  rewrite !u64_small by (unfold in_u64, u64_mod; lia). done.
Qed.

(** Bytes read and written since the history [h0]. *)
Definition read_since (rfd : Z) (h0 h : hist) : Z := zlen (received rfd h) - zlen (received rfd h0).
Definition written_since (wfd : Z) (h0 h : hist) : Z := zlen (sent wfd h) - zlen (sent wfd h0).

Lemma read_since_quiet rfd h0 c r h :
  quiet c -> read_since rfd h0 ((c, r) :: h) = read_since rfd h0 h.
Proof. intros. unfold read_since. by rewrite received_quiet. Qed.

Lemma written_since_quiet wfd h0 c r h :
  quiet c -> written_since wfd h0 ((c, r) :: h) = written_since wfd h0 h.
Proof. intros. unfold written_since. by rewrite sent_quiet. Qed.

#[export] Hint Rewrite read_since_quiet written_since_quiet using exact Logic.I : cbench.

(** The window protocol of a client: it never has read more than it has written, and never
    has more than [max] bytes under way. *)
Definition window (rfd wfd max : Z) (h0 h : hist) : Prop :=
  0 <= written_since wfd h0 h - read_since rfd h0 h <= max.

Record client_inv (rfd wfd : Z) (args : Arguments) (h0 : hist) (st : client) (h : hist) : Prop := {
  ci_outstanding : c_outstandingBytes st = written_since wfd h0 h - read_since rfd h0 h;
  ci_window : window rfd wfd (maxOutstandingBytes args) h0 h;
  ci_read : c_totalBytesRead st = read_since rfd h0 h;
  ci_written : c_totalBytesWritten st = i64 (written_since wfd h0 h);
  ci_bound : 0 <= read_since rfd h0 h < maxBytes args + maxOutstandingBytes args;
  ci_buffer : zlen (c_readBuffer st) = maxOutstandingBytes args;
  ci_times : zlen (c_times st) = count args;
  ci_numread : 0 <= c_numReqsRead st /\ c_numReqsRead st * size args <= read_since rfd h0 h;
  ci_numsent : 0 <= c_numReqsSent st < u64_mod;
  ci_reqs : 0 <= c_outstandingReqs st < u64_mod
}.

(** Why a loop ended before its work was done. *)
Definition interrupted (h : hist) : Prop :=
  match h with
  | (LoadQuit, r) :: _ => ret r <> 0
  | (Poll _ _, r) :: _ => ret r = -1
  | _ => False
  end.

Section specification.
Context (e : env) {K : KernelIO e} {C : ClockOk e}.
Context (T : transport) (rfd wfd : Z) {TOK : TransportOk T rfd wfd}.
Context (args : Arguments) (AOK : args_ok args) (writeBuffer : list Z).
Context (WB : zlen writeBuffer = maxOutstandingBytes args) (h0 : hist).

Local Abbreviation inv := (client_inv rfd wfd args h0).
Local Abbreviation win := (window rfd wfd (maxOutstandingBytes args) h0).

Lemma client_inv_quiet st h c r : quiet c -> inv st h -> inv st ((c, r) :: h).
Proof.
  intros Hq []. unfold window in *.
  split; unfold window; rewrite ?read_since_quiet, ?written_since_quiet by done; done.
Qed.

Lemma window_quiet h c r : quiet c -> win h -> win ((c, r) :: h).
Proof.
  intros Hq. unfold window. by rewrite read_since_quiet, written_since_quiet.
Qed.

Lemma client_inv_pfds st h p : inv st h -> inv (with_pfds st p) h.
Proof. intros []. by split. Qed.

(** The state after reading [tot] bytes, [w] whole requests of them. *)
Lemma client_inv_read st h b1 c h1 times n w tot :
  inv st h -> read_since rfd h0 h < maxBytes args ->
  received_total rfd (c_outstandingBytes st) h (c_readBuffer st) b1 tot h1 ->
  0 <= tot -> 0 <= w -> w * size args <= tot ->
  zlen times = zlen (c_times st) -> n = c_numReqsSent st -> 0 <= c < u64_mod ->
  inv (Client b1 times (c_pfds st) (c_wait st) (u64 (c_outstandingBytes st - tot))
        (i64 (u64 (c_totalBytesRead st) + tot)) (c_totalBytesWritten st)
        (u64 (c_numReqsRead st + w)) n c) h1.
Proof.
  intros [] Hlt (d & Hr & Hs & Hl & Ht & ->) H0 Hw Hwt Hti -> Hc.
  destruct (args_products args AOK) as (Hsz & Hcnt & Hrt & Hmb & Hmo & Hb1 & Hb2).
  assert (read_since rfd h0 h1 = read_since rfd h0 h + tot) as HR
    by (unfold read_since; rewrite Hr, zlen_app; lia).
  assert (written_since wfd h0 h1 = written_since wfd h0 h) as HW
    by (unfold written_since; by rewrite Hs).
  unfold window in *. destruct AOK.
  split; unfold window; cbn; rewrite ?HR, ?HW.
  - rewrite u64_small; [lia|unfold in_u64, u64_mod; lia].
  - lia.
  - rewrite i64_small; [rewrite u64_small; [lia|]|]; unfold in_u64, in_i64, u64_mod; [lia|].
    rewrite u64_small; [lia|unfold in_u64, u64_mod; lia].
  - lia.
  - lia.
  - rewrite zlen_app, zlen_zdrop. lia.
  - lia.
  - rewrite u64_small; [nia|unfold in_u64, u64_mod; nia].
  - lia.
  - lia.
Qed.

(** The state after writing [tot] bytes. *)
Lemma client_inv_write st h c h1 tot :
  inv st h ->
  sent_total wfd (maxOutstandingBytes args - c_outstandingBytes st) h writeBuffer tot h1 ->
  0 <= c < u64_mod ->
  inv (Client (c_readBuffer st) (c_times st) (c_pfds st) 1000
        (u64 (c_outstandingBytes st + tot)) (c_totalBytesRead st)
        (i64 (u64 (c_totalBytesWritten st) + tot)) (c_numReqsRead st) (c_numReqsSent st) c) h1.
Proof.
  intros [] (Hs & Hr & Ht) Hc.
  destruct (args_products args AOK) as (Hsz & Hcnt & Hrt & Hmb & Hmo & Hb1 & Hb2).
  assert (read_since rfd h0 h1 = read_since rfd h0 h) as HR
    by (unfold read_since; by rewrite Hr).
  unfold window in *.
  assert (written_since wfd h0 h1 = written_since wfd h0 h + tot) as HW
    by (unfold written_since; rewrite Hs, zlen_app, zlen_ztake; lia).
  split; unfold window; cbn; rewrite ?HR, ?HW; try done.
  - rewrite u64_small; [lia|unfold in_u64, u64_mod; lia].
  - lia.
  - rewrite ci_written0. apply i64_u64_add_l.
Qed.

Lemma counts_whole tot c :
  0 <= tot -> counts_of (size args) tot c -> 0 <= n_whole c /\ n_whole c * size args <= tot.
Proof.
  intros H0 Hc. destruct AOK. destruct (counts_of_sum (size args) tot c) as (He & Hs & Hw); [lia|done|done|].
  rewrite Hc in *. cbn in *. nia.
Qed.

Lemma client_read_total b st h :
  inv st h -> read_since rfd h0 h < maxBytes args ->
  total e win h (client_read T args b st) (returns (fun st' h' => inv st' h')).
Proof.
  intros J Hlt. pose proof (ci_window _ _ _ _ _ _ J) as Hw.
  destruct (args_products args AOK) as (Hsz & Hcnt & Hrt & Hmb & Hmo & Hb1 & Hb2).
  unfold client_read. apply total_bind. destruct b.
  2: { apply total_ret; [done|]. cbn. by apply total_ret. }
  apply total_running; [done|by apply window_quiet|]. cbn [post].
  destruct (_ =? 0); cbn [negb].
  2: { apply total_ret; [by apply window_quiet|]. cbn. by apply client_inv_quiet. }
  set (h1 := (LoadQuit, _) :: h). assert (inv st h1) as J1 by by apply client_inv_quiet.
  assert (read_since rfd h0 h1 < maxBytes args) as Hlt1 by (unfold h1; by rewrite read_since_quiet).
  clearbody h1. clear J Hlt Hw. destruct J1 as [Ho Hw HR HW Hb Hbuf Hti Hnr Hns Hrq] eqn:E. clear E.
  unfold window in Hw. rewrite Hsz. apply total_bind.
  eapply total_conseq; [apply (t_read_total (wfd := wfd)); [done|destruct AOK; lia|lia|lia|]|].
  { intros h' ((d & Hr & Hd) & Hs). unfold window, read_since, written_since in *.
    rewrite Hs, Hr, zlen_app. pose proof (zlen_nonneg d). lia. }
  intros [[b1 c]|x] h2 Hw2; [|done]. cbn [post returns fst snd].
  intros (Hrt2 & Hc & H0 & _). destruct (counts_whole _ _ H0 Hc) as [Hw0 Hwt].
  apply total_bind, (total_now e); [done|by apply window_quiet|].
  intros t Htu. cbn [post]. rewrite Hcnt.
  set (w := if 0 <? n_whole c then n_whole c else 0).
  assert (w = n_whole c) as Hwe by (unfold w; case_test; lia). rewrite Hwe.
  assert (received_total rfd (c_outstandingBytes st) h1 (c_readBuffer st) b1 (n_total c)
    ((TimespecGet, e h2 TimespecGet) :: h2)) as Hrt3.
  { destruct Hrt2 as (d & ? & ? & ? & ? & ?). exists d.
    rewrite received_quiet by done. split_and!; try done. intros. by rewrite sent_quiet. }
  apply total_bind. eapply total_conseq.
  { apply update_times_total; [by rewrite Hti|destruct AOK; unfold u64_mod; lia|lia| |by apply window_quiet].
    unfold u64_mod. destruct AOK. destruct Hrt2 as (d & _ & _ & _ & ? & _). nia. }
  intros [times|x] h3 Hw3; [|done]. cbn [returns post]. intros (-> & Hzt & _).
  apply total_ret; [done|]. cbn [returns].
  apply (client_inv_read _ h1); try done.
  - case_test; [apply u64_range|lia].
Qed.

Lemma client_stamp_total st h :
  inv st h ->
  total e win h (client_stamp args st) (returns (fun st' h' => inv st' h')).
Proof.
  intros J. pose proof J as [Ho Hw HR HW Hb Hbuf Hti Hnr Hns Hrq].
  destruct (args_products args AOK) as (Hsz & Hcnt & Hrt & Hmb & Hmo & Hb1 & Hb2).
  unfold client_stamp. case_test; [|by apply total_ret].
  apply total_bind, (total_now e); [done|by apply window_quiet|].
  intros t Htu. cbn [post]. rewrite Hcnt. apply total_bind. eapply total_conseq.
  { apply update_times_total; [by rewrite Hti|destruct AOK; unfold u64_mod; lia|lia|
      apply u64_range|by apply window_quiet]. }
  intros [times|x] h3 Hw3; [|done]. cbn [returns post]. intros (-> & Hzt & _).
  apply total_ret; [done|]. cbn [returns]. apply client_inv_quiet; [done|].
  split; try done; cbn; [lia|apply u64_range].
Qed.

Lemma client_write_total b st h :
  inv st h ->
  total e win h (client_write T args writeBuffer b st) (returns (fun st' h' => inv st' h')).
Proof.
  intros J. pose proof J as [Ho Hw HR HW Hb Hbuf Hti Hnr Hns Hrq].
  destruct (args_products args AOK) as (Hsz & Hcnt & Hrt & Hmb & Hmo & Hb1 & Hb2).
  unfold client_write. apply total_bind.
  destruct (b && _) eqn:Eb; bool_to_prop.
  2: { apply total_ret; [done|]. cbn. by apply total_ret. }
  apply total_running; [done|by apply window_quiet|]. cbn [post].
  destruct (_ =? 0); cbn [negb].
  2: { apply total_ret; [by apply window_quiet|]. cbn. by apply client_inv_quiet. }
  set (h1 := (LoadQuit, _) :: h). assert (inv st h1) as J1 by by apply client_inv_quiet.
  clearbody h1. clear J Hw Ho HR HW Hb.
  destruct J1 as [Ho Hw HR HW Hb Hbuf1 Hti1 Hnr1 Hns1 Hrq1] eqn:E. clear E.
  unfold window in Hw. rewrite Hsz. rewrite u64_small by (unfold in_u64, u64_mod; lia).
  apply total_bind.
  eapply total_conseq; [apply (t_write_total (rfd := rfd)); [done|destruct AOK; lia|lia|lia|]|].
  { intros h' ((m & Hm & Hs) & Hr). unfold window, read_since, written_since in *.
    rewrite Hs, Hr, zlen_app, zlen_ztake. lia. }
  intros [c|x] h2 Hw2; [|done]. cbn [post returns]. intros (Hst & Hc & _).
  apply total_ret; [done|]. cbn [returns]. apply (client_inv_write _ h1); [done|done|].
  case_test; [apply u64_range|done].
Qed.

Lemma client_body_total nfds out_slot st h :
  inv st h -> read_since rfd h0 h < maxBytes args ->
  total e win h (client_body T args writeBuffer nfds out_slot st) (returns (fun r h' =>
    inv r.1 h' /\ (r.2 = false -> interrupted h'))).
Proof.
  intros J Hlt. unfold client_body. pose proof (ci_window _ _ _ _ _ _ J) as Hw.
  apply total_bind. unfold checkPoll, sys. cbn [bind]. apply total_call; [done|].
  set (c := Poll _ _). set (h1 := (c, e h c) :: h).
  assert (win h1) as Hw1 by by apply window_quiet.
  assert (inv st h1) as J1 by by apply client_inv_quiet.
  assert (read_since rfd h0 h1 < maxBytes args) as Hlt1 by (unfold h1; by rewrite read_since_quiet).
  destruct (Z.eqb_spec (ret (e h c)) (-1)).
  { apply total_ret; [done|]. cbn. apply total_ret; [done|]. cbn.
    split; [by apply client_inv_pfds|done]. }
  apply total_ret; [done|]. cbn [post negb]. set (st1 := with_pfds _ _).
  assert (inv st1 h1) as J2 by by apply client_inv_pfds. clearbody st1 h1. clear J1 J.
  apply total_bind, total_running; [done|by apply window_quiet|]. cbn [post].
  set (h2 := (LoadQuit, _) :: h1). assert (win h2) as Hw2 by by apply window_quiet.
  assert (inv st1 h2) as J3 by by apply client_inv_quiet.
  assert (read_since rfd h0 h2 < maxBytes args) as Hlt2
    by (unfold h2; by rewrite read_since_quiet).
  destruct (Z.eqb_spec (ret (e h1 LoadQuit)) 0); cbn [negb]; [|by apply total_ret]. clearbody h2.
  apply total_bind. eapply total_conseq; [by apply client_read_total|].
  intros [st2|x] h3 _; [|done]. cbn [returns post]. intros J4.
  apply total_bind. eapply total_conseq; [by apply client_stamp_total|].
  intros [st3|x] h4 _; [|done]. cbn [returns post]. intros J5.
  apply total_bind. eapply total_conseq; [by apply client_write_total|].
  intros [st4|x] h5 Hw5; [|done]. cbn [returns post]. intros J6.
  by apply total_ret.
Qed.

Lemma client_loop_safe nfds out_slot st h :
  inv st h ->
  safe e win h (client_loop T args writeBuffer nfds out_slot st) (returns (fun st' h' =>
    inv st' h' /\ (maxBytes args <= read_since rfd h0 h' \/ interrupted h'))).
Proof.
  intros J. destruct (args_products args AOK) as (Hsz & Hcnt & Hrt & Hmb & Hmo & Hb1 & Hb2).
  unfold client_loop. eapply safe_while_break; [|exact J]. clear J st h.
  intros st h J. pose proof (ci_window _ _ _ _ _ _ J) as Hw. unfold client_cond.
  rewrite (ci_read _ _ _ _ _ _ J). pose proof (ci_bound _ _ _ _ _ _ J).
  rewrite u64_small by (unfold in_u64, u64_mod; lia). case_test; apply total_safe.
  - apply total_running; [done|by apply window_quiet|]. cbn [post].
    set (h1 := (LoadQuit, _) :: h). assert (inv st h1) as J1 by by apply client_inv_quiet.
    assert (read_since rfd h0 h1 < maxBytes args) as Hlt1
      by (unfold h1; by rewrite read_since_quiet).
    case_test.
    + apply total_safe. eapply total_conseq; [by apply client_body_total|].
      intros [[st' go]|x] h2 _; [|done]. cbn. intros [J2 Hint].
      destruct go; [done|]. split; [done|right]. by apply Hint.
    + cbn. split; [done|by right].
  - apply total_ret; [done|]. cbn. split; [done|by left].
Qed.
End specification.

(** ** Before and after the loop *)

Section communicate.
Context (e : env) (I : hist -> Prop) (SI : stream_inv I).

Lemma total_quiet_sys h c (Q : outcome unit -> hist -> Prop) :
  quiet c -> I h -> (forall h', I h' -> Q (Val tt) h') -> total e I h (sys_ c) Q.
Proof using SI.
  intros Hc HI HQ. apply total_sys_; [done|by apply SI|]. apply HQ. by apply SI.
Qed.

(** The report: a client that has measured nothing fails its assertion. *)
Lemma evaluateClient_total h diffs a :
  I h -> count a <= zlen diffs -> count a < 2 ^ 31 ->
  total e I h (evaluateClient diffs a) (fun o _ =>
    (0 < count a -> exists r, o = Val r) /\ (count a <= 0 -> o = Halted AssertFailed)).
Proof using SI.
  intros HI Hd Hc. unfold evaluateClient, assert_. destruct (Z.ltb_spec 0 (count a)).
  2: { apply total_stop; [done|]. split; [lia|done]. }
  cbn [bind]. unfold analyze_array. rewrite u64_small by (unfold in_u64, u64_mod; lia).
  rewrite (proj2 (Z.ltb_lt 0 _)), (proj2 (Z.leb_le (count a) _)) by done. cbn [andb negb].
  repeat (apply total_bind, total_quiet_sys; [done|done|]; intros ? ?; cbn [post]).
  apply total_ret; [done|]. split; [eauto|lia].
Qed.

Lemma cleanup_total h fd :
  I h -> total e I h (cleanup fd) (returns (fun _ _ => True)).
Proof using SI.
  intros HI. unfold cleanup. apply total_bind, total_sysret; [done|by apply SI|].
  cbn [post]. case_test; (apply total_ret; [by apply SI|done]).
Qed.
End communicate.

(** No byte has moved on the two descriptors since [h0]. *)
Definition unmoved (rfd wfd : Z) (h0 h : hist) : Prop :=
  read_since rfd h0 h = 0 /\ written_since wfd h0 h = 0.

Lemma unmoved_here rfd wfd h : unmoved rfd wfd h h.
Proof. unfold unmoved, read_since, written_since. lia. Qed.

Lemma unmoved_quiet rfd wfd h0 c r h :
  quiet c -> unmoved rfd wfd h0 h -> unmoved rfd wfd h0 ((c, r) :: h).
Proof. intros. unfold unmoved. by rewrite read_since_quiet, written_since_quiet. Qed.

Lemma unmoved_window rfd wfd m h0 h : 0 <= m -> unmoved rfd wfd h0 h -> window rfd wfd m h0 h.
Proof. intros Hm [Hr Hw]. unfold window. lia. Qed.

Lemma client_inv_start rfd wfd args h0 h rb times pfds :
  args_ok args -> unmoved rfd wfd h0 h ->
  zlen rb = maxOutstandingBytes args -> zlen times = count args ->
  client_inv rfd wfd args h0 (client_start rb times pfds) h.
Proof.
  intros A [Hr0 Hw0] Hr Ht.
  destruct (args_products args A) as (Hsz & Hcnt & Hrt & Hmb & Hmo & Hb1 & Hb2).
  split; unfold window; cbn; rewrite ?Hr0, ?Hw0; try done; lia.
Qed.

Lemma clip_count_bounds args st :
  args_ok args -> 0 <= c_numReqsRead st ->
  count (clip_count args st) = Z.min (c_numReqsRead st) (count args).
Proof.
  intros A Hn. destruct (args_products args A) as (_ & Hcnt & _). destruct A.
  unfold clip_count. cbn. rewrite Hcnt. case_test; [lia|].
  rewrite i32_small; [lia|unfold in_i32; lia].
Qed.

Lemma window_streams rfd wfd m h0 : stream_inv (window rfd wfd m h0).
Proof. intros c r h Hq. unfold window. by rewrite read_since_quiet, written_since_quiet. Qed.

Lemma unmoved_streams rfd wfd h0 : stream_inv (unmoved rfd wfd h0).
Proof. intros c r h. apply unmoved_quiet. Qed.

(** A client's blocks before the loop. *)
Section setup.
Context (e : env) {M : MallocOk e} (I : hist -> Prop) (U : hist -> Prop).
Context (UI : forall h, U h -> I h) (SU : kept_by e U).

Lemma safe_malloc {A} h n (k : list Z -> prog A) (Q : outcome A -> hist -> Prop) :
  0 <= n -> U h -> (forall b h', zlen b = n -> U h' -> safe e I h' (k b) Q) ->
  safe e I h (b <- malloc n ;; k b) Q.
Proof using M UI SU.
  intros Hn HU Hk. unfold malloc. cbn [bind]. apply safe_call; [by apply UI|].
  apply Hk; [by apply malloc_ok|by apply SU].
Qed.

Lemma safe_now `{!ClockOk e} {A} h (k : Z -> prog A) (Q : outcome A -> hist -> Prop) :
  U h -> (forall t h', in_u64 t -> U h' -> safe e I h' (k t) Q) ->
  safe e I h (t <- now ;; k t) Q.
Proof using UI SU.
  intros HU Hk. apply safe_bind, total_safe, (total_now e); [by apply UI|by apply UI, SU|].
  intros t Ht. cbn [post]. apply Hk; [done|by apply SU].
Qed.

Lemma safe_sys_ {A} h c (k : prog A) (Q : outcome A -> hist -> Prop) :
  quiet c -> U h -> (forall h', U h' -> safe e I h' k Q) -> safe e I h (sys_ c ;;; k) Q.
Proof using UI SU.
  intros Hc HU Hk. unfold sys_. cbn [bind]. apply safe_call; [by apply UI|].
  by apply Hk, SU.
Qed.

Lemma safe_setup_benchmarks `{!ClockOk e} {A} h start (k : Benchmarks -> prog A)
    (Q : outcome A -> hist -> Prop) :
  U h -> (forall b h', U h' -> safe e I h' (k b) Q) ->
  safe e I h (b <- setup_benchmarks start ;; k b) Q.
Proof using UI SU.
  intros HU Hk. unfold setup_benchmarks. apply safe_bind, safe_now; [done|].
  intros t h' _ HU'. apply safe_ret; [by apply UI|]. by apply Hk.
Qed.
End setup.

(** Reporting and closing: the last statements of the three clients. *)
Lemma safe_report e (I : hist -> Prop) (SI : stream_inv I) args st h (rest : prog unit) :
  args_ok args -> 0 <= c_numReqsRead st -> zlen (c_times st) = count args -> I h ->
  (forall h', I h' -> total e I h' rest (returns (fun _ _ => True))) ->
  safe e I h (evaluateClient (c_times st) (clip_count args st) ;;; rest)
    (fun o _ => o = Val tt \/ o = Halted AssertFailed /\ c_numReqsRead st = 0).
Proof.
  intros A Hn Ht HI Hrest. pose proof (clip_count_bounds _ _ A Hn) as Hc.
  apply safe_bind, total_safe. eapply total_conseq.
  { apply (evaluateClient_total e I SI); [done|destruct A; lia|destruct A; lia]. }
  intros o h' HI' [H1 H2]. destruct (decide (0 < count (clip_count args st))) as [Hp|Hp].
  - destruct (H1 Hp) as [r ->]. cbn. apply total_safe. eapply total_conseq; [by apply Hrest|].
    intros [[]|] ? _; [by left|done].
  - rewrite H2 by lia. cbn. right. split; [done|]. destruct A. lia.
Qed.
