(* ===== verification/EchoServer.v ===== *)
(** * The [communicate] loop of the fifo, domain and tcp servers

    The servers poll for input, read what the window allows, and write back what is
    outstanding. They differ in what the first non-empty read changes: [on_read]. *)

From S2P Require Import Prelude CInt Prog Stream Transfer CDouble Arguments Benchmarks Times.
From S2P Require Import Echo EchoClient.

Record server := Server {
  s_readBuffer : list Z;
  s_pfds : list pollfd;
  s_sizeToPoll : nat;
  s_bench : option Benchmarks;
  s_firstRead : bool;
  s_endTime : Z;
  s_outstandingBytes : Z;
  s_totalBytesRead : Z;
  s_totalBytesWritten : Z
}.

Definition with_poll (st : server) (t : Z) (p : list pollfd) : server :=
  Server (s_readBuffer st) p (s_sizeToPoll st) (s_bench st) (s_firstRead st) t
    (s_outstandingBytes st) (s_totalBytesRead st) (s_totalBytesWritten st).

Section server.
(** The transport, what a non-empty read does besides counting, the arguments, and the entry
    polled for output. *)
Context (T : transport) (on_read : server -> prog server) (args : Arguments) (out_slot : nat).

(** [ssize_t] versions of the limits. *)
Definition s_maxOutstandingBytes : Z := i64 (u64 (reqSize args * u64 (rate args))).
Definition s_maxBytes : Z := i64 (u64 (reqSize args * u64 (count args))).

(** [(totalBytesWritten < maxBytes) && (quit == 0)], a signed comparison. *)
Definition server_cond (st : server) : prog bool :=
  if s_totalBytesWritten st <? s_maxBytes then running else Ret false.

(** [size_t toRead]. *)
Definition to_read (st : server) : Z :=
  if s_maxOutstandingBytes <? s_outstandingBytes st then u64 (s_outstandingBytes st)
  else u64 s_maxOutstandingBytes.

(** The body of [if (canRead && (quit == 0)) { ... }]; returns the state and [toWrite]. *)
Definition server_take (toWrite : Z) (st : server) : prog (server * Z) :=
  '(buffer, readInfo) <- t_read T (s_readBuffer st) (reqSize args) (to_read st) ;;
  let st := Server buffer (s_pfds st) (s_sizeToPoll st) (s_bench st) (s_firstRead st)
    (s_endTime st) (i64 (u64 (s_outstandingBytes st) + n_total readInfo))
    (i64 (u64 (s_totalBytesRead st) + n_total readInfo)) (s_totalBytesWritten st) in
  if n_total readInfo =? 0 then Ret (st, toWrite)
  else
    st <- on_read st ;;
    Ret (st, u64 (toWrite + n_total readInfo)).

Definition server_read (canRead : bool) (st : server) : prog (server * Z) :=
  let toWrite := u64 (s_outstandingBytes st) in
  go <- (if canRead then running else Ret false) ;;
  if negb go then Ret (st, toWrite) else server_take toWrite st.

(** [if (canWrite && (quit == 0)) { ... }]. *)
Definition server_write (canWrite : bool) (toWrite : Z) (st : server) : prog server :=
  go <- (if canWrite then running else Ret false) ;;
  if negb go then Ret st
  else
    writeInfo <- t_write T (s_readBuffer st) (reqSize args) toWrite ;;
    Ret (Server (s_readBuffer st) (s_pfds st) (s_sizeToPoll st) (s_bench st) (s_firstRead st)
      (s_endTime st) (i64 (u64 (s_outstandingBytes st) - n_total writeInfo))
      (s_totalBytesRead st) (i64 (u64 (s_totalBytesWritten st) + n_total writeInfo))).

Definition server_body (st : server) : prog (server * bool) :=
  endTime <- now ;;
  '(pfds, ok) <- checkPoll (s_pfds st) (s_sizeToPoll st) 1000 ;;
  let st := with_poll st endTime pfds in
  if negb ok then Ret (st, false)
  else
    go <- running ;;
    if negb go then Ret (st, false)
    else
      let canRead := ready (s_pfds st) 0 POLLIN in
      let canWrite := ready (s_pfds st) out_slot POLLOUT in
      '(st, toWrite) <- server_read canRead st ;;
      st <- server_write canWrite toWrite st ;;
      Ret (st, true).

Definition server_loop (st : server) : prog server := while_break server_cond server_body st.

(** [ssize_t numReqs = totalBytesWritten / reqSize; evaluateServer(&bench, numReqs, endTime)]. *)
Definition server_report (st : server) : prog unit :=
  numReqs <- div_u64 (u64 (s_totalBytesWritten st)) (reqSize args) ;;
  match s_bench st with
  | None => undefined Indeterminate
  | Some b => evaluateServer b numReqs (s_endTime st)
  end.
End server.

(** ** Specification *)

(** The bytes the server has taken and not yet returned. *)
Definition held (rfd wfd : Z) (h0 h : hist) : Z := read_since rfd h0 h - written_since wfd h0 h.

Definition held_ok (rfd wfd max : Z) (h0 h : hist) : Prop := 0 <= held rfd wfd h0 h <= max.

Definition held_nonneg (rfd wfd : Z) (h0 h : hist) : Prop := 0 <= held rfd wfd h0 h.

(** The peer keeps its window: whatever the process does, it is never given more bytes than
    would make it hold [max] of them. Composition.v derives this from the client. *)
Class PeerWindow (e : env) (rfd wfd max : Z) (h0 : hist) : Prop := {
  peer_window h : extends e h0 h -> held rfd wfd h0 h <= max
}.

Record server_inv (rfd wfd : Z) (args : Arguments) (h0 : hist) (st : server) (h : hist) : Prop := {
  si_outstanding : s_outstandingBytes st = held rfd wfd h0 h;
  si_held : held_ok rfd wfd (maxOutstandingBytes args) h0 h;
  si_read : s_totalBytesRead st = i64 (read_since rfd h0 h);
  si_written : s_totalBytesWritten st = written_since wfd h0 h;
  si_bound : 0 <= written_since wfd h0 h < maxBytes args + maxOutstandingBytes args;
  si_buffer : zlen (s_readBuffer st) = maxOutstandingBytes args
}.

(** The clock has been started once there is a byte: [starts] says from which states of the
    clock and of [firstRead] a read leaves the clock started. *)
Definition bench_inv (starts : option Benchmarks -> bool -> Prop) (rfd : Z) (h0 : hist)
    (st : server) (h : hist) : Prop :=
  starts (s_bench st) (s_firstRead st) /\
  (0 < read_since rfd h0 h -> s_bench st <> None).

(** The parts of the state the byte counts are about. *)
Definition same_counts (st st' : server) : Prop :=
  s_readBuffer st' = s_readBuffer st /\ s_outstandingBytes st' = s_outstandingBytes st /\
  s_totalBytesRead st' = s_totalBytesRead st /\ s_totalBytesWritten st' = s_totalBytesWritten st.

(** What the servers' [on_read] must do: leave the counts, start the clock if it is the first
    read and not started, and move no bytes. *)
Class OnRead (e : env) (on_read : server -> prog server)
    (starts : option Benchmarks -> bool -> Prop) : Prop := {
  on_read_total (J : hist -> Prop) h st :
    (forall c r h, quiet c -> J h -> J ((c, r) :: h)) -> J h ->
    total e J h (on_read st) (returns (fun st' h' => same_counts st st' /\
      (starts (s_bench st) (s_firstRead st) ->
        starts (s_bench st') (s_firstRead st') /\ s_bench st' <> None) /\
      (exists evs, h' = evs ++ h /\ Forall (fun ev => quiet ev.1) evs)))
}.

Section specification.
Context (e : env) {K : KernelIO e} {C : ClockOk e}.
Context (T : transport) (rfd wfd : Z) {TOK : TransportOk T rfd wfd}.
Context (on_read : server -> prog server) (starts : option Benchmarks -> bool -> Prop).
Context {OR : OnRead e on_read starts}.
Context (args : Arguments) (AOK : args_ok args) (h0 : hist).
Context {PW : PeerWindow e rfd wfd (maxOutstandingBytes args) h0}.

Local Abbreviation inv := (server_inv rfd wfd args h0).
Local Abbreviation hok := (held_ok rfd wfd (maxOutstandingBytes args) h0).
Local Abbreviation nonneg := (held_nonneg rfd wfd h0).
Local Abbreviation binv := (bench_inv starts rfd h0).

Lemma bench_inv_quiet st h c r : quiet c -> binv st h -> binv st ((c, r) :: h).
Proof. intros Hq. unfold bench_inv. by rewrite read_since_quiet. Qed.

Lemma held_quiet c r h : quiet c -> held rfd wfd h0 ((c, r) :: h) = held rfd wfd h0 h.
Proof. intros. unfold held. by rewrite read_since_quiet, written_since_quiet. Qed.

Lemma held_ok_quiet c r h : quiet c -> hok h -> hok ((c, r) :: h).
Proof. intros. unfold held_ok. by rewrite held_quiet. Qed.

Lemma server_inv_quiet st h c r : quiet c -> inv st h -> inv st ((c, r) :: h).
Proof.
  intros Hq []. split; unfold held_ok in *;
    rewrite ?held_quiet, ?read_since_quiet, ?written_since_quiet by done; done.
Qed.

Lemma server_inv_quiets st h evs :
  Forall (fun ev => quiet ev.1) evs -> inv st h -> inv st (evs ++ h).
Proof.
  induction 1 as [|[c r] evs Hq _ IH]; intros J; [done|].
  apply server_inv_quiet; [done|by apply IH].
Qed.

Lemma server_inv_same st st' h : same_counts st st' -> inv st h -> inv st' h.
Proof. intros (H1 & H2 & H3 & H4) []. split; congruence. Qed.

Lemma s_limits :
  s_maxOutstandingBytes args = maxOutstandingBytes args /\ s_maxBytes args = maxBytes args.
Proof.
  destruct (args_products args AOK) as (Hsz & Hcnt & Hrt & Hmb & Hmo & Hb1 & Hb2).
  unfold s_maxOutstandingBytes, s_maxBytes. fold (maxOutstandingBytes args) (maxBytes args).
  rewrite !i64_small; [done|unfold in_i64; lia..].
Qed.

Lemma server_inv_read st h b1 h1 tot n :
  inv st h -> hok h1 ->
  received_total rfd n h (s_readBuffer st) b1 tot h1 -> n = maxOutstandingBytes args -> 0 <= tot ->
  inv (Server b1 (s_pfds st) (s_sizeToPoll st) (s_bench st) (s_firstRead st) (s_endTime st)
        (i64 (u64 (s_outstandingBytes st) + tot)) (i64 (u64 (s_totalBytesRead st) + tot))
        (s_totalBytesWritten st)) h1.
Proof.
  intros [] Hh1 (d & Hr & Hs & Hl & Ht & ->) -> H0.
  destruct (args_products args AOK) as (Hsz & Hcnt & Hrt & Hmb & Hmo & Hb1 & Hb2).
  unfold held_ok, held in *.
  assert (read_since rfd h0 h1 = read_since rfd h0 h + tot) as HR
    by (unfold read_since; rewrite Hr, zlen_app; lia).
  assert (written_since wfd h0 h1 = written_since wfd h0 h) as HW
    by (unfold written_since; by rewrite Hs).
  rewrite HR, HW in *.
  split; unfold held_ok, held; cbn; rewrite ?HR, ?HW; try done.
  - rewrite u64_small by (unfold in_u64, u64_mod; lia).
    rewrite i64_small by (unfold in_i64; lia). lia.
  - rewrite si_read0. apply i64_u64_add_l.
  - rewrite zlen_app, zlen_zdrop. lia.
Qed.

Lemma server_inv_write st h h1 tot :
  inv st h -> written_since wfd h0 h < maxBytes args ->
  sent_total wfd (s_outstandingBytes st) h (s_readBuffer st) tot h1 ->
  inv (Server (s_readBuffer st) (s_pfds st) (s_sizeToPoll st) (s_bench st) (s_firstRead st)
        (s_endTime st) (i64 (u64 (s_outstandingBytes st) - tot)) (s_totalBytesRead st)
        (i64 (u64 (s_totalBytesWritten st) + tot))) h1.
Proof.
  intros [] Hlt (Hs & Hr & Ht).
  destruct (args_products args AOK) as (Hsz & Hcnt & Hrt & Hmb & Hmo & Hb1 & Hb2).
  unfold held_ok, held in *.
  assert (read_since rfd h0 h1 = read_since rfd h0 h) as HR
    by (unfold read_since; by rewrite Hr).
  assert (written_since wfd h0 h1 = written_since wfd h0 h + tot) as HW
    by (unfold written_since; rewrite Hs, zlen_app, zlen_ztake; lia).
  split; unfold held_ok, held; cbn; rewrite ?HR, ?HW; try done.
  - rewrite u64_small by (unfold in_u64, u64_mod; lia).
    rewrite i64_small by (unfold in_i64; lia). lia.
  - lia.
  - rewrite u64_small by (unfold in_u64, u64_mod; lia).
    rewrite i64_small by (unfold in_i64; lia). lia.
  - lia.
Qed.

Lemma to_read_window st h : inv st h -> to_read args st = maxOutstandingBytes args.
Proof.
  intros J. destruct (args_products args AOK) as (Hsz & Hcnt & Hrt & Hmb & Hmo & Hb1 & Hb2).
  destruct s_limits as [Hm _]. unfold to_read. rewrite Hm.
  rewrite (si_outstanding _ _ _ _ _ _ J). pose proof (si_held _ _ _ _ _ _ J) as [_ Hh].
  rewrite (proj2 (Z.ltb_ge _ _) Hh). rewrite u64_small; [done|unfold in_u64, u64_mod; lia].
Qed.

Lemma inv_nonneg st h : inv st h -> 0 <= held rfd wfd h0 h.
Proof using Type. intros J. by destruct (si_held _ _ _ _ _ _ J). Qed.

Lemma inv_upper st h : inv st h -> held rfd wfd h0 h <= maxOutstandingBytes args.
Proof. intros J. by destruct (si_held _ _ _ _ _ _ J). Qed.

Lemma nonneg_quiet h c r : quiet c -> nonneg h -> nonneg ((c, r) :: h).
Proof. intros. unfold held_nonneg in *. by rewrite held_quiet. Qed.

Lemma outstanding_u64 st h : inv st h -> u64 (s_outstandingBytes st) = s_outstandingBytes st.
Proof.
  intros J. pose proof (inv_nonneg _ _ J) as Hn. pose proof (inv_upper _ _ J) as Hu.
  destruct (args_products args AOK) as (Hsz & Hcnt & Hrt & Hmb & Hmo & Hb1 & Hb2).
  rewrite u64_small; [done|]. rewrite (si_outstanding _ _ _ _ _ _ J). unfold in_u64, u64_mod. lia.
Qed.

(** What reading establishes: the invariant, the number of bytes to write back, the clock. *)
Local Abbreviation read_post st h := (returns (fun r h' =>
  inv r.1 h' /\ r.2 = s_outstandingBytes r.1 /\
  written_since wfd h0 h' = written_since wfd h0 h /\ (binv st h -> binv r.1 h'))).

Lemma quiets_since evs h :
  Forall (fun ev => quiet ev.1) evs ->
  written_since wfd h0 (evs ++ h) = written_since wfd h0 h.
Proof.
  induction 1 as [|[c r] evs Hc _ IH]; [done|]. cbn. by rewrite written_since_quiet.
Qed.

Lemma on_read_step st h st2 h2 n :
  inv st h -> inv st2 h2 -> n <> 0 -> s_outstandingBytes st2 = s_outstandingBytes st + n ->
  s_bench st2 = s_bench st -> s_firstRead st2 = s_firstRead st ->
  written_since wfd h0 h2 = written_since wfd h0 h ->
  total e nonneg h2
    (st3 <- on_read st2 ;; Ret (st3, u64 (u64 (s_outstandingBytes st) + n))) (read_post st h).
Proof.
  intros J J2 Hn Ho2 Hbe Hfi Hw. apply total_bind. eapply total_conseq.
  { apply (on_read_total nonneg); [|by eapply inv_nonneg]. intros. by apply nonneg_quiet. }
  intros [st3|x] h3 Hn3; [|done]. cbn [post returns]. intros (Hsame & Hbn & evs & -> & Hq).
  apply total_ret; [done|]. cbn.
  assert (inv st3 (evs ++ h2)) as J3
    by (apply (server_inv_same st2); [done|by apply server_inv_quiets]).
  split_and!; [done| |by rewrite quiets_since|].
  - destruct Hsame as (_ & Ho3 & _).
    by rewrite (outstanding_u64 _ _ J), <- Ho2, (outstanding_u64 _ _ J2).
  - intros [Hb1 _]. rewrite Hbe, Hfi in Hbn. by destruct (Hbn Hb1).
Qed.

Lemma server_take_total st h :
  extends e h0 h -> inv st h ->
  total e nonneg h (server_take T on_read args (u64 (s_outstandingBytes st)) st) (read_post st h).
Proof.
  intros X J1. pose proof (inv_upper _ _ J1) as Hu. pose proof (inv_nonneg _ _ J1) as Hn.
  destruct (args_products args AOK) as (Hsz & Hcnt & Hrt & Hmb & Hmo & Hb1 & Hb2).
  unfold server_take. rewrite (to_read_window _ _ J1), Hsz. apply total_bind.
  eapply total_conseq; [apply total_extends, (t_read_total (wfd := wfd));
    [done|destruct AOK; lia|lia|rewrite (si_buffer _ _ _ _ _ _ J1); lia|]|].
  { intros h' ((d & Hr & Hd) & Hs). unfold held_nonneg, held, read_since, written_since in *.
    rewrite Hs, Hr, zlen_app. pose proof (zlen_nonneg d). lia. }
  intros [[b1 c]|x] h2 Hn2; [|by intros [[] _]]. cbn [post returns fst snd].
  intros [(Hrt2 & Hc & H0 & _) Hext].
  assert (hok h2) as Hh2 by (split; [done|by eapply peer_window, extends_trans]).
  pose proof (server_inv_read _ _ _ _ _ _ J1 Hh2 Hrt2 eq_refl H0) as J2.
  destruct Hrt2 as (d & Hr & Hs & Hl & _).
  assert (written_since wfd h0 h2 = written_since wfd h0 h) as Hw2
    by (unfold written_since; by rewrite Hs).
  assert (read_since rfd h0 h2 = read_since rfd h0 h + n_total c) as Hr2
    by (unfold read_since; rewrite Hr, zlen_app; lia).
  set (st2 := Server b1 _ _ _ _ _ _ _ _) in *.
  assert (s_bench st2 = s_bench st) as Hbe by done.
  assert (s_firstRead st2 = s_firstRead st) as Hfi by done.
  assert (s_outstandingBytes st2 = s_outstandingBytes st + n_total c) as Ho2.
  { rewrite (si_outstanding _ _ _ _ _ _ J2), (si_outstanding _ _ _ _ _ _ J1).
    unfold held. lia. }
  clearbody st2. destruct (Z.eqb_spec (n_total c) 0).
  - apply total_ret; [done|]. cbn. rewrite (outstanding_u64 _ _ J1).
    split_and!; [done|lia|done|]. intros [Hx Hy]. unfold bench_inv.
    rewrite Hbe, Hfi, Hr2. split; [done|]. intros. apply Hy. lia.
  - by apply on_read_step.
Qed.

Lemma server_read_total b st h :
  extends e h0 h -> inv st h -> total e nonneg h (server_read T on_read args b st) (read_post st h).
Proof.
  intros X J. pose proof (inv_nonneg _ _ J) as Hn. pose proof (outstanding_u64 _ _ J) as Hou.
  unfold server_read. apply total_bind. destruct b.
  2: { apply total_ret; [done|]. cbn. by apply total_ret. }
  apply total_running; [done|by apply nonneg_quiet|]. cbn [post].
  set (h1 := (LoadQuit, _) :: h). assert (inv st h1) as J1 by by apply server_inv_quiet.
  assert (written_since wfd h0 h1 = written_since wfd h0 h) as Hw1
    by (unfold h1; by rewrite written_since_quiet).
  assert (binv st h -> binv st h1) as Hbi by by apply bench_inv_quiet.
  destruct (_ =? 0); cbn [negb].
  2: { apply total_ret; [by eapply inv_nonneg|]. done. }
  eapply total_conseq; [apply server_take_total; [by constructor|done]|]. intros [r|] h' _; [|done]. cbn.
  rewrite Hw1. intros (? & ? & ? & ?). split_and!; auto.
Qed.

(** Both invariants. *)
Definition full_inv (st : server) (h : hist) : Prop := inv st h /\ binv st h.

Lemma full_quiet st h c r : quiet c -> full_inv st h -> full_inv st ((c, r) :: h).
Proof. intros Hq [? ?]. split; [by apply server_inv_quiet|by apply bench_inv_quiet]. Qed.

Lemma full_nonneg st h : full_inv st h -> nonneg h.
Proof. intros [J _]. by eapply inv_nonneg. Qed.

Lemma full_poll st h t p : full_inv st h -> full_inv (with_poll st t p) h.
Proof. intros [[] ?]. by split. Qed.

Lemma server_write_total b st h :
  full_inv st h -> written_since wfd h0 h < maxBytes args ->
  total e nonneg h (server_write T args b (s_outstandingBytes st) st) (returns full_inv).
Proof.
  intros J Hlt. pose proof (full_nonneg _ _ J) as Hn.
  destruct (args_products args AOK) as (Hsz & Hcnt & Hrt & Hmb & Hmo & Hb1 & Hb2).
  unfold server_write. apply total_bind. destruct b.
  2: { apply total_ret; [done|]. cbn. by apply total_ret. }
  apply total_running; [done|by apply nonneg_quiet|]. cbn [post].
  set (h1 := (LoadQuit, _) :: h). assert (full_inv st h1) as J1 by by apply full_quiet.
  assert (written_since wfd h0 h1 < maxBytes args) as Hlt1
    by (unfold h1; by rewrite written_since_quiet).
  destruct (_ =? 0); cbn [negb].
  2: { apply total_ret; [by eapply full_nonneg|]. done. }
  clearbody h1. clear J Hn Hlt h. destruct J1 as [J1 B1].
  pose proof (inv_upper _ _ J1) as Hu. pose proof (inv_nonneg _ _ J1) as Hn.
  pose proof (si_outstanding _ _ _ _ _ _ J1) as Ho. pose proof (si_buffer _ _ _ _ _ _ J1) as Hb.
  rewrite Hsz. apply total_bind.
  eapply total_conseq; [apply (t_write_total (rfd := rfd)); [done|destruct AOK; lia|lia|lia|]|].
  { intros h' ((m & Hm & Hs) & Hr). unfold held_nonneg, held, read_since, written_since in *.
    rewrite Hs, Hr, zlen_app, zlen_ztake. lia. }
  intros [c|x] h2 Hn2; [|done]. cbn [post returns]. intros (Hst & Hc & _).
  apply total_ret; [done|]. cbn [returns]. split; [by apply (server_inv_write _ h1)|].
  unfold bench_inv, read_since in *. by rewrite (proj1 (proj2 Hst)).
Qed.

Lemma server_step_total out_slot st h :
  extends e h0 h -> full_inv st h -> written_since wfd h0 h < maxBytes args ->
  total e nonneg h
    ('(st1, toWrite) <- server_read T on_read args (ready (s_pfds st) 0 POLLIN) st ;;
     st2 <- server_write T args (ready (s_pfds st) out_slot POLLOUT) toWrite st1 ;;
     Ret (st2, true))
    (returns (fun r h' => full_inv r.1 h' /\ (r.2 = false -> interrupted h'))).
Proof.
  intros X [J B] Hlt. apply total_bind. eapply total_conseq; [by apply server_read_total|].
  intros [[st2 w]|x] h4 _; [|done]. cbn [returns post fst snd]. intros (J6 & -> & Hw & B6).
  apply total_bind. eapply total_conseq; [apply server_write_total; [split; auto|lia]|].
  intros [st3|x] h5 Hn5; [|done]. cbn [returns post]. intros J7. by apply total_ret.
Qed.

Lemma server_body_total out_slot st h :
  extends e h0 h -> full_inv st h -> written_since wfd h0 h < maxBytes args ->
  total e nonneg h (server_body T on_read args out_slot st) (returns (fun r h' =>
    full_inv r.1 h' /\ (r.2 = false -> interrupted h'))).
Proof.
  intros X J Hlt. unfold server_body. pose proof (full_nonneg _ _ J) as Hn.
  apply total_bind, (total_now e); [done|by apply nonneg_quiet|]. intros t _. cbn [post].
  set (h1 := (TimespecGet, _) :: h). assert (full_inv st h1) as J1 by by apply full_quiet.
  assert (written_since wfd h0 h1 < maxBytes args) as Hlt1
    by (unfold h1; by rewrite written_since_quiet).
  assert (extends e h0 h1) as X1 by by constructor.
  clearbody h1. clear J Hlt Hn X h. pose proof (full_nonneg _ _ J1) as Hn1.
  apply total_bind. unfold checkPoll, sys. cbn [bind]. apply total_call; [done|].
  set (c := Poll _ _). set (h2 := (c, e h1 c) :: h1).
  assert (full_inv st h2) as J2 by by apply full_quiet.
  assert (written_since wfd h0 h2 < maxBytes args) as Hlt2
    by (unfold h2; by rewrite written_since_quiet).
  assert (extends e h0 h2) as X2 by by constructor.
  pose proof (full_nonneg _ _ J2) as Hn2.
  destruct (Z.eqb_spec (ret (e h1 c)) (-1)).
  { apply total_ret; [done|]. cbn. apply total_ret; [done|]. cbn. split; [by apply full_poll|done]. }
  apply total_ret; [done|]. cbn [post negb]. set (st1 := with_poll _ _ _).
  assert (full_inv st1 h2) as J4 by by apply full_poll. clearbody st1 h2. clear J1 J2.
  apply total_bind, total_running; [done|by apply nonneg_quiet|]. cbn [post].
  set (h3 := (LoadQuit, _) :: h2). assert (full_inv st1 h3) as J5 by by apply full_quiet.
  assert (written_since wfd h0 h3 < maxBytes args) as Hlt3
    by (unfold h3; by rewrite written_since_quiet).
  pose proof (full_nonneg _ _ J5) as Hn3. assert (extends e h0 h3) as X3 by by constructor.
  destruct (Z.eqb_spec (ret (e h2 LoadQuit)) 0); cbn [negb]; [|by apply total_ret]. clearbody h3.
  by apply server_step_total.
Qed.

(** How the loop ends: with all bytes written back, or interrupted; and the clock has been
    started if a byte was read. *)
Definition server_done (st : server) (h : hist) : Prop :=
  full_inv st h /\ (maxBytes args <= written_since wfd h0 h \/ interrupted h).

Lemma server_done_bench st h :
  server_done st h -> s_bench st = None -> read_since rfd h0 h <= 0 /\ interrupted h.
Proof using AOK.
  intros [[J [_ B]] Hd] Hb. assert (read_since rfd h0 h <= 0) as Hr.
  { destruct (decide (0 < read_since rfd h0 h)) as [?%B|]; [done|lia]. }
  split; [done|]. destruct Hd as [Hd|]; [|done].
  pose proof (inv_nonneg _ _ J). unfold held in *.
  destruct (args_products args AOK) as (_ & _ & _ & Hmb & _ & ? & _). lia.
Qed.

Lemma server_loop_safe out_slot st h :
  extends e h0 h -> full_inv st h ->
  safe e hok h (server_loop T on_read args out_slot st) (returns server_done).
Proof.
  intros X J. pose proof (inv_upper _ _ (proj1 J)) as Hu.
  enough (safe e nonneg h (server_loop T on_read args out_slot st) (returns server_done)) as Hs.
  { apply safe_extends in Hs as [HI HQ]. split.
    - intros h' Hv. apply HI in Hv as [? ?]. split; [done|by eapply peer_window, extends_trans].
    - intros o h' He. by apply HQ in He as [? _]. }
  unfold server_loop.
  eapply (safe_while_break _ _ (fun st h => extends e h0 h /\ full_inv st h)); [|done].
  clear J X Hu st h. intros st h [X J]. pose proof (full_nonneg _ _ J) as Hn. unfold server_cond.
  rewrite (si_written _ _ _ _ _ _ (proj1 J)), (proj2 s_limits).
  case_test; apply total_safe.
  - apply total_running; [done|by apply nonneg_quiet|]. cbn [post].
    set (h1 := (LoadQuit, _) :: h). assert (full_inv st h1) as J1 by by apply full_quiet.
    assert (extends e h0 h1) as X1 by by constructor.
    assert (written_since wfd h0 h1 < maxBytes args) as Hlt1
      by (unfold h1; by rewrite written_since_quiet).
    case_test.
    + apply total_safe. eapply total_conseq; [by apply total_extends, server_body_total|].
      intros [[st' go]|x] h2 _; [|by intros [[] _]]. cbn. intros [[J2 Hint] X2].
      destruct go; [split; [by eapply extends_trans|done]|]. split; [done|right]. by apply Hint.
    + cbn. split; [done|by right].
  - apply total_ret; [done|]. cbn. split; [done|by left].
Qed.
End specification.

(** ** Before and after the loop *)

(** The locals before the loop. *)
Definition server_start (readBuffer : list Z) (pfds : list pollfd) (bench : option Benchmarks)
    (firstRead : bool) : server :=
  Server readBuffer pfds 1 bench firstRead 0 0 0 0.

Lemma full_inv_start (starts : option Benchmarks -> bool -> Prop) rfd wfd args h0 h rb pfds b f :
  args_ok args -> unmoved rfd wfd h0 h -> zlen rb = maxOutstandingBytes args -> starts b f ->
  full_inv rfd wfd starts args h0 (server_start rb pfds b f) h.
Proof.
  intros A [Hr0 Hw0] Hr Hs.
  destruct (args_products args A) as (Hsz & Hcnt & Hrt & Hmb & Hmo & Hb1 & Hb2).
  split; [split; unfold held_ok, held; cbn; rewrite ?Hr0, ?Hw0; try done; lia|].
  unfold bench_inv. split; [done|lia].
Qed.

(** The report of a server: it needs a first read, and a message rate that is an [int]. *)
Lemma server_report_total e (I : hist -> Prop) (SI : stream_inv I) `{!ClockOk e} args st h :
  args_ok args -> I h ->
  total e I h (server_report args st) (fun o _ =>
    o = Val tt /\ s_bench st <> None \/
    o = Halted (Undefined Indeterminate) /\ s_bench st = None \/
    o = Halted (Undefined ConversionOverflow)).
Proof.
  intros A HI. destruct (args_products args A) as (Hsz & _). unfold server_report.
  rewrite Hsz. apply total_bind, total_div; [destruct A; lia|done|]. cbn [post].
  destruct (s_bench st) as [b|]; [|apply total_stop; [done|]; by right; left].
  unfold evaluateServer.
  destruct (d_to_i32_cases (d_div (d_of_Z (u64 (s_totalBytesWritten st) / size args))
    (d_div (d_of_Z (u64 (s_endTime st - total_start b))) d_1e9))) as [(z & -> & _)| ->].
  2: { apply total_stop; [done|]. by right; right. }
  cbn [bind].
  repeat (apply total_bind, (total_quiet_sys _ _ SI); [done|done|]; intros ? ?; cbn [post]);
    apply (total_quiet_sys _ _ SI); try done; intros; left; by split.
Qed.

Lemma held_streams rfd wfd m h0 : stream_inv (held_ok rfd wfd m h0).
Proof.
  intros c r h Hq. unfold held_ok, held. by rewrite read_since_quiet, written_since_quiet.
Qed.

Lemma unmoved_held rfd wfd m h0 h : 0 <= m -> unmoved rfd wfd h0 h -> held_ok rfd wfd m h0 h.
Proof. intros Hm [Hr Hw]. unfold held_ok, held. lia. Qed.

(** Reporting and closing: the last statements of the domain and tcp servers. *)
Lemma safe_server_report e (I : hist -> Prop) (SI : stream_inv I) `{!ClockOk e} rfd h0 args st h
    (rest : prog unit) :
  args_ok args -> I h ->
  (s_bench st = None -> read_since rfd h0 h <= 0 /\ interrupted h) ->
  (forall h', I h' -> total e I h' rest (returns (fun _ _ => True))) ->
  safe e I h (server_report args st ;;; rest) (fun o h' => o = Val tt \/
    o = Halted (Undefined Indeterminate) /\ read_since rfd h0 h' <= 0 \/
    o = Halted (Undefined ConversionOverflow)).
Proof.
  intros A HI Hb Hrest. set (I' := fun h' => I h' /\ (s_bench st = None -> read_since rfd h0 h' <= 0)).
  assert (stream_inv I') as SI'.
  { intros c r h1 Hq [H1 H2]. split; [by apply SI|]. by rewrite read_since_quiet. }
  assert (I' h) as HI' by (split; [done|]; intros; by apply Hb).
  apply safe_bind, (safe_weaken e I I'); [by intros h' []|].
  apply total_safe. eapply total_conseq; [by apply (server_report_total e I' SI')|].
  intros o h1 [HI1 Hr1] [[-> _]|[[-> Hn]| ->]]; cbn.
  - apply total_safe. eapply total_conseq; [by apply Hrest|]. intros [[]|] ? _; [by left|done].
  - right; left. split; [done|]. by apply Hr1.
  - by right; right.
Qed.

(** The loop does nothing when there is nothing to write. *)
Lemma server_loop_skip T on_read args out_slot st :
  s_maxBytes args <= s_totalBytesWritten st ->
  forall e I h (Q : outcome server -> hist -> Prop), I h -> Q (Val st) h ->
  total e I h (server_loop T on_read args out_slot st) Q.
Proof.
  intros Hm e I h Q HI HQ. unfold server_loop, while_break.
  apply (total_loop e I (fun st' h' => st' = st /\ h' = h) (fun _ => O)); [|done].
  intros ? ? [-> ->]. unfold server_cond. rewrite (proj2 (Z.ltb_ge _ _) Hm). cbn [bind].
  apply total_ret; [done|]. done.
Qed.
