(* ===== verification/Signals.v ===== *)
(** * common/signals.c: blocking, handling, sending and awaiting SIGUSR1 and SIGUSR2 *)

From S2P Require Import Prelude CInt Prog Utility.

Definition IGNORE_USR1 : Z := 0.
Definition IGNORE_USR2 : Z := 0.
Definition BLOCK_USR1 : Z := 1.
Definition BLOCK_USR2 : Z := 2.

Definition WAIT : Z := 0.
Definition NOTIFY : Z := 1.

(** The address of the empty function [signal_handler]; it is neither [SIG_DFL] nor [SIG_IGN]. *)
Definition SIGNAL_HANDLER : Z := 4096.

Definition signal_handler (signal_number : Z) : prog unit := Ret tt.

Record sigact := Sigact { sa_handler : Z; sa_mask : list Z; sa_flags : Z }.

Definition sigaddset (set : list Z) (s : Z) : list Z :=
  if existsb (Z.eqb s) set then set else set ++ [s].

Definition setup_ignored_signals (sa : sigact) (flags : Z) : prog sigact :=
  let sa := Sigact SIGNAL_HANDLER (sa_mask sa) (sa_flags sa) in
  when (negb (truth (Z.land flags BLOCK_USR1)))
    (r <- sysret (Sigaction SIGUSR1 (sa_handler sa) (sa_mask sa) (sa_flags sa)) ;;
     if truth r then throw "Error registering SIGUSR1 signal handler for server" else Ret tt) ;;;
  when (negb (truth (Z.land flags BLOCK_USR2)))
    (r <- sysret (Sigaction SIGUSR2 (sa_handler sa) (sa_mask sa) (sa_flags sa)) ;;
     if truth r then throw "Error registering SIGUSR2 signal handler for server" else Ret tt) ;;;
  Ret sa.

Definition setup_blocked_signals (sa : sigact) (flags : Z) : prog sigact :=
  let mask1 := if truth (Z.land flags BLOCK_USR1) then sigaddset (sa_mask sa) SIGUSR1
               else sa_mask sa in
  let mask2 := if truth (Z.land flags BLOCK_USR2) then sigaddset mask1 SIGUSR2 else mask1 in
  sys_ (Sigprocmask SIG_BLOCK mask2) ;;;
  Ret (Sigact SIG_DFL mask2 (sa_flags sa)).

(** The caller's structure is uninitialised; all of its fields are assigned. *)
Definition setup_signals (flags : Z) : prog sigact :=
  let sa := Sigact SIG_DFL [] SA_RESTART in
  sa <- setup_ignored_signals sa flags ;;
  let sa := Sigact (sa_handler sa) [] (sa_flags sa) in
  setup_blocked_signals sa flags.

Definition setup_parent_signals : prog unit :=
  setup_signals (Z.lor IGNORE_USR1 IGNORE_USR2) ;;; Ret tt.

Definition setup_server_signals : prog sigact := setup_signals (Z.lor BLOCK_USR1 IGNORE_USR2).

Definition setup_client_signals : prog sigact := setup_signals (Z.lor IGNORE_USR1 BLOCK_USR2).

Definition notify_server : prog unit := sys_ (Kill 0 SIGUSR1).

Definition notify_client : prog unit := sys_ (Kill 0 SIGUSR2).

(** The signal number and the result of [sigwait] are not looked at. *)
Definition wait_for_signal (sa : sigact) : prog unit := sys_ (Sigwait (sa_mask sa)).

Definition client_once (operation : Z) : prog unit :=
  sa <- setup_client_signals ;;
  if operation =? WAIT then wait_for_signal sa else notify_server.

Definition server_once (operation : Z) : prog unit :=
  sa <- setup_server_signals ;;
  if operation =? WAIT then wait_for_signal sa else notify_client.

(** ** Specification: the signal state of a process *)

(** The disposition of each signal (the default where no handler was set) and the blocked
    signals, after the calls of a history. *)
Record sigstate := Sigstate { disposition : Z -> Z; blocked : list Z }.

Definition sig_event (s : sigstate) (ev : event) : sigstate :=
  match ev.1 with
  | Sigaction n hd _ _ | Signal n hd =>
      if ret ev.2 =? -1 then s
      else Sigstate (fun m => if m =? n then hd else disposition s m) (blocked s)
  | Sigprocmask how set =>
      if (ret ev.2 =? 0) && (how =? SIG_BLOCK) then Sigstate (disposition s) (blocked s ++ set)
      else s
  | _ => s
  end.

Definition sig_state (s0 : sigstate) (h : hist) : sigstate := fold_right (fun ev s => sig_event s ev) s0 h.

(** After a successful execve: handlers are reset, the mask is kept. *)
Definition exec_state (blk : list Z) : sigstate := Sigstate (fun _ => SIG_DFL) blk.

(** The kernel accepts the two signals of the sources. *)
Class SignalsOk (e : env) : Prop := {
  sigaction_ok h n hd m f : ret (e h (Sigaction n hd m f)) = 0;
  sigprocmask_ok h how m : ret (e h (Sigprocmask how m)) = 0
}.

Lemma setup_server_signals_total e `{!SignalsOk e} h s0 :
  wp e h setup_server_signals (returns (fun sa h' =>
    sa = Sigact SIG_DFL [SIGUSR1] SA_RESTART /\
    blocked (sig_state s0 h') = blocked (sig_state s0 h) ++ [SIGUSR1] /\
    disposition (sig_state s0 h') SIGUSR2 = SIGNAL_HANDLER /\
    disposition (sig_state s0 h') SIGUSR1 = disposition (sig_state s0 h) SIGUSR1)).
Proof.
  unfold setup_server_signals, setup_signals, setup_ignored_signals, setup_blocked_signals.
  unfold wp. cbn. apply total_call; [done|]. cbn. rewrite sigaction_ok. cbn.
  apply total_call; [done|]. apply total_ret; [done|]. cbn.
  rewrite !sigaction_ok, !sigprocmask_ok. done.
Qed.

Lemma setup_client_signals_total e `{!SignalsOk e} h s0 :
  wp e h setup_client_signals (returns (fun sa h' =>
    sa = Sigact SIG_DFL [SIGUSR2] SA_RESTART /\
    blocked (sig_state s0 h') = blocked (sig_state s0 h) ++ [SIGUSR2] /\
    disposition (sig_state s0 h') SIGUSR1 = SIGNAL_HANDLER /\
    disposition (sig_state s0 h') SIGUSR2 = disposition (sig_state s0 h) SIGUSR2)).
Proof.
  unfold setup_client_signals, setup_signals, setup_ignored_signals, setup_blocked_signals.
  unfold wp. cbn. apply total_call; [done|]. cbn. rewrite sigaction_ok. cbn.
  apply total_call; [done|]. apply total_ret; [done|]. cbn.
  rewrite !sigaction_ok, !sigprocmask_ok. done.
Qed.

(** After their set-up the server waits for SIGUSR1, which it blocks, and survives
    SIGUSR2; the client waits for SIGUSR2, which it blocks, and survives SIGUSR1. The signals
    that [notify_server] and [notify_client] send to the whole group therefore reach
    their waiting peer and leave the sender and everyone else running. *)
Theorem signal_setup_correct e `{!SignalsOk e} h :
  wp e h setup_server_signals (returns (fun sa h' =>
    let s := sig_state (exec_state []) h' in
    sa_mask sa = [SIGUSR1] /\ SIGUSR1 ∈ blocked s /\ disposition s SIGUSR2 = SIGNAL_HANDLER)) /\
  wp e h setup_client_signals (returns (fun sa h' =>
    let s := sig_state (exec_state []) h' in
    sa_mask sa = [SIGUSR2] /\ SIGUSR2 ∈ blocked s /\ disposition s SIGUSR1 = SIGNAL_HANDLER)).
Proof.
  split; (eapply total_conseq; [first [apply (setup_server_signals_total e h (exec_state []))
    | apply (setup_client_signals_total e h (exec_state []))]|]);
    (intros [sa|x] h' _; [|done]); cbn [returns]; intros (-> & Hb & Hd & _);
    rewrite Hb, Hd; (split_and!; [done| |done]); apply elem_of_app; right; by apply list_elem_of_singleton.
Qed.

Lemma signal_setup_correct_witness :
  wp (fun _ _ => rret 0) [] setup_server_signals (returns (fun sa h' =>
    let s := sig_state (exec_state []) h' in
    sa_mask sa = [SIGUSR1] /\ SIGUSR1 ∈ blocked s /\ disposition s SIGUSR2 = SIGNAL_HANDLER)) /\
  wp (fun _ _ => rret 0) [] setup_client_signals (returns (fun sa h' =>
    let s := sig_state (exec_state []) h' in
    sa_mask sa = [SIGUSR2] /\ SIGUSR2 ∈ blocked s /\ disposition s SIGUSR1 = SIGNAL_HANDLER)).
Proof.
  assert (SignalsOk (fun _ _ => rret 0)) by by split.
  apply (signal_setup_correct (fun _ _ => rret 0)).
Defined.
