(* ===== verification/Sockets.v ===== *)
(** * common/sockets.c: socket options, descriptor flags, receiving *)

From S2P Require Import Prelude CInt Prog CDouble Utility.

Definition BUFFER_SIZE : Z := 64000.

Inductive Direction := SEND | RECEIVE.

(** The representation of an [int] option and of a [timeval]; the kernel reads and writes
    these cells. *)
Definition buf_opt (d : Direction) : Z := match d with SEND => SO_SNDBUF | RECEIVE => SO_RCVBUF end.

Definition timeo_opt (d : Direction) : Z :=
  match d with SEND => SO_SNDTIMEO | RECEIVE => SO_RCVTIMEO end.

Definition socket_buffer_size (socket_fd : Z) (d : Direction) : prog Z :=
  r <- sys (Getsockopt socket_fd SOL_SOCKET (buf_opt d) 4) ;;
  if ret r =? -1 then throw "Error getting buffer size" else Ret (nth 0 (data r) 0).

Definition socket_timeout (socket_fd : Z) (d : Direction) : prog timeval :=
  r <- sys (Getsockopt socket_fd SOL_SOCKET (timeo_opt d) 16) ;;
  if ret r =? -1 then throw "Error getting socket timeout"
  else Ret (Timeval (nth 0 (data r) 0) (nth 1 (data r) 0)).

Definition socket_timeout_seconds (socket_fd : Z) (d : Direction) : prog double :=
  t <- socket_timeout socket_fd d ;;
  Ret (d_add (d_of_Z (tv_sec t)) (d_div (d_of_Z (tv_usec t)) d_1e6)).

Definition set_socket_buffer_size (socket_fd : Z) (d : Direction) : prog unit :=
  r <- sysret (Setsockopt socket_fd SOL_SOCKET (buf_opt d) [BUFFER_SIZE]) ;;
  if r =? -1 then throw "Error setting socket buffer size" else Ret tt.

Definition set_socket_both_buffer_sizes (socket_fd : Z) : prog unit :=
  set_socket_buffer_size socket_fd SEND ;;;
  set_socket_buffer_size socket_fd RECEIVE.

Definition set_socket_timeout (socket_fd : Z) (t : timeval) (d : Direction) : prog unit :=
  r <- sysret (Setsockopt socket_fd SOL_SOCKET (timeo_opt d) [tv_sec t; tv_usec t]) ;;
  if r =? -1 then throw "Error setting blocking timeout" else Ret tt.

Definition set_socket_both_timeouts (socket_fd seconds microseconds : Z) : prog unit :=
  let timeout := Timeval seconds microseconds in
  set_socket_timeout socket_fd timeout SEND ;;;
  set_socket_timeout socket_fd timeout RECEIVE.

Definition set_io_flag (socket_fd flag : Z) : prog Z :=
  old_flags <- sysret (Fcntl socket_fd F_GETFL 0) ;;
  if old_flags =? -1 then Ret (-1)
  else
    r <- sysret (Fcntl socket_fd F_SETFL (Z.lor old_flags flag)) ;;
    if truth r then Ret (-1) else Ret 0.

(** The bytes go to [buffer], of which the caller gave the first [size]. *)
Definition receive (connection : Z) (buffer : list Z) (size : Z) (busy_waiting : bool) :
    prog (list Z * Z) :=
  let attempt buffer :=
    r <- sys (Recv connection (u64 size) 0) ;;
    buffer' <- (if 0 <? ret r then store_bytes buffer 0 (data r) else Ret buffer) ;;
    Ret (buffer', r) in
  if busy_waiting then
    loop (fun buffer =>
      '(buffer', r) <- attempt buffer ;;
      if negb (ret r <? size) then Ret (inr (buffer', 0))
      else if negb (errno r =? EAGAIN) then Ret (inr (buffer', -1))
      else Ret (inl buffer')) buffer
  else
    '(buffer', r) <- attempt buffer ;;
    if ret r <? size then Ret (buffer', -1) else Ret (buffer', 0).

Definition get_socket_flags (socket_fd : Z) : prog Z :=
  flags <- sysret (Fcntl socket_fd F_GETFL 0) ;;
  if flags =? -1 then throw "Error retrieving flags" else Ret flags.

Definition set_socket_flags (socket_fd flags : Z) : prog unit :=
  flags <- sysret (Fcntl socket_fd F_SETFL flags) ;;
  if flags =? -1 then throw "Error setting flags" else Ret tt.

Definition set_socket_non_blocking (socket_fd : Z) : prog Z :=
  flags <- get_socket_flags socket_fd ;;
  let flags := Z.lor flags O_NONBLOCK in
  set_socket_flags socket_fd flags ;;;
  Ret flags.

Definition unset_socket_non_blocking (socket_fd : Z) : prog Z :=
  flags <- get_socket_flags socket_fd ;;
  set_socket_flags socket_fd (Z.land flags (Z.lnot O_NONBLOCK)) ;;;
  Ret flags.

Definition socket_is_non_blocking (socket_fd : Z) : prog bool :=
  flags <- get_socket_flags socket_fd ;;
  Ret (truth (Z.land flags O_NONBLOCK)).

(** ** Specification: the status flags of a descriptor *)

(** The flags after the calls of a history: the last ones set. *)
Fixpoint fd_flags (fd init : Z) (h : hist) : Z :=
  match h with
  | [] => init
  | (Fcntl fd' cmd v, r) :: h =>
      if (fd' =? fd) && (cmd =? F_SETFL) && (ret r =? 0) then v else fd_flags fd init h
  | _ :: h => fd_flags fd init h
  end.

(** fcntl(2) reports and stores the flags of an open descriptor. *)
Class FcntlOk (e : env) (fd init : Z) : Prop := {
  fcntl_init : 0 <= init;
  fcntl_get h : ret (e h (Fcntl fd F_GETFL 0)) = fd_flags fd init h;
  fcntl_set h v : ret (e h (Fcntl fd F_SETFL v)) = 0
}.

Section flags.
Context (e : env) (fd init : Z) {F : FcntlOk e fd init}.

Lemma fd_flags_get h r :
  fd_flags fd init ((Fcntl fd F_GETFL 0, r) :: h) = fd_flags fd init h.
Proof. cbn. by rewrite Z.eqb_refl. Qed.

Lemma fd_flags_set h v :
  fd_flags fd init ((Fcntl fd F_SETFL v, e h (Fcntl fd F_SETFL v)) :: h) = v.
Proof. cbn. by rewrite Z.eqb_refl, fcntl_set. Qed.

Lemma total_get_flags I h (Q : outcome Z -> hist -> Prop) :
  0 <= fd_flags fd init h ->
  (forall r, I ((Fcntl fd F_GETFL 0, r) :: h)) -> I h ->
  Q (Val (fd_flags fd init h)) ((Fcntl fd F_GETFL 0, e h (Fcntl fd F_GETFL 0)) :: h) ->
  total e I h (get_socket_flags fd) Q.
Proof.
  intros H0 HI' HI HQ. unfold get_socket_flags, sysret. cbn. apply total_call; [done|].
  rewrite fcntl_get. destruct (Z.eqb_spec (fd_flags fd init h) (-1)); [lia|]. by apply total_ret.
Qed.

Lemma total_set_flags I h v (Q : outcome unit -> hist -> Prop) :
  (forall r, I ((Fcntl fd F_SETFL v, r) :: h)) -> I h ->
  Q (Val tt) ((Fcntl fd F_SETFL v, e h (Fcntl fd F_SETFL v)) :: h) ->
  total e I h (set_socket_flags fd v) Q.
Proof.
  intros HI' HI HQ. unfold set_socket_flags, sysret. cbn. apply total_call; [done|].
  rewrite fcntl_set. by apply total_ret.
Qed.

Lemma set_non_blocking_total h :
  0 <= fd_flags fd init h ->
  wp e h (set_socket_non_blocking fd) (returns (fun flags h' =>
    flags = Z.lor (fd_flags fd init h) O_NONBLOCK /\ fd_flags fd init h' = flags)).
Proof.
  intros H0. unfold set_socket_non_blocking, wp.
  apply total_bind, total_get_flags; [done..|]. cbn [post].
  apply total_bind, total_set_flags; [done..|]. cbn [post].
  apply total_ret; [done|]. cbn [returns]. by rewrite fd_flags_set.
Qed.

Lemma unset_non_blocking_total h :
  0 <= fd_flags fd init h ->
  wp e h (unset_socket_non_blocking fd) (returns (fun flags h' =>
    flags = fd_flags fd init h /\ fd_flags fd init h' = Z.land flags (Z.lnot O_NONBLOCK))).
Proof.
  intros H0. unfold unset_socket_non_blocking, wp.
  apply total_bind, total_get_flags; [done..|]. cbn [post].
  apply total_bind, total_set_flags; [done..|]. cbn [post].
  apply total_ret; [done|]. cbn [returns]. by rewrite fd_flags_set.
Qed.

Lemma is_non_blocking_total h :
  0 <= fd_flags fd init h ->
  wp e h (socket_is_non_blocking fd) (returns (fun b h' =>
    b = Z.testbit (fd_flags fd init h) 11 /\ fd_flags fd init h' = fd_flags fd init h)).
Proof.
  intros H0. unfold socket_is_non_blocking, wp.
  apply total_bind, total_get_flags; [done..|]. cbn [post].
  apply total_ret; [done|]. cbn [returns]. rewrite fd_flags_get. split; [|done].
  unfold truth, O_NONBLOCK. change 2048 with (2 ^ 11).
  destruct (Z.testbit (fd_flags fd init h) 11) eqn:E.
  - destruct (Z.eqb_spec (Z.land (fd_flags fd init h) (2 ^ 11)) 0) as [Hz|]; [|done].
    apply (f_equal (fun z => Z.testbit z 11)) in Hz.
    rewrite Z.land_spec, E, Z.pow2_bits_true in Hz by lia. done.
  - destruct (Z.eqb_spec (Z.land (fd_flags fd init h) (2 ^ 11)) 0) as [|Hz]; [done|].
    destruct Hz. apply Z.bits_inj. intros i. rewrite Z.land_spec, Z.bits_0.
    destruct (decide (i = 11)) as [->|]; [by rewrite E|].
    destruct (decide (0 <= i)); [|by rewrite !Z.testbit_neg_r by lia].
    rewrite Z.pow2_bits_false by lia. apply andb_false_r.
Qed.
End flags.

(** ** Setting options and flags returns or exits *)

Lemma may_exit_buffer_sizes e fd : may_exit e (set_socket_both_buffer_sizes fd).
Proof.
  unfold set_socket_both_buffer_sizes, set_socket_buffer_size, sysret. auto 10 with cbench.
Qed.

Lemma may_exit_io_flag e fd flag : may_exit e (set_io_flag fd flag).
Proof. unfold set_io_flag, sysret. auto 10 with cbench. Qed.

#[export] Hint Resolve may_exit_buffer_sizes may_exit_io_flag : cbench.

(** [set_socket_non_blocking] makes [socket_is_non_blocking] true and
    [unset_socket_non_blocking] makes it false again; in the end the status flags are the
    original ones without [O_NONBLOCK]. *)
Theorem non_blocking_roundtrip e fd init `{!FcntlOk e fd init} h :
  0 <= fd_flags fd init h ->
  wp e h
    (set_socket_non_blocking fd ;;;
     b1 <- socket_is_non_blocking fd ;;
     unset_socket_non_blocking fd ;;;
     b2 <- socket_is_non_blocking fd ;;
     Ret (b1, b2))
    (returns (fun r h' => r = (true, false) /\
      fd_flags fd init h' = Z.land (fd_flags fd init h) (Z.lnot O_NONBLOCK))).
Proof.
  intros H0. set (f := fd_flags fd init h) in *.
  assert (0 <= Z.lor f O_NONBLOCK) as H1 by (apply Z.lor_nonneg; unfold O_NONBLOCK; lia).
  assert (Z.land (Z.lor f O_NONBLOCK) (Z.lnot O_NONBLOCK) = Z.land f (Z.lnot O_NONBLOCK)) as Hf.
  { rewrite Z.land_lor_distr_l, Z.land_lnot_diag. apply Z.lor_0_r. }
  apply total_bind. eapply total_conseq; [by apply (set_non_blocking_total e fd init)|].
  intros [v|x] h1 _; [|done]. cbn [returns post]. intros [-> E1]. fold f in E1.
  apply total_bind. eapply total_conseq; [apply (is_non_blocking_total e fd init); by rewrite E1|].
  intros [b1|x] h2 _; [|done]. cbn [returns post]. intros [-> E2].
  apply total_bind. eapply total_conseq; [apply (unset_non_blocking_total e fd init); by rewrite E2, E1|].
  intros [v|x] h3 _; [|done]. cbn [returns post]. intros [-> E3].
  rewrite E2, E1, Hf in E3. apply total_bind. eapply total_conseq.
  { apply (is_non_blocking_total e fd init). rewrite E3. apply Z.land_nonneg. by left. }
  intros [b2|x] h4 _; [|done]. cbn [returns post]. intros [-> E4].
  apply total_ret; [done|]. cbn [returns]. rewrite E4, E3, E1. split; [|done]. f_equal.
  - rewrite Z.lor_spec. by rewrite orb_true_r.
  - rewrite Z.land_spec, Z.lnot_spec by lia. by rewrite andb_false_r.
Qed.

(** A kernel that keeps the flags of descriptor 3, initially [O_RDWR]. *)
Definition flags_kernel : env := fun h c =>
  match c with
  | Fcntl _ cmd _ => rret (if cmd =? F_GETFL then fd_flags 3 O_RDWR h else 0)
  | _ => rret 0
  end.

Lemma non_blocking_roundtrip_witness :
  wp flags_kernel []
    (set_socket_non_blocking 3 ;;;
     b1 <- socket_is_non_blocking 3 ;;
     unset_socket_non_blocking 3 ;;;
     b2 <- socket_is_non_blocking 3 ;;
     Ret (b1, b2))
    (returns (fun r h' => r = (true, false) /\
      fd_flags 3 O_RDWR h' = Z.land (fd_flags 3 O_RDWR []) (Z.lnot O_NONBLOCK))).
Proof.
  assert (FcntlOk flags_kernel 3 O_RDWR) by (split; done).
  apply (non_blocking_roundtrip flags_kernel 3 O_RDWR); done.
Defined.
