(* ===== verification/Samples.v ===== *)
(** * Concrete environments

    Executable answers of a kernel, at which the theorems of the library are instantiated and
    with which programs are run. *)

From S2P Require Import Prelude CInt Prog Stream CDouble Benchmarks EchoClient EchoServer.

(** Every descriptor polled is ready, the clock stands still, memory is zeroed. *)
Definition calm (c : call) : resp :=
  match c with
  | Malloc n => rdata 1 (replicate (Z.to_nat n) 0)
  | TimespecGet => rdata 1 [1000; 0]
  | Poll fds _ => rdata (zlen fds) (map snd fds)
  | Read _ _ | Recv _ _ _ => rret 0
  | Write _ buf | Send _ buf _ => rret (zlen buf)
  | _ => rret 0
  end.

(** The calls that move bytes in, and out. *)
Definition is_input (c : call) : bool :=
  match c with Read _ _ | Recv _ _ _ => true | _ => false end.

Definition is_output (c : call) : bool :=
  match c with Write _ _ | Send _ _ _ => true | _ => false end.

(** The [k]th of [caps], for the next call that [pick] selects. *)
Definition cap (caps : list Z) (pick : call -> bool) (h : hist) : Z :=
  nth (length (List.filter (fun ev => pick ev.1) h)) caps 1000000.

(** A kernel with [avail] to read from each descriptor: the [k]th input call returns at most
    the [k]th of [ins] bytes, the [k]th output call takes at most the [k]th of [outs]; 0 is
    [EAGAIN]. *)
Definition capped (avail : hist -> Z -> list Z) (ins outs : list Z) : env := fun h c =>
  match c with
  | Read fd n | Recv fd n _ =>
      let k := cap ins is_input h in
      if k =? 0 then rret (-1)
      else let d := ztake (Z.min n k) (avail h fd) in rdata (zlen d) d
  | Write _ buf | Send _ buf _ =>
      let k := cap outs is_output h in
      if k =? 0 then rret (-1) else rret (Z.min k (zlen buf))
  | _ => calm c
  end.

(** What was sent comes back. *)
Definition echoed (h : hist) (fd : Z) : list Z := zdrop (zlen (received fd h)) (sent fd h).

(** A client that sends [bytes] and keeps at most [max] of them under way. *)
Definition peer (rfd wfd max : Z) (bytes : list Z) (h : hist) (fd : Z) : list Z :=
  if fd =? rfd then
    ztake (max - (zlen (received rfd h) - zlen (sent wfd h))) (zdrop (zlen (received rfd h)) bytes)
  else [].

(** A sender of [bytes] on [rfd]. *)
Definition feeder (rfd : Z) (bytes : list Z) : env :=
  capped (fun h fd => if fd =? rfd then zdrop (zlen (received rfd h)) bytes else []) [] [].

(** [quit] is set once something was sent on [wfd]; nothing ever comes in. *)
Definition one_shot (wfd : Z) : env := fun h c =>
  match c with
  | LoadQuit => rret (if 0 <? zlen (sent wfd h) then 1 else 0)
  | _ => calm c
  end.

(** ** They are what the theorems ask for *)

Lemma zlen_replicate {A} n (x : A) : 0 <= n -> zlen (replicate (Z.to_nat n) x) = n.
Proof. intros. unfold zlen. rewrite length_replicate. lia. Qed.

Lemma input_taken n m (d : list Z) :
  0 <= n -> m <= n -> input_ok n (rdata (zlen (ztake m d)) (ztake m d)).
Proof.
  intros. unfold input_ok, delivered. cbn. pose proof (zlen_nonneg (ztake m d)).
  split; [rewrite zlen_ztake; lia|]. destruct (Z.ltb_spec 0 (zlen (ztake m d))); zlia.
Qed.

Lemma input_failed n z : 0 <= n -> z <= 0 -> input_ok n (rret z).
Proof.
  intros. unfold input_ok, delivered. cbn. destruct (Z.ltb_spec 0 z); [lia|].
  rewrite zlen_nil. lia.
Qed.

Lemma calm_ok e :
  (forall h c, match c with
    | Read _ _ | Recv _ _ _ | Write _ _ | Send _ _ _ => True
    | LoadQuit => True
    | _ => e h c = calm c
    end) ->
  (forall h fd n, 0 <= n -> input_ok n (e h (Read fd n))) ->
  (forall h fd n fl, 0 <= n -> input_ok n (e h (Recv fd n fl))) ->
  (forall h fd buf, output_ok buf (e h (Write fd buf))) ->
  (forall h fd buf fl, output_ok buf (e h (Send fd buf fl))) ->
  KernelIO e /\ ClockOk e /\ MallocOk e.
Proof.
  intros Hc Hr Hv Hw Hs. split_and!; split; try done.
  - intros h. pose proof (Hc h TimespecGet) as H. cbn in H. cbn zeta. rewrite H.
    exists 1000000000000. split; [by vm_compute|by vm_compute].
  - intros h n Hn. pose proof (Hc h (Malloc n)) as H. cbn in H. rewrite H. by apply zlen_replicate.
Qed.

Lemma capped_ok avail ins outs :
  KernelIO (capped avail ins outs) /\ ClockOk (capped avail ins outs) /\
  MallocOk (capped avail ins outs).
Proof.
  apply calm_ok; [by intros h []|intros; cbn..]; case_test;
    try (apply input_failed; lia); try (apply input_taken; lia);
    unfold output_ok; cbn; pose proof (zlen_nonneg buf); lia.
Qed.

Lemma feeder_ok rfd bytes :
  KernelIO (feeder rfd bytes) /\ ClockOk (feeder rfd bytes) /\ MallocOk (feeder rfd bytes).
Proof. apply capped_ok. Qed.

Lemma one_shot_ok wfd : KernelIO (one_shot wfd) /\ ClockOk (one_shot wfd) /\ MallocOk (one_shot wfd).
Proof.
  apply calm_ok; [by intros h []|intros; cbn..];
    try (apply input_failed; lia); unfold output_ok; cbn; lia.
Qed.

(** One event changes what is held by the bytes it moves. *)
Lemma held_cons rfd wfd h0 ev h :
  held rfd wfd h0 (ev :: h) = held rfd wfd h0 h + zlen (got rfd ev) - zlen (put wfd ev).
Proof. unfold held, read_since, written_since. cbn. rewrite !zlen_app. lia. Qed.

(** The bytes an input call of [capped] delivers are a prefix of those available. *)
Lemma capped_got avail ins outs fd h c :
  exists k, got fd (c, capped avail ins outs h c) = ztake k (avail h fd).
Proof.
  assert (forall n, exists k, delivered (capped avail ins outs h (Read fd n)) = ztake k (avail h fd)) as H.
  { intros n. cbn. case_test; [by exists 0|]. set (d := ztake _ _). exists (Z.min n (cap ins is_input h)).
    unfold delivered. cbn. destruct (Z.ltb_spec 0 (zlen d)); [done|].
    symmetry. apply zlen_0_nil. fold d. pose proof (zlen_nonneg d). lia. }
  destruct c; cbn [got fst snd]; try (by exists 0).
  all: destruct (Z.eqb_spec fd0 fd) as [->|]; [apply H|by exists 0].
Qed.

Lemma peer_keeps_window rfd wfd max bytes ins outs :
  0 <= max -> PeerWindow (capped (peer rfd wfd max bytes) ins outs) rfd wfd max [].
Proof.
  intros Hm. split. induction 1 as [|h c _ IH].
  { unfold held, read_since, written_since. lia. }
  rewrite held_cons. set (r := capped _ _ _ _ _). pose proof (zlen_nonneg (put wfd (c, r))).
  destruct (capped_got (peer rfd wfd max bytes) ins outs rfd h c) as [k Hk].
  fold r in Hk. rewrite Hk. clearbody r. unfold peer. rewrite Z.eqb_refl, !zlen_ztake.
  unfold held, read_since, written_since in *. cbn [received sent] in *. rewrite zlen_nil in *. lia.
Qed.

Lemma feeder_prefix rfd bytes h :
  extends (feeder rfd bytes) [] h -> exists d, bytes = received rfd h ++ d.
Proof.
  induction 1 as [|h c _ [d IH]]; [by exists bytes|]. cbn [received].
  set (av := fun h fd => if fd =? rfd then zdrop (zlen (received rfd h)) bytes else []).
  destruct (capped_got av [] [] rfd h c) as [k Hk].
  exists (zdrop k d). change (feeder rfd bytes) with (capped av [] []). rewrite Hk. unfold av. rewrite Z.eqb_refl.
  assert (zdrop (zlen (received rfd h)) bytes = d) as -> by (rewrite IH, zdrop_app_exact; done).
  by rewrite <- app_assoc, ztake_zdrop.
Qed.

(** The final history of an execution. *)
Definition history {A} (n : nat) (e : env) (p : prog A) : hist :=
  match run e n [] p with Some (_, h) => h | None => [] end.

Lemma run_history {A} n e (p : prog A) o :
  option_map fst (run e n [] p) = Some o -> eval e [] p o (history n e p).
Proof.
  unfold history. intros H. destruct (run e n [] p) as [[o' h]|] eqn:E; [|done].
  cbn in H. simplify_eq. apply eval_run. by exists n.
Qed.
