(* ===== verification/Process.v ===== *)
(** * common/process.c and common/parent.c: starting the two programs of a benchmark

    [find_build_path] works on the bytes of [__FILE__] in a block it allocates; the text of
    [__FILE__] is fixed when the program is built, so it is a parameter. *)

From S2P Require Import Prelude CInt Prog Utility Arguments Signals.

(** ** Strings in memory *)

Definition of_chars (l : list Z) : string :=
  String.string_of_list_ascii (map (fun z => Ascii.ascii_of_nat (Z.to_nat z)) l).

(** The bytes before the first zero byte: what [strlen], [strcpy] and ["%s"] see. *)
Fixpoint c_string (l : list Z) : list Z :=
  match l with
  | [] => []
  | c :: l => if c =? 0 then [] else c :: c_string l
  end.

(** [strcpy(block + off, s)]. *)
Definition strcpy (block : list Z) (off : Z) (s : list Z) : prog (list Z) :=
  store_bytes block off (s ++ [0]).

Definition load_byte (block : list Z) (i : Z) : prog Z :=
  b <- load_bytes block i 1 ;;
  Ret (nth 0 b 0).

(** ** find_build_path *)

(** The literal has a zero byte in the middle; as a string it ends there. *)
Definition BUILD_PATH : list Z := c_string (chars "/build/source" ++ [0; 0]).

Definition IPC_BENCH : list Z := chars "ipc-bench".

(** [strncmp("ipc-bench", left, 9) == 0], for a [left] with nine bytes before the zero. *)
Definition is_ipc_bench (block : list Z) (left_ : Z) : bool :=
  bool_decide (zslice left_ 9 block = IPC_BENCH).

(** Pointers into [path] are offsets. *)
Definition find_build_path (file : list Z) : prog (list Z) :=
  path <- malloc (zlen file + zlen BUILD_PATH) ;;
  path <- strcpy path 0 file ;;
  let right_ := zlen file in
  let left_ := right_ - 9 in
  '(left_, right_) <- while_break
    (fun st : Z * Z => Ret (0 <=? st.1))
    (fun st =>
      let '(left_, right_) := st in
      l <- load_byte path left_ ;;
      both <- (if l =? 105 then r <- load_byte path right_ ;; Ret (r =? 104) else Ret false) ;;
      if (both : bool) && is_ipc_bench path left_ then Ret (st, false)
      else Ret ((left_ - 1, right_ - 1), true))
    (left_, right_ - 1) ;;
  strcpy path (right_ + 1) BUILD_PATH.

(** ** start_process, copy_arguments, start_child *)

(** [execv] only returns when it fails. *)
Definition execv (argv : list (option string)) : prog Z :=
  r <- sysret (Execv argv) ;;
  if r =? -1 then Ret (-1) else Stop Replaced.

(** The vector up to its null pointer. *)
Fixpoint upto_null (argv : list (option string)) : list (option string) :=
  match argv with
  | Some a :: argv => Some a :: upto_null argv
  | _ => []
  end.

Definition start_process (argv : list (option string)) : prog Z :=
  parent_pid <- sysret Getpid ;;
  pid <- sysret Fork ;;
  when (pid =? 0)
    (r <- sysret (Setpgid pid parent_pid) ;;
     when (r =? -1) (throw "Could not set group id for child process") ;;;
     r <- execv (upto_null argv) ;;
     when (r =? -1) (throw "Error opening child process")) ;;;
  Ret pid.

(** [arguments[i] = v]. *)
Definition set_argument (arguments : list (option string)) (i : Z) (v : option string) :
    prog (list (option string)) :=
  if (0 <=? i) && (i <? zlen arguments) then Ret (<[Z.to_nat i := v]> arguments)
  else undefined OutOfBounds.

(** [argc] is the length of [argv]. *)
Definition copy_arguments (arguments : list (option string)) (argv : list string) :
    prog (list (option string)) :=
  let argc := zlen argv in
  assert_ (argc <? 8) ;;;
  r <- while (fun st : Z * list (option string) => Ret (st.1 <? argc))
    (fun st =>
      let '(i, arguments) := st in
      arguments' <- set_argument arguments i (argv !! Z.to_nat i) ;;
      Ret (i + 1, arguments'))
    (1, arguments) ;;
  set_argument r.2 argc None.

Definition start_child (name : string) (argv : list string) : prog Z :=
  arguments <- copy_arguments (Some name :: replicate 7 None) argv ;;
  start_process arguments.

(** ** start_children, setup_parent *)

(** [sprintf(name, "%s/%s/%s-%s", build_path, prefix, prefix, role)] into 100 bytes. *)
Definition program_name (build_path : list Z) (prefix role : string) : list Z :=
  c_string build_path ++ chars ("/" +:+ prefix +:+ "/" +:+ prefix +:+ "-" +:+ role).

Definition sprintf_name (build_path : list Z) (prefix role : string) : prog string :=
  let s := program_name build_path prefix role in
  if zlen s + 1 <=? 100 then Ret (of_chars s) else undefined OutOfBounds.

(** [waitpid(pid, &status, WUNTRACED)]; the variable starts as 0. *)
Definition wait_status (pid : Z) : prog Z :=
  r <- sys (Waitpid pid WUNTRACED) ;;
  Ret (if 0 <? ret r then nth 0 (data r) 0 else 0).

Definition start_children (file : list Z) (prefix : string) (argv : list string) : prog unit :=
  build_path <- find_build_path file ;;
  server_name <- sprintf_name build_path prefix "server" ;;
  client_name <- sprintf_name build_path prefix "client" ;;
  c1_id <- start_child server_name argv ;;
  c2_id <- start_child client_name argv ;;
  serverStatus <- wait_status c1_id ;;
  clientStatus <- wait_status c2_id ;;
  sys_ (Printf "client: %d \n" [AInt clientStatus]) ;;;
  sys_ (Printf "server: %d \n" [AInt serverStatus]) ;;;
  free.

Definition setup_parent (file : list Z) (name : string) (argv : list string) : prog unit :=
  help <- check_flag "help" argv ;;
  when help print_usage ;;;
  setup_parent_signals ;;;
  start_children file name argv.

(** ** Specification: the last occurrence of "ipc-bench" *)

Definition occurs_at (file : list Z) (k : Z) : Prop := 0 <= k /\ zslice k 9 file = IPC_BENCH.

Definition last_occurrence (file : list Z) (k : Z) : Prop :=
  occurs_at file k /\ forall j, k < j -> ~ occurs_at file j.

Lemma nth_zslice {A} off n (l : list A) j d :
  0 <= off -> 0 <= j < n -> nth (Z.to_nat j) (zslice off n l) d = nth (Z.to_nat (off + j)) l d.
Proof.
  intros. unfold zslice, ztake, zdrop. rewrite !nth_lookup.
  rewrite lookup_take_lt, lookup_drop by lia. do 2 f_equal. lia.
Qed.

Lemma zslice_app_l {A} off n (l k : list A) :
  0 <= off -> 0 <= n -> off + n <= zlen l -> zslice off n (l ++ k) = zslice off n l.
Proof.
  unfold zlen. intros. unfold zslice, ztake, zdrop. rewrite drop_app_le by lia.
  rewrite take_app_le; [done|]. rewrite length_drop. lia.
Qed.

Lemma occurs_bound file k : occurs_at file k -> k + 9 <= zlen file.
Proof.
  intros [Hk Hz]. apply (f_equal zlen) in Hz. change (zlen IPC_BENCH) with 9 in Hz.
  unfold zslice in Hz. rewrite zlen_ztake, zlen_zdrop in Hz. lia.
Qed.

Lemma c_string_app l k :
  Forall (fun c => c <> 0) l -> c_string (l ++ 0 :: k) = l.
Proof.
  induction 1 as [|c l Hc _ IH]; [done|]. cbn.
  by rewrite (proj2 (Z.eqb_neq _ _) Hc), IH.
Qed.

Section find_build_path.
Context (e : env) (file : list Z) (rest : list Z).
Context (Hfile : Forall (fun c => c <> 0) file).

(** The block after the first [strcpy]. *)
Local Abbreviation block := (file ++ 0 :: rest).

Lemma load_byte_total h i (Q : outcome Z -> hist -> Prop) :
  0 <= i < zlen file -> Q (Val (nth (Z.to_nat i) file 0)) h ->
  wp e h (load_byte block i) Q.
Proof.
  intros Hi HQ. unfold load_byte. apply total_bind, total_load; [lia|lia| |done|].
  { rewrite zlen_app, zlen_cons. pose proof (zlen_nonneg rest). lia. }
  cbn [post]. apply total_ret; [done|].
  change (nth 0) with (nth (A := Z) (Z.to_nat 0)).
  rewrite (nth_zslice i 1 block 0 0) by lia. rewrite Z.add_0_r.
  rewrite app_nth1; [done|]. unfold zlen in *. lia.
Qed.

Lemma is_ipc_bench_spec k :
  0 <= k -> k + 9 <= zlen file -> is_ipc_bench block k = true <-> occurs_at file k.
Proof.
  intros. unfold is_ipc_bench, occurs_at. rewrite bool_decide_eq_true, zslice_app_l by lia.
  split; [done|by intros []].
Qed.

Lemma occurs_first_last k :
  occurs_at file k ->
  nth (Z.to_nat k) file 0 = 105 /\ nth (Z.to_nat (k + 8)) file 0 = 104.
Proof.
  intros [Hk Hz]. split.
  - rewrite <- (Z.add_0_r k), <- (nth_zslice k 9) by lia. by rewrite Hz.
  - rewrite <- (nth_zslice k 9) by lia. by rewrite Hz.
Qed.

(** Where the search stops. *)
Definition search_result (l : Z) : Prop :=
  (last_occurrence file l \/ l < 0 /\ forall j, ~ occurs_at file j) /\
  l <= zlen file - 9 /\ (l = zlen file - 9 \/ -1 <= l).

Lemma search_total h :
  wp e h (while_break (fun st : Z * Z => Ret (0 <=? st.1))
    (fun st =>
      let '(left_, right_) := st in
      l <- load_byte block left_ ;;
      both <- (if l =? 105 then r <- load_byte block right_ ;; Ret (r =? 104) else Ret false) ;;
      if (both : bool) && is_ipc_bench block left_ then Ret (st, false)
      else Ret ((left_ - 1, right_ - 1), true)) (zlen file - 9, zlen file - 1))
    (returns (fun st h' => h' = h /\ st.2 = st.1 + 8 /\ search_result st.1)).
Proof.
  eapply (total_while_break _ _ (fun st h' => h' = h /\ st.2 = st.1 + 8 /\
    (forall j, st.1 < j -> ~ occurs_at file j) /\ st.1 <= zlen file - 9 /\
    (st.1 = zlen file - 9 \/ -1 <= st.1)) 1 (fun st => - st.1)).
  2: { cbn. split_and!; [done|lia| |lia|by left]. intros j Hj Ho%occurs_bound. lia. }
  intros [l r] h1 (-> & Hr & Hno & Hl & Hlo). cbn [fst snd] in *. subst r.
  apply total_ret; [done|]. cbn [post].
  destruct (Z.leb_spec 0 l) as [H0|H0]; cbn.
  2: { split; [done|]. split; [done|]. unfold search_result.
       split_and!; [right; split; [done|]|done|done]. intros j Hj. destruct (decide (l < j)) as [Hlt|Hge]; [by apply (Hno j)|].
       destruct Hj. lia. }
  apply total_bind, load_byte_total; [lia|]. cbn [post].
  set (go := (_, true)).
  assert (forall b : bool, (b = true <-> occurs_at file l) -> wp e h
    (if b then Ret ((l, l + 8), false) else Ret go)
    (post (fun (r : (Z * Z) * bool) h2 => if r.2 then (h2 = h /\ r.1.2 = r.1.1 + 8 /\
      (forall j, r.1.1 < j -> ~ occurs_at file j) /\ r.1.1 <= zlen file - 9 /\
      (r.1.1 = zlen file - 9 \/ -1 <= r.1.1)) /\ - l < - r.1.1 <= 1
      else h2 = h /\ r.1.2 = r.1.1 + 8 /\ search_result r.1.1) (fun _ _ => False))) as Hb.
  { intros b Hb. subst go. destruct b; apply total_ret; try done; cbn.
    - unfold search_result. split_and!; [done|done|left; split; [by apply Hb|done]|lia|lia].
    - split_and!; [done|lia| |lia|lia|lia|lia]. intros j Hj.
      destruct (decide (j = l)) as [->|]; [by rewrite <- Hb|]. apply Hno. lia. }
  destruct (Z.eqb_spec (nth (Z.to_nat l) file 0) 105) as [Hi|Hi].
  - apply total_bind, total_bind, load_byte_total; [lia|]. cbn [post].
    apply total_ret; [done|]. cbn [post].
    apply (Hb (_ && _)). rewrite andb_true_iff, is_ipc_bench_spec, Z.eqb_eq by lia.
    split; [by intros []|]. intros Ho. by destruct (occurs_first_last l Ho).
  - apply total_bind, total_ret; [done|]. cbn [post andb].
    apply (Hb false). split; [done|]. intros Ho. by destruct (occurs_first_last l Ho).
Qed.
End find_build_path.

Lemma find_build_path_total e `{!MallocOk e} file h :
  Forall (fun c => c <> 0) file ->
  wp e h (find_build_path file) (fun o _ => exists l, search_result file l /\
    if l + 10 <=? zlen file
    then exists b, o = Val b /\ c_string b = ztake (l + 9) file ++ BUILD_PATH
    else o = Halted (Undefined OutOfBounds)).
Proof.
  intros Hf. unfold find_build_path. pose proof (zlen_nonneg file).
  assert (zlen BUILD_PATH = 13) as Hbp by done.
  apply total_bind, (total_malloc e); [lia|done|done|]. rewrite Hbp. intros b Hb. cbn [post].
  assert (zlen (file ++ [0]) = zlen file + 1) as Hf0 by (rewrite zlen_app, zlen_cons, zlen_nil; lia).
  apply total_bind, total_store; [lia|lia|done|]. cbn [post].
  rewrite ztake_0. cbn [app]. rewrite <- app_assoc. cbn [app].
  set (rest := zdrop _ b).
  assert (zlen (file ++ 0 :: rest) = zlen file + 13) as Hl.
  { unfold rest. rewrite zlen_app, zlen_cons, zlen_zdrop, Hf0. lia. }
  clearbody rest. apply total_bind. eapply total_conseq; [by apply search_total|].
  intros [[l r]|x] h1 _; [|done]. cbn [returns post fst snd]. intros (-> & -> & Hs).
  assert (-9 <= l <= zlen file - 9) as Hlr by (destruct Hs as (_ & ? & [?|?]); lia).
  replace (l + 8 + 1) with (l + 9) by lia. unfold strcpy, store_bytes.
  change (zlen (BUILD_PATH ++ [0])) with 14. rewrite Hl.
  rewrite (proj2 (Z.leb_le 0 (l + 9)) ltac:(lia)). cbn [andb].
  destruct (Z.leb_spec (l + 9 + 14) (zlen file + 13)); destruct (Z.leb_spec (l + 10) (zlen file));
    try lia.
  - apply total_ret; [done|]. exists l. split; [done|].
    rewrite (proj2 (Z.leb_le _ _)) by done. eexists. split; [done|].
    rewrite <- (app_assoc BUILD_PATH). rewrite app_assoc. cbn [app]. rewrite c_string_app.
    + f_equal. unfold ztake, zlen in *. apply take_app_le. lia.
    + apply Forall_app. split; [|repeat constructor; done].
      unfold ztake, zlen in *. rewrite take_app_le by lia. by apply Forall_take.
  - apply total_stop; [done|]. exists l. split; [done|].
    by rewrite (proj2 (Z.leb_gt _ _)) by lia.
Qed.

(** ** Specification: the argument vector and the child *)

Lemma copy_arguments_eval e h name a0 rest :
  zlen rest < 7 ->
  eval e h (copy_arguments (Some name :: replicate 7 None) (a0 :: rest))
    (Val (Some name :: map Some rest ++ replicate (7 - length rest) None)) h.
Proof.
  intros Hr. apply eval_run. exists 20%nat.
  do 7 (destruct rest as [|? rest]; [reflexivity|]).
  rewrite !zlen_cons in Hr. pose proof (zlen_nonneg rest). lia.
Qed.

Lemma copy_arguments_assert e h arguments argv :
  7 < zlen argv -> eval e h (copy_arguments arguments argv) (Halted AssertFailed) h.
Proof.
  intros. unfold copy_arguments, assert_. rewrite (proj2 (Z.ltb_ge _ _)) by lia. constructor.
Qed.

Lemma upto_null_args name rest n :
  upto_null (Some name :: map Some rest ++ replicate n None) = Some name :: map Some rest.
Proof. cbn. f_equal. induction rest as [|a rest IH]; cbn; [by destruct n|by rewrite IH]. Qed.

(** The process that forks gets the pid of the child; the child itself never returns: its
    image is replaced, or it exits with a failure. *)
Lemma start_process_total e h argv :
  let h1 := (Fork, e ((Getpid, e h Getpid) :: h) Fork) :: (Getpid, e h Getpid) :: h in
  let pid := ret (e ((Getpid, e h Getpid) :: h) Fork) in
  wp e h (start_process argv) (fun o h' =>
    if pid =? 0 then o = Halted (Exited EXIT_FAILURE) \/
      (o = Halted Replaced /\ exists r ev, h' = (Execv (upto_null argv), r) :: ev :: h1)
    else o = Val pid /\ h' = h1).
Proof.
  unfold start_process, wp, sysret. cbn zeta. cbn [bind]. do 2 (apply total_call; [done|]).
  set (pid := ret (e _ Fork)). set (h1 := (Fork, _) :: _). destruct (Z.eqb_spec pid 0) as [->|]; cbn.
  2: by apply total_ret.
  set (c := Setpgid _ _). apply total_call; [done|].
  destruct (ret (e h1 c) =? -1); cbn; (apply total_call; [done|]).
  { apply total_stop; [done|by left]. }
  set (x := Execv _). destruct (ret _ =? -1); cbn.
  - apply total_call; [done|]. apply total_stop; [done|by left].
  - apply total_stop; [done|right]. eauto.
Qed.

(** C30. [find_build_path] on a source path with an "ipc-bench" in it that is not at its very end:
    the result is the path up to the last such name, followed by "/build/source". *)
Theorem find_build_path_correct e `{!MallocOk e} file h k :
  Forall (fun c => c <> 0) file -> last_occurrence file k -> k + 9 < zlen file ->
  wp e h (find_build_path file) (returns (fun b _ => c_string b = ztake (k + 9) file ++ BUILD_PATH)).
Proof.
  intros Hf Hk Hl. eapply total_conseq; [by apply (find_build_path_total e)|].
  intros o h' _ (l & [[Hs|[_ Hs]] _] & Ho).
  - assert (l = k) as ->.
    { destruct Hk as [Hk Hk'], Hs as [Hs Hs']. destruct (Z.lt_trichotomy l k) as [H|[H|H]]; [|done|].
      - by destruct (Hs' k H).
      - by destruct (Hk' l H). }
    rewrite (proj2 (Z.leb_le _ _)) in Ho by lia. by destruct Ho as (b & -> & Hb).
  - by destruct (Hs k), Hk.
Qed.

(** A path of the kind [__FILE__] is. *)
Definition sample_file : list Z := chars "/h/ipc-bench/source/common/process.c".

Lemma sample_last : last_occurrence sample_file 3.
Proof.
  split; [by split|]. intros j Hj Ho. pose proof (occurs_bound _ _ Ho) as Hb.
  change (zlen sample_file) with 36 in Hb. destruct Ho as [_ Ho].
  assert (forallb (fun j => negb (bool_decide (zslice j 9 sample_file = IPC_BENCH))) (seqZ 4 24) = true)
    as Hall by by vm_compute.
  rewrite forallb_forall in Hall. specialize (Hall j).
  rewrite negb_true_iff, bool_decide_eq_false in Hall. apply Hall; [|done].
  apply list_elem_of_In, elem_of_seqZ. lia.
Qed.

Lemma find_build_path_correct_witness :
  wp (fun _ c => match c with Malloc n => rdata 1 (replicate (Z.to_nat n) 0) | _ => rret 0 end) []
    (find_build_path sample_file)
    (returns (fun b _ => c_string b = ztake (3 + 9) sample_file ++ BUILD_PATH)).
Proof.
  set (e := fun (_ : hist) c => match c with Malloc n => rdata 1 (replicate (Z.to_nat n) 0) | _ => rret 0 end).
  assert (MallocOk e). { split. intros h n Hn. unfold zlen. cbn. rewrite length_replicate. lia. }
  apply (find_build_path_correct e); [|apply sample_last|done].
  by repeat constructor.
Defined.

(** The block is one byte too small for a path that ends in "ipc-bench" or has fewer than
    nine characters: [find_build_path] then writes past its end. *)
Theorem find_build_path_overruns e `{!MallocOk e} file h :
  Forall (fun c => c <> 0) file -> occurs_at file (zlen file - 9) \/ zlen file < 9 ->
  wp e h (find_build_path file) (fun o _ => o = Halted (Undefined OutOfBounds)).
Proof.
  intros Hf Hc. eapply total_conseq; [by apply (find_build_path_total e)|].
  intros o h' _ (l & Hs & Ho). assert (l = zlen file - 9) as ->.
  { destruct Hs as (Hs & Hl1 & Hl2), Hc as [Hc|Hc]; [|lia]. destruct Hs as [[_ Hs]|[_ Hs]].
    - destruct (decide (l = zlen file - 9)); [done|]. by destruct (Hs (zlen file - 9) ltac:(lia)).
    - by destruct (Hs _ Hc). }
  by rewrite (proj2 (Z.leb_gt _ _)) in Ho by lia.
Qed.

Lemma find_build_path_overruns_witness :
  wp (fun _ c => match c with Malloc n => rdata 1 (replicate (Z.to_nat n) 0) | _ => rret 0 end) []
    (find_build_path (chars "/h/ipc-bench")) (fun o _ => o = Halted (Undefined OutOfBounds)).
Proof.
  set (e := fun (_ : hist) c => match c with Malloc n => rdata 1 (replicate (Z.to_nat n) 0) | _ => rret 0 end).
  assert (MallocOk e). { split. intros h n Hn. unfold zlen. cbn. rewrite length_replicate. lia. }
  apply (find_build_path_overruns e); [by repeat constructor|left; by split].
Defined.

(** [start_child] with at most seven arguments: the parent gets the child's pid and goes on;
    the child never returns: it becomes the program [name] with the parent's arguments, or
    exits with a failure. *)
Theorem start_child_correct e h name a0 rest :
  zlen rest < 7 ->
  let pid := ret (e ((Getpid, e h Getpid) :: h) Fork) in
  wp e h (start_child name (a0 :: rest)) (fun o h' =>
    if pid =? 0 then o = Halted (Exited EXIT_FAILURE) \/
      (o = Halted Replaced /\ exists r h1, h' = (Execv (Some name :: map Some rest), r) :: h1)
    else o = Val pid).
Proof.
  intros Hr pid. unfold start_child.
  pose proof (copy_arguments_eval e h name a0 rest Hr) as Hc.
  assert (wp e h (copy_arguments (Some name :: replicate 7 None) (a0 :: rest)) (fun o h' =>
    o = Val (Some name :: map Some rest ++ replicate (7 - length rest) None) /\ h' = h)) as Hw
    by (split; [done|]; eauto).
  apply total_bind. eapply total_conseq; [exact Hw|]. intros o h' _ [-> ->]. cbn [post].
  eapply total_conseq; [apply start_process_total|]. intros o h' _. fold pid. rewrite upto_null_args.
  destruct (pid =? 0); [|by intros []]. intros [->|[-> (r & ev & ->)]]; [by left|right]. eauto.
Qed.

Lemma start_child_correct_witness :
  wp (fun _ c => match c with Fork => rret 42 | _ => rret 0 end) []
    (start_child "server" ["bench"; "-c"; "10"]) (fun o h' => o = Val 42).
Proof.
  apply (start_child_correct (fun _ c => match c with Fork => rret 42 | _ => rret 0 end) []
    "server" "bench" ["-c"; "10"]). done.
Defined.
