(* ===== verification/RateGuard.v ===== *)
(** * common/rateGuard.c: a one-byte guard and time stamps in messages *)

From S2P Require Import Prelude CInt Prog Benchmarks.

(** The characters ['e'] (empty) and ['f'] (full). *)
Definition EMPTY : Z := 101.
Definition FULL : Z := 102.

(** [while (atomic_load(guard) == 'f');]. *)
Definition rate_wait (guard : Z) : prog unit :=
  while (fun _ => c <- sysret (AtomicLoad guard) ;; Ret (c =? FULL)) Ret tt.

Definition rate_full_notify (guard : Z) : prog unit := sys_ (AtomicStore guard FULL).

Definition rate_empty_notify (guard : Z) : prog unit := sys_ (AtomicStore guard EMPTY).

(** [memcpy(&time, buffer, sizeof(bench_t))]. *)
Definition readTimeFromBuff (buffer : list Z) : prog Z :=
  bytes <- load_bytes buffer 0 8 ;;
  Ret (le_word bytes).

Definition writeTimeToBuff (buffer : list Z) : prog (list Z) :=
  time <- now ;;
  store_bytes buffer 0 (le_bytes 8 time).

(** ** Facts *)

(** C31. Stamping a buffer and reading the stamp back gives the time of the clock; the rest of
    the buffer is kept. *)
Theorem stamp_roundtrip e `{!ClockOk e} h buffer :
  8 <= zlen buffer ->
  wp e h (b <- writeTimeToBuff buffer ;; t <- readTimeFromBuff b ;; Ret (b, t))
    (returns (fun r h' =>
      let d := data (e h TimespecGet) in
      now_of (nth 0 d 0) (nth 1 d 0) = Ret r.2 /\ zdrop 8 r.1 = zdrop 8 buffer /\
      zlen r.1 = zlen buffer)).
Proof.
  intros Hb. unfold writeTimeToBuff, readTimeFromBuff, wp, now, sys.
  cbn [bind]. apply total_call; [done|].
  destruct (clock_ok (e := e) h) as (t & Ht & Hr). rewrite Ht. cbn [bind]. apply total_bind.
  assert (zlen (le_bytes 8 t) = 8) as Hl by (unfold zlen; by rewrite length_le_bytes).
  apply total_store; [lia|lia|done|]. cbn [post]. rewrite Hl, ztake_0. cbn [app].
  set (b := le_bytes 8 t ++ zdrop (0 + 8) buffer).
  assert (zlen b = zlen buffer) as Hlb by (unfold b; rewrite zlen_app, zlen_zdrop, Hl; lia).
  assert (zslice 0 8 b = le_bytes 8 t) as Hs.
  { unfold b, zslice. rewrite zdrop_0. change 8 with (zlen (le_bytes 8 t)) at 1.
    by rewrite ztake_app_exact. }
  assert (zdrop 8 b = zdrop 8 buffer) as Hd.
  { unfold b. change 8 with (zlen (le_bytes 8 t)) at 1. by rewrite zdrop_app_exact. }
  apply total_bind, total_bind, total_load; [lia|lia|lia|done|]. cbn [post].
  rewrite Hs. apply total_ret; [done|]. cbn [post]. apply total_ret; [done|].
  cbn [returns fst snd]. rewrite le_word_bytes by (unfold in_u64, u64_mod in Hr; lia). done.
Qed.

Lemma stamp_roundtrip_witness :
  wp (fun _ _ => rdata 1 [1000; 0]) []
    (b <- writeTimeToBuff (replicate 16 0) ;; t <- readTimeFromBuff b ;; Ret (b, t))
    (returns (fun r h' =>
      now_of 1000 0 = Ret r.2 /\ zdrop 8 r.1 = zdrop 8 (replicate 16 0) /\
      zlen r.1 = zlen (replicate 16 0))).
Proof.
  assert (ClockOk (fun _ _ => rdata 1 [1000; 0])).
  { split. intros h. exists 1000000000000. split; [by vm_compute|by vm_compute]. }
  apply (stamp_roundtrip (fun _ _ => rdata 1 [1000; 0]) [] (replicate 16 0)). done.
Defined.

(** The history after [n] readings of the guard. *)
Fixpoint spins (n : nat) (guard : Z) (h : hist) (e : env) : hist :=
  match n with
  | O => h
  | S n => spins n guard ((AtomicLoad guard, e h (AtomicLoad guard)) :: h) e
  end.

(** [rate_wait] returns at the first reading that is not ['f'], after exactly the readings
    that were. *)
Theorem rate_wait_returns e guard n h :
  (forall m, (m < n)%nat -> ret (e (spins m guard h e) (AtomicLoad guard)) = FULL) ->
  ret (e (spins n guard h e) (AtomicLoad guard)) <> FULL ->
  eval e h (rate_wait guard) (Val tt) (spins (S n) guard h e).
Proof.
  revert h. induction n as [|n IH]; intros h Hfull Hend; cbn in Hend.
  - eapply eval_iter_done; [|constructor]. cbn. apply eval_call.
    rewrite (proj2 (Z.eqb_neq _ _) Hend). constructor.
  - pose proof (Hfull 0%nat ltac:(lia)) as H0. cbn in H0.
    eapply eval_iter_go.
    + cbn. apply eval_call. rewrite H0. cbn. constructor.
    + apply IH; [|done]. intros m Hm. apply (Hfull (S m)). lia.
Qed.

Lemma rate_wait_returns_witness :
  eval (fun h _ => rret (if (length h <? 2)%nat then FULL else EMPTY)) [] (rate_wait 0) (Val tt)
    (spins 3 0 [] (fun h _ => rret (if (length h <? 2)%nat then FULL else EMPTY))).
Proof.
  apply (rate_wait_returns (fun h _ => rret (if (length h <? 2)%nat then FULL else EMPTY)) 0 2 []).
  - intros m Hm. destruct m as [|[|m]]; [done|done|lia].
  - done.
Defined.
