(* ===== verification/Joint.v ===== *)
(** * Two processes that share an object

    A protocol is an automaton on the events of a process ([step]), whose state is a phase. A
    shared object (memory, a counter, a queue, pending signals) has a state that events change
    and that decides their answers. Two processes that follow a protocol, interleaved in any
    way over one object ([coherent]), keep every invariant of the object and the two phases
    that single events keep ([joint_trace]). *)

From S2P Require Import Prelude CInt Prog Utility Arguments Benchmarks.

Inductive side := ClientSide | ServerSide.

#[export] Instance side_eq_dec : EqDecision side.
Proof. solve_decision. Defined.

Definition other (p : side) : side :=
  match p with ClientSide => ServerSide | ServerSide => ClientSide end.

(** ** The functions of common/ keep to themselves *)

(** The calls of the clock, the command line, the reports and the allocator. *)
Definition common_call (c : call) : Prop :=
  match c with
  | TimespecGet | Printf _ _ | Fputs _ | Perror _ | Getopt _ | SetOptind _ | AfterArray
  | Malloc _ | Free => True
  | _ => False
  end.

(** A set of calls with at least these. *)
Class Local (P : call -> Prop) : Prop := local_common c : common_call c -> P c.

(** Calls of a program, after the hints for its functions. *)
Ltac local_calls :=
  repeat first [done | progress intros | solve [eauto with cbench typeclass_instances] | apply calls_bind | apply calls_if | apply quick_bind | apply quick_if
    | split | progress cbn].

Section local.
Context (P : call -> Prop) {L : Local P}.

Lemma calls_common {A} (p : prog A) : calls_in common_call p -> calls_in P p.
Proof. induction p; cbn; intuition. Qed.

Lemma quick_common {A} (p : prog A) : quick common_call p -> quick P p.
Proof. by apply quick_mono. Qed.

Lemma local_now : quick P now.
Proof.
  apply quick_common, quick_bind; [done|]. intros r. unfold now_of, CDouble.d_to_u64.
  by repeat case_match.
Qed.

Lemma local_start_single b : quick P (start_single b).
Proof. apply quick_bind; [apply local_now|done]. Qed.

Lemma local_setup_benchmarks s : quick P (setup_benchmarks s).
Proof. apply quick_bind; [apply local_now|done]. Qed.

Lemma local_benchmark b : quick P (benchmark b).
Proof. apply quick_bind; [apply local_now|]. intros t. by destruct (single_start b). Qed.

Lemma local_throw {A} m : quick P (throw (A := A) m).
Proof. apply quick_common. done. Qed.

Lemma local_malloc n : quick P (malloc n).
Proof. apply quick_common. done. Qed.

Lemma local_free : quick P free.
Proof. apply quick_common. done. Qed.

Lemma local_printf f a : quick P (sys_ (Printf f a)).
Proof. apply quick_common. done. Qed.

Lemma local_evaluate b args : quick P (evaluate b args).
Proof.
  apply quick_bind; [by unfold assert_; case_match|]. intros _.
  apply quick_bind; [apply local_now|]. intros t. apply quick_common. done.
Qed.

Lemma local_parse_arguments argv : calls_in P (parse_arguments argv).
Proof.
  apply calls_common. split; [done|]. intros _. split; [|done]. intros a. split; [done|].
  intros r. cbn. by case_match.
Qed.

Lemma local_check_flag flag argv : calls_in P (check_flag flag argv).
Proof.
  apply calls_common. split; [done|]. intros _. split; [|done]. intros a. split; [done|].
  intros r. split; [done|]. intros r'. cbn. by repeat case_match.
Qed.

Lemma local_when b (q : prog unit) : calls_in P q -> calls_in P (when b q).
Proof. by destruct b. Qed.

Lemma quick_when b (q : prog unit) : quick P q -> quick P (when b q).
Proof. by destruct b. Qed.

Lemma local_add_i32 a b : quick P (add_i32 a b).
Proof. unfold add_i32. by case_match. Qed.

Lemma local_store_bytes b off bytes : quick P (store_bytes b off bytes).
Proof. unfold store_bytes. by case_match. Qed.

Lemma local_load_bytes b off n : quick P (load_bytes b off n).
Proof. unfold load_bytes. by case_match. Qed.
End local.

#[export] Hint Resolve local_now local_start_single local_setup_benchmarks local_benchmark local_throw
  local_malloc local_free local_printf local_evaluate local_parse_arguments local_check_flag local_when quick_when
  local_add_i32 local_store_bytes local_load_bytes : cbench.

(** ** One process *)

Section protocol.
Context {Ph : Type} (start : side -> Ph) (step : side -> Ph -> event -> option Ph).

Fixpoint phase_of (p : side) (h : hist) : option Ph :=
  match h with
  | [] => Some (start p)
  | ev :: h => match phase_of p h with Some ph => step p ph ev | None => None end
  end.

Definition follows (p : side) (h : hist) : Prop := phase_of p h <> None.

Definition at_phase (p : side) (ph : Ph) (h : hist) : Prop := phase_of p h = Some ph.

(** The phase of a process that has returned. *)
Definition finished {A} (p : side) (Q : Ph -> Prop) (o : outcome A) (h : hist) : Prop :=
  match o with Val _ => exists ph, at_phase p ph h /\ Q ph | Halted _ => True end.

Lemma at_follows p ph h : at_phase p ph h -> follows p h.
Proof. unfold at_phase, follows. congruence. Qed.

(** One event of the protocol. *)
Lemma safe_step e p {A} c (k : resp -> prog A) ph h (Q : outcome A -> hist -> Prop) :
  at_phase p ph h ->
  (exists ph', step p ph (c, e h c) = Some ph' /\
    forall h', at_phase p ph' h' -> safe e (follows p) h' (k (e h c)) Q) ->
  safe e (follows p) h (Call c k) Q.
Proof.
  intros H (ph' & Hs & Hk). apply safe_call; [by eapply at_follows|]. apply Hk.
  unfold at_phase in *. cbn. by rewrite H.
Qed.

(** The calls that the protocol is not about. *)
Context (own : call -> Prop) (own_step : forall p c r ph, own c -> step p ph (c, r) = Some ph).

Section process.
Context (e : env) (p : side).

Lemma own_at_phase c r ph h : own c -> at_phase p ph h -> at_phase p ph ((c, r) :: h).
Proof. unfold at_phase. cbn. intros Hc ->. by apply own_step. Qed.

(** Code that the protocol is not about. *)
Lemma safe_own {A B} (q : prog A) (k : A -> prog B) ph h (Q : outcome B -> hist -> Prop) :
  calls_in own q -> at_phase p ph h -> (forall x h', Q (Halted x) h') ->
  (forall a h', at_phase p ph h' -> safe e (follows p) h' (k a) Q) ->
  safe e (follows p) h (bind q k) Q.
Proof.
  intros Hq H HX Hk. apply safe_bind, (safe_weaken e _ (at_phase p ph)); [apply at_follows|].
  eapply safe_conseq; [apply (safe_calls e (at_phase p ph) own q)|]; [|done|done|].
  - intros c h' Hc. by apply own_at_phase.
  - intros [a|x] h' _ H'; cbn; auto.
Qed.

(** The same at the end of a program. *)
Lemma safe_last {A} (q : prog A) ph h (Q : outcome A -> hist -> Prop) :
  calls_in own q -> at_phase p ph h -> (forall x h', Q (Halted x) h') ->
  (forall a h', at_phase p ph h' -> Q (Val a) h') ->
  safe e (follows p) h q Q.
Proof.
  intros Hq H HX Hk. apply (safe_weaken e _ (at_phase p ph)); [apply at_follows|].
  eapply safe_conseq; [apply (safe_calls e (at_phase p ph) own q)|]; [|done|done|].
  - intros c h' Hc. by apply own_at_phase.
  - intros [a|x] h' _ H'; auto.
Qed.

Lemma safe_throw `{!Local own} {A} m ph h (Q : outcome A -> hist -> Prop) :
  at_phase p ph h -> (forall x h', Q (Halted x) h') -> safe e (follows p) h (throw m) Q.
Proof.
  intros H HX. unfold throw, sys_, exit. cbn. apply safe_call; [by eapply at_follows|].
  apply safe_stop; [|done]. eapply at_follows, own_at_phase; [by apply local_common|done].
Qed.

(** The command line, when its result is known. *)
Lemma safe_parse `{!Local own} argv args {A} (k : Arguments -> prog A) ph h
    (Q : outcome A -> hist -> Prop) :
  (forall o h', eval e h (parse_arguments argv) o h' -> o = Val args) ->
  at_phase p ph h -> (forall h', at_phase p ph h' -> safe e (follows p) h' (k args) Q) ->
  safe e (follows p) h (bind (parse_arguments argv) k) Q.
Proof.
  intros Ha H Hk. apply safe_bind, (safe_weaken e _ (at_phase p ph)); [apply at_follows|].
  destruct (safe_calls e (at_phase p ph) own (parse_arguments argv) h) as [HI HQ].
  - intros c h' Hc. by apply own_at_phase.
  - by apply local_parse_arguments.
  - done.
  - split; [done|]. intros o h' He. rewrite (Ha o h' He). cbn. by apply Hk, (HQ o).
Qed.
End process.
End protocol.

(** ** Two processes *)

(** What an event does to the object, and which answers the object allows. *)
Record object (S : Type) := Object {
  effect : side -> event -> S -> S;
  answers : side -> S -> event -> Prop
}.
Arguments effect {S} _ _ _ _.
Arguments answers {S} _ _ _ _.

(** The events of both processes, newest first. *)
Definition trace : Type := list (side * event).

Fixpoint proj (p : side) (g : trace) : hist :=
  match g with
  | [] => []
  | (q, ev) :: g =>
      match q, p with
      | ClientSide, ClientSide | ServerSide, ServerSide => ev :: proj p g
      | _, _ => proj p g
      end
  end.

Section object.
Context {S : Type} (O : object S).

Fixpoint final (s0 : S) (g : trace) : S :=
  match g with
  | [] => s0
  | (p, ev) :: g => effect O p ev (final s0 g)
  end.

(** Every answer is one that the object allows when the event happens. *)
Fixpoint coherent (s0 : S) (g : trace) : Prop :=
  match g with
  | [] => True
  | (p, ev) :: g => coherent s0 g /\ answers O p (final s0 g) ev
  end.

Lemma coherent_suffix s0 g1 g2 : coherent s0 (g1 ++ g2) -> coherent s0 g2.
Proof. induction g1 as [|[q ev] g1 IH]; [done|]. intros [H _]. by apply IH. Qed.

Context {Ph : Type} (start : side -> Ph) (step : side -> Ph -> event -> option Ph).

Lemma follows_suffix p g1 g2 :
  follows start step p (proj p (g1 ++ g2)) -> follows start step p (proj p g2).
Proof.
  induction g1 as [|[q ev] g1 IH]; [done|]. intros H. apply IH. revert H. cbn.
  destruct q, p; unfold follows; cbn; try done; case_match; done.
Qed.

Context (J : S -> Ph -> Ph -> Prop).

(** One event of [p] keeps the invariant. *)
Definition joint_next (p : side) (ev : event) (s : S) (pc ps : Ph) : Prop :=
  match p with
  | ClientSide => forall pc', step ClientSide pc ev = Some pc' -> J (effect O p ev s) pc' ps
  | ServerSide => forall ps', step ServerSide ps ev = Some ps' -> J (effect O p ev s) pc ps'
  end.

Context (s0 : S) (J0 : J s0 (start ClientSide) (start ServerSide)).
Context (Jstep : forall p ev s pc ps, J s pc ps -> answers O p s ev -> joint_next p ev s pc ps).

Lemma joint_trace g :
  coherent s0 g ->
  follows start step ClientSide (proj ClientSide g) ->
  follows start step ServerSide (proj ServerSide g) ->
  exists pc ps, phase_of start step ClientSide (proj ClientSide g) = Some pc /\
    phase_of start step ServerSide (proj ServerSide g) = Some ps /\ J (final s0 g) pc ps.
Proof.
  induction g as [|[p ev] g IH]; [by eauto|]. cbn [coherent final]. intros [Hg Ha] Hc Hs.
  pose proof (follows_suffix ClientSide [(p, ev)] g Hc) as Hc'.
  pose proof (follows_suffix ServerSide [(p, ev)] g Hs) as Hs'.
  destruct (IH Hg Hc' Hs') as (pc & ps & Ec & Es & HJ).
  pose proof (Jstep p ev _ pc ps HJ Ha) as Hj. unfold follows in *.
  destruct p; cbn in *; rewrite ?Ec, ?Es in *.
  - destruct (step ClientSide pc ev) as [pc'|]; [|done]. eauto 6.
  - destruct (step ServerSide ps ev) as [ps'|]; [|done]. eauto 6.
Qed.

(** The same at every moment of the trace. *)
Lemma joint_always g g1 g2 :
  coherent s0 g ->
  follows start step ClientSide (proj ClientSide g) ->
  follows start step ServerSide (proj ServerSide g) -> g = g1 ++ g2 ->
  exists pc ps, phase_of start step ClientSide (proj ClientSide g2) = Some pc /\
    phase_of start step ServerSide (proj ServerSide g2) = Some ps /\ J (final s0 g2) pc ps.
Proof.
  intros Hg Hc Hs ->. apply joint_trace.
  - by eapply coherent_suffix.
  - by eapply follows_suffix.
  - by eapply follows_suffix.
Qed.
End object.

(** ** Concrete interleavings *)

(** The [k]th call that [pick] selects is answered by the [k]th of the answers. *)
Definition nth_call (pick : call -> bool) (answers : list resp) (d : resp) (h : hist) : resp :=
  nth (length (List.filter (fun ev => pick ev.1) h)) answers d.

(** The command line -s 2 -c 1, a block for every allocation, a stream for every
    descriptor, and a clock that stands still. *)
Definition plain : env := fun h c =>
  match c with
  | Getopt _ =>
      nth_call (fun c => match c with Getopt _ => true | _ => false end)
        [Resp OPT_S 0 [] "2" []; Resp OPT_C 0 [] "1" []] (rret (-1)) h
  | Malloc n => rdata 1 (replicate (Z.to_nat n) 0)
  | TimespecGet => rdata 1 [1000; 0]
  | Write _ buf => rret (zlen buf)
  | Fdopen _ _ => rret 1
  | _ => rret 0
  end.

(** The interleaving of two histories that takes [n] events of a side at a time. *)
Fixpoint interleave (sched : list (side * nat)) (hc hs : list event) : trace :=
  match sched with
  | [] => []
  | (ClientSide, n) :: sched => interleave sched (drop n hc) hs ++ rev (map (pair ClientSide) (take n hc))
  | (ServerSide, n) :: sched => interleave sched hc (drop n hs) ++ rev (map (pair ServerSide) (take n hs))
  end.
