(* ===== verification/Session.v ===== *)
(** * Sessions: what is left of a program, and how it keeps to a protocol

    [unroll] and [head] give the next statement of a program. A [session] is a protocol of Joint.v
    with a guard on the calls of each phase. [typed] says that a program keeps to its session
    whatever the answers are, and that it only ever waits: every branch of it ends, except
    where it repeats one call until the answer lets it go on. It is closed under the statements of the
    language, and implies the partial correctness of Prog.v ([typed_safe]). *)

From Stdlib Require Import FunctionalExtensionality.
From S2P Require Import Prelude CInt Prog Utility Arguments Benchmarks Joint.

(** ** The next statement *)

Lemma bind_assoc {A B C} (p : prog A) (f : A -> prog B) (g : B -> prog C) :
  bind (bind p f) g = bind p (fun a => bind (f a) g).
Proof.
  induction p; cbn; [done|done|..]; f_equal; by apply functional_extensionality.
Qed.

(** One iteration of a loop, before the loop. *)
Definition unroll {A} (p : prog A) : prog A :=
  match p with
  | Iter body s k =>
      bind (body s) (fun r => match r with inl s' => Iter body s' k | inr b => k b end)
  | p => p
  end.

Lemma unroll_bind {A B S C} (body : S -> prog (S + C)) s (k : C -> prog A) (f : A -> prog B) :
  unroll (bind (Iter body s k) f) = bind (unroll (Iter body s k)) f.
Proof.
  cbn. rewrite bind_assoc. f_equal. apply functional_extensionality. by intros [].
Qed.

Definition is_loop {A} (p : prog A) : bool := match p with Iter _ _ _ => true | _ => false end.

(** [head p q]: [q] is [p] with the loops in front unrolled. *)
Inductive head {A} (p : prog A) : prog A -> Prop :=
| head_here : is_loop p = false -> head p p
| head_loop q : is_loop p = true -> head (unroll p) q -> head p q.

Lemma head_det {A} (p q1 q2 : prog A) : head p q1 -> head p q2 -> q1 = q2.
Proof. intros H. revert q2. induction H; destruct 1; try congruence. by apply IHhead. Qed.

Lemma head_call {A} c (k : resp -> prog A) q : head (Call c k) q -> q = Call c k.
Proof. by destruct 1. Qed.

(** [head] with a bound on the unrolled loops. *)
Fixpoint find_head (n : nat) {A} (p : prog A) : option (prog A) :=
  match n with
  | O => None
  | S n => if is_loop p then find_head n (unroll p) else Some p
  end.

Lemma find_head_sound n {A} (p q : prog A) : find_head n p = Some q -> head p q.
Proof.
  revert p. induction n as [|n IH]; intros p; cbn; [done|]. destruct (is_loop p) eqn:E.
  - intros H. by apply head_loop, IH.
  - intros [= <-]. by apply head_here.
Qed.

Lemma head_bind_call {A B} (p : prog A) (f : A -> prog B) c k :
  head p (Call c k) -> head (bind p f) (Call c (fun r => bind (k r) f)).
Proof.
  remember (Call c k) as q eqn:E. induction 1 as [p|p q Hl H IH]; subst.
  - by apply head_here.
  - apply head_loop; [by destruct p|]. destruct p; try done. rewrite unroll_bind. by apply IH.
Qed.

Lemma head_bind_stop {A B} (p : prog A) (f : A -> prog B) x :
  head p (Stop x) -> head (bind p f) (Stop x).
Proof.
  remember (Stop x) as q eqn:E. induction 1 as [p|p q Hl H IH]; subst.
  - by apply head_here.
  - apply head_loop; [by destruct p|]. destruct p; try done. rewrite unroll_bind. by apply IH.
Qed.

Lemma head_bind_ret {A B} (p : prog A) (f : A -> prog B) a q :
  head p (Ret a) -> head (f a) q -> head (bind p f) q.
Proof.
  remember (Ret a) as t eqn:E. induction 1 as [p|p t Hl H IH]; subst; intros Hf.
  - done.
  - apply head_loop; [by destruct p|]. destruct p; try done. rewrite unroll_bind. by apply IH.
Qed.

(** Unrolling does not change what a program does. *)
Section unroll.
Context (e : env).

Lemma eval_unroll {A} h (p : prog A) o h' : eval e h (unroll p) o h' -> eval e h p o h'.
Proof.
  destruct p as [a|x|c k|S B body s k]; try done. cbn [unroll].
  intros ([[s'|b]|x] & h1 & Hb & Hc)%eval_bind_inv; cbn in Hc.
  - by eapply eval_iter_go.
  - by eapply eval_iter_done.
  - destruct Hc as [-> ->]. by apply eval_iter_halt.
Qed.

Lemma unroll_eval {A} h (p : prog A) o h' : eval e h p o h' -> eval e h (unroll p) o h'.
Proof.
  destruct p as [a|x|c k|S B body s k]; try done. cbn [unroll].
  intros [(s' & h1 & Hb & Hc)|[(b & h1 & Hb & Hc)|(x & Hb & ->)]]%eval_inv;
    (eapply eval_bind; [exact Hb|]); done.
Qed.

Lemma unroll_visits {A} h (p : prog A) h' : visits e h p h' -> visits e h (unroll p) h'.
Proof.
  destruct p as [a|x|c k|S B body s k]; try done. cbn [unroll].
  intros [->|[Hb|[(s' & h1 & Hb & Hc)|(b & h1 & Hb & Hc)]]]%visits_inv.
  - constructor.
  - by apply visits_bind_l.
  - by eapply visits_bind_r.
  - by eapply visits_bind_r.
Qed.

Lemma head_eval {A} h (p q : prog A) o h' : head p q -> eval e h p o h' -> eval e h q o h'.
Proof. induction 1; [done|]. intros H1. by apply IHhead, unroll_eval. Qed.

Lemma head_visits {A} h (p q : prog A) h' : head p q -> visits e h p h' -> visits e h q h'.
Proof. induction 1; [done|]. intros H1. by apply IHhead, unroll_visits. Qed.
End unroll.

(** ** Sessions *)

(** [permits]: the calls of a phase; [stays]: the answers after which a process that waits makes
    the same call again. *)
Record session (Ph : Type) := Session {
  s_start : side -> Ph;
  s_step : side -> Ph -> event -> option Ph;
  s_permits : side -> Ph -> call -> bool;
  s_stays : side -> event -> bool
}.
Arguments s_start {Ph} _ _.
Arguments s_step {Ph} _ _ _ _.
Arguments s_permits {Ph} _ _ _ _.
Arguments s_stays {Ph} _ _ _.

Section typed.
Context {Ph : Type} (T : session Ph) (p : side).

(** [typed Q ph q]: from the phase [ph], [q] keeps to the session, and if it returns [a] in the
    phase [ph'] then [Q a ph']. *)
Inductive typed {A} (Q : A -> Ph -> Prop) : Ph -> prog A -> Prop :=
| typed_returns q a ph : head q (Ret a) -> Q a ph -> typed Q ph q
| typed_stops q x ph : head q (Stop x) -> typed Q ph q
| typed_event q c k ph (next : resp -> Ph) :
    head q (Call c k) -> s_permits T p ph c = true ->
    (forall r, s_step T p ph (c, r) = Some (next r)) ->
    (forall r, s_stays T p (c, r) = true -> next r = ph /\ head (k r) (Call c k)) ->
    (forall r, s_stays T p (c, r) = false -> typed Q (next r) (k r)) ->
    typed Q ph q.

Section rules.
Context {A : Type} (Q : A -> Ph -> Prop).

Lemma typed_ret a ph : Q a ph -> typed Q ph (Ret a).
Proof. intros. eapply typed_returns; [by apply head_here|done]. Qed.

Lemma typed_stop x ph : typed Q ph (Stop x).
Proof. eapply typed_stops. by apply head_here. Qed.

Lemma typed_call c k ph (next : resp -> Ph) :
  s_permits T p ph c = true -> (forall r, s_step T p ph (c, r) = Some (next r)) ->
  (forall r, s_stays T p (c, r) = false) -> (forall r, typed Q (next r) (k r)) ->
  typed Q ph (Call c k).
Proof.
  intros Hp Hs Hw Hk. apply (typed_event Q _ c k ph next); [by apply head_here|done|done| |auto].
  intros r. by rewrite Hw.
Qed.

Lemma typed_head q q' ph : (forall t, head q' t -> head q t) -> typed Q ph q' -> typed Q ph q.
Proof.
  intros Hq. destruct 1.
  - eapply typed_returns; [by apply Hq|done].
  - eapply typed_stops; by apply Hq.
  - eapply typed_event; [by apply Hq|done..].
Qed.

Lemma typed_unroll q ph : typed Q ph (unroll q) -> typed Q ph q.
Proof.
  destruct (is_loop q) eqn:E; [|by destruct q]. apply typed_head. intros t. by apply head_loop.
Qed.
End rules.

Lemma typed_mono {A} (Q R : A -> Ph -> Prop) ph q :
  typed Q ph q -> (forall a ph', Q a ph' -> R a ph') -> typed R ph q.
Proof.
  intros H HQ. induction H as [q a ph Hh Ha|q x ph Hh|q c k ph next Hh Hp Hs Hw _ IH].
  - eapply typed_returns; [done|by apply HQ].
  - by eapply typed_stops.
  - by apply (typed_event _ _ c k ph next).
Qed.

Lemma typed_bind {A B} (q : prog A) (f : A -> prog B) ph (Q : A -> Ph -> Prop) (R : B -> Ph -> Prop) :
  typed Q ph q -> (forall a ph', Q a ph' -> typed R ph' (f a)) -> typed R ph (bind q f).
Proof.
  intros H Hf. induction H as [q a ph Hh HQ|q x ph Hh|q c k ph next Hh Hp Hs Hw _ IH].
  - apply (typed_head _ _ (f a)); [|by apply Hf]. intros t. by apply head_bind_ret.
  - eapply typed_stops; by eapply head_bind_stop.
  - eapply (typed_event _ _ c _ ph next); [by eapply head_bind_call|done|done| |].
    + intros r Hr. destruct (Hw r Hr) as [? ?]. split; [done|by apply head_bind_call].
    + intros r Hr. by apply IH.
Qed.

(** A loop with an invariant and a measure. *)
Lemma typed_loop {S B} (I : S -> Ph -> Prop) (mu : S -> nat) (body : S -> prog (S + B)) s ph
    (Q : B -> Ph -> Prop) :
  (forall s ph, I s ph ->
    typed (fun r ph' => match r with inl s' => I s' ph' /\ (mu s' < mu s)%nat | inr b => Q b ph' end)
      ph (body s)) ->
  I s ph -> typed Q ph (loop body s).
Proof.
  intros Hb. remember (mu s) as n eqn:En. revert s ph En.
  induction (lt_wf n) as [n _ IH]. intros s ph -> HI.
  apply typed_unroll. cbn. eapply typed_bind; [by apply Hb|].
  intros [s'|b] ph'; cbn; [|by apply typed_ret]. intros [HI' Hm]. by eapply IH.
Qed.

(** A [while] loop whose condition makes no call, with an integer measure. *)
Lemma typed_while {S} (I : S -> Ph -> Prop) (mu : S -> Z) (b : S -> bool) (body : S -> prog S) s ph
    (Q : S -> Ph -> Prop) :
  (forall s ph, I s ph -> b s = false -> Q s ph) ->
  (forall s ph, I s ph -> b s = true ->
    typed (fun s' ph' => I s' ph' /\ 0 <= mu s' < mu s) ph (body s)) ->
  I s ph -> typed Q ph (while (fun s => Ret (b s)) body s).
Proof.
  intros Hf Ht. unfold while. apply (typed_loop I (fun s => Z.to_nat (mu s))). clear s ph. intros s ph HI.
  cbn. destruct (b s) eqn:E; [|by apply typed_ret, Hf].
  eapply typed_bind; [by apply Ht|]. intros s' ph' [HI' Hm]. apply typed_ret. split; [done|lia].
Qed.

(** The loops of the benchmarks: [count] rounds, counted up or down. [at_ n]: the phase after [n]. *)
Section rounds.
Context {S : Type} (at_ : Z -> Ph) (f : S -> Z) (body : S -> prog S).

Lemma typed_up count s :
  f s = 0 ->
  (forall s, 0 <= f s < Z.max 0 count ->
    typed (fun s' ph => ph = at_ (f s + 1) /\ f s' = f s + 1) (at_ (f s)) (body s)) ->
  typed (fun _ ph => ph = at_ (Z.max 0 count)) (at_ 0) (while (fun s => Ret (f s <? count)) body s).
Proof.
  intros H0 Hb. apply (typed_while (fun s ph => ph = at_ (f s) /\ 0 <= f s <= Z.max 0 count)
    (fun s => Z.max 0 count - f s)).
  - intros s' ph [-> Hs] Hf. bool_to_prop. f_equal. lia.
  - intros s' ph [-> Hs] Hf. bool_to_prop. eapply typed_mono; [by apply Hb; lia|].
    intros s'' ph' [-> E]. rewrite E. split; [split; [done|lia]|lia].
  - split; [by rewrite H0|lia].
Qed.

Lemma typed_down s :
  (forall s' n, 0 <= n < Z.max 0 (f s) ->
    typed (fun s'' ph => ph = at_ (n + 1) /\ f s'' = f s' - 1) (at_ n) (body s')) ->
  typed (fun _ ph => ph = at_ (Z.max 0 (f s))) (at_ 0) (while (fun s => Ret (0 <? f s)) body s).
Proof.
  intros Hb. apply (typed_while (fun s' ph => exists n, ph = at_ n /\ 0 <= n /\ n + Z.max 0 (f s') = Z.max 0 (f s))
    (fun s => f s)).
  - intros s' ph (n & -> & Hn & E) Hf. bool_to_prop. f_equal. lia.
  - intros s' ph (n & -> & Hn & E) Hf. bool_to_prop. eapply typed_mono; [by apply Hb; lia|].
    intros s'' ph' [-> E']. split; [exists (n + 1)|]; split_and?; (done || lia).
  - exists 0. split_and!; (done || lia).
Qed.
End rounds.

(** Code that the session is not about. *)
Section own.
Context (own : call -> Prop).
Context (own_permits : forall ph c, own c -> s_permits T p ph c = true).
Context (own_step : forall ph c r, own c -> s_step T p ph (c, r) = Some ph).
Context (own_stays : forall c r, own c -> s_stays T p (c, r) = false).

Lemma typed_quick {A} (q : prog A) ph : quick own q -> typed (fun _ ph' => ph' = ph) ph q.
Proof.
  induction q as [A a|A x|A c k IH|]; cbn; [by intros; apply typed_ret|by intros; apply typed_stop| |done].
  intros [Hc Hk]. by apply (typed_call _ _ _ _ (fun _ => ph)); auto.
Qed.

Lemma typed_own {A B} (q : prog A) (f : A -> prog B) ph (R : B -> Ph -> Prop) :
  quick own q -> (forall a, typed R ph (f a)) -> typed R ph (bind q f).
Proof. intros Hq Hf. eapply typed_bind; [by apply typed_quick|]. by intros a ph' ->. Qed.

Lemma typed_last {A} (q : prog A) ph (R : A -> Ph -> Prop) :
  quick own q -> (forall a, R a ph) -> typed R ph q.
Proof. intros Hq HR. eapply typed_mono; [by apply typed_quick|]. by intros a ph' ->. Qed.
End own.

(** ** Types and partial correctness *)

Section safe.
Context (e : env).
Local Abbreviation follows := (follows (s_start T) (s_step T) p).
Local Abbreviation at_phase := (at_phase (s_start T) (s_step T) p).

Lemma at_next ph c r ph' h :
  at_phase ph h -> s_step T p ph (c, r) = Some ph' -> at_phase ph' ((c, r) :: h).
Proof. unfold Joint.at_phase. cbn. by intros ->. Qed.

Lemma extends_length h h' : extends e h h' -> (length h <= length h')%nat.
Proof. induction 1; cbn; lia. Qed.

(** What a process that waits on a call can see: itself, or what follows another answer. *)
Section wait.
Context {A : Type} (c : call) (k : resp -> prog A) (ph : Ph).
Context (Hw : forall r, s_stays T p (c, r) = true -> s_step T p ph (c, r) = Some ph /\ head (k r) (Call c k)).

Lemma wait_visits h h' :
  at_phase ph h -> visits e h (Call c k) h' ->
  at_phase ph h' \/
  exists h1, at_phase ph h1 /\ s_stays T p (c, e h1 c) = false /\
    visits e ((c, e h1 c) :: h1) (k (e h1 c)) h'.
Proof.
  remember (length h' - length h)%nat as n eqn:En. revert h En.
  induction (lt_wf n) as [n _ IH]. intros h -> Hh Hv. pose proof (extends_length _ _ (visits_extends _ _ _ _ Hv)).
  apply visits_inv in Hv as [->|Hv]; [by left|].
  destruct (s_stays T p (c, e h c)) eqn:E; [|right; by exists h]. destruct (Hw _ E) as [Hs Hk].
  pose proof (extends_length _ _ (visits_extends _ _ _ _ Hv)) as Hl. cbn in Hl.
  eapply IH; [|done|by eapply at_next|by eapply head_visits]. cbn. lia.
Qed.

Lemma wait_eval h o h' :
  at_phase ph h -> eval e h (Call c k) o h' ->
  exists h1, at_phase ph h1 /\ s_stays T p (c, e h1 c) = false /\
    eval e ((c, e h1 c) :: h1) (k (e h1 c)) o h'.
Proof.
  remember (length h' - length h)%nat as n eqn:En. revert h En.
  induction (lt_wf n) as [n _ IH]. intros h -> Hh Hv. apply eval_inv in Hv.
  destruct (s_stays T p (c, e h c)) eqn:E; [|by exists h]. destruct (Hw _ E) as [Hs Hk].
  pose proof (extends_length _ _ (eval_extends _ _ _ _ _ Hv)) as Hl. cbn in Hl.
  eapply IH; [|done|by eapply at_next|by eapply head_eval]. cbn. lia.
Qed.
End wait.

(** A typed program follows the protocol, and its result is in the phase its type says. *)
Lemma typed_safe {A} (Q : A -> Ph -> Prop) ph (q : prog A) h :
  typed Q ph q -> at_phase ph h ->
  safe e follows h q (post (fun a h' => exists ph', at_phase ph' h' /\ Q a ph') (fun _ _ => True)).
Proof.
  intros H. revert h. induction H as [q a ph Hh HQ|q x ph Hh|q c k ph next Hh Hp Hs Hw _ IH];
    intros h Hp'.
  - split.
    + intros h' [->|[]]%(head_visits _ _ _ _ _ Hh)%visits_inv. by eapply at_follows.
    + intros o h' [-> ->]%(head_eval _ _ _ _ _ _ Hh)%eval_inv. cbn. eauto.
  - split.
    + intros h' [->|[]]%(head_visits _ _ _ _ _ Hh)%visits_inv. by eapply at_follows.
    + by intros o h' [-> ->]%(head_eval _ _ _ _ _ _ Hh)%eval_inv.
  - assert (forall r, s_stays T p (c, r) = true ->
      s_step T p ph (c, r) = Some ph /\ head (k r) (Call c k)) as Hw'.
    { intros r Hr. destruct (Hw r Hr) as [E ?]. by rewrite Hs, E. }
    split.
    + intros h' Hv%(head_visits _ _ _ _ _ Hh).
      destruct (wait_visits _ _ _ Hw' _ _ Hp' Hv) as [?|(h1 & H1 & E & Hv1)]; [by eapply at_follows|].
      by apply (IH _ E ((c, e h1 c) :: h1) (at_next _ _ _ _ _ H1 (Hs _))).
    + intros o h' Hv%(head_eval _ _ _ _ _ _ Hh).
      destruct (wait_eval _ _ _ Hw' _ _ _ Hp' Hv) as (h1 & H1 & E & Hv1).
      by apply (IH _ E ((c, e h1 c) :: h1) (at_next _ _ _ _ _ H1 (Hs _))).
Qed.
End safe.
End typed.

(** ** Typed programs get smaller *)

Section smaller.
Context {Ph A : Type} (T : session Ph) (p : side).

(** A call with an answer after which the process does not wait. *)
Definition below (x y : Ph * prog A) : Prop :=
  exists c k r, y.2 = Call c k /\ s_stays T p (c, r) = false /\
    s_step T p y.1 (c, r) = Some x.1 /\ head (k r) x.2.

Lemma typed_acc R ph (q : prog A) t : typed T p R ph q -> head q t -> Acc (below) (ph, t).
Proof.
  intros H. revert t. induction H as [q a ph Hh Ha|q x ph Hh|q c k ph next Hh Hp Hs Hw _ IH];
    intros t Ht; rewrite (head_det _ _ _ Ht Hh); constructor; intros [ph' t'] (c' & k' & r & E & Hst & Hs' & Hk);
    cbn in *; [done|done|]. injection E as <- <-. rewrite Hs in Hs'. injection Hs' as <-.
  by apply (IH r Hst).
Qed.

Lemma typed_shape R ph (q : prog A) :
  typed T p R ph q -> exists t, head q t /\
    ((exists a, t = Ret a /\ R a ph) \/ (exists x, t = Stop x) \/ exists c k, t = Call c k).
Proof. destruct 1; eauto 8. Qed.

(** The types after a call. *)
Lemma typed_next R ph (q : prog A) c k r :
  typed T p R ph q -> head q (Call c k) ->
  s_permits T p ph c = true /\ exists ph', s_step T p ph (c, r) = Some ph' /\ typed T p R ph' (k r) /\
    (s_stays T p (c, r) = true -> ph' = ph /\ head (k r) (Call c k)).
Proof.
  intros H Hc. destruct H as [q a ph Hh Ha|q x ph Hh|q c' k' ph next Hh Hp Hs Hw Hk];
    pose proof (head_det _ _ _ Hc Hh) as E; [done|done|]. injection E as <- <-.
  split; [done|]. exists (next r). split; [done|].
  destruct (s_stays T p (c, r)) eqn:Ew; [|split; [by apply Hk|done]].
  destruct (Hw r Ew) as [-> Hkr]. split; [|done].
  apply (typed_head T p _ _ q); [|by apply (typed_event T p R q c k ph next)].
  intros t Ht. by rewrite (head_det _ _ _ Ht Hh).
Qed.
End smaller.
