(* ===== verification/Coexec.v ===== *)
(** * Co-execution: two programs and a scheduler

    A [config] is what is left of the two programs and the events so far. A scheduler chooses
    which side is to make its next call; the call happens if the shared object has an answer for
    it, and blocks otherwise. [Lively] is what a session and an object promise each other. Two
    typed programs over a lively object keep their types and the invariant ([reachable_formed]),
    never deadlock ([never_stuck]), and under every fair schedule both return, unless one of them
    stops its process early ([coexec_ends]). *)

From Stdlib Require Import Wellfounded.
From stdpp Require Import relations.
From S2P Require Import Prelude CInt Prog Utility Arguments Benchmarks Joint Session.

Definition upd {B} (p : side) (b : B) (f : side -> B) : side -> B :=
  fun q => if decide (q = p) then b else f q.

Lemma upd_eq {B} p (b : B) f : upd p b f p = b.
Proof. unfold upd. by rewrite decide_True. Qed.

Lemma upd_other {B} p (b : B) f : upd p b f (other p) = f (other p).
Proof. by destruct p. Qed.

Lemma side_cases (p q : side) : q = p \/ q = other p.
Proof. destruct p, q; auto. Qed.

Record config (A : Type) := Config {
  prog_at : side -> prog A;
  events : trace
}.
Arguments Config {A} _ _.
Arguments prog_at {A} _ _.
Arguments events {A} _.

(** ** The machine *)

Section machine.
Context {A S : Type} (O : object S) (s0 : S).

Definition shared_state (cf : config A) : S := final O s0 (events cf).

(** The next call of [p] is answered. *)
Inductive moves (p : side) (cf : config A) : config A -> Prop :=
| moves_call c k r :
    head (prog_at cf p) (Call c k) -> answers O p (shared_state cf) (c, r) ->
    moves p cf (Config (upd p (k r) (prog_at cf)) ((p, (c, r)) :: events cf)).

Definition blocked (p : side) (cf : config A) : Prop := forall cf', ~ moves p cf cf'.

(** The scheduler chooses a side at every moment; a side that is blocked, or has ended, waits. *)
Definition execution (sched : nat -> side) (run : nat -> config A) : Prop :=
  forall n, moves (sched n) (run n) (run (Datatypes.S n)) \/
    (run (Datatypes.S n) = run n /\ blocked (sched n) (run n)).

(** No side is left out for good. *)
Definition fair (sched : nat -> side) : Prop :=
  forall p n, exists d, sched (n + d)%nat = p.

Definition reachable : config A -> config A -> Prop := rtc (fun cf cf' => exists p, moves p cf cf').

Definition returned (p : side) (cf : config A) : Prop := exists a, head (prog_at cf p) (Ret a).

(** Nothing is left to wait for: both sides have returned, or one has stopped its process early. Sound.v
    excludes the second case for the programs of the benchmarks. *)
Definition over (cf : config A) : Prop :=
  (forall p, returned p cf) \/ exists p x, head (prog_at cf p) (Stop x).
End machine.

Lemma execution_reachable {A S} (O : object S) (s0 : S) sched (run : nat -> config A) n :
  execution O s0 sched run -> reachable O s0 (run 0%nat) (run n).
Proof.
  intros H. induction n as [|n IH]; [apply rtc_refl|].
  destruct (H n) as [Hm|[-> _]]; [|done]. eapply rtc_r; [done|]. by eexists.
Qed.

(** ** What a session and an object promise each other *)

Section lively.
Context {Ph S : Type} (O : object S) (T : session Ph).

(** Whatever [p] does next has an answer, and the answer lets it go on. *)
Definition awake (p : side) (s : S) (ph : Ph) : Prop :=
  forall c, s_permits T p ph c = true -> (forall r, s_step T p ph (c, r) <> None) ->
    (exists r, answers O p s (c, r)) /\ forall r, answers O p s (c, r) -> s_stays T p (c, r) = false.

(** An invariant of the object and the phases of the client and of the server. *)
Definition jointly (J : S -> Ph -> Ph -> Prop) (s : S) (ph : side -> Ph) : Prop :=
  J s (ph ClientSide) (ph ServerSide).

Class Lively (J : S -> Ph -> Ph -> Prop) (ended : side -> Ph -> Prop) : Prop := {
  lively_step p c r s ph ph' :
    jointly J s ph -> answers O p s (c, r) -> s_permits T p (ph p) c = true ->
    s_step T p (ph p) (c, r) = Some ph' -> jointly J (effect O p (c, r) s) (upd p ph' ph);
  lively_stays p ev s : s_stays T p ev = true -> effect O p ev s = s;
  lively_go s ph :
    jointly J s ph -> (forall p, awake p s (ph p)) \/ exists p, ~ ended p (ph p) /\ awake p s (ph p)
}.
End lively.
Arguments lively_step {Ph S O T J ended Lively} p c r s ph ph' _ _ _ _.
Arguments lively_stays {Ph S O T J ended Lively} p ev s _.
Arguments lively_go {Ph S O T J ended Lively} s ph _.

Section coexec.
Context {Ph S A : Type} (O : object S) (s0 : S) (T : session Ph).
Context (J : S -> Ph -> Ph -> Prop) (ended : side -> Ph -> Prop) {L : Lively O T J ended}.
(** What the sides promise of their results. *)
Context (Q : side -> A -> Ph -> Prop).

Local Abbreviation config := (config A).
Local Abbreviation moves := (moves (A := A) O s0).
Local Abbreviation state := (shared_state (A := A) O s0).

(** [t]: the next statements. *)
Record formed (cf : config) (ph : side -> Ph) (t : side -> prog A) : Prop := {
  formed_phase p : phase_of (s_start T) (s_step T) p (proj p (events cf)) = Some (ph p);
  formed_typed p : typed T p (Q p) (ph p) (prog_at cf p);
  formed_head p : head (prog_at cf p) (t p);
  formed_joint : jointly J (state cf) ph;
  formed_coherent : coherent O s0 (events cf)
}.

(** *** Preservation *)

Definition lower (x y : (side -> Ph) * (side -> prog A)) : Prop :=
  exists p, below T p (x.1 p, x.2 p) (y.1 p, y.2 p) /\
    x.1 (other p) = y.1 (other p) /\ x.2 (other p) = y.2 (other p).

Lemma proj_self p ev g : proj p ((p, ev) :: g) = ev :: proj p g.
Proof. by destruct p. Qed.

Lemma proj_other p ev g : proj (other p) ((p, ev) :: g) = proj (other p) g.
Proof. by destruct p. Qed.

Lemma upd_same {B} p (f : side -> B) q : upd p (f p) f q = f q.
Proof. destruct (side_cases p q) as [-> | ->]; by rewrite ?upd_eq, ?upd_other. Qed.

(** The configuration after a call of [p], whose next statement is then [u]. *)
Lemma formed_put p cf ph t c k r ph' u :
  formed cf ph t -> answers O p (state cf) (c, r) -> s_permits T p (ph p) c = true ->
  s_step T p (ph p) (c, r) = Some ph' -> typed T p (Q p) ph' (k r) -> head (k r) u ->
  formed (Config (upd p (k r) (prog_at cf)) ((p, (c, r)) :: events cf)) (upd p ph' ph) (upd p u t).
Proof.
  intros F Ha Hp Hs Ht Hu. split; cbn [prog_at events].
  - intros q. destruct (side_cases p q) as [-> | ->].
    + rewrite upd_eq, proj_self. cbn [phase_of]. by rewrite (formed_phase _ _ _ F p).
    + rewrite proj_other, upd_other. apply (formed_phase _ _ _ F).
  - intros q. destruct (side_cases p q) as [-> | ->]; rewrite ?upd_eq, ?upd_other; [done|].
    apply (formed_typed _ _ _ F).
  - intros q. destruct (side_cases p q) as [-> | ->]; rewrite ?upd_eq, ?upd_other; [done|].
    apply (formed_head _ _ _ F).
  - exact (lively_step p c r _ ph ph' (formed_joint _ _ _ F) Ha Hp Hs).
  - split; [apply (formed_coherent _ _ _ F)|done].
Qed.

(** A move keeps everything well formed; it makes the process smaller, or changes nothing. *)
Lemma formed_move p cf cf' ph t :
  formed cf ph t -> moves p cf cf' ->
  (exists ph' t', formed cf' ph' t' /\ lower (ph', t') (ph, t)) \/
  (exists c k r, t p = Call c k /\ answers O p (state cf) (c, r) /\ s_stays T p (c, r) = true) /\
    formed cf' ph t /\ state cf' = state cf.
Proof.
  intros F. destruct 1 as [c k r Hh Ha].
  destruct (typed_next T p _ _ _ c k r (formed_typed _ _ _ F p) Hh) as (Hp & ph' & Hs & Ht & Hw).
  pose proof (head_det _ _ _ (formed_head _ _ _ F p) Hh) as Et.
  destruct (typed_shape T _ _ _ _ Ht) as (t' & Ht' & _).
  pose proof (fun u => formed_put p cf ph t c k r ph' u F Ha Hp Hs Ht) as F'.
  destruct (s_stays T p (c, r)) eqn:Ew.
  - right. split; [by exists c, k, r|]. destruct (Hw eq_refl) as [-> Hk].
    assert (state (Config (upd p (k r) (prog_at cf)) ((p, (c, r)) :: events cf)) = state cf) as Es
      by exact (lively_stays p (c, r) (state cf) Ew).
    split; [|exact Es]. destruct (F' _ Hk) as [F1 F2 F3 F4 F5].
    rewrite <- Et in F3. pose proof (upd_same p ph) as E1. pose proof (upd_same p t) as E2.
    split; [intros q; rewrite <- E1; apply F1|intros q; rewrite <- E1; apply F2
      |intros q; rewrite <- E2; apply F3|unfold jointly in *; by rewrite !E1 in F4|exact F5].
  - left. exists (upd p ph' ph), (upd p t' t). split; [by apply F'|]. exists p. cbn.
    rewrite !upd_eq, !upd_other. split; [|done]. by exists c, k, r.
Qed.

(** *** Reachable configurations *)

Definition well_formed (cf : config) : Prop := exists ph t, formed cf ph t.

Lemma well_formed_move p cf cf' : well_formed cf -> moves p cf cf' -> well_formed cf'.
Proof.
  intros (ph & t & F) Hm. destruct (formed_move _ _ _ _ _ F Hm) as [(ph' & t' & F' & _)|(_ & F' & _)];
    by do 2 eexists.
Qed.

Lemma reachable_formed cf cf' : well_formed cf -> reachable O s0 cf cf' -> well_formed cf'.
Proof. intros H. induction 1 as [|cf1 cf2 cf3 [p Hm]]; [done|]. by eapply IHrtc, well_formed_move. Qed.

(** Two typed programs at the start. *)
Lemma formed_start (progs : side -> prog A) :
  (forall p, typed T p (Q p) (s_start T p) (progs p)) -> jointly J s0 (s_start T) ->
  well_formed (Config progs []).
Proof.
  intros Ht HJ.
  destruct (typed_shape T _ _ _ _ (Ht ClientSide)) as (tc & Hc & _).
  destruct (typed_shape T _ _ _ _ (Ht ServerSide)) as (ts & Hs & _).
  exists (s_start T), (fun p => match p with ClientSide => tc | ServerSide => ts end).
  split; cbn; [by intros []|done|by intros []|done|done].
Qed.

(** A side that has returned keeps the promise of its type. *)
Lemma formed_returned cf ph t p a :
  formed cf ph t -> head (prog_at cf p) (Ret a) -> Q p a (ph p).
Proof.
  intros F Ha. destruct (typed_shape T _ _ _ _ (formed_typed _ _ _ F p)) as (u & Hu & Hcase).
  rewrite (head_det _ _ _ Hu Ha) in Hcase. by destruct Hcase as [(b & [= <-] & ?)|[[]|(? & ? & ?)]].
Qed.

(** *** Progress *)

Context (HQ : forall p a ph, Q p a ph -> ended p ph).

Lemma awake_moves p cf ph t c k :
  formed cf ph t -> t p = Call c k -> awake O T p (state cf) (ph p) ->
  (exists cf', moves p cf cf') /\ forall r, answers O p (state cf) (c, r) -> s_stays T p (c, r) = false.
Proof.
  intros F Et Ha. pose proof (formed_head _ _ _ F p) as Hh. rewrite Et in Hh.
  destruct (typed_next T p _ _ _ c k (rret 0) (formed_typed _ _ _ F p) Hh) as [Hp _].
  destruct (Ha c Hp) as [[r Hr] Hst].
  { intros r. destruct (typed_next T p _ _ _ c k r (formed_typed _ _ _ F p) Hh) as (_ & ph' & -> & _). done. }
  split; [|done]. eexists. by apply (moves_call O s0 p cf c k r).
Qed.

(** Unless all is over, a side is awake, and makes a call. *)
Lemma someone_awake cf ph t :
  formed cf ph t -> over cf \/ exists p c k, t p = Call c k /\ awake O T p (state cf) (ph p).
Proof.
  intros F.
  assert (forall p, (exists a, t p = Ret a /\ ended p (ph p)) \/ (exists x, t p = Stop x) \/
    exists c k, t p = Call c k) as Hs.
  { intros p. destruct (typed_shape T _ _ _ _ (formed_typed _ _ _ F p)) as (u & Hu & Hcase).
    rewrite (head_det _ _ _ (formed_head _ _ _ F p) Hu).
    destruct Hcase as [(a & -> & Ha)|[?|?]]; [left|auto..]. eauto. }
  assert (forall p, (exists a, t p = Ret a /\ ended p (ph p)) \/ over cf \/ exists c k, t p = Call c k) as Hs'.
  { intros p. destruct (Hs p) as [?|[[x E]|?]]; [by left|right; left; right|by auto].
    exists p, x. rewrite <- E. apply (formed_head _ _ _ F). }
  destruct (lively_go (state cf) ph (formed_joint _ _ _ F)) as [Ha|(p & Hp & Ha)].
  - destruct (Hs' ClientSide) as [(a & Ec & _)|[?|(c & k & Ec)]]; [|by left|right; by eauto 6].
    destruct (Hs' ServerSide) as [(b & Es & _)|[?|(c & k & Es)]]; [|by left|right; by eauto 6].
    left. left. intros []; eexists; [rewrite <- Ec|rewrite <- Es]; apply (formed_head _ _ _ F).
  - destruct (Hs' p) as [(a & _ & He)|[?|(c & k & Ec)]]; [done|by left|right; by eauto 6].
Qed.

Lemma never_stuck cf : well_formed cf -> over cf \/ exists p cf', moves p cf cf'.
Proof.
  intros (ph & t & F). destruct (someone_awake _ _ _ F) as [?|(p & c & k & Et & Ha)]; [by left|right].
  exists p. by eapply awake_moves.
Qed.

(** *** Termination *)

Section schedule.
Context (sched : nat -> side) (run : nat -> config).
Context (Hfair : fair sched) (Hrun : execution O s0 sched run).

(** The next turn of a side that is awake makes one of the two smaller. *)
Lemma turn_lower d n p ph t c k :
  formed (run n) ph t -> t p = Call c k -> awake O T p (state (run n)) (ph p) -> sched (n + d)%nat = p ->
  exists m ph' t', formed (run m) ph' t' /\ lower (ph', t') (ph, t).
Proof.
  revert n. induction d as [|d IH]; intros n F Et Ha Hd.
  - rewrite Nat.add_0_r in Hd. destruct (awake_moves p _ _ _ _ _ F Et Ha) as [[cf' Hm] Hst].
    destruct (Hrun n) as [Hr|[_ Hb]]; rewrite Hd in *; [|by destruct (Hb cf')].
    destruct (formed_move _ _ _ _ _ F Hr) as [?|((c' & k' & r & Et' & Hr' & Hs) & _)]; [by eexists|].
    rewrite Et in Et'. injection Et' as <- <-. by rewrite Hst in Hs.
  - rewrite <- Nat.add_succ_comm in Hd.
    destruct (Hrun n) as [Hr|[Hr _]].
    + destruct (formed_move _ _ _ _ _ F Hr) as [?|(_ & F' & Es)]; [by eexists|].
      apply (IH (Datatypes.S n)); [done|done|by rewrite Es|done].
    + apply (IH (Datatypes.S n)); rewrite ?Hr; done.
Qed.

Lemma lower_acc ph t cf : formed cf ph t -> Acc lower (ph, t).
Proof.
  intros F.
  pose proof (typed_acc T _ _ _ _ _ (formed_typed _ _ _ F ClientSide) (formed_head _ _ _ F ClientSide)) as HC.
  pose proof (typed_acc T _ _ _ _ _ (formed_typed _ _ _ F ServerSide) (formed_head _ _ _ F ServerSide)) as HS.
  clear F. remember (ph ClientSide, t ClientSide) as xc eqn:Ec. remember (ph ServerSide, t ServerSide) as xs eqn:Es.
  revert ph t xs HS Ec Es. induction HC as [xc HC IHc]. intros ph t xs HS. revert ph t.
  induction HS as [xs HS IHs]. intros ph t -> ->. constructor. intros [ph' t'] ([] & Hb & E1 & E2); cbn in *.
  - eapply IHc; [exact Hb|by constructor|done|by rewrite E1, E2].
  - eapply IHs; [exact Hb|by rewrite E1, E2|done].
Qed.

Theorem coexec_ends : well_formed (run 0%nat) -> exists n, over (run n) /\ well_formed (run n).
Proof.
  intros (ph & t & F). pose proof (lower_acc _ _ _ F) as Hacc. remember (ph, t) as x eqn:E.
  revert ph t E F. generalize 0%nat.
  induction Hacc as [x _ IH]. intros n ph t -> F.
  destruct (someone_awake _ _ _ F) as [?|(p & c & k & Et & Ha)]; [exists n; split; [done|by do 2 eexists]|].
  destruct (Hfair p n) as [d Hd].
  destruct (turn_lower d n p ph t c k F Et Ha Hd) as (m & ph' & t' & F' & Hl).
  by apply (IH (ph', t') Hl m ph' t').
Qed.
End schedule.
End coexec.

(** ** The machine as a program *)

Section play.
Context {A S : Type} (O : object S) (s0 : S).
(** Answers to the calls that do not block, and enough fuel for the loops without a call. *)
Context (ask : side -> S -> call -> option resp) (fuel : nat).
Context (ask_answers : forall p s c r, ask p s c = Some r -> answers O p s (c, r)).
Context (ask_blocked : forall p s c r, ask p s c = None -> ~ answers O p s (c, r)).
Context (sched : nat -> side).

(** One turn of [p]; [None]: out of fuel. *)
Definition turn (p : side) (cf : config A) : option (config A) :=
  match find_head fuel (prog_at cf p) with
  | None => None
  | Some (Call c k) =>
      match ask p (shared_state O s0 cf) c with
      | Some r => Some (Config (upd p (k r) (prog_at cf)) ((p, (c, r)) :: events cf))
      | None => Some cf
      end
  | Some _ => Some cf
  end.

Fixpoint play (cf : config A) (n : nat) : config A :=
  match n with
  | Datatypes.O => cf
  | Datatypes.S n => let cf := play cf n in default cf (turn (sched n) cf)
  end.

Definition is_over (cf : config A) (p : side) : bool :=
  match find_head fuel (prog_at cf p) with Some (Ret _) | Some (Stop _) => true | _ => false end.

(** [N] turns from the moment [n], after which both sides have ended. *)
Fixpoint plays (n N : nat) (cf : config A) : bool :=
  match N with
  | Datatypes.O => is_over cf ClientSide && is_over cf ServerSide
  | Datatypes.S N => match turn (sched n) cf with Some cf' => plays (Datatypes.S n) N cf' | None => false end
  end.

Lemma turn_step p cf cf' :
  turn p cf = Some cf' -> moves O s0 p cf cf' \/ cf' = cf /\ blocked O s0 p cf.
Proof.
  unfold turn. intros H. destruct (find_head fuel (prog_at cf p)) as [q|] eqn:E; [|done].
  apply find_head_sound in E. destruct q as [a|x|c k|]; simplify_eq.
  - right. split; [done|]. destruct 1 as [c' k' r Hh _]. by pose proof (head_det _ _ _ E Hh).
  - right. split; [done|]. destruct 1 as [c' k' r Hh _]. by pose proof (head_det _ _ _ E Hh).
  - destruct (ask p _ c) as [r|] eqn:Ea; simplify_eq; [left; by econstructor; [|apply ask_answers]|right].
    split; [done|]. destruct 1 as [c' k' r Hh Hr]. pose proof (head_det _ _ _ E Hh) as Eq.
    injection Eq as <- <-. by apply (ask_blocked _ _ _ r Ea).
  - right. split; [done|]. destruct 1 as [c' k' r Hh _]. by pose proof (head_det _ _ _ E Hh).
Qed.

Lemma is_over_turn p cf : is_over cf p = true -> turn p cf = Some cf.
Proof. unfold is_over, turn. by destruct (find_head fuel (prog_at cf p)) as [[]|]. Qed.

(** Every turn has enough fuel. *)
Lemma play_execution cf :
  (forall n, turn (sched n) (play cf n) <> None) -> execution O s0 sched (play cf).
Proof.
  intros H n. specialize (H n). cbn. destruct (turn (sched n) (play cf n)) as [cf'|] eqn:E; [|done].
  by apply turn_step.
Qed.

Lemma play_reachable cf n : reachable O s0 cf (play cf n).
Proof.
  induction n as [|n IH]; [apply rtc_refl|]. cbn.
  destruct (turn (sched n) (play cf n)) as [cf'|] eqn:E; [|done]. cbn.
  destruct (turn_step _ _ _ E) as [Hm|[-> _]]; [|done]. eapply rtc_r; [done|by eexists].
Qed.

Lemma turn_call p cf c k r :
  find_head fuel (prog_at cf p) = Some (Call c k) -> ask p (shared_state O s0 cf) c = Some r ->
  turn p cf = Some (Config (upd p (k r) (prog_at cf)) ((p, (c, r)) :: events cf)).
Proof using Type. unfold turn. by intros -> ->. Qed.

Lemma turn_blocked p cf c k :
  find_head fuel (prog_at cf p) = Some (Call c k) -> ask p (shared_state O s0 cf) c = None ->
  turn p cf = Some cf.
Proof using Type. unfold turn. by intros -> ->. Qed.

(** When both sides have ended nothing happens any more. *)
Lemma over_settles cf n d :
  (forall p, is_over (play cf n) p = true) -> play cf (n + d) = play cf n.
Proof.
  intros H. induction d as [|d IH]; [by rewrite Nat.add_0_r|]. rewrite Nat.add_succ_r. cbn.
  by rewrite IH, is_over_turn.
Qed.

(** The turns after the moment [n]; after [N] of them both sides have ended. *)
Lemma plays_turns cf n N :
  plays n N (play cf n) = true ->
  (forall d, exists cf', turn (sched (n + d)%nat) (play cf (n + d)%nat) = Some cf') /\
  forall p, is_over (play cf (n + N)) p = true.
Proof.
  revert n. induction N as [|N IH]; intros n H; cbn in H.
  - apply andb_prop in H as [Hc Hs]. assert (forall p, is_over (play cf n) p = true) as Ho by by intros [].
    split; [|by rewrite Nat.add_0_r]. intros d. rewrite (over_settles cf n d Ho).
    eexists. by apply is_over_turn.
  - destruct (turn (sched n) (play cf n)) as [cf1|] eqn:E; [|done].
    destruct (IH (Datatypes.S n)) as [Ht Ho]; [cbn; by rewrite E|]. split.
    + intros [|d]; [rewrite Nat.add_0_r; by eexists|]. rewrite <- Nat.add_succ_comm. apply Ht.
    + intros p. rewrite <- Nat.add_succ_comm. apply Ho.
Qed.

Lemma plays_execution N cf : plays 0 N cf = true -> execution O s0 sched (play cf).
Proof.
  intros H. destruct (plays_turns cf 0 N H) as [Ht _]. apply play_execution. intros n.
  destruct (Ht n) as [cf' E]. cbn in E. by rewrite E.
Qed.

(** What holds at the first [N] moments holds at all of them. *)
Lemma plays_always (P : config A -> bool) N cf :
  plays 0 N cf = true -> forallb (fun n => P (play cf n)) (seq 0 (Datatypes.S N)) = true ->
  forall n, P (play cf n) = true.
Proof.
  intros H HP n. destruct (plays_turns cf 0 N H) as [_ Ho]. rewrite forallb_forall in HP.
  destruct (Nat.le_gt_cases n N); [apply HP, in_seq; lia|].
  replace n with (N + (n - N))%nat by lia. rewrite over_settles by exact Ho. apply HP, in_seq. lia.
Qed.
End play.

(** Turn by turn. *)
Definition round_robin (n : nat) : side := if Nat.even n then ClientSide else ServerSide.

Lemma round_robin_fair : fair round_robin.
Proof.
  intros p n. unfold round_robin. destruct (Nat.even n) eqn:E, p.
  - exists 0%nat. by rewrite Nat.add_0_r, E.
  - exists 1%nat. by rewrite Nat.add_1_r, Nat.even_succ, <- Nat.negb_even, E.
  - exists 1%nat. by rewrite Nat.add_1_r, Nat.even_succ, <- Nat.negb_even, E.
  - exists 0%nat. by rewrite Nat.add_0_r, E.
Qed.
