(* ===== verification/Sound.v ===== *)
(** * Programs that do not stop: both sides of a pair return

    [typed] (Session.v) lets a program stop its process at any time. [sound] says that it does not
    stop: from [q] no error exit, no failed assertion and no undefined behaviour can be reached by
    answers in a set [G]. It is a partial judgement, the largest set of programs closed under
    [keeps]; its loop rule needs an invariant and no measure. [coexec_returns] puts the two together:
    programs that are typed and sound return, both of them, under every fair scheduler, if what the
    object answers is in [G] and the system grants what it is asked for ([granted]). *)

From S2P Require Import Prelude CInt Prog Utility Arguments Benchmarks Joint Session Coexec.

(** ** The judgement *)

Section sound.
Context (G : event -> Prop).

(** One step: what the program is, and that what follows it is in [P]. *)
Definition keeps {A} (Q : A -> Prop) (P : prog A -> Prop) (q : prog A) : Prop :=
  match q with
  | Ret a => Q a
  | Stop _ => False
  | Call c k => forall r, G (c, r) -> P (k r)
  | Iter _ _ _ => P (unroll q)
  end.

Definition sound {A} (Q : A -> Prop) (q : prog A) : Prop :=
  exists P : prog A -> Prop, P q /\ forall q, P q -> keeps Q P q.

Lemma keeps_mono {A} (Q : A -> Prop) (P P' : prog A -> Prop) q :
  (forall q, P q -> P' q) -> keeps Q P q -> keeps Q P' q.
Proof. intros HP. destruct q; cbn; auto. Qed.

Lemma sound_keeps {A} (Q : A -> Prop) q : sound Q q -> keeps Q (sound Q) q.
Proof. intros (P & Hq & HP). apply (keeps_mono Q P); [|by apply HP]. intros q' H. by exists P. Qed.

(** Coinduction up to the judgement itself. *)
Lemma sound_coind {A} (Q : A -> Prop) (P : prog A -> Prop) q :
  (forall q, P q -> keeps Q (fun q => P q \/ sound Q q) q) -> P q -> sound Q q.
Proof.
  intros HP Hq. exists (fun q => P q \/ sound Q q). split; [by left|]. intros q' [H|H]; [by apply HP|].
  eapply keeps_mono; [|by apply sound_keeps]. by right.
Qed.

Lemma sound_intro {A} (Q : A -> Prop) q : keeps Q (sound Q) q -> sound Q q.
Proof.
  intros H. apply (sound_coind Q (fun q' => q' = q)); [|done]. intros q' ->.
  eapply keeps_mono; [|exact H]. by right.
Qed.

Lemma sound_ret {A} (Q : A -> Prop) a : Q a -> sound Q (Ret a).
Proof. intros H. by apply sound_intro. Qed.

Lemma sound_call {A} (Q : A -> Prop) c k : (forall r, G (c, r) -> sound Q (k r)) -> sound Q (Call c k).
Proof. intros H. by apply sound_intro. Qed.

Lemma sound_bind {A B} (Q : A -> Prop) (R : B -> Prop) (q : prog A) (f : A -> prog B) :
  sound Q q -> (forall a, Q a -> sound R (f a)) -> sound R (bind q f).
Proof.
  intros Hq Hf. apply (sound_coind R (fun t => exists q, sound Q q /\ t = bind q f)); [|by exists q].
  clear q Hq. intros _ (q & Hq%sound_keeps & ->). destruct q as [a|x|c k|]; cbn [bind] in *.
  - eapply keeps_mono; [|by apply sound_keeps, Hf]. by right.
  - done.
  - intros r Hr. left. exists (k r). split; [by apply Hq|done].
  - left. eexists. split; [exact Hq|]. cbn. rewrite bind_assoc. f_equal.
    apply FunctionalExtensionality.functional_extensionality. by intros [].
Qed.

(** A loop with an invariant. *)
Lemma sound_loop {S B} (I : S -> Prop) (body : S -> prog (S + B)) s (Q : B -> Prop) :
  (forall s, I s -> sound (fun r => match r with inl s' => I s' | inr b => Q b end) (body s)) ->
  I s -> sound Q (loop body s).
Proof.
  intros Hb Hs. set (F r := match r with inl s' => Iter body s' Ret | inr b => Ret b end).
  set (P := fun t : prog B => (exists s, I s /\ t = Iter body s Ret) \/
    exists q, sound (fun r => match r with inl s' => I s' | inr b => Q b end) q /\ t = bind q F).
  assert (forall s, I s -> keeps Q (fun q => P q \/ sound Q q) (Iter body s Ret)) as Hi.
  { intros s' Hs'. left. right. exists (body s'). split; [by apply Hb|done]. }
  apply (sound_coind Q P); [|by left; exists s].
  intros _ [(s' & Hs' & ->)|(q & Hq%sound_keeps & ->)]; [by apply Hi|].
  destruct q as [[s'|b]|x|c k|]; cbn [bind] in *; [by apply Hi|done|done| |].
  - intros r Hr. left. right. exists (k r). split; [by apply Hq|done].
  - left. right. eexists. split; [exact Hq|]. cbn. rewrite bind_assoc. f_equal.
    apply FunctionalExtensionality.functional_extensionality. by intros [].
Qed.

(** A [while] loop whose condition makes no call. *)
Lemma sound_while {S} (I : S -> Prop) (b : S -> bool) (body : S -> prog S) s (Q : S -> Prop) :
  (forall s, I s -> b s = false -> Q s) -> (forall s, I s -> b s = true -> sound I (body s)) ->
  I s -> sound Q (while (fun s => Ret (b s)) body s).
Proof.
  intros Hf Ht. apply (sound_loop I). intros s' Hs. cbn. destruct (b s') eqn:E; [|by apply sound_ret, Hf].
  eapply sound_bind; [by apply Ht|]. intros s'' Hs''. by apply sound_ret.
Qed.

Lemma sound_mono {A} (Q R : A -> Prop) q : sound Q q -> (forall a, Q a -> R a) -> sound R q.
Proof.
  intros Hq HQ. apply (sound_coind R (sound Q)); [|done]. intros q' H%sound_keeps.
  destruct q'; cbn in *; auto.
Qed.

(** ** What a sound program shows *)

Lemma sound_head {A} (Q : A -> Prop) q t : sound Q q -> head q t -> sound Q t.
Proof. intros H Hh. induction Hh as [q|q t Hl _ IH]; [done|]. apply IH. apply sound_keeps in H. by destruct q. Qed.

Lemma sound_never_stops {A} (Q : A -> Prop) q x : sound Q q -> ~ head q (Stop x).
Proof. intros H Hh. exact (sound_keeps _ _ (sound_head _ _ _ H Hh)). Qed.

Lemma sound_answer {A} (Q : A -> Prop) q c k r :
  sound Q q -> head q (Call c k) -> G (c, r) -> sound Q (k r).
Proof. intros H Hh. exact (sound_keeps _ _ (sound_head _ _ _ H Hh) r). Qed.

(** ** Statements that cannot go wrong *)

Lemma sound_sys_ c : sound (fun _ => True) (sys_ c).
Proof. apply sound_call. intros r _. by apply sound_ret. Qed.

Lemma sound_when {A} (Q : A -> Prop) b (q : prog unit) (k : unit -> prog A) :
  b = false -> sound Q (k tt) -> sound Q (bind (when b q) k).
Proof. by intros ->. Qed.

Lemma sound_store {A} (Q : A -> Prop) buffer off bytes (k : list Z -> prog A) :
  0 <= off -> off + zlen bytes <= zlen buffer ->
  (forall b, b = ztake off buffer ++ bytes ++ zdrop (off + zlen bytes) buffer -> zlen b = zlen buffer -> sound Q (k b)) ->
  sound Q (bind (store_bytes buffer off bytes) k).
Proof.
  intros H1 H2 Hk. unfold store_bytes. rewrite (proj2 (Z.leb_le _ _) H1), (proj2 (Z.leb_le _ _) H2).
  cbn. apply Hk; [done|]. by apply zlen_store.
Qed.

Lemma sound_load {A} (Q : A -> Prop) buffer off n (k : list Z -> prog A) :
  0 <= off -> 0 <= n -> off + n <= zlen buffer -> sound Q (k (zslice off n buffer)) ->
  sound Q (bind (load_bytes buffer off n) k).
Proof.
  intros H1 H2 H3 Hk. unfold load_bytes.
  by rewrite (proj2 (Z.leb_le _ _) H1), (proj2 (Z.leb_le _ _) H2), (proj2 (Z.leb_le _ _) H3).
Qed.
End sound.

(** ** What the system grants *)

(** Documented answers to the calls that concern one process only: the allocator has memory, the
    clock is readable, signal handlers can be installed, the end of a pipe can be opened as a
    stream, [fwrite] reports how many items it wrote, and the queue can be removed. *)
Definition granted (ev : event) : Prop :=
  match ev.1 with
  | Malloc n => 0 <= n -> zlen (data ev.2) = n
  | TimespecGet => exists t, now_of (nth 0 (data ev.2) 0) (nth 1 (data ev.2) 0) = Ret t
  | Sigaction _ _ _ _ => ret ev.2 = 0
  | Fdopen _ _ => ret ev.2 <> 0
  | Fwrite _ _ _ n => 0 <= ret ev.2 <= Z.max 0 n
  | Msgctl _ _ => ret ev.2 <> -1
  | _ => True
  end.

(** In the whole run. *)
Definition all_granted {A} (run : nat -> config A) : Prop :=
  forall n, Forall (fun e : side * event => granted e.2) (events (run n)).

Lemma plain_granted h c : granted (c, plain h c).
Proof.
  destruct c; try done; cbn.
  - lia.
  - intros. unfold zlen. rewrite length_replicate. lia.
  - eexists. by vm_compute.
Qed.

Section common.
Context (G : event -> Prop) (HG : forall ev, G ev -> granted ev).
Local Abbreviation sound := (sound G).

Lemma sound_malloc {A} (Q : A -> Prop) n (k : list Z -> prog A) :
  0 <= n -> (forall b, zlen b = n -> sound Q (k b)) -> sound Q (bind (malloc n) k).
Proof. intros Hn Hk. cbn. apply sound_call. intros r Hr. apply Hk. by apply (HG _ Hr). Qed.

Lemma sound_now {A} (Q : A -> Prop) (k : Z -> prog A) : (forall t, sound Q (k t)) -> sound Q (bind now k).
Proof.
  intros Hk. unfold now, sys. cbn [bind]. apply sound_call. intros r Hr.
  destruct (HG _ Hr) as [t Ht]. cbn [snd] in Ht. rewrite Ht. apply Hk.
Qed.

Lemma sound_setup_benchmarks {A} (Q : A -> Prop) s (k : Benchmarks -> prog A) :
  (forall b, sound Q (k b)) -> sound Q (bind (setup_benchmarks s) k).
Proof. intros Hk. unfold setup_benchmarks. rewrite bind_assoc. apply sound_now. intros t. apply Hk. Qed.

Lemma sound_start_single {A} (Q : A -> Prop) b (k : Benchmarks -> prog A) :
  (forall b, single_start b <> None -> sound Q (k b)) -> sound Q (bind (start_single b) k).
Proof. intros Hk. unfold start_single. rewrite bind_assoc. apply sound_now. intros t. by apply Hk. Qed.

(** [single_start] has been assigned. *)
Lemma sound_benchmark {A} (Q : A -> Prop) b (k : Benchmarks -> prog A) :
  single_start b <> None -> (forall b, sound Q (k b)) -> sound Q (bind (benchmark b) k).
Proof.
  intros Hb Hk. unfold benchmark. rewrite bind_assoc. apply sound_now. intros t.
  destruct (single_start b); [apply Hk|done].
Qed.

Lemma sound_evaluate {A} (Q : A -> Prop) b args (k : unit -> prog A) :
  0 < count args -> sound Q (k tt) -> sound Q (bind (evaluate b args) k).
Proof.
  intros Hc Hk. unfold evaluate. rewrite (proj2 (Z.ltb_lt _ _) Hc). cbn [assert_ bind]. rewrite bind_assoc.
  apply sound_now. intros t. cbn. by do 2 (apply sound_call; intros ? _).
Qed.
End common.

(** ** Both sides return *)

Section returns.
Context {Ph S A : Type} (O : object S) (s0 : S) (T : session Ph).
Context (J : S -> Ph -> Ph -> Prop) (ended : side -> Ph -> Prop) {L : Lively O T J ended}.
Context (Q : side -> A -> Ph -> Prop) (HQ : forall p a ph, Q p a ph -> ended p ph).
(** The answers of the object, in the states the two processes can meet. *)
Context (G : side -> event -> Prop).
Context (Hanswers : forall p c r s ph ph',
  jointly J s ph -> answers O p s (c, r) -> s_permits T p (ph p) c = true ->
  s_step T p (ph p) (c, r) = Some ph' -> granted (c, r) -> G p (c, r)).

Local Abbreviation well_formed := (well_formed O s0 T J Q).

(** Neither process has stopped, nor will. *)
Definition all_sound (cf : config A) : Prop := forall p, sound (G p) (fun _ => True) (prog_at cf p).

Lemma sound_move p cf cf' :
  well_formed cf -> all_sound cf -> moves O s0 p cf cf' ->
  Forall (fun e : side * event => granted e.2) (events cf') -> all_sound cf'.
Proof.
  intros (ph & t & F) Hs Hm Hg q. destruct Hm as [c k r Hh Ha]. cbn [prog_at events] in *.
  destruct (side_cases p q) as [-> | ->]; rewrite ?upd_eq, ?upd_other; [|apply Hs].
  destruct (typed_next T p _ _ _ c k r (formed_typed _ _ _ _ _ _ _ _ F p) Hh) as (Hp & ph' & Hst & _ & _).
  apply (sound_answer _ _ (prog_at cf p) c); [apply Hs|done|].
  eapply Hanswers; [apply (formed_joint _ _ _ _ _ _ _ _ F)|done..|]. by apply Forall_inv in Hg.
Qed.

Theorem coexec_returns (progs : side -> prog A) sched run :
  (forall p, typed T p (Q p) (s_start T p) (progs p)) -> jointly J s0 (s_start T) ->
  (forall p, sound (G p) (fun _ => True) (progs p)) ->
  fair sched -> execution O s0 sched run -> run 0%nat = Config progs [] -> all_granted run ->
  exists n, forall p, returned p (run n).
Proof.
  intros Ht HJ Hs Hf He E Hg.
  assert (well_formed (run 0%nat)) as W0 by (rewrite E; by apply (formed_start O s0 T J ended)).
  destruct (coexec_ends O s0 T J ended Q HQ sched run Hf He W0) as (n & Hn & _). exists n.
  destruct Hn as [Hn|(p & x & Hx)]; [done|]. exfalso.
  enough (forall n, all_sound (run n)) as H by exact (sound_never_stops _ _ _ x (H n p) Hx).
  clear n p x Hx. intros n.
  induction n as [|n IH]; [rewrite E; exact Hs|]. destruct (He n) as [Hm|[-> _]]; [|done].
  eapply sound_move; [|exact IH|exact Hm|apply Hg].
  eapply (reachable_formed O s0 T J ended Q); [exact W0|]. by apply (execution_reachable _ _ sched).
Qed.
End returns.

(** A machine whose answers are granted. *)
Lemma play_granted {A S} (O : object S) s0 ask fuel sched (cf : config A) :
  (forall p s c r, ask p s c = Some r -> granted (c, r)) -> events cf = [] ->
  all_granted (play O s0 ask fuel sched cf).
Proof.
  intros Ha He n. induction n as [|n IH]; [cbn; by rewrite He|]. cbn. unfold turn.
  destruct (find_head fuel _) as [[| |c k|]|]; try done. destruct (ask _ _ c) as [r|] eqn:E; [|done].
  cbn. constructor; [|done]. by eapply Ha.
Qed.
