(* ===== verification/Exchange.v ===== *)
(** * What a benchmark over messages promises: rounds of a request and a reply

    The specification is a machine that is given one message at a time and delivers it unchanged: in
    each of its rounds the side [first] sends, the other side receives, answers, and [first]
    receives the answer. [simulates] is the proof rule: an observation of the events of two
    programs, and a relation between their object, their phases and the stages of the machine that
    single events keep, make every co-execution a behaviour of it. *)

From S2P Require Import Prelude CInt Prog Utility Arguments Benchmarks Joint Session Coexec.

Inductive label :=
| Sends (p : side) (bytes : list Z)
| Receives (p : side) (bytes : list Z).

(** [Between n]: [n] rounds are over. *)
Inductive stage :=
| Between (n : Z)
| Request (n : Z) (bytes : list Z)
| Working (n : Z)
| Reply (n : Z) (bytes : list Z).

Section spec.
Context (first : side) (limit : Z).

Definition advance (st : stage) (l : label) : option stage :=
  match st, l with
  | Between n, Sends p b => if bool_decide (p = first) && (n <? limit) then Some (Request n b) else None
  | Request n b, Receives p b' => if bool_decide (p = other first /\ b' = b) then Some (Working n) else None
  | Working n, Sends p b => if bool_decide (p = other first) then Some (Reply n b) else None
  | Reply n b, Receives p b' => if bool_decide (p = first /\ b' = b) then Some (Between (n + 1)) else None
  | _, _ => None
  end.

Lemma advance_request n b : n < limit -> advance (Between n) (Sends first b) = Some (Request n b).
Proof. intros Hn. cbn. by rewrite bool_decide_true, (proj2 (Z.ltb_lt _ _)). Qed.

Lemma advance_working n b : advance (Request n b) (Receives (other first) b) = Some (Working n).
Proof. cbn. by rewrite bool_decide_true. Qed.

Lemma advance_reply n b : advance (Working n) (Sends (other first) b) = Some (Reply n b).
Proof. cbn. by rewrite bool_decide_true. Qed.

Lemma advance_between n b : advance (Reply n b) (Receives first b) = Some (Between (n + 1)).
Proof. cbn. by rewrite bool_decide_true. Qed.

(** The stage after the labels, oldest first; [None]: they are no behaviour of the machine. *)
Fixpoint behaves (st : stage) (ls : list label) : option stage :=
  match ls with
  | [] => Some st
  | l :: ls => match advance st l with Some st' => behaves st' ls | None => None end
  end.

Lemma behaves_snoc st ls l st' st'' :
  behaves st ls = Some st' -> advance st' l = Some st'' -> behaves st (ls ++ [l]) = Some st''.
Proof.
  revert st. induction ls as [|l1 ls IH]; cbn; intros st.
  - intros [= ->] ->. done.
  - destruct (advance st l1); [apply IH|done].
Qed.

(** A message is delivered once, unchanged, and before the next one is sent. *)
Lemma delivered st ls st' p b :
  behaves st (ls ++ [Receives p b]) = Some st' -> ls <> [] ->
  exists ls', ls = ls' ++ [Sends (other p) b].
Proof.
  intros H Hne. destruct ls as [|l ls _] using rev_ind; [done|]. clear Hne. exists ls. f_equal. f_equal.
  revert st H. induction ls as [|l1 ls IH]; intros st H.
  - cbn in H. destruct (advance st l) as [st1|] eqn:E; [|done].
    destruct st, l, st1; cbn in *; repeat case_match; simplify_eq; try done; bool_to_prop;
      repeat case_bool_decide; destruct_and?; simplify_eq; try done.
    by destruct first.
  - cbn in H. destruct (advance st l1); [by eapply IH|done].
Qed.
End spec.

(** ** Simulation *)

Section simulation.
Context {Ph S A : Type} (O : object S) (s0 : S) (T : session Ph).
Context (J : S -> Ph -> Ph -> Prop) (ended : side -> Ph -> Prop) {L : Lively O T J ended}.
Context (Q : side -> A -> Ph -> Prop).
Context (observe : side -> event -> option label) (first : side) (limit : Z).
Context (R : S -> Ph -> Ph -> stage -> Prop).

(** One event: the machine takes the step that is observed, or none. *)
Definition follows_spec (st : stage) (o : option label) (P : stage -> Prop) : Prop :=
  match o with
  | None => P st
  | Some l => exists st', advance first limit st l = Some st' /\ P st'
  end.

Context (R_step : forall p c r s ph ph' st,
  jointly J s ph -> R s (ph ClientSide) (ph ServerSide) st -> answers O p s (c, r) ->
  s_permits T p (ph p) c = true -> s_step T p (ph p) (c, r) = Some ph' ->
  follows_spec st (observe p (c, r))
    (R (effect O p (c, r) s) (upd p ph' ph ClientSide) (upd p ph' ph ServerSide))).

(** What is observed of a trace, oldest first. *)
Fixpoint behaviour (g : trace) : list label :=
  match g with
  | [] => []
  | (p, ev) :: g => behaviour g ++ match observe p ev with Some l => [l] | None => [] end
  end.

(** The events so far are a behaviour of the machine, which is in a stage that fits. *)
Definition refines (cf : config A) : Prop :=
  exists ph t st, formed O s0 T J Q cf ph t /\
    behaves first limit (Between 0) (behaviour (events cf)) = Some st /\
    R (shared_state O s0 cf) (ph ClientSide) (ph ServerSide) st.

Lemma refines_move p cf cf' : refines cf -> moves O s0 p cf cf' -> refines cf'.
Proof.
  intros (ph & t & st & F & Hb & HR). destruct 1 as [c k r Hh Ha].
  destruct (typed_next T p _ _ _ c k r (formed_typed _ _ _ _ _ _ _ _ F p) Hh) as (Hp & ph' & Hs & Ht & _).
  destruct (typed_shape T _ _ _ _ Ht) as (u & Hu & _).
  pose proof (formed_put O s0 T J ended Q p cf ph t c k r ph' u F Ha Hp Hs Ht Hu) as F'.
  pose proof (R_step p c r _ ph ph' st (formed_joint _ _ _ _ _ _ _ _ F) HR Ha Hp Hs) as Hf.
  exists (upd p ph' ph), (upd p u t). destruct (observe p (c, r)) as [l|] eqn:E; cbn in Hf.
  - destruct Hf as (st' & Hadv & HR'). exists st'. split_and!; [done| |done].
    cbn [events behaviour]. rewrite E. by eapply behaves_snoc.
  - exists st. split_and!; [done| |done]. cbn [events behaviour]. by rewrite E, app_nil_r.
Qed.

Theorem simulates (progs : side -> prog A) cf :
  (forall p, typed T p (Q p) (s_start T p) (progs p)) -> jointly J s0 (s_start T) ->
  R s0 (s_start T ClientSide) (s_start T ServerSide) (Between 0) ->
  reachable O s0 (Config progs []) cf -> refines cf.
Proof.
  intros Ht HJ HR H.
  assert (refines (Config progs [])) as H0.
  { destruct (typed_shape T _ _ _ _ (Ht ClientSide)) as (tc & Hc & _).
    destruct (typed_shape T _ _ _ _ (Ht ServerSide)) as (ts & Hs & _).
    exists (s_start T), (fun p => match p with ClientSide => tc | ServerSide => ts end), (Between 0).
    split_and!; [|done|done]. split; cbn; [by intros []|done|by intros []|done|done]. }
  remember (Config progs []) as cf0. clear Heqcf0.
  induction H as [|cf1 cf2 cf3 [p Hm] _ IH]; [done|]. by eapply IH, refines_move.
Qed.
End simulation.
