(* ===== verification/Guard.v ===== *)
(** * Two processes that pass a turn through one byte of shared memory

    The benchmarks shm and mmap synchronise by spinning on a guard byte: each side waits for
    its own letter, works on the shared data, and stores the letter of the other side. [step]
    is the protocol of one side, an automaton on its events. Two processes that follow it,
    interleaved in any way over one memory ([coherent]), exclude each other, take turns, and
    read what the other one wrote ([takes_turns]). *)

From S2P Require Import Prelude CInt Prog Utility Arguments Benchmarks Joint.
From S2P Require Import Session Coexec Sound Exchange.

(** The letters 'c' (the client may go), 's' (the server may go) and the '*' of the messages. *)
Definition CLIENT_TURN : Z := 99.
Definition SERVER_TURN : Z := 115.
Definition STAR : Z := 42.

(** [IPC_CREAT | 0666]. *)
Definition SEGMENT_FLAGS : Z := Z.lor IPC_CREAT 438.

Definition mine (p : side) : Z :=
  match p with ClientSide => CLIENT_TURN | ServerSide => SERVER_TURN end.

Definition theirs (p : side) : Z :=
  match p with ClientSide => SERVER_TURN | ServerSide => CLIENT_TURN end.

(** ** Accesses to the shared memory, as the two benchmarks make them *)

(** [while (atomic_load(guard) != letter);]. *)
Definition spin (guard letter : Z) : prog unit :=
  while (fun _ => c <- sysret (AtomicLoad guard) ;; Ret (negb (c =? letter))) Ret tt.

(** [memset(addr, c, n)]; a negative [int] becomes a size no object has. *)
Definition shared_memset (addr c n : Z) : prog unit :=
  if n <? 0 then undefined OutOfBounds else sys_ (MemWrite addr (replicate (Z.to_nat n) c)).

(** [memcpy(buffer, addr, n)]. *)
Definition shared_memcpy (buffer : list Z) (addr n : Z) : prog (list Z) :=
  if n <? 0 then undefined OutOfBounds
  else r <- sys (MemRead addr n) ;; store_bytes buffer 0 (data r).

(** The loops of [communicate] in the clients and in the servers of shm and mmap, which wait
    and notify in the same way and differ in where the data starts. *)
Section loops.
Context (wait notify : prog unit) (addr len : Z).

(** [for (; args->count > 0; --args->count) { ... }]. *)
Definition client_turns (st : Z * list Z) : prog (Z * list Z) :=
  while (fun st => Ret (0 <? st.1))
    (fun st =>
      wait ;;;
      buffer <- shared_memcpy st.2 addr len ;;
      shared_memset addr STAR len ;;;
      notify ;;;
      Ret (st.1 - 1, buffer)) st.

(** [for (message = 0; message < args->count; ++message) { ... }]. *)
Definition server_turns (count : Z) (st : Z * list Z * Benchmarks) : prog (Z * list Z * Benchmarks) :=
  while (fun st => Ret (st.1.1 <? count))
    (fun st =>
      let '(message, buffer, bench) := st in
      bench <- start_single bench ;;
      shared_memset addr STAR len ;;;
      notify ;;;
      wait ;;;
      buffer <- shared_memcpy buffer addr len ;;
      bench <- benchmark bench ;;
      Ret (message + 1, buffer, bench)) st.
End loops.

(** ** The protocol of one process *)

(** What a process has done in its turn. *)
Inductive work := Unread | HasRead | HasWritten.

(** [Fresh]: a client that has not set the guard yet. [turns]: how often the process has handed
    the turn over. *)
Inductive phase :=
| Fresh
| Waiting (turns : Z)
| Turn (turns : Z) (done : work).

Definition start (p : side) : phase :=
  match p with ClientSide => Fresh | ServerSide => Waiting 0 end.

#[export] Instance work_eq_dec : EqDecision work.
Proof. solve_decision. Defined.

#[export] Instance phase_eq_dec : EqDecision phase.
Proof. solve_decision. Defined.

Definition turns (ph : phase) : Z :=
  match ph with Fresh => 0 | Waiting n | Turn n _ => n end.

Definition in_turn (ph : phase) : Prop := match ph with Turn _ _ => True | _ => False end.

(** Calls that are not about shared memory. *)
Definition private (c : call) : Prop :=
  match c with
  | AtomicLoad _ | AtomicStore _ _ | MemRead _ _ | MemWrite _ _ => False
  | _ => True
  end.

#[export] Instance private_local : Local private.
Proof. by intros []. Qed.

Definition stars (n : Z) : list Z := replicate (Z.to_nat n) STAR.

Lemma map_stars f a n : (forall i, a <= i < a + n -> f i = STAR) -> map f (seqZ a n) = stars n.
Proof.
  intros Hf. symmetry. apply replicate_as_elem_of. rewrite length_map, length_seqZ. split; [done|].
  intros y Hy%list_elem_of_In%in_map_iff. destruct Hy as (i & <- & Hi%list_elem_of_In%elem_of_seqZ).
  by apply Hf.
Qed.

Section region.
(** Where each process sees the region, the offset of the data, its length, and the contents of
    the region at first. *)
Context (base : side -> Z) (off len : Z).

(** The server writes the first message, so it has nothing to read in its first turn. *)
Definition first_work (p : side) (t : Z) : work :=
  match p with ClientSide => Unread | ServerSide => if 0 <? t then Unread else HasRead end.

Definition step (p : side) (ph : phase) (ev : event) : option phase :=
  match ev.1 with
  | AtomicLoad a =>
      match ph with
      | Waiting n =>
          if a =? base p then Some (if ret ev.2 =? mine p then Turn n (first_work p n) else Waiting n) else None
      | _ => None
      end
  | AtomicStore a v =>
      if (a =? base p) && (v =? theirs p) then
        match ph with
        | Fresh => Some (Waiting 0)
        | Turn n HasWritten => Some (Waiting (n + 1))
        | _ => None
        end
      else None
  | MemRead a n =>
      match ph with
      | Turn t Unread =>
          if (a =? base p + off) && (n =? len) then Some (Turn t HasRead) else None
      | _ => None
      end
  | MemWrite a bytes =>
      match ph with
      | Turn t HasRead =>
          if (a =? base p + off) && bool_decide (bytes = stars len) then Some (Turn t HasWritten) else None
      | _ => None
      end
  | _ => Some ph
  end.

Lemma private_step p c r ph : private c -> step p ph (c, r) = Some ph.
Proof. by destruct c. Qed.

Definition safe_private {A B} e p := @safe_own _ start step private private_step e p A B.
Definition safe_private_parse {A} e p argv args :=
  @safe_parse _ start step private private_step e p _ argv args A.

(** ** The session *)

(** A process hands the turn over [limit] times. *)
Context (limit : Z).

Definition guard_permits (p : side) (ph : phase) (c : call) : bool :=
  match c, ph with
  | AtomicLoad _, Waiting n => match p with ClientSide => n <? limit | ServerSide => true end
  | AtomicStore _ _, Turn n _ | MemWrite _ _, Turn n _ => n <? limit
  | _, _ => true
  end.

(** A look at the guard that does not find the own letter. *)
Definition guard_stays (p : side) (ev : event) : bool :=
  match ev.1 with AtomicLoad _ => negb (ret ev.2 =? mine p) | _ => false end.

Definition guard_session : session phase := Session _ start step guard_permits guard_stays.

Definition guard_ended (p : side) (ph : phase) : Prop :=
  ph = match p with ClientSide => Waiting limit | ServerSide => Turn limit HasRead end.

Section process.
Context (p : side) {A : Type} (Q : A -> phase -> Prop).
Local Abbreviation typed := (typed guard_session p).

Lemma private_own {B} (q : prog B) (k : B -> prog A) ph :
  quick private q -> (forall a, typed Q ph (k a)) -> typed Q ph (bind q k).
Proof. apply typed_own; intros; by destruct c. Qed.

Lemma private_last (q : prog A) ph : quick private q -> (forall a, Q a ph) -> typed Q ph q.
Proof. apply typed_last; intros; by destruct c. Qed.

(** Spinning: the next look at the guard, and what follows it. *)
Lemma head_spin g l (k : prog A) :
  exists j, head (spin g l ;;; k) (Call (AtomicLoad g) j) /\
    forall r, j r = if ret r =? l then k else (spin g l ;;; k).
Proof.
  eexists. split; [apply (find_head_sound 2); reflexivity|]. intros r. cbn. by destruct (ret r =? l).
Qed.

Lemma typed_spin (k : prog A) n :
  p = ServerSide \/ n < limit -> typed Q (Turn n (first_work p n)) k ->
  typed Q (Waiting n) (spin (base p) (mine p) ;;; k).
Proof.
  intros Hn Hk. destruct (head_spin (base p) (mine p) k) as (j & Hh & Hj).
  apply (typed_event _ _ _ _ (AtomicLoad (base p)) j _
    (fun r => if ret r =? mine p then Turn n (first_work p n) else Waiting n)); [done| | |intros r..].
  - cbn. destruct p; [|done]. destruct Hn; [done|by apply Z.ltb_lt].
  - intros r. cbn. by rewrite Z.eqb_refl.
  - cbn. rewrite Hj. by destruct (ret r =? mine p).
  - cbn. rewrite Hj. by destruct (ret r =? mine p).
Qed.

Lemma typed_store (k : prog A) n :
  n < limit -> typed Q (Waiting (n + 1)) k ->
  typed Q (Turn n HasWritten) (sys_ (AtomicStore (base p) (theirs p)) ;;; k).
Proof.
  intros Hn Hk. apply (typed_call _ _ _ _ _ _ (fun _ => Waiting (n + 1))); [by apply Z.ltb_lt| |done|done].
  intros r. cbn. by rewrite !Z.eqb_refl.
Qed.

Lemma typed_memset (k : prog A) n :
  n < limit -> typed Q (Turn n HasWritten) k ->
  typed Q (Turn n HasRead) (shared_memset (base p + off) STAR len ;;; k).
Proof.
  intros Hn Hk. unfold shared_memset. destruct (len <? 0); [by apply typed_stop|].
  apply (typed_call _ _ _ _ _ _ (fun _ => Turn n HasWritten)); [by apply Z.ltb_lt| |done|done].
  intros r. cbn. by rewrite Z.eqb_refl, bool_decide_true.
Qed.

Lemma typed_memcpy (k : list Z -> prog A) buffer n :
  (forall b, typed Q (Turn n HasRead) (k b)) ->
  typed Q (Turn n Unread) (bind (shared_memcpy buffer (base p + off) len) k).
Proof.
  intros Hk. unfold shared_memcpy. destruct (len <? 0); [by apply typed_stop|].
  cbn [bind]. apply (typed_call _ _ _ _ _ _ (fun _ => Turn n HasRead)); [done| |done|].
  - intros r. cbn. by rewrite !Z.eqb_refl.
  - intros r. unfold store_bytes. case_match; cbn [bind]; [by apply Hk|by apply typed_stop].
Qed.
End process.

(** Typed code in the middle of a program. *)
Lemma typed_follows e p {A B} (q : prog A) (k : prog B) ph ph1 h (Q : outcome B -> hist -> Prop) :
  typed guard_session p (fun _ ph' => ph' = ph1) ph q -> at_phase start step p ph h ->
  (forall x h', Q (Halted x) h') ->
  (forall h', at_phase start step p ph1 h' -> safe e (follows start step p) h' k Q) ->
  safe e (follows start step p) h (q ;;; k) Q.
Proof.
  intros Hq H HX Hk. apply safe_bind. eapply safe_conseq; [exact (typed_safe guard_session p e _ ph q h Hq H)|].
  intros [a|x] h' _; cbn; [intros (ph' & Hp & ->); by apply Hk|done].
Qed.

(** The two loops keep to the session. *)
Lemma client_turns_typed {A} (k : Z * list Z -> prog A) count buffer (Q : A -> phase -> Prop) :
  limit = Z.max 0 count -> (forall st, typed guard_session ClientSide Q (Waiting limit) (k st)) ->
  typed guard_session ClientSide Q (Waiting 0)
    (bind (client_turns (spin (base ClientSide) CLIENT_TURN)
      (sys_ (AtomicStore (base ClientSide) SERVER_TURN)) (base ClientSide + off) len (count, buffer)) k).
Proof.
  intros Hl Hk. rewrite Hl in Hk. eapply typed_bind; [apply (typed_down _ _ Waiting fst)|].
  - intros [left_ b] n Hn. cbn [fst snd] in *.
    apply (typed_spin ClientSide); [right; lia|]. apply (typed_memcpy ClientSide). intros b'.
    apply (typed_memset ClientSide); [lia|]. apply (typed_store ClientSide); [lia|]. by apply typed_ret.
  - intros st ph ->. apply Hk.
Qed.

Lemma server_turns_typed {A} (k : Z * list Z * Benchmarks -> prog A) count buffer bench
    (Q : A -> phase -> Prop) :
  limit = Z.max 0 count -> (forall st, typed guard_session ServerSide Q (Turn limit HasRead) (k st)) ->
  typed guard_session ServerSide Q (Turn 0 HasRead)
    (bind (server_turns (spin (base ServerSide) SERVER_TURN)
      (sys_ (AtomicStore (base ServerSide) CLIENT_TURN)) (base ServerSide + off) len count
      (0, buffer, bench)) k).
Proof.
  intros Hl Hk. rewrite Hl in Hk.
  eapply typed_bind; [apply (typed_up _ _ (fun n => Turn n HasRead) (fun st => st.1.1)); [done|]|].
  - intros [[n b] bn] Hn. cbn [fst snd] in *. apply private_own; [local_calls|]. intros bn'.
    apply (typed_memset ServerSide); [lia|]. apply (typed_store ServerSide); [lia|].
    apply (typed_spin ServerSide); [by left|]. cbn [first_work]. rewrite (proj2 (Z.ltb_lt _ _)) by lia.
    apply (typed_memcpy ServerSide). intros b'. apply private_own; [local_calls|]. intros bn''.
    by apply typed_ret.
  - intros st ph ->. apply Hk.
Qed.

(** ** The loops do not stop *)

(** A read of the shared memory gives the bytes that were asked for. *)
Definition guard_answer (ev : event) : Prop :=
  granted ev /\ match ev.1 with MemRead _ n => zlen (data ev.2) = Z.max 0 n | _ => True end.

Lemma guard_answer_granted ev : guard_answer ev -> granted ev.
Proof. by intros [??]. Qed.

Section sound.
Context {A : Type} (Q : A -> Prop) (addr : Z).
Context (Hlen : 0 <= len).

Lemma sound_spin g l : sound guard_answer (fun _ => True) (spin g l).
Proof.
  apply (sound_loop _ (fun _ => True)); [|done]. intros s _. cbn. apply sound_call. intros r _. cbn.
  by destruct (negb _); apply sound_ret.
Qed.

Lemma sound_memset (k : unit -> prog A) :
  sound guard_answer Q (k tt) -> sound guard_answer Q (bind (shared_memset addr STAR len) k).
Proof. intros Hk. unfold shared_memset. rewrite (proj2 (Z.ltb_ge _ _) Hlen). by apply sound_call. Qed.

Lemma sound_memcpy buffer (k : list Z -> prog A) :
  zlen buffer = len -> (forall b, zlen b = len -> sound guard_answer Q (k b)) ->
  sound guard_answer Q (bind (shared_memcpy buffer addr len) k).
Proof.
  intros Hb Hk. unfold shared_memcpy. rewrite (proj2 (Z.ltb_ge _ _) Hlen). cbn [bind sys].
  apply sound_call. intros r [_ Hr]. cbn in Hr. apply sound_store; [lia|lia|].
  intros b E1 E2. apply Hk. lia.
Qed.
End sound.

Section sound_loops.
Context {A : Type} (Q : A -> Prop) (wait notify : prog unit) (addr : Z).
Context (Hlen : 0 <= len).
Context (Hwait : sound guard_answer (fun _ => True) wait).
Context (Hnotify : sound guard_answer (fun _ => True) notify).

Lemma sound_client_turns count buffer (k : Z * list Z -> prog A) :
  zlen buffer = len -> (forall st, sound guard_answer Q (k st)) ->
  sound guard_answer Q (bind (client_turns wait notify addr len (count, buffer)) k).
Proof.
  intros Hb Hk. apply (sound_bind _ (fun _ => True)); [|by intros st _; apply Hk].
  apply (sound_while _ (fun st => zlen st.2 = len)); [done| |done]. intros [n b] Hn _. cbn in Hn. cbn [fst snd].
  eapply sound_bind; [exact Hwait|intros [] _]. apply sound_memcpy; [done..|]. intros b' Hb'.
  apply sound_memset; [done|]. eapply sound_bind; [exact Hnotify|intros [] _]. by apply sound_ret.
Qed.

Lemma sound_server_turns count buffer bench (k : Z * list Z * Benchmarks -> prog A) :
  zlen buffer = len -> (forall st, sound guard_answer Q (k st)) ->
  sound guard_answer Q (bind (server_turns wait notify addr len count (0, buffer, bench)) k).
Proof.
  intros Hb Hk. apply (sound_bind _ (fun _ => True)); [|by intros st _; apply Hk].
  apply (sound_while _ (fun st => zlen st.1.2 = len)); [done| |done].
  intros [[n b] bn] Hn _. cbn in Hn. apply (sound_start_single _ guard_answer_granted). intros bn1 H1.
  apply sound_memset; [done|]. eapply sound_bind; [exact Hnotify|intros [] _].
  eapply sound_bind; [exact Hwait|intros [] _]. apply sound_memcpy; [done..|]. intros b' Hb'.
  apply (sound_benchmark _ guard_answer_granted); [done|]. intros bn2. by apply sound_ret.
Qed.
End sound_loops.

(** ** The two together *)

(** The contents of the region, by offset. *)
Definition write_at (i : Z) (bytes : list Z) (m : Z -> Z) : Z -> Z := fun j =>
  if (i <=? j) && (j <? i + zlen bytes) then nth (Z.to_nat (j - i)) bytes 0 else m j.

Definition apply_event (p : side) (ev : event) (m : Z -> Z) : Z -> Z :=
  match ev.1 with
  | AtomicStore a v => write_at (a - base p) [v] m
  | MemWrite a bytes => write_at (a - base p) bytes m
  | _ => m
  end.

Definition answer_ok (p : side) (m : Z -> Z) (ev : event) : Prop :=
  match ev.1 with
  | AtomicLoad a => ret ev.2 = m (a - base p)
  | MemRead a n => data ev.2 = map (fun i => m (a - base p + i)) (seqZ 0 n)
  | _ => True
  end.

(** One memory. The guard is accessed with [atomic_load] and [atomic_store], which are
    sequentially consistent. *)
Definition memory : object (Z -> Z) := Object _ apply_event answer_ok.

(** What a message looks like to the process whose letter is [letter]: stars, except that a
    message that starts at the guard has the letter in front. *)
Definition message (letter : Z) : list Z :=
  map (fun i => if off + i =? 0 then letter else STAR) (seqZ 0 len).

(** One of the two can go on: it has the turn, or its next look at the guard gives it the turn. *)
Definition can_go (m : Z -> Z) (p : side) (ph : phase) : Prop :=
  match ph with Fresh => True | Waiting _ => m 0 = mine p | Turn _ _ => True end.

Definition in_step (m : Z -> Z) (pc ps : phase) : Prop :=
  ~ (in_turn pc /\ in_turn ps) /\ turns pc <= turns ps <= turns pc + 1 /\
  (can_go m ClientSide pc \/ can_go m ServerSide ps).

(** At every moment of the trace the two exclude each other, the server is at most one hand-over
    ahead, and one of them can go on; and every message read is the one the other side wrote. *)
Definition takes_turns (m0 : Z -> Z) (g : trace) : Prop :=
  (forall g1 g2, g = g1 ++ g2 -> exists pc ps,
    phase_of start step ClientSide (proj ClientSide g2) = Some pc /\
    phase_of start step ServerSide (proj ServerSide g2) = Some ps /\
    in_step (final memory m0 g2) pc ps) /\
  (forall p a n r, In (p, (MemRead a n, r)) g -> data r = message (mine p)).

(** *** The invariant *)

Definition starred (m : Z -> Z) : Prop := forall i, off <= i < off + len -> i <> 0 -> m i = STAR.

Inductive joint (m : Z -> Z) : phase -> phase -> Prop :=
| joint_fresh : m 0 <> SERVER_TURN -> joint m Fresh (Waiting 0)
| joint_to_server n :
    0 <= n -> m 0 = SERVER_TURN -> (0 < n -> starred m) -> joint m (Waiting n) (Waiting n)
| joint_server n (w : work) :
    0 <= n -> m 0 <> CLIENT_TURN -> (w <> HasWritten -> m 0 = SERVER_TURN) ->
    (0 < n \/ w = HasWritten -> starred m) -> (w = Unread -> 0 < n) -> joint m (Waiting n) (Turn n w)
| joint_to_client n :
    0 <= n -> m 0 = CLIENT_TURN -> starred m -> joint m (Waiting n) (Waiting (n + 1))
| joint_client n (w : work) :
    0 <= n -> m 0 <> SERVER_TURN -> (w <> HasWritten -> m 0 = CLIENT_TURN) -> starred m ->
    joint m (Turn n w) (Waiting (n + 1)).

Lemma joint_in_step m pc ps : joint m pc ps -> in_step m pc ps.
Proof. unfold in_step. destruct 1; cbn; split_and!; try lia; try (by intros []); auto. Qed.

Context (Hoff : 0 <= off).

Lemma write_guard m b v : write_at (b - b) [v] m 0 = v.
Proof. unfold write_at. by replace (b - b) with 0 by lia. Qed.

Lemma starred_store m b v : starred m -> starred (write_at (b - b) [v] m).
Proof.
  intros H i Hi Hi0. unfold write_at. rewrite zlen_cons, zlen_nil.
  case_match; [bool_to_prop; lia|by apply H].
Qed.

Lemma nth_stars n i : 0 <= i < n -> nth (Z.to_nat i) (stars n) 0 = STAR.
Proof. intros. unfold stars. by rewrite nth_lookup, lookup_replicate_2 by lia. Qed.

Lemma zlen_stars n : zlen (stars n) = Z.max 0 n.
Proof. unfold zlen, stars. rewrite length_replicate. lia. Qed.

Lemma starred_write m b : starred (write_at (b + off - b) (stars len) m).
Proof.
  intros i Hi _. unfold write_at. rewrite zlen_stars.
  rewrite (proj2 (Z.leb_le _ _)), (proj2 (Z.ltb_lt _ _)) by lia. apply nth_stars. lia.
Qed.

Lemma guard_write m b : write_at (b + off - b) (stars len) m 0 = m 0 \/
  write_at (b + off - b) (stars len) m 0 = STAR.
Proof.
  unfold write_at. rewrite zlen_stars. case_match; [right|by left]. bool_to_prop.
  apply nth_stars. lia.
Qed.

Local Abbreviation joint_next := (joint_next memory step joint).

Lemma joint_load p a r m pc ps :
  joint m pc ps -> answer_ok p m (AtomicLoad a, r) -> joint_next p (AtomicLoad a, r) m pc ps.
Proof.
  unfold Joint.joint_next, answer_ok. cbn. intros J Hr. pose proof J as J'.
  assert (CLIENT_TURN <> SERVER_TURN) by done.
  destruct p; destruct J; try done; intros ph' Hs; cbn -[first_work] in Hs;
    match type of Hs with context [a =? ?b] => destruct (Z.eqb_spec a b) as [->|]; [|done] end;
    rewrite Z.sub_diag in Hr; rewrite Hr in Hs;
    match type of Hs with context [m 0 =? ?b] => destruct (Z.eqb_spec (m 0) b) end;
    simplify_eq; try exact J'; try congruence; unfold first_work; try case_match; bool_to_prop;
    constructor; try congruence; try done; intros; destruct_or?; try done; auto.
Qed.

Lemma joint_store p a v r m pc ps :
  joint m pc ps -> joint_next p (AtomicStore a v, r) m pc ps.
Proof.
  unfold Joint.joint_next. cbn. intros J. destruct p; destruct J; intros ph' Hs; cbn in Hs;
    case_match; try done; bool_to_prop; subst; try case_match; simplify_eq;
    constructor; rewrite ?write_guard; try done; try lia; intros; apply starred_store; auto.
Qed.

Lemma joint_write p a bytes r m pc ps :
  joint m pc ps -> joint_next p (MemWrite a bytes, r) m pc ps.
Proof.
  unfold Joint.joint_next. cbn. intros J. destruct p; destruct J; intros ph' Hs; cbn in Hs; try done;
    destruct w; try done;
    case_match; try done; bool_to_prop; case_bool_decide; try done; subst; simplify_eq;
    constructor; try done; try (intros; apply starred_write);
    match goal with |- write_at (?b + _ - _) _ ?m 0 <> _ => destruct (guard_write m b) as [->| ->] end;
    done.
Qed.

Lemma guard_joint_step p ev m pc ps :
  joint m pc ps -> answer_ok p m ev -> joint_next p ev m pc ps.
Proof.
  destruct ev as [c r]. intros J Ha.
  destruct c; try (by destruct p; intros ph' [= <-]);
    [by apply joint_load|by apply joint_store| |by apply joint_write].
  destruct p; destruct J; intros ph' Hs; cbn in Hs; try done; destruct w; try done;
    case_match; try done; injection Hs as <-; constructor; auto; intros; destruct_or?; auto.
Qed.

Lemma message_read m b letter :
  starred m -> m 0 = letter ->
  map (fun i => m (b + off - b + i)) (seqZ 0 len) = message letter.
Proof.
  intros Hs H0. apply map_ext_in. intros i Hi%list_elem_of_In%elem_of_seqZ.
  replace (b + off - b + i) with (off + i) by lia.
  destruct (Z.eqb_spec (off + i) 0) as [->|]; [done|]. apply Hs; lia.
Qed.

Lemma joint_read p a n r m pc ps :
  joint m pc ps -> answer_ok p m (MemRead a n, r) ->
  step p (match p with ClientSide => pc | ServerSide => ps end) (MemRead a n, r) <> None ->
  data r = message (mine p).
Proof.
  cbn. intros J -> Hs. destruct J, p; cbn in Hs; try done; destruct w; try done;
    repeat case_match; try done; bool_to_prop; cbn in *; bool_to_prop; subst;
    apply message_read; auto.
Qed.

Local Abbreviation follows := (follows start step).

Section traces.
Context (m0 : Z -> Z) (H0 : m0 0 <> SERVER_TURN).

Lemma guard_joint_start : joint m0 (start ClientSide) (start ServerSide).
Proof. by constructor. Qed.

Definition guard_trace := joint_trace memory start step joint m0 guard_joint_start guard_joint_step.

Lemma turns_taken g :
  coherent memory m0 g ->
  follows ClientSide (proj ClientSide g) -> follows ServerSide (proj ServerSide g) ->
  takes_turns m0 g.
Proof.
  intros Hg Hc Hs. split.
  - intros g1 g2 ->.
    destruct (joint_always memory start step joint m0 guard_joint_start guard_joint_step _ g1 g2 Hg Hc Hs)
      as (pc & ps & Ec & Es & J); [done|].
    exists pc, ps. split_and!; [done..|by apply joint_in_step].
  - intros p a n r (g1 & g2 & ->)%in_split.
    pose proof (follows_suffix start step ClientSide g1 _ Hc) as Hc1.
    pose proof (follows_suffix start step ServerSide g1 _ Hs) as Hs1.
    apply coherent_suffix in Hg as [Hg Ha].
    pose proof (follows_suffix start step ClientSide [_] g2 Hc1) as Hc2.
    pose proof (follows_suffix start step ServerSide [_] g2 Hs1) as Hs2.
    destruct (guard_trace g2 Hg Hc2 Hs2) as (pc & ps & Ec & Es & J).
    eapply joint_read; [done|done|]. unfold Joint.follows in *.
    destruct p; cbn [proj phase_of] in *; [by rewrite Ec in Hc1|by rewrite Es in Hs1].
Qed.
End traces.

(** ** Under a scheduler *)

Context (Hlimit : 0 <= limit).

(** The server's phase stays within its rounds. *)
Definition in_rounds (ps : phase) : Prop := turns ps <= limit /\ ps <> Turn limit HasWritten.

Definition guard_joint (m : Z -> Z) (pc ps : phase) : Prop := joint m pc ps /\ in_rounds ps.

Lemma in_rounds_step ph c r ph' :
  in_rounds ph -> guard_permits ServerSide ph c = true -> step ServerSide ph (c, r) = Some ph' ->
  in_rounds ph'.
Proof.
  intros [Hl Hw] Hp Hs. destruct c; try (injection Hs as <-; done); cbn in Hs, Hp; destruct ph as [|n|n w];
    cbn in Hl, Hp; try done; try (destruct w; try done); case_match; try done; bool_to_prop;
    injection Hs as <-; unfold first_work; repeat case_match; bool_to_prop; split; cbn; try lia;
    try done; intros [=]; lia.
Qed.

Lemma guard_joint_next p c r m ph ph' :
  jointly guard_joint m ph -> answers memory p m (c, r) -> guard_permits p (ph p) c = true ->
  step p (ph p) (c, r) = Some ph' -> jointly guard_joint (effect memory p (c, r) m) (upd p ph' ph).
Proof.
  unfold jointly. intros (J & Hl) Ha Hp Hs. pose proof (guard_joint_step p (c, r) m _ _ J Ha) as Hj.
  destruct p; (split; [by apply Hj|]); [done|]. by eapply in_rounds_step.
Qed.

(** A process that has the turn, or whose letter is in the guard, goes on; and so does one that has
    ended. *)
Definition may_go (p : side) (m : Z -> Z) (ph : phase) : Prop :=
  match ph with
  | Waiting n => m 0 = mine p \/ p = ClientSide /\ limit <= n
  | Fresh | Turn _ _ => True
  end.

Lemma may_go_awake p m ph : may_go p m ph -> awake memory guard_session p m ph.
Proof.
  intros Hg c Hp Hs. cbn in Hp, Hs.
  destruct c; try (split; [by exists (rret 0)|done]).
  - specialize (Hs (rret 0)). destruct ph as [|n|n w]; try done. cbn in Hs.
    destruct (Z.eqb_spec addr (base p)) as [->|]; [|done].
    destruct Hg as [Hg|[-> Hg]]; [|apply Z.ltb_lt in Hp; lia].
    split; [by exists (rret (m (base p - base p)))|]. cbn. intros r ->.
    by rewrite Z.sub_diag, Hg, Z.eqb_refl.
  - split; [|done]. by exists (rdata 0 (map (fun i => m (addr - base p + i)) (seqZ 0 len0))).
Qed.

#[export] Instance guard_lively : Lively memory guard_session guard_joint guard_ended.
Proof.
  split; [apply guard_joint_next| |].
  - intros p [c r] m. by destruct c.
  - unfold jointly. intros m ph [J [Hl Hw]].
    assert (forall p, ~ guard_ended p (ph p) -> may_go p m (ph p) ->
      (forall q, awake memory guard_session q m (ph q)) \/
      exists q, ~ guard_ended q (ph q) /\ awake memory guard_session q m (ph q)) as Hgo.
    { intros p Hn Hm. right. exists p. split; [done|by apply may_go_awake]. }
    inversion J as [H0 E1 E2|n Hn H0 H1 E1 E2|n w Hn H0 H1 H2 H3 E1 E2|n Hn H0 H1 E1 E2|n w Hn H0 H1 H2 E1 E2];
      rewrite <- E2 in Hl, Hw; cbn in Hl.
    + apply (Hgo ClientSide); by rewrite <- E1.
    + apply (Hgo ServerSide); rewrite <- E2; [done|by left].
    + destruct (decide (Turn n w = Turn limit HasRead)) as [[= -> ->]|Hne].
      * left. intros []; apply may_go_awake; [rewrite <- E1|by rewrite <- E2]. by right.
      * apply (Hgo ServerSide); by rewrite <- E2.
    + apply (Hgo ClientSide); rewrite <- E1; [intros [=]; lia|by left].
    + apply (Hgo ClientSide); by rewrite <- E1.
Qed.

Lemma guard_start m0 : m0 0 <> SERVER_TURN -> jointly guard_joint m0 start.
Proof. intros H0. split; [by apply guard_joint_start|by split]. Qed.

Section programs.
Context {A : Type} (progs : side -> prog A) (m0 : Z -> Z) (H0 : m0 0 <> SERVER_TURN).
Context (Htyped : forall p, typed guard_session p (fun _ => guard_ended p) (start p) (progs p)).

Lemma guard_returns sched run :
  (forall p, sound guard_answer (fun _ => True) (progs p)) ->
  fair sched -> execution memory m0 sched run -> run 0%nat = Config progs [] -> all_granted run ->
  exists n, forall p, returned p (run n).
Proof.
  intros Hs. apply (coexec_returns memory m0 guard_session guard_joint guard_ended (fun p _ => guard_ended p)
    (fun p _ ph H => H) (fun _ => guard_answer)); [|done|by apply guard_start|exact Hs].
  intros p c r m ph ph' _ Ha _ _ Hg. split; [done|]. destruct c; try done. cbn in *. rewrite Ha.
  unfold zlen. rewrite length_map, length_seqZ. lia.
Qed.
End programs.

(** ** Refinement of the exchange, for data that follows the guard *)

Context (Hafter : 1 <= off).

Definition region (m : Z -> Z) : list Z := map (fun i => m (off + i)) (seqZ 0 len).

Definition guard_observe (p : side) (ev : event) : option label :=
  match ev.1 with
  | MemWrite _ b => Some (Sends p b)
  | MemRead _ _ => Some (Receives p (data ev.2))
  | _ => None
  end.

Inductive staged (m : Z -> Z) : phase -> phase -> stage -> Prop :=
| staged_fresh : staged m Fresh (Waiting 0) (Between 0)
| staged_first : staged m (Waiting 0) (Waiting 0) (Between 0)
| staged_to_server n b : 0 <= n -> region m = b -> staged m (Waiting (n + 1)) (Waiting (n + 1)) (Reply n b)
| staged_unread n b : region m = b -> staged m (Waiting (n + 1)) (Turn (n + 1) Unread) (Reply n b)
| staged_between n : staged m (Waiting n) (Turn n HasRead) (Between n)
| staged_written n b : region m = b -> staged m (Waiting n) (Turn n HasWritten) (Request n b)
| staged_to_client n b : region m = b -> staged m (Waiting n) (Waiting (n + 1)) (Request n b)
| staged_request n b : region m = b -> staged m (Turn n Unread) (Waiting (n + 1)) (Request n b)
| staged_working n : staged m (Turn n HasRead) (Waiting (n + 1)) (Working n)
| staged_reply n b : region m = b -> staged m (Turn n HasWritten) (Waiting (n + 1)) (Reply n b).

Lemma region_store b v m : region (write_at (b - b) [v] m) = region m.
Proof.
  apply map_ext_in. intros i Hi%list_elem_of_In%elem_of_seqZ. unfold write_at.
  rewrite zlen_cons, zlen_nil. case_match; [bool_to_prop; lia|done].
Qed.

Lemma region_write b m : region (write_at (b + off - b) (stars len) m) = stars len.
Proof.
  apply map_stars. intros i Hi. apply starred_write; lia.
Qed.

Lemma region_read b m : map (fun i => m (b + off - b + i)) (seqZ 0 len) = region m.
Proof. apply map_ext. intros i. f_equal. lia. Qed.

(** A look at the guard is not observed. *)
Lemma staged_load_client a r m pc ps pc' st :
  joint m pc ps -> staged m pc ps st -> ret r = m (a - base ClientSide) ->
  step ClientSide pc (AtomicLoad a, r) = Some pc' -> staged m pc' ps st.
Proof.
  intros J Hst Hr Hs. assert (CLIENT_TURN <> SERVER_TURN) by done.
  destruct pc as [|n|]; try done. cbn in Hs. destruct (Z.eqb_spec a (base ClientSide)) as [->|]; [|done].
  rewrite Z.sub_diag in Hr. rewrite Hr in Hs.
  destruct (Z.eqb_spec (m 0) CLIENT_TURN); injection Hs as <-; [|done].
  inversion J; subst; try congruence. inversion Hst; subst; try lia. by constructor.
Qed.

Lemma staged_load_server a r m pc ps ps' st :
  joint m pc ps -> staged m pc ps st -> ret r = m (a - base ServerSide) ->
  step ServerSide ps (AtomicLoad a, r) = Some ps' -> staged m pc ps' st.
Proof.
  intros J Hst Hr Hs. assert (CLIENT_TURN <> SERVER_TURN) by done.
  destruct ps as [|n|]; try done. cbn -[first_work] in Hs.
  destruct (Z.eqb_spec a (base ServerSide)) as [->|]; [|done].
  rewrite Z.sub_diag in Hr. rewrite Hr in Hs.
  destruct (Z.eqb_spec (m 0) SERVER_TURN); injection Hs as <-; [|done].
  inversion J; subst; try congruence. unfold first_work. inversion Hst; subst; try lia.
  - by constructor.
  - rewrite (proj2 (Z.ltb_lt _ _)) by lia. by constructor.
Qed.

Lemma staged_client c r m pc ps pc' st :
  joint m pc ps -> staged m pc ps st -> answers memory ClientSide m (c, r) ->
  step ClientSide pc (c, r) = Some pc' ->
  follows_spec ServerSide limit st (guard_observe ClientSide (c, r))
    (staged (effect memory ClientSide (c, r) m) pc' ps).
Proof.
  intros J Hst Ha Hs. destruct c; try (injection Hs as <-; exact Hst).
  - exact (staged_load_client _ _ _ _ _ _ _ J Hst Ha Hs).
  - cbn in *. case_match; [|done]. bool_to_prop. subst.
    destruct pc as [|n|n []]; simplify_eq; inversion Hst; subst; constructor;
      try (by inversion J); by rewrite region_store.
  - cbn in Hs. destruct pc as [|n|n []]; try done. case_match; [|done]. bool_to_prop. simplify_eq.
    inversion Hst; subst. exists (Working n). cbn in Ha. cbn [fst snd]. rewrite Ha, region_read.
    split; [apply (advance_working ServerSide)|constructor].
  - cbn in Hs. destruct pc as [|n|n []]; try done. case_match; [|done]. bool_to_prop.
    case_bool_decide; [|done]. simplify_eq. inversion Hst; subst.
    eexists. split; [apply (advance_reply ServerSide)|]. constructor. apply region_write.
Qed.

Lemma staged_server c r m pc ps ps' st :
  joint m pc ps -> staged m pc ps st -> answers memory ServerSide m (c, r) ->
  guard_permits ServerSide ps c = true -> step ServerSide ps (c, r) = Some ps' ->
  follows_spec ServerSide limit st (guard_observe ServerSide (c, r))
    (staged (effect memory ServerSide (c, r) m) pc ps').
Proof.
  intros J Hst Ha Hp Hs. destruct c; try (injection Hs as <-; exact Hst).
  - exact (staged_load_server _ _ _ _ _ _ _ J Hst Ha Hs).
  - cbn in *. case_match; [|done]. bool_to_prop. subst.
    destruct ps as [|n|n []]; simplify_eq; inversion Hst; subst; constructor; by rewrite region_store.
  - cbn in Hs. destruct ps as [|n|n []]; try done. case_match; [|done]. bool_to_prop. simplify_eq.
    inversion Hst; subst. eexists. cbn in Ha. cbn [fst snd]. rewrite Ha, region_read.
    split; [apply (advance_between ServerSide)|constructor].
  - cbn in Hs. destruct ps as [|n|n []]; try done. case_match; [|done]. bool_to_prop.
    case_bool_decide; [|done]. simplify_eq. inversion Hst; subst. cbn in Hp. bool_to_prop.
    eexists. split; [by apply (advance_request ServerSide)|]. constructor. apply region_write.
Qed.

Lemma staged_step p c r m ph ph' st :
  jointly guard_joint m ph -> staged m (ph ClientSide) (ph ServerSide) st ->
  answers memory p m (c, r) -> guard_permits p (ph p) c = true -> step p (ph p) (c, r) = Some ph' ->
  follows_spec ServerSide limit st (guard_observe p (c, r))
    (staged (effect memory p (c, r) m) (upd p ph' ph ClientSide) (upd p ph' ph ServerSide)).
Proof. intros [J _]. destruct p; [intros ? ? _; by apply staged_client|by apply staged_server]. Qed.

Lemma guard_refines {A} (progs : side -> prog A) m0 cf :
  m0 0 <> SERVER_TURN ->
  (forall p, typed guard_session p (fun _ => guard_ended p) (start p) (progs p)) ->
  reachable memory m0 (Config progs []) cf ->
  exists st, behaves ServerSide limit (Between 0) (behaviour guard_observe (events cf)) = Some st /\
    ((forall p, returned p cf) -> st = Between limit).
Proof.
  intros H0 Ht H.
  destruct (simulates memory m0 guard_session guard_joint guard_ended (fun p _ => guard_ended p)
    guard_observe ServerSide limit staged staged_step progs cf) as (ph & t & st & F & Hb & HR);
    [done|by apply guard_start|constructor|done|].
  exists st. split; [done|]. intros Hr.
  assert (forall p, guard_ended p (ph p)) as He.
  { intros p. destruct (Hr p) as [a Ha].
    exact (formed_returned memory m0 guard_session guard_joint guard_ended (fun p _ => guard_ended p)
      cf ph t p a F Ha). }
  rewrite (He ClientSide), (He ServerSide) in HR. by inversion HR.
Qed.
End region.

(** A message that follows the guard, and one that starts at it. *)
Lemma message_after_guard len letter : message 1 len letter = stars len.
Proof. apply map_stars. intros i Hi. by rewrite (proj2 (Z.eqb_neq _ _)) by lia. Qed.

Lemma message_at_guard len letter : 0 < len -> message 0 len letter = letter :: stars (len - 1).
Proof.
  intros Hl. unfold message. rewrite (seqZ_cons 0 len) by lia. cbn. f_equal.
  apply map_stars. intros i Hi. by rewrite (proj2 (Z.eqb_neq _ _)) by lia.
Qed.

(** ** A concrete interleaving *)

(** The region at [base], and the given readings of the guard and of the data. *)
Definition scripted (base : Z) (loads : list Z) (message : list Z) : env := fun h c =>
  match c with
  | Shmat _ | Mmap _ _ => rret base
  | AtomicLoad _ =>
      nth_call (fun c => match c with AtomicLoad _ => true | _ => false end)
        (map rret loads) (rret 0) h
  | MemRead _ _ => rdata 0 message
  | _ => plain h c
  end.

(** The segment of the samples is mapped at 1000 by the client and at 5000 by the server. *)
Definition sample_base (p : side) : Z := match p with ClientSide => 1000 | ServerSide => 5000 end.

Definition zeroed (i : Z) : Z := 0.

Lemma zeroed_ok : zeroed 0 <> SERVER_TURN.
Proof. done. Qed.

Lemma scripted_parses base loads message o h :
  eval (scripted base loads message) [] (parse_arguments ["bench"]) o h -> o = Val (Args 2 1 100).
Proof.
  intros H. assert (exists h', eval (scripted base loads message) [] (parse_arguments ["bench"])
    (Val (Args 2 1 100)) h') as [h' H'].
  { eexists. apply eval_run. exists 5%nat. reflexivity. }
  by destruct (eval_det _ _ _ _ _ _ _ H H') as [-> _].
Qed.

(** The memory answers every call. *)
Definition memory_ask (base : side -> Z) (p : side) (m : Z -> Z) (c : call) : option resp :=
  Some match c with
    | AtomicLoad a => rret (m (a - base p))
    | MemRead a n => rdata 0 (map (fun i => m (a - base p + i)) (seqZ 0 n))
    | _ => plain [] c
    end.

Lemma memory_ask_answers base p m c r :
  memory_ask base p m c = Some r -> answers (memory base) p m (c, r).
Proof. intros [= <-]. by destruct c. Qed.

Lemma memory_ask_blocked base p m c r :
  memory_ask base p m c = None -> ~ answers (memory base) p m (c, r).
Proof. done. Qed.

Lemma memory_ask_granted base p m c r : memory_ask base p m c = Some r -> granted (c, r).
Proof. intros [= <-]. pose proof (plain_granted [] c). by destruct c. Qed.
