(* ===== verification/Shm.v ===== *)
(** * shm/ and common/shmSetup.c: messages through a System V segment, with a guard byte

    The first byte of the segment is the guard, the data follows it. Modules [Client] and
    [Server] are shm/client.c and shm/server.c. *)

From S2P Require Import Prelude CInt Prog Utility Arguments Benchmarks Process Samples Joint Session Coexec Sound Exchange Guard.

(** [sizeof(atomic_char)]. *)
Definition SIZEOF_ATOMIC_CHAR : Z := 1.

(** ** common/shmSetup.c *)

Definition create_mem (bytes : Z) : prog Z :=
  segment_key <- generate_key "shm" ;;
  segment_id <- sysret (Shmget segment_key (u64 bytes) SEGMENT_FLAGS) ;;
  when (segment_id <? 0) (throw "Could not get segment") ;;;
  sysret (Shmat segment_id).

Definition shm_cleanup (segment_id : Z) : prog unit :=
  sys_ Shmdt ;;;
  sys_ (Shmctl segment_id IPC_RMID).

(** ** shm/client.c *)

Module Client.
Definition cleanup : prog unit := sys_ Shmdt.

Definition shm_wait (guard : Z) : prog unit := spin guard CLIENT_TURN.

Definition shm_notify (guard : Z) : prog unit := sys_ (AtomicStore guard SERVER_TURN).

(** [atomic_init] stores like [atomic_store]. *)
Definition communicate (shared_memory : Z) (args : Arguments) : prog unit :=
  buffer <- malloc (u64 (size args)) ;;
  let guard := shared_memory in
  sys_ (AtomicStore guard SERVER_TURN) ;;;
  assert_ (SIZEOF_ATOMIC_CHAR =? 1) ;;;
  client_turns (shm_wait guard) (shm_notify guard) (shared_memory + 1) (size args)
    (count args, buffer) ;;;
  free.

(** [shared_memory < (char* )0] compares addresses, which are not negative. *)
Definition main (argv : list string) : prog Z :=
  args <- parse_arguments argv ;;
  segment_key <- generate_key "shm" ;;
  bytes <- add_i32 1 (size args) ;;
  segment_id <- sysret (Shmget segment_key (u64 bytes) SEGMENT_FLAGS) ;;
  when (segment_id <? 0) (throw "Could not get segment") ;;;
  shared_memory <- sysret (Shmat segment_id) ;;
  when (u64 shared_memory <? 0) (throw "Could not attach segment") ;;;
  communicate shared_memory args ;;;
  cleanup ;;;
  Ret EXIT_SUCCESS.
End Client.

(** ** shm/server.c *)

Module Server.
Definition cleanup (segment_id : Z) : prog unit :=
  sys_ Shmdt ;;;
  sys_ (Shmctl segment_id IPC_RMID).

Definition shm_wait (guard : Z) : prog unit := spin guard SERVER_TURN.

Definition shm_notify (guard : Z) : prog unit := sys_ (AtomicStore guard CLIENT_TURN).

Definition communicate (shared_memory : Z) (args : Arguments) : prog unit :=
  buffer <- malloc (u64 (size args)) ;;
  let guard := shared_memory in
  shm_wait guard ;;;
  bench <- setup_benchmarks None ;;
  '(_, bench) <- server_turns (shm_wait guard) (shm_notify guard) (shared_memory + 1) (size args)
    (count args) (0, buffer, bench) ;;
  evaluate bench args ;;;
  free.

Definition main (argv : list string) : prog Z :=
  args <- parse_arguments argv ;;
  segment_key <- generate_key "shm" ;;
  bytes <- add_i32 1 (size args) ;;
  segment_id <- sysret (Shmget segment_key (u64 bytes) SEGMENT_FLAGS) ;;
  when (segment_id <? 0) (throw "Error allocating segment") ;;;
  shared_memory <- sysret (Shmat segment_id) ;;
  when (shared_memory =? -1) (throw "Error attaching segment") ;;;
  communicate shared_memory args ;;;
  cleanup segment_id ;;;
  Ret EXIT_SUCCESS.
End Server.

(** ** shm/shm.c *)

Definition main (file : list Z) (argv : list string) : prog Z :=
  setup_parent file "shm" argv ;;; Ret 0.

(** ** Correctness *)

(** [shmat] puts the segment at [base], and the command line says [args]. *)
Record started (e : env) (base : Z) (argv : list string) (args : Arguments) : Prop := {
  attached : forall h id, ret (e h (Shmat id)) = base;
  parsed : forall o h, eval e [] (parse_arguments argv) o h -> o = Val args
}.

Section process.
Context (base : side -> Z) (e : env) (args : Arguments).
Local Abbreviation step := (step base 1 (size args)).
Local Abbreviation follows := (follows start step).
Local Abbreviation limit := (Z.max 0 (count args)).
Local Abbreviation session := (guard_session base 1 (size args) limit).
Local Abbreviation at_phase := (at_phase start step).

Lemma shm_client_typed :
  typed session ClientSide (fun _ => guard_ended limit ClientSide) Fresh
    (Client.communicate (base ClientSide) args).
Proof.
  unfold Client.communicate. apply private_own; [local_calls|]. intros buffer.
  apply (typed_call _ _ _ _ _ _ (fun _ => Waiting 0)); [done|by intros; cbn; rewrite !Z.eqb_refl|done|].
  intros r. cbn [bind].
  apply client_turns_typed; [done|]. intros st. apply private_last; [local_calls|done].
Qed.

Lemma shm_server_typed :
  typed session ServerSide (fun _ => guard_ended limit ServerSide) (Waiting 0)
    (Server.communicate (base ServerSide) args).
Proof.
  unfold Server.communicate. apply private_own; [local_calls|]. intros buffer.
  apply (typed_spin base 1 (size args) limit ServerSide); [by left|].
  apply private_own; [local_calls|]. intros bench.
  apply server_turns_typed; [done|]. intros [st bench'].
  apply private_own; [local_calls|]. intros []. apply private_last; [local_calls|done].
Qed.

Lemma client_main_follows argv :
  started e (base ClientSide) argv args ->
  safe e (follows ClientSide) [] (Client.main argv)
    (finished start step ClientSide (fun ph => ph = Waiting (Z.max 0 (count args)))).
Proof.
  intros [Hb Ha]. unfold Client.main. eapply safe_private_parse; [done|done|]. intros h1 H1.
  do 4 (eapply safe_private; [local_calls|done|done|]; clear H1; intros ? ? H1).
  cbn [bind]. eapply safe_step; [done|]. eexists. split; [done|]. rewrite Hb. intros h2 H2. cbn [bind].
  eapply safe_private; [local_calls|done|done|]. intros [] h3 H3.
  eapply (typed_follows base 1 (size args)); [apply shm_client_typed|done|done|]. intros h4 H4.
  eapply safe_private; [local_calls|done|done|]. intros [] h5 H5.
  apply safe_ret; [by eapply at_follows|]. cbn. eauto.
Qed.

Lemma server_main_follows argv :
  started e (base ServerSide) argv args ->
  safe e (follows ServerSide) [] (Server.main argv)
    (finished start step ServerSide (fun ph => ph = Turn (Z.max 0 (count args)) HasRead)).
Proof.
  intros [Hb Ha]. unfold Server.main. eapply safe_private_parse; [done|done|]. intros h1 H1.
  do 4 (eapply safe_private; [local_calls|done|done|]; clear H1; intros ? ? H1).
  cbn [bind]. eapply safe_step; [done|]. eexists. split; [done|]. rewrite Hb. intros h2 H2. cbn [bind].
  eapply safe_private; [local_calls|done|done|]. intros [] h3 H3.
  eapply (typed_follows base 1 (size args)); [apply shm_server_typed|done|done|]. intros h4 H4.
  eapply safe_private; [local_calls|done|done|]. intros [] h5 H5.
  apply safe_ret; [by eapply at_follows|]. cbn. eauto.
Qed.
End process.

(** The two programs, with the same command line, over one segment. *)
Section pair.
Context (ec es : env) (base : side -> Z) (argv : list string) (args : Arguments).
Context (HC : started ec (base ClientSide) argv args) (HS : started es (base ServerSide) argv args).
Context (m0 : Z -> Z) (g : trace) (Hg : coherent (memory base) m0 g).

(** C12. shm: in every interleaving of the two programs over a segment whose guard does not start
    as 's' (a new segment is zeroed), the two never work on the data at the same time, their
    turns alternate, one of them can always go on, and every message is read as [size] stars. *)
Theorem shm_takes_turns :
  m0 0 <> SERVER_TURN ->
  visits ec [] (Client.main argv) (proj ClientSide g) ->
  visits es [] (Server.main argv) (proj ServerSide g) ->
  takes_turns base 1 (size args) m0 g /\
  forall p a n r, In (p, (MemRead a n, r)) g -> data r = stars (size args).
Proof.
  intros H0 Vc Vs. assert (takes_turns base 1 (size args) m0 g) as HT.
  { apply turns_taken; [lia|done|done| |].
    - by eapply (client_main_follows base ec args).
    - by eapply (server_main_follows base es args). }
  split; [done|]. intros p a n r Hr. erewrite (proj2 HT) by done. apply message_after_guard.
Qed.

(** C19. shm, over a segment whose guard does not start as 's' (a new segment is zeroed): when the
    server's program has returned, the client has answered all of its [count] messages, in every
    interleaving. Without the condition on the guard this is false: [shm_stale_guard]. *)
Theorem shm_complete code :
  m0 0 <> SERVER_TURN ->
  visits ec [] (Client.main argv) (proj ClientSide g) ->
  eval es [] (Server.main argv) (Val code) (proj ServerSide g) ->
  phase_of start (step base 1 (size args)) ClientSide (proj ClientSide g) =
    Some (Waiting (Z.max 0 (count args))).
Proof.
  intros H0 Vc Vs. destruct (proj2 (server_main_follows base es args argv HS) _ _ Vs) as (ps & Es & ->).
  destruct (guard_trace base 1 (size args) ltac:(lia) m0 H0 g Hg) as (pc & ps & Ec & Es' & J).
  - by eapply (client_main_follows base ec args).
  - by eapply at_follows.
  - unfold at_phase in Es. rewrite Es in Es'. simplify_eq. inversion J; subst. done.
Qed.
End pair.

(** ** Concrete runs, with messages of two bytes *)

Lemma scripted_started base loads message :
  started (scripted base loads message) base ["bench"] (Args 2 1 100).
Proof. split; [done|apply scripted_parses]. Qed.

(** The client spins once, the server twice. *)
Definition sample_client : env := scripted 1000 [SERVER_TURN; CLIENT_TURN] [STAR; STAR].
Definition sample_server : env :=
  scripted 5000 [0; SERVER_TURN; CLIENT_TURN; SERVER_TURN] [STAR; STAR].

Definition sample_trace : trace :=
  interleave [(ServerSide, 9%nat); (ClientSide, 10%nat); (ServerSide, 6%nat); (ClientSide, 6%nat);
              (ServerSide, 20%nat)]
    (rev (history 30 sample_client (Client.main ["bench"])))
    (rev (history 30 sample_server (Server.main ["bench"]))).

Lemma sample_coherent : coherent (memory sample_base) zeroed sample_trace.
Proof. vm_compute. repeat split. Qed.

Lemma sample_client_eval :
  eval sample_client [] (Client.main ["bench"]) (Val 0) (proj ClientSide sample_trace).
Proof. apply eval_run. exists 30%nat. vm_compute. reflexivity. Qed.

Lemma sample_server_eval :
  eval sample_server [] (Server.main ["bench"]) (Val 0) (proj ServerSide sample_trace).
Proof. apply eval_run. exists 30%nat. vm_compute. reflexivity. Qed.

Lemma shm_takes_turns_witness :
  takes_turns sample_base 1 2 zeroed sample_trace /\
  forall p a n r, In (p, (MemRead a n, r)) sample_trace -> data r = [STAR; STAR].
Proof.
  apply (shm_takes_turns sample_client sample_server sample_base ["bench"] (Args 2 1 100)).
  - apply scripted_started.
  - apply scripted_started.
  - apply sample_coherent.
  - apply zeroed_ok.
  - eapply eval_visits, sample_client_eval.
  - eapply eval_visits, sample_server_eval.
Defined.

Lemma shm_complete_witness :
  phase_of start (step sample_base 1 2) ClientSide (proj ClientSide sample_trace) = Some (Waiting 1).
Proof.
  apply (shm_complete sample_client sample_server sample_base ["bench"] (Args 2 1 100)
    (scripted_started _ _ _) (scripted_started _ _ _) zeroed _ sample_coherent 0 zeroed_ok).
  - eapply eval_visits, sample_client_eval.
  - apply sample_server_eval.
Defined.

(** A segment left over from a server that was killed in its turn: its guard is 's'. *)
Definition stale (i : Z) : Z := if i =? 0 then SERVER_TURN else 0.

(** The server takes the stale guard for the client's, and the client's [atomic_init] for the
    answer to its message. *)
Definition stale_server : env := scripted 5000 [SERVER_TURN; SERVER_TURN] [STAR; STAR].
Definition stale_client : env := scripted 1000 [] [].

(** The client up to [atomic_init]. *)
Definition stale_start : list event := take 9 (rev (history 30 sample_client (Client.main ["bench"]))).

Definition stale_trace : trace :=
  interleave [(ServerSide, 13%nat); (ClientSide, 9%nat); (ServerSide, 20%nat)]
    stale_start (rev (history 30 stale_server (Server.main ["bench"]))).

(** shm over a segment left over with 's' in its guard: there is an interleaving in which the
    server returns, with its message counted as answered, although the client has never had
    the turn; the guard is 's' for good, so the client then waits forever. *)
Theorem shm_stale_guard :
  started stale_client 1000 ["bench"] (Args 2 1 100) /\
  started stale_server 5000 ["bench"] (Args 2 1 100) /\
  coherent (memory sample_base) stale stale_trace /\
  visits stale_client [] (Client.main ["bench"]) (proj ClientSide stale_trace) /\
  eval stale_server [] (Server.main ["bench"]) (Val 0) (proj ServerSide stale_trace) /\
  phase_of start (step sample_base 1 2) ClientSide (proj ClientSide stale_trace) = Some (Waiting 0) /\
  final (memory sample_base) stale stale_trace 0 = SERVER_TURN.
Proof.
  split_and!; [apply scripted_started..| | | |by vm_compute|by vm_compute].
  - vm_compute. repeat split.
  - eapply visits_bind_r; [apply eval_run; exists 5%nat; vm_compute; reflexivity|].
    repeat (cbn [bind]; apply vis_call). apply vis_here.
  - apply eval_run. exists 30%nat. vm_compute. reflexivity.
Qed.

(** A segment that cannot be attached ([shmat] answers -1): the server exits with a failure,
    the client takes -1 for the address of the segment and writes the guard there. *)
Theorem shm_attach_failure e argv args h1 :
  eval e [] (parse_arguments argv) (Val args) h1 -> in_i32 (1 + size args) ->
  (forall h key n flags, 0 <= ret (e h (Shmget key n flags))) ->
  (forall h id, ret (e h (Shmat id)) = -1) ->
  (exists h', eval e [] (Server.main argv) (Halted (Exited EXIT_FAILURE)) h') /\
  exists r h', visits e [] (Client.main argv) ((AtomicStore (-1) SERVER_TURN, r) :: h').
Proof.
  intros Ha Hs Hg Ht. unfold Server.main, Client.main, generate_key, sysret, add_i32.
  apply in_i32b_spec in Hs. split.
  - eexists. eapply eval_bind; [done|]. cbn -[in_i32b]. rewrite Hs. cbn. do 2 apply eval_call.
    rewrite (proj2 (Z.ltb_ge _ _) (Hg _ _ _ _)). cbn. apply eval_call. rewrite Ht. cbn.
    apply eval_call. constructor.
  - do 2 eexists. eapply visits_bind_r; [done|]. cbn -[in_i32b]. rewrite Hs. cbn. do 2 apply vis_call.
    rewrite (proj2 (Z.ltb_ge _ _) (Hg _ _ _ _)). cbn. apply vis_call. rewrite Ht. cbn.
    do 2 apply vis_call. apply vis_here.
Qed.

Lemma shm_attach_failure_witness :
  (exists h', eval (scripted (-1) [] []) [] (Server.main ["bench"]) (Halted (Exited EXIT_FAILURE)) h') /\
  exists r h', visits (scripted (-1) [] []) [] (Client.main ["bench"])
    ((AtomicStore (-1) SERVER_TURN, r) :: h').
Proof.
  eapply (shm_attach_failure (scripted (-1) [] []) ["bench"] (Args 2 1 100)).
  - apply eval_run. exists 5%nat. vm_compute. reflexivity.
  - by vm_compute.
  - done.
  - done.
Defined.

(** ** The two loops under a scheduler *)

Section scheduled.
Context (base : side -> Z) (args : Arguments) (m0 : Z -> Z).
Local Abbreviation limit := (Z.max 0 (count args)).

Definition shm_pair (p : side) : prog unit :=
  match p with
  | ClientSide => Client.communicate (base ClientSide) args
  | ServerSide => Server.communicate (base ServerSide) args
  end.

Lemma shm_pair_typed p :
  typed (guard_session base 1 (size args) limit) p (fun _ => guard_ended limit p) (start p) (shm_pair p).
Proof. destruct p; [apply shm_client_typed|apply shm_server_typed]. Qed.

(** With at least one message the two programs neither exit nor run into undefined behaviour. *)
Lemma shm_pair_sound p :
  0 <= size args < 2 ^ 31 -> 0 < count args -> sound guard_answer (fun _ => True) (shm_pair p).
Proof.
  intros Hs Hc. assert (u64 (size args) = size args) as Eu by (apply u64_small; unfold in_u64, u64_mod; lia).
  destruct p; unfold shm_pair, Client.communicate, Server.communicate;
    (apply (sound_malloc _ guard_answer_granted); [lia|]); intros b Hb; rewrite Eu in Hb.
  - cbn [bind sys_]. apply sound_call. intros r _. cbn [bind].
    apply sound_client_turns; [lia|apply sound_spin|apply sound_sys_|done|]. intros st. apply sound_sys_.
  - eapply sound_bind; [apply sound_spin|intros [] _].
    apply (sound_setup_benchmarks _ guard_answer_granted). intros bench.
    apply sound_server_turns; [lia|apply sound_spin|apply sound_sys_|done|]. intros [st bench'].
    apply (sound_evaluate _ guard_answer_granted); [done|]. apply sound_sys_.
Qed.

(** C4. shm refines the exchange, over a segment whose guard does not start as 's' (a new segment is
    zeroed): what the two programs do to the segment in any interleaving, finished or not, is a
    run of the abstract machine of Exchange.v with the server asking, and if both return the
    machine has made all rounds. *)
Theorem shm_refines_exchange cf :
  m0 0 <> SERVER_TURN -> reachable (memory base) m0 (Config shm_pair []) cf ->
  exists st, behaves ServerSide limit (Between 0) (behaviour guard_observe (events cf)) = Some st /\
    ((forall p, returned p cf) -> st = Between limit).
Proof.
  intros H0. apply (guard_refines base 1 (size args) limit); [lia|lia|lia|done|apply shm_pair_typed].
Qed.

(** C5. shm, with at least one message and over a segment whose guard does not start as 's': under every
    scheduler that never forgets a program for good, both programs return, in spite of the two
    loops that wait for the guard; neither of them exits or runs into undefined behaviour. *)
Theorem shm_terminates sched run :
  m0 0 <> SERVER_TURN -> 0 <= size args < 2 ^ 31 -> 0 < count args ->
  fair sched -> execution (memory base) m0 sched run -> run 0%nat = Config shm_pair [] ->
  all_granted run ->
  exists n, forall p, returned p (run n).
Proof.
  intros H0 Hs Hc. apply (guard_returns base 1 (size args) limit); [lia|lia|done|apply shm_pair_typed|].
  intros p. by apply shm_pair_sound.
Qed.
End scheduled.

(** One message of two bytes, turn by turn, over a zeroed segment. *)
Definition shm_run : nat -> config unit :=
  play (memory sample_base) zeroed (memory_ask sample_base) 9 round_robin
    (Config (shm_pair sample_base (Args 2 1 100)) []).

Lemma shm_run_execution : execution (memory sample_base) zeroed round_robin shm_run.
Proof.
  apply (plays_execution _ _ _ _ (memory_ask_answers sample_base) (memory_ask_blocked sample_base) _ 60).
  by vm_compute.
Qed.

Lemma shm_terminates_witness : exists n, forall p, returned p (shm_run n).
Proof.
  apply (shm_terminates sample_base (Args 2 1 100) zeroed round_robin).
  - apply zeroed_ok.
  - done.
  - done.
  - apply round_robin_fair.
  - apply shm_run_execution.
  - done.
  - apply play_granted; [apply memory_ask_granted|done].
Defined.

Lemma shm_refines_exchange_witness :
  exists st, behaves ServerSide 1 (Between 0) (behaviour guard_observe (events (shm_run 60))) = Some st /\
    ((forall p, returned p (shm_run 60)) -> st = Between 1).
Proof.
  apply (shm_refines_exchange sample_base (Args 2 1 100) zeroed).
  - apply zeroed_ok.
  - apply (execution_reachable _ _ round_robin shm_run), shm_run_execution.
Defined.
