(* ===== verification/Mmap.v ===== *)
(** * mmap/: messages through a mapped file, with a guard byte

    The guard is the first byte of the mapping, and so is the first byte of the data: every
    message overwrites the guard. Modules [Client] and [Server] are mmap/client.c and
    mmap/server.c. *)

From S2P Require Import Prelude CInt Prog Utility Arguments Benchmarks Process Samples Joint Session Coexec Sound Exchange Guard.

Definition MMAP_FILE : string := "/tmp/mmap".

Definition SEEK_SET : Z := 0.

(** ** mmap/client.c *)

Module Client.
Definition get_file_descriptor : prog Z :=
  file_descriptor <- sysret (OpenMode MMAP_FILE (Z.lor O_RDWR O_CREAT) 438) ;;
  when (file_descriptor <? 0) (throw "Error opening file!\n") ;;;
  Ret file_descriptor.

Definition mmap_wait (guard : Z) : prog unit := spin guard CLIENT_TURN.

Definition mmap_notify (guard : Z) : prog unit := sys_ (AtomicStore guard SERVER_TURN).

Definition communicate (file_memory : Z) (args : Arguments) : prog unit :=
  buffer <- malloc (u64 (size args)) ;;
  let guard := file_memory in
  mmap_notify guard ;;;
  client_turns (mmap_wait guard) (mmap_notify guard) file_memory (size args) (count args, buffer) ;;;
  free.

(** [file_memory < 0] compares an address, which is not negative. *)
Definition main (argv : list string) : prog Z :=
  args <- parse_arguments argv ;;
  file_descriptor <- get_file_descriptor ;;
  file_memory <- sysret (Mmap (u64 (size args)) file_descriptor) ;;
  when (u64 file_memory <? 0) (throw "Error mapping file!") ;;;
  r <- sysret (Close file_descriptor) ;;
  when (r <? 0) (throw "Error closing file!") ;;;
  communicate file_memory args ;;;
  r <- sysret (Munmap (u64 (size args))) ;;
  when (r <? 0) (throw "Error unmapping file!") ;;;
  sys_ (Remove MMAP_FILE) ;;;
  Ret EXIT_SUCCESS.
End Client.

(** ** mmap/server.c *)

Module Server.
(** The byte written after the region is the terminator of the empty string. *)
Definition make_space (file_descriptor bytes : Z) : prog unit :=
  off <- add_i32 bytes 1 ;;
  sys_ (Lseek file_descriptor off SEEK_SET) ;;;
  r <- sysret (Write file_descriptor [0]) ;;
  when (r <? 1)
    (throw "Error writing a single goddman byte to file. A single byte!!!!!") ;;;
  sys_ (Lseek file_descriptor 0 SEEK_SET).

Definition get_file_descriptor (bytes : Z) : prog Z :=
  file_descriptor <- sysret (OpenMode MMAP_FILE (Z.lor O_RDWR O_CREAT) 438) ;;
  when (file_descriptor <? 0) (throw "Error opening file!\n") ;;;
  make_space file_descriptor bytes ;;;
  Ret file_descriptor.

Definition mmap_wait (guard : Z) : prog unit := spin guard SERVER_TURN.

Definition mmap_notify (guard : Z) : prog unit := sys_ (AtomicStore guard CLIENT_TURN).

Definition communicate (file_memory : Z) (args : Arguments) : prog unit :=
  buffer <- malloc (u64 (size args)) ;;
  let guard := file_memory in
  mmap_wait guard ;;;
  bench <- setup_benchmarks None ;;
  '(_, bench) <- server_turns (mmap_wait guard) (mmap_notify guard) file_memory (size args)
    (count args) (0, buffer, bench) ;;
  evaluate bench args ;;;
  free.

Definition main (argv : list string) : prog Z :=
  args <- parse_arguments argv ;;
  file_descriptor <- get_file_descriptor (size args) ;;
  bytes <- add_i32 1 (size args) ;;
  file_memory <- sysret (Mmap (u64 bytes) file_descriptor) ;;
  when (u64 file_memory <? 0) (throw "Error mapping file!") ;;;
  r <- sysret (Close file_descriptor) ;;
  when (r <? 0) (throw "Error closing file!") ;;;
  communicate file_memory args ;;;
  r <- sysret (Munmap (u64 (size args))) ;;
  when (r <? 0) (throw "Error unmapping file!") ;;;
  Ret EXIT_SUCCESS.
End Server.

(** ** mmap/mmap.c *)

Definition main (file : list Z) (argv : list string) : prog Z :=
  setup_parent file "mmap" argv ;;; Ret 0.

(** ** Correctness *)

(** [mmap] puts the file at [base], and the command line says [args]. *)
Record mapped (e : env) (base : Z) (argv : list string) (args : Arguments) : Prop := {
  map_at : forall h n fd, ret (e h (Mmap n fd)) = base;
  map_args : forall o h, eval e [] (parse_arguments argv) o h -> o = Val args
}.

Lemma private_make_space fd bytes : calls_in private (Server.make_space fd bytes).
Proof. local_calls. Qed.

#[export] Hint Resolve private_make_space : cbench.

Section process.
Context (base : side -> Z) (e : env) (args : Arguments).
Local Abbreviation step := (step base 0 (size args)).
Local Abbreviation follows := (follows start step).
Local Abbreviation limit := (Z.max 0 (count args)).
Local Abbreviation session := (guard_session base 0 (size args) limit).
Local Abbreviation at_phase := (at_phase start step).

Lemma mmap_client_typed :
  typed session ClientSide (fun _ => guard_ended limit ClientSide) Fresh
    (Client.communicate (base ClientSide) args).
Proof.
  unfold Client.communicate, Client.mmap_wait. apply private_own; [local_calls|]. intros buffer.
  apply (typed_call _ _ _ _ _ _ (fun _ => Waiting 0)); [done|by intros; cbn; rewrite !Z.eqb_refl|done|].
  intros r. cbn [bind].
  rewrite <- (Z.add_0_r (base ClientSide)) at 3.
  apply client_turns_typed; [done|]. intros st. apply private_last; [local_calls|done].
Qed.

Lemma mmap_server_typed :
  typed session ServerSide (fun _ => guard_ended limit ServerSide) (Waiting 0)
    (Server.communicate (base ServerSide) args).
Proof.
  unfold Server.communicate, Server.mmap_wait. apply private_own; [local_calls|]. intros buffer.
  apply (typed_spin base 0 (size args) limit ServerSide); [by left|].
  apply private_own; [local_calls|]. intros bench.
  rewrite <- (Z.add_0_r (base ServerSide)) at 3.
  apply server_turns_typed; [done|]. intros [st bench'].
  apply private_own; [local_calls|]. intros []. apply private_last; [local_calls|done].
Qed.

Lemma client_main_maps argv :
  mapped e (base ClientSide) argv args ->
  safe e (follows ClientSide) [] (Client.main argv)
    (finished start step ClientSide (fun ph => ph = Waiting (Z.max 0 (count args)))).
Proof.
  intros [Hb Ha]. unfold Client.main. eapply safe_private_parse; [done|done|]. intros h1 H1.
  eapply safe_private; [local_calls|done|done|]. intros fd h2 H2.
  cbn [bind]. eapply safe_step; [done|]. eexists. split; [done|]. rewrite Hb. intros h3 H3. cbn [bind].
  do 3 (eapply safe_private; [local_calls|done|done|]; clear H3; intros ? ? H3).
  eapply (typed_follows base 0 (size args)); [apply mmap_client_typed|done|done|]. intros h4 H4.
  do 3 (eapply safe_private; [local_calls|done|done|]; clear H4; intros ? ? H4).
  apply safe_ret; [by eapply at_follows|]. cbn. eauto.
Qed.

Lemma server_main_maps argv :
  mapped e (base ServerSide) argv args ->
  safe e (follows ServerSide) [] (Server.main argv)
    (finished start step ServerSide (fun ph => ph = Turn (Z.max 0 (count args)) HasRead)).
Proof.
  intros [Hb Ha]. unfold Server.main. eapply safe_private_parse; [done|done|]. intros h1 H1.
  do 2 (eapply safe_private; [local_calls|done|done|]; clear H1; intros ? ? H1).
  cbn [bind]. eapply safe_step; [done|]. eexists. split; [done|]. rewrite Hb. intros h3 H3. cbn [bind].
  do 3 (eapply safe_private; [local_calls|done|done|]; clear H3; intros ? ? H3).
  eapply (typed_follows base 0 (size args)); [apply mmap_server_typed|done|done|]. intros h4 H4.
  do 2 (eapply safe_private; [local_calls|done|done|]; clear H4; intros ? ? H4).
  apply safe_ret; [by eapply at_follows|]. cbn. eauto.
Qed.
End process.

(** The two programs, with the same command line, over one file. *)
Section pair.
Context (ec es : env) (base : side -> Z) (argv : list string) (args : Arguments).
Context (HC : mapped ec (base ClientSide) argv args) (HS : mapped es (base ServerSide) argv args).
Context (m0 : Z -> Z) (H0 : m0 0 <> SERVER_TURN) (g : trace) (Hg : coherent (memory base) m0 g).

(** C13. mmap: although every message overwrites the guard, in every interleaving of the two
    programs over a file that does not start with 's' the two never work on the data at the
    same time, their turns alternate, and one of them can always go on. *)
Theorem mmap_takes_turns :
  visits ec [] (Client.main argv) (proj ClientSide g) ->
  visits es [] (Server.main argv) (proj ServerSide g) ->
  takes_turns base 0 (size args) m0 g.
Proof.
  intros Vc Vs. apply turns_taken; [lia|done|done| |].
  - by eapply (client_main_maps base ec args).
  - by eapply (server_main_maps base es args).
Qed.

(** mmap: the first byte of a message is lost: each side reads its own letter, which the other
    one stored in the guard after its message, followed by one star fewer than were sent. *)
Theorem mmap_first_byte_lost p a n r :
  0 < size args ->
  visits ec [] (Client.main argv) (proj ClientSide g) ->
  visits es [] (Server.main argv) (proj ServerSide g) ->
  In (p, (MemRead a n, r)) g -> data r = mine p :: stars (size args - 1).
Proof.
  intros Hs Vc Vs Hr. rewrite <- (message_at_guard (size args)) by done.
  eapply (turns_taken base 0 (size args)); [lia|done|done| | |done].
  - by eapply (client_main_maps base ec args).
  - by eapply (server_main_maps base es args).
Qed.
End pair.

(** ** A concrete run, with messages of two bytes *)

Lemma scripted_mapped base loads message :
  mapped (scripted base loads message) base ["bench"] (Args 2 1 100).
Proof. split; [done|apply scripted_parses]. Qed.

(** The client spins once, and sees the guard between a message and its letter. *)
Definition mmap_sample_client : env := scripted 1000 [STAR; CLIENT_TURN] [CLIENT_TURN; STAR].
Definition mmap_sample_server : env :=
  scripted 5000 [0; SERVER_TURN; CLIENT_TURN; SERVER_TURN] [SERVER_TURN; STAR].

Definition mmap_sample_trace : trace :=
  interleave [(ServerSide, 12%nat); (ClientSide, 9%nat); (ServerSide, 4%nat); (ClientSide, 1%nat);
              (ServerSide, 2%nat); (ClientSide, 7%nat); (ServerSide, 20%nat)]
    (rev (history 30 mmap_sample_client (Client.main ["bench"])))
    (rev (history 30 mmap_sample_server (Server.main ["bench"]))).

Lemma mmap_sample_coherent : coherent (memory sample_base) zeroed mmap_sample_trace.
Proof. vm_compute. repeat split. Qed.

Lemma mmap_sample_client_visits : visits mmap_sample_client [] (Client.main ["bench"]) (proj ClientSide mmap_sample_trace).
Proof.
  apply (eval_visits _ _ _ (Val 0)), eval_run. exists 30%nat. vm_compute. reflexivity.
Qed.

Lemma mmap_sample_server_visits : visits mmap_sample_server [] (Server.main ["bench"]) (proj ServerSide mmap_sample_trace).
Proof.
  apply (eval_visits _ _ _ (Val 0)), eval_run. exists 30%nat. vm_compute. reflexivity.
Qed.

Lemma mmap_takes_turns_witness : takes_turns sample_base 0 2 zeroed mmap_sample_trace.
Proof.
  apply (mmap_takes_turns mmap_sample_client mmap_sample_server sample_base ["bench"] (Args 2 1 100)
    (scripted_mapped _ _ _) (scripted_mapped _ _ _) zeroed zeroed_ok _ mmap_sample_coherent).
  - apply mmap_sample_client_visits.
  - apply mmap_sample_server_visits.
Defined.

Lemma mmap_first_byte_lost_witness :
  exists r, In (ClientSide, (MemRead 1000 2, r)) mmap_sample_trace /\ data r = [CLIENT_TURN; STAR].
Proof.
  exists (rdata 0 [CLIENT_TURN; STAR]).
  assert (In (ClientSide, (MemRead 1000 2, rdata 0 [CLIENT_TURN; STAR])) mmap_sample_trace) as H
    by (vm_compute; tauto).
  split; [exact H|].
  exact (mmap_first_byte_lost mmap_sample_client mmap_sample_server sample_base ["bench"] (Args 2 1 100)
    (scripted_mapped _ _ _) (scripted_mapped _ _ _) zeroed zeroed_ok mmap_sample_trace
    mmap_sample_coherent ClientSide 1000 2 _ eq_refl mmap_sample_client_visits
    mmap_sample_server_visits H).
Defined.

(** ** The two loops under a scheduler *)

Section scheduled.
Context (base : side -> Z) (args : Arguments) (m0 : Z -> Z).
Local Abbreviation limit := (Z.max 0 (count args)).

Definition mmap_pair (p : side) : prog unit :=
  match p with
  | ClientSide => Client.communicate (base ClientSide) args
  | ServerSide => Server.communicate (base ServerSide) args
  end.

Lemma mmap_pair_typed p :
  typed (guard_session base 0 (size args) limit) p (fun _ => guard_ended limit p) (start p) (mmap_pair p).
Proof. destruct p; [apply mmap_client_typed|apply mmap_server_typed]. Qed.

Lemma mmap_pair_sound p :
  0 <= size args < 2 ^ 31 -> 0 < count args -> sound guard_answer (fun _ => True) (mmap_pair p).
Proof.
  intros Hs Hc. assert (u64 (size args) = size args) as Eu by (apply u64_small; unfold in_u64, u64_mod; lia).
  destruct p; unfold mmap_pair, Client.communicate, Server.communicate;
    (apply (sound_malloc _ guard_answer_granted); [lia|]); intros b Hb; rewrite Eu in Hb.
  - eapply sound_bind; [apply sound_sys_|intros [] _].
    apply sound_client_turns; [lia|apply sound_spin|apply sound_sys_|done|]. intros st. apply sound_sys_.
  - eapply sound_bind; [apply sound_spin|intros [] _].
    apply (sound_setup_benchmarks _ guard_answer_granted). intros bench.
    apply sound_server_turns; [lia|apply sound_spin|apply sound_sys_|done|]. intros [st bench'].
    apply (sound_evaluate _ guard_answer_granted); [done|]. apply sound_sys_.
Qed.

(** C6. mmap, with at least one message and over a file that does not start with 's': under every fair
    scheduler both programs return, although each message overwrites the guard; neither of them
    exits or runs into undefined behaviour. *)
Theorem mmap_terminates sched run :
  m0 0 <> SERVER_TURN -> 0 <= size args < 2 ^ 31 -> 0 < count args ->
  fair sched -> execution (memory base) m0 sched run -> run 0%nat = Config mmap_pair [] ->
  all_granted run ->
  exists n, forall p, returned p (run n).
Proof.
  intros H0 Hs Hc. apply (guard_returns base 0 (size args) limit); [lia|lia|done|apply mmap_pair_typed|].
  intros p. by apply mmap_pair_sound.
Qed.
End scheduled.

(** One message of two bytes, turn by turn, over a zeroed file. *)
Definition mmap_run : nat -> config unit :=
  play (memory sample_base) zeroed (memory_ask sample_base) 9 round_robin
    (Config (mmap_pair sample_base (Args 2 1 100)) []).

Lemma mmap_run_execution : execution (memory sample_base) zeroed round_robin mmap_run.
Proof.
  apply (plays_execution _ _ _ _ (memory_ask_answers sample_base) (memory_ask_blocked sample_base) _ 60).
  by vm_compute.
Qed.

Lemma mmap_terminates_witness : exists n, forall p, returned p (mmap_run n).
Proof.
  apply (mmap_terminates sample_base (Args 2 1 100) zeroed round_robin).
  - apply zeroed_ok.
  - done.
  - done.
  - apply round_robin_fair.
  - apply mmap_run_execution.
  - done.
  - apply play_granted; [apply memory_ask_granted|done].
Defined.
