(* ===== verification/PingPong.v ===== *)
(** * Two processes that pass one token back and forth

    The benchmarks signal, mq, zeromq and eventfd-bi are instances: a process gives a token (a
    signal, a message, a count) and then waits for one. [PingPong] is what the shared object
    has to promise for that; [token_trace] is what the two processes get: one of them at a
    time, in turns, and never two tokens at once. *)

From S2P Require Import Prelude CInt Prog Utility Arguments Benchmarks Joint.

(** [Never]: a call that the protocol does not allow. *)
Inductive action := Give | Take | Never.

(** [gives]: the tokens the process has given so far. *)
Inductive phase :=
| Hold (gives : Z)
| Want (gives : Z).

Definition gives (ph : phase) : Z := match ph with Hold n | Want n => n end.

Definition holds (ph : phase) : Prop := match ph with Hold _ => True | Want _ => False end.

(** An object that keeps tokens: [act] says which calls give and take one, [tokens] which
    tokens the object has, by the side they are for, and [good] what else is known of its state. A
    call that takes a token returns only when there is one. *)
Class PingPong {S} (O : object S) (act : side -> call -> option action) (tokens : S -> list side)
    (good : S -> Prop) : Prop := {
  give_ok p c r s :
    act p c = Some Give -> answers O p s (c, r) -> good s -> tokens s = [] ->
    tokens (effect O p (c, r) s) = [other p];
  take_ok p c r s :
    act p c = Some Take -> answers O p s (c, r) -> good s -> p ∈ tokens s /\
    (tokens s = [p] -> tokens (effect O p (c, r) s) = []);
  neither_ok p c r s : act p c = None -> tokens (effect O p (c, r) s) = tokens s;
  good_ok p c r s :
    act p c <> Some Never -> answers O p s (c, r) -> good s -> good (effect O p (c, r) s)
}.

(** ** One process *)

Section process.
(** Which calls give and take, and who has the token at first. *)
Context (act : side -> call -> option action) (first : side).

Definition start (p : side) : phase := if decide (p = first) then Hold 0 else Want 0.

Definition step (p : side) (ph : phase) (ev : event) : option phase :=
  match act p ev.1, ph with
  | None, _ => Some ph
  | Some Give, Hold n => Some (Want (n + 1))
  | Some Take, Want n => Some (Hold n)
  | Some _, _ => None
  end.

(** The calls that neither give nor take. *)
Definition neither (c : call) : Prop := forall p, act p c = None.

Lemma neither_step p c r ph : neither c -> step p ph (c, r) = Some ph.
Proof. intros H. unfold step. cbn. by rewrite H. Qed.

Lemma step_allowed p ph ev ph' : step p ph ev = Some ph' -> act p ev.1 <> Some Never.
Proof. unfold step. intros Hs Ha. by rewrite Ha in Hs. Qed.

Lemma at_first : at_phase start step first (Hold 0) [].
Proof. unfold at_phase, start. cbn. by rewrite decide_True. Qed.

Lemma at_second : at_phase start step (other first) (Want 0) [].
Proof. unfold at_phase, start. cbn. by destruct first. Qed.

(** Giving and taking, as single calls. *)
Lemma safe_give e p {A} c (k : resp -> prog A) n h (Q : outcome A -> hist -> Prop) :
  act p c = Some Give -> at_phase start step p (Hold n) h ->
  (forall h', at_phase start step p (Want (n + 1)) h' -> safe e (follows start step p) h' (k (e h c)) Q) ->
  safe e (follows start step p) h (Call c k) Q.
Proof.
  intros Ha H Hk. eapply safe_step; [done|]. exists (Want (n + 1)). split; [|done].
  unfold step. cbn. by rewrite Ha.
Qed.

Lemma safe_take e p {A} c (k : resp -> prog A) n h (Q : outcome A -> hist -> Prop) :
  act p c = Some Take -> at_phase start step p (Want n) h ->
  (forall h', at_phase start step p (Hold n) h' -> safe e (follows start step p) h' (k (e h c)) Q) ->
  safe e (follows start step p) h (Call c k) Q.
Proof.
  intros Ha H Hk. eapply safe_step; [done|]. exists (Hold n). split; [|done].
  unfold step. cbn. by rewrite Ha.
Qed.

End process.

(** ** Two processes *)

Section pingpong.
Context {S : Type} (O : object S) (act : side -> call -> option action) (tokens : S -> list side)
  (good : S -> Prop) {PP : PingPong O act tokens good} (first : side).
Local Abbreviation start := (start first).
Local Abbreviation step := (step act).

(** One token, with a process or in the object, for the side that starts and the other one. *)
Definition one_token (pf ps : phase) (s : S) : Prop :=
  ~ (holds pf /\ holds ps) /\ gives ps <= gives pf <= gives ps + 1 /\
  (tokens s = [] /\ (holds pf \/ holds ps) \/
   (tokens s = [first] \/ tokens s = [other first]) /\ ~ holds pf /\ ~ holds ps).

(** The phases of the side that starts and of the other one, and the tokens. *)
Inductive relay (s : S) : phase -> phase -> Prop :=
| relay_first n : tokens s = [] -> relay s (Hold n) (Want n)
| relay_out n : tokens s = [other first] -> relay s (Want (n + 1)) (Want n)
| relay_second n : tokens s = [] -> relay s (Want (n + 1)) (Hold n)
| relay_back n : tokens s = [first] -> relay s (Want (n + 1)) (Want (n + 1)).

Definition joint (s : S) (pc ps : phase) : Prop :=
  good s /\ match first with ClientSide => relay s pc ps | ServerSide => relay s ps pc end.

Lemma relay_one_token s pf ps : relay s pf ps -> one_token pf ps s.
Proof. destruct 1; unfold one_token; cbn; split_and!; try lia; intuition. Qed.

Lemma relay_event_first ev s pf ps pf' :
  good s -> relay s pf ps -> answers O first s ev -> step first pf ev = Some pf' ->
  relay (effect O first ev s) pf' ps.
Proof.
  destruct ev as [c r]. unfold PingPong.step. cbn. intros G J Ha.
  destruct (act first c) as [[]|] eqn:E; [| |done|].
  - destruct J; intros [= <-]; apply relay_out; by apply (give_ok (PingPong := PP)).
  - destruct (take_ok (PingPong := PP) first c r s E Ha G) as [Hin Ht].
    destruct J as [n H|n H|n H|n H]; intros [= <-]; rewrite H in Hin.
    + by apply list_elem_of_singleton in Hin; destruct first.
    + by apply not_elem_of_nil in Hin.
    + apply relay_first. auto.
  - intros [= <-]. destruct J; constructor; by rewrite (neither_ok (PingPong := PP)).
Qed.

Lemma relay_event_second ev s pf ps ps' :
  good s -> relay s pf ps -> answers O (other first) s ev -> step (other first) ps ev = Some ps' ->
  relay (effect O (other first) ev s) pf ps'.
Proof.
  destruct ev as [c r]. unfold PingPong.step. cbn. intros G J Ha.
  destruct (act (other first) c) as [[]|] eqn:E; [| |done|].
  - destruct J as [n H|n H|n H|n H]; intros [= <-]. apply relay_back.
    rewrite (give_ok (PingPong := PP)) by done. by destruct first.
  - destruct (take_ok (PingPong := PP) (other first) c r s E Ha G) as [Hin Ht].
    destruct J as [n H|n H|n H|n H]; intros [= <-]; rewrite H in Hin.
    + by apply not_elem_of_nil in Hin.
    + apply relay_second. auto.
    + by apply list_elem_of_singleton in Hin; destruct first.
  - intros [= <-]. destruct J; constructor; by rewrite (neither_ok (PingPong := PP)).
Qed.

Lemma token_joint_step p ev s pc ps : joint s pc ps -> answers O p s ev -> joint_next O step joint p ev s pc ps.
Proof.
  unfold joint_next, joint. pose proof (relay_event_first ev s) as H1.
  pose proof (relay_event_second ev s) as H2. intros [G J] Ha.
  assert (forall ph ph', step p ph ev = Some ph' -> good (effect O p ev s)) as HG.
  { intros ph ph' Hs%(step_allowed act). destruct ev. by apply (good_ok (PingPong := PP)). }
  destruct first, p; cbn in *; intros ph Hs; split; eauto.
Qed.

Section traces.
Context (s0 : S) (H0 : tokens s0 = []) (G0 : good s0).

Lemma token_joint_start : joint s0 (start ClientSide) (start ServerSide).
Proof. split; [done|]. unfold PingPong.start. by destruct first; apply relay_first. Qed.

Definition token_trace := joint_trace O start step joint s0 token_joint_start token_joint_step.

(** At every moment of a trace there is one token: one of the two processes holds it and can go
    on, or the object keeps it for one of them, who will get it; and the two give in turns. *)
Definition passes (g : trace) : Prop :=
  forall g1 g2, g = g1 ++ g2 -> exists pc ps,
    phase_of start step ClientSide (proj ClientSide g2) = Some pc /\
    phase_of start step ServerSide (proj ServerSide g2) = Some ps /\
    match first with
    | ClientSide => one_token pc ps (final O s0 g2)
    | ServerSide => one_token ps pc (final O s0 g2)
    end.

Lemma token_passes g :
  coherent O s0 g ->
  follows start step ClientSide (proj ClientSide g) ->
  follows start step ServerSide (proj ServerSide g) -> passes g.
Proof.
  intros Hg Hc Hs g1 g2 ->.
  destruct (joint_always O start step joint s0 token_joint_start token_joint_step _ g1 g2 Hg Hc Hs)
    as (pc & ps & Ec & Es & J); [done|].
  exists pc, ps. split_and!; [done..|]. destruct J as [_ J]. destruct first; by apply relay_one_token.
Qed.

(** Every event of a trace meets a good state that allows its answer. *)
Lemma token_event g p ev :
  coherent O s0 g ->
  follows start step ClientSide (proj ClientSide g) ->
  follows start step ServerSide (proj ServerSide g) -> In (p, ev) g ->
  exists s, good s /\ answers O p s ev /\ act p ev.1 <> Some Never.
Proof.
  intros Hg Hc Hs (g1 & g2 & ->)%in_split.
  pose proof (follows_suffix start step ClientSide g1 _ Hc) as Hc1.
  pose proof (follows_suffix start step ServerSide g1 _ Hs) as Hs1.
  apply coherent_suffix in Hg as [Hg Ha].
  destruct (token_trace g2 Hg (follows_suffix start step ClientSide [_] g2 Hc1)
    (follows_suffix start step ServerSide [_] g2 Hs1)) as (pc & ps & Ec & Es & J).
  exists (final O s0 g2). split; [apply J|]. split; [done|]. unfold follows in *.
  destruct p; cbn [proj phase_of] in *; rewrite ?Ec, ?Es in *.
  - destruct (step ClientSide pc ev) eqn:E; [|done]. by apply (step_allowed act) in E.
  - destruct (step ServerSide ps ev) eqn:E; [|done]. by apply (step_allowed act) in E.
Qed.
End traces.
End pingpong.
