(* ===== verification/Relay.v ===== *)
(** * One token, [limit] rounds: the session of the benchmarks that pass a token

    [relay_session] bounds the protocol of PingPong.v by a number of rounds. [Mailbox] is what the
    object has to promise so that the two programs never deadlock ([relay_lively]), return if they do
    not stop early ([relay_returns]) and refine the machine of Exchange.v ([relay_refines]): it
    answers when it should, and it keeps the bytes of the token it carries. *)

From S2P Require Import Prelude CInt Prog Utility Arguments Benchmarks Joint Session Coexec Sound Exchange.
From S2P Require Import PingPong.

(** [ok]: calls with sound arguments. [carries]: the bytes that an event gives or takes; [content]:
    those of the token in the object. *)
Class Mailbox {S} (O : object S) (act : side -> call -> option action) (tokens : S -> list side)
    (good : S -> Prop) (ok : side -> call -> bool) (carries : side -> event -> list Z)
    (content : S -> list Z) : Prop := {
  give_answer p c s :
    act p c = Some Give -> ok p c = true -> good s -> tokens s = [] -> exists r, answers O p s (c, r);
  take_answer p c s :
    act p c = Some Take -> ok p c = true -> good s -> tokens s = [p] -> exists r, answers O p s (c, r);
  neither_answer p c s : act p c = None -> exists r, answers O p s (c, r);
  give_content p c r s :
    act p c = Some Give -> answers O p s (c, r) -> good s -> tokens s = [] ->
    content (effect O p (c, r) s) = carries p (c, r);
  take_content p c r s :
    act p c = Some Take -> ok p c = true -> answers O p s (c, r) -> good s -> tokens s = [p] ->
    carries p (c, r) = content s;
  neither_content p c r s : act p c = None -> content (effect O p (c, r) s) = content s
}.

Section session.
Context (act : side -> call -> option action) (ok : side -> call -> bool) (first : side) (limit : Z).

(** The side [first] gives [limit] times, and the other one takes [limit] times. *)
Definition relay_permits (p : side) (ph : phase) (c : call) : bool :=
  match act p c, ph with
  | None, _ => true
  | Some Give, Hold n => ok p c && (n <? limit)
  | Some Take, Want n => ok p c && (bool_decide (p = first) || (n <? limit))
  | Some _, _ => false
  end.

Definition relay_session : session phase :=
  Session _ (start first) (step act) relay_permits (fun _ _ => false).

Definition relay_ended (p : side) (ph : phase) : Prop :=
  ph = if decide (p = first) then Hold limit else Want limit.

(** *** Typing the calls *)

Section calls.
Context (p : side) {A : Type} (Q : A -> phase -> Prop).

Lemma typed_give c (k : resp -> prog A) n :
  act p c = Some Give -> ok p c = true -> n < limit ->
  (forall r, typed relay_session p Q (Want (n + 1)) (k r)) ->
  typed relay_session p Q (Hold n) (Call c k).
Proof.
  intros Ha Ho Hn Hk. apply (typed_call _ _ _ _ _ _ (fun _ => Want (n + 1))); [| |done|done]; cbn.
  - unfold relay_permits. rewrite Ha, Ho. cbn. by apply Z.ltb_lt.
  - intros r. unfold step. cbn. by rewrite Ha.
Qed.

Lemma typed_take c (k : resp -> prog A) n :
  act p c = Some Take -> ok p c = true -> p = first \/ n < limit ->
  (forall r, typed relay_session p Q (Hold n) (k r)) ->
  typed relay_session p Q (Want n) (Call c k).
Proof.
  intros Ha Ho Hn Hk. apply (typed_call _ _ _ _ _ _ (fun _ => Hold n)); [| |done|done]; cbn.
  - unfold relay_permits. rewrite Ha, Ho. cbn. apply orb_true_iff.
    destruct Hn; [left; by apply bool_decide_eq_true|right; by apply Z.ltb_lt].
  - intros r. unfold step. cbn. by rewrite Ha.
Qed.

Lemma neither_permits ph c : neither act c -> relay_permits p ph c = true.
Proof. unfold relay_permits. by intros ->. Qed.

Lemma relay_own {B} (q : prog B) (f : B -> prog A) ph :
  quick (neither act) q -> (forall a, typed relay_session p Q ph (f a)) ->
  typed relay_session p Q ph (bind q f).
Proof. apply typed_own; [apply neither_permits|by intros; apply neither_step|done]. Qed.

Lemma relay_last (q : prog A) ph :
  quick (neither act) q -> (forall a, Q a ph) -> typed relay_session p Q ph q.
Proof. apply typed_last; [apply neither_permits|by intros; apply neither_step|done]. Qed.
End calls.

(** A typed program follows the protocol of PingPong.v. *)
Lemma relay_follows e p {A} (Q : A -> phase -> Prop) (q : prog A) h' :
  typed relay_session p Q (start first p) q -> visits e [] q h' ->
  follows (start first) (step act) p h'.
Proof. intros Hq. by apply (typed_safe relay_session p e Q (start first p) q []). Qed.
End session.

Section relay.
Context {S : Type} (O : object S) (act : side -> call -> option action) (tokens : S -> list side)
  (good : S -> Prop) {PP : PingPong O act tokens good}.
Context (ok : side -> call -> bool) (carries : side -> event -> list Z) (content : S -> list Z)
  {M : Mailbox O act tokens good ok carries content}.
Context (first : side) (limit : Z).

Local Abbreviation relay_permits := (relay_permits act ok first limit).
Local Abbreviation relay_session := (relay_session act ok first limit).
Local Abbreviation relay_ended := (relay_ended first limit).

Definition relay_joint (s : S) (pc ps : phase) : Prop :=
  joint tokens good first s pc ps /\
  match first with ClientSide => gives pc <= limit | ServerSide => gives ps <= limit end.

(** *** Deadlock and termination *)

Context (Hlimit : 0 <= limit).

Definition by_turns (ph : side -> phase) (P : phase -> phase -> Prop) : Prop :=
  P (ph first) (ph (other first)).

Lemma relay_joint_eq s ph :
  jointly relay_joint s ph <-> good s /\ relay tokens first s (ph first) (ph (other first)) /\
    gives (ph first) <= limit.
Proof. unfold jointly, relay_joint, joint. destruct first; cbn; tauto. Qed.

Lemma relay_joint_next p c r s ph ph' :
  jointly relay_joint s ph -> answers O p s (c, r) -> relay_permits p (ph p) c = true ->
  step act p (ph p) (c, r) = Some ph' -> jointly relay_joint (effect O p (c, r) s) (upd p ph' ph).
Proof.
  rewrite !relay_joint_eq. intros (G & J & Hl) Ha Hp Hs.
  assert (good (effect O p (c, r) s)) as G'.
  { apply (good_ok (PingPong := PP)); [|done|done]. exact (step_allowed act p (ph p) (c, r) ph' Hs). }
  destruct (side_cases first p) as [-> | ->].
  - pose proof (relay_event_first O act tokens good first (c, r) s _ _ ph' G J Ha Hs) as J'.
    rewrite upd_eq, upd_other. split_and!; [done..|]. revert Hp Hs. unfold Relay.relay_permits, step. cbn.
    destruct (act first c) as [[]|], (ph first); cbn in *; try done; intros Hp [= <-]; bool_to_prop; cbn; lia.
  - pose proof (relay_event_second O act tokens good first (c, r) s _ _ ph' G J Ha Hs) as J'.
    assert (forall b (f : side -> phase), upd (other first) b f first = f first) as E by by destruct first.
    by rewrite upd_eq, E.
Qed.

(** A process can go on that is in its turn, or whose token has come. *)
Lemma awake_hold p n s : good s -> tokens s = [] -> awake O relay_session p s (Hold n).
Proof.
  intros G Ht c Hp _. split; [|done]. cbn in Hp. unfold Relay.relay_permits in Hp.
  destruct (act p c) as [[]|] eqn:E; try done; [|by apply neither_answer].
  bool_to_prop. by apply give_answer.
Qed.

Lemma awake_want p n s :
  good s -> tokens s = [p] \/ p = other first /\ limit <= n -> awake O relay_session p s (Want n).
Proof.
  intros G Ht c Hp _. split; [|done]. cbn in Hp. unfold Relay.relay_permits in Hp.
  destruct (act p c) as [[]|] eqn:E; try done; [|by apply neither_answer].
  bool_to_prop. destruct Ht as [Ht|[-> Hn]]; [by apply take_answer|].
  apply orb_prop in H0 as [H0%bool_decide_eq_true|?%Z.ltb_lt]; [by destruct first|lia].
Qed.

Lemma not_ended_hold p n : p = first /\ n < limit \/ p = other first -> ~ relay_ended p (Hold n).
Proof. unfold Relay.relay_ended. intros [[-> ?]| ->]; case_decide; intros [=]; [lia|by destruct first]. Qed.

Lemma not_ended_want p n : p = first \/ p = other first /\ n < limit -> ~ relay_ended p (Want n).
Proof. unfold Relay.relay_ended. intros [->|[-> ?]]; case_decide; intros [=]; [done|lia]. Qed.

#[export] Instance relay_lively : Lively O relay_session relay_joint relay_ended.
Proof.
  split; [apply relay_joint_next|done|]. intros s ph (G & J & Hl)%relay_joint_eq.
  inversion J as [n Ht E1 E2|n Ht E1 E2|n Ht E1 E2|n Ht E1 E2]; rewrite <- E1 in Hl; cbn in Hl.
  - destruct (Z.ltb_spec n limit).
    + right. exists first. rewrite <- E1. split; [apply not_ended_hold; auto|by apply awake_hold].
    + left. intros p. destruct (side_cases first p) as [-> | ->]; rewrite <- ?E1, <- ?E2.
      * by apply awake_hold.
      * apply awake_want; auto.
  - right. exists (other first). rewrite <- E2. split; [apply not_ended_want; right; split; [done|lia]|].
    apply awake_want; auto.
  - right. exists (other first). rewrite <- E2. split; [apply not_ended_hold; auto|by apply awake_hold].
  - right. exists first. rewrite <- E1. split; [apply not_ended_want; auto|apply awake_want; auto].
Qed.

(** *** Refinement of the exchange *)

Definition observe (p : side) (ev : event) : option label :=
  match act p ev.1 with
  | Some Give => Some (Sends p (carries p ev))
  | Some Take => Some (Receives p (carries p ev))
  | _ => None
  end.

(** The phases of the side [first] and of the other one in a stage. *)
Inductive staged (s : S) : phase -> phase -> stage -> Prop :=
| staged_between n : tokens s = [] -> staged s (Hold n) (Want n) (Between n)
| staged_request n b : tokens s = [other first] -> content s = b -> staged s (Want (n + 1)) (Want n) (Request n b)
| staged_working n : tokens s = [] -> staged s (Want (n + 1)) (Hold n) (Working n)
| staged_reply n b : tokens s = [first] -> content s = b -> staged s (Want (n + 1)) (Want (n + 1)) (Reply n b).

Definition relay_stage (s : S) (pc ps : phase) (st : stage) : Prop :=
  match first with ClientSide => staged s pc ps st | ServerSide => staged s ps pc st end.

Lemma relay_stage_eq s ph st :
  relay_stage s (ph ClientSide) (ph ServerSide) st <-> staged s (ph first) (ph (other first)) st.
Proof. unfold relay_stage. by destruct first. Qed.
Lemma follows_mono st o (P P' : stage -> Prop) :
  (forall st, P st -> P' st) -> follows_spec first limit st o P -> follows_spec first limit st o P'.
Proof. intros HP. destruct o; cbn; [|by apply HP]. intros (st' & ? & ?). eauto. Qed.

Lemma staged_first c r s pf ps pf' st :
  good s -> staged s pf ps st -> answers O first s (c, r) -> relay_permits first pf c = true ->
  step act first pf (c, r) = Some pf' ->
  follows_spec first limit st (observe first (c, r)) (staged (effect O first (c, r) s) pf' ps).
Proof.
  intros G Hst Ha. unfold Relay.relay_permits, step, observe, follows_spec. cbn.
  destruct (act first c) as [[]|] eqn:E; cbn; [| |done|].
  - destruct Hst as [n Ht| | |]; intros Hp [= <-]; bool_to_prop.
    exists (Request n (carries first (c, r))). split; [by apply advance_request|]. constructor; [by apply (give_ok (PingPong := PP))|by apply give_content].
  - destruct (take_ok (PingPong := PP) first c r s E Ha G) as [Hin Htk].
    destruct Hst as [n Ht|n b Ht Hb|n Ht|n b Ht Hb]; intros Hp [= <-]; rewrite Ht in Hin.
    + apply list_elem_of_singleton in Hin. by destruct first.
    + by apply not_elem_of_nil in Hin.
    + bool_to_prop. exists (Between (n + 1)).
      rewrite (take_content (Mailbox := M) first c r s E) by done. rewrite Hb.
      split; [apply advance_between|]. constructor. auto.
  - pose proof (neither_ok (PingPong := PP) first c r s E) as Et.
    pose proof (neither_content (Mailbox := M) first c r s E) as Ec.
    intros _ [= <-]. destruct Hst; constructor; congruence.
Qed.

Lemma staged_second c r s pf ps ps' st :
  good s -> staged s pf ps st -> answers O (other first) s (c, r) ->
  relay_permits (other first) ps c = true -> step act (other first) ps (c, r) = Some ps' ->
  follows_spec first limit st (observe (other first) (c, r)) (staged (effect O (other first) (c, r) s) pf ps').
Proof.
  intros G Hst Ha. unfold Relay.relay_permits, step, observe, follows_spec. cbn.
  destruct (act (other first) c) as [[]|] eqn:E; cbn; [| |done|].
  - destruct Hst as [n Ht|n b Ht Hb|n Ht|n b Ht Hb]; intros Hp [= <-]; bool_to_prop.
    exists (Reply n (carries (other first) (c, r))). split; [apply advance_reply|]. constructor; [|by apply give_content].
    rewrite (give_ok (PingPong := PP)) by done. by destruct first.
  - destruct (take_ok (PingPong := PP) (other first) c r s E Ha G) as [Hin Htk].
    destruct Hst as [n Ht|n b Ht Hb|n Ht|n b Ht Hb]; intros Hp [= <-]; rewrite Ht in Hin.
    + by apply not_elem_of_nil in Hin.
    + bool_to_prop. exists (Working n).
      rewrite (take_content (Mailbox := M) (other first) c r s E) by done. rewrite Hb.
      split; [apply advance_working|]. constructor. auto.
    + apply list_elem_of_singleton in Hin. by destruct first.
  - pose proof (neither_ok (PingPong := PP) (other first) c r s E) as Et.
    pose proof (neither_content (Mailbox := M) (other first) c r s E) as Ec.
    intros _ [= <-]. destruct Hst; constructor; congruence.
Qed.

Lemma stage_step p c r s ph ph' st :
  jointly relay_joint s ph -> relay_stage s (ph ClientSide) (ph ServerSide) st ->
  answers O p s (c, r) -> relay_permits p (ph p) c = true -> step act p (ph p) (c, r) = Some ph' ->
  follows_spec first limit st (observe p (c, r))
    (relay_stage (effect O p (c, r) s) (upd p ph' ph ClientSide) (upd p ph' ph ServerSide)).
Proof.
  intros (G & _)%relay_joint_eq Hst%relay_stage_eq Ha Hp Hs.
  apply (follows_mono _ _ (staged (effect O p (c, r) s) (upd p ph' ph first) (upd p ph' ph (other first))));
    [intros st'; by apply relay_stage_eq|].
  destruct (side_cases first p) as [-> | ->].
  - rewrite upd_eq, upd_other. by eapply staged_first.
  - assert (upd (other first) ph' ph first = ph first) as -> by by destruct first.
    rewrite upd_eq. by eapply staged_second.
Qed.

(** ** The two programs *)

Section programs.
Context {A : Type} (progs : side -> prog A) (s0 : S).
Context (Htyped : forall p, typed relay_session p (fun _ => relay_ended p) (start first p) (progs p)).
Context (H0 : tokens s0 = []) (G0 : good s0).

Lemma relay_start : jointly relay_joint s0 (start first).
Proof.
  apply relay_joint_eq. unfold start. rewrite decide_True, decide_False by (try done; by destruct first).
  split_and!; [done|by apply relay_first|done].
Qed.

Lemma relay_well_formed : well_formed O s0 relay_session relay_joint (fun p _ => relay_ended p) (Config progs []).
Proof. apply (formed_start O s0 relay_session relay_joint relay_ended); [done|apply relay_start]. Qed.

(** Every co-execution is a behaviour of the exchange; when both have returned, all rounds are over. *)
Lemma relay_refines cf :
  reachable O s0 (Config progs []) cf ->
  exists st, behaves first limit (Between 0) (behaviour observe (events cf)) = Some st /\
    ((forall p, returned p cf) -> st = Between limit).
Proof.
  intros H.
  destruct (simulates O s0 relay_session relay_joint relay_ended (fun p _ => relay_ended p) observe
    first limit relay_stage stage_step progs cf) as (ph & t & st & F & Hb & HR);
    [done|apply relay_start| |done|].
  { apply relay_stage_eq. cbn [s_start Relay.relay_session]. unfold start. rewrite decide_True, decide_False by (try done; by destruct first).
    by constructor. }
  exists st. split; [done|]. intros Hr. apply relay_stage_eq in HR.
  assert (forall p, relay_ended p (ph p)) as He.
  { intros p. destruct (Hr p) as [a Ha]. exact (formed_returned O s0 relay_session relay_joint relay_ended (fun p _ => relay_ended p) cf ph t p a F Ha). }
  pose proof (He first) as E1. pose proof (He (other first)) as E2. unfold Relay.relay_ended in *.
  rewrite decide_True in E1 by done. rewrite decide_False in E2 by by destruct first.
  rewrite E1, E2 in HR. by inversion HR.
Qed.

(** If the answers that a state allows to a call of the protocol are in [G], and the programs do not
    stop on such answers, both return. *)
Lemma relay_returns (G : side -> event -> Prop) sched run :
  (forall p c r s, good s -> answers O p s (c, r) -> act p c <> Some Never ->
    (act p c = Some Give -> tokens s = []) -> granted (c, r) -> G p (c, r)) ->
  (forall p, sound (G p) (fun _ => True) (progs p)) ->
  fair sched -> execution O s0 sched run -> run 0%nat = Config progs [] -> all_granted run ->
  exists n, forall p, returned p (run n).
Proof.
  intros HG Hs. apply (coexec_returns O s0 relay_session relay_joint relay_ended (fun p _ => relay_ended p)
    (fun p _ ph H => H) G); [|done|apply relay_start|exact Hs].
  intros p c r s ph ph' (Gs & J & _)%relay_joint_eq Ha _ Hst Hg.
  apply (HG p c r s); [done|done|exact (step_allowed act p (ph p) (c, r) ph' Hst)| |done].
  intros Eg. assert (exists n, ph p = Hold n) as [n En].
  { cbn in Hst. unfold step in Hst. cbn [fst] in Hst. rewrite Eg in Hst. destruct (ph p); [by eexists|done]. }
  destruct (side_cases first p) as [-> | ->]; rewrite En in J; by inversion J.
Qed.

Lemma relay_never_stuck cf :
  reachable O s0 (Config progs []) cf -> over cf \/ exists p cf', moves O s0 p cf cf'.
Proof.
  intros H. apply (never_stuck O s0 relay_session relay_joint relay_ended (fun p _ => relay_ended p)); [done|].
  eapply (reachable_formed O s0 relay_session relay_joint relay_ended); [apply relay_well_formed|done].
Qed.
End programs.
End relay.
