(* ===== verification/SignalBench.v ===== *)
(** * signal/: two processes that wake each other with SIGUSR1 and SIGUSR2

    Modules [Client] and [Server] are signal/client.c and signal/server.c. *)

From S2P Require Import Prelude CInt Prog Utility Arguments Benchmarks Signals Process Samples Joint PingPong.

(** ** signal/client.c *)

Module Client.
(** The loop tests [args->count] and decrements [args->size]. *)
Definition communicate (signal_action : sigact) (args : Arguments) : prog Arguments :=
  notify_server ;;;
  while (fun args => Ret (0 <? count args))
    (fun args =>
      wait_for_signal signal_action ;;;
      notify_server ;;;
      size' <- add_i32 (size args) (-1) ;;
      Ret (Args size' (count args) (rate args))) args.

Definition main (argv : list string) : prog Z :=
  args <- parse_arguments argv ;;
  signal_action <- setup_client_signals ;;
  communicate signal_action args ;;;
  Ret 0.
End Client.

(** ** signal/server.c *)

Module Server.
Definition communicate (signal_action : sigact) (args : Arguments) : prog unit :=
  wait_for_signal signal_action ;;;
  bench <- setup_benchmarks None ;;
  '(_, bench) <- while (fun st : Z * Benchmarks => Ret (st.1 <? count args))
    (fun st =>
      let '(message, bench) := st in
      bench <- start_single bench ;;
      notify_client ;;;
      wait_for_signal signal_action ;;;
      bench <- benchmark bench ;;
      Ret (message + 1, bench)) (0, bench) ;;
  evaluate bench (Args 1 (count args) (rate args)).

Definition main (argv : list string) : prog Z :=
  args <- parse_arguments argv ;;
  signal_action <- setup_server_signals ;;
  communicate signal_action args ;;;
  Ret 0.
End Server.

(** ** signal/signal.c *)

Definition main (file : list Z) (argv : list string) : prog Z :=
  setup_parent file "signal" argv ;;; Ret 0.

(** ** The pending signals of two processes that have set up their masks *)

(** A signal is pending or not: a second one is merged with the first. *)
Record pending := Pending { usr1 : bool; usr2 : bool }.

(** The signal a process waits for, and whether it is pending. *)
Definition awaited (p : side) : Z := match p with ClientSide => SIGUSR2 | ServerSide => SIGUSR1 end.

Definition is_pending (p : side) (s : pending) : bool :=
  match p with ClientSide => usr2 s | ServerSide => usr1 s end.

Definition set_pending (p : side) (b : bool) (s : pending) : pending :=
  match p with ClientSide => Pending (usr1 s) b | ServerSide => Pending b (usr2 s) end.

(** [kill(0, n)] reaches both; the sender has a handler for the signal it sends. *)
Definition signals : object pending := Object _
  (fun p ev s =>
    match ev.1 with
    | Kill 0 n =>
        let s1 := if n =? SIGUSR1 then set_pending ServerSide true s else s in
        if n =? SIGUSR2 then set_pending ClientSide true s1 else s1
    | Sigwait set => set_pending p false s
    | _ => s
    end)
  (fun p s ev => match ev.1 with Sigwait _ => is_pending p s = true | _ => True end).

Definition signal_act (p : side) (c : call) : option action :=
  match c with
  | Kill pid n => Some (if (pid =? 0) && (n =? awaited (other p)) then Give else Never)
  | Sigwait set => Some (if bool_decide (set = [awaited p]) then Take else Never)
  | _ => None
  end.

Definition signal_tokens (s : pending) : list side :=
  (if usr1 s then [ServerSide] else []) ++ (if usr2 s then [ClientSide] else []).

#[export] Instance signals_pingpong : PingPong signals signal_act signal_tokens (fun _ => True).
Proof.
  split.
  - intros p c r s Ha _ _ Hs. destruct c; try done; cbn in Ha; [by case_bool_decide|].
    case_match; [|done]. bool_to_prop. subst. destruct s as [[] []]; try done. by destruct p.
  - intros p c r [u1 u2] Ha Hs _. destruct c; try done; cbn in *; [|by case_match].
    unfold signal_tokens. destruct p; cbn in *; subst; cbn.
    + split; [apply elem_of_app; right; by left|]. by destruct u1.
    + split; [by left|]. by destruct u2.
  - intros p c r s Ha. by destruct c.
  - done.
Qed.

Lemma signals_neither c : common_call c -> neither signal_act c.
Proof. by destruct c; intros H p. Qed.

#[export] Instance signals_local : Local (neither signal_act) := signals_neither.

Section process.
Context (e : env) (args : Arguments).
Local Abbreviation follows := (follows (start ClientSide) (step signal_act)).
Local Abbreviation at_phase := (at_phase (start ClientSide) (step signal_act)).
Local Abbreviation safe_own := (safe_own (start ClientSide) (step signal_act) (neither signal_act)
  (neither_step signal_act) e ServerSide).

Lemma signal_client_follows sa :
  sa_mask sa = [SIGUSR2] ->
  safe e (follows ClientSide) [] (Client.communicate sa args) (fun _ _ => True).
Proof.
  intros Hm. eapply safe_give; [done|apply at_first|]. intros h1 H1.
  apply (safe_while e _ (fun _ h => exists n, at_phase ClientSide (Want n) h)); [|by eauto].
  clear h1 H1. intros a h [n H]. apply safe_ret; [by eapply at_follows|]. cbn [post].
  case_match; [|done]. eapply safe_take; [cbn; by rewrite Hm|done|]. intros h1 H1. cbn [bind].
  eapply safe_give; [done|done|]. intros h2 H2. unfold add_i32.
  case_match; cbn [bind]; [apply safe_ret|apply safe_stop]; (by eapply at_follows) || (cbn; by eauto).
Qed.

Lemma signal_server_follows sa :
  sa_mask sa = [SIGUSR1] ->
  safe e (follows ServerSide) [] (Server.communicate sa args)
    (finished (start ClientSide) (step signal_act) ServerSide (fun ph => ph = Hold (Z.max 0 (count args)))).
Proof.
  intros Hm. eapply safe_take; [cbn; by rewrite Hm|apply at_second|]. intros h1 H1. cbn [bind].
  apply (safe_own (setup_benchmarks None) _ (Hold 0)); [local_calls|done|done|].
  intros bench h2 H2. apply safe_bind, (safe_while e _ (fun st h =>
    at_phase ServerSide (Hold st.1) h /\ 0 <= st.1 <= Z.max 0 (count args))).
  2: { split; [done|cbn; lia]. }
  clear h1 H1 h2 H2. intros [n b] h [H Hn]. cbn [fst snd] in *.
  apply safe_ret; [by eapply at_follows|]. cbn [post]. destruct (Z.ltb_spec n (count args)).
  - apply (safe_own (start_single b) _ (Hold n)); [local_calls|done|done|]. intros b' h1 H1.
    eapply safe_give; [done|done|]. intros h2 H2. cbn [bind].
    eapply safe_take; [cbn; by rewrite Hm|done|]. intros h3 H3. cbn [bind].
    apply (safe_own (benchmark b') _ (Hold (n + 1))); [local_calls|done|done|]. intros b2 h4 H4.
    apply safe_ret; [by eapply at_follows|]. cbn. split; [done|lia].
  - replace n with (Z.max 0 (count args)) in H by lia.
    eapply safe_last; [apply neither_step|local_calls|done|done|]. cbn. eauto.
Qed.
End process.

(** The signal client's loop decrements the wrong member: with a positive count it never
    returns, whatever the signals; it can only end by overflowing [args->size]. *)
Theorem signal_client_never_returns e h sa args o h' :
  0 < count args -> eval e h (Client.communicate sa args) o h' ->
  o = Halted (Undefined SignedOverflow).
Proof.
  intros Hc. assert (safe e (fun _ => True) h (Client.communicate sa args)
    (fun o _ => o = Halted (Undefined SignedOverflow))) as [_ H]; [|apply H].
  apply safe_call; [done|].
  apply (safe_while e _ (fun a _ => 0 < count a)); [|done].
  intros a h1 Ha. apply safe_ret; [done|]. cbn [post]. rewrite (proj2 (Z.ltb_lt _ _) Ha).
  apply safe_call; [done|]. cbn. apply safe_call; [done|]. unfold add_i32.
  case_match; cbn [bind]; [by apply safe_ret|by apply safe_stop].
Qed.

(** C18. signal: in every interleaving of the two loops, each with its own signal blocked, there is
    always exactly one signal under way or one process running: no signal is sent while
    another one is pending, so none is lost by merging. *)
Theorem signal_none_lost ec es sac sas argc args g :
  sa_mask sac = [SIGUSR2] -> sa_mask sas = [SIGUSR1] ->
  coherent signals (Pending false false) g ->
  visits ec [] (Client.communicate sac argc) (proj ClientSide g) ->
  visits es [] (Server.communicate sas args) (proj ServerSide g) ->
  passes signals signal_act signal_tokens ClientSide (Pending false false) g.
Proof.
  intros Hc Hs Hg Vc Vs. apply (token_passes signals signal_act signal_tokens (fun _ => True)); [done|done|done| |].
  - by eapply (signal_client_follows ec argc).
  - by eapply (signal_server_follows es args).
Qed.

(** ** A concrete run of one message *)

Definition client_mask : sigact := Sigact SIG_DFL [SIGUSR2] SA_RESTART.
Definition server_mask : sigact := Sigact SIG_DFL [SIGUSR1] SA_RESTART.

Definition client_calls : list event :=
  [(Kill 0 SIGUSR1, rret 0); (Sigwait [SIGUSR2], rret 0); (Kill 0 SIGUSR1, rret 0)].

Definition signal_trace : trace :=
  interleave [(ClientSide, 1%nat); (ServerSide, 4%nat); (ClientSide, 2%nat); (ServerSide, 20%nat)]
    client_calls (rev (history 20 plain (Server.communicate server_mask (Args 2 1 100)))).

Lemma signal_trace_coherent : coherent signals (Pending false false) signal_trace.
Proof. vm_compute. repeat split. Qed.

Lemma signal_none_lost_witness :
  passes signals signal_act signal_tokens ClientSide (Pending false false) signal_trace.
Proof.
  apply (signal_none_lost plain plain client_mask server_mask (Args 2 1 100) (Args 2 1 100)).
  - done.
  - done.
  - apply signal_trace_coherent.
  - apply vis_call, vis_iter_body. do 2 apply vis_call. apply vis_here.
  - apply (eval_visits _ _ _ (Val tt)), eval_run. exists 20%nat. vm_compute. reflexivity.
Defined.

(** The client with size -2^31: the first decrement overflows. *)
Lemma signal_client_never_returns_witness :
  exists h', eval plain [] (Client.communicate client_mask (Args (- 2 ^ 31) 1 100))
    (Halted (Undefined SignedOverflow)) h'.
Proof.
  assert (exists o h', eval plain [] (Client.communicate client_mask (Args (- 2 ^ 31) 1 100)) o h')
    as (o & h' & H).
  { do 2 eexists. apply eval_run. exists 3%nat. vm_compute. reflexivity. }
  exists h'. rewrite <- (signal_client_never_returns plain [] client_mask (Args (- 2 ^ 31) 1 100) o h');
    [exact H|done|exact H].
Defined.
