(* ===== verification/Mq.v ===== *)
(** * mq/: messages through a System V message queue

    Modules [Client] and [Server] are mq/client.c and mq/server.c. A [struct Message] is a block of
    memory: eight bytes of type, then the buffer. *)

From S2P Require Import Prelude CInt Prog Utility Arguments Benchmarks Signals Process Samples Joint.
From S2P Require Import Session Coexec Sound Exchange PingPong Relay.

Definition MAXIMUM_MESSAGE_SIZE : Z := 2048.
Definition CLIENT_MESSAGE : Z := 1.
Definition SERVER_MESSAGE : Z := 2.

(** [sizeof(struct Message)], and the offset of [buffer]. *)
Definition SIZEOF_MESSAGE : Z := 8.

(** ** mq/mq-common.c *)

Definition create_message (args : Arguments) : prog (list Z) :=
  malloc (u64 (SIZEOF_MESSAGE + u64 (size args))).

(** ** Accesses to a message *)

(** [message->type = type]. *)
Definition set_type (message : list Z) (type : Z) : prog (list Z) :=
  store_bytes message 0 (le_bytes 8 type).

(** [memset(message->buffer, c, n)]; a negative [int] becomes a size no object has. *)
Definition fill_buffer (message : list Z) (c n : Z) : prog (list Z) :=
  if n <? 0 then undefined OutOfBounds
  else store_bytes message SIZEOF_MESSAGE (replicate (Z.to_nat n) c).

(** [msgsnd(mq, message, n, flags)]. *)
Definition msgsnd (mq : Z) (message : list Z) (n flags : Z) : prog Z :=
  type <- load_bytes message 0 8 ;;
  buffer <- load_bytes message SIZEOF_MESSAGE n ;;
  sysret (Msgsnd mq (le_word type) buffer flags).

(** [msgrcv(mq, message, n, type, flags)], with a positive type: the message and the result. *)
Definition msgrcv (mq : Z) (message : list Z) (n type flags : Z) : prog (list Z * Z) :=
  r <- sys (Msgrcv mq (u64 n) type flags) ;;
  if ret r <? 0 then Ret (message, ret r)
  else
    message <- store_bytes message 0 (le_bytes 8 type ++ data r) ;;
    Ret (message, ret r).

(** ** mq/client.c *)

Module Client.
Definition communicate (mq : Z) (args : Arguments) : prog unit :=
  message <- create_message args ;;
  while (fun st : Z * list Z => Ret (0 <? st.1))
    (fun st =>
      '(message, r) <- msgrcv mq st.2 (size args) SERVER_MESSAGE 0 ;;
      when (r <? size args) (throw "Error receiving on client-side") ;;;
      message <- set_type message CLIENT_MESSAGE ;;
      message <- fill_buffer message 49 (size args) ;;
      r <- msgsnd mq message (size args) 0 ;;
      when (r =? -1) (throw "Error sending on client-side") ;;;
      Ret (st.1 - 1, message)) (count args, message) ;;;
  free.

Definition create_mq : prog Z :=
  client_once WAIT ;;;
  key <- generate_key "mq" ;;
  mq <- sysret (Msgget key 438) ;;
  when (mq =? -1) (throw "Error retrieving message-queue on client-side") ;;;
  Ret mq.

Definition main (argv : list string) : prog Z :=
  args <- parse_arguments argv ;;
  let args := if MAXIMUM_MESSAGE_SIZE <? size args
              then Args MAXIMUM_MESSAGE_SIZE (count args) (rate args) else args in
  mq <- create_mq ;;
  communicate mq args ;;;
  Ret EXIT_SUCCESS.
End Client.

(** ** mq/server.c *)

Module Server.
Definition cleanup (mq : Z) : prog unit :=
  r <- sysret (Msgctl mq IPC_RMID) ;;
  when (r =? -1) (throw "Error removing message queue") ;;;
  free.

Definition communicate (mq : Z) (args : Arguments) : prog unit :=
  message <- create_message args ;;
  bench <- setup_benchmarks None ;;
  '(_, bench) <- while (fun st : Z * list Z * Benchmarks => Ret (st.1.1 <? count args))
    (fun st =>
      let '(index, message, bench) := st in
      bench <- start_single bench ;;
      message <- set_type message SERVER_MESSAGE ;;
      message <- fill_buffer message 50 (size args) ;;
      r <- msgsnd mq message (size args) IPC_NOWAIT ;;
      when (r =? -1) (throw "Error sending on server-side") ;;;
      '(message, r) <- msgrcv mq message (size args) CLIENT_MESSAGE 0 ;;
      when (r <? size args) (throw "Error receiving on server-side") ;;;
      bench <- benchmark bench ;;
      Ret (index + 1, message, bench)) (0, message, bench) ;;
  evaluate bench args ;;;
  cleanup mq.

Definition create_mq : prog Z :=
  key <- generate_key "mq" ;;
  mq <- sysret (Msgget key (Z.lor IPC_CREAT 438)) ;;
  when (mq =? -1) (throw "Error creating message-queue on server-side") ;;;
  server_once NOTIFY ;;;
  Ret mq.

(** [fprintf(stderr, ...)]. *)
Definition limit_message_size (args : Arguments) : prog Arguments :=
  if MAXIMUM_MESSAGE_SIZE <? size args then
    sys_ (Printf "Reduced the message size to %d bytes!\n" [AInt MAXIMUM_MESSAGE_SIZE]) ;;;
    Ret (Args MAXIMUM_MESSAGE_SIZE (count args) (rate args))
  else Ret args.

Definition main (argv : list string) : prog Z :=
  args <- parse_arguments argv ;;
  args <- limit_message_size args ;;
  mq <- create_mq ;;
  communicate mq args ;;;
  Ret EXIT_SUCCESS.
End Server.

(** ** mq/mq.c *)

Definition main (file : list Z) (argv : list string) : prog Z :=
  setup_parent file "mq" argv ;;; Ret EXIT_SUCCESS.

(** ** The queue *)

(** A message: its type and its bytes. *)
Definition queue : Type := list (Z * list Z).

(** The first message of a type, and the queue without it. *)
Fixpoint fetch (type : Z) (q : queue) : option (list Z * queue) :=
  match q with
  | [] => None
  | (t, b) :: q =>
      if t =? type then Some (b, q)
      else match fetch type q with Some (b', q') => Some (b', (t, b) :: q') | None => None end
  end.

(** System V queues, without interruptions: sending to an empty queue succeeds, and receiving
    returns only with a message of the type asked for. *)
Definition message_queue : object queue := Object _
  (fun p ev q =>
    match ev.1 with
    | Msgsnd _ type b _ => if ret ev.2 =? 0 then q ++ [(type, b)] else q
    | Msgrcv _ _ type _ => match fetch type q with Some (_, q') => q' | None => q end
    | _ => q
    end)
  (fun p q ev =>
    match ev.1 with
    | Msgsnd _ _ _ _ => q = [] -> ret ev.2 = 0
    | Msgrcv _ n type _ =>
        exists b q', fetch type q = Some (b, q') /\ zlen b <= n /\ ret ev.2 = zlen b /\ data ev.2 = b
    | _ => True
    end).

Section protocol.
Context (len : Z).

(** The message a side sends: '1' from the client, '2' from the server. *)
Definition sent_type (p : side) : Z :=
  match p with ClientSide => CLIENT_MESSAGE | ServerSide => SERVER_MESSAGE end.

Definition sent_bytes (p : side) : list Z :=
  replicate (Z.to_nat len) match p with ClientSide => 49 | ServerSide => 50 end.

Definition mq_act (p : side) (c : call) : option action :=
  match c with
  | Msgsnd _ type b _ =>
      Some (if (type =? sent_type p) && bool_decide (b = sent_bytes p) then Give else Never)
  | Msgrcv _ _ type _ => Some (if type =? sent_type (other p) then Take else Never)
  | _ => None
  end.

(** The side a message is for. *)
Definition addressee (m : Z * list Z) : side :=
  if m.1 =? SERVER_MESSAGE then ClientSide else ServerSide.

Definition mq_tokens (q : queue) : list side := map addressee q.

(** Every message in the queue is one that a side sends. *)
Definition mq_good (q : queue) : Prop :=
  Forall (fun m => exists p, m = (sent_type p, sent_bytes p)) q.

Lemma fetch_good type q b q' : mq_good q -> fetch type q = Some (b, q') ->
  mq_good q' /\ exists p, type = sent_type p /\ b = sent_bytes p.
Proof.
  unfold mq_good. revert b q'. induction q as [|[t b0] q IH]; cbn; intros b q' Hg Hf; [done|].
  apply Forall_cons in Hg as [[p [= -> ->]] Hg]. case_match.
  - bool_to_prop. simplify_eq. eauto.
  - destruct (fetch type q) as [[b1 q1]|]; simplify_eq. destruct (IH _ _ Hg eq_refl) as [??].
    split; [|done]. apply Forall_cons. eauto.
Qed.

Lemma fetch_token type q b q' p : fetch type q = Some (b, q') -> type = sent_type (other p) ->
  p ∈ mq_tokens q /\ (mq_tokens q = [p] -> mq_tokens q' = []).
Proof.
  unfold mq_tokens. revert b q'. induction q as [|[t b0] q IH]; cbn; intros b q' Hf Ht; [done|]. case_match.
  - bool_to_prop. simplify_eq. split; [|by intros [= _ ->]]. by destruct p; left.
  - destruct (fetch type q) as [[b1 q1]|]; simplify_eq. destruct (IH _ _ eq_refl eq_refl) as [Hin _].
    split; [by right|]. intros [= _ E]. rewrite E in Hin. by apply not_elem_of_nil in Hin.
Qed.

#[export] Instance queue_pingpong : PingPong message_queue mq_act mq_tokens mq_good.
Proof.
  split.
  - intros p c r q Ha Hr _ Ht. destruct c; try done; cbn in Ha; [|by case_match].
    apply map_eq_nil in Ht as ->. case_match; [|done]. bool_to_prop. cbn in *.
    rewrite Hr by done. subst. by destruct p.
  - intros p c r q Ha Hr _. destruct c; try done; cbn in Ha; [by case_match|].
    case_match; [|done]. bool_to_prop. destruct Hr as (b & q' & Hf & _). cbn. rewrite Hf.
    by eapply fetch_token.
  - intros p c r q Ha. by destruct c.
  - intros p c r q Ha Hr Hg. destruct c; try done; cbn in *.
    + destruct (type =? sent_type p) eqn:E, (bool_decide_reflect (buf = sent_bytes p)); try done.
      bool_to_prop. subst. clear Ha. destruct (ret r =? 0); [|done]. apply Forall_app. split; [done|]. by repeat econstructor.
    + destruct Hr as (b & q' & Hf & _). rewrite Hf. by eapply fetch_good.
Qed.

(** ** Both programs follow the protocol *)

#[export] Instance queue_local : Local (neither mq_act).
Proof. by intros c H p; destruct c. Qed.

(** A message that has been given a type and a content. *)
Lemma compose_message {A} m t c (k : list Z -> prog A) :
  let p := (m <- set_type m t ;; m <- fill_buffer m c len ;; k m) in
  p = undefined OutOfBounds \/
  exists tail, p = k (le_bytes 8 t ++ replicate (Z.to_nat len) c ++ tail) /\ 0 <= len.
Proof.
  cbn zeta. unfold set_type, fill_buffer, store_bytes. case_match; [|by left]. cbn [bind].
  destruct (Z.ltb_spec len 0); [by left|]. case_match; [|by left]. cbn [bind]. right.
  eexists. split; [|done]. f_equal.
Qed.

Lemma message_parts t bytes tail :
  zslice 0 8 (le_bytes 8 t ++ bytes ++ tail) = le_bytes 8 t /\
  zslice SIZEOF_MESSAGE (zlen bytes) (le_bytes 8 t ++ bytes ++ tail) = bytes.
Proof.
  unfold zslice. change 8 with (zlen (le_bytes 8 t)) at 1.
  change SIZEOF_MESSAGE with (zlen (le_bytes 8 t)).
  by rewrite zdrop_0, ztake_app_exact, zdrop_app_exact, ztake_app_exact.
Qed.

(** ** The session *)

(** A receiver has room for a whole message. *)
Definition mq_ok (p : side) (c : call) : bool :=
  match c with Msgrcv _ n _ _ => u64 len <=? n | _ => true end.

Definition mq_carries (p : side) (ev : event) : list Z :=
  match ev.1 with Msgsnd _ _ b _ => b | Msgrcv _ _ _ _ => data ev.2 | _ => [] end.

Definition mq_content (q : queue) : list Z := match q with [] => [] | (_, b) :: _ => b end.

Lemma zlen_sent p : zlen (sent_bytes p) = Z.max 0 len.
Proof. unfold sent_bytes, zlen. rewrite length_replicate. lia. Qed.

Lemma u64_len : 0 <= len < 2 ^ 64 -> u64 len = len.
Proof. intros. apply u64_small. unfold in_u64, u64_mod. lia. Qed.

#[export] Instance queue_mailbox (Hlen : 0 <= len < 2 ^ 64) :
  Mailbox message_queue mq_act mq_tokens mq_good mq_ok mq_carries mq_content.
Proof.
  split.
  - intros p c q Ha _ _ _. exists (rret 0). destruct c; try done. cbn in Ha. by case_match.
  - intros p c q Ha Ho Hg Ht. destruct c; try done; cbn in Ha; [by case_match|].
    case_match; [|done]. bool_to_prop. subst. destruct q as [|[t b] [|]]; try done.
    apply Forall_cons in Hg as [[p' [= -> ->]] _]. exists (rdata (zlen (sent_bytes p')) (sent_bytes p')).
    cbn in *. bool_to_prop. rewrite u64_len in Ho by done. exists (sent_bytes p'), []. split_and!; [|rewrite zlen_sent; lia|done|done].
    by destruct p, p'.
  - intros p c q Ha. exists (rret 0). by destruct c.
  - intros p c r q Ha Hr _ Ht. destruct c; try done; cbn in Ha; [|by case_match].
    apply map_eq_nil in Ht as ->. cbn in *. by rewrite Hr.
  - intros p c r q Ha _ Hr Hg Ht. destruct c; try done; cbn in Ha; [by case_match|].
    destruct Hr as (b & q' & Hf & _ & _ & Hd). cbn in *. rewrite Hd.
    destruct q as [|[t b'] [|]]; try done. cbn in *. case_match; by simplify_eq.
  - intros p c r q Ha. by destruct c.
Qed.

Section process.
Context (p : side) (limit : Z).
Local Abbreviation typed := (typed (relay_session mq_act mq_ok ServerSide limit) p).

Lemma typed_send {A} (k : list Z -> Z -> prog A) m q f n (Q : A -> phase -> Prop) :
  n < limit -> (forall m r, typed Q (Want (n + 1)) (k m r)) ->
  typed Q (Hold n)
    (m <- set_type m (sent_type p) ;;
     m <- fill_buffer m (match p with ClientSide => 49 | ServerSide => 50 end) len ;;
     r <- msgsnd q m len f ;; k m r).
Proof.
  intros Hn Hk.
  destruct (compose_message m (sent_type p) (match p with ClientSide => 49 | ServerSide => 50 end)
    (fun m => r <- msgsnd q m len f ;; k m r)) as [->|(tail & -> & Hl)]; [by apply typed_stop|].
  fold (sent_bytes p). destruct (message_parts (sent_type p) (sent_bytes p) tail) as [E1 E2].
  rewrite zlen_sent, Z.max_r in E2 by done. unfold msgsnd, load_bytes. rewrite E1, E2.
  case_match; [|by apply typed_stop]. cbn [bind]. case_match; [|by apply typed_stop].
  cbn [bind]. apply typed_give; [|done|done|intros; apply Hk].
  cbn. rewrite bool_decide_true by done. by destruct p.
Qed.

Lemma typed_receive {A} (k : list Z * Z -> prog A) m q f n (Q : A -> phase -> Prop) :
  p = ServerSide \/ n < limit -> (forall st, typed Q (Hold n) (k st)) ->
  typed Q (Want n) (st <- msgrcv q m len (sent_type (other p)) f ;; k st).
Proof.
  intros Hn Hk. unfold msgrcv. cbn [bind].
  apply typed_take; [cbn; by rewrite Z.eqb_refl|by apply Z.leb_le|done|]. intros r. case_match; cbn [bind]; [by apply Hk|]. unfold store_bytes.
  case_match; cbn [bind]; [by apply Hk|by apply typed_stop].
Qed.
End process.

Local Abbreviation session limit := (relay_session mq_act mq_ok ServerSide limit).

Lemma mq_client_typed mq args :
  size args = len ->
  typed (session (Z.max 0 (count args))) ClientSide
    (fun _ => relay_ended ServerSide (Z.max 0 (count args)) ClientSide)
    (Want 0) (Client.communicate mq args).
Proof.
  intros Hl. unfold Client.communicate. rewrite Hl. set (limit := Z.max 0 (count args)).
  apply relay_own; [local_calls|]. intros m.
  eapply typed_bind; [apply (typed_down _ _ Want fst)|].
  - intros [left_ b] n Hn. cbn [fst snd] in *.
    apply (typed_receive ClientSide); [right; lia|]. intros [m1 r].
    apply relay_own; [local_calls|]. intros [].
    apply (typed_send ClientSide); [lia|]. intros m2 r2.
    apply relay_own; [local_calls|]. intros []. by apply typed_ret.
  - intros st ph ->. apply relay_last; [local_calls|done].
Qed.

Lemma mq_server_typed mq args :
  size args = len ->
  typed (session (Z.max 0 (count args))) ServerSide
    (fun _ => relay_ended ServerSide (Z.max 0 (count args)) ServerSide)
    (Hold 0) (Server.communicate mq args).
Proof.
  intros Hl. unfold Server.communicate. rewrite Hl. set (limit := Z.max 0 (count args)).
  apply relay_own; [local_calls|]. intros m. apply relay_own; [local_calls|]. intros b.
  eapply typed_bind; [apply (typed_up _ _ Hold (fun st => st.1.1)); [done|]|].
  - intros [[n m1] b1] Hn. cbn [fst snd] in *. apply relay_own; [local_calls|]. intros b2.
    apply (typed_send ServerSide); [lia|]. intros m2 r2.
    apply relay_own; [local_calls|]. intros [].
    apply (typed_receive ServerSide); [by left|]. intros [m3 r3].
    apply relay_own; [local_calls|]. intros []. apply relay_own; [local_calls|]. intros b3.
    by apply typed_ret.
  - intros [[st m1] b1] ph ->. apply relay_last; [local_calls|done].
Qed.
End protocol.

(** mq: in every interleaving of the two loops over an empty queue that is theirs alone, there is
    never more than one message in the queue, the two take turns, one of them can always go
    on, and each message received is the other side's last one, whole. *)
Theorem mq_exchange ec es mq argc args g :
  size argc = size args ->
  coherent message_queue [] g ->
  visits ec [] (Client.communicate mq argc) (proj ClientSide g) ->
  visits es [] (Server.communicate mq args) (proj ServerSide g) ->
  passes message_queue (mq_act (size args)) mq_tokens ServerSide [] g /\
  forall p q n t f r, In (p, (Msgrcv q n t f, r)) g ->
    data r = sent_bytes (size args) (other p) /\ ret r = zlen (data r).
Proof.
  intros Hz Hg Vc Vs.
  pose proof (relay_follows _ _ _ _ ec ClientSide _ _ _ (mq_client_typed (size args) mq argc Hz) Vc) as Fc.
  pose proof (relay_follows _ _ _ _ es ServerSide _ _ _ (mq_server_typed (size args) mq args eq_refl) Vs) as Fs.
  assert (mq_good (size args) []) as G0 by constructor.
  split; [by apply (token_passes message_queue _ mq_tokens (mq_good (size args)))|].
  intros p q n t f r Hr.
  destruct (token_event message_queue _ mq_tokens _ ServerSide [] eq_refl G0 g p _ Hg Fc Fs Hr)
    as (s & Hgood & (b & q' & Hf & _ & Hret & Hb) & Ha).
  destruct (fetch_good _ _ _ _ _ Hgood Hf) as (_ & p' & -> & ->).
  cbn in Hret, Hb. rewrite Hb, Hret. split; [|done]. cbn in Ha.
  by destruct p, p'.
Qed.

(** ** A concrete run of one message of two bytes *)

Definition queue_env (message : list Z) : env := fun h c =>
  match c with
  | Msgrcv _ _ _ _ => rdata (zlen message) message
  | _ => plain h c
  end.

Definition mq_trace : trace :=
  interleave [(ClientSide, 1%nat); (ServerSide, 4%nat); (ClientSide, 2%nat); (ServerSide, 20%nat);
              (ClientSide, 2%nat)]
    (rev (history 20 (queue_env [50; 50]) (Client.communicate 7 (Args 2 1 100))))
    (rev (history 20 (queue_env [49; 49]) (Server.communicate 7 (Args 2 1 100)))).

Lemma mq_trace_coherent : coherent message_queue [] mq_trace.
Proof. vm_compute. repeat split; try discriminate. all: do 2 eexists; repeat split; discriminate. Qed.

Lemma mq_exchange_witness :
  passes message_queue (mq_act 2) mq_tokens ServerSide [] mq_trace /\
  forall p q n t f r, In (p, (Msgrcv q n t f, r)) mq_trace ->
    data r = sent_bytes 2 (other p) /\ ret r = zlen (data r).
Proof.
  apply (mq_exchange (queue_env [50; 50]) (queue_env [49; 49]) 7 (Args 2 1 100) (Args 2 1 100)).
  - done.
  - apply mq_trace_coherent.
  - apply (eval_visits _ _ _ (Val tt)), eval_run. exists 20%nat. vm_compute. reflexivity.
  - apply (eval_visits _ _ _ (Val tt)), eval_run. exists 20%nat. vm_compute. reflexivity.
Defined.

(** ** The two loops under a scheduler *)

Definition mq_pair (mq : Z) (args : Arguments) (p : side) : prog unit :=
  match p with ClientSide => Client.communicate mq args | ServerSide => Server.communicate mq args end.

Lemma mq_pair_typed mq args p :
  typed (relay_session (mq_act (size args)) (mq_ok (size args)) ServerSide (Z.max 0 (count args))) p
    (fun _ => relay_ended ServerSide (Z.max 0 (count args)) p) (start ServerSide p) (mq_pair mq args p).
Proof. destruct p; [by apply mq_client_typed|by apply mq_server_typed]. Qed.

(** ** The two loops do not stop *)

(** The queue takes a message when it is empty, and gives whole messages. *)
Definition mq_answer (len : Z) (ev : event) : Prop :=
  granted ev /\
  match ev.1 with
  | Msgsnd _ _ _ _ => ret ev.2 = 0
  | Msgrcv _ _ _ _ => ret ev.2 = len /\ zlen (data ev.2) = len
  | _ => True
  end.

Lemma mq_answer_granted len ev : mq_answer len ev -> granted ev.
Proof. by intros [??]. Qed.

Lemma mq_answers len p c r q :
  0 <= len -> mq_good len q -> answers message_queue p q (c, r) -> mq_act len p c <> Some Never ->
  (mq_act len p c = Some Give -> mq_tokens q = []) -> granted (c, r) -> mq_answer len (c, r).
Proof.
  intros Hl Hg Ha Hn Ht Hr. split; [done|]. destruct c; try done; cbn in *.
  - destruct (_ && _) in Hn, Ht; [|done]. by apply Ha, (map_eq_nil addressee), Ht.
  - destruct Ha as (b & q' & Hf & _ & -> & ->). destruct (fetch_good len _ _ _ _ Hg Hf) as (_ & p' & _ & ->).
    rewrite zlen_sent. lia.
Qed.

Section sound.
Context (len : Z) (Hlen : 0 <= len <= MAXIMUM_MESSAGE_SIZE).
Context {A : Type} (Q : A -> Prop).
Local Abbreviation sound := (sound (mq_answer len)).

Lemma zlen_le_bytes8 z : zlen (le_bytes 8 z) = 8.
Proof. done. Qed.

Lemma sound_create_message args (k : list Z -> prog A) :
  size args = len -> (forall m, zlen m = SIZEOF_MESSAGE + len -> sound Q (k m)) ->
  sound Q (bind (create_message args) k).
Proof.
  intros Hs Hk. unfold create_message, MAXIMUM_MESSAGE_SIZE, SIZEOF_MESSAGE in *. rewrite Hs.
  rewrite (u64_small len), u64_small by (unfold in_u64, u64_mod; lia).
  apply (sound_malloc _ (mq_answer_granted len)); [lia|done].
Qed.

(** A message is filled in and sent. *)
Lemma sound_send m t c q f (k : list Z -> Z -> prog A) :
  zlen m = SIZEOF_MESSAGE + len -> (forall m, zlen m = SIZEOF_MESSAGE + len -> sound Q (k m 0)) ->
  sound Q (m <- set_type m t ;; m <- fill_buffer m c len ;; r <- msgsnd q m len f ;; k m r).
Proof.
  unfold SIZEOF_MESSAGE. intros Hm Hk. unfold set_type. pose proof (zlen_le_bytes8 t).
  apply sound_store; [lia|lia|]. intros m1 _ E1. unfold fill_buffer, SIZEOF_MESSAGE.
  rewrite (proj2 (Z.ltb_ge _ _)) by lia.
  assert (zlen (replicate (Z.to_nat len) c) = len) as E by (unfold zlen; rewrite length_replicate; lia).
  apply sound_store; [lia|lia|]. intros m2 _ E2. unfold msgsnd, SIZEOF_MESSAGE. rewrite bind_assoc.
  apply sound_load; [lia..|]. rewrite bind_assoc. apply sound_load; [lia..|]. cbn [bind sysret].
  apply sound_call. intros r [_ Hr]. cbn in Hr. rewrite Hr. apply Hk. lia.
Qed.

Lemma sound_receive m t q f (k : list Z * Z -> prog A) :
  zlen m = SIZEOF_MESSAGE + len -> (forall m, zlen m = SIZEOF_MESSAGE + len -> sound Q (k (m, len))) ->
  sound Q (bind (msgrcv q m len t f) k).
Proof.
  unfold SIZEOF_MESSAGE. intros Hm Hk. unfold msgrcv. cbn [bind sys]. apply sound_call. intros r [_ [Hr Hd]].
  cbn in Hr, Hd. rewrite Hr, (proj2 (Z.ltb_ge _ _)) by lia. rewrite bind_assoc.
  pose proof (zlen_le_bytes8 t). apply sound_store; [lia|rewrite zlen_app; lia|].
  intros m' _ E. apply Hk. lia.
Qed.
End sound.

Lemma mq_pair_sound mq args p :
  0 <= size args <= MAXIMUM_MESSAGE_SIZE -> 0 < count args ->
  sound (mq_answer (size args)) (fun _ => True) (mq_pair mq args p).
Proof.
  intros Hs Hc. pose proof (mq_answer_granted (size args)) as HG.
  destruct p; unfold mq_pair, Client.communicate, Server.communicate;
    (apply sound_create_message; [done..|]); intros m Hm.
  - apply (sound_bind _ (fun _ => True)); [|intros st _; apply sound_sys_].
    apply (sound_while _ (fun st => zlen st.2 = SIZEOF_MESSAGE + size args)); [done| |done].
    intros [n m1] Hm1 _. cbn in Hm1. cbn [fst snd]. apply sound_receive; [done..|]. intros m2 Hm2.
    apply sound_when; [apply Z.ltb_ge; lia|]. apply sound_send; [done..|]. intros m3 Hm3. by apply sound_ret.
  - apply (sound_setup_benchmarks _ HG). intros b.
    apply (sound_bind _ (fun _ => True)).
    + apply (sound_while _ (fun st => zlen st.1.2 = SIZEOF_MESSAGE + size args)); [done| |done].
      intros [[n m1] b1] Hm1 _. cbn in Hm1. apply (sound_start_single _ HG). intros b2 Hb2.
      apply sound_send; [done..|]. intros m2 Hm2. apply sound_when; [done|].
      apply sound_receive; [done..|]. intros m3 Hm3. apply sound_when; [apply Z.ltb_ge; lia|].
      apply (sound_benchmark _ HG); [done|]. intros b3. by apply sound_ret.
    + intros [[n m1] b1] _. apply (sound_evaluate _ HG); [done|]. unfold Server.cleanup. cbn [bind sysret].
      apply sound_call. intros r [Hr _]. cbn in Hr. apply sound_when; [by apply Z.eqb_neq|]. apply sound_sys_.
Qed.

Definition mq_behaviour (args : Arguments) (g : trace) : list label :=
  behaviour (observe (mq_act (size args)) mq_carries) g.

Section pair.
Context (mq : Z) (args : Arguments) (Hsize : 0 <= size args < 2 ^ 64).
Local Abbreviation limit := (Z.max 0 (count args)).

(** C7. mq refines the exchange: every interleaving of the two programs over the queue is a run of the
    abstract machine, with the content of the messages, and if both return all rounds are made. *)
Theorem mq_refines_exchange cf :
  reachable message_queue [] (Config (mq_pair mq args) []) cf ->
  exists st, behaves ServerSide limit (Between 0) (mq_behaviour args (events cf)) = Some st /\
    ((forall p, returned p cf) -> st = Between limit).
Proof.
  pose proof (queue_mailbox (size args) Hsize) as HM.
  apply (relay_refines message_queue _ mq_tokens (mq_good (size args)) (mq_ok (size args)) mq_carries
    mq_content ServerSide limit ltac:(lia) (mq_pair mq args)); [apply mq_pair_typed|done|by constructor].
Qed.

(** C8. mq, with at least one message of a size that both mains allow: under every fair scheduler both
    programs return; neither waits for a message that does not come, finds one too short, or exits. *)
Theorem mq_terminates sched run :
  size args <= MAXIMUM_MESSAGE_SIZE -> 0 < count args ->
  fair sched -> execution message_queue [] sched run -> run 0%nat = Config (mq_pair mq args) [] ->
  all_granted run ->
  exists n, forall p, returned p (run n).
Proof.
  intros Hmax Hc. pose proof (queue_mailbox (size args) Hsize) as HM.
  apply (relay_returns message_queue _ mq_tokens (mq_good (size args)) (mq_ok (size args)) mq_carries
    mq_content ServerSide limit ltac:(lia) (mq_pair mq args) [] (mq_pair_typed mq args) eq_refl
    (Forall_nil_2 _) (fun _ => mq_answer (size args))).
  - intros p c r q. apply mq_answers. lia.
  - intros p. apply mq_pair_sound; [lia|done].
Qed.
End pair.

(** A queue that answers when it can. *)
Definition mq_ask (p : side) (q : queue) (c : call) : option resp :=
  match c with
  | Msgrcv _ n type _ =>
      match fetch type q with
      | Some (b, _) => if zlen b <=? n then Some (rdata (zlen b) b) else None
      | None => None
      end
  | _ => Some (plain [] c)
  end.

Lemma mq_ask_answers p q c r : mq_ask p q c = Some r -> answers message_queue p q (c, r).
Proof.
  destruct c; try done.
  - intros [= <-]. done.
  - cbn. destruct (fetch type q) as [[b q']|]; [|done]. case_match; [|done]. bool_to_prop.
    intros [= <-]. by exists b, q'.
Qed.

Lemma mq_ask_blocked p q c r : mq_ask p q c = None -> ~ answers message_queue p q (c, r).
Proof.
  destruct c; try done. cbn. intros H (b & q' & Hf & Hb & _). rewrite Hf in H.
  apply Z.leb_le in Hb. by rewrite Hb in H.
Qed.

Lemma mq_ask_granted p q c r : mq_ask p q c = Some r -> granted (c, r).
Proof.
  pose proof (plain_granted [] c) as H. destruct c; try done; cbn -[plain]; try (by intros [= <-]).
Qed.

(** One message of two bytes, turn by turn. *)
Definition mq_run : nat -> config unit :=
  play message_queue [] mq_ask 9 round_robin (Config (mq_pair 7 (Args 2 1 100)) []).

Lemma mq_run_execution : execution message_queue [] round_robin mq_run.
Proof.
  apply (plays_execution _ _ _ _ mq_ask_answers mq_ask_blocked _ 60). by vm_compute.
Qed.

Lemma mq_terminates_witness : exists n, forall p, returned p (mq_run n).
Proof.
  apply (mq_terminates 7 (Args 2 1 100) ltac:(done) round_robin).
  - done.
  - done.
  - apply round_robin_fair.
  - apply mq_run_execution.
  - done.
  - apply play_granted; [apply mq_ask_granted|done].
Defined.

Lemma mq_refines_exchange_witness :
  exists st, behaves ServerSide 1 (Between 0) (mq_behaviour (Args 2 1 100) (events (mq_run 60))) = Some st /\
    ((forall p, returned p (mq_run 60)) -> st = Between 1).
Proof.
  apply (mq_refines_exchange 7 (Args 2 1 100) ltac:(done)).
  apply (execution_reachable _ _ round_robin mq_run), mq_run_execution.
Defined.
