(* ===== verification/Eventfd.v ===== *)
(** * eventfd/: two processes that share the counter of an eventfd

    Modules [Bi] (eventfd-bi.c: the counter goes back and forth) and [Uni] (eventfd-uni.c: the
    client adds time stamps to the counter, the server reads them). *)

From S2P Require Import Prelude CInt Prog Utility Arguments Benchmarks Process Samples Joint.

(** [fork], and the two sides of a benchmark that is one program. *)
Definition fork_sides (client server : prog unit) : prog unit :=
  pid <- sysret Fork ;;
  when (pid =? -1) (throw "Error forking process") ;;;
  if pid =? 0 then client else server.

(** ** eventfd-bi.c *)

Module Bi.
Definition SERVER_TOKEN : Z := 1.
Definition CLIENT_TOKEN : Z := 2.

Definition eventfd_notify (descriptor value : Z) : prog unit :=
  r <- sysret (Write descriptor (le_bytes 8 value)) ;;
  when (r =? -1) (throw "Error writing to eventfd").

(** [while (true) { read; compare; write back }]. *)
Definition wait_step (descriptor wanted : Z) (_ : unit) : prog (unit + unit) :=
  r <- sys (Read descriptor 8) ;;
  when (ret r =? -1) (throw "Error reading from eventfd") ;;;
  let stored := le_word (data r) in
  if stored =? wanted then Ret (inr tt)
  else
    w <- sysret (Write descriptor (le_bytes 8 stored)) ;;
    when (w =? -1) (throw "Error writing back to eventfd") ;;;
    Ret (inl tt).

Definition eventfd_wait (descriptor wanted : Z) : prog unit := loop (wait_step descriptor wanted) tt.

Definition client_communicate (descriptor : Z) (args : Arguments) : prog unit :=
  while (fun count => Ret (0 <? count))
    (fun count =>
      eventfd_notify descriptor SERVER_TOKEN ;;;
      eventfd_wait descriptor CLIENT_TOKEN ;;;
      Ret (count - 1)) (count args) ;;;
  Ret tt.

Definition server_communicate (descriptor : Z) (args : Arguments) : prog unit :=
  bench <- setup_benchmarks None ;;
  '(_, bench) <- while (fun st : Z * Benchmarks => Ret (st.1 <? count args))
    (fun st =>
      let '(message, bench) := st in
      bench <- start_single bench ;;
      eventfd_wait descriptor SERVER_TOKEN ;;;
      eventfd_notify descriptor CLIENT_TOKEN ;;;
      bench <- benchmark bench ;;
      Ret (message + 1, bench)) (0, bench) ;;
  evaluate bench (Args 1 (count args) (rate args)).

Definition communicate (descriptor : Z) (args : Arguments) : prog unit :=
  fork_sides (client_communicate descriptor args ;;; sys_ (Close descriptor))
    (server_communicate descriptor args).

Definition main (argv : list string) : prog Z :=
  args <- parse_arguments argv ;;
  descriptor <- sysret (Eventfd 0 0) ;;
  communicate descriptor args ;;;
  Ret EXIT_SUCCESS.
End Bi.

(** ** eventfd-uni.c *)

Module Uni.
Definition client_communicate (descriptor : Z) (args : Arguments) : prog unit :=
  while (fun count => Ret (0 <? count))
    (fun count =>
      timestamp <- now ;;
      r <- sysret (Write descriptor (le_bytes 8 timestamp)) ;;
      when (r =? -1) (throw "Error writing to eventfd") ;;;
      Ret (count - 1)) (count args) ;;;
  Ret tt.

(** [bench.single_start = value]. *)
Definition set_start (bench : Benchmarks) (value : Z) : Benchmarks :=
  Bench (total_start bench) (Some value) (minimum bench) (maximum bench) (sum bench) (squared_sum bench).

Definition server_communicate (descriptor : Z) (args : Arguments) : prog unit :=
  bench <- setup_benchmarks None ;;
  '(_, bench) <- while (fun st : Z * Benchmarks => Ret (st.1 <? count args))
    (fun st =>
      let '(message, bench) := st in
      r <- sys (Read descriptor 8) ;;
      when (ret r =? -1) (throw "Error reading from eventfd") ;;;
      bench <- benchmark (set_start bench (le_word (data r))) ;;
      Ret (message + 1, bench)) (0, bench) ;;
  evaluate bench (Args 1 (count args) (rate args)).

Definition communicate (descriptor : Z) (args : Arguments) : prog unit :=
  fork_sides (client_communicate descriptor args ;;; sys_ (Close descriptor))
    (server_communicate descriptor args).

Definition main (argv : list string) : prog Z :=
  args <- parse_arguments argv ;;
  descriptor <- sysret (Eventfd 0 0) ;;
  communicate descriptor args ;;;
  Ret EXIT_SUCCESS.
End Uni.

(** ** The counter *)

(** The largest value of the counter. *)
Definition EVENTFD_MAX : Z := 2 ^ 64 - 2.

(** The calls that the protocols are not about. *)
Definition not_counter (c : call) : Prop :=
  match c with Read _ _ | Write _ _ => False | _ => True end.

#[export] Instance not_counter_local : Local not_counter.
Proof. by intros []. Qed.

(** A blocking eventfd: a read returns the counter when it is positive and resets it, a write
    adds to it when there is room. The state is the list of the values added since the last
    read; the counter is their sum. *)
Definition total (values : list Z) : Z := foldr Z.add 0 values.

Definition counter : object (list Z) := Object _
  (fun p ev s =>
    match ev.1 with
    | Read _ _ => []
    | Write _ buf => s ++ [le_word buf]
    | _ => s
    end)
  (fun p s ev =>
    match ev.1 with
    | Read _ _ => 0 < total s /\ ret ev.2 = 8 /\ data ev.2 = le_bytes 8 (total s)
    | Write _ buf => total s + le_word buf <= EVENTFD_MAX /\ ret ev.2 = 8
    | _ => True
    end).

Lemma word_bytes v : 0 <= v <= EVENTFD_MAX -> le_word (le_bytes 8 v) = v.
Proof. unfold EVENTFD_MAX. intros. apply le_word_bytes. lia. Qed.

(** ** eventfd-bi.c: one token *)

(** The value a side waits for. *)
Definition token (p : side) : Z :=
  match p with ClientSide => Bi.CLIENT_TOKEN | ServerSide => Bi.SERVER_TOKEN end.

Definition opposite (p : side) : side :=
  match p with ClientSide => ServerSide | ServerSide => ClientSide end.

(** [gives]: the notifications so far. [Back]: the process has read a value that it does not
    want and has to write it back. *)
Inductive bi_phase :=
| Hold (gives : Z)
| Want (gives : Z)
| Back (gives value : Z).

Definition bi_start (p : side) : bi_phase :=
  match p with ClientSide => Hold 0 | ServerSide => Want 0 end.

Definition bi_step (p : side) (ph : bi_phase) (ev : event) : option bi_phase :=
  match ev.1, ph with
  | Read d n, Want g =>
      let v := le_word (data ev.2) in Some (if v =? token p then Hold g else Back g v)
  | Write d buf, Hold g =>
      if bool_decide (buf = le_bytes 8 (token (opposite p))) then Some (Want (g + 1)) else None
  | Write d buf, Back g v => if bool_decide (buf = le_bytes 8 v) then Some (Want g) else None
  | Read _ _, _ | Write _ _, _ => None
  | _, _ => Some ph
  end.

Lemma bi_own p c r ph : not_counter c -> bi_step p ph (c, r) = Some ph.
Proof. by destruct c. Qed.

(** The phases of the client and of the server, and the counter. *)
Inductive bi_joint (s : list Z) : bi_phase -> bi_phase -> Prop :=
| bi_client n : total s = 0 -> bi_joint s (Hold n) (Want n)
| bi_out n : total s = 1 -> bi_joint s (Want (n + 1)) (Want n)
| bi_out_back n : total s = 0 -> bi_joint s (Back (n + 1) 1) (Want n)
| bi_server n : total s = 0 -> bi_joint s (Want (n + 1)) (Hold n)
| bi_in n : total s = 2 -> bi_joint s (Want (n + 1)) (Want (n + 1))
| bi_in_back n : total s = 0 -> bi_joint s (Want (n + 1)) (Back (n + 1) 2).

Lemma total_app s v : total (s ++ [v]) = total s + v.
Proof. unfold total. induction s as [|x s IH]; cbn; lia. Qed.

Lemma bi_joint_read p d n r s pc ps :
  bi_joint s pc ps -> answers counter p s (Read d n, r) ->
  joint_next counter bi_step bi_joint p (Read d n, r) s pc ps.
Proof.
  intros J (Hpos & _ & Hd). cbn in Hd. unfold joint_next.
  destruct J as [k E|k E|k E|k E|k E|k E]; rewrite E in *; try lia;
    destruct p; intros ph [= <-]; cbn; rewrite Hd; by constructor.
Qed.

Lemma bi_joint_write p d buf r s pc ps :
  bi_joint s pc ps -> joint_next counter bi_step bi_joint p (Write d buf, r) s pc ps.
Proof.
  intros J. unfold joint_next.
  destruct J as [k E|k E|k E|k E|k E|k E]; destruct p; intros ph Hs; cbn in Hs; try done;
    case_bool_decide as Hb; try done; injection Hs as <-; subst buf; cbn;
    constructor; by rewrite total_app, E.
Qed.

Lemma bi_joint_step p ev s pc ps :
  bi_joint s pc ps -> answers counter p s ev -> joint_next counter bi_step bi_joint p ev s pc ps.
Proof.
  destruct ev as [c r]. intros J Ha.
  destruct c; try (by destruct p; intros ph' [= <-]); [by apply bi_joint_read|by apply bi_joint_write].
Qed.

Definition bi_trace := joint_trace counter bi_start bi_step bi_joint [] (bi_client [] 0 eq_refl) bi_joint_step.

Definition bi_gives (ph : bi_phase) : Z := match ph with Hold n | Want n | Back n _ => n end.
Definition bi_holds (ph : bi_phase) : Prop := match ph with Hold _ => True | _ => False end.
Definition bi_wants (ph : bi_phase) : Prop := match ph with Want _ => True | _ => False end.

(** At every moment the two sides exclude each other, the client is at most one notification
    ahead, and the counter holds the one token exactly when both wait for it. *)
Definition bi_passes (g : trace) : Prop :=
  forall g1 g2, g = g1 ++ g2 -> exists pc ps,
    phase_of bi_start bi_step ClientSide (proj ClientSide g2) = Some pc /\
    phase_of bi_start bi_step ServerSide (proj ServerSide g2) = Some ps /\
    ~ (bi_holds pc /\ bi_holds ps) /\ bi_gives ps <= bi_gives pc <= bi_gives ps + 1 /\
    (bi_wants pc /\ bi_wants ps -> total (final counter [] g2) ∈ [1; 2]) /\
    (bi_holds pc \/ bi_holds ps -> total (final counter [] g2) = 0).

Lemma bi_token_passes g :
  coherent counter [] g -> follows bi_start bi_step ClientSide (proj ClientSide g) ->
  follows bi_start bi_step ServerSide (proj ServerSide g) -> bi_passes g.
Proof.
  intros Hg Hc Hs g1 g2 ->.
  destruct (joint_always counter bi_start bi_step bi_joint [] (bi_client [] 0 eq_refl) bi_joint_step
    _ g1 g2 Hg Hc Hs) as (pc & ps & Ec & Es & J); [done|].
  exists pc, ps. split_and!; [done|done|..]; destruct J as [k E|k E|k E|k E|k E|k E]; cbn; try rewrite E;
    try lia; try (by intros []); intros; try done; try (by left); right; by left.
Qed.

Section bi_process.
Context (e : env) (p : side) (descriptor : Z).
Local Abbreviation follows := (follows bi_start bi_step).
Local Abbreviation at_phase := (at_phase bi_start bi_step).
Local Abbreviation safe_own := (safe_own bi_start bi_step not_counter bi_own e p).

Lemma safe_bi_notify {A} (k : prog A) n h (Q : outcome A -> hist -> Prop) :
  at_phase p (Hold n) h -> (forall x h', Q (Halted x) h') ->
  (forall h', at_phase p (Want (n + 1)) h' -> safe e (follows p) h' k Q) ->
  safe e (follows p) h (Bi.eventfd_notify descriptor (token (opposite p)) ;;; k) Q.
Proof.
  intros H HX Hk. eapply safe_step; [done|]. eexists. split; [cbn; by rewrite bool_decide_true|].
  intros h1 H1. cbn [bind]. eapply safe_own; [local_calls|done|done|]. intros _. by apply Hk.
Qed.

Lemma safe_bi_wait {A} (k : prog A) n h (Q : outcome A -> hist -> Prop) :
  at_phase p (Want n) h -> (forall x h', Q (Halted x) h') ->
  (forall h', at_phase p (Hold n) h' -> safe e (follows p) h' k Q) ->
  safe e (follows p) h (Bi.eventfd_wait descriptor (token p) ;;; k) Q.
Proof.
  intros H HX Hk. apply safe_bind, (safe_loop e _ (fun _ => at_phase p (Want n))); [|done].
  clear H h. intros [] h H. unfold Bi.wait_step, sys. cbn [bind]. eapply safe_step; [done|]. eexists. split; [done|].
  intros h1 H1. cbn [fst snd] in H1. eapply safe_own; [local_calls|done|done|]. intros _ h2 H2.
  destruct (le_word _ =? token p).
  - apply safe_ret; [by eapply at_follows|]. by apply Hk.
  - eapply safe_step; [done|]. eexists. split; [cbn; by rewrite bool_decide_true|]. intros h3 H3.
    cbn [bind]. eapply safe_own; [local_calls|done|done|]. intros _ h4 H4.
    by apply safe_ret; [eapply at_follows|].
Qed.
End bi_process.

Lemma bi_client_follows e d args :
  safe e (follows bi_start bi_step ClientSide) [] (Bi.client_communicate d args) (fun _ _ => True).
Proof.
  apply safe_bind, (safe_while e _ (fun _ h => exists n, at_phase bi_start bi_step ClientSide (Hold n) h)).
  2: by exists 0.
  intros c h [n H]. apply safe_ret; [by eapply at_follows|]. cbn [post]. case_match.
  - apply (safe_bi_notify e ClientSide d _ n); [done|done|]. intros h1 H1.
    apply (safe_bi_wait e ClientSide d _ (n + 1)); [done|done|]. intros h2 H2.
    apply safe_ret; [by eapply at_follows|]. cbn. eauto.
  - by apply safe_ret; [eapply at_follows|].
Qed.

Lemma bi_server_follows e d args :
  safe e (follows bi_start bi_step ServerSide) [] (Bi.server_communicate d args)
    (finished bi_start bi_step ServerSide (fun ph => ph = Want (Z.max 0 (count args)))).
Proof.
  apply (safe_own bi_start bi_step not_counter bi_own e ServerSide _ _ (Want 0));
    [local_calls|done|done|]. intros b h H.
  apply safe_bind, (safe_while e _ (fun st h => at_phase bi_start bi_step ServerSide (Want st.1) h /\
    0 <= st.1 <= Z.max 0 (count args))).
  2: { cbn. split; [done|lia]. }
  clear b h H. intros [n b] h [H Hn]. cbn [fst snd] in *.
  apply safe_ret; [by eapply at_follows|]. cbn [post]. destruct (Z.ltb_spec n (count args)).
  - eapply (safe_own bi_start bi_step not_counter bi_own e ServerSide); [local_calls|done|done|].
    intros b1 h1 H1. apply (safe_bi_wait e ServerSide d _ n); [done|done|]. intros h2 H2.
    apply (safe_bi_notify e ServerSide d _ n); [done|done|]. intros h3 H3.
    eapply (safe_own bi_start bi_step not_counter bi_own e ServerSide); [local_calls|done|done|].
    intros b2 h4 H4. apply safe_ret; [by eapply at_follows|]. cbn. split; [done|lia].
  - replace n with (Z.max 0 (count args)) in H by lia.
    eapply (safe_last bi_start bi_step not_counter bi_own); [local_calls|done|done|]. cbn. eauto.
Qed.

(** ** eventfd-uni.c: sums of time stamps *)

(** The phase of the client is the list of the stamps it has added, that of the server the list
    of the values it has read. *)
Definition uni_start (p : side) : list Z := [].

Definition uni_step (p : side) (values : list Z) (ev : event) : option (list Z) :=
  match ev.1, p with
  | Write _ buf, ClientSide => Some (values ++ [le_word buf])
  | Read _ _, ServerSide => Some (values ++ [le_word (data ev.2)])
  | Write _ _, ServerSide | Read _ _, ClientSide => None
  | _, _ => Some values
  end.

Lemma uni_own p c r values : not_counter c -> uni_step p values (c, r) = Some values.
Proof. by destruct c, p. Qed.

(** The stamps fall into consecutive groups: one for each value read, which is the sum of its
    group, and those that are still in the counter. *)
Definition grouped (s stamps values : list Z) : Prop :=
  exists groups, stamps = concat groups ++ s /\ values = map total groups /\
    Forall (fun g => g <> []) groups.

Definition uni_joint (s stamps values : list Z) : Prop :=
  total s <= EVENTFD_MAX /\ grouped s stamps values.

Lemma uni_joint_step p ev s pc ps :
  uni_joint s pc ps -> answers counter p s ev -> joint_next counter uni_step uni_joint p ev s pc ps.
Proof.
  destruct ev as [c r]. intros [Hs (groups & -> & -> & Hne)] Ha.
  assert (uni_joint s (concat groups ++ s) (map total groups)) as J by (split; [done|]; by exists groups).
  destruct c; try (by destruct p; intros ph' [= <-]).
  - destruct p; intros ph [= <-]. destruct Ha as (Hpos & _ & Hd). cbn [fst snd] in *.
    rewrite Hd, word_bytes by lia. split; [cbn; unfold EVENTFD_MAX; lia|]. exists (groups ++ [s]).
    rewrite concat_app, map_app. cbn [concat map effect counter fst]. rewrite !app_nil_r.
    split_and!; [done|done|].
    apply Forall_app. split; [done|]. constructor; [|done]. intros ->. cbn in Hpos. lia.
  - destruct p; intros ph [= <-]. destruct Ha as [Hm _]. cbn [effect counter fst] in *.
    split; [rewrite total_app; lia|].
    exists groups. by rewrite app_assoc.
Qed.

Lemma uni_joint_start : uni_joint [] (uni_start ClientSide) (uni_start ServerSide).
Proof. split; [done|]. exists []. by split_and!. Qed.

Definition uni_trace := joint_trace counter uni_start uni_step uni_joint [] uni_joint_start uni_joint_step.

(** A server that has read as often as the client has written has read the stamps themselves. *)
Lemma grouped_all s stamps values :
  grouped s stamps values -> (length stamps <= length values)%nat -> values = stamps.
Proof.
  intros (groups & -> & -> & Hne). rewrite length_app, length_map.
  enough ((length groups <= length (concat groups))%nat /\
    ((length (concat groups) <= length groups)%nat -> map total groups = concat groups)) as [H1 H2].
  { intros. rewrite H2 by lia. destruct s; [by rewrite app_nil_r|cbn in *; lia]. }
  induction Hne as [|g groups Hg Hne [IH1 IH2]]; [done|]. cbn. rewrite length_app.
  destruct g as [|v [|w g]]; [done| |cbn; lia]. cbn. split; [lia|]. intros. rewrite IH2 by lia.
  f_equal. lia.
Qed.

Lemma uni_client_follows e d args :
  safe e (fun h => follows uni_start uni_step ClientSide h /\ forall stamps,
      at_phase uni_start uni_step ClientSide stamps h -> zlen stamps <= Z.max 0 (count args))
    [] (Uni.client_communicate d args) (fun _ _ => True).
Proof.
  set (at_ := at_phase uni_start uni_step ClientSide). set (I := fun h => _ /\ _).
  assert (forall l h, at_ l h -> zlen l <= Z.max 0 (count args) -> I h) as HI.
  { intros l h H Hl. split; [by eapply at_follows|]. unfold at_, at_phase in *. intros l'. rewrite H.
    by intros [= <-]. }
  apply safe_bind, (safe_while e _ (fun c h => exists l, at_ l h /\ zlen l + Z.max 0 c <= Z.max 0 (count args))).
  2: { exists []. split; [done|rewrite zlen_nil; lia]. }
  intros c h (l & H & Hl). assert (zlen l <= Z.max 0 (count args)) as Hl' by lia.
  apply safe_ret; [by eapply HI|]. cbn [post]. destruct (Z.ltb_spec 0 c); [|by apply safe_ret; [eapply HI|]].
  apply safe_bind, (safe_weaken e I (at_ l)); [by intros; eapply HI|].
  eapply safe_conseq; [apply (safe_calls e (at_ l) not_counter)|].
  - intros c' h' Hc. by apply (own_at_phase uni_start uni_step not_counter uni_own).
  - apply quick_calls, local_now, _.
  - done.
  - intros [t|x] h1 _ H1; cbn; [|done]. apply safe_call; [by eapply HI|].
    set (r := e h1 _). assert (at_ (l ++ [le_word (le_bytes 8 t)]) ((Write d (le_bytes 8 t), r) :: h1)) as H2.
    { unfold at_, at_phase in *. cbn [phase_of]. by rewrite H1. }
    assert (zlen (l ++ [le_word (le_bytes 8 t)]) = zlen l + 1) as El by zlia.
    apply safe_bind, (safe_weaken e I (at_ (l ++ [le_word (le_bytes 8 t)]))).
    { intros h' H'. eapply HI; [done|]. lia. }
    eapply safe_conseq; [apply (safe_calls e (at_ _) not_counter)|].
    + intros c' h' Hc. by apply (own_at_phase uni_start uni_step not_counter uni_own).
    + local_calls.
    + done.
    + intros [[]|x] h3 _ H3; cbn; [|done]. apply safe_ret; [eapply HI; [done|lia]|].
      eexists. split; [done|]. lia.
Qed.

Lemma uni_server_follows e d args :
  safe e (follows uni_start uni_step ServerSide) [] (Uni.server_communicate d args)
    (finished uni_start uni_step ServerSide (fun values => zlen values = Z.max 0 (count args))).
Proof.
  apply (safe_own uni_start uni_step not_counter uni_own e ServerSide _ _ []);
    [local_calls|done|done|]. intros b h H.
  apply safe_bind, (safe_while e _ (fun st h => exists l, at_phase uni_start uni_step ServerSide l h /\
    zlen l = st.1 /\ 0 <= st.1 <= Z.max 0 (count args))).
  2: { exists []. cbn. split_and!; [done|done|lia|lia]. }
  clear b h H. intros [n b] h (l & H & Hl & Hn). cbn [fst snd] in *.
  apply safe_ret; [by eapply at_follows|]. cbn [post]. destruct (Z.ltb_spec n (count args)).
  - eapply safe_step; [done|]. eexists. split; [done|]. intros h1 H1. cbn [bind].
    eapply (safe_own uni_start uni_step not_counter uni_own e ServerSide); [local_calls|done|done|].
    intros [] h2 H2.
    eapply (safe_own uni_start uni_step not_counter uni_own e ServerSide); [local_calls|done|done|].
    intros b2 h3 H3. apply safe_ret; [by eapply at_follows|]. cbn. eexists. split; [done|].
    rewrite zlen_app, zlen_cons, zlen_nil. lia.
  - eapply (safe_last uni_start uni_step not_counter uni_own); [local_calls|done|done|]. cbn.
    intros a h1 H1. exists l. split; [done|lia].
Qed.

(** C15. eventfd-bi: although either side may take the other's token and put it back, in every
    interleaving there is one token: the two exclude each other, notify in turns, and the
    counter is 1 or 2 whenever both wait, so that neither is blocked for good. *)
Theorem eventfd_bi_passes ec es d argc args g :
  coherent counter [] g ->
  visits ec [] (Bi.client_communicate d argc) (proj ClientSide g) ->
  visits es [] (Bi.server_communicate d args) (proj ServerSide g) -> bi_passes g.
Proof.
  intros Hg Vc Vs. apply bi_token_passes; [done| |].
  - by eapply (bi_client_follows ec d argc).
  - by eapply (bi_server_follows es d args).
Qed.

(** C16. eventfd-uni: in every interleaving the values the server reads are the sums of consecutive
    groups of the client's stamps. A server that has returned has read the stamps themselves, one
    by one: if two of them were ever merged, the server waits forever. *)
Theorem eventfd_uni_sums ec es d args g o :
  coherent counter [] g ->
  visits ec [] (Uni.client_communicate d args) (proj ClientSide g) ->
  (visits es [] (Uni.server_communicate d args) (proj ServerSide g) ->
    exists stamps values, phase_of uni_start uni_step ClientSide (proj ClientSide g) = Some stamps /\
      phase_of uni_start uni_step ServerSide (proj ServerSide g) = Some values /\
      grouped (final counter [] g) stamps values) /\
  (eval es [] (Uni.server_communicate d args) (Val o) (proj ServerSide g) ->
    exists stamps, phase_of uni_start uni_step ClientSide (proj ClientSide g) = Some stamps /\
      phase_of uni_start uni_step ServerSide (proj ServerSide g) = Some stamps /\
      zlen stamps = Z.max 0 (count args)).
Proof.
  intros Hg Vc. destruct (proj1 (uni_client_follows ec d args) _ Vc) as [Fc Nc].
  assert (visits es [] (Uni.server_communicate d args) (proj ServerSide g) ->
    exists stamps values, phase_of uni_start uni_step ClientSide (proj ClientSide g) = Some stamps /\
      phase_of uni_start uni_step ServerSide (proj ServerSide g) = Some values /\
      grouped (final counter [] g) stamps values) as Hj.
  { intros Vs. destruct (uni_trace g Hg Fc) as (pc & ps & Ec & Es & [_ J]); [|by eauto].
    by eapply (uni_server_follows es d args). }
  split; [done|]. intros Vs. destruct (proj2 (uni_server_follows es d args) _ _ Vs) as (values & Ev & Hn).
  destruct (Hj (eval_visits _ _ _ _ _ Vs)) as (stamps & values' & Ec & Es & J).
  unfold at_phase in Ev. rewrite Ev in Es. simplify_eq. pose proof (Nc _ Ec) as Hl.
  rewrite (grouped_all _ _ _ J) in Ev, Hn by (unfold zlen in *; lia). eauto.
Qed.

(** ** Concrete runs *)

(** The values of the successive readings. *)
Definition readings (values : list Z) : env := fun h c =>
  match c with
  | Read _ _ =>
      nth_call (fun c => match c with Read _ _ => true | _ => false end)
        (map (fun v => rdata 8 (le_bytes 8 v)) values) (rret 0) h
  | _ => plain h c
  end.

(** The client reads its own token once and puts it back. *)
Definition bi_sample : trace :=
  interleave [(ClientSide, 3%nat); (ServerSide, 4%nat); (ClientSide, 1%nat); (ServerSide, 20%nat)]
    (rev (history 20 (readings [1; 2]) (Bi.client_communicate 3 (Args 2 1 100))))
    (rev (history 20 (readings [1]) (Bi.server_communicate 3 (Args 2 1 100)))).

Lemma bi_sample_coherent : coherent counter [] bi_sample.
Proof. vm_compute. repeat split; discriminate. Qed.

Lemma eventfd_bi_passes_witness : bi_passes bi_sample.
Proof.
  apply (eventfd_bi_passes (readings [1; 2]) (readings [1]) 3 (Args 2 1 100) (Args 2 1 100)).
  - apply bi_sample_coherent.
  - apply (eval_visits _ _ _ (Val tt)), eval_run. exists 20%nat. vm_compute. reflexivity.
  - apply (eval_visits _ _ _ (Val tt)), eval_run. exists 20%nat. vm_compute. reflexivity.
Defined.

Definition uni_sample : trace :=
  interleave [(ClientSide, 2%nat); (ServerSide, 20%nat)]
    (rev (history 20 plain (Uni.client_communicate 3 (Args 2 1 100))))
    (rev (history 20 (readings [1000000000000]) (Uni.server_communicate 3 (Args 2 1 100)))).

Lemma uni_sample_coherent : coherent counter [] uni_sample.
Proof. vm_compute. repeat split; discriminate. Qed.

Lemma eventfd_uni_sums_witness :
  exists stamps, phase_of uni_start uni_step ClientSide (proj ClientSide uni_sample) = Some stamps /\
    phase_of uni_start uni_step ServerSide (proj ServerSide uni_sample) = Some stamps /\ zlen stamps = 1.
Proof.
  apply (eventfd_uni_sums plain (readings [1000000000000]) 3 (Args 2 1 100) uni_sample tt).
  - apply uni_sample_coherent.
  - apply (eval_visits _ _ _ (Val tt)), eval_run. exists 20%nat. vm_compute. reflexivity.
  - apply eval_run. exists 20%nat. vm_compute. reflexivity.
Defined.
