(* ===== verification/Schedules.v ===== *)
(** * Schedules under which eventfd does not end

    eventfd-bi waits by reading the counter and writing a value that it does not want back. A fair
    scheduler can run the server only when the client has taken its own notification out of the
    counter and not yet put it back ([eventfd_bi_livelock]).
    eventfd-uni adds its time stamps to one counter: when two of them are added before the server
    reads, the server waits for a message that never comes ([eventfd_uni_hangs]). *)

From S2P Require Import Prelude CInt Prog Utility Arguments Benchmarks Samples Joint Session Coexec Eventfd.

(** The counter, answering when it can. *)
Definition counter_ask (p : side) (s : list Z) (c : call) : option resp :=
  match c with
  | Read _ _ => if 0 <? total s then Some (rdata 8 (le_bytes 8 (total s))) else None
  | Write _ buf => if total s + le_word buf <=? EVENTFD_MAX then Some (rret 8) else None
  | _ => Some (plain [] c)
  end.

Lemma counter_ask_answers p s c r : counter_ask p s c = Some r -> answers counter p s (c, r).
Proof. destruct c; cbn -[total le_bytes le_word]; try done; case_match; try done; bool_to_prop; by intros [= <-]. Qed.

Lemma counter_ask_blocked p s c r : counter_ask p s c = None -> ~ answers counter p s (c, r).
Proof.
  destruct c; cbn -[total le_bytes le_word]; try done; case_match; try done; bool_to_prop; intros _ [? _]; lia.
Qed.

(** ** eventfd-bi: a scheduler that runs the server after each read of the client *)

Definition bi_pair (args : Arguments) (p : side) : prog unit :=
  match p with
  | ClientSide => Bi.client_communicate 3 args
  | ServerSide => Bi.server_communicate 3 args
  end.

Definition after_reads (n : nat) : side :=
  if decide (n = 0%nat \/ Nat.modulo n 3 = 1%nat) then ServerSide else ClientSide.

Lemma after_reads_at k d :
  (d < 3)%nat -> after_reads (3 * k + 3 + d)%nat = if decide (d = 1%nat) then ServerSide else ClientSide.
Proof.
  intros Hd. unfold after_reads.
  assert (Nat.modulo (3 * k + 3 + d) 3 = d) as E.
  { replace (3 * k + 3 + d)%nat with (d + (k + 1) * 3)%nat by lia.
    rewrite Nat.Div0.mod_add. by apply Nat.mod_small. }
  rewrite E. repeat case_decide; done || lia.
Qed.

Lemma after_reads_fair : fair after_reads.
Proof.
  intros p n. destruct p; [exists (2 * n + 3)%nat|exists (2 * n + 4)%nat].
  - replace (n + (2 * n + 3))%nat with (3 * n + 3 + 0)%nat by lia. by apply after_reads_at; lia.
  - replace (n + (2 * n + 4))%nat with (3 * n + 3 + 1)%nat by lia. by apply after_reads_at; lia.
Qed.

Section bi.
Context (args : Arguments) (Hcount : 0 < count args).
Local Abbreviation bi_pair := (bi_pair args).

Definition bi_run : nat -> config unit := play counter [] counter_ask 9 after_reads (Config bi_pair []).

(** Both wait, and the counter has the client's own value. *)
Definition in_cycle (cf : config unit) : Prop :=
  (exists k, prog_at cf ClientSide = Iter (Bi.wait_step 3 Bi.CLIENT_TOKEN) tt k) /\
  (exists k, prog_at cf ServerSide = Iter (Bi.wait_step 3 Bi.SERVER_TOKEN) tt k) /\
  shared_state counter [] cf = [1].

Local Abbreviation turn := (turn counter [] counter_ask 9).

Definition both_call (cf : config unit) : Prop := forall p, exists c k, head (prog_at cf p) (Call c k).

Definition client_can_move (cf : config unit) : Prop := exists cf', moves counter [] ClientSide cf cf'.

Lemma asked_moves cf c k r :
  find_head 9 (prog_at cf ClientSide) = Some (Call c k) -> counter_ask ClientSide (shared_state counter [] cf) c = Some r ->
  client_can_move cf.
Proof.
  intros Hh Hr. eexists. apply (moves_call counter [] ClientSide cf c k r); [by apply (find_head_sound 9)|].
  by apply counter_ask_answers.
Qed.

(** The client reads its own value, the server finds an empty counter, and the client writes the value
    back. *)
Lemma cycle cf :
  in_cycle cf -> exists cf1 cf2,
    turn ClientSide cf = Some cf1 /\ turn ServerSide cf1 = Some cf1 /\ turn ClientSide cf1 = Some cf2 /\
    (both_call cf /\ client_can_move cf) /\ (both_call cf1 /\ client_can_move cf1) /\ in_cycle cf2.
Proof.
  intros ([kc Hc] & [ks Hks] & Hs).
  assert (exists k1, find_head 9 (prog_at cf ClientSide) = Some (Call (Read 3 8) k1) /\ exists k2,
    find_head 9 (k1 (rdata 8 (le_bytes 8 1))) = Some (Call (Write 3 (le_bytes 8 1)) k2) /\
    k2 (rret 8) = Iter (Bi.wait_step 3 Bi.CLIENT_TOKEN) tt kc) as (k1 & E1 & k2 & E2 & E3).
  { rewrite Hc. eexists. split; [reflexivity|]. eexists. split; reflexivity. }
  assert (exists k, find_head 9 (prog_at cf ServerSide) = Some (Call (Read 3 8) k)) as [k Ek].
  { rewrite Hks. eexists. reflexivity. }
  pose proof (turn_call counter [] counter_ask 9 ClientSide cf _ _ (rdata 8 (le_bytes 8 1)) E1
    ltac:(by rewrite Hs)) as T1.
  set (cf1 := Config _ _) in T1. change (k1 (rdata 8 (le_bytes 8 1))) with (prog_at cf1 ClientSide) in E2.
  assert (find_head 9 (prog_at cf1 ServerSide) = Some (Call (Read 3 8) k)) as Ek1 by exact Ek.
  pose proof (turn_blocked counter [] counter_ask 9 ServerSide cf1 _ _ Ek1 eq_refl) as T2.
  pose proof (turn_call counter [] counter_ask 9 ClientSide cf1 _ _ (rret 8) E2 eq_refl) as T3.
  exists cf1. eexists. split_and!; [exact T1|exact T2|exact T3|..].
  - intros []; do 2 eexists; by eapply find_head_sound.
  - apply (asked_moves cf _ _ (rdata 8 (le_bytes 8 1)) E1). by rewrite Hs.
  - intros []; do 2 eexists; by eapply find_head_sound.
  - by apply (asked_moves cf1 _ _ (rret 8) E2).
  - split_and!; [exists kc; exact E3|exists ks; exact Hks|reflexivity].
Qed.


(** The first three turns: the server reads the clock twice, the client notifies. *)
Lemma bi_start_turns : exists cf1 cf2 cf3,
  turn ServerSide (Config bi_pair []) = Some cf1 /\ turn ServerSide cf1 = Some cf2 /\
  turn ClientSide cf2 = Some cf3 /\ both_call (Config bi_pair []) /\ both_call cf1 /\ both_call cf2 /\
  in_cycle cf3.
Proof.
  pose proof (proj2 (Z.ltb_lt _ _) Hcount) as Hlt. set (clock := rdata 1 [1000; 0]).
  assert (now_of 1000 0 = Ret 1000000000000) as Ht by by vm_compute.
  assert (exists s1, find_head 9 (bi_pair ServerSide) = Some (Call TimespecGet s1) /\ exists s2,
    find_head 9 (s1 clock) = Some (Call TimespecGet s2) /\ exists ks,
    s2 clock = Iter (Bi.wait_step 3 Bi.SERVER_TOKEN) tt ks) as (s1 & E1 & s2 & E2 & ks & E3).
  { eexists. split; [reflexivity|]. eexists.
    split; [cbn -[Z.ltb now_of]; rewrite Ht; cbn -[Z.ltb now_of]; rewrite Hlt; reflexivity|].
    eexists. cbn -[Z.ltb now_of]. rewrite Ht. reflexivity. }
  assert (exists c1, find_head 9 (bi_pair ClientSide) = Some (Call (Write 3 (le_bytes 8 1)) c1) /\ exists kc,
    c1 (rret 8) = Iter (Bi.wait_step 3 Bi.CLIENT_TOKEN) tt kc) as (c1 & F1 & kc & F2).
  { eexists. split; [cbn -[Z.ltb le_bytes]; rewrite Hlt; reflexivity|]. eexists. reflexivity. }
  pose proof (turn_call counter [] counter_ask 9 ServerSide (Config bi_pair []) _ _ clock E1 eq_refl) as T1.
  match type of T1 with _ = Some ?cf => set (cf1 := cf) in * end. change (s1 clock) with (prog_at cf1 ServerSide) in E2.
  pose proof (turn_call counter [] counter_ask 9 ServerSide cf1 _ _ clock E2 eq_refl) as T2.
  match type of T2 with _ = Some ?cf => set (cf2 := cf) in * end.
  assert (find_head 9 (prog_at cf2 ClientSide) = Some (Call (Write 3 (le_bytes 8 1)) c1)) as F1' by exact F1.
  pose proof (turn_call counter [] counter_ask 9 ClientSide cf2 _ _ (rret 8) F1' eq_refl) as T3.
  exists cf1, cf2. eexists. split_and!; [exact T1|exact T2|exact T3|..].
  - intros []; do 2 eexists; by eapply find_head_sound.
  - intros []; do 2 eexists; by eapply find_head_sound.
  - intros []; do 2 eexists; [by eapply find_head_sound|].
    apply (find_head_sound 2). change (prog_at cf2 ServerSide) with (s2 clock). rewrite E3. reflexivity.
  - split_and!; [exists kc; exact F2|exists ks; exact E3|reflexivity].
Qed.

Lemma play_next sched (cf : config unit) n cf' :
  turn (sched n) (play counter [] counter_ask 9 sched cf n) = Some cf' ->
  play counter [] counter_ask 9 sched cf (S n) = cf'.
Proof. cbn. by intros ->. Qed.

Definition steady (n : nat) : Prop :=
  turn (after_reads n) (bi_run n) <> None /\ both_call (bi_run n).

(** From the third turn on the client can move, and the turns of the server change nothing. *)
Definition starved (n : nat) : Prop :=
  client_can_move (bi_run n) /\ (after_reads n = ServerSide -> bi_run (S n) = bi_run n).

(** A round of three turns. *)
Lemma bi_round k : in_cycle (bi_run (3 * k + 3)) ->
  (forall d, (d < 3)%nat -> steady (3 * k + 3 + d) /\ starved (3 * k + 3 + d)) /\
  in_cycle (bi_run (3 * (k + 1) + 3)).
Proof.
  intros H. destruct (cycle _ H) as (cf1 & cf2 & T1 & T2 & T3 & [B1 M1] & [B2 M2] & H').
  pose proof (after_reads_at k 0 ltac:(lia)) as A0. pose proof (after_reads_at k 1 ltac:(lia)) as A1.
  pose proof (after_reads_at k 2 ltac:(lia)) as A2.
  rewrite decide_False in A0 by done. rewrite decide_True in A1 by done. rewrite decide_False in A2 by done.
  rewrite Nat.add_0_r in A0.
  assert (bi_run (3 * k + 3 + 1) = cf1) as R1.
  { rewrite Nat.add_1_r. apply play_next. rewrite A0. exact T1. }
  assert (bi_run (3 * k + 3 + 2) = cf1) as R2.
  { rewrite (Nat.add_succ_r _ 1). apply play_next. rewrite A1. unfold bi_run in R1. rewrite R1. exact T2. }
  assert (bi_run (3 * (k + 1) + 3) = cf2) as R3.
  { replace (3 * (k + 1) + 3)%nat with (S (3 * k + 3 + 2)) by lia. apply play_next.
    rewrite A2. unfold bi_run in R2. rewrite R2. exact T3. }
  split; [|by rewrite R3]. intros d Hd. unfold steady, starved.
  destruct d as [|[|[|]]]; [rewrite Nat.add_0_r, A0, T1|rewrite <- (Nat.add_succ_r _ 1), A1, R1, R2, T2
    |rewrite A2, R2, T3|lia]; done.
Qed.

Lemma bi_begins : (forall n, (n < 3)%nat -> steady n) /\ in_cycle (bi_run 3).
Proof.
  destruct bi_start_turns as (cf1 & cf2 & cf3 & T1 & T2 & T3 & B0 & B1 & B2 & H).
  assert (bi_run 1 = cf1) as R1 by exact (play_next after_reads (Config bi_pair []) 0 cf1 T1).
  assert (bi_run 2 = cf2) as R2.
  { apply (play_next after_reads _ 1). unfold bi_run in R1. by rewrite R1. }
  assert (bi_run 3 = cf3) as R3.
  { apply (play_next after_reads _ 2). unfold bi_run in R2. by rewrite R2. }
  split; [|by rewrite R3]. intros n Hn. unfold steady.
  destruct n as [|[|[|]]]; [|rewrite R1|rewrite R2|lia]; (split; [|done]).
  - change (after_reads 0) with ServerSide. change (bi_run 0) with (Config bi_pair []). by rewrite T1.
  - change (after_reads 1) with ServerSide. by rewrite T2.
  - change (after_reads 2) with ClientSide. by rewrite T3.
Qed.

Lemma bi_cycles k : in_cycle (bi_run (3 * k + 3)).
Proof. induction k as [|k IH]; [apply bi_begins|]. rewrite <- (Nat.add_1_r k). by apply bi_round. Qed.

Lemma bi_late n : (3 <= n)%nat -> steady n /\ starved n.
Proof.
  intros Hn. pose proof (Nat.div_mod_eq (n - 3) 3). pose proof (Nat.mod_upper_bound (n - 3) 3 ltac:(done)).
  replace n with (3 * ((n - 3) / 3) + 3 + (n - 3) mod 3)%nat by lia. by apply bi_round; [apply bi_cycles|].
Qed.

Lemma bi_steady n : steady n.
Proof. destruct (Nat.lt_ge_cases n 3); [by apply bi_begins|by apply bi_late]. Qed.

Lemma bi_execution : execution counter [] after_reads bi_run.
Proof. apply (play_execution _ _ _ _ counter_ask_answers counter_ask_blocked). intros n. apply bi_steady. Qed.

End bi.

(** C36. eventfd-bi need not end, with any positive number of messages: there is a fair scheduler under
    which the client reads its own notification and writes it back for ever, while the server, which
    is only run when the counter is empty, does nothing from the third turn on. Neither of them ever
    returns or stops; the client makes calls again and again, so this is no deadlock. *)
Theorem eventfd_bi_livelock args : 0 < count args -> exists sched run,
  fair sched /\ execution counter [] sched run /\ run 0%nat = Config (bi_pair args) [] /\
  (forall n p, ~ returned p (run n) /\ forall x, ~ head (prog_at (run n) p) (Stop x)) /\
  (forall n, exists m, (n <= m)%nat /\ moves counter [] ClientSide (run m) (run (S m))) /\
  (forall n, (3 <= n)%nat -> sched n = ServerSide -> run (S n) = run n).
Proof.
  intros Hc. pose proof (bi_execution args Hc) as He.
  exists after_reads, (bi_run args). split_and!; [apply after_reads_fair|exact He|done|..].
  - intros n p. destruct (proj2 (bi_steady args Hc n) p) as (c & k & Hk).
    split; [intros [a Ha]|intros x Hx]; [by pose proof (head_det _ _ _ Hk Ha)|by pose proof (head_det _ _ _ Hk Hx)].
  - intros n. destruct (after_reads_fair ClientSide (n + 3)%nat) as [d Hd]. exists (n + 3 + d)%nat. split; [lia|].
    destruct (He (n + 3 + d)%nat) as [Hm|[_ Hb]]; rewrite Hd in *; [done|].
    destruct (bi_late args Hc (n + 3 + d)) as [_ [[cf' Hm] _]]; [lia|]. by destruct (Hb cf').
  - intros n Hn. by apply (bi_late args Hc).
Qed.

Lemma eventfd_bi_livelock_witness : exists sched run,
  fair sched /\ execution counter [] sched run /\ run 0%nat = Config (bi_pair (Args 1 1 100)) [] /\
  (forall n p, ~ returned p (run n) /\ forall x, ~ head (prog_at (run n) p) (Stop x)) /\
  (forall n, exists m, (n <= m)%nat /\ moves counter [] ClientSide (run m) (run (S m))) /\
  (forall n, (3 <= n)%nat -> sched n = ServerSide -> run (S n) = run n).
Proof. by apply (eventfd_bi_livelock (Args 1 1 100)). Defined.

(** ** eventfd-uni: two messages, and a scheduler that runs the client first *)

Definition uni_pair (p : side) : prog unit :=
  match p with
  | ClientSide => Uni.client_communicate 3 (Args 1 2 100)
  | ServerSide => Uni.server_communicate 3 (Args 1 2 100)
  end.

Definition client_first (n : nat) : side := if Nat.ltb n 10 then ClientSide else ServerSide.

Definition uni_stuck : config unit := play counter [] counter_ask 9 client_first (Config uni_pair []) 30.

Definition reads_next (q : prog unit) : bool :=
  match find_head 9 q with Some (Call (Read _ _) _) => true | _ => false end.

Lemma reads_next_head q : reads_next q = true -> exists d n k, head q (Call (Read d n) k).
Proof.
  unfold reads_next. destruct (find_head 9 q) as [[| |[] |]|] eqn:E; try done. intros _.
  do 3 eexists. by eapply find_head_sound.
Qed.

(** eventfd-uni: if the client writes two stamps before the server reads, the client returns and the
    server is left waiting for a stamp that does not come. *)
Theorem eventfd_uni_hangs :
  exists cf, reachable counter [] (Config uni_pair []) cf /\ returned ClientSide cf /\
    (exists d n k, head (prog_at cf ServerSide) (Call (Read d n) k)) /\
    (forall p, blocked counter [] p cf).
Proof.
  assert (exists d n k, head (prog_at uni_stuck ServerSide) (Call (Read d n) k)) as Hs
    by (apply reads_next_head; by vm_compute).
  assert (returned ClientSide uni_stuck) as Hc.
  { exists tt. apply (find_head_sound 9). by vm_compute. }
  exists uni_stuck. split_and!; [|done|done|].
  - apply (play_reachable _ _ _ _ counter_ask_answers counter_ask_blocked).
  - intros p cf'. destruct 1 as [c k r Hh Ha]. destruct p.
    + destruct Hc as [a Hr]. by pose proof (head_det _ _ _ Hh Hr).
    + destruct Hs as (d & n & k' & Hr). pose proof (head_det _ _ _ Hh Hr) as E. injection E as -> _.
      destruct Ha as [Hpos _]. revert Hpos. by vm_compute.
Qed.
