(* ===== verification/Threads.v ===== *)
(** * POSIX threads of one process: a mutex, a condition variable and global variables

    A [pool] holds what is left of every thread (thread 0 is the one that runs [main]). [pstep] is
    one call of one thread; which one is not determined. [fire] is the executable step of a
    thread ([fire_step], [step_fire]), and [explore] follows all runs of a pool. *)

From stdpp Require Import relations.
From S2P Require Import Prelude CInt Prog Joint Session.

Record pool := Pool {
  threads : list (prog Z);
  owner : option nat;
  asleep : list nat;
  woken : list nat;
  globals : string -> Z;
  output : list (string * list arg)
}.

Definition set_global (name : string) (z : Z) (g : string -> Z) : string -> Z :=
  fun x => if decide (x = name) then z else g x.

(** A thread that has returned or called [pthread_exit]. *)
Definition finished (q : prog Z) : Prop := (exists z, head q (Ret z)) \/ head q (Stop ThreadExited).

Section pool.
(** The start routines, by the constants that stand for them. *)
Context (routine : Z -> list Z -> prog Z).

(** What a call of thread [t] answers, and what it leaves, apart from the thread itself. Not the
    calls that involve the list of threads or the condition variable. *)
Definition answer (t : nat) (c : call) (s : pool) : option (resp * pool) :=
  let '(Pool ts o sl w g out) := s in
  match c with
  | MutexLock => if decide (o = None) then Some (rret 0, Pool ts (Some t) sl w g out) else None
  | MutexUnlock => if decide (o = Some t) then Some (rret 0, Pool ts None sl w g out) else None
  | LoadGlobal x => Some (rret (g x), s)
  | StoreGlobal x z => Some (rret 0, Pool ts o sl w (set_global x z g) out)
  | Printf f a => Some (rret 0, Pool ts o sl w g ((f, a) :: out))
  | CondBroadcast => Some (rret 0, Pool ts o [] (w ++ sl) g out)
  | PthreadCreate f task =>
      Some (rdata 0 [Z.of_nat (length ts)], Pool (ts ++ [routine f task]) o sl w g out)
  | _ => None
  end.

Definition resume (t : nat) (q : prog Z) (s : pool) : pool :=
  Pool (<[t := q]> (threads s)) (owner s) (asleep s) (woken s) (globals s) (output s).

(** [pthread_create] succeeds. [pthread_cond_wait] lets go of the mutex, sleeps, and takes the mutex
    again after it has been woken. *)
Inductive pstep (s : pool) : pool -> Prop :=
| step_call t q c k r s' :
    threads s !! t = Some q -> head q (Call c k) -> answer t c s = Some (r, s') ->
    pstep s (resume t (k r) s')
| step_join t q u q' k :
    threads s !! t = Some q -> head q (Call (PthreadJoin u) k) ->
    threads s !! Z.to_nat u = Some q' -> finished q' -> pstep s (resume t (k (rret 0)) s)
| step_sleep t q k :
    threads s !! t = Some q -> head q (Call CondWait k) -> owner s = Some t ->
    t ∉ asleep s -> t ∉ woken s ->
    pstep s (Pool (threads s) None (t :: asleep s) (woken s) (globals s) (output s))
| step_wake t q k :
    threads s !! t = Some q -> head q (Call CondWait k) -> owner s = None -> t ∈ woken s ->
    pstep s (Pool (<[t := k (rret 0)]> (threads s)) (Some t) (asleep s)
      (List.filter (fun u => negb (Nat.eqb u t)) (woken s)) (globals s) (output s)).

(** Threads do not disappear. *)
Lemma step_length s s' : pstep s s' -> (length (threads s) <= length (threads s'))%nat.
Proof.
  destruct 1 as [t q c k r s' Et Hh Ha| | |]; cbn; rewrite ?length_insert; try lia.
  destruct s as [ts o sl w g out]. destruct c; cbn in Ha |- *; try case_decide; try done;
    injection Ha as <- <-; cbn; rewrite ?length_app; lia.
Qed.

Lemma steps_length k s s' : nsteps pstep k s s' -> (length (threads s) <= length (threads s'))%nat.
Proof. induction 1 as [|k s s1 s' Hs _ IH]; [done|]. apply step_length in Hs. lia. Qed.

(** A thread may also be woken without a reason. *)
Inductive spurious (s : pool) : pool -> Prop :=
| spurious_wake t :
    t ∈ asleep s ->
    spurious s (Pool (threads s) (owner s) (List.filter (fun u => negb (Nat.eqb u t)) (asleep s))
      (t :: woken s) (globals s) (output s)).

(** ** One turn of a thread, as a program *)

Inductive verdict := Fires (s : pool) | Waits | NoFuel.

Definition is_finished (fuel : nat) (q : prog Z) : bool :=
  match find_head fuel q with Some (Ret _) | Some (Stop ThreadExited) => true | _ => false end.

Definition fire (fuel t : nat) (s : pool) : verdict :=
  match threads s !! t with
  | None => Waits
  | Some q =>
      match find_head fuel q with
      | None => NoFuel
      | Some (Call (PthreadJoin u) k) =>
          match threads s !! Z.to_nat u with
          | Some q' =>
              match find_head fuel q' with
              | None => NoFuel
              | _ => if is_finished fuel q' then Fires (resume t (k (rret 0)) s) else Waits
              end
          | None => Waits
          end
      | Some (Call CondWait k) =>
          if decide (t ∈ woken s) then
            if decide (owner s = None) then
              Fires (Pool (<[t := k (rret 0)]> (threads s)) (Some t) (asleep s)
                (List.filter (fun u => negb (Nat.eqb u t)) (woken s)) (globals s) (output s))
            else Waits
          else if decide (owner s = Some t /\ t ∉ asleep s) then
            Fires (Pool (threads s) None (t :: asleep s) (woken s) (globals s) (output s))
          else Waits
      | Some (Call c k) =>
          match answer t c s with Some (r, s') => Fires (resume t (k r) s') | None => Waits end
      | Some _ => Waits
      end
  end.

Lemma is_finished_sound fuel q : is_finished fuel q = true -> finished q.
Proof.
  unfold is_finished. destruct (find_head fuel q) as [[z|[]| |]|] eqn:E; try done; intros _;
    apply find_head_sound in E; [left; by eexists|by right].
Qed.

Lemma fire_step fuel t s s' : fire fuel t s = Fires s' -> pstep s s'.
Proof.
  unfold fire. destruct (threads s !! t) as [q|] eqn:Et; [|done].
  destruct (find_head fuel q) as [[z|x|c k|]|] eqn:Eq; try done. apply find_head_sound in Eq.
  assert (forall r s1, answer t c s = Some (r, s1) -> Fires (resume t (k r) s1) = Fires s' -> pstep s s') as Ha
    by (intros r s1 Hr [= <-]; by eapply step_call).
  destruct c; try (by destruct (answer t _ s) as [[r s1]|] eqn:E; [by eapply Ha|]).
  - intros H. case_decide as Hw; [|case_decide as Ho; [|done]].
    + case_decide; [|done]. injection H as <-. by eapply step_wake.
    + destruct Ho. injection H as <-. by eapply step_sleep.
  - destruct (threads s !! Z.to_nat thread) as [q'|] eqn:Eu; [|done].
    destruct (is_finished fuel q') eqn:Ef.
    + destruct (find_head fuel q'); [|done]. intros [= <-].
      eapply step_join; [done..|by eapply is_finished_sound].
    + by destruct (find_head fuel q').
Qed.

Lemma finished_fuel fuel q t : finished q -> find_head fuel q = Some t -> is_finished fuel q = true.
Proof.
  intros Hf E. unfold is_finished. pose proof (find_head_sound _ _ _ E) as Ht. rewrite E.
  destruct Hf as [[z Hz]|Hz]; by rewrite (head_det _ _ _ Ht Hz).
Qed.

(** Every step is one of [fire], if there is fuel. *)
Lemma step_fire fuel s s' : pstep s s' -> exists t, fire fuel t s = Fires s' \/ fire fuel t s = NoFuel.
Proof.
  destruct 1 as [t q c k r s' Et Hh Ha|t q u q' k Et Hh Eu Hf|t q k Et Hh Ho Hs Hw|t q k Et Hh Ho Hw];
    exists t; unfold fire; rewrite Et;
    (destruct (find_head fuel q) as [h|] eqn:Eq; [|by right]);
    pose proof (head_det _ _ _ (find_head_sound _ _ _ Eq) Hh) as ->.
  - left. destruct c; try (by rewrite Ha); by destruct s.
  - rewrite Eu. destruct (find_head fuel q') eqn:E'; [|by right]. left. by erewrite finished_fuel.
  - left. by rewrite decide_False, decide_True.
  - left. by rewrite decide_True, decide_True.
Qed.

Lemma fire_thread fuel t s : fire fuel t s <> Waits -> (t < length (threads s))%nat.
Proof.
  unfold fire. destruct (threads s !! t) as [q|] eqn:E; [|done]. intros _. by eapply lookup_lt_Some.
Qed.

(** The thread that steps is one of the threads. *)
Lemma step_turn fuel s s' :
  pstep s s' -> exists v, In v (map (fun t => fire fuel t s) (seq 0 (length (threads s)))) /\
    (v = Fires s' \/ v = NoFuel).
Proof.
  intros (t & Ht)%(step_fire fuel). exists (fire fuel t s). split; [|done].
  apply in_map_iff. exists t. split; [done|]. apply in_seq. split; [lia|].
  apply (fire_thread fuel). by destruct Ht as [-> | ->].
Qed.

(** ** Exhaustive exploration *)

Definition fires (v : verdict) : bool := match v with Fires _ => true | _ => false end.

(** Every run from [s] ends, after fewer than [n] turns, in a pool of [good]. *)
Fixpoint explore (fuel n : nat) (good : pool -> bool) (s : pool) : bool :=
  match n with
  | O => false
  | S n =>
      let turns := map (fun t => fire fuel t s) (seq 0 (length (threads s))) in
      forallb (fun v => match v with Fires s' => explore fuel n good s' | Waits => true | NoFuel => false end) turns
      && (existsb fires turns || good s)
  end.

Definition stuck (s : pool) : Prop := forall s', ~ pstep s s'.

Lemma waits_stuck fuel s :
  forallb (fun t => match fire fuel t s with Waits => true | _ => false end) (seq 0 (length (threads s))) = true ->
  stuck s.
Proof.
  intros Hall s' Hs. rewrite forallb_forall in Hall.
  destruct (step_fire fuel s s' Hs) as [t Ht].
  assert (In t (seq 0 (length (threads s)))) as Hin.
  { apply in_seq. split; [lia|]. apply (fire_thread fuel). by destruct Ht as [-> | ->]. }
  apply Hall in Hin. by destruct Ht as [E|E]; rewrite E in Hin.
Qed.

(** The turns of [fire] for a list of threads. *)
Fixpoint fire_all (fuel : nat) (ts : list nat) (s : pool) : option pool :=
  match ts with
  | [] => Some s
  | t :: ts => match fire fuel t s with Fires s' => fire_all fuel ts s' | _ => None end
  end.

Lemma fire_all_steps fuel ts s s' : fire_all fuel ts s = Some s' -> rtc pstep s s'.
Proof.
  revert s. induction ts as [|t ts IH]; intros s; cbn; [intros [= ->]; apply rtc_refl|].
  destruct (fire fuel t s) as [s1| |] eqn:E; try done. intros H.
  eapply rtc_l; [by eapply fire_step|by apply IH].
Qed.

Lemma explore_sound fuel n good s s' :
  explore fuel n good s = true -> rtc pstep s s' ->
  (exists n', explore fuel n' good s' = true) /\ (stuck s' -> good s' = true).
Proof.
  intros He Hr. revert n He. induction Hr as [s|s s1 s' Hs _ IH]; intros n He;
    (destruct n as [|n]; [done|]); pose proof He as He'; cbn in He; apply andb_prop in He as [Hall Hend];
    rewrite forallb_forall in Hall.
  - split; [by eexists|]. intros Hst. apply orb_prop in Hend as [Hex|]; [|done].
    apply existsb_exists in Hex as (v & Hv & Hf). apply in_map_iff in Hv as (t & <- & _).
    destruct (fire fuel t s) as [s2| |] eqn:E; try done. by destruct (Hst s2); eapply fire_step.
  - destruct (step_turn fuel s s1 Hs) as (v & Hin & [-> | ->]); apply Hall in Hin;
      [by apply (IH n Hin)|done].
Qed.

Lemma explore_bound fuel n good s k s' :
  explore fuel n good s = true -> nsteps pstep k s s' -> (k < n)%nat.
Proof.
  intros He Hr. revert n He. induction Hr as [s|k s s1 s' Hs Hr IH]; intros n He;
    (destruct n as [|n]; [done|]); [lia|].
  cbn in He. apply andb_prop in He as [Hall _]. rewrite forallb_forall in Hall.
  destruct (step_turn fuel s s1 Hs) as (v & Hin & [-> | ->]); apply Hall in Hin; [|done].
  apply IH in Hin. lia.
Qed.
End pool.
