(* ===== verification/PthreadTest.v ===== *)
(** * other/pthread-test.c: three ways to add up an array with threads

    [main] uses [recursive_add]; the calls of the other two are commented out in the source. A
    [struct Task] is passed by value here: its owner does not look at it again before it has joined
    the thread that got it. *)

From stdpp Require Import relations.
From S2P Require Import Prelude CInt Prog Joint Session Threads.

Record Task := MkTask { first : Z; last : Z }.

Definition array : list Z := [1; 2; 3; 4; 5; 6; 7; 8; 9; 10].

(** The start routines. *)
Definition ADD : Z := 0.
Definition FIRST_INTERLEAVED_HALF : Z := 1.
Definition SECOND_INTERLEAVED_HALF : Z := 2.
Definition RECURSIVE_ADDITION : Z := 3.

Definition load_global (name : string) : prog Z := sysret (LoadGlobal name).
Definition store_global (name : string) (z : Z) : prog unit := sys_ (StoreGlobal name z).
Definition pthread_mutex_lock : prog unit := sys_ MutexLock.
Definition pthread_mutex_unlock : prog unit := sys_ MutexUnlock.
Definition pthread_join (thread : Z) : prog unit := sys_ (PthreadJoin thread).

Definition array_at (i : Z) : prog Z :=
  if (0 <=? i) && (i <? zlen array) then Ret (nth (Z.to_nat i) array 0) else undefined OutOfBounds.

(** [sum += array[i]]. *)
Definition add_element (i : Z) : prog unit :=
  a <- array_at i ;;
  v <- load_global "sum" ;;
  v' <- add_i32 v a ;;
  store_global "sum" v'.

Definition create_thread (function : Z) (argument : Task) : prog Z :=
  r <- sys (PthreadCreate function [first argument; last argument]) ;;
  when (negb (ret r =? 0)) (sys_ (Perror "Error creating thread") ;;; exit EXIT_FAILURE) ;;;
  Ret (nth 0 (data r) 0).

(** The loop of [add], and of the small case of [recursive_addition]. *)
Definition add_range (from to : Z) : prog Z :=
  while (fun i => Ret (i <? to))
    (fun i =>
      pthread_mutex_lock ;;;
      add_element i ;;;
      pthread_mutex_unlock ;;;
      add_i32 i 1) from.

Definition add (task : Task) : prog unit := add_range (first task) (last task) ;;; Ret tt.

Definition parallel_add : prog unit :=
  let first_task := MkTask 0 5 in
  let second_task := MkTask (last first_task) 10 in
  first_thread <- create_thread ADD first_task ;;
  second_thread <- create_thread ADD second_task ;;
  pthread_join first_thread ;;;
  pthread_join second_thread.

(** The loops of the two halves, over the global [i]. *)
Definition interleaved_loop (fmt : string) (to : Z) : prog unit :=
  while (fun _ => i <- load_global "i" ;; Ret (i <? to))
    (fun _ =>
      i <- load_global "i" ;;
      sys_ (Printf fmt [AInt i]) ;;;
      i <- load_global "i" ;;
      add_element i ;;;
      i <- load_global "i" ;;
      i <- add_i32 i 1 ;;
      store_global "i" i) tt.

Definition first_interleaved_half (task : Task) : prog unit :=
  pthread_mutex_lock ;;;
  sys_ (Printf "A\n" []) ;;;
  store_global "i" (first task) ;;;
  interleaved_loop "A: %d\n" (last task) ;;;
  pthread_mutex_unlock ;;;
  sys_ CondBroadcast ;;;
  Stop ThreadExited.

Definition second_interleaved_half (task : Task) : prog unit :=
  pthread_mutex_lock ;;;
  sys_ (Printf "B\n" []) ;;;
  sys_ CondWait ;;;
  interleaved_loop "B: %d\n" (last task) ;;;
  pthread_mutex_unlock ;;;
  Stop ThreadExited.

Definition interleaved_add : prog unit :=
  let first_task := MkTask 0 5 in
  let second_task := MkTask 5 10 in
  first_thread <- create_thread FIRST_INTERLEAVED_HALF first_task ;;
  second_thread <- create_thread SECOND_INTERLEAVED_HALF second_task ;;
  pthread_join first_thread ;;;
  pthread_join second_thread.

(** The body of [recursive_addition], with the recursive call as an argument. *)
Definition recursive_body (recursive_addition : Task -> prog unit) (task : Task) : prog unit :=
  d <- add_i32 (last task) (- first task) ;;
  if d <=? 2 then add_range (first task) (last task) ;;; Ret tt
  else
    middle <- add_i32 (first task) (Z.quot d 2) ;;
    let left_task := MkTask (first task) middle in
    let right_task := MkTask (last left_task) (last task) in
    thread <- create_thread RECURSIVE_ADDITION left_task ;;
    recursive_addition right_task ;;;
    pthread_join thread.

(** [depth] bounds the recursion; [recursive_addition_eq] says that the bound is large enough. *)
Fixpoint recursive_addition_at (depth : nat) (task : Task) : prog unit :=
  match depth with
  | O => undefined OutOfBounds
  | S depth => recursive_body (recursive_addition_at depth) task
  end.

Definition recursive_addition (task : Task) : prog unit :=
  recursive_addition_at (S (Z.to_nat (last task - first task))) task.

Definition recursive_add : prog unit := recursive_addition (MkTask 0 10).

(** [adder] is [recursive_add]. *)
Definition main_with (adder : prog unit) : prog Z :=
  adder ;;;
  sum <- load_global "sum" ;;
  sys_ (Printf "%d\n" [AInt sum]) ;;;
  Ret EXIT_SUCCESS.

Definition main : prog Z := main_with recursive_add.

(** What a new thread runs. *)
Definition routine (function : Z) (argument : list Z) : prog Z :=
  let task := MkTask (nth 0 argument 0) (nth 1 argument 0) in
  (if function =? ADD then add task
   else if function =? FIRST_INTERLEAVED_HALF then first_interleaved_half task
   else if function =? SECOND_INTERLEAVED_HALF then second_interleaved_half task
   else recursive_addition task) ;;;
  Ret 0.

(** The process when [main] starts. *)
Definition started (q : prog Z) : pool := Pool [q] None [] [] (fun _ => 0) [].

Definition pstep := Threads.pstep routine.

(** ** The recursion is deep enough *)

Lemma recursive_at_enough n m task :
  (Z.to_nat (last task - first task) < n)%nat -> (Z.to_nat (last task - first task) < m)%nat ->
  recursive_addition_at n task = recursive_addition_at m task.
Proof.
  revert m task. induction n as [|n IH]; intros m task Hn Hm; [lia|]. destruct m as [|m]; [lia|].
  cbn [recursive_addition_at]. unfold recursive_body, add_i32.
  destruct (in_i32b _); [|done]. cbn [bind]. destruct (Z.leb_spec (last task + - first task) 2) as [|Hd]; [done|].
  destruct (in_i32b (first task + _)); [|done]. cbn [bind]. f_equal.
  apply FunctionalExtensionality.functional_extensionality. intros r.
  f_equal. apply IH; cbn [first last];
    pose proof (Z.quot_lt (last task + - first task) 2 ltac:(lia) ltac:(lia));
    pose proof (Z.quot_le_lower_bound (last task + - first task) 2 1 ltac:(lia) ltac:(lia)); lia.
Qed.

Lemma recursive_addition_eq task : recursive_addition task = recursive_body recursive_addition task.
Proof.
  unfold recursive_addition at 1. cbn [recursive_addition_at]. unfold recursive_body, add_i32.
  destruct (in_i32b _); [|done]. cbn [bind]. destruct (Z.leb_spec (last task + - first task) 2) as [|Hd]; [done|].
  destruct (in_i32b (first task + _)); [|done]. cbn [bind]. f_equal.
  apply FunctionalExtensionality.functional_extensionality. intros r. f_equal.
  apply recursive_at_enough; cbn [first last];
    pose proof (Z.quot_lt (last task + - first task) 2 ltac:(lia) ltac:(lia));
    pose proof (Z.quot_le_lower_bound (last task + - first task) 2 1 ltac:(lia) ltac:(lia)); lia.
Qed.

(** ** The interleaved halves, exhaustively *)

(** The last line is the number [z]. *)
Definition prints (z : Z) (s : pool) : bool :=
  match output s with (f, [AInt z']) :: _ => String.eqb f "%d\n" && (z' =? z) | _ => false end.

(** [main] has returned after printing 55. *)
Definition prints_55 (s : pool) : bool :=
  prints 55 s && match threads s !! 0%nat with Some q => is_finished 20 q | None => false end.

(** The second half sleeps, the first has added its numbers and ended, and [main] has not. *)
Definition sleeps (s : pool) : bool :=
  bool_decide (asleep s = [2%nat]) && bool_decide (owner s = None) && (globals s "sum" =? 15) &&
  match threads s !! 1%nat with Some q => is_finished 20 q | None => false end &&
  match threads s !! 0%nat with Some q => negb (is_finished 20 q) | None => false end.

Definition interleaved_start : pool := started (main_with interleaved_add).

Lemma interleaved_explored :
  explore routine 20 120 (fun s => prints_55 s || sleeps s) interleaved_start = true.
Proof. by vm_compute. Qed.

(** The first half runs to its end before the second takes the mutex. *)
Definition first_half_first : list nat := (repeat 0 2 ++ repeat 1 46 ++ repeat 2 3 ++ [0])%nat.

(** The second half sleeps, the first one runs to its end and wakes it. *)
Definition second_half_woken : list nat :=
  (repeat 0 2 ++ repeat 2 3 ++ repeat 1 46 ++ repeat 2 43 ++ repeat 0 4)%nat.

(** The second half sleeps, is woken without a reason, and adds all the numbers. *)
Definition second_half_sleeps : list nat := (repeat 0 2 ++ repeat 2 3)%nat.
Definition second_half_first : list nat := ([2] ++ repeat 2 82 ++ repeat 1 46 ++ repeat 0 4)%nat.

Definition wake_spuriously (t : nat) (s : pool) : pool :=
  Pool (threads s) (owner s) (List.filter (fun u => negb (Nat.eqb u t)) (asleep s)) (t :: woken s)
    (globals s) (output s).

Definition checked (P : pool -> bool) (o : option pool) : bool := match o with Some s => P s | None => false end.

Lemma checked_inv P o : checked P o = true -> exists s, o = Some s /\ P s = true.
Proof. destruct o as [s|]; [|done]. by exists s. Qed.

Definition all_wait (s : pool) : bool :=
  forallb (fun t => match fire routine 20 t s with Waits => true | _ => false end) (seq 0 (length (threads s))).

(** Where a schedule ends, nobody can go on, and [P] holds. *)
Lemma ends_with (P : pool -> bool) ts s0 :
  checked (fun s => P s && all_wait s) (fire_all routine 20 ts s0) = true ->
  exists s, rtc pstep s0 s /\ stuck routine s /\ P s = true.
Proof.
  intros (s & H & [Hs Hw]%andb_prop)%checked_inv. exists s.
  split; [by eapply fire_all_steps|]. split; [by eapply waits_stuck|done].
Qed.

(** C38. other/pthread-test.c, [interleaved_add]: every run ends after fewer than 120 calls, and either
    [main] prints 55, or the second half has missed the broadcast and sleeps for ever with 15 added so far;
    both do happen. The wait is not in a loop, so a thread that is woken without a reason can make
    [main] print 70. *)
Theorem interleaved_add_outcomes :
  (forall k s, nsteps pstep k interleaved_start s -> (k < 120)%nat) /\
  (forall s, rtc pstep interleaved_start s -> stuck routine s -> prints_55 s = true \/ sleeps s = true) /\
  (exists s, rtc pstep interleaved_start s /\ stuck routine s /\ prints_55 s = true) /\
  (exists s, rtc pstep interleaved_start s /\ stuck routine s /\ sleeps s = true) /\
  (exists s1 s2 s3, rtc pstep interleaved_start s1 /\ spurious s1 s2 /\ rtc pstep s2 s3 /\ prints 70 s3 = true).
Proof.
  split; [|split; [|split; [|split]]].
  - intros k s. by apply (explore_bound routine 20 120 _ _ _ _ interleaved_explored).
  - intros s Hr Hst. apply orb_prop.
    by apply (explore_sound routine 20 120 _ _ _ interleaved_explored Hr).
  - apply (ends_with _ second_half_woken). by vm_compute.
  - apply (ends_with _ first_half_first). by vm_compute.
  - assert (checked (fun s => bool_decide (2%nat ∈ asleep s) && checked (prints 70)
      (fire_all routine 20 second_half_first (wake_spuriously 2 s)))
      (fire_all routine 20 second_half_sleeps interleaved_start) = true) as H by by vm_compute.
    apply checked_inv in H as (s & H & [Hs Hw]%andb_prop).
    apply checked_inv in Hw as (s3 & H3 & Hp). exists s, (wake_spuriously 2 s), s3.
    split; [by eapply fire_all_steps|]. split; [|split; [by eapply fire_all_steps|done]].
    apply spurious_wake. by eapply bool_decide_eq_true_1.
Qed.
