(* ===== verification/PthreadSum.v ===== *)
(** * other/pthread-test.c: every interleaving adds up all the numbers

    [does] is an account of what is left of a thread: how it stands to the mutex, which threads it
    still has to join, what it will still add to [sum], and how many calls that takes, with the
    threads it will create. [well] says that every thread of a pool has such an account and that the accounts
    fit each other and [sum]. A call takes one from the total number of calls ([well_step]), and a
    pool with calls left always has a next one ([well_moves]), so all runs have one length. *)

From stdpp Require Import relations.
From S2P Require Import Prelude CInt Prog Joint Session Threads PthreadTest.

(** The mutex: not taken, taken, taken with [sum] in a register. [Reporting] and [Reported] are
    the end of [main]. *)
Inductive mode := Free | Locked | Holding (v : Z) | Reporting (v : Z) | Reported.

Definition holds (m : mode) : bool := match m with Locked | Holding _ => true | _ => false end.

Section accounts.
(** What [sum] is at the end. *)
Context (total : Z) (total_small : total < 2 ^ 31).

Inductive does (is_main : bool) : mode -> list nat -> Z -> nat -> prog Z -> Prop :=
| does_end q z : is_main = false -> head q (Ret z) -> does is_main Free [] 0 0 q
| does_lock cs n w q k :
    head q (Call MutexLock k) -> does is_main Locked cs n w (k (rret 0)) -> does is_main Free cs n (S w) q
| does_load cs n w q k :
    head q (Call (LoadGlobal "sum") k) ->
    (forall v, 0 <= v <= total - n -> does is_main (Holding v) cs n w (k (rret v))) ->
    does is_main Locked cs n (S w) q
| does_store v a cs n w q k :
    head q (Call (StoreGlobal "sum" (v + a)) k) -> 0 <= a ->
    does is_main Locked cs n w (k (rret 0)) -> does is_main (Holding v) cs (a + n) (S w) q
| does_unlock cs n w q k :
    head q (Call MutexUnlock k) -> does is_main Free cs n w (k (rret 0)) -> does is_main Locked cs n (S w) q
| does_create f task cs n1 n2 w1 w2 q k :
    head q (Call (PthreadCreate f task) k) ->
    does false Free [] n1 w1 (routine f task) ->
    (forall u : nat, does is_main Free (u :: cs) n2 w2 (k (rdata 0 [Z.of_nat u]))) ->
    does is_main Free cs (n1 + n2) (S (w1 + w2)) q
| does_join u cs1 cs2 n w q k :
    head q (Call (PthreadJoin (Z.of_nat u)) k) ->
    does is_main Free (cs1 ++ cs2) n w (k (rret 0)) -> does is_main Free (cs1 ++ u :: cs2) n (S w) q
| does_load_result q k w :
    is_main = true -> head q (Call (LoadGlobal "sum") k) ->
    (forall v, does is_main (Reporting v) [] 0 w (k (rret v))) -> does is_main Free [] 0 (S w) q
| does_print v q k :
    head q (Call (Printf "%d\n" [AInt v]) k) -> does is_main Reported [] 0 0 (k (rret 0)) ->
    does is_main (Reporting v) [] 0 1 q
| does_report q : head q (Ret EXIT_SUCCESS) -> does is_main Reported [] 0 0 q.

Lemma does_nonneg is_main m cs n w q : does is_main m cs n w q -> 0 <= total -> 0 <= n.
Proof.
  intros H Ht. induction H as [| |b cs n w q k Hh Hk IH|b v a cs n w q k Hh Ha Hd IH| |b f task cs n1 n2 w1 w2 q k Hh Hd IH1 Hk IH2|
    | | |]; try done; [| |].
  - destruct (Z.le_gt_cases n total); [|lia]. apply (IH 0); lia.
  - lia.
  - specialize (IH2 0%nat). lia.
Qed.

(** ** Accounts of all threads *)

Record info := Info { its_mode : mode; joins : list nat; adds : Z; calls_left : nat }.

Definition account (t : nat) (i : info) (q : prog Z) : Prop :=
  does (Nat.eqb t 0) (its_mode i) (joins i) (adds i) (calls_left i) q.

Fixpoint tally (f : info -> Z) (l : list info) : Z := match l with [] => 0 | i :: l => f i + tally f l end.

Definition remaining (l : list info) : Z := tally (fun i => Z.of_nat (calls_left i)) l.

Record well (l : list info) (s : pool) : Prop := Well {
  well_length : length l = length (threads s);
  well_account t i q : l !! t = Some i -> threads s !! t = Some q -> account t i q;
  well_owner t : owner s = Some t <-> exists i, l !! t = Some i /\ holds (its_mode i) = true;
  well_holding t i v : l !! t = Some i -> its_mode i = Holding v -> globals s "sum" = v;
  well_parent u i : l !! u = Some i -> calls_left i <> O -> u = O \/
    exists t j, (t < u)%nat /\ l !! t = Some j /\ u ∈ joins j;
  well_joins t i u : l !! t = Some i -> u ∈ joins i -> (t < u < length l)%nat;
  well_sum : globals s "sum" + tally adds l = total /\ 0 <= globals s "sum";
  well_reporting t i v : l !! t = Some i -> its_mode i = Reporting v -> v = total /\ t = O;
  well_reported t i : l !! t = Some i -> its_mode i = Reported -> hd_error (output s) = Some ("%d\n", [AInt total]) /\ t = O
}.

Lemma does_over is_main m cs n q :
  does is_main m cs n 0 q -> finished q /\ cs = [] /\ n = 0 /\ (is_main = true -> m = Reported) /\
  (is_main = false -> m = Free \/ m = Reported).
Proof.
  remember 0%nat as w eqn:E. destruct 1; try done; subst.
  - repeat split; [left; by eexists|done|by left].
  - repeat split; [left; by eexists|by right].
Qed.

Lemma tally_insert f l t i j : l !! t = Some i -> tally f (<[t := j]> l) = tally f l - f i + f j.
Proof.
  revert t. induction l as [|i' l IH]; intros [|t] H; try done; cbn in H; [injection H as ->; cbn; lia|].
  change (<[S t := j]> (i' :: l)) with (i' :: <[t := j]> l). cbn [tally]. rewrite (IH t H). lia.
Qed.

Lemma tally_app f l l' : tally f (l ++ l') = tally f l + tally f l'.
Proof. induction l as [|i l IH]; cbn; [lia|]. rewrite IH. lia. Qed.

Lemma tally_zero f l : (forall t i, l !! t = Some i -> f i = 0) -> tally f l = 0.
Proof.
  induction l as [|i l IH]; intros H; cbn; [done|]. rewrite (H 0%nat i eq_refl), IH; [done|].
  intros t j Ht. by apply (H (S t)).
Qed.

Lemma tally_pos l : remaining l <> 0 -> exists t i, l !! t = Some i /\ calls_left i <> O.
Proof.
  unfold remaining. induction l as [|i l IH]; cbn; [done|]. intros H. destruct (calls_left i) eqn:E.
  - destruct IH as (t & j & Ht & Hj); [lia|]. by exists (S t), j.
  - exists 0%nat, i. by rewrite E.
Qed.

Lemma remaining_cons i l : remaining (i :: l) = Z.of_nat (calls_left i) + remaining l.
Proof. done. Qed.

Lemma remaining_nonneg l : 0 <= remaining l.
Proof. induction l; [done|]. rewrite remaining_cons. lia. Qed.

Lemma remaining_le l u j : l !! u = Some j -> Z.of_nat (calls_left j) <= remaining l.
Proof.
  revert u. induction l as [|i l IH]; intros [|u] H; try done; cbn in H; rewrite remaining_cons;
    pose proof (remaining_nonneg l); [injection H as ->; lia|]. apply IH in H. lia.
Qed.

(** The last thread that is not over. *)
Lemma last_left l :
  remaining l <> 0 ->
  exists t i, l !! t = Some i /\ calls_left i <> O /\
    forall u j, (t < u)%nat -> l !! u = Some j -> calls_left j = O.
Proof.
  unfold remaining. induction l as [|i l IH]; cbn; [done|]. intros H.
  destruct (decide (remaining l = 0)) as [E|E].
  - exists 0%nat, i. split; [done|]. split; [unfold remaining in E; lia|].
    intros [|u] j Hu Hj; [lia|]. destruct (decide (calls_left j = O)) as [|Hn]; [done|]. exfalso.
    apply (remaining_le l u) in Hj. lia.
  - destruct (IH E) as (t & j & Ht & Hj & Hm). exists (S t), j. split; [done|]. split; [done|].
    intros [|u] j' Hu Hj'; [lia|]. apply (Hm u); [lia|done].
Qed.

(** ** The invariant *)

(** Thread [t] goes on with [q'] and the account [j]. *)
Lemma well_update l s t i j q' o' g' out' :
  well l s -> l !! t = Some i -> account t j q' ->
  calls_left i <> O ->
  (forall u, u ∈ joins j -> u ∈ joins i) ->
  (forall u k, u ∈ joins i -> l !! u = Some k -> calls_left k = O \/ u ∈ joins j) ->
  (holds (its_mode i) = true \/ owner s = None \/ holds (its_mode j) = false) ->
  o' = (if holds (its_mode j) then Some t else if holds (its_mode i) then None else owner s) ->
  g' "sum" + adds j = globals s "sum" + adds i -> 0 <= g' "sum" ->
  (holds (its_mode i) = true \/ g' "sum" = globals s "sum") ->
  (forall v, its_mode j = Holding v -> g' "sum" = v) ->
  (forall v, its_mode j = Reporting v -> v = total /\ t = O) ->
  (its_mode j = Reported -> hd_error out' = Some ("%d\n", [AInt total]) /\ t = O) ->
  (out' = output s \/ t = O) ->
  well (<[t := j]> l) (Pool (<[t := q']> (threads s)) o' (asleep s) (woken s) g' out').
Proof.
  intros [Hlen Hacc Hown Hhold Hpar Hjoin [Hsum Hpos] Hrep Hred] Hi Hq Hc Hj1 Hj2 Hm Ho Hg Hg0 Hg1 Hv Hr1 Hr2 Hout.
  assert (t < length l)%nat as Ht by by eapply lookup_lt_Some.
  assert (forall u k, u <> t -> l !! u = Some k -> holds (its_mode k) = true -> holds (its_mode i) = true -> False) as Hex.
  { intros u k Hu Hk Hhk Hhi. assert (owner s = Some u) as E1 by (apply Hown; by exists k).
    assert (owner s = Some t) as E2 by (apply Hown; by exists i). congruence. }
  assert (forall u, (<[t := j]> l) !! u = if decide (u = t) then Some j else l !! u) as Hl.
  { intros u. case_decide; subst; [by apply list_lookup_insert_eq|by apply list_lookup_insert_ne]. }
  split; cbn [threads owner globals output].
  - by rewrite !length_insert.
  - intros u k q1 Hk Hq1. rewrite Hl in Hk. case_decide as Hu.
    + subst. injection Hk as <-. rewrite list_lookup_insert_eq in Hq1 by lia. by injection Hq1 as <-.
    + rewrite list_lookup_insert_ne in Hq1 by done. by eapply Hacc.
  - intros u. rewrite Hl, Ho. case_decide as Hu.
    + subst u. destruct (holds (its_mode j)) eqn:Ej.
      * split; [intros _; by exists j|done].
      * split; [|intros (k & [= <-] & ?); congruence]. destruct (holds (its_mode i)) eqn:Ei; [done|].
        intros (k & Hk & Hh)%Hown. congruence.
    + destruct (holds (its_mode j)) eqn:Ej.
      * split; [congruence|]. intros Hk. destruct Hk as (k & Hk & Hh).
        destruct Hm as [Hi'|[Hn|?]]; [by destruct (Hex u k)| |done].
        assert (owner s = Some u) by (apply Hown; by exists k). congruence.
      * destruct (holds (its_mode i)) eqn:Ei; [|apply Hown]. split; [done|].
        intros (k & Hk & Hh). by destruct (Hex u k).
  - intros u k v Hk Hkv. rewrite Hl in Hk. case_decide as Hu; [injection Hk as <-; by apply Hv|].
    destruct Hg1 as [Hi'| ->]; [|by eapply Hhold]. destruct (Hex u k); [done..| |done]. by rewrite Hkv.
  - intros u k Hk Hck. rewrite Hl in Hk.
    assert (exists k', l !! u = Some k' /\ calls_left k' <> O) as (k' & Hk' & Hck').
    { case_decide as Hu; [subst; by exists i|by exists k]. }
    destruct (Hpar u k' Hk' Hck') as [|(p & jp & Hp & Hjp & Hin)]; [by left|]. right. exists p.
    rewrite Hl. destruct (decide (p = t)) as [Hpt|]; [|by exists jp]. subst p. exists j. split; [done|]. split; [done|].
    rewrite Hi in Hjp. injection Hjp as <-. by destruct (Hj2 u k' Hin Hk').
  - intros u k w Hk Hw. rewrite length_insert. rewrite Hl in Hk. case_decide as Hu; [|by eapply Hjoin].
    subst. injection Hk as <-. eapply Hjoin; [exact Hi|]. by apply Hj1.
  - rewrite (tally_insert _ _ _ _ _ Hi). lia.
  - intros u k v Hk Hkv. rewrite Hl in Hk. case_decide as Hu; [|by eapply Hrep].
    subst. injection Hk as <-. by apply Hr1.
  - intros u k Hk Hkv. rewrite Hl in Hk. case_decide as Hu.
    + subst. injection Hk as <-. by apply Hr2.
    + destruct (Hred u k Hk Hkv) as [H1 ->]. split; [|done]. by destruct Hout as [-> | ->].
Qed.

(** Thread [t] creates a thread, which it will join. *)
Lemma well_create l s t i n n0 w0 w2 q q0 :
  well l s -> l !! t = Some i ->
  its_mode i = Free -> adds i = n0 + n -> calls_left i <> O ->
  does false Free [] n0 w0 q0 -> account t (Info Free (length l :: joins i) n w2) q ->
  well (<[t := Info Free (length l :: joins i) n w2]> l ++ [Info Free [] n0 w0])
    (Pool (<[t := q]> (threads s) ++ [q0]) (owner s) (asleep s) (woken s) (globals s) (output s)).
Proof.
  intros [Hlen Hacc Hown Hhold Hpar Hjoin [Hsum Hpos] Hrep Hred] Hi Hm Ha Hc H0 Hq.
  assert (t < length l)%nat as Ht by by eapply lookup_lt_Some.
  set (j := Info Free (length l :: joins i) n w2). set (c := Info Free [] n0 w0).
  assert (forall u k, (<[t := j]> l ++ [c]) !! u = Some k ->
    (u = t /\ k = j) \/ (u = length l /\ k = c) \/ (u <> t /\ (u < length l)%nat /\ l !! u = Some k)) as Hl.
  { intros u k [Hk|[Hge Hk]]%lookup_app_Some.
    - apply list_lookup_insert_Some in Hk as [(-> & <- & _)|[Hu Hk]]; [by left|]. right; right.
      split; [done|]. split; [by eapply lookup_lt_Some|done].
    - rewrite length_insert in Hge, Hk. apply list_lookup_singleton_Some in Hk as [Hu <-].
      right; left. split; [lia|done]. }
  assert (forall u k, l !! u = Some k -> u <> t -> (<[t := j]> l ++ [c]) !! u = Some k) as Hold.
  { intros u k Hk Hu. apply lookup_app_l_Some. by rewrite list_lookup_insert_ne. }
  assert ((<[t := j]> l ++ [c]) !! t = Some j) as Hj.
  { apply lookup_app_l_Some. by apply list_lookup_insert_eq. }
  split; cbn [threads owner globals output].
  - rewrite !length_app, !length_insert. cbn. lia.
  - intros u k q1 Hk Hq1. destruct (Hl u k Hk) as [[-> ->]|[[-> ->]|(Hu & Hlt & Hk')]].
    + rewrite lookup_app_l, list_lookup_insert_eq in Hq1 by (rewrite ?length_insert; lia). by injection Hq1 as <-.
    + rewrite Hlen, lookup_app_r, length_insert, Nat.sub_diag in Hq1 by (rewrite ?length_insert; lia).
      injection Hq1 as <-. unfold account. destruct (length l); [lia|]. exact H0.
    + rewrite lookup_app_l, list_lookup_insert_ne in Hq1 by (rewrite ?length_insert; lia). by eapply Hacc.
  - intros u. rewrite Hown. split.
    + intros (k & Hk & Hh). exists k. split; [|done]. apply Hold; [done|]. intros ->. rewrite Hi in Hk.
      injection Hk as <-. by rewrite Hm in Hh.
    + intros (k & Hk & Hh). destruct (Hl u k Hk) as [[-> ->]|[[-> ->]|(Hu & Hlt & Hk')]]; [done..|]. by exists k.
  - intros u k v Hk Hkv. destruct (Hl u k Hk) as [[-> ->]|[[-> ->]|(Hu & Hlt & Hk')]]; [done..|]. by eapply Hhold.
  - intros u k Hk Hck. destruct (decide (u = length l)) as [->|Hul].
    { right. exists t, j. split; [done|]. split; [done|]. by left. }
    assert (exists k', l !! u = Some k' /\ calls_left k' <> O) as (k' & Hk' & Hck').
    { destruct (Hl u k Hk) as [[-> ->]|[[-> ->]|(Hu & Hlt & Hk')]]; [by exists i|done|by exists k]. }
    destruct (Hpar u k' Hk' Hck') as [|(p & jp & Hp & Hjp & Hin)]; [by left|]. right. exists p.
    destruct (decide (p = t)) as [->|Hpt]; [|exists jp; by auto].
    exists j. split; [done|]. split; [done|]. rewrite Hi in Hjp. injection Hjp as <-. by right.
  - intros u k w Hk Hw. rewrite length_app, length_insert. cbn.
    destruct (Hl u k Hk) as [[-> ->]|[[-> ->]|(Hu & Hlt & Hk')]].
    + cbn in Hw. apply elem_of_cons in Hw as [->|Hw]; [lia|]. specialize (Hjoin t i w Hi Hw). lia.
    + by apply not_elem_of_nil in Hw.
    + specialize (Hjoin u k w Hk' Hw). lia.
  - rewrite tally_app, (tally_insert _ _ _ _ _ Hi). cbn. lia.
  - intros u k v Hk Hkv. destruct (Hl u k Hk) as [[-> ->]|[[-> ->]|(Hu & Hlt & Hk')]]; [done..|]. by eapply Hrep.
  - intros u k Hk Hkv. destruct (Hl u k Hk) as [[-> ->]|[[-> ->]|(Hu & Hlt & Hk')]]; [done..|]. by eapply Hred.
Qed.

(** A thread that has all its children behind it is the last one, if it is the first. *)
Lemma rest_over l s i :
  well l s -> l !! 0%nat = Some i -> joins i = [] ->
  forall u k, l !! u = Some k -> u <> O -> calls_left k = O.
Proof.
  intros W Hi Hn u. induction (lt_wf u) as [u _ IH]. intros k Hk Hu.
  destruct (decide (calls_left k = O)) as [|Hc]; [done|]. exfalso.
  destruct (well_parent l s W u k Hk Hc) as [->|(p & j & Hp & Hj & Hin)]; [done|].
  destruct p as [|p].
  - rewrite Hi in Hj. injection Hj as <-. rewrite Hn in Hin. by apply not_elem_of_nil in Hin.
  - specialize (IH (S p) Hp j Hj ltac:(done)).
    assert (exists q, threads s !! S p = Some q) as [q Hq].
    { apply lookup_lt_is_Some. rewrite <- (well_length l s W). by eapply lookup_lt_Some. }
    pose proof (well_account l s W _ _ _ Hj Hq) as Ha. unfold account in Ha. rewrite IH in Ha.
    apply does_over in Ha as (_ & E & _). rewrite E in Hin. by apply not_elem_of_nil in Hin.
Qed.

Lemma adds_over l s t i : well l s -> l !! t = Some i -> calls_left i = O -> adds i = 0.
Proof.
  intros W Hi Hc.
  assert (exists q, threads s !! t = Some q) as [q Hq].
  { apply lookup_lt_is_Some. rewrite <- (well_length l s W). by eapply lookup_lt_Some. }
  pose proof (well_account l s W _ _ _ Hi Hq) as Ha. unfold account in Ha. rewrite Hc in Ha.
  by apply does_over in Ha as (_ & _ & E & _).
Qed.

Lemma all_added l s i :
  well l s -> l !! 0%nat = Some i -> joins i = [] -> adds i = 0 -> globals s "sum" = total.
Proof.
  intros W Hi Hn Ha. destruct (well_sum l s W) as [Hs _]. rewrite tally_zero in Hs; [lia|].
  intros [|t] j Hj; [congruence|]. eapply adds_over; [done..|]. by eapply rest_over.
Qed.

Lemma adds_nonneg l s : well l s -> 0 <= total -> forall t i, l !! t = Some i -> 0 <= adds i.
Proof.
  intros W Ht t i Hi.
  assert (exists q, threads s !! t = Some q) as [q Hq].
  { apply lookup_lt_is_Some. rewrite <- (well_length l s W). by eapply lookup_lt_Some. }
  eapply does_nonneg; [by eapply well_account|done].
Qed.

Lemma remaining_insert l t i j :
  l !! t = Some i -> calls_left i = S (calls_left j) -> remaining l = remaining (<[t := j]> l) + 1.
Proof. intros Hi Hc. unfold remaining. rewrite (tally_insert _ _ _ _ _ Hi). lia. Qed.

Lemma tally_le f l t i :
  (forall t i, l !! t = Some i -> 0 <= f i) -> l !! t = Some i -> f i <= tally f l.
Proof.
  revert t. induction l as [|j l IH]; intros t Hf Ht; [done|].
  assert (0 <= tally f l) as Hl.
  { assert (forall u k, l !! u = Some k -> 0 <= f k) as Hf' by (intros u k; apply (Hf (S u))).
    clear -Hf'. induction l as [|k l IH]; cbn; [done|]. pose proof (Hf' 0%nat k eq_refl).
    assert (0 <= tally f l) by (apply IH; intros u k'; apply (Hf' (S u))). lia. }
  destruct t as [|t]; cbn in Ht; cbn [tally].
  - injection Ht as ->. lia.
  - pose proof (Hf 0%nat j eq_refl). specialize (IH t (fun u k => Hf (S u) k) Ht). lia.
Qed.

Lemma sum_bound l s t i : well l s -> l !! t = Some i -> 0 <= total -> 0 <= globals s "sum" <= total - adds i.
Proof.
  intros W Hi Ht. destruct (well_sum l s W) as [Hs H0].
  pose proof (tally_le adds l t i (adds_nonneg l s W Ht) Hi). lia.
Qed.

(** What the next call of a thread with an account can be. *)
Lemma does_next is_main m cs n w q c k :
  does is_main m cs n w q -> head q (Call c k) ->
  exists w', w = S w' /\
  match c with
  | MutexLock => m = Free /\ does is_main Locked cs n w' (k (rret 0))
  | LoadGlobal x => x = "sum" /\
      ((m = Locked /\ forall v, 0 <= v <= total - n -> does is_main (Holding v) cs n w' (k (rret v))) \/
       (is_main = true /\ m = Free /\ cs = [] /\ n = 0 /\ forall v, does is_main (Reporting v) [] 0 w' (k (rret v))))
  | StoreGlobal x z => exists v a n', x = "sum" /\ m = Holding v /\ z = v + a /\ 0 <= a /\ n = a + n' /\
      does is_main Locked cs n' w' (k (rret 0))
  | MutexUnlock => m = Locked /\ does is_main Free cs n w' (k (rret 0))
  | PthreadCreate f task => exists n1 n2 w1 w2, m = Free /\ n = n1 + n2 /\ w' = (w1 + w2)%nat /\
      does false Free [] n1 w1 (routine f task) /\
      forall u : nat, does is_main Free (u :: cs) n2 w2 (k (rdata 0 [Z.of_nat u]))
  | PthreadJoin z => exists (u : nat) cs1 cs2, z = Z.of_nat u /\ m = Free /\ cs = cs1 ++ u :: cs2 /\
      does is_main Free (cs1 ++ cs2) n w' (k (rret 0))
  | Printf f a => exists v, f = "%d\n" /\ a = [AInt v] /\ m = Reporting v /\ cs = [] /\ n = 0 /\
      does is_main Reported [] 0 w' (k (rret 0))
  | _ => False
  end.
Proof.
  intros Hd Hh. destruct Hd as
    [q z Hb H|cs n w q k' H Hk|cs n w q k' H Hk|v a cs n w q k' H Ha Hk|cs n w q k' H Hk
    |f task cs n1 n2 w1 w2 q k' H Hd Hk|u cs1 cs2 n w q k' H Hk|q k' w Hb H Hk|v q k' H Hk|q H];
    pose proof (head_det _ _ _ H Hh) as E; try done; injection E as <- <-; eexists; (split; [done|]).
  - done.
  - split; [done|]. by left.
  - by exists v, a, n.
  - done.
  - by exists n1, n2, w1, w2.
  - by exists u, cs1, cs2.
  - split; [done|]. by right.
  - by exists v.
Qed.

Context (total_nonneg : 0 <= total).

Lemma well_info l s t q :
  well l s -> threads s !! t = Some q -> exists i, l !! t = Some i /\ account t i q.
Proof.
  intros W Hq. assert (exists i, l !! t = Some i) as [i Hi].
  { apply lookup_lt_is_Some. rewrite (well_length l s W). by eapply lookup_lt_Some. }
  exists i. split; [done|]. by eapply well_account.
Qed.

(** [well_update] where the thread does the rest of its old account. *)
Lemma well_go l s t m cs n w m' n' w' q' o' g' out' :
  well l s -> l !! t = Some (Info m cs n (S w)) -> does (Nat.eqb t 0) m' cs n' w q' ->
  (holds m = true \/ owner s = None \/ holds m' = false) ->
  o' = (if holds m' then Some t else if holds m then None else owner s) ->
  g' "sum" + n' = globals s "sum" + n -> 0 <= g' "sum" ->
  (holds m = true \/ g' "sum" = globals s "sum") ->
  (forall v, m' = Holding v -> g' "sum" = v) ->
  (forall v, m' = Reporting v -> v = total /\ t = O) ->
  (m' = Reported -> hd_error out' = Some ("%d\n", [AInt total]) /\ t = O) ->
  (out' = output s \/ t = O) ->
  w' = w ->
  exists l', well l' (Pool (<[t := q']> (threads s)) o' (asleep s) (woken s) g' out') /\
    remaining l = remaining l' + 1.
Proof.
  intros W Hi Hd. intros. exists (<[t := Info m' cs n' w]> l). split; [|by eapply remaining_insert].
  eapply well_update; try done. intros u k Hu _. by right.
Qed.

Lemma does_finished is_main m cs n w q : does is_main m cs n w q -> finished q -> w = O.
Proof.
  intros Hd Hf. destruct Hd; try done;
    destruct Hf as [[z Hz]|Hz]; match goal with H : head _ (Call _ _) |- _ => pose proof (head_det _ _ _ H Hz); done end.
Qed.

Lemma well_call l s t q c k r s' :
  well l s -> threads s !! t = Some q -> head q (Call c k) -> answer routine t c s = Some (r, s') ->
  exists l', well l' (resume t (k r) s') /\ remaining l = remaining l' + 1.
Proof.
  intros W Hq Hh Ha. destruct (well_info l s t q W Hq) as ([m cs n w] & Hi & Hd). unfold account in Hd.
  cbn in Hd. destruct (does_next _ _ _ _ _ _ _ _ Hd Hh) as (w' & -> & Hc).
  pose proof (well_owner l s W t) as Ho. destruct s as [ts o sl wk g out]. cbn [threads owner globals output] in *.
  destruct (sum_bound _ _ _ _ W Hi total_nonneg) as [Hg0 Hg]. cbn [adds globals] in Hg0, Hg.
  destruct c; try done; cbn in Ha.
  - case_decide; [|done]. injection Ha as <- <-. destruct Hc as [-> Hc].
    eapply (well_go l _ t _ _ _ _ _ _ _ _ _ _ _ W Hi Hc); cbn; auto; done.
  - case_decide as E; [|done]. injection Ha as <- <-. destruct Hc as [-> Hc].
    eapply (well_go l _ t _ _ _ _ _ _ _ _ _ _ _ W Hi Hc); cbn; auto; done.
  - injection Ha as <- <-. destruct Hc as (n1 & n2 & w1 & w2 & -> & -> & -> & H1 & H2).
    assert (t < length ts)%nat as Ht by by eapply lookup_lt_Some.
    pose proof (well_length l _ W) as Hlen. cbn in Hlen.
    eexists. split.
    + unfold resume. cbn [threads owner asleep woken globals output]. rewrite insert_app_l by done.
      eapply (well_create l (Pool ts o sl wk g out) t _ n2 n1 w1 w2 _ _ W Hi); cbn; try done.
      unfold account. cbn. rewrite Hlen. apply H2.
    + unfold remaining. rewrite tally_app, (tally_insert _ _ _ _ _ Hi). cbn. lia.
  - injection Ha as <- <-. destruct Hc as [-> [[-> Hc]|(Hm & -> & -> & -> & Hc)]].
    + eapply (well_go l _ t _ _ _ _ _ _ _ _ _ _ _ W Hi (Hc (g "sum") ltac:(lia))); cbn; auto; try done.
      * apply Ho. eexists. split; [exact Hi|done].
      * by intros v [= <-].
    + apply Nat.eqb_eq in Hm as ->.
      pose proof (all_added l _ _ W Hi eq_refl eq_refl) as E. cbn in E.
      eapply (well_go l _ 0%nat _ _ _ _ _ _ _ _ _ _ _ W Hi (Hc (g "sum"))); cbn; auto; try done.
      by intros v [= <-].
  - injection Ha as <- <-. destruct Hc as (v & a & n' & -> & -> & -> & Ha & -> & Hc).
    pose proof (well_holding l _ W _ _ _ Hi eq_refl) as Hv. cbn in Hv.
    eapply (well_go l _ t _ _ _ _ _ _ _ _ _ _ _ W Hi Hc); cbn; auto; try done; unfold set_global;
      try (rewrite decide_True by done; lia).
    apply Ho. eexists. split; [exact Hi|done].
  - injection Ha as <- <-. destruct Hc as (v & -> & -> & -> & -> & -> & Hc).
    destruct (well_reporting l _ W _ _ _ Hi eq_refl) as [-> ->].
    eapply (well_go l _ 0%nat _ _ _ _ _ _ _ _ _ _ _ W Hi Hc); cbn; auto; try done.
Qed.

(** A step takes one call from those that are left. *)
Lemma well_step l s s' : well l s -> pstep s s' -> exists l', well l' s' /\ remaining l = remaining l' + 1.
Proof.
  intros W Hs. destruct Hs as [t q c k r s' Hq Hh Ha|t q u q' k Hq Hh Hu Hf|t q k Hq Hh _ _ _|t q k Hq Hh _ _].
  - by eapply well_call.
  - destruct (well_info l s t q W Hq) as ([m cs n w] & Hi & Hd). unfold account in Hd. cbn in Hd.
    destruct (does_next _ _ _ _ _ _ _ _ Hd Hh) as (w' & -> & v & cs1 & cs2 & -> & -> & -> & Hd').
    rewrite Nat2Z.id in Hu. destruct (well_info l s v q' W Hu) as (j & Hj & Hdj).
    pose proof (does_finished _ _ _ _ _ _ Hdj Hf) as Hc.
    eexists. split; [|by eapply (remaining_insert l t _ (Info Free (cs1 ++ cs2) n w'))].
    unfold resume. eapply well_update; [exact W|exact Hi|exact Hd'|..]; cbn; auto; try done.
    + intros u [Hin|Hin]%elem_of_app; apply elem_of_app; [by left|right; by right].
    + intros u j' Hin Hj'. apply elem_of_app in Hin as [Hin|[->|Hin]%elem_of_cons]; [right; apply elem_of_app; by left| |right; apply elem_of_app; by right].
      left. rewrite Hj in Hj'. by injection Hj' as <-.
    + by destruct (well_sum l s W).
  - destruct (well_info l s t q W Hq) as (i & _ & Hd). by destruct (does_next _ _ _ _ _ _ _ _ Hd Hh) as (? & _ & []).
  - destruct (well_info l s t q W Hq) as (i & _ & Hd). by destruct (does_next _ _ _ _ _ _ _ _ Hd Hh) as (? & _ & []).
Qed.

(** An account with calls left begins with a call. *)
Lemma does_moves is_main m cs n w q :
  does is_main m cs n (S w) q -> exists c k, head q (Call c k) /\
    match m with
    | Free => c = MutexLock \/ (exists f task, c = PthreadCreate f task) \/ c = LoadGlobal "sum" \/
        exists u, c = PthreadJoin (Z.of_nat u) /\ u ∈ cs
    | Locked => c = LoadGlobal "sum" \/ c = MutexUnlock
    | Holding _ => exists z, c = StoreGlobal "sum" z
    | Reporting v => c = Printf "%d\n" [AInt v]
    | Reported => False
    end.
Proof.
  remember (S w) as w0 eqn:E. destruct 1; try done; do 2 eexists; (split; [eassumption|]); eauto 6.
  do 3 right. eexists. split; [done|]. apply elem_of_app. right. by left.
Qed.

Lemma well_moves l s : well l s -> remaining l <> 0 -> exists s', pstep s s'.
Proof.
  intros W Hr.
  assert (forall t i, l !! t = Some i -> exists q, threads s !! t = Some q /\ account t i q) as Hthread.
  { intros t i Hi. assert (exists q, threads s !! t = Some q) as [q Hq].
    { apply lookup_lt_is_Some. rewrite <- (well_length l s W). by eapply lookup_lt_Some. }
    exists q. split; [done|]. by eapply well_account. }
  assert (forall t q c k, threads s !! t = Some q -> head q (Call c k) ->
    (exists r s', answer routine t c s = Some (r, s')) -> exists s', pstep s s') as Hans.
  { intros t q c k Hq Hh (r & s' & Ha). eexists. by eapply step_call. }
  destruct (owner s) as [t|] eqn:Eo.
  - destruct (proj1 (well_owner l s W t) Eo) as ([m cs n [|w]] & Hi & Hm); destruct (Hthread _ _ Hi) as (q & Hq & Hd).
    + apply does_over in Hd as (_ & _ & _ & H1 & H2). cbn in *.
      destruct (Nat.eqb t 0); [by rewrite H1 in Hm|]. by destruct H2 as [-> | ->].
    + destruct (does_moves _ _ _ _ _ _ Hd) as (c & k & Hh & Hc). apply (Hans t q c k Hq Hh). cbn in Hc, Hm.
      destruct s as [ts o sl wk g out]. cbn in Eo. subst o.
      destruct m; try done; [destruct Hc as [-> | ->]|destruct Hc as [z ->]]; cbn; try rewrite decide_True by done; eauto.
  - destruct (last_left l Hr) as (t & [m cs n [|w]] & Hi & Hc & Hlast); [done|].
    destruct (Hthread _ _ Hi) as (q & Hq & Hd).
    destruct (does_moves _ _ _ _ _ _ Hd) as (c & k & Hh & Hcm). cbn in Hcm.
    assert (holds m = false) as Hm.
    { destruct (holds m) eqn:E; [|done].
      enough (owner s = Some t) by congruence. apply (well_owner l s W). eexists. split; [exact Hi|done]. }
    destruct m; try done.
    + destruct Hcm as [->|[(f & task & ->)|[->|(u & -> & Hu)]]].
      1-3: apply (Hans t q _ k Hq Hh); destruct s as [ts o sl wk g out]; cbn in Eo |- *; subst o;
        try rewrite decide_True by done; eauto.
      destruct (well_joins l s W t _ u Hi Hu) as [Htu Hul].
      destruct (proj2 (lookup_lt_is_Some l u) Hul) as [j Hj].
      destruct (Hthread _ _ Hj) as (q' & Hq' & Hd'). unfold account in Hd'.
      rewrite (Hlast u j Htu Hj) in Hd'. apply does_over in Hd' as [Hf _].
      eexists. eapply step_join; [exact Hq|exact Hh|by rewrite Nat2Z.id|done].
    + subst. apply (Hans t q _ k Hq Hh). destruct s; cbn; eauto.
Qed.

(** Where no calls are left, all threads are over and [main] has printed the sum. *)
Lemma well_over l s :
  well l s -> remaining l = 0 -> (0 < length l)%nat ->
  (forall t q, threads s !! t = Some q -> finished q) /\
  hd_error (output s) = Some ("%d\n", [AInt total]).
Proof.
  intros W Hr Hlen.
  assert (forall t i, l !! t = Some i -> calls_left i = O) as Hc.
  { intros t i Hi. apply (remaining_le l t) in Hi. lia. }
  split.
  - intros t q Hq. destruct (well_info l s t q W Hq) as (i & Hi & Hd). unfold account in Hd.
    rewrite (Hc t i Hi) in Hd. by apply does_over in Hd as [Hf _].
  - destruct (proj2 (lookup_lt_is_Some l 0%nat) Hlen) as [i Hi].
    assert (exists q, threads s !! 0%nat = Some q) as [q Hq].
    { apply lookup_lt_is_Some. by rewrite <- (well_length l s W). }
    pose proof (well_account l s W _ _ _ Hi Hq) as Hd. unfold account in Hd. rewrite (Hc _ _ Hi) in Hd.
    apply does_over in Hd as (_ & _ & _ & H & _). by apply (well_reported l s W _ _ Hi), H.
Qed.

Lemma well_run l s k s' : well l s -> nsteps pstep k s s' -> exists l', well l' s' /\ remaining l = remaining l' + Z.of_nat k.
Proof.
  intros W H. revert l W. induction H as [s|k s s1 s' Hs _ IH]; intros l W; [exists l; split; [done|lia]|].
  destruct (well_step l s s1 W Hs) as (l1 & W1 & E1). destruct (IH l1 W1) as (l' & W' & E').
  exists l'. split; [done|]. lia.
Qed.

(** ** The programs *)

Lemma does_head is_main m cs n w q q' :
  (forall t, head q t -> head q' t) -> does is_main m cs n w q -> does is_main m cs n w q'.
Proof.
  intros Hh Hd. destruct Hd.
  - by eapply does_end; [|apply Hh].
  - by eapply does_lock; [apply Hh|].
  - by eapply does_load; [apply Hh|].
  - by eapply does_store; [apply Hh| |].
  - by eapply does_unlock; [apply Hh|].
  - by eapply does_create; [apply Hh| |].
  - by eapply does_join; [apply Hh|].
  - by eapply does_load_result; [|apply Hh|].
  - by eapply does_print; [apply Hh|].
  - by apply does_report, Hh.
Qed.

Lemma does_unroll is_main m cs n w q : is_loop q = true -> does is_main m cs n w (unroll q) -> does is_main m cs n w q.
Proof. intros Hl. apply does_head. intros t. by apply head_loop. Qed.

Lemma call_here c (k : resp -> prog Z) : head (Call c k) (Call c k).
Proof. by apply head_here. Qed.

(** The numbers of [array] from [from] on. *)
Fixpoint elements (from : Z) (count : nat) : Z :=
  match count with O => 0 | S count => nth (Z.to_nat from) array 0 + elements (from + 1) count end.

Lemma array_nonneg i : 0 <= nth i array 0 <= 10.
Proof. do 10 (destruct i as [|i]; [cbn; lia|]). by destruct i. Qed.

Lemma elements_nonneg from count : 0 <= elements from count.
Proof. revert from. induction count as [|count IH]; intros from; cbn [elements]; [done|]. pose proof (array_nonneg (Z.to_nat from)). specialize (IH (from + 1)). lia. Qed.

Lemma add_element_eq i :
  0 <= i < 10 ->
  add_element i = Call (LoadGlobal "sum") (fun r => bind (add_i32 (ret r) (nth (Z.to_nat i) array 0)) (store_global "sum")).
Proof.
  intros Hi. unfold add_element, array_at. change (zlen array) with 10.
  by rewrite (proj2 (Z.leb_le _ _)), (proj2 (Z.ltb_lt _ _)) by lia.
Qed.

Lemma add_i32_eq a b : -2 ^ 31 <= a + b < 2 ^ 31 -> add_i32 a b = Ret (a + b).
Proof. intros H. unfold add_i32. by rewrite (proj2 (in_i32b_spec _)). Qed.

Lemma does_add_range is_main count : forall from cs n w (f : Z -> prog Z),
  0 <= from -> from + Z.of_nat count <= 10 -> 0 <= n ->
  does is_main Free cs n w (f (from + Z.of_nat count)) ->
  does is_main Free cs (elements from count + n) (4 * count + w) (bind (add_range from (from + Z.of_nat count)) f).
Proof.
  induction count as [|count IH]; intros from cs n w f Hf Ht Hn Hd; (apply does_unroll; [done|]).
  { cbn [unroll bind add_range while loop]. rewrite Z.add_0_r in *. by rewrite Z.ltb_irrefl. }
  cbn [elements]. pose proof (array_nonneg (Z.to_nat from)) as Ha. set (a := nth (Z.to_nat from) array 0) in *.
  pose proof (elements_nonneg (from + 1) count) as He.
  replace (4 * S count + w)%nat with (S (S (S (S (4 * count + w))))) by lia.
  rewrite <- Z.add_assoc. cbn [unroll bind add_range while loop].
  rewrite (proj2 (Z.ltb_lt _ _)) by lia. cbn [bind pthread_mutex_lock sys_].
  eapply does_lock; [apply call_here|]. rewrite add_element_eq by lia. cbn [bind].
  eapply does_load; [apply call_here|]. intros v Hv. fold a. cbn [ret rret].
  rewrite add_i32_eq by lia. cbn [bind store_global sys_].
  eapply does_store; [apply call_here|lia|]. cbn [bind pthread_mutex_unlock sys_].
  eapply does_unlock; [apply call_here|]. rewrite add_i32_eq by lia. cbn [bind].
  replace (from + Z.of_nat (S count)) with (from + 1 + Z.of_nat count) in * by lia.
  apply IH; [lia..|done].
Qed.

Lemma elements_split from a b : elements from (a + b) = elements from a + elements (from + Z.of_nat a) b.
Proof.
  revert from. induction a as [|a IH]; intros from; [by rewrite Z.add_0_r|].
  change (S a + b)%nat with (S (a + b)). cbn [elements]. rewrite IH. rewrite Nat2Z.inj_succ.
  replace (from + 1 + Z.of_nat a) with (from + Z.succ (Z.of_nat a)) by lia. lia.
Qed.

(** The calls of [recursive_addition] for [d] numbers, with those of the threads it creates. *)
Fixpoint cost (depth : nat) (d : Z) : nat :=
  match depth with
  | O => 0
  | S depth => if d <=? 2 then 4 * Z.to_nat d else 2 + cost depth (Z.quot d 2) + cost depth (d - Z.quot d 2)
  end.

Lemma does_create_thread is_main function argument cs n1 n2 w1 w2 (f : Z -> prog Z) :
  does false Free [] n1 w1 (routine function [first argument; last argument]) ->
  (forall u : nat, does is_main Free (u :: cs) n2 w2 (f (Z.of_nat u))) ->
  does is_main Free cs (n1 + n2) (S (w1 + w2)) (bind (create_thread function argument) f).
Proof. intros H1 H2. by eapply does_create; [apply call_here|exact H1|]. Qed.

Lemma does_thread function argument body n w :
  routine function argument = (body ;;; Ret 0) ->
  (forall f : unit -> prog Z, does false Free [] 0 0 (f tt) -> does false Free [] n w (bind body f)) ->
  does false Free [] n w (routine function argument).
Proof. intros -> H. apply H. by eapply does_end; [|by apply head_here]. Qed.

Lemma does_recursive depth : forall task is_main cs n w (f : unit -> prog Z),
  0 <= first task <= last task -> last task <= 10 -> (Z.to_nat (last task - first task) < depth)%nat -> 0 <= n ->
  does is_main Free cs n w (f tt) ->
  does is_main Free cs (elements (first task) (Z.to_nat (last task - first task)) + n)
    (cost depth (last task - first task) + w) (bind (recursive_addition_at depth task) f).
Proof.
  induction depth as [|depth IH]; intros [a b] is_main cs n w f; cbn [first last]; intros Hab Hb Hd Hn Hf; [lia|].
  cbn [recursive_addition_at cost]. unfold recursive_body. cbn [first last].
  rewrite add_i32_eq by lia. change (b + - a) with (b - a). cbn [bind]. destruct (Z.leb_spec (b - a) 2) as [H2|H2].
  - rewrite bind_assoc. cbn [bind].
    pose proof (does_add_range is_main (Z.to_nat (b - a)) a cs n w (fun _ => f tt)) as Hr.
    rewrite Z2Nat.id in Hr by lia. replace (a + (b - a)) with b in Hr by lia. apply Hr; try done; lia.
  - set (h := Z.quot (b - a) 2).
    assert (1 <= h < b - a) as Hh by (split; [apply Z.quot_le_lower_bound|apply Z.quot_lt]; lia).
    rewrite add_i32_eq by lia. cbn [bind]. rewrite bind_assoc.
    replace (Z.to_nat (b - a)) with (Z.to_nat h + Z.to_nat (b - a - h))%nat by lia.
    rewrite elements_split, Z2Nat.id, <- Z.add_assoc by lia.
    replace (2 + cost depth h + cost depth (b - a - h) + w)%nat
      with (S (cost depth h + (cost depth (b - a - h) + S w))) by lia.
    apply does_create_thread; cbn [first last].
    + eapply (does_thread _ _ (recursive_addition (MkTask a (a + h)))); [done|]. intros g Hg.
      unfold recursive_addition. rewrite (recursive_at_enough _ depth) by (cbn [first last]; lia).
      pose proof (IH (MkTask a (a + h)) false [] 0 0%nat g) as H. cbn [first last] in H.
      replace (a + h - a) with h in H by lia. rewrite Z.add_0_r, Nat.add_0_r in H. apply H; try done; lia.
    + intros u. rewrite bind_assoc.
      pose proof (IH (MkTask (a + h) b) is_main (u :: cs) n (S w)
        (fun _ => bind (pthread_join (Z.of_nat u)) f)) as H. cbn [first last] in H.
      replace (b - (a + h)) with (b - a - h) in H by lia. apply H; try done; try lia.
      by eapply (does_join is_main u [] cs); [apply call_here|].
Qed.

(** [main] with a way of adding up that accounts for all the numbers. *)
Lemma does_main adder n w :
  (forall f : unit -> prog Z, does true Free [] 0 2 (f tt) -> does true Free [] n w (bind adder f)) ->
  does true Free [] n w (main_with adder).
Proof.
  intros H. apply H. eapply does_load_result; [done|apply call_here|]. intros v. cbn.
  eapply does_print; [apply call_here|]. by apply does_report, head_here.
Qed.

Lemma well_started q n w :
  n = total -> does true Free [] n w q -> well [Info Free [] n w] (started q).
Proof.
  intros -> Hd. split; cbn; try done.
  - intros [|t] i q'; [|done]. by intros [= <-] [= <-].
  - intros t. split; [done|]. intros (i & Hi & Hh). apply list_lookup_singleton_Some in Hi as [-> <-]. done.
  - intros t i v Hi Hv. by apply list_lookup_singleton_Some in Hi as [-> <-].
  - intros u i Hi _. apply list_lookup_singleton_Some in Hi as [-> _]. by left.
  - intros t i u Hi Hu. apply list_lookup_singleton_Some in Hi as [_ <-]. by apply not_elem_of_nil in Hu.
  - lia.
  - intros t i v Hi Hv. by apply list_lookup_singleton_Some in Hi as [-> <-].
  - intros t i Hi Hv. by apply list_lookup_singleton_Some in Hi as [-> <-].
Qed.
End accounts.

(** Every run of [q] can go on until it has made [n] calls; then all threads are over, and the
    last line printed is [z]. *)
Definition always_prints (n : nat) (z : Z) (q : prog Z) : Prop :=
  forall k s, nsteps pstep k (started q) s ->
    (k <= n)%nat /\ ((k < n)%nat -> exists s', pstep s s') /\
    (k = n -> (forall t q', threads s !! t = Some q' -> finished q') /\ hd_error (output s) = Some ("%d\n", [AInt z])).

Lemma accounts_print total q w :
  0 <= total < 2 ^ 31 -> does total true Free [] total w q -> always_prints w total q.
Proof.
  intros Ht Hd k s Hr.
  assert (well total [Info Free [] total w] (started q)) as W by (apply well_started; [lia..|done]).
  destruct (well_run total ltac:(lia) ltac:(lia) _ _ _ _ W Hr) as (l & Wl & E). unfold remaining at 1 in E. cbn in E.
  pose proof (remaining_nonneg l). split; [lia|]. split; intros Hk.
  - eapply (well_moves total); [lia..|exact Wl|lia].
  - eapply (well_over total); [lia..|exact Wl|lia|]. rewrite (well_length total l s Wl).
    apply steps_length in Hr. cbn in Hr. lia.
Qed.

Lemma always_parallel : always_prints 46 55 (main_with parallel_add).
Proof.
  apply accounts_print; [lia|]. apply does_main; [lia..|]. intros f Hf. unfold parallel_add. rewrite bind_assoc.
  assert (forall a b f, 0 <= a <= b -> b <= 10 -> does 55 false Free [] 0 0 (f tt) ->
    does 55 false Free [] (elements a (Z.to_nat (b - a))) (4 * Z.to_nat (b - a)) (bind (add (MkTask a b)) f)) as Hadd.
  { intros a b g Hab Hb Hg. unfold add. rewrite bind_assoc. cbn [bind first last].
    pose proof (does_add_range 55 ltac:(lia) ltac:(lia) false (Z.to_nat (b - a)) a [] 0 0%nat (fun _ => g tt)) as H.
    rewrite Z2Nat.id, Z.add_0_r, Nat.add_0_r in H by lia. replace (a + (b - a)) with b in H by lia.
    apply H; try done; lia. }
  apply (does_create_thread 55 ltac:(lia) ltac:(lia) true ADD (MkTask 0 5) [] 15 40 20 25).
  { apply (does_thread 55 ltac:(lia) ltac:(lia) _ _ (add (MkTask 0 5))); [done|]. intros g Hg. by apply (Hadd 0 5). }
  intros u1. cbn [last]. rewrite bind_assoc.
  apply (does_create_thread 55 ltac:(lia) ltac:(lia) true ADD (MkTask 5 10) [u1] 40 0 20 4).
  { apply (does_thread 55 ltac:(lia) ltac:(lia) _ _ (add (MkTask 5 10))); [done|]. intros g Hg. by apply (Hadd 5 10). }
  intros u2. rewrite bind_assoc.
  eapply (does_join 55 true u1 [u2] []); [apply call_here|].
  by eapply (does_join 55 true u2 [] []); [apply call_here|].
Qed.

Lemma always_recursive : always_prints 52 55 main.
Proof.
  apply accounts_print; [lia|]. apply does_main; [lia..|]. intros f Hf. unfold recursive_add, recursive_addition. cbn [first last].
  apply (does_recursive 55 ltac:(lia) ltac:(lia) 11 (MkTask 0 10) true [] 0 2 f); try done; cbn; lia.
Qed.

(** C17. other/pthread-test.c: whatever the order in which the threads run, [main] can always go on,
    ends after the same number of calls with all threads over, and prints 55, with [recursive_add] as well as with
    [parallel_add]. *)
Theorem threads_add_up : always_prints 52 55 main /\ always_prints 46 55 (main_with parallel_add).
Proof. split; [apply always_recursive|apply always_parallel]. Qed.
