(* ===== verification/ShmSync.v ===== *)
(** * shm-sync/: a shared segment with a mutex and a condition variable

    shm-sync-common.c, and modules [Client] and [Server] for shm-sync/client.c and
    shm-sync/server.c. [struct Sync] has a [pthread_mutex_t] of 40 bytes and a
    [pthread_cond_t] of 48 on the systems the benchmark is built for. *)

From S2P Require Import Prelude CInt Prog Utility Arguments Benchmarks Process Samples Joint Guard.

Definition SIZEOF_SYNC : Z := 88.

(** ** shm-sync-common.c *)

(** [if (call != 0) throw(message)]. *)
Definition checked (c : call) (message : string) : prog unit :=
  r <- sysret c ;;
  when (negb (r =? 0)) (throw message).

Definition init_sync : prog unit :=
  checked (PthreadInit "mutexattr") "Error initializing mutex attributes" ;;;
  checked (PthreadInit "condattr") "Error initializing condition variable attributes" ;;;
  checked (PthreadInit "mutexattr pshared") "Error setting process-shared attribute for mutex" ;;;
  checked (PthreadInit "condattr pshared")
    "Error setting process-shared attribute for condition variable" ;;;
  checked (PthreadInit "mutex") "Error initializing mutex" ;;;
  checked (PthreadInit "cond") "Error initializing condition variable" ;;;
  checked (PthreadDestroy "mutexattr") "Error destroying mutex attributes" ;;;
  checked (PthreadDestroy "condattr") "Error destroying condition variable attributes".

Definition destroy_sync : prog unit :=
  checked (PthreadDestroy "mutex") "Error destroying mutex" ;;;
  checked (PthreadDestroy "cond") "Error destroying condition variable".

(** The calls are on the one [struct Sync] of the segment. The mutex is not unlocked. *)
Definition sync_wait : prog unit :=
  checked MutexLock "Error locking mutex" ;;;
  checked CondWait "Error waiting for condition variable".

Definition sync_notify : prog unit := checked CondSignal "Error signalling condition variable".

(** [int size = args->size + sizeof(struct Sync)]. *)
Definition create_segment (args : Arguments) : prog Z :=
  segment_key <- generate_key "shm" ;;
  let bytes := i32 (u64 (size args) + SIZEOF_SYNC) in
  segment_id <- sysret (Shmget segment_key (u64 bytes) SEGMENT_FLAGS) ;;
  when (segment_id <? 0) (throw "Error allocating segment") ;;;
  Ret segment_id.

(** [shared_memory < 0] compares an address, which is not negative. *)
Definition attach_segment (segment_id : Z) (args : Arguments) : prog Z :=
  shared_memory <- sysret (Shmat segment_id) ;;
  when (u64 shared_memory <? 0) (throw "Could not attach segment") ;;;
  shared_memset shared_memory 0 (size args) ;;;
  Ret shared_memory.

(** [(struct Sync* )shared_memory + args->size] is in units of [struct Sync]. *)
Definition create_sync (shared_memory : Z) (args : Arguments) : prog Z :=
  let sync := shared_memory + SIZEOF_SYNC * size args in
  init_sync ;;;
  Ret sync.

(** ** shm-sync/client.c *)

Module Client.
Definition cleanup : prog unit := sys_ Shmdt.

Definition communicate (shared_memory : Z) (args : Arguments) : prog unit :=
  buffer <- malloc (u64 (size args)) ;;
  sync_notify ;;;
  sys_ (Printf "4\n" []) ;;;
  while (fun st : Z * list Z => Ret (0 <? st.1))
    (fun st =>
      sync_wait ;;;
      sys_ (Printf "5\n" []) ;;;
      buffer <- shared_memcpy st.2 shared_memory (size args) ;;
      shared_memset shared_memory 50 (size args) ;;;
      sys_ (Printf "6\n" []) ;;;
      sync_notify ;;;
      sys_ (Printf "7\n" []) ;;;
      Ret (st.1 - 1, buffer)) (count args, buffer) ;;;
  free.

Definition main (argv : list string) : prog Z :=
  args <- parse_arguments argv ;;
  segment_id <- create_segment args ;;
  shared_memory <- attach_segment segment_id args ;;
  sync <- create_sync shared_memory args ;;
  communicate shared_memory args ;;;
  cleanup ;;;
  Ret EXIT_SUCCESS.
End Client.

(** ** shm-sync/server.c *)

Module Server.
Definition cleanup (segment_id : Z) : prog unit :=
  sys_ Shmdt ;;;
  sys_ (Shmctl segment_id IPC_RMID) ;;;
  destroy_sync.

Definition communicate (shared_memory : Z) (args : Arguments) : prog unit :=
  buffer <- malloc (u64 (size args)) ;;
  sync_wait ;;;
  bench <- setup_benchmarks None ;;
  '(_, bench) <- while (fun st : Z * list Z * Benchmarks => Ret (st.1.1 <? count args))
    (fun st =>
      let '(message, buffer, bench) := st in
      bench <- start_single bench ;;
      sys_ (Printf "1\n" []) ;;;
      shared_memset shared_memory 49 (size args) ;;;
      sync_notify ;;;
      sync_wait ;;;
      sys_ (Printf "2\n" []) ;;;
      buffer <- shared_memcpy buffer shared_memory (size args) ;;
      sync_notify ;;;
      sys_ (Printf "3\n" []) ;;;
      bench <- benchmark bench ;;
      Ret (message + 1, buffer, bench)) (0, buffer, bench) ;;
  evaluate bench args ;;;
  free.

Definition main (argv : list string) : prog Z :=
  args <- parse_arguments argv ;;
  segment_id <- create_segment args ;;
  shared_memory <- attach_segment segment_id args ;;
  sync <- create_sync shared_memory args ;;
  communicate shared_memory args ;;;
  cleanup segment_id ;;;
  Ret EXIT_SUCCESS.
End Server.

(** ** shm-sync/shm-sync.c *)

Definition main (file : list Z) (argv : list string) : prog Z :=
  setup_parent file "shm-sync" argv ;;; Ret 0.

(** ** The mutex *)

(** The process in which [pthread_cond_wait] has returned and which has not unlocked the mutex since.
    It owns the mutex: neither [pthread_mutex_lock] nor [pthread_cond_wait] returns while a process
    does, not even for the owner itself (a mutex of the default type); [pthread_mutex_unlock] by
    the owner releases it. The object is of processes that have both initialised the mutex. It does
    not record an owner that has locked the mutex and is about to wait, which releases it again, and so
    allows more runs than there are. *)
Definition mutex : object (option side) := Object _
  (fun p ev s =>
    match ev.1 with
    | CondWait => if ret ev.2 =? 0 then Some p else s
    | MutexUnlock => if (ret ev.2 =? 0) && bool_decide (s = Some p) then None else s
    | _ => s
    end)
  (fun p s ev =>
    match ev.1 with
    | MutexLock | CondWait => ret ev.2 = 0 -> s = None
    | _ => True
    end).

(** After an unlock the other process can return from its wait; without it, it cannot. *)
Example unlocked_mutex :
  coherent mutex None
    [(ServerSide, (CondWait, rret 0)); (ClientSide, (MutexUnlock, rret 0)); (ClientSide, (CondWait, rret 0))] /\
  ~ coherent mutex None [(ServerSide, (CondWait, rret 0)); (ClientSide, (CondWait, rret 0))].
Proof. split; [by vm_compute; repeat split|]. intros [_ H]. by specialize (H eq_refl). Qed.

(** The number of times [pthread_cond_wait] has returned, in a process that does not unlock the mutex. *)
Definition sync_start (p : side) : Z := 0.

Definition sync_step (p : side) (n : Z) (ev : event) : option Z :=
  match ev.1 with
  | CondWait => Some (if ret ev.2 =? 0 then n + 1 else n)
  | MutexUnlock => None
  | _ => Some n
  end.

Definition sync_joint (s : option side) (nc ns : Z) : Prop :=
  s = None /\ nc = 0 /\ ns = 0 \/ s <> None /\ nc + ns = 1 /\ 0 <= nc /\ 0 <= ns.

Lemma sync_joint_step p ev s nc ns :
  sync_joint s nc ns -> answers mutex p s ev -> joint_next mutex sync_step sync_joint p ev s nc ns.
Proof.
  destruct ev as [c r]. intros J Ha. destruct c; try (by destruct p; intros n' [= <-]).
  cbn in Ha. unfold sync_joint in *.
  destruct p; intros n' [= <-]; cbn; destruct (Z.eqb_spec (ret r) 0) as [Hr|]; try done;
    specialize (Ha Hr); right; (split; [done|]); intuition (done || lia).
Qed.

Lemma sync_joint_start : sync_joint None (sync_start ClientSide) (sync_start ServerSide).
Proof. by left. Qed.

Definition sync_trace :=
  joint_trace mutex sync_start sync_step sync_joint None sync_joint_start sync_joint_step.

Definition not_wait (c : call) : Prop := match c with CondWait | MutexUnlock => False | _ => True end.

#[export] Instance not_wait_local : Local not_wait.
Proof. by intros []. Qed.

Lemma sync_own p c r n : not_wait c -> sync_step p n (c, r) = Some n.
Proof. by destruct c. Qed.

Section process.
Context (e : env).
Local Abbreviation follows := (follows sync_start sync_step).
Local Abbreviation at_phase := (at_phase sync_start sync_step).
Local Abbreviation safe_own := (safe_own sync_start sync_step not_wait sync_own e).

Lemma safe_sync_wait p {A} (k : prog A) n h (Q : outcome A -> hist -> Prop) :
  at_phase p n h -> (forall x h', Q (Halted x) h') ->
  (forall h', at_phase p (n + 1) h' -> safe e (follows p) h' k Q) ->
  safe e (follows p) h (sync_wait ;;; k) Q.
Proof.
  intros H HX Hk. apply safe_bind. unfold sync_wait.
  eapply safe_own; [local_calls|done|done|]. intros [] h1 H1.
  unfold checked, sysret. cbn [bind]. eapply safe_step; [done|]. eexists. split; [done|]. cbn.
  intros h2 H2. destruct (ret _ =? 0); cbn.
  - apply safe_ret; [by eapply at_follows|]. by apply Hk.
  - eapply (safe_throw sync_start sync_step not_wait sync_own); [apply _|done|done].
Qed.

Lemma sync_client_follows mem args :
  safe e (follows ClientSide) [] (Client.communicate mem args)
    (finished sync_start sync_step ClientSide (fun n => n = Z.max 0 (count args))).
Proof.
  unfold Client.communicate.
  do 3 (eapply (safe_own ClientSide); [local_calls|done|done|]; intros ? ? ?).
  apply safe_bind, (safe_while e _ (fun st h => exists n, at_phase ClientSide n h /\
    0 <= n /\ st.1 + n = count args /\ (n = 0 \/ 0 <= st.1))).
  2: { exists 0. cbn. split_and!; [done|lia|lia|by left]. }
  clear. intros [left_ b] h (n & H & Hn & Hc & Hl). cbn [fst snd] in *.
  apply safe_ret; [by eapply at_follows|]. cbn [post]. destruct (Z.ltb_spec 0 left_).
  - apply (safe_sync_wait ClientSide _ n); [done|done|]. clear H. intros h1 H1.
    do 6 (eapply (safe_own ClientSide); [local_calls|done|done|]; clear H1; intros ? ? H1).
    apply safe_ret; [by eapply at_follows|]. exists (n + 1). cbn. split_and!; [done|lia..].
  - replace n with (Z.max 0 (count args)) in H by lia.
    eapply safe_last; [apply sync_own|local_calls|done|done|]. cbn. eauto.
Qed.

Lemma sync_server_follows mem args :
  safe e (follows ServerSide) [] (Server.communicate mem args)
    (finished sync_start sync_step ServerSide (fun n => n = Z.max 0 (count args) + 1)).
Proof.
  unfold Server.communicate. eapply (safe_own ServerSide); [local_calls|done|done|]. intros b h H.
  apply (safe_sync_wait ServerSide _ 0); [done|done|]. intros h1 H1.
  eapply (safe_own ServerSide); [local_calls|done|done|]. intros bn h2 H2.
  apply safe_bind, (safe_while e _ (fun st h => at_phase ServerSide (st.1.1 + 1) h /\
    0 <= st.1.1 <= Z.max 0 (count args))).
  2: { cbn. split; [done|lia]. }
  clear. intros [[n b] bn] h [H Hn]. cbn [fst snd] in *.
  apply safe_ret; [by eapply at_follows|]. cbn [post]. destruct (Z.ltb_spec n (count args)).
  - do 4 (eapply (safe_own ServerSide); [local_calls|done|done|]; clear H; intros ? ? H).
    apply (safe_sync_wait ServerSide _ (n + 1)); [done|done|]. intros h1 H1.
    do 5 (eapply (safe_own ServerSide); [local_calls|done|done|]; clear H1; intros ? ? H1).
    apply safe_ret; [by eapply at_follows|]. cbn. split; [done|lia].
  - replace n with (Z.max 0 (count args)) in H by lia.
    eapply safe_last; [apply sync_own|local_calls|done|done|]. cbn. eauto.
Qed.
End process.


(** The server after its first wait, and the client waiting for the mutex. *)
Definition sync_sample : trace :=
  interleave [(ClientSide, 3%nat); (ServerSide, 8%nat)]
    [(Malloc 2, plain [] (Malloc 2)); (CondSignal, rret 0); (Printf "4\n" [], rret 0)]
    (rev (history 20 plain (Server.communicate 5000 (Args 2 1 100)))).


Lemma segment_bytes n :
  0 < n -> n + SIZEOF_SYNC < 2 ^ 31 -> u64 (i32 (u64 n + SIZEOF_SYNC)) = n + SIZEOF_SYNC.
Proof.
  unfold SIZEOF_SYNC. intros. rewrite (u64_small n) by (unfold in_u64, u64_mod; lia).
  unfold i32. rewrite Z.mod_small by lia. rewrite u64_small; [lia|]. unfold in_u64, u64_mod. lia.
Qed.

Lemma safe_unless e b m h (Q : outcome unit -> hist -> Prop) :
  (forall x h', Q (Halted x) h') -> Q (Val tt) h ->
  safe e (fun _ => True) h (when b (throw m)) Q.
Proof.
  intros HX Hk. destruct b; cbn; [|by apply safe_ret].
  unfold throw, sys_, exit. cbn. apply safe_call; [done|]. by apply safe_stop.
Qed.

(** shm-sync: the pointer arithmetic of [create_sync] puts the mutex and the condition variable
    [size * 88] bytes after the start of a segment of [size + 88] bytes: for every positive
    size they end outside of the segment that was asked for. *)
Theorem shm_sync_outside_segment e h args sync h' :
  0 < size args -> size args + SIZEOF_SYNC < 2 ^ 31 ->
  eval e h (segment_id <- create_segment args ;;
            shared_memory <- attach_segment segment_id args ;;
            create_sync shared_memory args) (Val sync) h' ->
  exists key id shared_memory bytes r r',
    In (Shmget key bytes SEGMENT_FLAGS, r) h' /\ In (Shmat id, r') h' /\ ret r' = shared_memory /\
    shared_memory + bytes < sync + SIZEOF_SYNC.
Proof.
  intros Hs Hb. revert sync h'.
  enough (safe e (fun _ => True) h (segment_id <- create_segment args ;;
            shared_memory <- attach_segment segment_id args ;;
            create_sync shared_memory args) (post (fun sync h' =>
    exists key id shared_memory bytes r r',
    In (Shmget key bytes SEGMENT_FLAGS, r) h' /\ In (Shmat id, r') h' /\ ret r' = shared_memory /\
    shared_memory + bytes < sync + SIZEOF_SYNC) (fun _ _ => True))) as [_ H]
    by (intros sync h' He; exact (H _ _ He)).
  unfold create_segment, generate_key, sysret. cbn [bind]. do 2 (apply safe_call; [done|]).
  rewrite segment_bytes by done. set (key := ret _). set (r := e _ (Shmget _ _ _)). set (h1 := _ :: _).
  apply safe_bind, safe_bind, safe_unless; [done|]. cbn [post].
  apply safe_ret; [done|]. cbn [post]. unfold attach_segment, sysret. cbn [bind]. apply safe_call; [done|].
  set (r' := e h1 _). set (h2 := _ :: h1). apply safe_bind, safe_bind, safe_unless; [done|]. cbn [post].
  unfold shared_memset. rewrite (proj2 (Z.ltb_ge _ _)) by lia. apply safe_call; [done|]. cbn [bind].
  apply safe_ret; [done|]. cbn [post]. unfold create_sync. set (h3 := _ :: h2).
  set (I := fun h => In (Shmget key (size args + SIZEOF_SYNC) SEGMENT_FLAGS, r) h /\
    In (Shmat (ret r), r') h).
  assert (I h3) as HI by (split; unfold h3, h2, h1; cbn; tauto).
  apply (safe_weaken e _ I); [done|]. apply safe_bind.
  eapply safe_conseq; [apply (safe_calls e I (fun _ => True))|].
  - intros c h' _ [H1 H2]. split; by right.
  - local_calls.
  - done.
  - intros [[]|x] h' [H1 H2] _; cbn [post]; [|done]. apply safe_ret; [done|]. cbn.
    do 6 eexists. split_and!; [exact H1|exact H2|done|]. unfold SIZEOF_SYNC in *. lia.
Qed.

Lemma shm_sync_outside_segment_witness :
  exists sync h', eval plain [] (segment_id <- create_segment (Args 2 1 100) ;;
            shared_memory <- attach_segment segment_id (Args 2 1 100) ;;
            create_sync shared_memory (Args 2 1 100)) (Val sync) h' /\
  exists key id shared_memory bytes r r',
    In (Shmget key bytes SEGMENT_FLAGS, r) h' /\ In (Shmat id, r') h' /\ ret r' = shared_memory /\
    shared_memory + bytes < sync + SIZEOF_SYNC.
Proof.
  assert (exists h', eval plain [] (segment_id <- create_segment (Args 2 1 100) ;;
            shared_memory <- attach_segment segment_id (Args 2 1 100) ;;
            create_sync shared_memory (Args 2 1 100)) (Val 176) h') as [h' H].
  { eexists. apply eval_run. exists 2%nat. vm_compute. reflexivity. }
  exists 176, h'. split; [exact H|].
  exact (shm_sync_outside_segment plain [] (Args 2 1 100) 176 h' eq_refl eq_refl H).
Defined.
