(* ===== verification/ZeroMq.v ===== *)
(** * zeromq/: requests and replies through the ZeroMQ library

    Modules [Client] and [Server] are zeromq/client.c and zeromq/server.c. The library is not part of
    the sources: the theorems hold for every object that does what ZeroMQ documents of a connected
    pair of a REQ and a REP socket ([ReqRep]); [sockets] is one, for the concrete runs. *)

From S2P Require Import Prelude CInt Prog Utility Arguments Benchmarks Process Samples Joint.
From S2P Require Import Session Coexec Sound Exchange PingPong Relay.

Definition ZMQ_REQ : Z := 3.
Definition ZMQ_REP : Z := 4.

(** [zmq_send(socket, buffer, n, flags)]. *)
Definition zmq_send (buffer : list Z) (n flags : Z) : prog Z :=
  bytes <- load_bytes buffer 0 n ;;
  sysret (ZmqSend bytes (u64 n) flags).

(** [zmq_recv(socket, buffer, n, flags)]: the buffer and the result. *)
Definition zmq_recv (buffer : list Z) (n flags : Z) : prog (list Z * Z) :=
  r <- sys (ZmqRecv (u64 n) flags) ;;
  buffer <- store_bytes buffer 0 (data r) ;;
  Ret (buffer, ret r).

(** [memset(buffer, c, n)]. *)
Definition fill (buffer : list Z) (c n : Z) : prog (list Z) :=
  if n <? 0 then undefined OutOfBounds else store_bytes buffer 0 (replicate (Z.to_nat n) c).

(** A null pointer is 0. *)
Definition create_context : prog Z :=
  context <- sysret ZmqCtxNew ;;
  when (context =? 0) (throw "Error creating ZMQ context") ;;;
  Ret context.

Definition cleanup : prog unit := sys_ ZmqClose ;;; sys_ ZmqCtxDestroy.

(** ** zeromq/client.c *)

Module Client.
Definition communicate (args : Arguments) : prog unit :=
  bench <- setup_benchmarks None ;;
  buffer <- malloc (u64 (size args)) ;;
  '(_, bench) <- while (fun st : Z * list Z * Benchmarks => Ret (st.1.1 <? count args))
    (fun st =>
      let '(message, buffer, bench) := st in
      bench <- start_single bench ;;
      r <- zmq_send buffer (size args) 0 ;;
      when (r <? size args) (throw "Error sending on client-side") ;;;
      '(buffer, r) <- zmq_recv buffer (size args) 0 ;;
      when (r <? size args) (throw "Error receiving on client-side") ;;;
      bench <- benchmark bench ;;
      Ret (message + 1, buffer, bench)) (0, buffer, bench) ;;
  evaluate bench args ;;;
  free.

Definition create_socket (use_tcp : bool) : prog Z :=
  socket <- sysret (ZmqSocket ZMQ_REQ) ;;
  when (socket =? 0) (throw "Error creating socket") ;;;
  let address := if use_tcp then "tcp://localhost:6969"%string else "ipc:///tmp/zmq_ipc"%string in
  r <- sysret (ZmqConnect address) ;;
  when (r =? -1) (throw "Error binding socket to address") ;;;
  Ret socket.

Definition main (argv : list string) : prog Z :=
  use_tcp <- check_flag "tcp" argv ;;
  args <- parse_arguments argv ;;
  create_context ;;;
  create_socket use_tcp ;;;
  communicate args ;;;
  cleanup ;;;
  Ret EXIT_SUCCESS.
End Client.

(** ** zeromq/server.c *)

Module Server.
Definition communicate (args : Arguments) : prog unit :=
  buffer <- malloc (u64 (size args)) ;;
  while (fun st : Z * list Z => Ret (0 <? st.1))
    (fun st =>
      '(buffer, r) <- zmq_recv st.2 (size args) 0 ;;
      when (r <? size args) (throw "Error receiving on server-side") ;;;
      buffer <- fill buffer 42 (size args) ;;
      r <- zmq_send buffer (size args) 0 ;;
      when (r <? size args) (throw "Error sending on server-side") ;;;
      Ret (st.1 - 1, buffer)) (count args, buffer) ;;;
  free.

Definition create_socket (use_tcp : bool) : prog Z :=
  socket <- sysret (ZmqSocket ZMQ_REP) ;;
  when (socket =? 0) (throw "Error creating socket") ;;;
  let address := if use_tcp then "tcp://*:6969"%string else "ipc:///tmp/zmq_ipc"%string in
  r <- sysret (ZmqBind address) ;;
  when (r =? -1) (throw "Error binding socket to address") ;;;
  Ret socket.

Definition main (argv : list string) : prog Z :=
  use_tcp <- check_flag "tcp" argv ;;
  args <- parse_arguments argv ;;
  create_context ;;;
  create_socket use_tcp ;;;
  communicate args ;;;
  cleanup ;;;
  Ret EXIT_SUCCESS.
End Server.

(** ** zeromq/zeromq.c *)

Definition main (file : list Z) (argv : list string) : prog Z :=
  setup_parent file "zeromq" argv ;;; Ret 0.

(** ** The two sockets *)

(** The messages under way, each with the side it is for. *)
Definition mailbox : Type := list (side * list Z).

Fixpoint deliver (p : side) (box : mailbox) : option (list Z * mailbox) :=
  match box with
  | [] => None
  | (q, b) :: box =>
      if decide (q = p) then Some (b, box)
      else match deliver p box with Some (b', box') => Some (b', (q, b) :: box') | None => None end
  end.

(** What the library promises of a connected pair of a REQ and a REP socket without interruptions;
    [box]: the messages under way. Sending gives the message to the library and returns its length,
    or fails with -1; with nothing under way it does not fail and does not block. Receiving returns
    only with a message: its length, and as much of it as there is room for; it does not block
    when there is one. *)
Class ReqRep {S} (O : object S) (box : S -> mailbox) : Prop := {
  send_queues p b n f r s :
    answers O p s (ZmqSend b n f, r) ->
    ret r = zlen b /\ box (effect O p (ZmqSend b n f, r) s) = box s ++ [(other p, b)] \/
    ret r = -1 /\ box (effect O p (ZmqSend b n f, r) s) = box s;
  send_succeeds p b n f r s : answers O p s (ZmqSend b n f, r) -> box s = [] -> ret r <> -1;
  recv_delivers p n f r s :
    answers O p s (ZmqRecv n f, r) -> exists b box', deliver p (box s) = Some (b, box') /\
      ret r = zlen b /\ data r = ztake n b /\ box (effect O p (ZmqRecv n f, r) s) = box';
  other_calls p c r s :
    (forall b n f, c <> ZmqSend b n f) -> (forall n f, c <> ZmqRecv n f) -> box (effect O p (c, r) s) = box s;
  send_answers p b n f s : box s = [] -> exists r, answers O p s (ZmqSend b n f, r);
  recv_answers p n f s : deliver p (box s) <> None -> exists r, answers O p s (ZmqRecv n f, r);
  other_answers p c s :
    (forall b n f, c <> ZmqSend b n f) -> (forall n f, c <> ZmqRecv n f) -> exists r, answers O p s (c, r)
}.

Section protocol.
Context (len : Z).

(** A request has the right length, a reply is stars. *)
Definition proper (to : side) (b : list Z) : Prop :=
  match to with
  | ServerSide => zlen b = len
  | ClientSide => b = replicate (Z.to_nat len) 42
  end.

#[export] Instance proper_dec to b : Decision (proper to b).
Proof. destruct to; cbn; apply _. Defined.

Definition zmq_act (p : side) (c : call) : option action :=
  match c with
  | ZmqSend b _ _ => Some (if decide (proper (other p) b) then Give else Never)
  | ZmqRecv _ _ => Some Take
  | _ => None
  end.

Definition zmq_tokens (box : mailbox) : list side := map fst box.

Definition zmq_good (box : mailbox) : Prop := Forall (fun m => proper m.1 m.2) box.

Lemma deliver_good p box b box' :
  zmq_good box -> deliver p box = Some (b, box') -> zmq_good box' /\ proper p b.
Proof.
  unfold zmq_good. revert b box'. induction box as [|[q b0] box IH]; cbn; intros b box' Hg Hd; [done|].
  apply Forall_cons in Hg as [Hq Hg]. case_decide; [by simplify_eq|].
  destruct (deliver p box) as [[b1 box1]|]; simplify_eq. destruct (IH _ _ Hg eq_refl).
  split; [by apply Forall_cons|done].
Qed.

Lemma deliver_token p box b box' :
  deliver p box = Some (b, box') -> p ∈ zmq_tokens box /\ (zmq_tokens box = [p] -> zmq_tokens box' = []).
Proof.
  unfold zmq_tokens. revert b box'. induction box as [|[q b0] box IH]; cbn; intros b box' Hd; [done|].
  case_decide; simplify_eq.
  - split; [by left|by intros [= ->]].
  - destruct (deliver p box) as [[b1 box1]|]; simplify_eq. destruct (IH _ _ eq_refl) as [Hin _].
    split; [by right|]. intros [= -> _]. done.
Qed.

Section library.
Context {S : Type} (O : object S) (box : S -> mailbox) {RR : ReqRep O box}.
Local Abbreviation tokens_of := (fun s => zmq_tokens (box s)).
Local Abbreviation good_of := (fun s => zmq_good (box s)).

Lemma send_empty p b n f r s :
  answers O p s (ZmqSend b n f, r) -> box s = [] ->
  ret r = zlen b /\ box (effect O p (ZmqSend b n f, r) s) = [(other p, b)].
Proof.
  intros Ha Hb. pose proof (send_succeeds p b n f r s Ha Hb).
  destruct (send_queues p b n f r s Ha) as [[? E]|[? _]]; [|done]. by rewrite E, Hb.
Qed.

#[export] Instance sockets_pingpong : PingPong O zmq_act tokens_of good_of.
Proof.
  split.
  - intros p c r s Ha Hr _ Ht. apply map_eq_nil in Ht. destruct c; try done.
    by rewrite (proj2 (send_empty _ _ _ _ _ _ Hr Ht)).
  - intros p c r s Ha Hr _. destruct c; try done; cbn in Ha; [by case_decide|].
    destruct (recv_delivers _ _ _ _ _ Hr) as (b & box' & Hd & _ & _ & ->). by eapply deliver_token.
  - intros p c r s Ha. f_equal. apply other_calls; by intros; destruct c.
  - intros p c r s Ha Hr Hg. destruct c; try (by rewrite other_calls); cbn in Ha.
    + case_decide as Hp; [|done]. destruct (send_queues _ _ _ _ _ _ Hr) as [[_ ->]|[_ ->]]; [|done].
      apply Forall_app. split; [done|]. by constructor.
    + destruct (recv_delivers _ _ _ _ _ Hr) as (b & box' & Hd & _ & _ & ->). by eapply deliver_good.
Qed.
End library.

#[export] Instance sockets_local : Local (neither zmq_act).
Proof. by intros c H p; destruct c. Qed.

(** ** The session *)

(** A receiver has room for a whole message. *)
Definition zmq_ok (p : side) (c : call) : bool :=
  match c with ZmqRecv n _ => u64 len <=? n | _ => true end.

Definition zmq_carries (p : side) (ev : event) : list Z :=
  match ev.1 with ZmqSend b _ _ => b | ZmqRecv _ _ => data ev.2 | _ => [] end.

Definition zmq_content (box : mailbox) : list Z := match box with [] => [] | (_, b) :: _ => b end.

Lemma zlen_proper p b : 0 <= len -> proper p b -> zlen b = len.
Proof. destruct p; cbn; [|done]. intros ? ->. unfold zlen. rewrite length_replicate. lia. Qed.

#[export] Instance sockets_mailbox {S} (O : object S) (box : S -> mailbox) {RR : ReqRep O box}
  (Hlen : 0 <= len < 2 ^ 31) :
  Mailbox O zmq_act (fun s => zmq_tokens (box s)) (fun s => zmq_good (box s)) zmq_ok zmq_carries
    (fun s => zmq_content (box s)).
Proof.
  split.
  - intros p c s Ha _ _ Ht. apply map_eq_nil in Ht. destruct c; try done. by apply send_answers.
  - intros p c s Ha _ _ Ht. destruct c; try done; cbn in Ha; [by case_decide|]. apply recv_answers.
    destruct (box s) as [|[q b] [|]]; try done. injection Ht as ->. cbn. by rewrite decide_True.
  - intros p c s Ha. apply other_answers; by intros; destruct c.
  - intros p c r s Ha Hr _ Ht. apply map_eq_nil in Ht. destruct c; try done.
    by rewrite (proj2 (send_empty O box _ _ _ _ _ _ Hr Ht)).
  - intros p c r s Ha Ho Hr Hg Ht. destruct c; try done; cbn in Ha; [by case_decide|].
    destruct (recv_delivers _ _ _ _ _ Hr) as (b & box' & Hd & _ & Hb & _). destruct (box s) as [|[q b'] [|]]; try done.
    cbn in *. case_decide; simplify_eq. rewrite Hb. apply ztake_all.
    apply Forall_cons in Hg as [Hg _]. rewrite (zlen_proper p) by (done || lia).
    bool_to_prop. rewrite u64_small in Ho; [done|]. unfold in_u64, u64_mod. lia.
  - intros p c r s Ha. f_equal. apply other_calls; by intros; destruct c.
Qed.

(** What is loaded from a block has the length asked for, and what was filled in is loaded. *)
Lemma load_request buffer :
  load_bytes buffer 0 len = Ret (zslice 0 len buffer) /\ proper ServerSide (zslice 0 len buffer) \/
  load_bytes buffer 0 len = undefined OutOfBounds.
Proof.
  unfold load_bytes. case_match; [left|by right]. bool_to_prop. split; [done|]. apply zlen_zslice; lia.
Qed.

Lemma load_reply tail :
  0 <= len -> let buffer := replicate (Z.to_nat len) 42 ++ tail in
  load_bytes buffer 0 len = Ret (zslice 0 len buffer) /\ proper ClientSide (zslice 0 len buffer) \/
  load_bytes buffer 0 len = undefined OutOfBounds.
Proof.
  intros Hl buffer. unfold load_bytes. case_match; [left|by right]. split; [done|]. cbn.
  unfold buffer, zslice. rewrite zdrop_0.
  assert (zlen (replicate (Z.to_nat len) 42) = len) as E by (unfold zlen; rewrite length_replicate; lia).
  rewrite <- E at 1. apply ztake_app_exact.
Qed.

Section process.
Context (p : side) (limit : Z).
Local Abbreviation typed := (typed (relay_session zmq_act zmq_ok ClientSide limit) p).

Lemma typed_zmq_send {A} (k : Z -> prog A) bytes buffer f n (Q : A -> phase -> Prop) :
  (load_bytes buffer 0 len = Ret bytes /\ proper (other p) bytes \/
   load_bytes buffer 0 len = undefined OutOfBounds) ->
  n < limit -> (forall r, typed Q (Want (n + 1)) (k r)) ->
  typed Q (Hold n) (r <- zmq_send buffer len f ;; k r).
Proof.
  intros Hb Hn Hk. unfold zmq_send. destruct Hb as [[-> Hb]| ->]; cbn [bind]; [|by apply typed_stop].
  apply typed_give; [cbn; by rewrite decide_True|done|done|intros; apply Hk].
Qed.

Lemma typed_zmq_recv {A} (k : list Z * Z -> prog A) buffer f n (Q : A -> phase -> Prop) :
  p = ClientSide \/ n < limit -> (forall st, typed Q (Hold n) (k st)) ->
  typed Q (Want n) (st <- zmq_recv buffer len f ;; k st).
Proof.
  intros Hn Hk. unfold zmq_recv. cbn [bind]. apply typed_take; [done|by apply Z.leb_le|done|]. intros r.
  unfold store_bytes. case_match; cbn [bind]; [by apply Hk|by apply typed_stop].
Qed.
End process.

Local Abbreviation session args := (relay_session zmq_act zmq_ok ClientSide (Z.max 0 (count args))).

Lemma zmq_client_typed args :
  size args = len ->
  typed (session args) ClientSide (fun _ => relay_ended ClientSide (Z.max 0 (count args)) ClientSide)
    (Hold 0) (Client.communicate args).
Proof.
  intros Hl. unfold Client.communicate. rewrite Hl.
  apply relay_own; [local_calls|]. intros b. apply relay_own; [local_calls|]. intros m.
  eapply typed_bind; [apply (typed_up _ _ Hold (fun st => st.1.1)); [done|]|].
  - intros [[n m1] b1] Hn. cbn [fst snd] in *. apply relay_own; [local_calls|]. intros b2.
    eapply (typed_zmq_send ClientSide); [apply load_request|lia|]. intros r.
    apply relay_own; [local_calls|]. intros [].
    apply (typed_zmq_recv ClientSide); [by left|]. intros [m2 r2].
    apply relay_own; [local_calls|]. intros []. apply relay_own; [local_calls|]. intros b3.
    by apply typed_ret.
  - intros [[st m1] b1] ph ->. apply relay_last; [local_calls|done].
Qed.

Lemma zmq_server_typed args :
  size args = len ->
  typed (session args) ServerSide (fun _ => relay_ended ClientSide (Z.max 0 (count args)) ServerSide)
    (Want 0) (Server.communicate args).
Proof.
  intros Hl. unfold Server.communicate. rewrite Hl. apply relay_own; [local_calls|]. intros m.
  eapply typed_bind; [apply (typed_down _ _ Want fst)|].
  - intros [left_ b] n Hn. cbn [fst snd] in *.
    apply (typed_zmq_recv ServerSide); [right; lia|]. intros [m1 r].
    apply relay_own; [local_calls|]. intros []. unfold fill.
    destruct (Z.ltb_spec len 0); [by apply typed_stop|]. unfold store_bytes.
    case_match; cbn [bind]; [|by apply typed_stop]. rewrite ztake_0. cbn [app].
    eapply (typed_zmq_send ServerSide); [by apply load_reply|lia|]. intros r2.
    apply relay_own; [local_calls|]. intros []. by apply typed_ret.
  - intros st ph ->. apply relay_last; [local_calls|done].
Qed.
End protocol.

(** zeromq: in every interleaving of the two loops over a connected pair of sockets there is one
    message under way or one process running, in turns; requests have the length the server
    asks for, and every reply the client receives is [size] stars. *)
Theorem zeromq_exchange {S} (O : object S) (box : S -> mailbox) `{!ReqRep O box} s0 ec es argc args g :
  box s0 = [] -> 0 <= size args < 2 ^ 31 -> size argc = size args ->
  coherent O s0 g ->
  visits ec [] (Client.communicate argc) (proj ClientSide g) ->
  visits es [] (Server.communicate args) (proj ServerSide g) ->
  passes O (zmq_act (size args)) (fun s => zmq_tokens (box s)) ClientSide s0 g /\
  (forall p n f r, In (p, (ZmqRecv n f, r)) g -> ret r = size args) /\
  (forall f r, In (ClientSide, (ZmqRecv (size args) f, r)) g ->
     data r = replicate (Z.to_nat (size args)) 42).
Proof.
  intros H0 Hsz Hz Hg Vc Vs.
  pose proof (relay_follows _ _ _ _ ec ClientSide _ _ _ (zmq_client_typed (size args) argc Hz) Vc) as Fc.
  pose proof (relay_follows _ _ _ _ es ServerSide _ _ _ (zmq_server_typed (size args) args eq_refl) Vs) as Fs.
  set (tokens s := zmq_tokens (box s)). set (good s := zmq_good (size args) (box s)).
  assert (good s0) as G0 by (unfold good; rewrite H0; constructor).
  assert (tokens s0 = []) as T0 by (unfold tokens; by rewrite H0).
  assert (PingPong O (zmq_act (size args)) tokens good) as PP by by apply sockets_pingpong.
  split; [by apply (token_passes O _ tokens good)|].
  assert (forall p n f r, In (p, (ZmqRecv n f, r)) g -> exists b, proper (size args) p b /\
    ret r = zlen b /\ data r = ztake n b) as HR.
  { intros p n f r Hr.
    destruct (token_event O _ tokens good ClientSide s0 T0 G0 g p _ Hg Fc Fs Hr) as (s & Hgood & Hans & Ha).
    destruct (recv_delivers _ _ _ _ _ Hans) as (b & q' & Hf & Hret & Hb & _).
    exists b. split; [by eapply deliver_good|done]. }
  split.
  - intros p n f r (b & Hp & -> & _)%HR. destruct p; cbn in Hp; [|done]. subst. unfold zlen.
    rewrite length_replicate. lia.
  - intros f r (b & -> & _ & ->)%HR. apply ztake_all. unfold zlen. rewrite length_replicate. lia.
Qed.

(** ** A pair of sockets *)

(** A message that is sent is under way to the other side; receiving returns with a message, or
    never. *)
Definition sockets : object mailbox := Object _
  (fun p ev box =>
    match ev.1 with
    | ZmqSend b _ _ => box ++ [(other p, b)]
    | ZmqRecv _ _ => match deliver p box with Some (_, box') => box' | None => box end
    | _ => box
    end)
  (fun p box ev =>
    match ev.1 with
    | ZmqSend b n _ => ret ev.2 = zlen b
    | ZmqRecv n _ => exists b box', deliver p box = Some (b, box') /\ ret ev.2 = zlen b /\ data ev.2 = ztake n b
    | _ => True
    end).

#[export] Instance sockets_reqrep : ReqRep sockets id.
Proof.
  split.
  - intros p b n f r box Ha. by left.
  - intros p b n f r box Ha _. cbn in Ha. pose proof (zlen_nonneg b). lia.
  - intros p n f r box (b & box' & Hd & Hr & Hb). exists b, box'. cbn in *. unfold id. by rewrite Hd.
  - intros p c r box Hs Hr. destruct c; try done; [by edestruct Hs|by edestruct Hr].
  - intros p b n f box _. by exists (rret (zlen b)).
  - intros p n f box Hd. destruct (deliver p (id box)) as [[b box']|] eqn:E; [|done].
    exists (rdata (zlen b) (ztake n b)), b, box'. done.
  - intros p c box Hs Hr. exists (rret 0). destruct c; try done; [by edestruct Hs|by edestruct Hr].
Qed.

(** ** A concrete run of one message of two bytes *)

Definition socket_env (message : list Z) : env := fun h c =>
  match c with
  | ZmqSend b _ _ => rret (zlen b)
  | ZmqRecv _ _ => rdata (zlen message) message
  | _ => plain h c
  end.

Definition zmq_trace : trace :=
  interleave [(ClientSide, 4%nat); (ServerSide, 4%nat); (ClientSide, 20%nat)]
    (rev (history 20 (socket_env [42; 42]) (Client.communicate (Args 2 1 100))))
    (rev (history 20 (socket_env [0; 0]) (Server.communicate (Args 2 1 100)))).

Lemma zmq_trace_coherent : coherent sockets [] zmq_trace.
Proof. vm_compute. repeat split. all: do 2 eexists; repeat split. Qed.

Lemma zeromq_exchange_witness :
  passes sockets (zmq_act 2) (fun s => zmq_tokens (id s)) ClientSide [] zmq_trace /\
  (forall p n f r, In (p, (ZmqRecv n f, r)) zmq_trace -> ret r = 2) /\
  (forall f r, In (ClientSide, (ZmqRecv 2 f, r)) zmq_trace -> data r = [42; 42]).
Proof.
  apply (zeromq_exchange sockets id [] (socket_env [42; 42]) (socket_env [0; 0]) (Args 2 1 100) (Args 2 1 100)).
  - done.
  - done.
  - done.
  - apply zmq_trace_coherent.
  - apply (eval_visits _ _ _ (Val tt)), eval_run. exists 20%nat. vm_compute. reflexivity.
  - apply (eval_visits _ _ _ (Val tt)), eval_run. exists 20%nat. vm_compute. reflexivity.
Defined.

(** ** The two loops under a scheduler *)

Definition zmq_pair (args : Arguments) (p : side) : prog unit :=
  match p with ClientSide => Client.communicate args | ServerSide => Server.communicate args end.

Lemma zmq_pair_typed args p :
  typed (relay_session (zmq_act (size args)) (zmq_ok (size args)) ClientSide (Z.max 0 (count args))) p
    (fun _ => relay_ended ClientSide (Z.max 0 (count args)) p) (start ClientSide p) (zmq_pair args p).
Proof. destruct p; [by apply zmq_client_typed|by apply zmq_server_typed]. Qed.

Definition zmq_behaviour (args : Arguments) (g : trace) : list label :=
  behaviour (observe (zmq_act (size args)) zmq_carries) g.

(** ** The two loops do not stop *)

(** A send takes the whole message, and a received message has the length that was asked for. *)
Definition zmq_answer (len : Z) (ev : event) : Prop :=
  granted ev /\
  match ev.1 with
  | ZmqSend b _ _ => ret ev.2 = zlen b
  | ZmqRecv _ _ => ret ev.2 = len /\ zlen (data ev.2) <= len
  | _ => True
  end.

Lemma zmq_answer_granted len ev : zmq_answer len ev -> granted ev.
Proof. by intros [??]. Qed.

Lemma zmq_answers {S} (O : object S) (box : S -> mailbox) `{!ReqRep O box} len p c r s :
  0 <= len -> zmq_good len (box s) -> answers O p s (c, r) -> zmq_act len p c <> Some Never ->
  (zmq_act len p c = Some Give -> zmq_tokens (box s) = []) -> granted (c, r) -> zmq_answer len (c, r).
Proof.
  intros Hl Hg Ha Hn Ht Hr. split; [done|]. destruct c; try done; cbn in *.
  - case_decide; [|done]. specialize (Ht eq_refl). apply map_eq_nil in Ht.
    by apply (send_empty O box _ _ _ _ _ _ Ha Ht).
  - destruct (recv_delivers _ _ _ _ _ Ha) as (b & box' & Hd & -> & -> & _).
    destruct (deliver_good len _ _ _ _ Hg Hd) as [_ Hp%zlen_proper]; [|done]. rewrite zlen_ztake. lia.
Qed.

Section sound.
Context (len : Z) (Hlen : 0 <= len) {A : Type} (Q : A -> Prop).
Local Abbreviation sound := (sound (zmq_answer len)).

Lemma sound_zmq_send buffer f (k : Z -> prog A) :
  len <= zlen buffer -> sound Q (k len) -> sound Q (bind (zmq_send buffer len f) k).
Proof.
  intros Hb Hk. unfold zmq_send. rewrite bind_assoc. apply sound_load; [lia..|]. cbn [bind sysret].
  apply sound_call. intros r [_ Hr]. cbn in Hr. rewrite Hr, zlen_zslice by lia. exact Hk.
Qed.

Lemma sound_zmq_recv buffer f (k : list Z * Z -> prog A) :
  zlen buffer = len -> (forall b, zlen b = len -> sound Q (k (b, len))) ->
  sound Q (bind (zmq_recv buffer len f) k).
Proof.
  intros Hb Hk. unfold zmq_recv. cbn [bind sys]. apply sound_call. intros r [_ [Hr Hd]]. cbn in Hr, Hd.
  rewrite Hr, bind_assoc. apply sound_store; [lia|lia|]. intros b _ E. apply Hk. lia.
Qed.
End sound.

Lemma zmq_pair_sound args p :
  0 <= size args < 2 ^ 31 -> 0 < count args ->
  sound (zmq_answer (size args)) (fun _ => True) (zmq_pair args p).
Proof.
  intros Hs Hc. pose proof (zmq_answer_granted (size args)) as HG.
  assert (u64 (size args) = size args) as Eu by (apply u64_small; unfold in_u64, u64_mod; lia).
  destruct p; unfold zmq_pair, Client.communicate, Server.communicate.
  - apply (sound_setup_benchmarks _ HG). intros bench. apply (sound_malloc _ HG); [lia|]. intros b Hb.
    rewrite Eu in Hb. apply (sound_bind _ (fun _ => True)).
    + apply (sound_while _ (fun st => zlen st.1.2 = size args)); [done| |done].
      intros [[n b1] bn] Hb1 _. cbn in Hb1. apply (sound_start_single _ HG). intros bn1 H1.
      apply sound_zmq_send; [lia|lia|]. apply sound_when; [apply Z.ltb_ge; lia|].
      apply sound_zmq_recv; [lia|done|]. intros b2 Hb2. apply sound_when; [apply Z.ltb_ge; lia|].
      apply (sound_benchmark _ HG); [done|]. intros bn2. by apply sound_ret.
    + intros [[n b1] bn] _. apply (sound_evaluate _ HG); [done|]. apply sound_sys_.
  - apply (sound_malloc _ HG); [lia|]. intros b Hb. rewrite Eu in Hb.
    apply (sound_bind _ (fun _ => True)); [|intros st _; apply sound_sys_].
    apply (sound_while _ (fun st => zlen st.2 = size args)); [done| |done].
    intros [n b1] Hb1 _. cbn in Hb1. cbn [fst snd]. apply sound_zmq_recv; [lia|done|]. intros b2 Hb2.
    apply sound_when; [apply Z.ltb_ge; lia|]. unfold fill. rewrite (proj2 (Z.ltb_ge _ _)) by lia.
    assert (zlen (replicate (Z.to_nat (size args)) 42) = size args) as E by (unfold zlen; rewrite length_replicate; lia).
    apply sound_store; [lia|lia|]. intros b3 _ Hb3. apply sound_zmq_send; [lia|lia|].
    apply sound_when; [apply Z.ltb_ge; lia|]. apply sound_ret. cbn. lia.
Qed.

Section pair.
Context {S : Type} (O : object S) (box : S -> mailbox) {RR : ReqRep O box}.
Context (args : Arguments) (Hsize : 0 <= size args < 2 ^ 31).
Local Abbreviation limit := (Z.max 0 (count args)).


End pair.

(** Sockets that answer when they can. *)
Definition zmq_ask (p : side) (box : mailbox) (c : call) : option resp :=
  match c with
  | ZmqSend b _ _ => Some (rret (zlen b))
  | ZmqRecv n _ =>
      match deliver p box with Some (b, _) => Some (rdata (zlen b) (ztake n b)) | None => None end
  | _ => Some (plain [] c)
  end.

Lemma zmq_ask_answers p box c r : zmq_ask p box c = Some r -> answers sockets p box (c, r).
Proof.
  destruct c; try done; cbn; [by intros [= <-]|]. destruct (deliver p box) as [[b box']|]; [|done].
  intros [= <-]. by exists b, box'.
Qed.

Lemma zmq_ask_blocked p box c r : zmq_ask p box c = None -> ~ answers sockets p box (c, r).
Proof. destruct c; try done. cbn. intros H (b & box' & Hd & _). by rewrite Hd in H. Qed.

Lemma zmq_ask_granted p box c r : zmq_ask p box c = Some r -> granted (c, r).
Proof. pose proof (plain_granted [] c) as H. destruct c; try done; cbn -[plain]; by intros [= <-]. Qed.

(** One message of two bytes, turn by turn. *)
Definition zmq_run : nat -> config unit :=
  play sockets [] zmq_ask 9 round_robin (Config (zmq_pair (Args 2 1 100)) []).

Lemma zmq_run_execution : execution sockets [] round_robin zmq_run.
Proof. apply (plays_execution _ _ _ _ zmq_ask_answers zmq_ask_blocked _ 60). by vm_compute. Qed.


