(* ===== verification/PipeBench.v ===== *)
(** * pipe/pipe.c: messages through an anonymous pipe, with signals for the turns *)

From stdpp Require Import relations.
From S2P Require Import Prelude CInt Prog Utility Arguments Benchmarks Signals Samples Joint PingPong.
From S2P Require Import Session Coexec Sound SignalBench.

(** [mode] is an array of one character without a terminator. *)
Definition open_stream (fds : Z * Z) (to_open : bool) : prog Z :=
  sys_ (Close (if to_open then fds.1 else fds.2)) ;;;
  let fd := if to_open then fds.2 else fds.1 in
  tail <- sys AfterArray ;;
  stream <- sysret (Fdopen fd ((if to_open then "w" else "r") +:+ optarg tail)) ;;
  when (stream =? 0) (throw "Could not open stream for reading") ;;;
  Ret fd.

(** [fread(buffer, n, 1, stream)]; the result is a [size_t]. *)
Definition fread (buffer : list Z) (n stream : Z) : prog (list Z * Z) :=
  r <- sys (Fread stream (u64 n) 1) ;;
  buffer <- store_bytes buffer 0 (data r) ;;
  Ret (buffer, u64 (ret r)).

Definition fwrite (buffer : list Z) (n stream : Z) : prog Z :=
  bytes <- load_bytes buffer 0 n ;;
  r <- sysret (Fwrite stream bytes (u64 n) 1) ;;
  Ret (u64 r).

(** The results of [fread] and [fwrite] are compared with -1, which becomes [2^64 - 1]. *)
Definition client_communicate (fds : Z * Z) (args : Arguments) : prog unit :=
  stream <- open_stream fds false ;;
  signal_action <- setup_client_signals ;;
  buffer <- malloc (u64 (size args)) ;;
  notify_server ;;;
  while (fun st : Z * list Z => Ret (0 <? st.1))
    (fun st =>
      wait_for_signal signal_action ;;;
      '(buffer, r) <- fread st.2 (size args) stream ;;
      when (r =? u64 (-1)) (throw "Error reading from pipe") ;;;
      notify_server ;;;
      Ret (st.1 - 1, buffer)) (count args, buffer) ;;;
  sys_ (Close fds.2) ;;;
  free.

Definition server_communicate (fds : Z * Z) (args : Arguments) : prog unit :=
  stream <- open_stream fds true ;;
  signal_action <- setup_server_signals ;;
  buffer <- malloc (u64 (size args)) ;;
  bench <- setup_benchmarks None ;;
  wait_for_signal signal_action ;;;
  '(_, bench) <- while (fun st : Z * Benchmarks => Ret (st.1 <? count args))
    (fun st =>
      let '(message, bench) := st in
      bench <- start_single bench ;;
      r <- fwrite buffer (size args) stream ;;
      when (r =? u64 (-1)) (throw "Error writing to pipe") ;;;
      sys_ Fflush ;;;
      notify_client ;;;
      wait_for_signal signal_action ;;;
      bench <- benchmark bench ;;
      Ret (message + 1, bench)) (0, bench) ;;
  evaluate bench args ;;;
  sys_ (Close fds.2) ;;;
  free.

Definition communicate (fds : Z * Z) (args : Arguments) : prog unit :=
  pid <- sysret Fork ;;
  when (pid =? -1) (throw "Error forking process") ;;;
  if pid =? 0 then client_communicate fds args else server_communicate fds args.

(** [pipe] stores the two descriptors. *)
Definition main (argv : list string) : prog Z :=
  args <- parse_arguments argv ;;
  r <- sys Pipe ;;
  when (ret r <? 0) (throw "Error opening pipe!\n") ;;;
  communicate (nth 0 (data r) 0, nth 1 (data r) 0) args ;;;
  Ret EXIT_SUCCESS.

(** ** The pending signals, the server's stream, the pipe, and who is alive *)

(** [ready_c], [ready_s]: the client, the server has set up its signals. [killed]: the process that a
    signal has ended. *)
Record channel := Channel {
  ready_c : bool;
  ready_s : bool;
  sigs : pending;
  stdio : list Z;
  bytes : list Z;
  killed : option side
}.

Definition ready (p : side) (s : channel) : bool :=
  match p with ClientSide => ready_c s | ServerSide => ready_s s end.

Definition set_ready (p : side) (s : channel) : channel :=
  match p with
  | ClientSide => Channel true (ready_s s) (sigs s) (stdio s) (bytes s) (killed s)
  | ServerSide => Channel (ready_c s) true (sigs s) (stdio s) (bytes s) (killed s)
  end.

Definition with_content (s : channel) (sg : pending) (st by_ : list Z) : channel :=
  Channel (ready_c s) (ready_s s) sg st by_ (killed s).

(** The default action of both signals ends the process. *)
Definition kill_side (p : side) (s : channel) : channel :=
  Channel (ready_c s) (ready_s s) (sigs s) (stdio s) (bytes s) (Some p).

(** [kill] leaves the signal pending for a process that has set up its mask, and ends one that has
    not; [fwrite] fills the stream's buffer, [fflush] sends it, [fread] takes from the pipe. *)
Definition pipe_effect (p : side) (ev : event) (s : channel) : channel :=
  match ev.1 with
  | Sigprocmask _ _ => set_ready p s
  | Kill _ _ =>
      if ready (other p) s then with_content s (effect signals p ev (sigs s)) (stdio s) (bytes s)
      else kill_side (other p) s
  | Sigwait _ => with_content s (effect signals p ev (sigs s)) (stdio s) (bytes s)
  | Fwrite _ b _ _ => with_content s (sigs s) (stdio s ++ b) (bytes s)
  | Fflush => with_content s (sigs s) [] (bytes s ++ stdio s)
  | Fread _ n _ => with_content s (sigs s) (stdio s) (zdrop n (bytes s))
  | _ => s
  end.

(** The capacity of a pipe on Linux, see pipe(7). *)
Definition PIPE_CAPACITY : Z := 65536.

(** What [fread] of one item of [n] bytes returns: one item, or none if it is empty. *)
Definition items (n : Z) : Z := if n =? 0 then 0 else 1.

Section object.
Context (capacity : Z).

(** [fflush] blocks while the pipe has no room, [fread] until a whole message has come, [sigwait] until the
    signal is pending; [kill] does not block. A process that has been killed makes no more calls. *)
Definition pipe_channel : object channel := Object _ pipe_effect
  (fun p s ev =>
    killed s <> Some p /\
    match ev.1 with
    | Sigwait _ => is_pending p (sigs s) = true
    | Fread _ n _ => n <= zlen (bytes s) /\ ret ev.2 = items n /\ data ev.2 = ztake n (bytes s)
    | Fflush => zlen (bytes s) + zlen (stdio s) <= capacity
    | _ => True
    end).

(** The same, without the interleavings that send a signal to a process that has not set up its
    mask. *)
Definition pipe_masked : object channel := Object _ pipe_effect
  (fun p s ev =>
    answers pipe_channel p s ev /\ match ev.1 with Kill _ _ => ready (other p) s = true | _ => True end).

(** The runs in which nobody is killed are those of the second object. *)
Lemma unkilled p ev s : killed (pipe_effect p ev s) = None ->
  killed s = None /\ match ev.1 with Kill _ _ => ready (other p) s = true | _ => True end.
Proof.
  destruct ev as [c r]. unfold pipe_effect. destruct c; cbn; try done; [by destruct p|].
  by destruct (ready (other p) s).
Qed.

Lemma unkilled_coherent s0 g :
  coherent pipe_channel s0 g -> killed (final pipe_channel s0 g) = None -> coherent pipe_masked s0 g.
Proof.
  induction g as [|[p ev] g IH]; [done|]. intros [Hg Ha] [Hk Hr]%unkilled. split; [by apply IH|].
  split; [exact Ha|exact Hr].
Qed.

Lemma unkilled_execution {A} s0 sched (run : nat -> config A) :
  execution pipe_channel s0 sched run ->
  (forall n, killed (shared_state pipe_channel s0 (run n)) = None) ->
  execution pipe_masked s0 sched run.
Proof.
  intros He Hk n. specialize (Hk (S n)). destruct (He n) as [Hm|[E Hb]].
  - left. remember (run (S n)) as cf' eqn:E. destruct Hm as [c k r Hh Ha]. apply moves_call; [done|].
    apply unkilled in Hk as [_ Hr]. split; [exact Ha|exact Hr].
  - right. split; [done|]. intros cf'. destruct 1 as [c k r Hh [Ha _]]. apply (Hb (Config (upd (sched n) (k r) (prog_at (run n)))
      ((sched n, (c, r)) :: events (run n)))). by apply moves_call.
Qed.
End object.

Section protocol.
Context (capacity len : Z).
Local Abbreviation masked := (pipe_masked capacity).

(** A client that has the turn reads, a server that has it writes and flushes, before they hand it
    over. *)
Inductive pipe_phase :=
| Waits (gives : Z)
| Reads (gives : Z)
| HasRead (gives : Z)
| Writes (gives : Z)
| Written (gives : Z)
| Flushed (gives : Z).

Definition pipe_start (p : side) : pipe_phase :=
  match p with ClientSide => HasRead 0 | ServerSide => Waits 0 end.

Definition pipe_step (p : side) (ph : pipe_phase) (ev : event) : option pipe_phase :=
  match ev.1, p, ph with
  | Sigwait set, _, Waits n =>
      if bool_decide (set = [awaited p]) then
        Some match p with ClientSide => Reads n | ServerSide => Writes n end
      else None
  | Fread _ n _, ClientSide, Reads k => if n =? len then Some (HasRead k) else None
  | Fwrite _ b _ _, ServerSide, Writes k => if zlen b =? len then Some (Written k) else None
  | Fflush, ServerSide, Written k => Some (Flushed k)
  | Kill pid n, ClientSide, HasRead k =>
      if (pid =? 0) && (n =? SIGUSR1) then Some (Waits (k + 1)) else None
  | Kill pid n, ServerSide, Flushed k =>
      if (pid =? 0) && (n =? SIGUSR2) then Some (Waits (k + 1)) else None
  | Sigwait _, _, _ | Fread _ _ _, _, _ | Fwrite _ _ _ _, _, _ | Fflush, _, _ | Kill _ _, _, _ => None
  | _, _, _ => Some ph
  end.

Definition not_pipe (c : call) : Prop :=
  match c with Sigwait _ | Fread _ _ _ | Fwrite _ _ _ _ | Fflush | Kill _ _ => False | _ => True end.

#[export] Instance not_pipe_local : Local not_pipe.
Proof. by intros []. Qed.

Lemma pipe_own p c r ph : not_pipe c -> pipe_step p ph (c, r) = Some ph.
Proof. by destruct c. Qed.

(** Signals, the length of what is in the stream, and of what is in the pipe; both are alive. *)
Definition content (u1 u2 : bool) (n m : Z) (s : channel) : Prop :=
  sigs s = Pending u1 u2 /\ zlen (stdio s) = n /\ zlen (bytes s) = m /\ killed s = None.

Inductive pipe_joint (s : channel) : pipe_phase -> pipe_phase -> Prop :=
| pipe_reads n : content false false 0 len s -> pipe_joint s (Reads n) (Waits n)
| pipe_has_read n : content false false 0 0 s -> pipe_joint s (HasRead n) (Waits n)
| pipe_out n : content true false 0 0 s -> pipe_joint s (Waits (n + 1)) (Waits n)
| pipe_writes n : content false false 0 0 s -> pipe_joint s (Waits (n + 1)) (Writes n)
| pipe_written n : content false false len 0 s -> pipe_joint s (Waits (n + 1)) (Written n)
| pipe_flushed n : content false false 0 len s -> pipe_joint s (Waits (n + 1)) (Flushed n)
| pipe_back n : content false true 0 len s -> pipe_joint s (Waits (n + 1)) (Waits (n + 1)).

Context (Hlen : 0 <= len).

Lemma pipe_joint_step p ev s pc ps :
  pipe_joint s pc ps -> answers masked p s ev ->
  joint_next masked pipe_step pipe_joint p ev s pc ps.
Proof.
  destruct ev as [c r], s as [rc rs sg st by_ kd]. intros J [[Hkd Ha] Hrdy].
  destruct c; try (by destruct p; intros ph' [= <-]; destruct J; constructor); cbn in Ha, Hrdy;
    destruct J as [k (E1 & E2 & E3 & E4)|k (E1 & E2 & E3 & E4)|k (E1 & E2 & E3 & E4)|k (E1 & E2 & E3 & E4)
      |k (E1 & E2 & E3 & E4)|k (E1 & E2 & E3 & E4)|k (E1 & E2 & E3 & E4)]; cbn in E1, E2, E3, E4; subst sg kd;
    destruct p; try done; cbn in Hrdy; subst; intros ph Hs; cbn in Hs; try done;
    repeat case_match; try done; simplify_eq; bool_to_prop; subst;
    constructor; unfold content; cbn; (split_and!; [done|zlia|zlia|done]).
Qed.

Section traces.
Context (s0 : channel) (H0 : content false false 0 0 s0).

Definition pipe_trace :=
  joint_trace masked pipe_start pipe_step pipe_joint s0 (pipe_has_read s0 0 H0) pipe_joint_step.
Definition pipe_always :=
  joint_always masked pipe_start pipe_step pipe_joint s0 (pipe_has_read s0 0 H0) pipe_joint_step.
End traces.

Definition pipe_waits (ph : pipe_phase) : bool := match ph with Waits _ => true | _ => false end.

Definition pipe_gives (ph : pipe_phase) : Z :=
  match ph with Waits n | Reads n | HasRead n | Writes n | Written n | Flushed n => n end.

(** At every moment one of the two processes waits; when both do, one of their signals, and one
    only, is pending; a client about to read finds exactly one message in the pipe. *)
Definition pipe_passes (s0 : channel) (g : trace) : Prop :=
  forall g1 g2, g = g1 ++ g2 -> exists pc ps,
    phase_of pipe_start pipe_step ClientSide (proj ClientSide g2) = Some pc /\
    phase_of pipe_start pipe_step ServerSide (proj ServerSide g2) = Some ps /\
    let s := final (pipe_channel capacity) s0 g2 in
    pipe_waits pc || pipe_waits ps = true /\
    xorb (usr1 (sigs s)) (usr2 (sigs s)) = pipe_waits pc && pipe_waits ps /\
    pipe_gives ps <= pipe_gives pc <= pipe_gives ps + 1 /\
    (forall n, pc = Reads n -> zlen (bytes s) = len).

Lemma pipe_passes_always s0 g :
  content false false 0 0 s0 -> coherent masked s0 g ->
  follows pipe_start pipe_step ClientSide (proj ClientSide g) ->
  follows pipe_start pipe_step ServerSide (proj ServerSide g) -> pipe_passes s0 g.
Proof.
  intros H0 Hg Hc Hs g1 g2 ->.
  destruct (pipe_always s0 H0 _ g1 g2 Hg Hc Hs) as (pc & ps & Ec & Es & J); [done|].
  change (final masked s0 g2) with (final (pipe_channel capacity) s0 g2) in J.
  exists pc, ps. split_and!; [done|done|..]; destruct J as [k (E1 & E2 & E3 & _)|k (E1 & E2 & E3 & _)|
    k (E1 & E2 & E3 & _)|k (E1 & E2 & E3 & _)|k (E1 & E2 & E3 & _)|k (E1 & E2 & E3 & _)|k (E1 & E2 & E3 & _)]; cbn;
    rewrite E1; (split_and!; [done|done|lia|lia|by intros ? [=]]).
Qed.

(** ** The session *)

Context (limit : Z).

(** Whether the process has set up its signals, and its phase. *)
Definition full_step (p : side) (ph : bool * pipe_phase) (ev : event) : option (bool * pipe_phase) :=
  match ev.1 with
  | Sigprocmask _ _ => Some (true, ph.2)
  | _ => match pipe_step p ph.2 ev with Some ph' => Some (ph.1, ph') | None => None end
  end.

(** Signals are sent and awaited after the set-up. *)
Definition pipe_permits (p : side) (ph : bool * pipe_phase) (c : call) : bool :=
  match c, ph.2 with
  | Sigwait _, Waits n | Kill _ _, HasRead n => ph.1 && (n <=? limit)
  | Kill _ _, _ => ph.1
  | Fwrite _ _ _ _, Writes n => n <? limit
  | _, _ => true
  end.

Definition pipe_session : session (bool * pipe_phase) :=
  Session _ (fun p => (false, pipe_start p)) full_step pipe_permits (fun _ _ => false).

Definition pipe_ended (p : side) (ph : bool * pipe_phase) : Prop :=
  ph.2 = match p with ClientSide => Waits (limit + 1) | ServerSide => Writes limit end.

Definition quiet (c : call) : Prop := not_pipe c /\ match c with Sigprocmask _ _ => False | _ => True end.

#[export] Instance quiet_local : Local quiet.
Proof. by intros []. Qed.

Lemma full_phase p h b ph :
  phase_of (s_start pipe_session) full_step p h = Some (b, ph) -> phase_of pipe_start pipe_step p h = Some ph.
Proof.
  revert b ph. induction h as [|[c r] h IH]; intros b ph; cbn; [by intros [= _ ->]|].
  destruct (phase_of _ _ p h) as [[b1 ph1]|]; [|done]. rewrite (IH b1 ph1 eq_refl).
  unfold full_step. destruct c; cbn; try (by intros [= _ ->]); by repeat case_match; intros; simplify_eq.
Qed.

(** A typed program follows the protocol. *)
Lemma pipe_follows e p {A} (Q : A -> bool * pipe_phase -> Prop) (q : prog A) h :
  typed pipe_session p Q (false, pipe_start p) q -> visits e [] q h ->
  follows pipe_start pipe_step p h.
Proof.
  intros Hq Hv. destruct (typed_safe pipe_session p e Q _ q [] Hq eq_refl) as [HI _].
  specialize (HI h Hv). unfold follows in *.
  destruct (phase_of (s_start pipe_session) (s_step pipe_session) p h) as [[b ph]|] eqn:E; [|done].
  by rewrite (full_phase p h b ph E).
Qed.

Section calls.
Context (p : side) {A : Type} (Q : A -> bool * pipe_phase -> Prop).
Local Abbreviation typed := (typed pipe_session p).

Lemma quiet_own {B} (q : prog B) (k : B -> prog A) ph :
  quick quiet q -> (forall a, typed Q ph (k a)) -> typed Q ph (bind q k).
Proof.
  apply typed_own; [..|done]; [intros [b x] c [Hc _]; by destruct c|].
  intros [b x] c r [Hc Hm]. by destruct c.
Qed.

Lemma quiet_last (q : prog A) ph : quick quiet q -> (forall a, Q a ph) -> typed Q ph q.
Proof.
  apply typed_last; [..|done]; [intros [b x] c [Hc _]; by destruct c|].
  intros [b x] c r [Hc Hm]. by destruct c.
Qed.

Lemma typed_notify n k (q : prog A) :
  n = awaited (other p) -> p = ServerSide \/ k <= limit -> typed Q (true, Waits (k + 1)) q ->
  typed Q (true, match p with ClientSide => HasRead k | ServerSide => Flushed k end)
    (sys_ (Kill 0 n) ;;; q).
Proof.
  intros -> Hk Hq. apply (typed_call _ _ _ _ _ _ (fun _ => (true, Waits (k + 1)))); [|by destruct p|done|done].
  destruct p; [|done]. destruct Hk; [done|]. by apply Z.leb_le.
Qed.

Lemma typed_await sa k (q : prog A) :
  sa_mask sa = [awaited p] -> k <= limit ->
  typed Q (true, match p with ClientSide => Reads k | ServerSide => Writes k end) q ->
  typed Q (true, Waits k) (wait_for_signal sa ;;; q).
Proof.
  intros Hm Hk Hq. unfold wait_for_signal. rewrite Hm.
  apply (typed_call _ _ _ _ _ _ (fun _ => (true, match p with ClientSide => Reads k | ServerSide => Writes k end)));
    [by apply Z.leb_le|by destruct p|done|done].
Qed.

(** The set-up of the signals throws, or the mask is the side's. *)
Lemma typed_setup (k : sigact -> prog A) b ph :
  (forall sa, sa_mask sa = [awaited p] -> typed Q (true, ph) (k sa)) ->
  typed Q (b, ph)
    (sa <- match p with ClientSide => setup_client_signals | ServerSide => setup_server_signals end ;; k sa).
Proof.
  intros Hk. destruct p;
    (apply (typed_call _ _ _ _ _ _ (fun _ => (b, ph))); [done|done|done|]; intros r; cbn;
     case_match; cbn;
     [apply (typed_call _ _ _ _ _ _ (fun _ => (b, ph))); [done|done|done|]; intros; by apply typed_stop
     |apply (typed_call _ _ _ _ _ _ (fun _ => (true, ph))); [done|done|done|]; intros; by apply Hk]).
Qed.
End calls.

Lemma typed_fread {A} (Q : A -> bool * pipe_phase -> Prop) (q : list Z * Z -> prog A) buffer stream b k :
  len < 2 ^ 31 -> (forall st, typed pipe_session ClientSide Q (b, HasRead k) (q st)) ->
  typed pipe_session ClientSide Q (b, Reads k) (st <- fread buffer len stream ;; q st).
Proof.
  intros Hlt Hk. unfold fread. cbn [bind].
  apply (typed_call _ _ _ _ _ _ (fun _ => (b, HasRead k))); [done| |done|].
  - intros r. cbn. rewrite u64_small by (unfold in_u64, u64_mod; lia). by rewrite Z.eqb_refl.
  - intros r. unfold store_bytes. case_match; cbn [bind]; [by apply Hk|by apply typed_stop].
Qed.

Lemma typed_fwrite {A} (Q : A -> bool * pipe_phase -> Prop) (q : Z -> prog A) buffer stream b k :
  k < limit -> (forall r, typed pipe_session ServerSide Q (b, Written k) (q r)) ->
  typed pipe_session ServerSide Q (b, Writes k) (r <- fwrite buffer len stream ;; q r).
Proof.
  intros Hn Hk. unfold fwrite, load_bytes. case_match; cbn [bind]; [|by apply typed_stop]. bool_to_prop.
  apply (typed_call _ _ _ _ _ _ (fun _ => (b, Written k))); [by apply Z.ltb_lt| |done|by intros; apply Hk].
  intros r. cbn. rewrite zlen_zslice by lia. by rewrite Z.eqb_refl.
Qed.

Section programs.
Context (args : Arguments) (Hsz : size args = len) (Hlt : len < 2 ^ 31).
Context (Hlimit : limit = Z.max 0 (count args)).

Lemma pipe_client_typed fds :
  typed pipe_session ClientSide (fun _ => pipe_ended ClientSide) (false, HasRead 0) (client_communicate fds args).
Proof.
  unfold client_communicate. rewrite Hsz. apply quiet_own; [local_calls|]. intros st.
  apply (typed_setup ClientSide). intros sa Hm. apply quiet_own; [local_calls|]. intros b.
  apply (typed_notify ClientSide _ SIGUSR1 0); [done|right; lia|].
  eapply typed_bind; [apply (typed_down _ _ (fun n => (true, Waits (n + 1))) fst)|].
  - intros [left_ b'] n Hn. cbn [fst snd] in *. apply (typed_await ClientSide); [done|lia|].
    apply typed_fread; [done|]. intros [b2 r]. apply quiet_own; [local_calls|]. intros [].
    apply (typed_notify ClientSide _ SIGUSR1); [done|right; lia|]. by apply typed_ret.
  - cbn [fst]. rewrite <- Hlimit. intros x ph ->. apply quiet_last; [local_calls|done].
Qed.

Lemma pipe_server_typed fds :
  typed pipe_session ServerSide (fun _ => pipe_ended ServerSide) (false, Waits 0) (server_communicate fds args).
Proof.
  unfold server_communicate. rewrite Hsz. apply quiet_own; [local_calls|]. intros st.
  apply (typed_setup ServerSide). intros sa Hm. do 2 (apply quiet_own; [local_calls|]; intros ?).
  apply (typed_await ServerSide); [done|lia|].
  eapply typed_bind; [apply (typed_up _ _ (fun n => (true, Writes n)) fst); [done|]|].
  - intros [n b] Hn. cbn [fst snd] in *. apply quiet_own; [local_calls|]. intros b1.
    apply typed_fwrite; [lia|]. intros r. apply quiet_own; [local_calls|]. intros [].
    apply (typed_call _ _ _ _ _ _ (fun _ => (true, Flushed n))); [done|done|done|]. intros _. cbn [bind].
    apply (typed_notify ServerSide _ SIGUSR2); [done|by left|].
    apply (typed_await ServerSide); [done|lia|]. apply quiet_own; [local_calls|]. intros b2.
    by apply typed_ret.
  - rewrite <- Hlimit. intros [x b] ph ->. apply quiet_last; [local_calls|done].
Qed.
End programs.
(** ** Under a scheduler *)

Context (Hlimit : 0 <= limit) (Hcapacity : len <= capacity).

(** Before the set-up a process has not moved. *)
Definition set_up (p : side) (ph : bool * pipe_phase) : Prop := ph.1 = false -> ph.2 = pipe_start p.

(** The server is within its rounds. *)
Definition pipe_rounds (ph : pipe_phase) : Prop :=
  match ph with Written n | Flushed n => n < limit | ph => pipe_gives ph <= limit end.

Definition full_joint (s : channel) (pc ps : bool * pipe_phase) : Prop :=
  pipe_joint s pc.2 ps.2 /\ ready_c s = pc.1 /\ ready_s s = ps.1 /\
  set_up ClientSide pc /\ set_up ServerSide ps /\ pipe_rounds ps.2.

(** What a step does to the flag and to the phase. *)
Lemma full_step_cases p b x c r ph' s :
  full_step p (b, x) (c, r) = Some ph' ->
  pipe_step p x (c, r) = Some ph'.2 /\
  (ph'.1 = b /\ ready_c (pipe_effect p (c, r) s) = ready_c s /\
     ready_s (pipe_effect p (c, r) s) = ready_s s \/
   ph' = (true, x) /\ ready p (pipe_effect p (c, r) s) = true /\
     ready (other p) (pipe_effect p (c, r) s) = ready (other p) s).
Proof.
  unfold full_step. cbn [fst snd]. destruct c; try (intros [= <-]; by (split; [done|left]));
    try (intros [= <-]; split; [done|right; by destruct p]);
    destruct (pipe_step p x _) as [x'|] eqn:E; try done; intros [= <-]; (split; [done|left]);
    unfold pipe_effect; cbn [fst]; try destruct (ready (other p) s); done.
Qed.

Lemma set_up_step p b x c r ph' :
  set_up p (b, x) -> pipe_permits p (b, x) c = true -> full_step p (b, x) (c, r) = Some ph' -> set_up p ph'.
Proof.
  unfold set_up, full_step, pipe_permits. cbn [fst snd]. intros Hs Hp Hst.
  destruct b; [by destruct c; repeat case_match; simplify_eq|]. specialize (Hs eq_refl). subst x.
  destruct c; try (by injection Hst as <-); destruct p; done.
Qed.

Lemma pipe_rounds_step b x c r x' :
  pipe_rounds x -> pipe_permits ServerSide (b, x) c = true -> pipe_step ServerSide x (c, r) = Some x' ->
  pipe_rounds x'.
Proof.
  intros Hr Hp Hs. destruct c; try (injection Hs as <-; done); cbn in Hs, Hp; destruct x; try done;
    repeat case_match; try done; bool_to_prop; injection Hs as <-; cbn in *; lia.
Qed.

Lemma full_joint_next p c r s ph ph' :
  jointly full_joint s ph -> answers masked p s (c, r) -> pipe_permits p (ph p) c = true ->
  full_step p (ph p) (c, r) = Some ph' -> jointly full_joint (pipe_effect p (c, r) s) (upd p ph' ph).
Proof.
  unfold jointly. intros (J & Hrc & Hrs & Hc & Hs & Hl) Ha Hp Hst.
  pose proof (pipe_joint_step p (c, r) s _ _ J Ha) as Hj. unfold joint_next in Hj.
  destruct (ph p) as [b x] eqn:Ep.
  destruct (full_step_cases p b x c r ph' s Hst) as [Hps Hf].
  assert (set_up p (b, x)) as Hup by (rewrite <- Ep; by destruct p).
  pose proof (set_up_step p b x c r ph' Hup Hp Hst) as Hup'.
  destruct p.
  - change (upd ClientSide ph' ph ClientSide) with ph'.
    change (upd ClientSide ph' ph ServerSide) with (ph ServerSide).
    rewrite Ep in *. cbn [fst snd ready other] in *. split; [by apply Hj|].
    destruct Hf as [(Eb & E1 & E2)|(-> & E1 & E2)]; cbn [fst snd] in *; split_and!; congruence || done.
  - change (upd ServerSide ph' ph ServerSide) with ph'.
    change (upd ServerSide ph' ph ClientSide) with (ph ClientSide).
    rewrite Ep in *. cbn [fst snd ready other] in *. split; [by apply Hj|].
    pose proof (pipe_rounds_step _ _ _ _ _ Hl Hp Hps).
    destruct Hf as [(Eb & E1 & E2)|(-> & E1 & E2)]; cbn [fst snd] in *; split_and!; congruence || done.
Qed.

(** What a process that goes on finds. *)
Definition pipe_can_go (p : side) (s : channel) (ph : bool * pipe_phase) : Prop :=
  killed s = None /\
  match ph.2 with
  | Waits n => ph.1 = false \/ is_pending p (sigs s) = true \/ limit < n
  | Reads _ => zlen (bytes s) = len
  | HasRead _ | Flushed _ => ph.1 = false \/ ready (other p) s = true
  | Written _ => zlen (bytes s) + zlen (stdio s) <= capacity
  | Writes _ => True
  end.

Lemma pipe_can_go_awake p s ph : pipe_can_go p s ph -> awake masked pipe_session p s ph.
Proof.
  intros [Hk Hg] c Hp Hs. split; [|done]. specialize (Hs (rret 0)). destruct ph as [b x]. cbn in Hp, Hs.
  assert (killed s <> Some p) as Hk' by by rewrite Hk.
  unfold full_step in Hs. unfold pipe_permits in Hp. cbn [fst snd] in *.
  destruct c; try (by exists (rret 0)); destruct p, x; try done; cbn in *; bool_to_prop; subst;
    try (exists (rret 0); cbn; split_and!; [done|destruct_or?; done || lia..]).
  all: repeat case_match; try done; bool_to_prop; subst.
  all: match goal with |- exists r, (_ /\ ?n <= _ /\ _) /\ _ => exists (rdata (items n) (ztake n (bytes s))) end.
  cbn. split_and!; (done || lia).
Qed.

Lemma pipe_goes s ph :
  jointly full_joint s ph ->
  (forall p, awake masked pipe_session p s (ph p)) \/
  exists p, ~ pipe_ended p (ph p) /\ awake masked pipe_session p s (ph p).
Proof.
  unfold jointly. intros (J & Hrc & Hrs & Hc & Hs & Hl).
  assert (forall p, ~ pipe_ended p (ph p) -> pipe_can_go p s (ph p) ->
    (forall p, awake masked pipe_session p s (ph p)) \/
    exists p, ~ pipe_ended p (ph p) /\ awake masked pipe_session p s (ph p)) as Hgo.
  { intros p Hn Hg. right. exists p. split; [done|by apply pipe_can_go_awake]. }
  destruct (ph ClientSide) as [bc pc] eqn:Ec, (ph ServerSide) as [bs ps] eqn:Es. cbn [fst snd] in *.
  destruct J as [n (E1 & E2 & E3 & E4)|n (E1 & E2 & E3 & E4)|n (E1 & E2 & E3 & E4)|n (E1 & E2 & E3 & E4)
      |n (E1 & E2 & E3 & E4)|n (E1 & E2 & E3 & E4)|n (E1 & E2 & E3 & E4)]; cbn in Hl.
  - apply (Hgo ClientSide); by rewrite Ec.
  - destruct bs.
    + apply (Hgo ClientSide); rewrite Ec; [done|split; [done|by right]].
    + specialize (Hs eq_refl). apply (Hgo ServerSide); rewrite Es; [done|split; [done|by left]].
  - apply (Hgo ServerSide); rewrite Es; [done|split; [done|right; left; by rewrite E1]].
  - destruct (Z.ltb_spec n limit).
    + apply (Hgo ServerSide); rewrite Es; [intros [=]; lia|done].
    + left. intros []; apply pipe_can_go_awake; [rewrite Ec|by rewrite Es]. split; [done|]. right. right. lia.
  - apply (Hgo ServerSide); rewrite Es; [done|]. split; [done|cbn; lia].
  - apply (Hgo ServerSide); rewrite Es; [done|split; [done|right]]. cbn. rewrite Hrc. destruct bc; [done|].
    by specialize (Hc eq_refl).
  - apply (Hgo ClientSide); rewrite Ec; [intros [=]; lia|split; [done|right; left; by rewrite E1]].
Qed.

#[export] Instance pipe_lively : Lively masked pipe_session full_joint pipe_ended.
Proof. split; [apply full_joint_next|done|apply pipe_goes]. Qed.
End protocol.

(** A new pipe, and no signal yet. *)
Definition new_pipe : channel := Channel false false (Pending false false) [] [] None.

(** C14. pipe: in every interleaving in which no signal is sent to a process that has not set up its
    mask (nobody is killed), and for every capacity of the pipe, the two processes take turns, no
    signal is lost by merging, and a client that has been woken finds exactly one whole message in
    the pipe, so that its [fread] does not block. *)
Theorem pipe_exchange capacity ec es fds argc args g :
  0 <= size args < 2 ^ 31 -> size argc = size args -> coherent (pipe_channel capacity) new_pipe g ->
  killed (final (pipe_channel capacity) new_pipe g) = None ->
  visits ec [] (client_communicate fds argc) (proj ClientSide g) ->
  visits es [] (server_communicate fds args) (proj ServerSide g) ->
  pipe_passes capacity (size args) new_pipe g.
Proof.
  intros [H1 H2] Hz Hg Hk Vc Vs. apply pipe_passes_always; [done|done|by apply unkilled_coherent| |].
  - eapply pipe_follows; [exact H1| |exact Vc]. by apply (pipe_client_typed (size args) H1 (Z.max 0 (count argc)) argc).
  - eapply pipe_follows; [exact H1| |exact Vs]. by apply (pipe_server_typed (size args) H1 (Z.max 0 (count args)) args).
Qed.

(** ** A concrete run of one message of two bytes *)

Definition pipe_env : env := fun h c =>
  match c with
  | Fread _ _ _ => rdata 1 [0; 0]
  | _ => plain h c
  end.

Definition pipe_sample : trace :=
  interleave [(ServerSide, 7%nat); (ClientSide, 7%nat); (ServerSide, 5%nat); (ClientSide, 5%nat);
              (ServerSide, 20%nat)]
    (rev (history 20 pipe_env (client_communicate (3, 4) (Args 2 1 100))))
    (rev (history 20 pipe_env (server_communicate (3, 4) (Args 2 1 100)))).

Lemma pipe_sample_coherent : coherent (pipe_channel PIPE_CAPACITY) new_pipe pipe_sample.
Proof. vm_compute. repeat split; discriminate. Qed.

Lemma pipe_exchange_witness : pipe_passes PIPE_CAPACITY 2 new_pipe pipe_sample.
Proof.
  apply (pipe_exchange PIPE_CAPACITY pipe_env pipe_env (3, 4) (Args 2 1 100) (Args 2 1 100)).
  - done.
  - done.
  - apply pipe_sample_coherent.
  - by vm_compute.
  - apply (eval_visits _ _ _ (Val tt)), eval_run. exists 20%nat. vm_compute. reflexivity.
  - apply (eval_visits _ _ _ (Val tt)), eval_run. exists 20%nat. vm_compute. reflexivity.
Defined.

(** ** The two processes do not stop *)

(** [fread] does not fail, and stores no more than it was asked for. *)
Definition pipe_answer (ev : event) : Prop :=
  granted ev /\ match ev.1 with Fread _ n _ => 0 <= ret ev.2 <= 1 /\ zlen (data ev.2) <= Z.max 0 n | _ => True end.

Lemma pipe_answer_granted ev : pipe_answer ev -> granted ev.
Proof. by intros [??]. Qed.

Lemma pipe_answers capacity p s c r :
  answers (pipe_masked capacity) p s (c, r) -> granted (c, r) -> pipe_answer (c, r).
Proof.
  intros [[_ Ha] _] Hr. split; [done|]. destruct c; try done. cbn in *. destruct Ha as (_ & -> & ->).
  rewrite zlen_ztake. unfold items. case_match; lia.
Qed.

Section sound.
Context {A : Type} (Q : A -> Prop).
Local Abbreviation sound := (sound pipe_answer).

Lemma sound_open_stream fds b (k : Z -> prog A) :
  (forall fd, sound Q (k fd)) -> sound Q (bind (open_stream fds b) k).
Proof.
  intros Hk. unfold open_stream. cbn [bind sys_ sys sysret]. do 2 (apply sound_call; intros ? _).
  apply sound_call. intros rs [Hr _]. cbn in Hr. rewrite bind_assoc.
  apply sound_when; [by apply Z.eqb_neq|]. apply Hk.
Qed.

Lemma sound_setup p (k : sigact -> prog A) :
  (forall sa, sound Q (k sa)) ->
  sound Q (sa <- match p with ClientSide => setup_client_signals | ServerSide => setup_server_signals end ;; k sa).
Proof.
  intros Hk. destruct p; (apply sound_call; intros r [Hr _]; cbn in Hr; cbn; rewrite Hr; cbn;
    apply sound_call; intros r' _; apply Hk).
Qed.

Context (len : Z) (Hlen : 0 <= len < 2 ^ 31).

Lemma sound_fread buffer stream (k : list Z * Z -> prog A) :
  zlen buffer = len -> (forall b r, zlen b = len -> 0 <= r <= 1 -> sound Q (k (b, r))) ->
  sound Q (bind (fread buffer len stream) k).
Proof.
  intros Hb Hk. unfold fread. cbn [bind sys]. apply sound_call. intros r [_ [Hr Hd]]. cbn in Hr, Hd.
  rewrite u64_small in Hd by (unfold in_u64, u64_mod; lia).
  rewrite (u64_small (ret r)) by (unfold in_u64, u64_mod; lia).
  rewrite bind_assoc. apply sound_store; [lia|lia|]. intros b _ E. apply Hk; lia.
Qed.

Lemma sound_fwrite buffer stream (k : Z -> prog A) :
  zlen buffer = len -> (forall r, 0 <= r <= 1 -> sound Q (k r)) ->
  sound Q (bind (fwrite buffer len stream) k).
Proof.
  intros Hb Hk. unfold fwrite. rewrite bind_assoc. apply sound_load; [lia..|]. cbn [bind sysret].
  apply sound_call. intros r [Hr _]. cbn in Hr. apply Hk. rewrite u64_small; [lia|]. unfold in_u64, u64_mod. lia.
Qed.
End sound.

(** ** The two processes under a scheduler *)

Section scheduled.
Context (capacity : Z) (fds : Z * Z) (args : Arguments).
Local Abbreviation limit := (Z.max 0 (count args)).

Definition pipe_pair (p : side) : prog unit :=
  match p with ClientSide => client_communicate fds args | ServerSide => server_communicate fds args end.

Lemma pipe_pair_sound p :
  0 <= size args < 2 ^ 31 -> 0 < count args -> sound pipe_answer (fun _ => True) (pipe_pair p).
Proof.
  intros Hs Hc. pose proof pipe_answer_granted as HG.
  assert (u64 (size args) = size args) as Eu by (apply u64_small; unfold in_u64, u64_mod; lia).
  destruct p; unfold pipe_pair, client_communicate, server_communicate;
    (apply sound_open_stream; intros fd).
  - apply (sound_setup _ ClientSide). intros sa. apply (sound_malloc _ HG); [lia|]. intros b Hb. rewrite Eu in Hb.
    eapply sound_bind; [apply sound_sys_|intros [] _].
    apply (sound_bind _ (fun _ => True)); [|intros st _; eapply sound_bind; [apply sound_sys_|intros [] _; apply sound_sys_]].
    apply (sound_while _ (fun st => zlen st.2 = size args)); [done| |done].
    intros [n b1] Hb1 _. cbn in Hb1. cbn [fst snd]. eapply sound_bind; [apply sound_sys_|intros [] _].
    apply sound_fread; [done..|]. intros b2 r Hb2 Hr. apply sound_when.
    { apply Z.eqb_neq. change (u64 (-1)) with (2 ^ 64 - 1). lia. }
    eapply sound_bind; [apply sound_sys_|intros [] _]. by apply sound_ret.
  - apply (sound_setup _ ServerSide). intros sa. apply (sound_malloc _ HG); [lia|]. intros b Hb. rewrite Eu in Hb.
    apply (sound_setup_benchmarks _ HG). intros bench. eapply sound_bind; [apply sound_sys_|intros [] _].
    apply (sound_bind _ (fun _ => True)).
    + apply (sound_while _ (fun _ => True)); [done| |done].
      intros [n bn] _ _. apply (sound_start_single _ HG). intros bn1 H1.
      apply (sound_fwrite _ (size args)); [done..|]. intros r Hr. apply sound_when.
      { apply Z.eqb_neq. change (u64 (-1)) with (2 ^ 64 - 1). lia. }
      do 3 (eapply sound_bind; [apply sound_sys_|intros [] _]).
      apply (sound_benchmark _ HG); [done|]. intros bn2. by apply sound_ret.
    + intros [n bn] _. apply (sound_evaluate _ HG); [done|].
      eapply sound_bind; [apply sound_sys_|intros [] _]. apply sound_sys_.
Qed.

(** C11. pipe, with at least one message, of at most the size of the pipe: under every fair scheduler under
    which no signal is sent to a process that has not set up its mask (nobody is killed), both
    processes return; no signal that one waits for is lost, the pipe always has room, and every
    message can be read when the signal has come. *)
Theorem pipe_terminates sched run :
  0 <= size args < 2 ^ 31 -> size args <= capacity -> 0 < count args ->
  fair sched -> execution (pipe_channel capacity) new_pipe sched run -> run 0%nat = Config pipe_pair [] ->
  (forall n, killed (shared_state (pipe_channel capacity) new_pipe (run n)) = None) ->
  all_granted run ->
  exists n, forall p, returned p (run n).
Proof.
  intros [Hs1 Hs2] Hcap Hc Hf He E Hk.
  pose proof (pipe_lively capacity (size args) Hs1 limit ltac:(lia) Hcap) as HL.
  apply (coexec_returns (pipe_masked capacity) new_pipe (pipe_session (size args) limit)
    (full_joint (size args) limit) (pipe_ended limit) (fun p _ => pipe_ended limit p) (fun p _ ph H => H)
    (fun _ => pipe_answer)) with (progs := pipe_pair) (sched := sched); [| | | |done| |done].
  - intros p c r s ph ph' _ Ha _ _. by eapply pipe_answers.
  - intros []; [by apply pipe_client_typed|by apply pipe_server_typed].
  - split_and!; try done; [by apply pipe_has_read|cbn; lia].
  - intros p. by apply pipe_pair_sound.
  - by apply unkilled_execution.
Qed.
End scheduled.

(** The channel, answering when it can. *)
Definition pipe_ask (p : side) (s : channel) (c : call) : option resp :=
  if decide (killed s = Some p) then None else
  match c with
  | Sigwait _ => if is_pending p (sigs s) then Some (rret 0) else None
  | Fread _ n _ => if n <=? zlen (bytes s) then Some (rdata (items n) (ztake n (bytes s))) else None
  | Fflush => if zlen (bytes s) + zlen (stdio s) <=? PIPE_CAPACITY then Some (rret 0) else None
  | _ => Some (plain [] c)
  end.

Lemma pipe_ask_answers p s c r : pipe_ask p s c = Some r -> answers (pipe_channel PIPE_CAPACITY) p s (c, r).
Proof.
  unfold pipe_ask. case_decide; [done|]. intros Hr. split; [done|]. revert Hr.
  destruct c; cbn; try done; case_match; try done; bool_to_prop; by intros [= <-].
Qed.

Lemma pipe_ask_blocked p s c r : pipe_ask p s c = None -> ~ answers (pipe_channel PIPE_CAPACITY) p s (c, r).
Proof.
  unfold pipe_ask. intros H [Hk Ha]. revert H. rewrite decide_False by done. revert Ha.
  destruct c; cbn; try done; intros Ha; case_match; try done; bool_to_prop; lia || congruence.
Qed.

Lemma pipe_ask_granted p s c r : pipe_ask p s c = Some r -> granted (c, r).
Proof.
  unfold pipe_ask. case_decide; [done|]. pose proof (plain_granted [] c) as Hc.
  destruct c; try done; cbn -[plain]; by intros [= <-].
Qed.

Definition pipe_run : nat -> config unit :=
  play (pipe_channel PIPE_CAPACITY) new_pipe pipe_ask 9 round_robin (Config (pipe_pair (3, 4) (Args 2 1 100)) []).

Lemma pipe_run_unkilled n : killed (shared_state (pipe_channel PIPE_CAPACITY) new_pipe (pipe_run n)) = None.
Proof.
  assert (match killed (shared_state (pipe_channel PIPE_CAPACITY) new_pipe (pipe_run n)) with
    None => true | Some _ => false end = true) as H.
  { apply (plays_always _ _ _ _ pipe_ask_answers pipe_ask_blocked _
      (fun cf => match killed (shared_state (pipe_channel PIPE_CAPACITY) new_pipe cf) with None => true | Some _ => false end)
      60); by vm_compute. }
  by destruct (killed _).
Qed.

Lemma pipe_terminates_witness : exists n, forall p, returned p (pipe_run n).
Proof.
  apply (pipe_terminates PIPE_CAPACITY (3, 4) (Args 2 1 100)) with (sched := round_robin).
  - done.
  - done.
  - done.
  - apply round_robin_fair.
  - apply (plays_execution _ _ _ _ pipe_ask_answers pipe_ask_blocked _ 60). by vm_compute.
  - done.
  - apply pipe_run_unkilled.
  - apply play_granted; [apply pipe_ask_granted|done].
Defined.

(** ** An early signal *)

(** One step of the client, whose call the channel answers with [r]. *)
Lemma client_moves capacity (cf cf' : config unit) c k r :
  find_head 3 (prog_at cf ClientSide) = Some (Call c k) ->
  answers (pipe_channel capacity) ClientSide (shared_state (pipe_channel capacity) new_pipe cf) (c, r) ->
  reachable (pipe_channel capacity) new_pipe
    (Config (upd ClientSide (k r) (prog_at cf)) ((ClientSide, (c, r)) :: events cf)) cf' ->
  reachable (pipe_channel capacity) new_pipe cf cf'.
Proof.
  intros Hh Ha H. eapply rtc_l; [|exact H]. exists ClientSide. apply moves_call; [|exact Ha].
  by apply (find_head_sound 3).
Qed.

(** C39. pipe: nothing keeps the client from sending its first signal before the server has blocked it. For
    all arguments with at least one message there is an interleaving in which that signal kills the
    server, and the client then waits for ever: neither process can move, and neither has returned. *)
Theorem pipe_early_signal capacity fds args :
  0 < count args ->
  exists cf, reachable (pipe_channel capacity) new_pipe (Config (pipe_pair fds args) []) cf /\
    killed (shared_state (pipe_channel capacity) new_pipe cf) = Some ServerSide /\
    forall p, blocked (pipe_channel capacity) new_pipe p cf /\ ~ returned p cf.
Proof.
  intros Hc. eexists. split.
  { do 2 (eapply (client_moves _ _ _ _ _ (rret 0)); [reflexivity|by split|]; cbn [bind]).
    eapply (client_moves _ _ _ _ _ (rret 1)); [reflexivity|by split|]. cbn [bind].
    do 4 (eapply (client_moves _ _ _ _ _ (rret 0)); [reflexivity|by split|]; cbn [bind]).
    apply rtc_refl. }
  split; [done|].
  assert (exists c k, head (pipe_pair fds args ServerSide) (Call c k)) as (cs & ks & Hs).
  { do 2 eexists. by apply (find_head_sound 3). }
  match goal with |- forall p, blocked _ _ _ ?cf /\ _ =>
    assert (exists k, head (prog_at cf ClientSide) (Call (Sigwait [SIGUSR2]) k)) as [kc Hk] end.
  { eexists. apply (find_head_sound 3). cbn [prog_at]. rewrite upd_eq. cbn -[Z.ltb].
    rewrite (proj2 (Z.ltb_lt _ _) Hc). reflexivity. }
  intros []; split.
  - intros cf'. destruct 1 as [c k r Hh [_ Ha]]. pose proof (head_det _ _ _ Hk Hh) as E. by injection E as <- _.
  - intros [a Ha]. by pose proof (head_det _ _ _ Hk Ha).
  - intros cf'. by destruct 1 as [c k r Hh [Ha _]].
  - intros [a Ha]. by pose proof (head_det _ _ _ Hs Ha).
Qed.

Lemma pipe_early_signal_witness :
  exists cf, reachable (pipe_channel PIPE_CAPACITY) new_pipe (Config (pipe_pair (3, 4) (Args 2 1 100)) []) cf /\
    killed (shared_state (pipe_channel PIPE_CAPACITY) new_pipe cf) = Some ServerSide /\
    forall p, blocked (pipe_channel PIPE_CAPACITY) new_pipe p cf /\ ~ returned p cf.
Proof. by apply (pipe_early_signal PIPE_CAPACITY (3, 4) (Args 2 1 100)). Defined.
