(* ===== verification/Pairs.v ===== *)
(** * The benchmarks of two programs, side by side

    What the sessions of Session.v say of the five benchmarks that pass messages in turns. *)

From S2P Require Import Prelude CInt Prog Arguments Joint Session Guard PingPong Relay.
From S2P Require Import Shm.
From S2P Require Import Mmap.
From S2P Require Import Mq.
From S2P Require Import ZeroMq.
From S2P Require Import PipeBench.

(** Both programs keep to their session, whatever the answers are, and end in a phase of [ended]. *)
Definition keeps_session {Ph} (T : session Ph) (start : side -> Ph) (ended : side -> Ph -> Prop)
    (pair : side -> prog unit) : Prop :=
  forall p, typed T p (fun _ => ended p) (start p) (pair p).

(** C20. Both programs of shm, mmap, mq, zeromq and pipe keep to the session of their benchmark whatever
    the answers to their calls are: they make only calls their phase permits, in the order of the
    protocol, run all rounds before they return, and never loop except while they wait. *)
Theorem pairs_well_typed base mq fds args :
  0 <= size args < 2 ^ 31 ->
  let limit := Z.max 0 (count args) in
  keeps_session (guard_session base 1 (size args) limit) Guard.start (guard_ended limit) (shm_pair base args) /\
  keeps_session (guard_session base 0 (size args) limit) Guard.start (guard_ended limit) (mmap_pair base args) /\
  keeps_session (relay_session (mq_act (size args)) (mq_ok (size args)) ServerSide limit)
    (PingPong.start ServerSide) (relay_ended ServerSide limit) (mq_pair mq args) /\
  keeps_session (relay_session (zmq_act (size args)) (zmq_ok (size args)) ClientSide limit)
    (PingPong.start ClientSide) (relay_ended ClientSide limit) (zmq_pair args) /\
  keeps_session (pipe_session (size args) limit) (s_start (pipe_session (size args) limit)) (pipe_ended limit)
    (pipe_pair fds args).
Proof.
  intros [Hs1 Hs2]. split_and!; intros p.
  - apply shm_pair_typed.
  - apply mmap_pair_typed.
  - apply mq_pair_typed.
  - apply zmq_pair_typed.
  - destruct p; [by apply pipe_client_typed|by apply pipe_server_typed].
Qed.

Lemma pairs_well_typed_witness :
  let args := Args 2 1 100 in
  keeps_session (guard_session sample_base 1 2 1) Guard.start (guard_ended 1) (shm_pair sample_base args) /\
  keeps_session (guard_session sample_base 0 2 1) Guard.start (guard_ended 1) (mmap_pair sample_base args) /\
  keeps_session (relay_session (mq_act 2) (mq_ok 2) ServerSide 1)
    (PingPong.start ServerSide) (relay_ended ServerSide 1) (mq_pair 7 args) /\
  keeps_session (relay_session (zmq_act 2) (zmq_ok 2) ClientSide 1)
    (PingPong.start ClientSide) (relay_ended ClientSide 1) (zmq_pair args) /\
  keeps_session (pipe_session 2 1) (s_start (pipe_session 2 1)) (pipe_ended 1) (pipe_pair (3, 4) args).
Proof. apply (pairs_well_typed sample_base 7 (3, 4) (Args 2 1 100)). done. Defined.
