(* ===== verification/Domain.v ===== *)
(** * domain/: the benchmark over a UNIX domain socket *)

From S2P Require Import Prelude CInt Prog Stream Transfer CDouble Arguments Utility Benchmarks.
From S2P Require Import Times Echo EchoClient EchoServer Samples Signals Sockets Process.

Definition READ_SOCKET_PATH : string := "/tmp/ipc_bench_socket_READ".
Definition SOCKET_FIFO_PATH : string := "/tmp/socket_fifo".

(** ** domain/helper.c *)

Definition open_fifo (path : string) (flag : Z) : prog Z :=
  r <- sys (Open path flag) ;;
  if ret r =? -1 then sys_ (Printf "errno %d\n" [AInt (errno r)]) ;;; Ret (-1)
  else Ret (ret r).

(** The member [error] of the returned structure is never assigned or read. *)
Definition socketMetaData : Type := counts.

Definition socket_flags (nonBlock : bool) : Z := if nonBlock then MSG_DONTWAIT else 0.

Definition read_from_socket (buffer : list Z) (sockfd chunk numBytesToRead : Z)
    (nonBlock : bool) : prog (list Z * socketMetaData) :=
  receive_requests (fun n => Recv sockfd n (socket_flags nonBlock)) buffer chunk numBytesToRead.

Definition write_to_socket (buffer : list Z) (sockfd chunk numBytesToWrite : Z)
    (nonBlock : bool) : prog socketMetaData :=
  send_requests (fun bytes => Send sockfd bytes (socket_flags nonBlock)) buffer chunk numBytesToWrite.

(** Both programs pass [false]. *)
Definition socket_transport (connection : Z) : transport :=
  Transport (fun buffer chunk n => read_from_socket buffer connection chunk n false)
            (fun buffer chunk n => write_to_socket buffer connection chunk n false).

#[export] Instance socket_transport_ok connection :
  TransportOk (socket_transport connection) connection connection.
Proof. exact (call_transport_ok _ _ connection connection). Qed.

(** ** domain/client.c *)

Module Client.

Definition quit_signal_handler : prog unit := Echo.quit_signal_handler.
Definition cleanup : Z -> prog unit := Echo.cleanup.
Definition checkPoll : list pollfd -> nat -> Z -> prog (list pollfd * bool) := Echo.checkPoll.
Definition updateWriteTimes : Z -> list Z -> Z -> Z -> Z -> prog (list Z) := Times.updateWriteTimes.
Definition updateReadWriteTimes : Z -> list Z -> Z -> Z -> Z -> prog (list Z) :=
  Times.updateReadWriteTimes.

(** Not called. *)
Definition resetPollStruct (pfds : list pollfd) (readFD writeFD readEvent writeEvent : Z) :
    prog (list pollfd) :=
  match pfds with
  | _ :: _ :: rest => Ret (Pollfd readFD readEvent 0 :: Pollfd writeFD writeEvent 0 :: rest)
  | _ => undefined OutOfBounds
  end.

Definition communicate (connection : Z) (args : Arguments) : prog unit :=
  let bufferSize := maxOutstandingBytes args in
  readBuffer <- malloc bufferSize ;;
  writeBuffer <- malloc bufferSize ;;
  times <- malloc (u64 (8 * u64 (count args))) ;;
  block <- malloc 8 ;;
  let pfds := [Pollfd connection (Z.lor POLLIN POLLOUT) (raw_revents block 0)] in
  bench <- setup_benchmarks None ;;
  st <- client_loop (socket_transport connection) args writeBuffer 1 0
          (client_start readBuffer (cells times) pfds) ;;
  t <- now ;;
  let elaspedTime := u64 (t - total_start bench) in
  let args := clip_count args st in
  sys_ (Printf "Total duration:     %lld\n" [AInt (elaspedTime / 1000)]) ;;;
  evaluateClient (c_times st) args ;;;
  cleanup connection ;;;
  sys_ Fflush.

(** The path fits [sun_path]. *)
Definition setup_socket (connection : Z) (socketPath : string) : prog unit :=
  set_socket_both_buffer_sizes connection ;;;
  r <- sysret (ConnectPath connection socketPath) ;;
  when (r =? -1) (throw "Error connecting to server").

Definition create_connection (socketPath : string) : prog Z :=
  r <- sys (Socket AF_UNIX SOCK_STREAM 0) ;;
  if ret r =? -1 then sys_ (Printf "errno %d\n" [AInt (errno r)]) ;;; Ret (-1)
  else
    setup_socket (ret r) socketPath ;;;
    Ret (ret r).

(** [argc] is the length of [argv]. *)
Definition main (argv : list string) : prog Z :=
  sys_ Setvbuf ;;;
  r <- sysret (SchedSetaffinity [3]) ;;
  when (r =? -1) (sys_ (Perror "sched_setaffinity") ;;; exit 1) ;;;
  buffer <- malloc 1 ;;
  args <- parse_arguments argv ;;
  setup_client_signals ;;;
  socketFifo <- open_fifo SOCKET_FIFO_PATH O_RDWR ;;
  r <- sys (Read socketFifo 1) ;;
  (if 0 <? ret r then store_bytes buffer 0 (data r) else Ret buffer) ;;;
  when (ret r =? -1) (throw "bad read") ;;;
  connection <- retry (create_connection READ_SOCKET_PATH) ;;
  ok <- install_quit_handlers ;;
  if negb ok then Ret EXIT_FAILURE
  else communicate connection args ;;; Ret EXIT_SUCCESS.

End Client.

(** ** domain/server.c *)

Module Server.

Definition quit_signal_handler : prog unit := Echo.quit_signal_handler.
Definition cleanup : Z -> prog unit := Echo.cleanup.
Definition checkPoll : list pollfd -> nat -> Z -> prog (list pollfd * bool) := Echo.checkPoll.

(** The block under [if (firstRead)]. *)
Definition on_first_read (st : server) : prog server :=
  if s_firstRead st then
    bench <- setup_benchmarks None ;;
    Ret (EchoServer.Server (s_readBuffer st)
      (alter (fun p => Pollfd (pfd p) (Z.lor POLLIN POLLOUT) (revents p)) 0%nat (s_pfds st))
      (s_sizeToPoll st) (Some bench) false (s_endTime st) (s_outstandingBytes st)
      (s_totalBytesRead st) (s_totalBytesWritten st))
  else Ret st.

Definition communicate (connection : Z) (args : Arguments) : prog unit :=
  readBuffer <- malloc (maxOutstandingBytes args) ;;
  block <- malloc 8 ;;
  let pfds := [Pollfd connection POLLIN (raw_revents block 0)] in
  st <- server_loop (socket_transport connection) on_first_read args 0
          (server_start readBuffer pfds None true) ;;
  server_report args st ;;;
  cleanup connection.

Definition setup_socket (socket_descriptor : Z) (socketPath : string) : prog unit :=
  sys_ (Remove socketPath) ;;;
  r <- sysret (BindPath socket_descriptor socketPath) ;;
  when (r =? -1) (throw "Error binding socket to address") ;;;
  r <- sysret (Listen socket_descriptor 10) ;;
  when (r =? -1) (throw "Could not start listening on socket").

Definition create_socket (socketPath : string) : prog Z :=
  socket_descriptor <- sysret (Socket AF_UNIX SOCK_STREAM 0) ;;
  when (socket_descriptor =? -1) (throw "Error opening socket on server-side") ;;;
  setup_socket socket_descriptor socketPath ;;;
  Ret socket_descriptor.

Definition accept_connection (socket_descriptor : Z) : prog Z :=
  connection <- sysret (Accept socket_descriptor) ;;
  if connection =? -1 then Ret (-1)
  else
    set_socket_both_buffer_sizes connection ;;;
    sys_ (Close socket_descriptor) ;;;
    Ret connection.

Definition main (argv : list string) : prog Z :=
  sys_ Setvbuf ;;;
  r <- sysret (SchedSetaffinity [5]) ;;
  when (r =? -1) (sys_ (Perror "sched_setaffinity") ;;; exit 1) ;;;
  buffer <- malloc 1 ;;
  args <- parse_arguments argv ;;
  setup_server_signals ;;;
  socketDescriptor <- retry (create_socket READ_SOCKET_PATH) ;;
  socketFifo <- open_fifo SOCKET_FIFO_PATH O_RDWR ;;
  byte <- load_bytes buffer 0 1 ;;
  w <- sysret (Write socketFifo byte) ;;
  when (w <=? 0) (throw "bad write") ;;;
  connection <- retry (accept_connection socketDescriptor) ;;
  ok <- install_quit_handlers ;;
  if negb ok then Ret EXIT_FAILURE
  else communicate connection args ;;; Ret EXIT_SUCCESS.

End Server.

(** ** domain/domain.c *)

Definition makeFifo (path : string) : prog Z :=
  sys_ (Remove path) ;;;
  fd <- sysret (Mkfifo path 438) ;;
  if 0 <? fd then Ret (-1) else Ret fd.

Definition main (file : list Z) (argv : list string) : prog Z :=
  makeFifo SOCKET_FIFO_PATH ;;;
  setup_parent file "domain" argv ;;;
  Ret 0.

(** ** Correctness *)

#[export] Instance on_first_read_ok e `{!ClockOk e} : OnRead e Server.on_first_read
  (fun bench firstRead => bench <> None \/ firstRead = true).
Proof.
  split. intros J h st HJ Hh. unfold Server.on_first_read. destruct (s_firstRead st) eqn:F.
  - unfold setup_benchmarks. apply total_bind, total_bind, (total_now e); [done|by apply HJ|].
    intros t _. cbn [post]. apply total_ret; [by apply HJ|]. cbn [post].
    apply total_ret; [by apply HJ|]. cbn. split_and!; [done..|by intros _; split; [left|]|].
    exists [(TimespecGet, e h TimespecGet)]. split; [done|by repeat constructor].
  - apply total_ret; [done|]. cbn. split_and!; [done..| |by exists []].
    rewrite F. intros [?|?]; [split; [by left|done]|done].
Qed.

Section correctness.
Context (e : env) {K : KernelIO e} {C : ClockOk e} {M : MallocOk e}.
Context (connection : Z) (args : Arguments) (AOK : args_ok args) (h : hist).

(** The client never runs into undefined behaviour, keeps its window at every moment, and
    ends normally or in the assertion of the report. *)
Lemma domain_client_safe :
  safe e (window connection connection (maxOutstandingBytes args) h) h
    (Client.communicate connection args)
    (fun o _ => o = Val tt \/ o = Halted AssertFailed).
Proof.
  destruct (args_products args AOK) as (Hsz & Hcnt & Hrt & Hmb & Hmo & Hb1 & Hb2).
  unfold Client.communicate. rewrite Hcnt.
  set (m := maxOutstandingBytes args) in *. set (I := window _ _ _ _).
  pose proof (unmoved_here connection connection h) as U.
  pose proof (window_streams connection connection m h) as SI.
  pose proof (stream_inv_kept e _ (unmoved_streams connection connection h)) as SU.
  assert (forall h', unmoved connection connection h h' -> I h') as UI
    by (intros; apply unmoved_window; [lia|done]).
  do 4 (eapply (safe_malloc e I _ UI SU); [unfold u64; try lia; apply Z.mod_pos_bound; done|done|];
    clear U; intros ? ? ? U).
  eapply (safe_setup_benchmarks e I _ UI SU); [done|]. clear U. intros bench h1 U.
  apply safe_bind. eapply safe_conseq.
  { apply (client_loop_safe e (socket_transport connection) connection connection args AOK); [done|].
    apply client_inv_start; [done|done|done|]. apply zlen_cells; [destruct AOK; lia|].
    rewrite H1, u64_small; [done|]. destruct AOK. unfold in_u64, u64_mod. lia. }
  intros [st|x] h2 HI2; [|done]. cbn [returns post]. intros [J _].
  eapply (safe_now e I I); [done|by apply stream_inv_kept|done|done|]. intros t h3 Ht HI3.
  eapply (safe_sys_ e I I); [done|by apply stream_inv_kept|done|done|]. intros h4 HI4.
  eapply safe_conseq; [apply safe_report; [done|done|apply J|apply J|done|]|].
  2: { intros o h5 _ [?|[? _]]; auto. }
  intros h5 HI5.
  apply total_bind. eapply total_conseq; [by apply cleanup_total|].
  intros [[]|] h6 HI6; [|done]. intros _. cbn. apply total_quiet_sys; done.
Qed.

(** The server, against a peer that keeps its window: it never holds more than the window,
    and the only undefined behaviour is in its report: when it was stopped before the first
    byte, or when the message rate does not fit an [int]. *)
Context {PW : PeerWindow e connection connection (maxOutstandingBytes args) h}.

Lemma domain_server_safe :
  safe e (held_ok connection connection (maxOutstandingBytes args) h) h
    (Server.communicate connection args)
    (fun o h' => o = Val tt \/
      o = Halted (Undefined Indeterminate) /\ read_since connection h h' <= 0 \/
      o = Halted (Undefined ConversionOverflow)).
Proof.
  destruct (args_products args AOK) as (Hsz & Hcnt & Hrt & Hmb & Hmo & Hb1 & Hb2).
  unfold Server.communicate. set (I := held_ok _ _ _ _).
  set (V := fun h' => unmoved connection connection h h' /\ extends e h h').
  assert (V h) as U by (split; [apply unmoved_here|constructor]).
  pose proof (held_streams connection connection (maxOutstandingBytes args) h) as SI.
  assert (kept_by e V) as SU by apply kept_extends, stream_inv_kept, unmoved_streams.
  assert (forall h', V h' -> I h') as UI by (intros ? [? _]; apply unmoved_held; [lia|done]).
  do 2 (eapply (safe_malloc e I _ UI SU); [lia|done|]; clear U; intros ? ? ? U).
  destruct U as [U X]. apply safe_bind. eapply safe_conseq.
  { apply (server_loop_safe e (socket_transport connection) connection connection _ _ args AOK).
    1: exact PW. 1: done. apply full_inv_start; [done..|by right]. }
  intros [st|x] h2 HI2; [|done]. cbn [returns post]. intros D.
  apply (safe_server_report e I SI); [done|done|intros Hn; by eapply server_done_bench|].
  intros h5 HI5. by apply cleanup_total.
Qed.
End correctness.

(** C24. [write_to_socket] returns, in both modes: what it sent is a prefix of the buffer, of the
    length it reports, nothing was received, and it stops early only when a [send] failed. *)
Theorem write_to_socket_correct e `{!KernelIO e} h buffer sockfd chunk n nonBlock :
  0 < chunk -> 0 <= n < 2 ^ 63 -> n <= zlen buffer ->
  wp e h (write_to_socket buffer sockfd chunk n nonBlock)
    (returns (write_result sockfd chunk n buffer h)).
Proof.
  intros. by apply (send_requests_result e (fun b => Send sockfd b (socket_flags nonBlock)) sockfd).
Qed.

Lemma write_to_socket_correct_witness :
  wp (feeder 4 []) [] (write_to_socket [1; 2; 3; 4; 5] 5 2 5 false)
    (returns (write_result 5 2 5 [1; 2; 3; 4; 5] [])).
Proof.
  destruct (feeder_ok 4 []) as [? _].
  apply (write_to_socket_correct (feeder 4 [])); [lia|lia|done].
Defined.

(** A server that is told to quit before it has read a byte reports with a start time
    that was never assigned: its structure [bench] is set up by the first read only. *)
Theorem server_interrupted_early e h connection args :
  (forall h', ret (e h' LoadQuit) <> 0) -> args_ok args ->
  wp e h (Server.communicate connection args) (fun o _ => o = Halted (Undefined Indeterminate)).
Proof.
  intros HQ A. destruct (args_products args A) as (Hsz & _).
  unfold Server.communicate, malloc, wp. cbn [bind]. do 2 (apply total_call; [done|]).
  set (st := server_start _ _ _ _). unfold server_loop, while_break.
  apply total_bind, (total_loop e _ (fun st' _ => st' = st) (fun _ => O)); [|done].
  intros ? h1 ->. unfold server_cond. destruct (s_totalBytesWritten st <? s_maxBytes args); cbn [bind].
  - apply total_bind, total_running; [done|done|]. cbn [post].
    rewrite (proj2 (Z.eqb_neq _ _) (HQ h1)). apply total_ret; [done|]. cbn [post].
    unfold server_report. rewrite Hsz. apply total_bind, total_bind, total_div;
      [destruct A; lia|done|]. by apply total_stop.
  - apply total_ret; [done|]. cbn [post].
    unfold server_report. rewrite Hsz. apply total_bind, total_bind, total_div;
      [destruct A; lia|done|]. by apply total_stop.
Qed.

Lemma server_interrupted_early_witness :
  wp (fun _ _ => rret 1) [] (Server.communicate 4 (Args 4096 1000 100))
    (fun o _ => o = Halted (Undefined Indeterminate)).
Proof. apply server_interrupted_early; [done|by split]. Defined.
