(* ===== verification/Tcp.v ===== *)
(** * tcp/: the benchmark over a TCP connection *)

From S2P Require Import Prelude CInt Prog Stream Transfer CDouble Arguments Utility Benchmarks.
From S2P Require Import Times Echo EchoClient EchoServer Samples Signals Sockets Process.

Definition READ_PORT : string := "6969".
Definition HOST : string := "localhost".
Definition TCP_FIFO_PATH : string := "/tmp/tcp_fifo".

(** ** tcp/helper.c *)

Definition open_fifo (path : string) (flag : Z) : prog Z :=
  r <- sys (Open path flag) ;;
  if ret r =? -1 then sys_ (Printf "errno %d\n" [AInt (errno r)]) ;;; Ret (-1)
  else Ret (ret r).

(** The member [error] of the returned structure is never assigned or read. *)
Definition socketMetaData : Type := counts.

Definition socket_flags (nonBlock : bool) : Z := if nonBlock then MSG_DONTWAIT else MSG_WAITALL.

Definition read_from_socket (buffer : list Z) (sockfd chunk numBytesToRead : Z)
    (nonBlock : bool) : prog (list Z * socketMetaData) :=
  receive_requests (fun n => Recv sockfd n (socket_flags nonBlock)) buffer chunk numBytesToRead.

Definition write_to_socket (buffer : list Z) (sockfd chunk numBytesToWrite : Z)
    (nonBlock : bool) : prog socketMetaData :=
  send_requests (fun bytes => Send sockfd bytes (socket_flags nonBlock)) buffer chunk numBytesToWrite.

(** Both programs pass [true]. *)
Definition socket_transport (descriptor : Z) : transport :=
  Transport (fun buffer chunk n => read_from_socket buffer descriptor chunk n true)
            (fun buffer chunk n => write_to_socket buffer descriptor chunk n true).

#[export] Instance socket_transport_ok descriptor :
  TransportOk (socket_transport descriptor) descriptor descriptor.
Proof. exact (call_transport_ok _ _ descriptor descriptor). Qed.

(** ** What tcp/client.c and tcp/server.c both define: [get_server_information] and
    [setup_socket] *)

(** The text of [gai_strerror] belongs to the C library; the format stands for the message. *)
Definition resolve_server : prog (list addrinfo) :=
  r <- sys (Getaddrinfo HOST READ_PORT AF_UNSPEC SOCK_STREAM) ;;
  if negb (ret r =? 0) then
    sys_ (Fputs "getaddrinfo failed: %s\n") ;;;
    exit EXIT_FAILURE
  else Ret (addrs r).

Definition configure_socket (socket_descriptor : Z) : prog unit :=
  set_socket_both_buffer_sizes socket_descriptor ;;;
  r <- set_io_flag socket_descriptor O_NONBLOCK ;;
  when (r =? -1) (throw "Error setting socket to non-blocking on client-side").

(** ** tcp/client.c *)

Module Client.

Definition quit_signal_handler : prog unit := Echo.quit_signal_handler.
Definition cleanup : Z -> prog unit := Echo.cleanup.
Definition checkPoll : list pollfd -> nat -> Z -> prog (list pollfd * bool) := Echo.checkPoll.
Definition updateWriteTimes : Z -> list Z -> Z -> Z -> Z -> prog (list Z) := Times.updateWriteTimes.
Definition updateReadWriteTimes : Z -> list Z -> Z -> Z -> Z -> prog (list Z) :=
  Times.updateReadWriteTimes.
Definition get_server_information : prog (list addrinfo) := resolve_server.
Definition setup_socket : Z -> prog unit := configure_socket.

(** The loop over the list; [socket_descriptor] is indeterminate until it is assigned. *)
Fixpoint get_address_from (socket_descriptor : option Z) (iterator : list addrinfo) : prog Z :=
  match iterator with
  | [] =>
      match socket_descriptor with
      | None => undefined Indeterminate
      | Some fd => sys_ (Close fd) ;;; Ret (-1)
      end
  | a :: iterator =>
      fd <- sysret (Socket (ai_family a) (ai_socktype a) (ai_protocol a)) ;;
      if fd =? -1 then get_address_from (Some fd) iterator
      else
        return_code <- sysret (Connect fd (ai_addr a) (ai_addrlen a)) ;;
        if return_code =? -1 then sys_ (Close fd) ;;; Ret (-1)
        else Ret fd
  end.

Definition get_address (server_info : list addrinfo) : prog Z := get_address_from None server_info.

Definition create_socket : prog Z :=
  server_info <- get_server_information ;;
  socket_descriptor <- get_address server_info ;;
  if socket_descriptor =? 1 then Ret (-1)
  else
    setup_socket socket_descriptor ;;;
    sys_ Freeaddrinfo ;;;
    Ret socket_descriptor.

Definition communicate (descriptor : Z) (args : Arguments) : prog unit :=
  let bufferSize := maxOutstandingBytes args in
  readBuffer <- malloc bufferSize ;;
  writeBuffer <- malloc bufferSize ;;
  times <- malloc (u64 (8 * u64 (count args))) ;;
  block <- malloc 8 ;;
  let pfds := [Pollfd descriptor (Z.lor POLLIN POLLOUT) (raw_revents block 0)] in
  bench <- setup_benchmarks None ;;
  st <- client_loop (socket_transport descriptor) args writeBuffer 1 0
          (client_start readBuffer (cells times) pfds) ;;
  t <- now ;;
  let elaspedTime := u64 (t - total_start bench) in
  let args := clip_count args st in
  sys_ (Printf "Total duration:     %lld\n" [AInt (elaspedTime / 1000)]) ;;;
  evaluateClient (c_times st) args ;;;
  cleanup descriptor.

(** [argc] is the length of [argv]. *)
Definition main (argv : list string) : prog Z :=
  sys_ Setvbuf ;;;
  r <- sysret (SchedSetaffinity [1]) ;;
  when (r =? -1) (sys_ (Perror "sched_setaffinity") ;;; exit 1) ;;;
  buffer <- malloc 1 ;;
  args <- parse_arguments argv ;;
  setup_client_signals ;;;
  tcpFifo <- open_fifo TCP_FIFO_PATH O_RDWR ;;
  r <- sys (Read tcpFifo 1) ;;
  (if 0 <? ret r then store_bytes buffer 0 (data r) else Ret buffer) ;;;
  when (ret r <=? 0) (throw "bad read") ;;;
  socketDescriptor <- retry create_socket ;;
  ok <- install_quit_handlers ;;
  if negb ok then Ret EXIT_FAILURE
  else communicate socketDescriptor args ;;; Ret EXIT_SUCCESS.

End Client.

(** ** tcp/server.c *)

Module Server.

Definition quit_signal_handler : prog unit := Echo.quit_signal_handler.
Definition cleanup : Z -> prog unit := Echo.cleanup.
Definition checkPoll : list pollfd -> nat -> Z -> prog (list pollfd * bool) := Echo.checkPoll.
Definition get_server_information : prog (list addrinfo) := resolve_server.
Definition setup_socket : Z -> prog unit := configure_socket.

Definition handle_blocking (socket_descriptor : Z) : prog unit :=
  return_code <- sysret (Setsockopt socket_descriptor SOL_SOCKET SO_REUSEADDR [1]) ;;
  when (return_code =? -1) (throw "Error reclaiming socket").

(** The valid address and the descriptor, which the caller only uses when there is one. *)
Fixpoint get_address (server_info : list addrinfo) : prog (option (addrinfo * Z)) :=
  match server_info with
  | [] => Ret None
  | a :: server_info =>
      fd <- sysret (Socket (ai_family a) (ai_socktype a) (ai_protocol a)) ;;
      if fd =? -1 then get_address server_info
      else
        handle_blocking fd ;;;
        return_code <- sysret (Bind fd (ai_addr a) (ai_addrlen a)) ;;
        when (return_code =? 1) (sys_ (Close fd)) ;;;
        Ret (Some (a, fd))
  end.

Definition create_socket : prog Z :=
  server_info <- get_server_information ;;
  valid_address <- get_address server_info ;;
  sys_ Freeaddrinfo ;;;
  match valid_address with
  | None => Ret (-1)
  | Some (_, socket_descriptor) =>
      r <- sysret (Listen socket_descriptor 10) ;;
      if r =? 1 then Ret (-1) else Ret socket_descriptor
  end.

Definition accept_communication (socket_descriptor : Z) : prog Z :=
  connection <- sysret (Accept socket_descriptor) ;;
  if connection =? -1 then Ret (-1)
  else
    setup_socket connection ;;;
    Ret connection.

(** Every non-empty read makes the server care about writing. *)
Definition poll_for_output (st : server) : prog server :=
  Ret (EchoServer.Server (s_readBuffer st)
    (alter (fun p => Pollfd (pfd p) (Z.lor POLLIN POLLOUT) (revents p)) 0%nat (s_pfds st))
    (s_sizeToPoll st) (s_bench st) (s_firstRead st) (s_endTime st) (s_outstandingBytes st)
    (s_totalBytesRead st) (s_totalBytesWritten st)).

(** There is no [firstRead]; the clock starts before the loop. *)
Definition communicate (descriptor : Z) (args : Arguments) : prog unit :=
  readBuffer <- malloc (maxOutstandingBytes args) ;;
  bench <- setup_benchmarks None ;;
  block <- malloc 8 ;;
  let pfds := [Pollfd descriptor POLLIN (raw_revents block 0)] in
  st <- server_loop (socket_transport descriptor) poll_for_output args 0
          (server_start readBuffer pfds (Some bench) false) ;;
  server_report args st ;;;
  cleanup descriptor ;;;
  sys_ (Printf "closed\n" []).

Definition main (argv : list string) : prog Z :=
  sys_ Setvbuf ;;;
  r <- sysret (SchedSetaffinity [0]) ;;
  when (r =? -1) (sys_ (Perror "sched_setaffinity") ;;; exit 1) ;;;
  buffer <- malloc 1 ;;
  args <- parse_arguments argv ;;
  setup_server_signals ;;;
  socket_descriptor <- retry create_socket ;;
  tcpFifo <- open_fifo TCP_FIFO_PATH O_RDWR ;;
  byte <- load_bytes buffer 0 1 ;;
  w <- sysret (Write tcpFifo byte) ;;
  when (w <=? 0) (throw "badWrite") ;;;
  connection <- retry (accept_communication socket_descriptor) ;;
  sys_ (Close socket_descriptor) ;;;
  ok <- install_quit_handlers ;;
  if negb ok then Ret EXIT_FAILURE
  else communicate connection args ;;; Ret EXIT_SUCCESS.

End Server.

(** ** tcp/tcp.c *)

Definition makeFifo (path : string) : prog Z :=
  sys_ (Remove path) ;;;
  fd <- sysret (Mkfifo path 438) ;;
  if 0 <? fd then Ret (-1) else Ret fd.

Definition main (file : list Z) (argv : list string) : prog Z :=
  makeFifo TCP_FIFO_PATH ;;;
  setup_parent file "tcp" argv ;;;
  Ret 0.

(** ** Correctness *)

#[export] Instance poll_for_output_ok e :
  OnRead e Server.poll_for_output (fun bench _ => bench <> None).
Proof.
  split. intros J h st HJ Hh. apply total_ret; [done|]. cbn.
  split_and!; [done..| |by exists []]. done.
Qed.

Section correctness.
Context (e : env) {K : KernelIO e} {C : ClockOk e} {M : MallocOk e}.
Context (descriptor : Z) (args : Arguments) (AOK : args_ok args) (h : hist).

Lemma tcp_client_safe :
  safe e (window descriptor descriptor (maxOutstandingBytes args) h) h
    (Client.communicate descriptor args)
    (fun o _ => o = Val tt \/ o = Halted AssertFailed).
Proof.
  destruct (args_products args AOK) as (Hsz & Hcnt & Hrt & Hmb & Hmo & Hb1 & Hb2).
  unfold Client.communicate. rewrite Hcnt. set (I := window _ _ _ _).
  pose proof (unmoved_here descriptor descriptor h) as U.
  pose proof (window_streams descriptor descriptor (maxOutstandingBytes args) h) as SI.
  pose proof (stream_inv_kept e _ (unmoved_streams descriptor descriptor h)) as SU.
  assert (forall h', unmoved descriptor descriptor h h' -> I h') as UI
    by (intros; apply unmoved_window; [lia|done]).
  do 4 (eapply (safe_malloc e I _ UI SU); [unfold u64; try lia; apply Z.mod_pos_bound; done|done|];
    clear U; intros ? ? ? U).
  eapply (safe_setup_benchmarks e I _ UI SU); [done|]. clear U. intros bench h1 U.
  apply safe_bind. eapply safe_conseq.
  { apply (client_loop_safe e (socket_transport descriptor) descriptor descriptor args AOK); [done|].
    apply client_inv_start; [done|done|done|]. apply zlen_cells; [destruct AOK; lia|].
    rewrite H1, u64_small; [done|]. destruct AOK. unfold in_u64, u64_mod. lia. }
  intros [st|x] h2 HI2; [|done]. cbn [returns post]. intros [J _].
  eapply (safe_now e I I); [done|by apply stream_inv_kept|done|done|]. intros t h3 _ HI3.
  eapply (safe_sys_ e I I); [done|by apply stream_inv_kept|done|done|]. intros h4 HI4.
  eapply safe_conseq; [apply safe_report; [done|done|apply J|apply J|done|]|].
  2: { intros o h5 _ [?|[? _]]; auto. }
  intros h5 HI5. by apply cleanup_total.
Qed.

(** The clock is started before the loop, so only the message rate can be undefined. *)
Lemma tcp_server_safe
    {PW : PeerWindow e descriptor descriptor (maxOutstandingBytes args) h} :
  safe e (held_ok descriptor descriptor (maxOutstandingBytes args) h) h
    (Server.communicate descriptor args)
    (fun o h' => o = Val tt \/ o = Halted (Undefined ConversionOverflow)).
Proof.
  destruct (args_products args AOK) as (Hsz & Hcnt & Hrt & Hmb & Hmo & Hb1 & Hb2).
  unfold Server.communicate. set (I := held_ok _ _ _ _).
  set (V := fun h' => unmoved descriptor descriptor h h' /\ extends e h h').
  assert (V h) as U by (split; [apply unmoved_here|constructor]).
  pose proof (held_streams descriptor descriptor (maxOutstandingBytes args) h) as SI.
  assert (kept_by e V) as SU by apply kept_extends, stream_inv_kept, unmoved_streams.
  assert (forall h', V h' -> I h') as UI by (intros ? [? _]; apply unmoved_held; [lia|done]).
  eapply (safe_malloc e I _ UI SU); [lia|done|]; clear U; intros rb ? Hrb U.
  eapply (safe_setup_benchmarks e I _ UI SU); [done|]. clear U. intros bench h1 U.
  eapply (safe_malloc e I _ UI SU); [lia|done|]; clear U; intros ? ? ? U.
  destruct U as [U X]. apply safe_bind. eapply safe_conseq.
  { apply (server_loop_safe e (socket_transport descriptor) descriptor descriptor _ _ args AOK).
    1: exact PW. 1: done. by apply full_inv_start. }
  intros [st|x] h2 HI2; [|done]. cbn [returns post]. intros [[J [B _]] _].
  apply safe_bind, total_safe. eapply total_conseq; [by apply (server_report_total e I SI)|].
  intros o h3 HI3 [[-> _]|[[-> Hn]| ->]]; [|done|by right]. cbn [post].
  apply total_safe, total_bind. eapply total_conseq; [by apply cleanup_total|].
  intros [[]|] h4 HI4; [|done]. intros _. cbn. apply total_quiet_sys; [done..|]. by left.
Qed.
End correctness.

(** C23. [read_from_socket] returns, in both modes: the bytes it received are at the front of the
    buffer, in order, the rest of the buffer is untouched, nothing was sent, the returned
    structure is the division of their number by the request size, and it stops early only
    when a [recv] failed or found nothing. *)
Theorem read_from_socket_correct e `{!KernelIO e} h buffer sockfd chunk n nonBlock :
  0 < chunk -> 0 <= n < 2 ^ 63 -> n <= zlen buffer ->
  wp e h (read_from_socket buffer sockfd chunk n nonBlock)
    (returns (read_result sockfd chunk n buffer h)).
Proof.
  intros.
  by apply (receive_requests_result e (fun m => Recv sockfd m (socket_flags nonBlock)) sockfd).
Qed.

Lemma read_from_socket_correct_witness :
  wp (feeder 4 [1; 2; 3]) [] (read_from_socket [0; 0; 0; 0] 4 2 4 true)
    (returns (read_result 4 2 4 [0; 0; 0; 0] [])).
Proof.
  destruct (feeder_ok 4 [1; 2; 3]) as [? _].
  apply (read_from_socket_correct (feeder 4 [1; 2; 3])); [lia|lia|done].
Defined.

(** ** The error paths of the sockets *)

(** Every descriptor the kernel returns is one of a client that has its standard streams. *)
Class SocketsOk (e : env) : Prop := {
  socket_ok h f t p : ret (e h (Socket f t p)) = -1 \/ 2 < ret (e h (Socket f t p))
}.

Lemma get_address_total e `{!SocketsOk e} h sd l :
  l <> [] \/ sd <> None ->
  wp e h (Client.get_address_from sd l) (returns (fun fd _ => fd = -1 \/ 2 < fd)).
Proof.
  revert h sd. induction l as [|a l IH]; intros h sd Hl; cbn [Client.get_address_from].
  - destruct sd as [fd|]; [|by destruct Hl]. unfold sys_. cbn [bind].
    unfold wp. apply total_call; [done|]. apply total_ret; [done|]. by left.
  - unfold sysret, wp. cbn [bind]. apply total_call; [done|].
    destruct (socket_ok (e := e) h (ai_family a) (ai_socktype a) (ai_protocol a)) as [Hs|Hs];
      set (fd := ret _) in *.
    + rewrite Hs. apply IH. by right.
    + destruct (Z.eqb_spec fd (-1)); [lia|]. apply total_call; [done|]. case_test.
      * unfold sys_. cbn [bind]. apply total_call; [done|]. apply total_ret; [done|]. by left.
      * apply total_ret; [done|]. by right.
Qed.

(** [create_socket] of the client never asks its caller to try again: it tests the
    descriptor against 1 and not -1, so a failed connection is passed on to [setup_socket],
    which exits with a failure when the kernel refuses the invalid descriptor. The retry
    loop of [main] runs once. *)
Theorem client_never_retries e `{!SocketsOk e} h :
  (forall h' lv o v, ret (e h' (Setsockopt (-1) lv o v)) = -1) ->
  (forall h', addrs (e h' (Getaddrinfo HOST READ_PORT AF_UNSPEC SOCK_STREAM)) <> []) ->
  wp e h Client.create_socket (fun o _ =>
    o = Halted (Exited EXIT_FAILURE) \/ exists fd, o = Val fd /\ 2 < fd).
Proof.
  intros Hbad Haddr. unfold Client.create_socket, Client.get_server_information, resolve_server.
  unfold sys, wp. cbn [bind]. apply total_call; [done|]. set (r := e h _).
  assert (addrs r <> []) as Hr by apply Haddr. clearbody r. destruct (ret r =? 0); cbn [negb bind].
  2: { unfold sys_. cbn [bind]. apply total_call; [done|]. apply total_stop; [done|by left]. }
  apply total_bind. eapply total_conseq; [apply (get_address_total e); by left|].
  intros [fd|x] h1 _; [|done]. cbn [returns post]. intros Hfd.
  destruct (Z.eqb_spec fd 1); [lia|]. destruct Hfd as [->|Hfd].
  - unfold Client.setup_socket, configure_socket, set_socket_both_buffer_sizes,
      set_socket_buffer_size, sysret. cbn [bind]. apply total_call; [done|]. rewrite Hbad. cbn [bind].
    unfold throw, sys_. cbn [bind]. apply total_call; [done|]. apply total_stop; [done|by left].
  - apply total_bind. eapply total_conseq.
    { apply (may_exit_bind e (set_socket_both_buffer_sizes fd)); [auto with cbench|].
      intros _. unfold when. auto 10 with cbench. }
    intros [[]|x] h2 _; cbn [post]; [intros _|intros ->; by left].
    unfold sys_. cbn [bind]. apply total_call; [done|]. apply total_ret; [done|]. right; eauto.
Qed.

(** A kernel that finds an address, gives descriptor 3 and refuses the connection. *)
Definition refusing : env := fun _ c =>
  match c with
  | Getaddrinfo _ _ _ _ => Resp 0 0 [] EmptyString [Addrinfo 2 1 6 [] 16]
  | Socket _ _ _ => rret 3
  | Connect _ _ _ => rret (-1)
  | Setsockopt fd _ _ _ => rret (if fd =? -1 then -1 else 0)
  | _ => rret 0
  end.

Lemma client_never_retries_witness :
  wp refusing [] Client.create_socket (fun o _ =>
    o = Halted (Exited EXIT_FAILURE) \/ exists fd, o = Val fd /\ 2 < fd).
Proof.
  assert (SocketsOk refusing) by (split; intros; right; cbn; lia).
  apply (client_never_retries refusing); done.
Defined.

(** [create_socket] of the server ignores a failure of [bind] and of [listen], which report
    -1, because it tests for 1: it returns the descriptor of a socket that is neither bound
    nor listening. *)
Theorem server_ignores_bind_failure e h a l fd :
  (forall h', let r := e h' (Getaddrinfo HOST READ_PORT AF_UNSPEC SOCK_STREAM) in
    ret r = 0 /\ addrs r = a :: l) ->
  (forall h', ret (e h' (Socket (ai_family a) (ai_socktype a) (ai_protocol a))) = fd) ->
  fd <> -1 ->
  (forall h', ret (e h' (Setsockopt fd SOL_SOCKET SO_REUSEADDR [1])) = 0) ->
  (forall h', ret (e h' (Bind fd (ai_addr a) (ai_addrlen a))) = -1) ->
  (forall h', ret (e h' (Listen fd 10)) = -1) ->
  wp e h Server.create_socket (fun o _ => o = Val fd).
Proof.
  intros Hg Hs Hfd Ho Hb Hl.
  unfold Server.create_socket, Server.get_server_information, resolve_server, sys, wp.
  cbn [bind]. apply total_call; [done|]. destruct (Hg h) as [Hr Ha]. rewrite Hr, Ha. cbn.
  apply total_call; [done|]. rewrite Hs, (proj2 (Z.eqb_neq _ _) Hfd). cbn.
  apply total_call; [done|]. rewrite Ho. cbn. apply total_call; [done|]. rewrite Hb. cbn.
  do 2 (apply total_call; [done|]). rewrite Hl. by apply total_ret.
Qed.

Lemma server_ignores_bind_failure_witness :
  wp (fun _ c => match c with
      | Getaddrinfo _ _ _ _ => Resp 0 0 [] EmptyString [Addrinfo 2 1 6 [] 16]
      | Socket _ _ _ => rret 3
      | Bind _ _ _ | Listen _ _ => rret (-1)
      | _ => rret 0
      end) [] Server.create_socket (fun o _ => o = Val 3).
Proof. by apply (server_ignores_bind_failure _ [] (Addrinfo 2 1 6 [] 16) [] 3). Defined.
