(* ===== verification/Fifo.v ===== *)
(** * fifo/: the benchmark over two named pipes *)

From S2P Require Import Prelude CInt Prog Stream Transfer CDouble Arguments Utility Benchmarks.
From S2P Require Import Times Echo EchoClient EchoServer Samples Signals Process.

Definition REQUEST : string := "/tmp/ipc_bench_fifo_req".
Definition RESPONSE : string := "/tmp/ipc_bench_fifo_res".

(** ** fifo/helper.c *)

Definition pipeMetaData : Type := counts.

Definition read_from_pipe (buffer : list Z) (stream chunk numBytesToRead : Z) :
    prog (list Z * pipeMetaData) :=
  receive_requests (Read stream) buffer chunk numBytesToRead.

Definition write_to_pipe (buffer : list Z) (stream chunk numBytesToWrite : Z) :
    prog pipeMetaData :=
  send_requests (Write stream) buffer chunk numBytesToWrite.

Definition MAX_PIPE_SIZE : Z := 104856.

(** Not called. *)
Definition maxPipeSize (args : Arguments) : prog Z :=
  messageSize <- add_i32 8 (size args) ;;
  pipeSize <- mul_i32 messageSize (count args) ;;
  if pipeSize <? MAX_PIPE_SIZE then Ret pipeSize else Ret MAX_PIPE_SIZE.

Definition pipe_transport (readStream writeStream : Z) : transport :=
  Transport (fun buffer chunk n => read_from_pipe buffer readStream chunk n)
            (fun buffer chunk n => write_to_pipe buffer writeStream chunk n).

#[export] Instance pipe_transport_ok readStream writeStream :
  TransportOk (pipe_transport readStream writeStream) readStream writeStream.
Proof. exact (call_transport_ok _ _ readStream writeStream). Qed.

(** [open_fifo] of the client and of the server, which ask for different capacities; the
    argument [signal_action] is not used. *)
Definition open_sized (capacity : Z) (path : string) (flag : Z) : prog Z :=
  r <- sys (Open path flag) ;;
  if ret r =? -1 then sys_ (Printf "errno %d\n" [AInt (errno r)]) ;;; Ret (-1)
  else
    result <- sys (Fcntl (ret r) F_SETPIPE_SZ capacity) ;;
    if ret result =? -1 then sys_ (Printf "errno %d\n" [AInt (errno result)]) ;;; Ret (-1)
    else Ret (ret r).

(** The two entries of [pfds]; before the first poll their [revents] are those of the block. *)
Definition two_pollfds (readStream writeStream : Z) (block : list Z) : list pollfd :=
  [Pollfd readStream POLLIN (raw_revents block 0);
   Pollfd writeStream POLLOUT (raw_revents block 1)].

(** ** fifo/client.c *)

Module Client.

Definition quit_signal_handler : prog unit := Echo.quit_signal_handler.
Definition cleanup : Z -> prog unit := Echo.cleanup.
Definition checkPoll : list pollfd -> nat -> Z -> prog (list pollfd * bool) := Echo.checkPoll.
Definition updateWriteTimes : Z -> list Z -> Z -> Z -> Z -> prog (list Z) := Times.updateWriteTimes.
Definition updateReadWriteTimes : Z -> list Z -> Z -> Z -> Z -> prog (list Z) :=
  Times.updateReadWriteTimes.
Definition open_fifo : string -> Z -> prog Z := open_sized 102400.

(** [bench.total_start] is assigned twice and not read. *)
Definition communicate (readStream writeStream : Z) (args : Arguments) : prog unit :=
  let bufferSize := maxOutstandingBytes args in
  readBuffer <- malloc bufferSize ;;
  writeBuffer <- malloc bufferSize ;;
  times <- malloc (u64 (8 * u64 (count args))) ;;
  block <- malloc 16 ;;
  let pfds := two_pollfds readStream writeStream block in
  bench <- setup_benchmarks None ;;
  total_start <- now ;;
  st <- client_loop (pipe_transport readStream writeStream) args writeBuffer 2 1
          (client_start readBuffer (cells times) pfds) ;;
  let args := clip_count args st in
  evaluateClient (c_times st) args ;;;
  cleanup readStream ;;;
  cleanup writeStream.

(** [argc] is the length of [argv]. *)
Definition main (argv : list string) : prog Z :=
  sys_ Setvbuf ;;;
  r <- sysret (SchedSetaffinity [3]) ;;
  if r =? -1 then Ret EXIT_FAILURE
  else
    setup_client_signals ;;;
    args <- parse_arguments argv ;;
    clientReadStream <- open_fifo RESPONSE O_RDONLY ;;
    if clientReadStream =? -1 then
      sys_ Fflush ;;;
      sys_ (Printf "%d\n" [AInt clientReadStream]) ;;;
      Ret EXIT_FAILURE
    else
      clientWriteStream <- open_fifo REQUEST O_WRONLY ;;
      if clientWriteStream =? -1 then sys_ Fflush ;;; Ret EXIT_FAILURE
      else
        ok <- install_quit_handlers ;;
        if negb ok then Ret EXIT_FAILURE
        else communicate clientReadStream clientWriteStream args ;;; Ret EXIT_SUCCESS.

End Client.

(** ** fifo/server.c *)

Module Server.

Definition quit_signal_handler : prog unit := Echo.quit_signal_handler.
Definition cleanup : Z -> prog unit := Echo.cleanup.
Definition checkPoll : list pollfd -> nat -> Z -> prog (list pollfd * bool) := Echo.checkPoll.
Definition open_fifo : string -> Z -> prog Z := open_sized 1048576.

(** The block under [if (firstRead)]: from then on both entries are polled. *)
Definition on_first_read (st : server) : prog server :=
  if s_firstRead st then
    bench <- setup_benchmarks None ;;
    Ret (EchoServer.Server (s_readBuffer st) (s_pfds st) 2 (Some bench) false (s_endTime st)
      (s_outstandingBytes st) (s_totalBytesRead st) (s_totalBytesWritten st))
  else Ret st.

Definition communicate (readStream writeStream : Z) (args : Arguments) : prog unit :=
  readBuffer <- malloc (maxOutstandingBytes args) ;;
  block <- malloc 16 ;;
  let pfds := two_pollfds readStream writeStream block in
  st <- server_loop (pipe_transport readStream writeStream) on_first_read args 1
          (server_start readBuffer pfds None true) ;;
  cleanup readStream ;;;
  cleanup writeStream ;;;
  server_report args st.

Definition main (argv : list string) : prog Z :=
  sys_ Setvbuf ;;;
  r <- sysret (SchedSetaffinity [5]) ;;
  if r =? -1 then Ret EXIT_FAILURE
  else
    setup_server_signals ;;;
    args <- parse_arguments argv ;;
    clientWriteStream <- open_fifo RESPONSE O_WRONLY ;;
    if clientWriteStream =? -1 then sys_ Fflush ;;; Ret EXIT_FAILURE
    else
      clientReadStream <- open_fifo REQUEST O_RDONLY ;;
      if clientReadStream =? -1 then sys_ Fflush ;;; Ret EXIT_FAILURE
      else
        ok <- install_quit_handlers ;;
        if negb ok then Ret EXIT_FAILURE
        else communicate clientReadStream clientWriteStream args ;;; Ret EXIT_SUCCESS.

End Server.

(** ** fifo/fifo.c *)

Definition makeFifo (path : string) : prog Z :=
  sys_ (Remove path) ;;;
  r <- sys (Mkfifo path 438) ;;
  if 0 <? ret r then sys_ (Printf "errno %d\n" [AInt (errno r)]) ;;; Ret (-1)
  else Ret (ret r).

Definition main (file : list Z) (argv : list string) : prog Z :=
  makeFifo REQUEST ;;;
  makeFifo RESPONSE ;;;
  setup_parent file "fifo" argv ;;;
  Ret 0.

(** ** Correctness *)

#[export] Instance on_first_read_ok e `{!ClockOk e} : OnRead e Server.on_first_read
  (fun bench firstRead => bench <> None \/ firstRead = true).
Proof.
  split. intros J h st HJ Hh. unfold Server.on_first_read. destruct (s_firstRead st) eqn:F.
  - unfold setup_benchmarks. apply total_bind, total_bind, (total_now e); [done|by apply HJ|].
    intros t _. cbn [post]. apply total_ret; [by apply HJ|]. cbn [post].
    apply total_ret; [by apply HJ|]. cbn. split_and!; [done..|by intros _; split; [left|]|].
    exists [(TimespecGet, e h TimespecGet)]. split; [done|by repeat constructor].
  - apply total_ret; [done|]. cbn. split_and!; [done..| |by exists []].
    rewrite F. intros [?|?]; [split; [by left|done]|done].
Qed.

Section correctness.
Context (e : env) {K : KernelIO e} {C : ClockOk e} {M : MallocOk e}.
Context (rfd wfd : Z) (args : Arguments) (AOK : args_ok args) (h : hist).

Lemma fifo_client_safe :
  safe e (window rfd wfd (maxOutstandingBytes args) h) h (Client.communicate rfd wfd args)
    (fun o _ => o = Val tt \/ o = Halted AssertFailed).
Proof.
  destruct (args_products args AOK) as (Hsz & Hcnt & Hrt & Hmb & Hmo & Hb1 & Hb2).
  unfold Client.communicate. rewrite Hcnt. set (I := window _ _ _ _).
  pose proof (unmoved_here rfd wfd h) as U.
  pose proof (window_streams rfd wfd (maxOutstandingBytes args) h) as SI.
  pose proof (stream_inv_kept e _ (unmoved_streams rfd wfd h)) as SU.
  assert (forall h', unmoved rfd wfd h h' -> I h') as UI
    by (intros; apply unmoved_window; [lia|done]).
  do 4 (eapply (safe_malloc e I _ UI SU); [unfold u64; try lia; apply Z.mod_pos_bound; done|done|];
    clear U; intros ? ? ? U).
  eapply (safe_setup_benchmarks e I _ UI SU); [done|]. clear U. intros bench h1 U.
  eapply (safe_now e I _ UI SU); [done|]. clear U. intros t h2 _ U.
  apply safe_bind. eapply safe_conseq.
  { apply (client_loop_safe e (pipe_transport rfd wfd) rfd wfd args AOK); [done|].
    apply client_inv_start; [done|done|done|]. apply zlen_cells; [destruct AOK; lia|].
    rewrite H1, u64_small; [done|]. destruct AOK. unfold in_u64, u64_mod. lia. }
  intros [st|x] h3 HI3; [|done]. cbn [returns post]. intros [J _].
  eapply safe_conseq; [apply safe_report; [done|done|apply J|apply J|done|]|].
  2: { intros o h5 _ [?|[? _]]; auto. }
  intros h5 HI5. apply total_bind. eapply total_conseq; [by apply cleanup_total|].
  intros [[]|] h6 HI6; [|done]. intros _. by apply cleanup_total.
Qed.

Lemma fifo_server_safe {PW : PeerWindow e rfd wfd (maxOutstandingBytes args) h} :
  safe e (held_ok rfd wfd (maxOutstandingBytes args) h) h (Server.communicate rfd wfd args)
    (fun o h' => o = Val tt \/
      o = Halted (Undefined Indeterminate) /\ read_since rfd h h' <= 0 \/
      o = Halted (Undefined ConversionOverflow)).
Proof.
  destruct (args_products args AOK) as (Hsz & Hcnt & Hrt & Hmb & Hmo & Hb1 & Hb2).
  unfold Server.communicate. set (I := held_ok _ _ _ _).
  set (V := fun h' => unmoved rfd wfd h h' /\ extends e h h').
  assert (V h) as U by (split; [apply unmoved_here|constructor]).
  pose proof (held_streams rfd wfd (maxOutstandingBytes args) h) as SI.
  assert (kept_by e V) as SU by apply kept_extends, stream_inv_kept, unmoved_streams.
  assert (forall h', V h' -> I h') as UI by (intros ? [? _]; apply unmoved_held; [lia|done]).
  do 2 (eapply (safe_malloc e I _ UI SU); [lia|done|]; clear U; intros ? ? ? U).
  destruct U as [U X]. apply safe_bind. eapply safe_conseq.
  { apply (server_loop_safe e (pipe_transport rfd wfd) rfd wfd _ _ args AOK).
    1: exact PW. 1: done. apply full_inv_start; [done..|by right]. }
  intros [st|x] h2 HI2; [|done]. cbn [returns post]. intros D.
  assert (s_bench st = None -> read_since rfd h h2 <= 0) as Hb
    by (intros Hn; by eapply server_done_bench).
  set (I' := fun h' => I h' /\ (s_bench st = None -> read_since rfd h h' <= 0)).
  assert (stream_inv I') as SI'.
  { intros c r h3 Hq [H3 H4]. split; [by apply SI|]. by rewrite read_since_quiet. }
  apply (safe_weaken e I I'); [by intros ? []|]. apply total_safe.
  apply total_bind. eapply total_conseq; [by apply (cleanup_total e I')|].
  intros [[]|] h3 HI3; [|done]. intros _. cbn [post].
  apply total_bind. eapply total_conseq; [by apply (cleanup_total e I')|].
  intros [[]|] h4 HI4; [|done]. intros _. cbn [post].
  eapply total_conseq; [by apply (server_report_total e I' SI')|].
  intros o h5 [HI5 Hr5] [[-> _]|[[-> Hn]| ->]]; [by left| |by right; right].
  right; left. split; [done|]. by apply Hr5.
Qed.
End correctness.

(** C21. [read_from_pipe] returns, whatever the kernel answers: the bytes it received are at the
    front of the buffer, in order, the rest of the buffer is untouched, nothing was sent, the
    returned structure is the division of their number by the request size, and it stops
    early only when a [read] failed or found nothing. *)
Theorem read_from_pipe_correct e `{!KernelIO e} h buffer stream chunk n :
  0 < chunk -> 0 <= n < 2 ^ 63 -> n <= zlen buffer ->
  wp e h (read_from_pipe buffer stream chunk n)
    (returns (read_result stream chunk n buffer h)).
Proof. intros. by apply (receive_requests_result e (Read stream) stream). Qed.

Lemma read_from_pipe_correct_witness :
  wp (feeder 4 [1; 2; 3]) [] (read_from_pipe [0; 0; 0; 0] 4 2 4)
    (returns (read_result 4 2 4 [0; 0; 0; 0] [])).
Proof.
  destruct (feeder_ok 4 [1; 2; 3]) as [? _]. apply (read_from_pipe_correct (feeder 4 [1; 2; 3])); [lia|lia|done].
Defined.

(** C22. [write_to_pipe] returns: what it sent is a prefix of the buffer, of the length it
    reports, nothing was received, and it stops early only when a [write] failed. *)
Theorem write_to_pipe_correct e `{!KernelIO e} h buffer stream chunk n :
  0 < chunk -> 0 <= n < 2 ^ 63 -> n <= zlen buffer ->
  wp e h (write_to_pipe buffer stream chunk n)
    (returns (write_result stream chunk n buffer h)).
Proof. intros. by apply (send_requests_result e (Write stream) stream). Qed.

Lemma write_to_pipe_correct_witness :
  wp (feeder 4 []) [] (write_to_pipe [1; 2; 3; 4; 5] 5 2 5)
    (returns (write_result 5 2 5 [1; 2; 3; 4; 5] [])).
Proof.
  destruct (feeder_ok 4 []) as [? _]. apply (write_to_pipe_correct (feeder 4 [])); [lia|lia|done].
Defined.

(** With [-s 0] the server divides by zero in its report, whatever the kernel answers:
    its loop ends at once and the number of bytes is divided by the request size. *)
Theorem server_size_zero e h rs ws args :
  size args = 0 ->
  wp e h (Server.communicate rs ws args) (fun o _ => o = Halted (Undefined DivByZero)).
Proof.
  intros Hs. unfold Server.communicate, malloc, wp. cbn [bind].
  do 2 (apply total_call; [done|]). apply total_bind, server_loop_skip; [|done|].
  { unfold s_maxBytes, reqSize. by rewrite Hs. }
  cbn [post]. unfold Server.cleanup, cleanup, sysret. cbn [bind].
  apply total_call; [done|]. case_test; cbn [bind]; (apply total_call; [done|]);
    case_test; cbn [bind]; unfold server_report, reqSize; rewrite Hs; by apply total_stop.
Qed.

Lemma server_size_zero_witness :
  wp (feeder 4 []) [] (Server.communicate 4 5 (Args 0 1 1))
    (fun o _ => o = Halted (Undefined DivByZero)).
Proof. by apply server_size_zero. Defined.

(** [maxPipeSize] is the size of all messages, with eight bytes more each, capped by
    the constant, when the product is an [int]; otherwise the multiplication overflows. *)
Theorem maxPipeSize_correct e h args :
  0 <= size args < 2 ^ 31 - 8 -> 0 <= count args < 2 ^ 31 ->
  eval e h (maxPipeSize args)
    (if (8 + size args) * count args <? 2 ^ 31
     then Val (Z.min ((8 + size args) * count args) MAX_PIPE_SIZE)
     else Halted (Undefined SignedOverflow)) h.
Proof.
  intros Hs Hc. unfold maxPipeSize, add_i32, mul_i32.
  assert (in_i32b (8 + size args) = true) as -> by (apply in_i32b_spec; unfold in_i32; lia).
  cbn [bind]. assert (0 <= (8 + size args) * count args) by nia.
  destruct (Z.ltb_spec ((8 + size args) * count args) (2 ^ 31)).
  - assert (in_i32b ((8 + size args) * count args) = true) as ->
      by (apply in_i32b_spec; unfold in_i32; lia).
    cbn [bind]. destruct (Z.ltb_spec ((8 + size args) * count args) MAX_PIPE_SIZE).
    + rewrite Z.min_l by lia. constructor.
    + rewrite Z.min_r by lia. constructor.
  - destruct (in_i32b ((8 + size args) * count args)) eqn:E; [|constructor].
    apply in_i32b_spec in E. unfold in_i32 in E. lia.
Qed.

Lemma maxPipeSize_correct_witness :
  eval (feeder 4 []) [] (maxPipeSize (Args 4096 1000 1)) (Val 104856) [].
Proof. apply (maxPipeSize_correct (feeder 4 []) [] (Args 4096 1000 1)); cbn; lia. Defined.
