(* ===== verification/Hello.v ===== *)
(** * tcp/other/: the "Hello, world!" programs over TCP

    server.c with the model it was written after (server-model.c), the model of a client
    (client-model.c), and ip.c, which lists the addresses of a host. A [struct sockaddr] is its bytes; a
    pointer into it is the list of the bytes from there on. *)

From S2P Require Import Prelude CInt Prog Process.

Definition PORT : string := "3490".
Definition BACKLOG : Z := 10.
Definition MAXDATASIZE : Z := 100.
Definition SIGCHLD_HANDLER : Z := 4105.

(** ["Hello, world!"], without the zero byte: 13 bytes. *)
Definition greeting : list Z :=
  map (fun c => Z.of_nat (Ascii.nat_of_ascii c)) (String.list_ascii_of_string "Hello, world!").

(** ** Addresses *)

Definition sa_family (sa : list Z) : Z := le_word (ztake 2 sa).
Definition sin_addr (sa : list Z) : list Z := zdrop 4 sa.
Definition sin6_addr (sa : list Z) : list Z := zdrop 8 sa.

Definition get_in_addr (sa : list Z) : list Z :=
  if sa_family sa =? AF_INET then sin_addr sa else sin6_addr sa.

(** [inet_ntop] into a local array; what is in the array is [None] before the first call that succeeds. Its
    result is not looked at. *)
Definition inet_ntop (family : Z) (address : list Z) (ip : option string) : prog (option string) :=
  r <- sys (InetNtop family address INET6_ADDRSTRLEN) ;;
  Ret (if ret r =? 0 then ip else Some (optarg r)).

(** The array as an argument of [printf]. *)
Definition shown (ip : option string) : prog string :=
  match ip with Some s => Ret s | None => undefined Indeterminate end.

(** The first part of [print_address]: the name of the family and the text of the address. *)
Definition address_text (address_info : addrinfo) : prog (string * string) :=
  let '(type, address) :=
    if ai_family address_info =? AF_INET then ("IPv4", sin_addr (ai_addr address_info))
    else ("IPv6", sin6_addr (ai_addr address_info)) in
  ip <- inet_ntop (ai_family address_info) address None ;;
  ip <- shown ip ;;
  Ret (type, ip).

(** ** The signal handler both servers define *)

Definition sigchld_handler : prog unit :=
  saved_errno <- sysret LoadErrno ;;
  while (fun _ => pid <- sysret (Waitpid (-1) WNOHANG) ;; Ret (0 <? pid)) (fun _ => Ret tt) tt ;;;
  sys_ (StoreErrno saved_errno).

(** ** server.c *)

Module Server.
Definition print_address (address_info : addrinfo) : prog unit :=
  '(type, ip) <- address_text address_info ;;
  sys_ (Fputs (type ++ ": " ++ ip ++ " ... ")%string).

(** The loop over the addresses: [None] if there is no address left, else [socket_fd]. A failed
    [bind] returns -1, not 1. *)
Fixpoint find_address (iterator : list addrinfo) : prog (option Z) :=
  match iterator with
  | [] => Ret None
  | a :: iterator =>
      print_address a ;;;
      socket_fd <- sysret (Socket (ai_family a) (ai_socktype a) (ai_protocol a)) ;;
      if socket_fd =? -1 then
        sys_ (Perror "could not connect!") ;;;
        find_address iterator
      else
        r <- sysret (Setsockopt socket_fd SOL_SOCKET SO_REUSEADDR [1]) ;;
        when (r =? -1) (sys_ (Perror "could not reclaim socket!") ;;; exit 1) ;;;
        b <- sysret (Bind socket_fd (ai_addr a) (ai_addrlen a)) ;;
        when (b =? 1)
          (sys_ (Close socket_fd) ;;;
           sys_ (Perror "could not bind socket to address!")) ;;;
        Ret (Some socket_fd)
  end.

(** The child's part. *)
Definition child (socket_fd new_fd : Z) : prog unit :=
  sys_ (Close socket_fd) ;;;
  r <- sysret (Send new_fd greeting 0) ;;
  when (r =? -1) (sys_ (Perror "Failed to send message to connected client!") ;;; exit 1) ;;;
  sys_ (Close new_fd) ;;;
  exit 0.

(** One iteration of the accept loop; the state is the array [ip]. *)
Definition accept_one (socket_fd : Z) (ip : option string) : prog (option string + unit) :=
  r <- sys (Accept socket_fd) ;;
  when (ret r =? -1) (sys_ (Perror "Error accepting!") ;;; exit 1) ;;;
  let their_addr := data r in
  ip <- inet_ntop (sa_family their_addr) (get_in_addr their_addr) ip ;;
  text <- shown ip ;;
  sys_ (Printf "Server: Conneted to: %s\n" [AStr text]) ;;;
  pid <- sysret Fork ;;
  when (pid =? 0) (child socket_fd (ret r)) ;;;
  sys_ (Close (ret r)) ;;;
  Ret (inl ip).

Definition main : prog Z :=
  r <- sys (GetaddrinfoHints None (Some PORT) AF_UNSPEC SOCK_STREAM AI_PASSIVE) ;;
  when (negb (ret r =? 0)) (sys_ (Fputs "getaddrinfo failed: %s\n") ;;; exit 1) ;;;
  found <- find_address (addrs r) ;;
  sys_ Freeaddrinfo ;;;
  match found with
  | None => sys_ (Perror "Could not find valid address!") ;;; exit 1
  | Some socket_fd =>
      l <- sysret (Listen socket_fd 10) ;;
      when (l =? 1) (sys_ (Perror "Could not start listening on socket!") ;;; exit 1) ;;;
      sys_ (Printf "Server: Wainting for connections ..." []) ;;;
      loop (accept_one socket_fd) None ;;;
      Ret 0
  end.
End Server.

(** ** server-model.c *)

Module ServerModel.
Definition sigchld_handler : prog unit := sigchld_handler.
Definition get_in_addr (sa : list Z) : list Z :=
  if sa_family sa =? AF_INET then sin_addr sa else sin6_addr sa.

Fixpoint find_address (p : list addrinfo) : prog (option Z) :=
  match p with
  | [] => Ret None
  | a :: p =>
      sockfd <- sysret (Socket (ai_family a) (ai_socktype a) (ai_protocol a)) ;;
      if sockfd =? -1 then
        sys_ (Perror "server: socket") ;;;
        find_address p
      else
        r <- sysret (Setsockopt sockfd SOL_SOCKET SO_REUSEADDR [1]) ;;
        when (r =? -1) (sys_ (Perror "setsockopt") ;;; exit 1) ;;;
        b <- sysret (Bind sockfd (ai_addr a) (ai_addrlen a)) ;;
        if b =? -1 then
          sys_ (Close sockfd) ;;;
          sys_ (Perror "server: bind") ;;;
          find_address p
        else Ret (Some sockfd)
  end.

Definition child (sockfd new_fd : Z) : prog unit :=
  sys_ (Close sockfd) ;;;
  r <- sysret (Send new_fd greeting 0) ;;
  when (r =? -1) (sys_ (Perror "send")) ;;;
  sys_ (Close new_fd) ;;;
  exit 0.

Definition accept_one (sockfd : Z) (s : option string) : prog (option string + unit) :=
  r <- sys (Accept sockfd) ;;
  if ret r =? -1 then sys_ (Perror "accept") ;;; Ret (inl s)
  else
    let their_addr := data r in
    s <- inet_ntop (sa_family their_addr) (get_in_addr their_addr) s ;;
    text <- shown s ;;
    sys_ (Printf "server: got connection from %s\n" [AStr text]) ;;;
    pid <- sysret Fork ;;
    when (pid =? 0) (child sockfd (ret r)) ;;;
    sys_ (Close (ret r)) ;;;
    Ret (inl s).

Definition main : prog Z :=
  r <- sys (GetaddrinfoHints None (Some PORT) AF_UNSPEC SOCK_STREAM AI_PASSIVE) ;;
  if negb (ret r =? 0) then sys_ (Fputs "getaddrinfo: %s\n") ;;; Ret 1
  else
    found <- find_address (addrs r) ;;
    sys_ Freeaddrinfo ;;;
    match found with
    | None => sys_ (Fputs "server: failed to bind\n") ;;; exit 1
    | Some sockfd =>
        l <- sysret (Listen sockfd BACKLOG) ;;
        when (l =? -1) (sys_ (Perror "listen") ;;; exit 1) ;;;
        a <- sysret (Sigaction SIGCHLD SIGCHLD_HANDLER [] SA_RESTART) ;;
        when (a =? -1) (sys_ (Perror "sigaction") ;;; exit 1) ;;;
        sys_ (Printf "server: waiting for connections...\n" []) ;;;
        loop (accept_one sockfd) None ;;;
        Ret 0
    end.
End ServerModel.

(** ** client-model.c *)

Module ClientModel.
Definition get_in_addr (sa : list Z) : list Z :=
  if sa_family sa =? AF_INET then sin_addr sa else sin6_addr sa.

(** The address that is left in [p], and [sockfd]. *)
Fixpoint find_address (p : list addrinfo) : prog (option (addrinfo * Z)) :=
  match p with
  | [] => Ret None
  | a :: p =>
      sockfd <- sysret (Socket (ai_family a) (ai_socktype a) (ai_protocol a)) ;;
      if sockfd =? -1 then
        sys_ (Perror "client: socket") ;;;
        find_address p
      else
        c <- sysret (Connect sockfd (ai_addr a) (ai_addrlen a)) ;;
        if c =? -1 then
          sys_ (Perror "client: connect") ;;;
          sys_ (Close sockfd) ;;;
          find_address p
        else Ret (Some (a, sockfd))
  end.

(** From [recv] on; [buf] is not initialised. *)
Definition receive (sockfd : Z) : prog Z :=
  u <- sys Uninit ;;
  let buf := resize (Z.to_nat MAXDATASIZE) 0 (data u) in
  r <- sys (Recv sockfd (MAXDATASIZE - 1) 0) ;;
  let numbytes := ret r in
  when (numbytes =? -1) (sys_ (Perror "recv") ;;; exit 1) ;;;
  buf <- store_bytes buf 0 (data r) ;;
  buf <- store_bytes buf numbytes [0] ;;
  sys_ (Printf "client: received '%s'\n" [AStr (of_chars (c_string buf))]) ;;;
  sys_ (Close sockfd) ;;;
  Ret 0.

(** [argc] is the length of [argv]. *)
Definition main (argv : list string) : prog Z :=
  match argv with
  | [_; host] =>
      r <- sys (GetaddrinfoHints (Some host) (Some PORT) AF_UNSPEC SOCK_STREAM 0) ;;
      if negb (ret r =? 0) then sys_ (Fputs "getaddrinfo: %s\n") ;;; Ret 1
      else
        found <- find_address (addrs r) ;;
        match found with
        | None => sys_ (Fputs "client: failed to connect\n") ;;; Ret 2
        | Some (p, sockfd) =>
            s <- inet_ntop (ai_family p) (get_in_addr (ai_addr p)) None ;;
            text <- shown s ;;
            sys_ (Printf "client: connecting to %s\n" [AStr text]) ;;;
            sys_ Freeaddrinfo ;;;
            receive sockfd
        end
  | _ => sys_ (Fputs "usage: client hostname\n") ;;; exit 1
  end.
End ClientModel.

(** ** ip.c *)

Module Ip.
Definition print_address (address_info : addrinfo) : prog unit :=
  '(type, ip) <- address_text address_info ;;
  sys_ (Printf "%s: %s ... " [AStr type; AStr ip]).

Fixpoint print_all (iterator : list addrinfo) : prog unit :=
  match iterator with
  | [] => Ret tt
  | a :: iterator => print_address a ;;; print_all iterator
  end.

Definition main (argv : list string) : prog Z :=
  match argv with
  | _ :: host :: _ =>
      r <- sys (GetaddrinfoHints (Some host) None AF_UNSPEC SOCK_STREAM 0) ;;
      if negb (ret r =? 0) then sys_ (Fputs "getaddrinfo: %s\n") ;;; Ret 2
      else
        sys_ (Printf "IP addresses for %s:\n\n" [AStr host]) ;;;
        print_all (addrs r) ;;;
        sys_ Freeaddrinfo ;;;
        Ret 0
  | _ => sys_ (Fputs "usage: ip hostname\n") ;;; Ret 1
  end.
End Ip.

(** ** Correctness *)

(** The calls that only produce text. *)
Definition diagnostic (c : call) : bool :=
  match c with InetNtop _ _ _ | Fputs _ | Perror _ | Printf _ _ => true | _ => false end.

(** The history without them. *)
Definition essential (h : hist) : hist := List.filter (fun ev => negb (diagnostic (fst ev))) h.

(** The answers do not depend on what was printed. [known]: the families of addresses that
    [inet_ntop] can print, into an array that is long enough for all of them; those that
    [getaddrinfo] finds are among them. *)
Class Steady (known : Z -> Prop) (e : env) : Prop := {
  steady h1 h2 c : essential h1 = essential h2 -> diagnostic c = false -> e h1 c = e h2 c;
  ntop_ok h f a n : known f -> INET6_ADDRSTRLEN <= n -> ret (e h (InetNtop f a n)) <> 0;
  found_known h host port f t fl a : a ∈ addrs (e h (GetaddrinfoHints host port f t fl)) -> known (ai_family a)
}.

(** What inet_ntop(3) documents: IPv4 and IPv6; any other family is an error, and so is an array that is too
    short. *)
Definition printable (family : Z) : Prop := family = AF_INET \/ family = AF_INET6.

Definition all_known (known : Z -> Prop) (l : list addrinfo) : Prop := Forall (fun a => known (ai_family a)) l.

Section correctness.
Context (known : Z -> Prop).
Local Abbreviation Steady := (Steady known).
Local Abbreviation all_known := (all_known known).

Lemma essential_call e `{!Steady e} h1 h2 c :
  essential h1 = essential h2 -> diagnostic c = false ->
  e h1 c = e h2 c /\ essential ((c, e h1 c) :: h1) = essential ((c, e h2 c) :: h2).
Proof.
  intros Hh Hc. pose proof (steady h1 h2 c Hh Hc) as E. split; [done|]. unfold essential in *. cbn.
  by rewrite Hc, E, Hh.
Qed.

Lemma eval_address_text e `{!Steady e} a h :
  known (ai_family a) ->
  exists type ip h', eval e h (address_text a) (Val (type, ip)) h' /\ essential h' = essential h.
Proof.
  intros Hk. unfold address_text. pose proof (fun ad => ntop_ok h (ai_family a) ad INET6_ADDRSTRLEN Hk (Z.le_refl _)) as Hn.
  destruct (_ =? AF_INET);
    cbn; (do 3 eexists; split; [apply eval_call; rewrite (proj2 (Z.eqb_neq _ _)) by apply Hn; apply eval_ret|done]).
Qed.

Lemma eval_print_address e `{!Steady e} a h :
  known (ai_family a) ->
  exists h', eval e h (Server.print_address a) (Val tt) h' /\ essential h' = essential h.
Proof.
  intros Hk. destruct (eval_address_text e a h Hk) as (type & ip & h1 & H1 & E1). eexists. split.
  - eapply eval_bind; [exact H1|]. cbn. apply eval_call, eval_ret.
  - done.
Qed.

(** [p1] and [p2] end in the same way after the same essential calls. *)
Definition alike (e : env) {A} (p1 p2 : prog A) (h1 h2 : hist) : Prop :=
  exists o h1' h2', eval e h1 p1 o h1' /\ eval e h2 p2 o h2' /\ essential h1' = essential h2'.

Lemma alike_ret e {A} (a : A) h1 h2 : essential h1 = essential h2 -> alike e (Ret a) (Ret a) h1 h2.
Proof. intros. exists (Val a), h1, h2. by split_and!; [apply eval_ret..|]. Qed.

Lemma alike_stop e {A} x h1 h2 : essential h1 = essential h2 -> alike e (A := A) (Stop x) (Stop x) h1 h2.
Proof. intros. exists (Halted x), h1, h2. by split_and!; [apply eval_stop..|]. Qed.

Lemma alike_call e `{!Steady e} {A} c (k1 k2 : resp -> prog A) h1 h2 :
  diagnostic c = false -> essential h1 = essential h2 ->
  (forall h1' h2', essential h1' = essential h2' -> alike e (k1 (e h1 c)) (k2 (e h1 c)) h1' h2') ->
  alike e (Call c k1) (Call c k2) h1 h2.
Proof.
  intros Hc Hh Hk. destruct (essential_call e h1 h2 c Hh Hc) as [E Hh'].
  destruct (Hk _ _ Hh') as (o & h1' & h2' & H1 & H2 & H3). exists o, h1', h2'.
  split_and!; [by apply eval_call|apply eval_call; by rewrite <- E at 2|done].
Qed.

(** Both sides print something of their own. *)
Lemma alike_print e {A} c1 c2 (k1 k2 : resp -> prog A) h1 h2 :
  diagnostic c1 = true -> diagnostic c2 = true ->
  (forall h1' h2', essential h1' = essential h1 -> essential h2' = essential h2 ->
    alike e (k1 (e h1 c1)) (k2 (e h2 c2)) h1' h2') ->
  alike e (Call c1 k1) (Call c2 k2) h1 h2.
Proof.
  intros Hc1 Hc2 Hk. edestruct (Hk ((c1, e h1 c1) :: h1) ((c2, e h2 c2) :: h2)) as (o & h1' & h2' & H1 & H2 & H3);
    [unfold essential; cbn; by rewrite ?Hc1, ?Hc2..|].
  exists o, h1', h2'. split_and!; [by apply eval_call..|done].
Qed.

Lemma alike_before e {A B} (p : prog B) (f : B -> prog A) q b h1 h1' h2 :
  eval e h1 p (Val b) h1' -> alike e (f b) q h1' h2 -> alike e (bind p f) q h1 h2.
Proof.
  intros Hp (o & h3 & h4 & H1 & H2 & H3). exists o, h3, h4. split_and!; [by eapply eval_bind|done..].
Qed.

(** C32. tcp/other: as long as [bind] succeeds, and for addresses that [inet_ntop] can print, server.c chooses its
    socket as the model does: both loops end, in the same way, after the same system calls. *)
Theorem servers_choose_alike e `{!Steady e} l h1 h2 :
  all_known l ->
  (forall h fd a n, ret (e h (Bind fd a n)) = 0) ->
  essential h1 = essential h2 ->
  alike e (Server.find_address l) (ServerModel.find_address l) h1 h2.
Proof.
  intros Hl Hb. revert h1 h2. induction Hl as [|a l Ha Hl IH]; intros h1 h2 Hh; [by apply alike_ret|].
  destruct (eval_print_address e a h1 Ha) as (h1' & Hp & E).
  eapply alike_before; [exact Hp|]. cbn [ServerModel.find_address bind sysret].
  apply (alike_call e); [done|congruence|]. generalize (e h1' (Socket (ai_family a) (ai_socktype a) (ai_protocol a))) as r.
  clear h1 h1' h2 Hh Hp E. intros r h1 h2 Hh. destruct (ret r =? -1).
  - apply (alike_print e); [done..|]. intros h1' h2' E1 E2. apply IH. congruence.
  - apply (alike_call e); [done..|]. generalize (e h1 (Setsockopt (ret r) SOL_SOCKET SO_REUSEADDR [1])) as r'.
    clear h1 h2 Hh. intros r' h1 h2 Hh. destruct (ret r' =? -1).
    + apply (alike_print e); [done..|]. intros h1' h2' E1 E2. apply alike_stop. congruence.
    + apply (alike_call e); [done..|]. intros h1' h2' Hh'. rewrite Hb. by apply alike_ret.
Qed.

(** ** When [bind] fails *)

Lemma ends_call (e : env) {A} h c (k : resp -> prog A) o :
  (exists h', eval e ((c, e h c) :: h) (k (e h c)) o h') -> exists h', eval e h (Call c k) o h'.
Proof. intros [h' H]. exists h'. by apply eval_call. Qed.

(** C40. tcp/other: if no address can be bound, server.c chooses the first one all the same (it is one that
    [inet_ntop] can print); the model tries all of them, closes their sockets and gives up. *)
Theorem server_ignores_bind e `{!Steady e} a l h :
  known (ai_family a) ->
  (forall h fd a n, ret (e h (Bind fd a n)) = -1) ->
  (forall h f t p, ret (e h (Socket f t p)) <> -1) ->
  (forall h fd lv o v, ret (e h (Setsockopt fd lv o v)) = 0) ->
  (exists fd r h', eval e h (Server.find_address (a :: l)) (Val (Some fd))
      ((Bind fd (ai_addr a) (ai_addrlen a), r) :: h') /\ ret r = -1) /\
  exists h', eval e h (ServerModel.find_address (a :: l)) (Val None) h'.
Proof.
  intros Hk Hb Hs Ho. split.
  - destruct (eval_print_address e a h Hk) as (h1 & Hp & _). do 3 eexists. split.
    + cbn [Server.find_address]. eapply eval_bind; [exact Hp|]. cbn [continues bind sysret].
      apply eval_call. rewrite (proj2 (Z.eqb_neq _ _)) by apply Hs. cbn [bind sysret].
      apply eval_call. rewrite Ho. cbn. apply eval_call. rewrite Hb. apply eval_ret.
    + apply Hb.
  - revert h. generalize (a :: l) as l'. clear a l Hk. induction l' as [|a l IH]; intros h; [eexists; apply eval_ret|].
    cbn [ServerModel.find_address bind sysret].
    apply ends_call. rewrite (proj2 (Z.eqb_neq _ _)) by apply Hs. apply ends_call. rewrite Ho. cbn.
    apply ends_call. rewrite Hb. cbn. apply ends_call, ends_call, IH.
Qed.

(** ** The client *)

Lemma c_string_stops l k : c_string (l ++ 0 :: k) = c_string l.
Proof. induction l as [|c l IH]; [done|]. cbn. destruct (c =? 0); [done|]. by rewrite IH. Qed.

(** The last calls of a client that received [text]. *)
Definition received_text (h : hist) : Prop :=
  exists fd r r1 r2 h', 0 <= ret r <= MAXDATASIZE - 1 /\ zlen (data r) = ret r /\
    h = (Close fd, r1) :: (Printf "client: received '%s'\n" [AStr (of_chars (c_string (data r)))], r2) ::
        (Recv fd (MAXDATASIZE - 1) 0, r) :: h'.

(** Every address: the socket, and whether it could be connected, decide how the loop goes on. *)
Lemma client_find_total e h l :
  wp e h (ClientModel.find_address l)
    (returns (fun r _ => match r with Some (a, _) => In a l | None => True end)).
Proof.
  revert h. induction l as [|a l IH]; intros h; unfold wp; cbn; [by apply total_ret|].
  assert (forall h, wp e h (ClientModel.find_address l)
    (returns (fun r _ => match r with Some (b, _) => a = b \/ In b l | None => True end))) as IH'.
  { intros h1. eapply total_conseq; [apply IH|]. intros [[[b fd]|]|x] h2 _; cbn; auto. }
  apply total_call; [done|]. destruct (_ =? -1); cbn.
  - apply total_call; [done|]. apply IH'.
  - apply total_call; [done|]. destruct (_ =? -1); cbn; [|apply total_ret; cbn; auto].
    do 2 (apply total_call; [done|]). apply IH'.
Qed.

(** [recv] fails, or stores as many bytes as it says, at most as many as it was asked for. *)
Class RecvOk (e : env) : Prop := {
  recv_ok h fd n flags : 0 <= n ->
    let r := e h (Recv fd n flags) in ret r = -1 \/ (0 <= ret r <= n /\ zlen (data r) = ret r)
}.

Lemma client_receive_total e `{!RecvOk e} h fd :
  wp e h (ClientModel.receive fd) (post (fun z h' => z = 0 /\ received_text h') (fun x _ => x = Exited 1)).
Proof.
  unfold wp, ClientModel.receive, sys. cbn. apply total_call; [done|]. cbn.
  apply total_call; [done|]. change (MAXDATASIZE - 1) with 99. match goal with |- context [e ?h (Recv _ _ _)] => set (h1 := h) end.
  set (r := e h1 (Recv fd 99 0)). pose proof (recv_ok h1 fd 99 0 ltac:(lia)) as Hr. fold r in Hr. cbn zeta in Hr.
  destruct Hr as [E|[Hr Hd]].
  - rewrite E. cbn. apply total_call; [done|]. by apply total_stop.
  - rewrite (proj2 (Z.eqb_neq _ _)) by lia. cbn. set (buf := resize _ 0 (data (e h Uninit))).
    assert (zlen buf = 100) as Hb by (unfold zlen, buf; by rewrite length_resize).
    apply total_bind, total_store; [lia|lia|done|]. cbn [post].
    apply total_bind. rewrite ztake_0. cbn [app].
    apply total_store; [lia| |done|]; [zlia|]. cbn [post].
    rewrite <- Hd, ztake_app_exact. cbn [app]. rewrite c_string_stops.
    apply total_call; [done|]. apply total_call; [done|]. apply total_ret; [done|]. cbn [post]. split; [done|].
    exists fd, r. do 3 eexists. split; [unfold MAXDATASIZE; lia|]. split; [done|reflexivity].
Qed.

(** C33. tcp/other: the client ends with 0, 1 or 2 or with [exit(1)]; it returns 0 only after it has printed what
    it received, up to the first zero byte, and closed the socket. It never writes or reads outside of its
    buffer. *)
Theorem hello_client_correct e `{!RecvOk e} `{!Steady e} h argv :
  wp e h (ClientModel.main argv)
    (post (fun z h' => (z = 0 /\ received_text h') \/ z = 1 \/ z = 2) (fun x _ => x = Exited 1)).
Proof.
  unfold wp, ClientModel.main.
  assert (forall h, total e (fun _ => True) h (sys_ (Fputs "usage: client hostname\n") ;;; exit (A := Z) 1)
    (post (fun z h' => (z = 0 /\ received_text h') \/ z = 1 \/ z = 2) (fun x _ => x = Exited 1))) as Husage.
  { intros h0. cbn. apply total_call; [done|]. by apply total_stop. }
  destruct argv as [|a0 [|host [|]]]; [apply Husage..| |apply Husage]. cbn.
  apply total_call; [done|]. destruct (negb _); cbn.
  { apply total_call; [done|]. apply total_ret; [done|]. cbn. auto. }
  apply total_bind. eapply total_conseq; [apply client_find_total|].
  intros [[[p fd]|]|x] h1 _ Hx; cbn in Hx |- *; [| |done].
  - apply list_elem_of_In, found_known in Hx. apply total_call; [done|].
    rewrite (proj2 (Z.eqb_neq _ _)) by by apply ntop_ok. cbn.
    do 2 (apply total_call; [done|]). eapply total_conseq; [apply client_receive_total; done|].
    intros [z|x] h2 _ H2; cbn in *; [by left|done].
  - apply total_call; [done|]. apply total_ret; [done|]. cbn. auto.
Qed.

End correctness.

(** A kernel that opens descriptor 3 and has every call succeed. *)
Definition obliging : env := fun _ c =>
  match c with
  | Socket _ _ _ => rret 3
  | InetNtop _ _ _ => Resp 1 0 [] "::" []
  | _ => rret 0
  end.

#[export] Instance obliging_steady : Steady printable obliging.
Proof. split; [done|done|]. intros h host port f t fl a H. by apply elem_of_nil in H. Qed.

Definition some_address : addrinfo := Addrinfo AF_INET SOCK_STREAM 6 (repeat 0 16) 16.

Lemma servers_choose_alike_witness :
  alike obliging (Server.find_address [some_address]) (ServerModel.find_address [some_address]) [] [].
Proof. apply (servers_choose_alike printable obliging); [by repeat constructor|done..]. Defined.

(** A kernel whose addresses are all in use. *)
Definition in_use : env := fun h c => match c with Bind _ _ _ => rret (-1) | _ => obliging h c end.

#[export] Instance in_use_steady : Steady printable in_use.
Proof.
  split; [by intros h1 h2 []|done|]. intros h host port f t fl a H. by apply elem_of_nil in H.
Qed.

Lemma server_ignores_bind_witness :
  (exists fd r h', eval in_use [] (Server.find_address [some_address]) (Val (Some fd))
      ((Bind fd (repeat 0 16) 16, r) :: h') /\ ret r = -1) /\
  exists h', eval in_use [] (ServerModel.find_address [some_address]) (Val None) h'.
Proof. apply (server_ignores_bind printable in_use some_address []); [by left|done..]. Defined.

(** A peer that sends what the servers send. *)
Definition greets : env := fun h c =>
  match c with
  | GetaddrinfoHints _ _ _ _ _ => Resp 0 0 [] EmptyString [some_address]
  | Recv _ n _ => rdata (zlen (ztake n greeting)) (ztake n greeting)
  | _ => obliging h c
  end.

#[export] Instance greets_steady : Steady printable greets.
Proof.
  split; [by intros h1 h2 []|done|]. intros h host port f t fl a ->%list_elem_of_singleton. by left.
Qed.

#[export] Instance greets_recv : RecvOk greets.
Proof. split. intros h fd n flags Hn r. right. cbn. split; [|done]. rewrite zlen_ztake. lia. Qed.

Lemma hello_client_correct_witness :
  wp greets [] (ClientModel.main ["client"; "localhost"])
    (post (fun z h' => (z = 0 /\ received_text h') \/ z = 1 \/ z = 2) (fun x _ => x = Exited 1)).
Proof. apply (hello_client_correct printable greets). Defined.

Example hello_world :
  option_map (fun p => nth 1 (snd p) (Free, rret 0)) (run greets 1 [] (ClientModel.main ["client"; "localhost"])) =
  Some (Printf "client: received '%s'\n" [AStr "Hello, world!"], rret 0).
Proof. by vm_compute. Qed.

(** ** The handler of SIGCHLD *)

(** The children that [waitpid] has reported. *)
Definition reaps (ev : event) : bool :=
  match ev with (Waitpid pid options, r) => (pid =? -1) && (options =? WNOHANG) && (0 <? ret r) | _ => false end.

Definition reaped (h : hist) : nat := length (List.filter reaps h).

(** C34. tcp/other: [sigchld_handler] ends after it has reaped all children that are dead, and leaves
    [errno] as it was. *)
Theorem sigchld_handler_reaps e dead h :
  (forall h, 0 < ret (e h (Waitpid (-1) WNOHANG)) <-> (reaped h < dead)%nat) ->
  (reaped h <= dead)%nat ->
  wp e h sigchld_handler (returns (fun _ h' =>
    reaped h' = dead /\
    exists r h1, h' = (StoreErrno (ret (e h LoadErrno)), r) :: h1)).
Proof.
  intros Hw Hh. split; [done|]. unfold sigchld_handler. cbn [bind sysret].
  enough (forall n h, (dead - reaped h = n)%nat -> (reaped h <= dead)%nat ->
    exists h', eval e h (while (fun _ => pid <- sysret (Waitpid (-1) WNOHANG) ;; Ret (0 <? pid)) (fun _ => Ret tt) tt)
      (Val tt) h' /\ reaped h' = dead) as Hloop.
  { destruct (Hloop _ ((LoadErrno, e h LoadErrno) :: h) eq_refl Hh) as (h' & He & Hr).
    exists (Val tt). eexists. split.
    - apply eval_call. eapply eval_bind; [exact He|]. cbn. apply eval_call, eval_ret.
    - split; [exact Hr|]. by do 2 eexists. }
  clear h Hh. induction n as [|n IH]; intros h Hn Hh.
  - assert (~ 0 < ret (e h (Waitpid (-1) WNOHANG))) as H0 by (rewrite Hw; lia).
    eexists. split.
    + eapply eval_iter_done; [|apply eval_ret]. cbn. apply eval_call. cbn.
      rewrite (proj2 (Z.ltb_ge _ _)) by lia. apply eval_ret.
    + unfold reaped. cbn. rewrite (proj2 (Z.ltb_ge _ _)) by lia. unfold reaped in Hn, Hh. lia.
  - assert (0 < ret (e h (Waitpid (-1) WNOHANG))) as H0 by (rewrite Hw; lia).
    assert (reaped ((Waitpid (-1) WNOHANG, e h (Waitpid (-1) WNOHANG)) :: h) = S (reaped h)) as E.
    { unfold reaped. cbn. by rewrite (proj2 (Z.ltb_lt _ _) H0). }
    destruct (IH ((Waitpid (-1) WNOHANG, e h (Waitpid (-1) WNOHANG)) :: h)) as (h' & He & Hr); [lia..|].
    exists h'. split; [|done]. eapply eval_iter_go; [|exact He]. cbn. apply eval_call. cbn.
    rewrite (proj2 (Z.ltb_lt _ _) H0). apply eval_ret.
Qed.

(** Two children are dead. *)
Lemma sigchld_handler_reaps_witness :
  let e : env := fun h c => match c with
    | Waitpid _ _ => rret (if Nat.ltb (reaped h) 2 then 1000 else 0) | _ => rret 4 end in
  wp e [] sigchld_handler (returns (fun _ h' => reaped h' = 2%nat /\ exists r h1, h' = (StoreErrno 4, r) :: h1)).
Proof.
  intros e. apply (sigchld_handler_reaps e 2 []); [|cbn; lia]. intros h. cbn [e ret rret].
  destruct (Nat.ltb_spec (reaped h) 2); lia.
Defined.

(** ** One connection *)

Definition sends (h : hist) : list (Z * list Z) :=
  omap (fun ev => match ev with (Send fd bytes _, _) => Some (fd, bytes) | _ => None end) h.

(** The parent goes on without the new descriptor and sends nothing; the child sends the 13 bytes once, on
    the new descriptor, and ends. *)
Definition served (new_fd : Z) (h : hist) (o : outcome (option string + unit)) (h' : hist) : Prop :=
  match o with
  | Val (inl _) => sends h' = sends h /\ exists r h1, h' = (Close new_fd, r) :: h1
  | Val (inr _) => False
  | Halted x => (x = Exited 0 \/ x = Exited 1) /\ sends h' = (new_fd, greeting) :: sends h
  end.

(** tcp/other: what both servers do with a connection from an address that [inet_ntop] can print. *)
Theorem one_connection known e `{!Steady known e} h fd ip :
  ret (e h (Accept fd)) <> -1 -> known (sa_family (data (e h (Accept fd)))) ->
  wp e h (Server.accept_one fd ip) (served (ret (e h (Accept fd))) h) /\
  wp e h (ServerModel.accept_one fd ip) (served (ret (e h (Accept fd))) h).
Proof.
  intros Ha Hk.
  split; unfold wp; cbn; (apply total_call; [done|]); rewrite (proj2 (Z.eqb_neq _ _) Ha); cbn;
    (apply total_call; [done|]); rewrite (proj2 (Z.eqb_neq _ _)) by (by apply (ntop_ok (known := known))); cbn;
    do 2 (apply total_call; [done|]); (destruct (_ =? 0); cbn;
      [do 2 (apply total_call; [done|]); destruct (_ =? -1); cbn; repeat (apply total_call; [done|]);
        apply total_stop; cbn; auto
      |apply total_call; [done|]; apply total_ret; [done|]; cbn; split; [done|]; by do 2 eexists]).
Qed.

(** A peer with an IPv4 address. *)
Definition accepts : env := fun h c => match c with Accept _ => rdata 4 (AF_INET :: repeat 0 15) | _ => obliging h c end.

#[export] Instance accepts_steady : Steady printable accepts.
Proof.
  split; [by intros h1 h2 []|done|]. intros h host port f t fl a H. by apply elem_of_nil in H.
Qed.

Lemma one_connection_witness :
  wp accepts [] (Server.accept_one 3 None) (served 4 []) /\
  wp accepts [] (ServerModel.accept_one 3 None) (served 4 []).
Proof. apply (one_connection printable accepts []); [done|by left]. Defined.
