(* ===== verification/CppExample.v ===== *)
(** * tcp/other/server.cpp and client.cpp: one message and its acknowledgement

    The two C++ programs. A [std::runtime_error] is not caught anywhere, so it ends the program. What is read from
    [std::cin] and written to [std::cout] is a call; text is its bytes. *)

From S2P Require Import Prelude CInt Prog Process.

Definition port : Z := 6969.
Definition INADDR_ANY : Z := 0.
Definition SIZEOF_BUFFER : Z := 256.

Definition chars (s : string) : list Z :=
  map (fun c => Z.of_nat (Ascii.nat_of_ascii c)) (String.list_ascii_of_string s).

(** ["Message transmission successful!"]: 32 bytes. *)
Definition acknowledgement : list Z := chars "Message transmission successful!".

Definition throw_error {A} (what : string) : prog A := Stop (Uncaught what).

(** Big-endian. *)
Definition htons (z : Z) : list Z := [z / 2 ^ 8 mod 2 ^ 8; z mod 2 ^ 8].

(** A [sockaddr_in] with the port and the bytes of an address; [sin_zero] is not assigned. *)
Definition sockaddr_in (address sin_zero : list Z) : list Z :=
  le_bytes 2 AF_INET ++ htons port ++ address ++ resize 8 0 sin_zero.

(** [<<] of a character array: the bytes before the first zero byte, which has to be in the array. *)
Definition cout_array (buffer : list Z) : prog unit :=
  if existsb (Z.eqb 0) buffer then sys_ (CoutWrite (c_string buffer)) else undefined OutOfBounds.

(** [std::fill], then [read] of as many bytes as there are; the message if [read] fails. *)
Definition read_message (fd : Z) (what : string) : prog (list Z) :=
  let buffer := replicate (Z.to_nat SIZEOF_BUFFER) 0 in
  r <- sys (Read fd SIZEOF_BUFFER) ;;
  when (ret r <? 0) (throw_error what) ;;;
  store_bytes buffer 0 (data r).

Module Server.
Definition main : prog Z :=
  socket_descriptor <- sysret (Socket AF_INET SOCK_STREAM 0) ;;
  when (socket_descriptor <? 0) (throw_error "Could not open socket!") ;;;
  u <- sys Uninit ;;
  let server_address := sockaddr_in (le_bytes 4 INADDR_ANY) (data u) in
  return_code <- sysret (Bind socket_descriptor server_address (zlen server_address)) ;;
  when (return_code <? 0) (throw_error "Could not bind socket to ") ;;;
  sys_ (Listen socket_descriptor 5) ;;;
  communication_socket <- sysret (Accept socket_descriptor) ;;
  when (communication_socket <? 0) (throw_error "Error while accepting socket connection!") ;;;
  buffer <- read_message communication_socket "Error while reading from socket!" ;;
  sys_ (CoutWrite (chars "Received message: ")) ;;;
  cout_array buffer ;;;
  sys_ (CoutWrite [10]) ;;;
  return_code <- sysret (Write communication_socket acknowledgement) ;;
  when (return_code <? 0) (throw_error "Error while writing acknowledgement message!") ;;;
  sys_ (Close communication_socket) ;;;
  sys_ (Close socket_descriptor) ;;;
  Ret 0.
End Server.

Module Client.
(** [gethostbyname] answers a null pointer or the first address, of [h_length] bytes. *)
Definition main : prog Z :=
  socket_descriptor <- sysret (Socket AF_INET SOCK_STREAM 0) ;;
  when (socket_descriptor <? 0) (throw_error "Could not open socket!") ;;;
  server <- sys (Gethostbyname "localhost") ;;
  when (ret server =? 0) (throw_error "Could not find host!") ;;;
  u <- sys Uninit ;;
  server_address <- store_bytes (sockaddr_in (replicate 4 0) (data u)) 4 (data server) ;;
  return_code <- sysret (Connect socket_descriptor server_address (zlen server_address)) ;;
  when (return_code <? 0) (throw_error "Could not connect to socket!") ;;;
  sys_ (CoutWrite (chars "Please enter a message: ")) ;;;
  input <- sys CinWord ;;
  return_code <- sysret (Write socket_descriptor (data input)) ;;
  when (return_code <? 0) (throw_error "Error while writing to socket!") ;;;
  buffer <- read_message socket_descriptor "Could not read from socket!" ;;
  sys_ (CoutWrite [10]) ;;;
  cout_array buffer ;;;
  sys_ (Close socket_descriptor) ;;;
  Ret 0.
End Client.

(** ** Correctness *)

(** [read] fails, or stores as many bytes as it says; the addresses of a host have four bytes. *)
Class KernelOk (e : env) : Prop := {
  read_ok h fd n : 0 <= n ->
    let r := e h (Read fd n) in ret r < 0 \/ (0 <= ret r <= n /\ zlen (data r) = ret r);
  host_ok h name : ret (e h (Gethostbyname name)) <> 0 -> zlen (data (e h (Gethostbyname name))) = 4
}.

(** [message] came in by a [read] of [fd] and is shown. *)
Definition shown (fd : Z) (message : list Z) (h : hist) : Prop :=
  exists r, data r = message /\ In (Read fd SIZEOF_BUFFER, r) h /\
    exists r', In (CoutWrite (c_string message), r') h.

(** A message that fills the buffer and has no zero byte. *)
Definition overlong (fd : Z) (h : hist) : Prop :=
  exists r, In (Read fd SIZEOF_BUFFER, r) h /\ zlen (data r) = SIZEOF_BUFFER /\ ~ In 0 (data r).

Definition ended (x : halt) (h : hist) : Prop :=
  (exists what, x = Uncaught what) \/ (x = Undefined OutOfBounds /\ exists fd, overlong fd h).

Lemma c_string_zeros l n : c_string (l ++ replicate n 0) = c_string l.
Proof. induction l as [|c l IH]; cbn; [by destruct n|]. destruct (c =? 0); [done|]. by rewrite IH. Qed.

Section read_message.
Context (e : env) `{!KernelOk e}.

(** The buffer afterwards: the message, and zeros behind it. *)
Lemma read_message_total h fd what :
  wp e h (read_message fd what) (post (fun buffer h' => exists r n,
      h' = (Read fd SIZEOF_BUFFER, r) :: h /\ buffer = data r ++ replicate n 0 /\
      zlen (data r) + Z.of_nat n = SIZEOF_BUFFER) (fun x h' => x = Uncaught what)).
Proof.
  unfold wp, read_message, sys. cbn [bind]. apply total_call; [done|].
  destruct (read_ok h fd SIZEOF_BUFFER ltac:(done)) as [Hr|[Hr Hd]].
  - rewrite (proj2 (Z.ltb_lt _ _)) by done. by apply total_stop.
  - set (r := e h (Read fd SIZEOF_BUFFER)) in *. rewrite (proj2 (Z.ltb_ge _ _)) by lia. cbn [bind when].
    unfold SIZEOF_BUFFER in *. apply total_store; [lia| |done|].
    { change (zlen (replicate (Z.to_nat 256) 0)) with 256. lia. }
    cbn [post]. exists r, (Z.to_nat (256 - zlen (data r))). split; [done|]. split; [|lia].
    rewrite ztake_0. cbn [app]. f_equal. unfold zdrop. rewrite Z.add_0_l.
    rewrite drop_replicate. f_equal. lia.
Qed.

Lemma cout_array_total h message n (Q : outcome unit -> hist -> Prop) :
  (forall h', (forall ev, In ev h -> In ev h') -> (exists r, In (CoutWrite (c_string message), r) h') -> Q (Val tt) h') ->
  (n = O -> ~ In 0 message -> Q (Halted (Undefined OutOfBounds)) h) ->
  wp e h (cout_array (message ++ replicate n 0)) Q.
Proof.
  intros H1 H2. unfold wp, cout_array. destruct (existsb (Z.eqb 0) (message ++ replicate n 0)) eqn:E.
  - cbn. apply total_call; [done|]. apply total_ret; [done|]. rewrite c_string_zeros. apply H1.
    + intros ev Hin. by right.
    + eexists. by left.
  - apply total_stop; [done|]. rewrite existsb_app in E. apply orb_false_elim in E as [Em Ez]. apply H2.
    + by destruct n.
    + intros Hin. enough (existsb (Z.eqb 0) message = true) by congruence. apply existsb_exists. by exists 0.
Qed.
End read_message.

(** One guarded call: an exception if the answer is negative. *)
Lemma guarded e {A} h c what (k : Z -> prog A) (Q : outcome A -> hist -> Prop) :
  (forall x h', (exists what, x = Uncaught what) -> Q (Halted x) h') ->
  (0 <= ret (e h c) -> wp e ((c, e h c) :: h) (k (ret (e h c))) Q) ->
  wp e h (z <- sysret c ;; when (z <? 0) (throw_error what) ;;; k z) Q.
Proof.
  intros Hx Hk. unfold wp. cbn. apply total_call; [done|]. destruct (Z.ltb_spec (ret (e h c)) 0) as [H|H]; cbn.
  - apply total_stop; [done|]. apply Hx. by eexists.
  - by apply Hk.
Qed.

(** Reading a message and showing it. *)
Lemma read_and_show e `{!KernelOk e} {A} h fd what cs (k : prog A) (Q : outcome A -> hist -> Prop) :
  (forall x h', ended x h' -> Q (Halted x) h') ->
  (forall h' message, shown fd message h' -> (forall ev, In ev h -> In ev h') -> wp e h' k Q) ->
  wp e h (buffer <- read_message fd what ;; sys_ (CoutWrite cs) ;;; cout_array buffer ;;; k) Q.
Proof.
  intros Hx Hk. apply total_bind. eapply total_conseq; [by apply read_message_total|].
  intros [buffer|x] h1 _; cbn [post].
  2: { intros ->. apply Hx. left. by eexists. }
  intros (r & n & -> & -> & Hn). cbn [bind sys_]. apply total_call; [done|]. apply total_bind.
  apply (cout_array_total e).
  - intros h' Hin [r' Hr']. apply (Hk h' (data r)).
    + exists r. split; [done|]. split; [|by exists r']. apply Hin. right. by left.
    + intros ev Hev. apply Hin. by do 2 right.
  - intros -> H0. apply Hx. right. split; [done|]. exists fd, r. split; [right; by left|].
    split; [lia|done].
Qed.

Lemma thrown x h : (exists what, x = Uncaught what) -> ended x h.
Proof. by left. Qed.

Lemma after_call e {A} h c (k : resp -> prog A) (Q : outcome A -> hist -> Prop) :
  wp e ((c, e h c) :: h) (k (e h c)) Q -> wp e h (r <- sys c ;; k r) Q.
Proof. intros H. unfold wp. cbn. by apply total_call. Qed.

Lemma after_call_ e {A} h c (k : prog A) (Q : outcome A -> hist -> Prop) :
  wp e ((c, e h c) :: h) k Q -> wp e h (sys_ c ;;; k) Q.
Proof. intros H. unfold wp. cbn. by apply total_call. Qed.

(** C35. server.cpp: it returns only after it has shown the message it received and sent the
    acknowledgement; otherwise it throws, or reads beyond its buffer, which happens only
    after a message that fills it. *)
Theorem cpp_server_correct e `{!KernelOk e} h :
  wp e h Server.main (post (fun z h' => z = 0 /\ exists fd message r,
    shown fd message h' /\ In (Write fd acknowledgement, r) h' /\ 0 <= ret r) ended).
Proof.
  unfold Server.main. apply (guarded e); [by intros; apply thrown|]. intros _.
  apply after_call. cbn zeta. apply (guarded e); [by intros; apply thrown|]. intros _.
  apply after_call_. apply (guarded e); [by intros; apply thrown|]. intros _.
  apply read_and_show; [done|done|]. intros h1 message Hs Hin. apply after_call_.
  apply (guarded e); [by intros; apply thrown|]. intros Hw. do 2 apply after_call_.
  unfold wp. apply total_ret; [done|]. split; [done|]. do 3 eexists. split; [|split; [|exact Hw]].
  - destruct Hs as (r & Hr & H1 & r' & H2). exists r. split; [done|]. split; [by do 4 right|]. exists r'. by do 4 right.
  - do 2 right. by left.
Qed.

Lemma zlen_sockaddr address sin_zero : zlen (sockaddr_in address sin_zero) = 12 + zlen address.
Proof. unfold sockaddr_in. rewrite !zlen_app. unfold zlen. rewrite length_resize, length_le_bytes. cbn. lia. Qed.

(** client.cpp: the same, after it has sent what was typed. *)
Theorem cpp_client_correct e `{!KernelOk e} h :
  wp e h Client.main (post (fun z h' => z = 0 /\ exists fd input message r,
    In (CinWord, input) h' /\ In (Write fd (data input), r) h' /\ 0 <= ret r /\ shown fd message h') ended).
Proof.
  unfold Client.main. apply (guarded e); [by intros; apply thrown|]. intros _.
  apply after_call. match goal with |- context [e ?h (Gethostbyname _)] => set (h1 := h) end.
  destruct (Z.eqb_spec (ret (e h1 (Gethostbyname "localhost"))) 0) as [E|E].
  { apply total_stop; [done|]. by apply thrown; eexists. }
  apply after_call. cbn zeta. apply total_bind, total_store; [done| |done|].
  { rewrite host_ok, zlen_sockaddr by done. done. }
  cbn [post]. apply (guarded e); [by intros; apply thrown|]. intros _.
  apply after_call_, after_call. apply (guarded e); [by intros; apply thrown|]. intros Hw.
  apply read_and_show; [done|done|]. intros h2 message Hs Hin. apply after_call_.
  unfold wp. apply total_ret; [done|]. split; [done|]. do 4 eexists. split; [|split; [|split; [exact Hw|]]].
  - right. apply Hin. right. by left.
  - right. apply Hin. by left.
  - destruct Hs as (r & Hr & H1 & r' & H2). exists r. split; [done|]. split; [by right|]. exists r'. by right.
Qed.

(** A kernel with one client that sends [message]. *)
Definition one_message (message : list Z) : env := fun h c =>
  match c with
  | Socket _ _ _ => rret 3
  | Accept _ => rret 4
  | Read _ n => rdata (zlen (ztake n message)) (ztake n message)
  | Gethostbyname _ => rdata 1 [127; 0; 0; 1]
  | CinWord => rdata 0 (chars "hello")
  | Write _ bytes => rret (zlen bytes)
  | _ => rret 0
  end.

#[export] Instance one_message_ok message : KernelOk (one_message message).
Proof. split; [|done]. intros h fd n Hn r. right. cbn. split; [|done]. rewrite zlen_ztake. pose proof (zlen_nonneg message). lia. Qed.

Lemma cpp_server_correct_witness :
  wp (one_message (chars "hello")) [] Server.main (post (fun z h' => z = 0 /\ exists fd message r,
    shown fd message h' /\ In (Write fd acknowledgement, r) h' /\ 0 <= ret r) ended).
Proof. apply (cpp_server_correct (one_message (chars "hello"))). Defined.

Lemma cpp_client_correct_witness :
  wp (one_message acknowledgement) [] Client.main (post (fun z h' => z = 0 /\ exists fd input message r,
    In (CinWord, input) h' /\ In (Write fd (data input), r) h' /\ 0 <= ret r /\ shown fd message h') ended).
Proof. apply (cpp_client_correct (one_message acknowledgement)). Defined.

(** The 256 bytes of a longer message fill the buffer. *)
Example overlong_message :
  option_map fst (run (one_message (replicate 300 65)) 1 [] Server.main) = Some (Halted (Undefined OutOfBounds)).
Proof. by vm_compute. Qed.
