(* ===== verification/Composition.v ===== *)
(** * A client and a server together

    The two programs only share the byte streams between them. [connected]: whenever the
    server is at some point of its execution, the client is at some point of its own, and
    neither has received a byte that the other has not sent. From the client's window
    this gives the server's hypothesis [PeerWindow]. *)

From S2P Require Import Prelude CInt Prog Stream Arguments Benchmarks Times Echo EchoClient.
From S2P Require Import EchoServer Samples Domain Tcp Fifo.

(** The descriptors of the client ([rc], [wc]) and of the server ([rs], [ws]); [ec] and [es]
    answer their calls from the histories [hc0] and [hs0] on. *)
Definition connected (ec es : env) (rc wc rs ws : Z) (client : prog unit) (hc0 hs0 : hist) : Prop :=
  forall hs, extends es hs0 hs -> exists hc d1 d2 e1 e2,
    visits ec hc0 client hc /\
    received rs hs = received rs hs0 ++ d1 /\ sent wc hc = sent wc hc0 ++ d1 ++ d2 /\
    received rc hc = received rc hc0 ++ e1 /\ sent ws hs = sent ws hs0 ++ e1 ++ e2.

Lemma connected_peer ec es rc wc rs ws client max hc0 hs0 Q :
  safe ec (window rc wc max hc0) hc0 client Q ->
  connected ec es rc wc rs ws client hc0 hs0 ->
  PeerWindow es rs ws max hs0.
Proof.
  intros [Hw _] HC. split. intros hs Hs.
  destruct (HC hs Hs) as (hc & d1 & d2 & e1 & e2 & Hv & Hr & Hsc & Hrc & Hss).
  apply Hw in Hv. unfold window, held, read_since, written_since in *.
  rewrite Hr, Hsc, Hrc, Hss in *. rewrite !zlen_app in *.
  pose proof (zlen_nonneg d2). pose proof (zlen_nonneg e2). lia.
Qed.

(** ** The three benchmarks *)

Section pairs.
Context (ec es : env).
Context {KC : KernelIO ec} {CC : ClockOk ec} {MC : MallocOk ec}.
Context {KS : KernelIO es} {CS : ClockOk es} {MS : MallocOk es}.
Context (args : Arguments) (AOK : args_ok args) (hc0 hs0 : hist).

(** C1. fifo: the client never runs into undefined behaviour and at every moment has written
    at most [size * rate] bytes more than it has read, never less; the server connected to it
    holds between 0 and [size * rate] bytes at every moment, so its buffer is never overrun; it
    ends normally, unless it is stopped before the first byte (it then reads an uninitialised
    start time) or the message rate does not fit an [int]. *)
Theorem fifo_pair_safe rc wc rs ws :
  connected ec es rc wc rs ws (Fifo.Client.communicate rc wc args) hc0 hs0 ->
  safe ec (window rc wc (maxOutstandingBytes args) hc0) hc0 (Fifo.Client.communicate rc wc args)
    (fun o _ => o = Val tt \/ o = Halted AssertFailed) /\
  safe es (held_ok rs ws (maxOutstandingBytes args) hs0) hs0 (Fifo.Server.communicate rs ws args)
    (fun o h' => o = Val tt \/
      o = Halted (Undefined Indeterminate) /\ read_since rs hs0 h' <= 0 \/
      o = Halted (Undefined ConversionOverflow)).
Proof.
  intros HC. pose proof (Fifo.fifo_client_safe ec rc wc args AOK hc0) as Hc.
  pose proof (connected_peer _ _ _ _ _ _ _ _ _ _ _ Hc HC) as PW.
  split; [done|]. by apply (Fifo.fifo_server_safe es).
Qed.

(** C2. domain: the same guarantees, over one socket descriptor on each side. *)
Theorem domain_pair_safe fc fs :
  connected ec es fc fc fs fs (Domain.Client.communicate fc args) hc0 hs0 ->
  safe ec (window fc fc (maxOutstandingBytes args) hc0) hc0 (Domain.Client.communicate fc args)
    (fun o _ => o = Val tt \/ o = Halted AssertFailed) /\
  safe es (held_ok fs fs (maxOutstandingBytes args) hs0) hs0 (Domain.Server.communicate fs args)
    (fun o h' => o = Val tt \/
      o = Halted (Undefined Indeterminate) /\ read_since fs hs0 h' <= 0 \/
      o = Halted (Undefined ConversionOverflow)).
Proof.
  intros HC. pose proof (Domain.domain_client_safe ec fc args AOK hc0) as Hc.
  pose proof (connected_peer _ _ _ _ _ _ _ _ _ _ _ Hc HC) as PW.
  split; [done|]. by apply (Domain.domain_server_safe es).
Qed.

(** C3. tcp: the same guarantees; the clock of this server starts before its loop, so that
    only the message rate can be undefined. *)
Theorem tcp_pair_safe fc fs :
  connected ec es fc fc fs fs (Tcp.Client.communicate fc args) hc0 hs0 ->
  safe ec (window fc fc (maxOutstandingBytes args) hc0) hc0 (Tcp.Client.communicate fc args)
    (fun o _ => o = Val tt \/ o = Halted AssertFailed) /\
  safe es (held_ok fs fs (maxOutstandingBytes args) hs0) hs0 (Tcp.Server.communicate fs args)
    (fun o _ => o = Val tt \/ o = Halted (Undefined ConversionOverflow)).
Proof.
  intros HC. pose proof (Tcp.tcp_client_safe ec fc args AOK hc0) as Hc.
  pose proof (connected_peer _ _ _ _ _ _ _ _ _ _ _ Hc HC) as PW.
  split; [done|]. by apply (Tcp.tcp_server_safe es).
Qed.
End pairs.

(** ** A concrete pair: the client writes its window of four bytes and is stopped *)

Definition sample_args : Arguments := Args 2 10 2.

Lemma sample_args_ok : args_ok sample_args.
Proof. by split. Qed.

Lemma sample_connected client rc wc rs ws o hc :
  eval (one_shot wc) [] client o hc -> sent wc hc = [0; 0; 0; 0] -> received rc hc = [] ->
  connected (one_shot wc) (feeder rs [0; 0; 0; 0]) rc wc rs ws client [] [].
Proof.
  intros He Hs Hr hs Hx. destruct (feeder_prefix _ _ _ Hx) as [d Hd].
  exists hc, (received rs hs), d, [], (sent ws hs).
  split_and!; [by eapply eval_visits|done|by rewrite Hs|done|done].
Qed.

(** A client run against [one_shot], by evaluation: it sends the four bytes, is told to quit
    before a reply, and fails the assertion of its report. *)
Lemma one_shot_connected client rc wc rs ws :
  option_map fst (run (one_shot wc) 20 [] client) = Some (Halted AssertFailed) ->
  sent wc (history 20 (one_shot wc) client) = [0; 0; 0; 0] ->
  received rc (history 20 (one_shot wc) client) = [] ->
  connected (one_shot wc) (feeder rs [0; 0; 0; 0]) rc wc rs ws client [] [].
Proof. intros Hr Hs Hv. eapply sample_connected; [by apply run_history|done|done]. Qed.

Lemma fifo_pair_safe_witness :
  safe (one_shot 5) (window 4 5 4 []) [] (Fifo.Client.communicate 4 5 sample_args)
    (fun o _ => o = Val tt \/ o = Halted AssertFailed) /\
  safe (feeder 6 [0; 0; 0; 0]) (held_ok 6 7 4 []) [] (Fifo.Server.communicate 6 7 sample_args)
    (fun o h' => o = Val tt \/
      o = Halted (Undefined Indeterminate) /\ read_since 6 [] h' <= 0 \/
      o = Halted (Undefined ConversionOverflow)).
Proof.
  destruct (one_shot_ok 5) as (? & ? & ?), (feeder_ok 6 [0; 0; 0; 0]) as (? & ? & ?).
  apply (fifo_pair_safe (one_shot 5) (feeder 6 [0; 0; 0; 0]) sample_args sample_args_ok).
  apply one_shot_connected; vm_compute; reflexivity.
Defined.

Lemma domain_pair_safe_witness :
  safe (one_shot 5) (window 5 5 4 []) [] (Domain.Client.communicate 5 sample_args)
    (fun o _ => o = Val tt \/ o = Halted AssertFailed) /\
  safe (feeder 6 [0; 0; 0; 0]) (held_ok 6 6 4 []) [] (Domain.Server.communicate 6 sample_args)
    (fun o h' => o = Val tt \/
      o = Halted (Undefined Indeterminate) /\ read_since 6 [] h' <= 0 \/
      o = Halted (Undefined ConversionOverflow)).
Proof.
  destruct (one_shot_ok 5) as (? & ? & ?), (feeder_ok 6 [0; 0; 0; 0]) as (? & ? & ?).
  apply (domain_pair_safe (one_shot 5) (feeder 6 [0; 0; 0; 0]) sample_args sample_args_ok).
  apply one_shot_connected; vm_compute; reflexivity.
Defined.

Lemma tcp_pair_safe_witness :
  safe (one_shot 5) (window 5 5 4 []) [] (Tcp.Client.communicate 5 sample_args)
    (fun o _ => o = Val tt \/ o = Halted AssertFailed) /\
  safe (feeder 6 [0; 0; 0; 0]) (held_ok 6 6 4 []) [] (Tcp.Server.communicate 6 sample_args)
    (fun o _ => o = Val tt \/ o = Halted (Undefined ConversionOverflow)).
Proof.
  destruct (one_shot_ok 5) as (? & ? & ?), (feeder_ok 6 [0; 0; 0; 0]) as (? & ? & ?).
  apply (tcp_pair_safe (one_shot 5) (feeder 6 [0; 0; 0; 0]) sample_args sample_args_ok).
  apply one_shot_connected; vm_compute; reflexivity.
Defined.
