(* ===== verification/Anomalies.v ===== *)
(** * Runs in which the counters of the clients and the echo of the servers go wrong

    Short reads and writes, which the calls allow, with kernels of Samples.v: each theorem
    runs a program of the library to its end. *)

From S2P Require Import Prelude CInt Prog Stream Arguments Benchmarks Times Echo EchoClient.
From S2P Require Import EchoServer Samples Domain Tcp Fifo.

(** A client of the domain benchmark on descriptor 5, from the locals before its loop. *)
Definition run_client (args : Arguments) (e : env) : option (outcome client * hist) :=
  let m := Z.to_nat (maxOutstandingBytes args) in
  run e 40 [] (client_loop (Domain.socket_transport 5) args (replicate m 0) 1 0
    (client_start (replicate m 0) (replicate (Z.to_nat (count args)) 0)
      [Pollfd 5 (Z.lor POLLIN POLLOUT) 0])).

(** The whole [communicate] of a client of domain on descriptor 5, and of a server of fifo that
    reads from descriptor 4 and writes to descriptor 5. *)
Definition run_communicate (args : Arguments) (e : env) : option (outcome unit * hist) :=
  run e 40 [] (Domain.Client.communicate 5 args).

Definition run_server (args : Arguments) (e : env) : option (outcome unit * hist) :=
  run e 40 [] (Fifo.Server.communicate 4 5 args).

(** Requests are counted per call: when every reply arrives in two halves, the client reads
    all the bytes it wants and yet has counted no request, so its report fails the
    assertion that the count is positive. *)
Theorem client_completes_uncounted :
  exists e h, KernelIO e /\ ClockOk e /\ MallocOk e /\
    run_communicate (Args 8 1 1) e = Some (Halted AssertFailed, h) /\
    zlen (received 5 h) = maxBytes (Args 8 1 1).
Proof.
  destruct (capped_ok echoed [4; 0; 4; 0] []) as (H1 & H2 & H3).
  eexists (capped echoed [4; 0; 4; 0] []), _.
  split_and!; [done|done|done|by vm_compute|by vm_compute].
Qed.

(** [outstandingReqs] only counts the whole requests of each call: after a write that was
    split inside a request it is too small, and reading the replies takes it below zero, to
    [2^64 - 1]; while it is that large no request is stamped any more. *)
Theorem client_reqs_underflow :
  exists e st h, KernelIO e /\ ClockOk e /\
    run_client (Args 2 2 2) e = Some (Val st, h) /\
    c_outstandingReqs st = 2 ^ 64 - 1 /\ c_outstandingBytes st = 0 /\
    client_stamp (Args 2 2 2) st = Ret st.
Proof.
  destruct (capped_ok echoed [0] [2; 1; 0; 1; 0]) as (H1 & H2 & H3).
  eexists (capped echoed [0] [2; 1; 0; 1; 0]), _, _.
  split_and!; [done|done|by vm_compute|done|done|by vm_compute].
Qed.

(** After a short write the server reads the next bytes over those it still owes, and
    always writes from the front of its buffer: the bytes it sends are not those it received,
    although the numbers of bytes agree. *)
Theorem server_echo_reorders :
  exists e h, KernelIO e /\ PeerWindow e 4 5 4 [] /\
    option_map snd (run_server (Args 4 2 1) e) = Some h /\
    zlen (sent 5 h) = zlen (received 4 h) /\ sent 5 h <> received 4 h.
Proof.
  destruct (capped_ok (peer 4 5 4 (seqZ 0 8)) [] [2; 0; 1; 0]) as (H1 & H2 & H3).
  eexists (capped (peer 4 5 4 (seqZ 0 8)) [] [2; 0; 1; 0]), _.
  split_and!; [done|by apply peer_keeps_window|by vm_compute|by vm_compute|by vm_compute].
Qed.
